(* ===== verification/_CoqProject ===== *)
-Q . S2P
Prelude.v
Tags.v
SharedPtr.v
Barrier.v
Lifecycle.v
LifecycleInv.v
SendMulti.v
Request.v
MpiQueue.v
MpiCompact.v
MpiInv.v
MpiOps.v
MpiCancel.v
MpiApi.v
MpiWait.v
MpiExamples.v
UcxModel.v
UcxInv.v
UcxOps.v
UcxPost.v
UcxCancel.v
UcxApi.v
UcxExamples.v
LfModel.v
LfInv.v
LfOps.v
LfPost.v
LfApi.v
LfExamples.v
LfEnv.v
LfConfig.v
LfController.v
LfResources.v
LfControllerInv.v
LfControllerApi.v
LfControllerExamples.v
LfMemory.v
LfMemoryInv.v
LfMemoryExamples.v
UniqueFunction.v
Pool.v
Guards.v
Regions.v
Channel.v
Topology.v
Locality.v
MsgBuffer.v
MsgBufferInv.v
MsgBufferApi.v
MsgFrame.v
Fortran.v
FortranInv.v
FortranApi.v
AddressDb.v
Pmi.v
UcxLifecycle.v
UcxLifecycleInv.v
UcxLifecycleApi.v
NcclModel.v
NcclInv.v
NcclOps.v
NcclProgress.v
NcclApi.v
NcclExamples.v
