(* ===== verification/Prelude.v ===== *)
(** * oomph: a verification of the communication library

    oomph (src/) is a C++ library for asynchronous point-to-point communication.
    A program creates a [context] on an MPI communicator and any number of
    [communicator]s in it, posts sends and receives with callbacks, progresses
    them, cancels receives, and synchronizes threads with a [barrier].  One of
    four transports is chosen at build time: MPI, UCX, libfabric, NCCL.

    ** Parts and where they are modelled

    - Request states (src/src/request_state_base.hpp and the request_state.hpp of
      the backends): Request.v.  A [world] holds the live requests, the counters
      of scheduled operations, the logs of called and canceled requests, and the
      state of the backend.  [invoke_cb], [set_canceled], [release_self_ref] and
      the completion of a request are the functions of that name.
    - Reference counting (src/include/oomph/util/unsafe_shared_ptr.hpp):
      SharedPtr.v, control blocks and pointer variables in a heap; Pool.v the pools of
      communicators from which request states are made (pool_factory.hpp,
      pool_allocator.hpp).
    - MPI backend (src/src/mpi/): MpiQueue.v models request_queue.hpp, request.hpp
      and communicator.hpp, one Definition per member function; MpiCompact.v the
      in-place compaction of [progress]; MpiInv.v, MpiOps.v, MpiCancel.v the
      invariant and its preservation; MpiApi.v the theorems about reachable
      states; MpiWait.v the front end's [wait_all] and requests
      (src/include/oomph/communicator.hpp, src/src/request.cpp); MpiExamples.v a
      concrete transport.
    - Sends to many neighbours ([send_multi], src/include/oomph/communicator.hpp):
      SendMulti.v, with the aliasing of the shared counter and message.
    - UCX backend (src/src/ucx/): UcxModel.v (communicator.hpp, context.hpp,
      request_data.hpp, pthread_spin_mutex.hpp), UcxInv.v, UcxOps.v, UcxPost.v,
      UcxCancel.v, UcxApi.v, UcxExamples.v; AddressDb.v the exchange of worker
      addresses (address_db_mpi.hpp), run by all ranks, and Pmi.v the one through
      PMIx (pmi.hpp, address_db_pmi.hpp); UcxLifecycle.v the context,
      its workers and endpoints from construction to destruction (context.hpp,
      context.cpp, worker.hpp, endpoint.hpp), with UcxLifecycleInv.v and
      UcxLifecycleApi.v.
    - libfabric backend (src/src/libfabric/): LfModel.v (communicator.hpp,
      operation_context.cpp, the polling of controller.hpp, the context's progress
      and cancellation), LfInv.v, LfOps.v, LfPost.v, LfApi.v, LfExamples.v; LfEnv.v
      the settings read from the environment; LfConfig.v what the build decides;
      LfController.v the fabric objects the controller opens, hands to threads
      and closes, with LfResources.v, LfControllerInv.v, LfControllerApi.v,
      LfControllerExamples.v; LfMemory.v registered memory (memory_region.hpp),
      with LfMemoryInv.v and LfMemoryExamples.v; Locality.v the addresses of
      endpoints (locality.hpp) in every address format.
    - NCCL backend (src/src/nccl/): NcclModel.v (communicator.hpp,
      request_queue.hpp, the events with their pool and groups), NcclInv.v,
      NcclOps.v, NcclProgress.v, NcclApi.v, NcclExamples.v.
    - Message buffers and the front end (src/include/oomph/message_buffer.hpp,
      src/src/message_buffer.cpp, src/include/oomph/communicator.hpp,
      src/src/communicator.cpp): MsgBuffer.v, buffers with the memory they own, the
      closures that hold them while an operation is in flight, and every overload of
      send, recv and shared_recv; MsgBufferInv.v, MsgBufferApi.v, and MsgFrame.v (what
      operations leave alone), which the Fortran bindings use.  A closure is destroyed
      when its operation is over; in the code it stays, moved from or not, in the
      request state until that is freed.
    - Fortran bindings (src/bindings/fortran/): Fortran.v, on top of MsgBuffer.v and
      SendMulti.v, with the objects, pointers and request structures that the
      Fortran side holds, and the request states with the communicator they belong to;
      FortranInv.v has the contract ([fallowed]) and the invariant, FortranApi.v the
      theorems.
    - Callbacks (src/include/oomph/util/unique_function.hpp): UniqueFunction.v.
    - Small owners (increment_guard.hpp, device_guard.hpp, stack_storage.hpp,
      placement_new.hpp, moved_bit.hpp, mpi_comm_holder.hpp, simple_counter.hpp):
      Guards.v, a Module each.
    - Memory regions, window locks and the RMA context of the MPI backend
      (region.hpp, lock_cache.hpp, rma_context.hpp; the regions of UCX are alike):
      Regions.v.
    - Channels (src/src/mpi/channel_base.hpp, recv_channel.hpp,
      src/include/oomph/channel/recv_channel.hpp): Channel.v.
    - Ranks of a node and the base of a context (rank_topology.hpp,
      common/rank_topology.cpp, mpi_comm.hpp, context_base.hpp): Topology.v.
    - Barrier (src/include/oomph/barrier.hpp, src/src/barrier.cpp): Barrier.v, a
      step relation in which any number of threads interleave at every access to
      the shared atomics.
    - Contexts and communicators (src/src/context.cpp, communicator_state.cpp,
      unique_ptr_set.hpp, communicator_set_impl.hpp): Lifecycle.v and
      LifecycleInv.v.
    - Tags (the tag words of the UCX and libfabric backends, the number of tag bits
      of each): Tags.v.

    ** How code becomes definitions

    Code that has state is a computation of the monad [M] below: it returns,
    throws an exception, or halts.  Undefined behaviour, failed assertions,
    [std::terminate], waiting for a lock the thread holds, and loops that use up
    their fuel are the ways to halt, so that "returns" in a theorem excludes all
    of them.  The state survives exceptions.  Libraries that are not under src/
    (MPI, UCX, PMIx, libfabric, NCCL and CUDA, hwmalloc) and the user's callbacks are
    parameters: classes ([Mpi], [Fabric], [Provider], [Registrar], ...) or records
    for the calls, laws for the documented behaviour that a theorem relies on.  Each
    has a concrete instance, on which the theorems are applied.

    ** Scope of the theorems about backends

    A law is documented behaviour of a library, or marks the runs a theorem speaks
    of; the doc comment of each theorem says which.
    - MPI: results are checked as in a debug build (with [NDEBUG] the code ignores
      them, mpi_error.hpp), and [MpiLaws] describes runs without an error.  Reachable
      states are those before MPI refuses a cancellation; [failed_cancel_undefined]
      shows what follows a refusal.  No order of the positions of [MPI_Testsome] is
      assumed, except where a theorem says so; [unordered_report_lost] shows what the
      code makes of another order.
    - UCX: [UcxLaws] holds for every answer of UCX, [UcxFaultless] marks runs without
      an error.  Receives are canceled while they are in flight, shared ones while no
      shared cancellation has succeeded: theorems of kind "error" show why.  Sends go
      to the ranks of the address database ([peers]); others throw.
    - libfabric: [FabricLaws] has no error but cancellations (any other ends the
      program); the poll size is at most 256 where a theorem says so.
    - NCCL: [NcclLaws] is about events, [NcclFaultless] marks runs in which no CUDA
      or NCCL call fails.

    ** Numbers and threads

    Integers that can wrap are [Z] with [u32] and [u64] written out.  The backends
    are driven by one thread, with callbacks that may call back into the library;
    the barrier is modelled with threads under sequential consistency.

    ** What the theorems show

    - For each of the four backends, within the scope above: in every state a program
      reaches, the requests ever posted are partitioned into waiting, called once and
      canceled ones (the NCCL backend cannot cancel); every operation is safe from
      every such state; progress terminates when callbacks do not post.  For MPI also:
      the counters behind [is_ready] count the queued requests, the compaction equals
      a partition of the queue, posting completes in place exactly up to the recursion
      limit, cancellation removes exactly its receive, [wait_all] and [wait] return
      when callbacks leave the library alone and MPI completes what it was given.
    - For NCCL also: every CUDA event is owned once, the loop over a queue is a
      stable partition, and progress completes what the device has finished.
    - For the Fortran bindings: programs that keep the contract are safe, the
      flag a request structure reports is set exactly when its operation is over, null
      pointers terminate.
    - For the shared pointers: use counts, no use after free, no leak; the same for
      request states in pools and for the function objects that hold callbacks.
    - For message buffers: the memory of every operation in flight is live, large
      enough and owned once; callbacks get the buffer of their operation; elements
      stay inside the memory after conversions.
    - For the UCX context: every rank learns every address, connections are made
      once, the destructor returns and gives back every UCX object it knows of; with PMIx the
      address found is the one announced, whatever the order of the PMIx ranks is.
    - For guards, storages, regions, locks and buffers of channels: what is taken is
      given back once, wherever the objects are moved; for channels also that flags
      and buffers lie inside the memory; for a node that its ranks are numbered.
    - For [send_multi]: the callback is called once, after the last send, with the
      original message; every neighbour is sent to once.
    - For the barrier: no thread leaves a round before all have arrived, one thread
      per round is elected, and from every state all threads can leave the round.
    - For contexts and communicators: nothing dangles when communicators are
      destroyed where they were created, before their context, and callbacks create
      and destroy none; the progress that the barrier makes reaches exactly the communicators of its thread.
    - For the libfabric controller: the destructor closes everything that was
      opened, users before the objects they use; for registered memory: every
      region is deregistered once, but for those a move assignment loses; for addresses and settings: round trips.
    - For tags: when two messages match, how many tag bits a transport has.
    - Theorems of kind "error" show where the code fails its purpose (lost
      callbacks, endless loops, self-deadlock, leaks); they are listed as findings.

    ** Fuel and bounds

    [pop_until_ready] has the length of the queue as fuel, which is exact.  Fuel of
    [wait_all] and [wait] is the number of queued requests plus the transport's
    delay, of UCX progress [need w], of libfabric progress one more than the number
    of places where requests wait; termination theorems show that this much is
    enough.  Loops that may legitimately go on (posting while the fabric asks for
    another try, callbacks that post) take any fuel, and safety theorems allow
    only [out_of_fuel] as the way not to return.

    Passes of the UCX context's destructor over its close handles are bounded by the
    first one after its time-out; the exchange of addresses takes two broadcasts per
    rank.

    [wait] of a Fortran request takes any fuel.

    ** Not modelled

    The exchange of keys and the sending of channels, which the sources leave
    unfinished, the pimpl helpers apart from the one of message buffers, the block of
    the libfabric controller for the GNI provider, the parameters of [ucp_mem_map],
    the functions of the Fortran bindings that only forward (rank, size, progress,
    barrier): they have no state of their own or only call libraries outside src/.
    Debug printing, error formatting, tests and benchmarks: not part of the
    communication logic.  Data races between threads other than at the barrier are
    outside the model. *)
From stdpp Require Export prelude gmap strings list sorting.

(** ** Outcomes of C++ code *)

(** Exceptions the sources throw. *)
Inductive exn : Type :=
| runtime_error (msg : string)
| logic_error (msg : string)
| bad_alloc.

(** Ways a computation stops without returning or throwing: undefined
    behaviour of the language, a failed [assert] of a debug build, a call of
    [std::terminate], a wait for a lock the thread itself holds, or a loop that
    has used up the fuel of its model. *)
Inductive halt : Type :=
| undefined_behaviour
| assert_failed
| terminated
| deadlock
| out_of_fuel.

Inductive outcome (A : Type) : Type :=
| Ret (a : A)
| Throw (e : exn)
| Halt (h : halt).
Arguments Ret {A} a.
Arguments Throw {A} e.
Arguments Halt {A} h.

#[export] Instance exn_eq_dec : EqDecision exn.
Proof. solve_decision. Defined.
#[export] Instance halt_eq_dec : EqDecision halt.
Proof. solve_decision. Defined.
#[export] Instance outcome_eq_dec `{EqDecision A} : EqDecision (outcome A).
Proof. solve_decision. Defined.

(** A stateful computation: the state survives an exception, because the
    sources leave locks, counters and queues behind when they throw. *)
Definition M (S A : Type) : Type := S → outcome A * S.

Definition ret {S A} (a : A) : M S A := λ s, (Ret a, s).
Definition bnd {S A B} (m : M S A) (k : A → M S B) : M S B := λ s,
  match m s with
  | (Ret a, s') => k a s'
  | (Throw e, s') => (Throw e, s')
  | (Halt h, s') => (Halt h, s')
  end.
Definition throw {S A} (e : exn) : M S A := λ s, (Throw e, s).
Definition stop {S A} (h : halt) : M S A := λ s, (Halt h, s).
Definition get {S} : M S S := λ s, (Ret s, s).
Definition gets {S A} (f : S → A) : M S A := λ s, (Ret (f s), s).
Definition modify {S} (f : S → S) : M S unit := λ s, (Ret tt, f s).
Definition cassert {S} (b : bool) : M S unit :=
  if b then ret tt else stop assert_failed.

(** A scope whose local object has the destructor [dtor]: the destructor runs
    when the body returns and when it throws. *)
Definition scoped {S A} (body : M S A) (dtor : M S unit) : M S A := λ s,
  match body s with
  | (Ret a, s') => bnd dtor (λ _, ret a) s'
  | (Throw e, s') => bnd dtor (λ _, throw e) s'
  | (Halt h, s') => (Halt h, s')
  end.

(** An exception of [body] passes after [handler] has run: the destruction of
    what a throwing expression leaves behind. *)
Definition on_exception {S A} (body : M S A) (handler : M S unit) : M S A := λ s,
  match body s with
  | (Throw e, s') => bnd handler (λ _, throw e) s'
  | r => r
  end.

Declare Scope oomph_scope.
Delimit Scope oomph_scope with oomph.
Notation "'let!' x ':=' m 'in' k" := (bnd m (λ x, k))
  (at level 10, x binder, m at level 100, k at level 200) : oomph_scope.
Notation "m ;;; k" := (bnd m (λ _, k))
  (at level 100, right associativity) : oomph_scope.
#[global] Open Scope oomph_scope.

(** [for (auto x : l) body(x);] *)
Fixpoint mfor {S A} (l : list A) (body : A → M S unit) : M S unit :=
  match l with
  | [] => ret tt
  | x :: l => body x ;;; mfor l body
  end.

Lemma bnd_ret {S A B} (m : M S A) (k : A → M S B) s a s' :
  m s = (Ret a, s') → bnd m k s = k a s'.
Proof. unfold bnd. by intros ->. Qed.

Lemma scoped_ret {S A} (body : M S A) dtor s a s' :
  body s = (Ret a, s') → scoped body dtor s = bnd dtor (λ _, ret a) s'.
Proof. unfold scoped. by intros ->. Qed.

Lemma bnd_ext {S A B} (m : M S A) (k k' : A → M S B) s :
  (∀ a s, k a s = k' a s) → bnd m k s = bnd m k' s.
Proof. intros Hk. unfold bnd. destruct (m s) as [[] ?]; auto. Qed.

Lemma bnd_inv {S A B} (m : M S A) (k : A → M S B) s b s' :
  bnd m k s = (Ret b, s') → ∃ a s1, m s = (Ret a, s1) ∧ k a s1 = (Ret b, s').
Proof. unfold bnd. destruct (m s) as [[] ?]; [eauto|done..]. Qed.

Lemma bnd_assoc {S A B C} (m : M S A) (k : A → M S B) (k' : B → M S C) s :
  bnd (bnd m k) k' s = bnd m (λ a, bnd (k a) k') s.
Proof. unfold bnd. by destruct (m s) as [[] ?]. Qed.

Lemma scoped_ret_unit {S} (body : M S unit) dtor s :
  scoped (body ;;; ret tt) dtor s = scoped body dtor s.
Proof. unfold scoped, bnd, ret. by destruct (body s) as [[[]| |] ?]. Qed.

Lemma mfor_app {S A} (l1 l2 : list A) (body : A → M S unit) s :
  mfor (l1 ++ l2) body s = (mfor l1 body ;;; mfor l2 body) s.
Proof.
  revert s. induction l1 as [|x l1 IH]; intros s; [done|].
  cbn. unfold bnd. destruct (body x s) as [[[]| |] s1]; [|done..].
  apply IH.
Qed.

(** A loop over the positions of a list is a loop over its elements. *)
Lemma mfor_seq {S A} (f : nat → M S unit) (g : A → M S unit) j l s :
  (∀ i x s, l !! i = Some x → f (j + i) s = g x s) → mfor (seq j (length l)) f s = mfor l g s.
Proof.
  revert j s. induction l as [|x l IH]; intros j s Hf; cbn; [done|]. unfold bnd.
  rewrite <- (Hf 0 x s eq_refl), Nat.add_0_r. destruct (f j s) as [[[]| |] s']; [|done..].
  apply IH. intros i y s1 Hi. rewrite <- (Hf (1 + i) y s1 Hi). f_equal. lia.
Qed.

(** A loop keeps an invariant that every iteration keeps; the invariant may
    mention the elements that are still to be visited. *)
Lemma mfor_invariant {S A} (I : list A → S → Prop) (body : A → M S unit) l s :
  (∀ x l' s, I (x :: l') s → ∃ s', body x s = (Ret tt, s') ∧ I l' s') →
  I l s → ∃ s', mfor l body s = (Ret tt, s') ∧ I [] s'.
Proof.
  intros Hb. revert s. induction l as [|x l IH]; intros s HI.
  - exists s. done.
  - destruct (Hb _ _ _ HI) as (s1 & E & HI1).
    destruct (IH _ HI1) as (s2 & E2 & HI2).
    exists s2. cbn. by rewrite (bnd_ret _ _ _ _ _ E).
Qed.

(** ** Weakest preconditions

    [wp E m Q s]: run from [s], the computation returns and [Q] holds of the
    result, or it halts in a way [E] allows; it does not throw. *)
Definition wp {S A} (E : halt → Prop) (m : M S A) (Q : A → S → Prop) (s : S) : Prop :=
  match m s with
  | (Ret a, s') => Q a s'
  | (Throw _, _) => False
  | (Halt h, _) => E h
  end.

Section wp.
Context {S : Type} (E : halt → Prop).
Implicit Types s : S.

Lemma wp_ret {A} (a : A) Q s : Q a s → wp E (ret a) Q s.
Proof. done. Qed.
Lemma wp_gets {A} (f : S → A) Q s : Q (f s) s → wp E (gets f) Q s.
Proof. done. Qed.
Lemma wp_modify (f : S → S) Q s : Q tt (f s) → wp E (modify f) Q s.
Proof. done. Qed.
Lemma wp_stop {A} h (Q : A → S → Prop) s : E h → wp E (stop h) Q s.
Proof. done. Qed.

Lemma wp_bnd {A B} (m : M S A) (k : A → M S B) Q s :
  wp E m (λ a, wp E (k a) Q) s → wp E (bnd m k) Q s.
Proof. unfold wp, bnd. by destruct (m s) as [[] ?]. Qed.

Lemma wp_mono {A} (m : M S A) (Q Q' : A → S → Prop) s :
  wp E m Q s → (∀ a s', Q a s' → Q' a s') → wp E m Q' s.
Proof. unfold wp. destruct (m s) as [[] ?]; auto. Qed.

Lemma wp_from {A} (m : M S A) (Q : A → S → Prop) s a s' :
  m s = (Ret a, s') → Q a s' → wp E m Q s.
Proof. unfold wp. by intros ->. Qed.

Lemma wp_scoped {A} (body : M S A) dtor Q s :
  wp E body (λ a s', wp E dtor (λ _, Q a) s') s → wp E (scoped body dtor) Q s.
Proof.
  unfold wp, scoped, bnd, ret. destruct (body s) as [[] ?]; [|done..].
  by destruct (dtor _) as [[] ?].
Qed.

Lemma wp_inv {A} (m : M S A) (Q : A → S → Prop) s a s' :
  wp E m Q s → m s = (Ret a, s') → Q a s'.
Proof. unfold wp. intros Hm E1. by rewrite E1 in Hm. Qed.

(** A loop whose iterations keep an invariant that may mention the elements
    still to be visited. *)
Lemma wp_mfor {A} (I : list A → S → Prop) (body : A → M S unit) l s :
  (∀ x l' s, I (x :: l') s → wp E (body x) (λ _, I l') s) →
  I l s → wp E (mfor l body) (λ _, I []) s.
Proof.
  intros Hb. revert s. induction l as [|x l IH]; intros s HI; [done|].
  cbn. apply wp_bnd. eapply wp_mono; [by apply Hb|]. intros ? s'. apply IH.
Qed.

(** The handler of an exception that does not come. *)
Lemma wp_on_exception {A} (body : M S A) handler (Q : A → S → Prop) s :
  wp E body Q s → wp E (on_exception body handler) Q s.
Proof. unfold wp, on_exception. by destruct (body s) as [[] ?]. Qed.

(** If no halt is allowed, the computation returns. *)
Lemma wp_returns {A} (m : M S A) (Q : A → S → Prop) s :
  (∀ h, ¬ E h) → wp E m Q s → ∃ a s', m s = (Ret a, s') ∧ Q a s'.
Proof. intros HE. unfold wp. destruct (m s) as [[] ?]; naive_solver. Qed.
End wp.

(** The same for code that may also throw: [X] states which exceptions. *)
Definition wpx {S A} (E : halt → Prop) (X : exn → Prop) (m : M S A) (Q : A → S → Prop) (s : S) : Prop :=
  match m s with
  | (Ret a, s') => Q a s'
  | (Throw e, _) => X e
  | (Halt h, _) => E h
  end.

Section wpx.
Context {S : Type} (E : halt → Prop) (X : exn → Prop).
Implicit Types s : S.

Lemma wpx_ret {A} (a : A) Q s : Q a s → wpx E X (ret a) Q s.
Proof. done. Qed.
Lemma wpx_get (Q : S → S → Prop) s : Q s s → wpx E X get Q s.
Proof. done. Qed.
Lemma wpx_modify (f : S → S) Q s : Q tt (f s) → wpx E X (modify f) Q s.
Proof. done. Qed.
Lemma wpx_stop {A} h (Q : A → S → Prop) s : E h → wpx E X (stop h) Q s.
Proof. done. Qed.
Lemma wpx_throw {A} e (Q : A → S → Prop) s : X e → wpx E X (throw e) Q s.
Proof. done. Qed.

Lemma wpx_bnd {A B} (m : M S A) (k : A → M S B) Q s :
  wpx E X m (λ a, wpx E X (k a) Q) s → wpx E X (bnd m k) Q s.
Proof. unfold wpx, bnd. by destruct (m s) as [[] ?]. Qed.

Lemma wpx_mono {A} (m : M S A) (Q Q' : A → S → Prop) s :
  wpx E X m Q s → (∀ a s', Q a s' → Q' a s') → wpx E X m Q' s.
Proof. unfold wpx. destruct (m s) as [[] ?]; auto. Qed.

Lemma wpx_inv {A} (m : M S A) (Q : A → S → Prop) s a s' :
  wpx E X m Q s → m s = (Ret a, s') → Q a s'.
Proof. unfold wpx. intros Hm E1. by rewrite E1 in Hm. Qed.

Lemma wpx_mfor {A} (I : list A → S → Prop) (body : A → M S unit) l s :
  (∀ x l' s, I (x :: l') s → wpx E X (body x) (λ _, I l') s) →
  I l s → wpx E X (mfor l body) (λ _, I []) s.
Proof.
  intros Hb. revert s. induction l as [|x l IH]; intros s HI; [done|].
  cbn. apply wpx_bnd. eapply wpx_mono; [by apply Hb|]. intros ? s'. apply IH.
Qed.
End wpx.

(** ** Fixed-width integers *)

(** [int], [unsigned int], [std::size_t], [std::uint64_t]... on the LP64
    platforms the library is built for. *)
Definition u32 (z : Z) : Z := z mod 2 ^ 32.
Definition u64 (z : Z) : Z := z mod 2 ^ 64.
Definition is_int (z : Z) : Prop := (- 2 ^ 31 ≤ z < 2 ^ 31)%Z.

Lemma u64_small z : (0 ≤ z < 2 ^ 64)%Z → u64 z = z.
Proof. apply Z.mod_small. Qed.
Lemma u32_small z : (0 ≤ z < 2 ^ 32)%Z → u32 z = z.
Proof. apply Z.mod_small. Qed.
Lemma u64_add_l a b : u64 (u64 a + b) = u64 (a + b).
Proof. apply Z.add_mod_idemp_l. lia. Qed.
(** An [increment_guard] restores its counter. *)
Lemma u64_inc_dec d : (0 ≤ d < 2 ^ 64)%Z → u64 (u64 (d + 1) + -1) = d.
Proof. intros Hd. rewrite u64_add_l. replace (d + 1 + -1)%Z with d by lia. by apply u64_small. Qed.
Lemma u64_range z : (0 ≤ u64 z < 2 ^ 64)%Z.
Proof. apply Z.mod_pos_bound. lia. Qed.

(** ** Words made of two fields *)

Lemma testbit_above l n i :
  (0 ≤ l < 2 ^ n)%Z → (0 ≤ n ≤ i)%Z → Z.testbit l i = false.
Proof.
  intros Hl Hn. rewrite <- (Z.mod_small l (2 ^ n)) by done.
  apply Z.mod_pow2_bits_high. lia.
Qed.

(** A low field of [n] bits does not meet the bits above it. *)
Lemma land_field_low h l n :
  (0 ≤ n)%Z → (0 ≤ l < 2 ^ n)%Z → Z.land (h * 2 ^ n) l = 0%Z.
Proof.
  intros Hn Hl. apply Z.bits_inj'. intros i Hi.
  rewrite Z.land_spec, Z.bits_0. destruct (Z.ltb_spec i n).
  - by rewrite Z.mul_pow2_bits_low.
  - rewrite (testbit_above l n) by lia. apply andb_false_r.
Qed.

Lemma lor_field_low h l n :
  (0 ≤ n)%Z → (0 ≤ l < 2 ^ n)%Z → Z.lor (h * 2 ^ n) l = (h * 2 ^ n + l)%Z.
Proof. intros. rewrite Z.add_nocarry_lor; [done|]. by apply land_field_low. Qed.

(** A mask whose low [n] bits are clear selects from the field above them. *)
Lemma land_high_mask x m n :
  (0 ≤ n)%Z → Z.land x (m * 2 ^ n) = (Z.land (x / 2 ^ n) m * 2 ^ n)%Z.
Proof.
  intros Hn. apply Z.bits_inj'. intros i Hi. rewrite Z.land_spec.
  destruct (Z.ltb_spec i n).
  - rewrite !Z.mul_pow2_bits_low by done. apply andb_false_r.
  - rewrite <- !Z.shiftl_mul_pow2, !Z.shiftl_spec, Z.land_spec by lia.
    rewrite <- Z.shiftr_div_pow2, Z.shiftr_spec by lia.
    by replace (i - n + n)%Z with i by lia.
Qed.

(** ** Lists *)

Lemma NoDup_snoc {A} (l : list A) x : NoDup l → x ∉ l → NoDup (l ++ [x]).
Proof.
  intros Hl Hx. apply NoDup_app. split_and!; [done|set_solver|].
  apply NoDup_singleton.
Qed.

Lemma NoDup_not_elem_take {A} (l : list A) i x : NoDup l → l !! i = Some x → x ∉ take i l.
Proof.
  intros Hnd Hi Hin. rewrite <- (take_drop_middle l i x Hi) in Hnd.
  apply NoDup_app in Hnd as (_ & Hd & _). apply (Hd x Hin). set_solver.
Qed.

Lemma drop_S' {A} (l : list A) n x t : drop n l = x :: t → drop (S n) l = t.
Proof. intros E. by rewrite <- Nat.add_1_r, <- drop_drop, E. Qed.

(** ** Filtering *)

Lemma filter_none {A} (P : A → Prop) `{∀ x, Decision (P x)} (l : list A) :
  (∀ x, x ∈ l → ¬ P x) → filter P l = [].
Proof.
  induction l as [|x l IH]; intros Hl; [done|].
  rewrite filter_cons_False by (apply Hl; set_solver). apply IH. set_solver.
Qed.

Lemma filter_all {A} (P : A → Prop) `{∀ x, Decision (P x)} (l : list A) :
  (∀ x, x ∈ l → P x) → filter P l = l.
Proof.
  induction l as [|x l IH]; intros Hl; [done|].
  rewrite filter_cons_True by (apply Hl; set_solver). f_equal. apply IH. set_solver.
Qed.

(** An element that occurs once, and the rest. *)
Lemma filter_ne_perm {A} `{EqDecision A} (l : list A) x :
  NoDup l → x ∈ l → l ≡ₚ x :: filter (λ y, y ≠ x) l.
Proof.
  induction l as [|z l IH]; intros Hnd Hin; [set_solver|]. apply NoDup_cons in Hnd as [Hz Hnd].
  destruct (decide (z = x)) as [->|Hne].
  - rewrite filter_cons_False by naive_solver. rewrite filter_all; [done|]. set_solver.
  - rewrite filter_cons_True by done. rewrite (IH Hnd) at 1 by set_solver. constructor.
Qed.

(** ** Counting the elements of a list *)

Section list_count.
Context {A : Type} (P : A → bool).
Implicit Types l : list A.

Fixpoint list_count l : nat :=
  match l with
  | [] => 0
  | x :: l => Nat.b2n (P x) + list_count l
  end.

Lemma list_count_insert l i x y :
  l !! i = Some x →
  list_count (<[i := y]> l) + Nat.b2n (P x) = list_count l + Nat.b2n (P y).
Proof.
  revert i. induction l as [|z l IH]; intros [|i] Hi; simplify_eq/=; [lia|].
  specialize (IH i Hi). lia.
Qed.

Lemma list_count_le l : list_count l ≤ length l.
Proof. induction l as [|x l IH]; cbn; [done|]. destruct (P x); cbn; lia. Qed.

Lemma list_count_all l : list_count l = length l → ∀ i x, l !! i = Some x → P x = true.
Proof.
  induction l as [|z l IH]; intros Hc [|i] x Hi; cbn in *; simplify_eq.
  - pose proof (list_count_le l). destruct (P x); [done|]. cbn in Hc. lia.
  - pose proof (list_count_le l). apply (IH ltac:(destruct (P z); cbn in Hc; lia) i x Hi).
Qed.

(** All elements but one are counted: every other element is. *)
Lemma list_count_all_but l i x :
  l !! i = Some x → P x = false → S (list_count l) = length l →
  ∀ j y, l !! j = Some y → j ≠ i → P y = true.
Proof.
  revert i. induction l as [|z l IH]; intros [|i] Hi Hx Hc [|j] y Hj Hne; cbn in *; simplify_eq; try done.
  - rewrite Hx in Hc. cbn in Hc. by apply (list_count_all l ltac:(lia) j).
  - destruct (P y) eqn:E; [done|exfalso]. cbn in Hc.
    rewrite (list_count_all l ltac:(lia) i x Hi) in Hx. done.
  - apply (IH i Hi Hx) with j; [|done|lia]. pose proof (list_count_le l).
    assert (list_count l ≠ length l) by (intros E; rewrite (list_count_all l E i x Hi) in Hx; done).
    destruct (P z); cbn in Hc; lia.
Qed.

Lemma list_count_zero l : (∀ x, x ∈ l → P x = false) → list_count l = 0.
Proof.
  induction l as [|x l IH]; intros Hl; cbn; [done|].
  rewrite (Hl x), IH by set_solver. done.
Qed.

Lemma list_count_ge l : (∀ i x, l !! i = Some x → P x = true) → list_count l = length l.
Proof.
  induction l as [|x l IH]; intros Hl; cbn; [done|].
  rewrite (Hl 0 x eq_refl), IH; [done|]. intros i y Hy. by apply (Hl (S i)).
Qed.

Lemma list_count_lt l i x : l !! i = Some x → P x = false → list_count l < length l.
Proof.
  intros Hi Hx. pose proof (list_count_le l).
  assert (list_count l ≠ length l) by (intros E; rewrite (list_count_all l E i x Hi) in Hx; done). lia.
Qed.

Lemma list_count_ex l : list_count l < length l → ∃ i x, l !! i = Some x ∧ P x = false.
Proof.
  induction l as [|z l IH]; cbn; intros Hlt; [lia|]. destruct (P z) eqn:E.
  - destruct IH as (i & x & Hi & Hx); [cbn in Hlt; lia|]. by exists (S i), x.
  - by exists 0, z.
Qed.

Lemma list_count_pos l i x : l !! i = Some x → P x = true → 0 < list_count l.
Proof.
  revert i. induction l as [|z l IH]; intros [|i] Hi Hx; cbn in *; simplify_eq; [rewrite Hx; cbn; lia|].
  specialize (IH i Hi Hx). lia.
Qed.

Lemma list_count_app l k : list_count (l ++ k) = list_count l + list_count k.
Proof. induction l as [|z l IH]; cbn; lia. Qed.

Lemma list_count_delete l i x :
  l !! i = Some x → list_count l = Nat.b2n (P x) + list_count (delete i l).
Proof.
  revert i. induction l as [|z l IH]; intros [|i] Hi; simplify_eq/=; [done|].
  rewrite (IH i Hi). lia.
Qed.
End list_count.

(** ** Counting the entries of a map *)

Section map_count.
Context {K V : Type} `{Countable K} (P : V → Prop) `{!∀ v, Decision (P v)}.
Implicit Types m : gmap K V.

Definition map_count m : nat := size (filter (λ kv, P kv.2) m).
Definition indicator (v : V) : nat := if decide (P v) then 1 else 0.

Lemma map_count_insert_fresh m k v :
  m !! k = None → map_count (<[k := v]> m) = map_count m + indicator v.
Proof.
  intros Hk. unfold map_count, indicator. rewrite map_filter_insert. cbn.
  case_decide.
  - rewrite map_size_insert_None; [lia|]. apply map_lookup_filter_None. by left.
  - rewrite delete_id by done. lia.
Qed.

Lemma map_count_delete m k v :
  m !! k = Some v → map_count m = map_count (delete k m) + indicator v.
Proof.
  intros Hk. rewrite <- (insert_delete_id m k v) at 1 by done.
  apply map_count_insert_fresh, lookup_delete_eq.
Qed.

Lemma map_count_update m k v w :
  m !! k = Some w → map_count (<[k := v]> m) + indicator w = map_count m + indicator v.
Proof.
  intros Hk. rewrite <- insert_delete_eq.
  rewrite map_count_insert_fresh by apply lookup_delete_eq.
  rewrite (map_count_delete m k w) by done. lia.
Qed.

Lemma map_count_le_size m : map_count m ≤ size m.
Proof. apply map_size_filter. Qed.

Lemma map_count_pos m k v : m !! k = Some v → P v → 0 < map_count m.
Proof.
  intros Hk HP. rewrite (map_count_delete m k v) by done.
  unfold indicator. rewrite decide_True by done. lia.
Qed.

Lemma map_count_zero m : (∀ k v, m !! k = Some v → ¬ P v) → map_count m = 0.
Proof.
  intros Hn. apply map_size_empty_iff, map_empty. intros k.
  apply map_lookup_filter_None. right. intros v Hv. cbn. by eapply Hn.
Qed.

Lemma map_count_le_list m (L : list K) :
  (∀ k v, m !! k = Some v → P v → k ∈ L) → map_count m ≤ length L.
Proof.
  intros HL. unfold map_count. rewrite <- (size_dom (D := gset K)).
  assert (size (list_to_set L : gset K) ≤ length L) as HS.
  { clear HL. induction L as [|x L IH]; cbn [list_to_set length].
    - by rewrite size_empty.
    - rewrite size_union_alt, size_singleton.
      assert (size (list_to_set L ∖ {[x]} : gset K) ≤ size (list_to_set L : gset K)); [|lia].
      apply subseteq_size. set_solver. }
  etrans; [|exact HS]. apply subseteq_size.
  intros k (v & [Hk HP]%map_lookup_filter_Some)%elem_of_dom. apply elem_of_list_to_set. by eapply HL.
Qed.

Lemma map_count_dom m m' :
  (∀ k, (∃ v, m !! k = Some v ∧ P v) ↔ (∃ v, m' !! k = Some v ∧ P v)) →
  map_count m = map_count m'.
Proof.
  intros Hk. unfold map_count. rewrite <- !size_dom. f_equal. apply set_eq. intros k.
  rewrite !elem_of_dom. unfold is_Some. setoid_rewrite map_lookup_filter_Some. cbn. apply Hk.
Qed.

Lemma indicator_true v : P v → indicator v = 1.
Proof. intros. unfold indicator. by rewrite decide_True. Qed.
Lemma indicator_false v : ¬ P v → indicator v = 0.
Proof. intros. unfold indicator. by rewrite decide_False. Qed.
End map_count.

(** ** The elements of all lists in a map *)

Section all_queued.
Context {K A : Type} `{Countable K}.
Implicit Types m : gmap K (list A).

Definition all_queued m : list A := map_to_list m ≫= snd.

Lemma all_queued_insert m q l : all_queued (<[q := l]> m) ≡ₚ l ++ all_queued (delete q m).
Proof.
  unfold all_queued. rewrite <- insert_delete_eq.
  by rewrite map_to_list_insert by apply lookup_delete_eq.
Qed.

Lemma all_queued_split m q : all_queued m ≡ₚ default [] (m !! q) ++ all_queued (delete q m).
Proof.
  destruct (m !! q) as [l|] eqn:E; cbn; [|by rewrite delete_id].
  rewrite <- (insert_delete_id m q l) at 1 by done. rewrite all_queued_insert.
  by rewrite delete_delete_eq.
Qed.
End all_queued.

(** ** Automation *)

Create HintDb oomph.
#[export] Hint Resolve u64_range : oomph.

Create Rewrite HintDb counting.
#[export] Hint Rewrite @map_count_insert_fresh using done : counting.

(** Run the monadic program in the goal through equations about its calls. *)
Ltac mrun :=
  repeat match goal with
  | H : ?m ?s = (Ret _, _) |- context [bnd ?m _ ?s] =>
      rewrite (bnd_ret m _ s _ _ H)
  end.

(** Resolve the lookups of the goal with the equations of the context. *)
Ltac mlook :=
  repeat match goal with
  | H : ?m !! ?k = _ |- context [?m !! ?k] => rewrite H; cbn
  end.
