(* ===== verification/Tags.v ===== *)
(** * Message tags

    The four transports encode the user's tag in different ways.

    - [Mpi]: [context_impl::context_impl] of src/src/mpi/context.hpp queries
      the largest MPI tag and derives from it how many tag bits a user has.
    - [Ucx]: the sends and receives of src/src/ucx/communicator.hpp pack tag
      and rank into one 64-bit word and match with a mask
      (src/src/ucx/context.hpp).
    - [Libfabric]: [make_tag64] of src/src/libfabric/communicator.hpp packs a
      context identifier and the tag.

    [tag_type] and [rank_type] are [int] (src/include/oomph/types.hpp): a
    value of these types is a [Z] that satisfies [is_int]. *)
From S2P Require Import Prelude.

Local Open Scope Z_scope.

Module Mpi.

(** The loop state of the constructor: [tmp], [mask] ([unsigned long]) and
    [m_n_tag_bits] ([unsigned int]). *)
Fixpoint tag_bits_loop (fuel : nat) (tmp mask bits : Z) : option (Z * Z) :=
  match fuel with
  | O => None
  | S fuel =>
      if tmp >? 0
      then tag_bits_loop fuel (Z.shiftr tmp 1) (u64 (Z.shiftl mask 1)) (u32 (bits + 1))
      else Some (mask, bits)
  end.

(** [attr] is what [MPI_Comm_get_attr(MPI_TAG_UB)] yields: the attribute when
    its flag is set. *)
Definition max_tag (attr : option Z) : Z :=
  match attr with
  | Some tag_ub => u32 tag_ub
  | None => 32767
  end.

(** [m_n_tag_bits] after the constructor; an [unsigned int] has 32 bits, so
    33 iterations end the loop. *)
Definition num_tag_bits (attr : option Z) : option Z :=
  match tag_bits_loop 33 (max_tag attr) 1 0 with
  | None => None
  | Some (mask, bits) =>
      let mask := u64 (mask - 1) in
      if mask >? max_tag attr then Some (u32 (bits - 1)) else Some bits
  end.

Lemma tag_bits_loop_S fuel tmp mask bits :
  tag_bits_loop (S fuel) tmp mask bits =
  if tmp >? 0
  then tag_bits_loop fuel (Z.shiftr tmp 1) (u64 (Z.shiftl mask 1)) (u32 (bits + 1))
  else Some (mask, bits).
Proof. reflexivity. Qed.

(** While the loop runs, [2 ^ bits] counts the halvings of the tag bound. *)
Lemma tag_bits_loop_spec fuel tmp bits :
  0 ≤ bits → 0 ≤ tmp → tmp < 2 ^ Z.of_nat fuel → bits + Z.of_nat fuel ≤ 34 →
  (0 < fuel)%nat →
  ∃ n, tag_bits_loop (S fuel) tmp (2 ^ bits) bits = Some (2 ^ (bits + n), bits + n) ∧
       0 ≤ n ≤ Z.of_nat fuel ∧ tmp < 2 ^ n ∧ (n = 0 ∨ 2 ^ (n - 1) ≤ tmp).
Proof.
  revert tmp bits. induction fuel as [|fuel IH]; intros tmp bits Hb Ht Hf Hs Hp; [lia|].
  rewrite tag_bits_loop_S. destruct (Z.gtb_spec tmp 0) as [Hpos|Hz].
  2:{ exists 0. rewrite !Z.add_0_r. split_and!; done || lia. }
  rewrite Z.shiftr_div_pow2, Z.shiftl_mul_pow2 by lia.
  change (2 ^ 1) with 2.
  replace (2 ^ bits * 2) with (2 ^ (bits + 1)) by (rewrite Z.pow_add_r; lia).
  rewrite u64_small by (split; [apply Z.pow_nonneg|apply Z.pow_lt_mono_r]; lia).
  rewrite (u32_small (bits + 1)) by lia.
  destruct fuel as [|fuel].
  { assert (tmp = 1) as -> by (change (2 ^ Z.of_nat 1) with 2 in Hf; lia).
    exists 1. cbn. split_and!; done || lia. }
  destruct (IH (tmp / 2) (bits + 1)) as (n & E & Hn & Hlt & Hge); try lia.
  { apply Z.div_pos; lia. }
  { rewrite (Nat2Z.inj_succ (S fuel)), Z.pow_succ_r in Hf by lia.
    apply Z.div_lt_upper_bound; lia. }
  exists (1 + n). rewrite E.
  replace (bits + 1 + n) with (bits + (1 + n)) by lia.
  split_and!; [done|lia|lia| |].
  - rewrite Z.pow_add_r by lia. enough (tmp / 2 < 2 ^ n) by (Z.to_euclidean_division_equations; lia). done.
  - right. replace (1 + n - 1) with n by lia.
    destruct Hge as [->|Hge].
    + rewrite Z.pow_0_r. lia.
    + replace n with (1 + (n - 1)) by lia.
      destruct (decide (n = 0)) as [->|]; [cbn; lia|].
      rewrite Z.pow_add_r by lia. Z.to_euclidean_division_equations. lia.
Qed.

(** C17: The bound on the tags a user may use: [m_n_tag_bits] is the largest number
    of bits such that every tag of that many bits is at most the transport's
    maximum (rounding down when the maximum is not one below a power of two). *)
Theorem num_tag_bits_spec attr :
  ∃ n, num_tag_bits attr = Some n ∧ 0 ≤ n ≤ 32 ∧
       2 ^ n - 1 ≤ max_tag attr < 2 ^ (n + 1) - 1.
Proof.
  assert (0 ≤ max_tag attr < 2 ^ 32) as Hm.
  { destruct attr; cbn; [apply Z.mod_pos_bound|]; lia. }
  unfold num_tag_bits. generalize dependent (max_tag attr). intros m Hm.
  destruct (tag_bits_loop_spec 32 m 0) as (n & E & Hn & Hlt & Hge); try lia.
  change (2 ^ 0) with 1 in E. rewrite E, Z.add_0_l.
  rewrite u64_small.
  2:{ split; [assert (0 < 2 ^ n) by (apply Z.pow_pos_nonneg; lia); lia|].
      transitivity (2 ^ n); [lia|]. apply Z.pow_lt_mono_r; lia. }
  destruct (Z.gtb_spec (2 ^ n - 1) m) as [Hgt|Hle].
  - assert (n ≠ 0) by (intros ->; cbn in *; lia).
    exists (n - 1). rewrite u32_small by lia.
    replace (n - 1 + 1) with n by lia. split_and!; done || lia.
  - exists n. rewrite Z.pow_add_r by lia. split_and!; done || lia.
Qed.

Lemma num_tag_bits_default : num_tag_bits None = Some 15.
Proof. reflexivity. Qed.

End Mpi.

Module Ucx.

Definition TAG_BITS : Z := 32.
Definition ANY_SOURCE_MASK : Z := 0x0000000000000000.
Definition SPECIFIC_SOURCE_MASK : Z := 0x00000000ffffffff.
Definition TAG_MASK : Z := 0xffffffff00000000.
Definition any_source : Z := -1.

(** [((std::uint_fast64_t)tag << OOMPH_UCX_TAG_BITS)]: the conversion of a
    negative [int] wraps, the shift drops the bits above 64. *)
Definition shifted_tag (tag : Z) : Z := u64 (Z.shiftl (u64 tag) TAG_BITS).

(** [stag] of [communicator_impl::send]; [rank] is the sender's. *)
Definition stag (rank tag : Z) : Z := Z.lor (shifted_tag tag) (u64 rank).

(** [rtag] and [rtag_mask] of [recv] and [shared_recv]. *)
Definition rtag (src tag : Z) : Z :=
  if any_source =? src then shifted_tag tag else Z.lor (shifted_tag tag) (u64 src).
Definition rtag_mask (src : Z) : Z :=
  if any_source =? src
  then Z.lor TAG_MASK ANY_SOURCE_MASK
  else Z.lor TAG_MASK SPECIFIC_SOURCE_MASK.

Lemma shifted_tag_field tag : shifted_tag tag = u32 tag * 2 ^ 32.
Proof.
  unfold shifted_tag, TAG_BITS, u64, u32. rewrite Z.shiftl_mul_pow2 by lia.
  change (2 ^ 64) with (2 ^ 32 * 2 ^ 32).
  rewrite Z.mul_mod_distr_r by lia. f_equal.
  apply Z.mod_mod_divide. by exists (2 ^ 32).
Qed.

(** Packed words: the tag in the upper half, the rank in the lower. *)
Lemma stag_field rank tag :
  0 ≤ rank < 2 ^ 32 → stag rank tag = u32 tag * 2 ^ 32 + rank.
Proof.
  intros Hr. unfold stag. rewrite shifted_tag_field, (u64_small rank) by lia.
  apply lor_field_low; lia.
Qed.

Lemma land_TAG_MASK h l :
  0 ≤ h < 2 ^ 32 → 0 ≤ l < 2 ^ 32 → Z.land (h * 2 ^ 32 + l) TAG_MASK = h * 2 ^ 32.
Proof.
  intros Hh Hl. change TAG_MASK with (Z.ones 32 * 2 ^ 32).
  rewrite land_high_mask by lia. rewrite Z.div_add_l, (Z.div_small l) by lia.
  rewrite Z.add_0_r, Z.land_ones, Z.mod_small by lia. done.
Qed.

Lemma land_full_mask h l :
  0 ≤ h < 2 ^ 32 → 0 ≤ l < 2 ^ 32 →
  Z.land (h * 2 ^ 32 + l) (Z.lor TAG_MASK SPECIFIC_SOURCE_MASK) = h * 2 ^ 32 + l.
Proof.
  intros Hh Hl. change (Z.lor TAG_MASK SPECIFIC_SOURCE_MASK) with (Z.ones 64).
  rewrite Z.land_ones, Z.mod_small by lia. done.
Qed.

Lemma u32_int_inj a b : is_int a → is_int b → u32 a = u32 b → a = b.
Proof. unfold is_int, u32. intros. Z.to_euclidean_division_equations. lia. Qed.

(** C16: Under the mask a posted receive installs, an incoming tag word agrees with
    the receive's tag word exactly when the user's tags are equal and the
    source is either a wildcard or the sender: tags and ranks never leak into
    each other's half, for all [int] tags (negative ones included) and ranks. *)
Theorem tag_match_iff rank tag src tag' :
  is_int tag → is_int tag' → 0 ≤ rank < 2 ^ 31 → (src = any_source ∨ 0 ≤ src < 2 ^ 31) →
  Z.land (stag rank tag) (rtag_mask src) = Z.land (rtag src tag') (rtag_mask src)
  ↔ tag = tag' ∧ (src = any_source ∨ src = rank).
Proof.
  intros Ht Ht' Hr Hs. unfold rtag, rtag_mask.
  assert (0 ≤ u32 tag < 2 ^ 32 ∧ 0 ≤ u32 tag' < 2 ^ 32) as [Hu Hu']
    by (split; apply Z.mod_pos_bound; lia).
  rewrite stag_field by lia. destruct (Z.eqb_spec any_source src) as [<-|Hne].
  - change (Z.lor TAG_MASK ANY_SOURCE_MASK) with TAG_MASK.
    rewrite shifted_tag_field, <- (Z.add_0_r (u32 tag' * _)).
    rewrite !land_TAG_MASK by lia. split; [|intros [-> _]; done].
    intros E. split; [|by left]. apply u32_int_inj; [done..|lia].
  - fold (stag src tag'). rewrite stag_field by lia.
    rewrite !land_full_mask by lia. split.
    + intros E. assert (u32 tag = u32 tag' ∧ rank = src) as [E1 ->] by nia.
      split; [by apply u32_int_inj|by right].
    + intros [-> [->| ->]]; [congruence|done].
Qed.

Lemma tag_match_iff_witness :
  Z.land (stag 7 (-3)) (rtag_mask any_source) = Z.land (rtag any_source (-3)) (rtag_mask any_source).
Proof.
  apply (tag_match_iff 7 (-3) any_source (-3)); unfold is_int; lia.
Defined.

End Ucx.

Module Libfabric.

(** [make_tag64(std::uint32_t tag, std::uintptr_t ctxt)] *)
Definition make_tag64 (tag ctxt : Z) : Z :=
  Z.lor (u64 (Z.shiftl (Z.land ctxt 0x0000000000FFFFFF) 24))
        (Z.land tag 0x0000000000FFFFFF).

(** [context_impl::num_tag_bits] *)
Definition num_tag_bits : Z := 32.

(** The call in [send], [recv] and [shared_recv] converts the [int] tag to the
    parameter type. *)
Definition message_tag (tag ctxt : Z) : Z := make_tag64 (u32 tag) ctxt.

Lemma make_tag64_field tag ctxt :
  make_tag64 tag ctxt = (ctxt mod 2 ^ 24) * 2 ^ 24 + tag mod 2 ^ 24.
Proof.
  unfold make_tag64. change 0xFFFFFF with (Z.ones 24).
  rewrite !Z.land_ones, Z.shiftl_mul_pow2 by lia.
  pose proof (Z.mod_pos_bound ctxt (2 ^ 24)). pose proof (Z.mod_pos_bound tag (2 ^ 24)).
  rewrite u64_small by lia. apply lor_field_low; lia.
Qed.

Lemma message_tag_field tag ctxt :
  message_tag tag ctxt = (ctxt mod 2 ^ 24) * 2 ^ 24 + tag mod 2 ^ 24.
Proof.
  unfold message_tag. rewrite make_tag64_field. f_equal.
  apply Z.mod_mod_divide. by exists (2 ^ 8).
Qed.

(** Receives are posted with [ignore = 0], so libfabric matches tags that are
    equal as 64-bit words.  Two messages of contexts whose broadcast
    identifiers differ in their low 24 bits are never confused; within one
    context exactly the tags congruent modulo [2 ^ 24] are identified. *)
Theorem message_tag_eq_iff tag ctxt tag' ctxt' :
  message_tag tag ctxt = message_tag tag' ctxt' ↔
  ctxt mod 2 ^ 24 = ctxt' mod 2 ^ 24 ∧ tag mod 2 ^ 24 = tag' mod 2 ^ 24.
Proof.
  rewrite !message_tag_field.
  pose proof (Z.mod_pos_bound tag (2 ^ 24)).
  pose proof (Z.mod_pos_bound tag' (2 ^ 24)). nia.
Qed.

(** Although [num_tag_bits] advertises 32 bits, two different non-negative
    tags that fit in them are given the same wire tag. *)
Theorem message_tag_collision :
  ∃ t1 t2, 0 ≤ t1 < 2 ^ 31 ∧ 0 ≤ t2 < 2 ^ 31 ∧ t1 ≠ t2 ∧ t2 < 2 ^ num_tag_bits ∧
           ∀ ctxt, message_tag t1 ctxt = message_tag t2 ctxt.
Proof.
  exists 42, (42 + 2 ^ 24). split_and!; try lia; [by compute|].
  intros ctxt. by rewrite !message_tag_field.
Qed.

End Libfabric.
