(* ===== verification/SharedPtr.v ===== *)
(** * [util::unsafe_shared_ptr]

    Model of src/include/oomph/util/unsafe_shared_ptr.hpp: the intrusive,
    non-atomic reference count behind every request and communicator state,
    together with the self-reference cycle that the request states of all four
    backends build on it ([create_self_ref] / [release_self_ref] of
    src/src/mpi/request_state.hpp and its siblings).

    A state holds the control blocks and the pointer variables of a program: a
    variable is either one with automatic or user-managed lifetime ([Local]) or
    the member [m_self_ptr] of the object in block [l] ([Self l]).  Control
    block identities are not reused, so [freed] records which blocks have been
    freed, in order. *)
From S2P Require Import Prelude.

Local Open Scope Z_scope.

Inductive var : Type :=
| Local (n : nat)
| Self (l : positive).

#[export] Instance var_eq_dec : EqDecision var.
Proof. solve_decision. Defined.
#[export] Instance var_countable : Countable var.
Proof.
  by apply (inj_countable'
    (λ v, match v with Local n => inl n | Self l => inr l end)
    (λ s, match s with inl n => Local n | inr l => Self l end)); intros [].
Defined.

(** [control_block<T>] with the object [m_t] of [control_block_impl] and the
    object's [_shared_from_this_cb] (set or null). *)
Record control_block (T : Type) : Type := ControlBlock {
  m_ref_count : Z;
  m_t : T;
  shared_from_this_cb : bool
}.
Arguments ControlBlock {T}.
Arguments m_ref_count {T}.
Arguments m_t {T}.
Arguments shared_from_this_cb {T}.

Record ptr_state (T : Type) : Type := PtrState {
  blocks : gmap positive (control_block T);
  vars : gmap var (option positive);
  freed : list positive
}.
Arguments PtrState {T}.
Arguments blocks {T}.
Arguments vars {T}.
Arguments freed {T}.

Section ops.
Context {T : Type}.
Implicit Types s : ptr_state T.

Definition read (v : var) : M (ptr_state T) (option positive) := λ s,
  match vars s !! v with
  | Some p => (Ret p, s)
  | None => (Halt undefined_behaviour, s)
  end.

Definition write (v : var) (p : option positive) : M (ptr_state T) unit := λ s,
  match vars s !! v with
  | Some _ => (Ret tt, PtrState (blocks s) (<[v := p]> (vars s)) (freed s))
  | None => (Halt undefined_behaviour, s)
  end.

(** Start and end of a pointer variable's lifetime. *)
Definition declare (v : var) (p : option positive) : M (ptr_state T) unit := λ s,
  match vars s !! v with
  | None => (Ret tt, PtrState (blocks s) (<[v := p]> (vars s)) (freed s))
  | Some _ => (Halt undefined_behaviour, s)
  end.
Definition undeclare (v : var) : M (ptr_state T) unit := λ s,
  match vars s !! v with
  | Some _ => (Ret tt, PtrState (blocks s) (delete v (vars s)) (freed s))
  | None => (Halt undefined_behaviour, s)
  end.

Definition block (l : positive) : M (ptr_state T) (control_block T) := λ s,
  match blocks s !! l with
  | Some b => (Ret b, s)
  | None => (Halt undefined_behaviour, s)
  end.

Definition set_count (l : positive) (c : Z) : M (ptr_state T) unit :=
  let! b := block l in
  modify (λ s, PtrState (<[l := ControlBlock c (m_t b) (shared_from_this_cb b)]> (blocks s))
                        (vars s) (freed s)).

(** [if (m) ++m->m_ref_count;] *)
Definition acquire (p : option positive) : M (ptr_state T) unit :=
  match p with
  | None => ret tt
  | Some l => let! b := block l in set_count l (u64 (m_ref_count b + 1))
  end.

Definition deallocate (l : positive) : M (ptr_state T) unit :=
  modify (λ s, PtrState (delete l (blocks s)) (vars s) (freed s ++ [l])).

(** [destroy()]; [free()] runs the destructor of the object, whose member
    [m_self_ptr] is destroyed in turn, and deallocates the block. *)
Fixpoint destroy (fuel : nat) (v : var) : M (ptr_state T) unit :=
  match fuel with
  | O => stop out_of_fuel
  | S fuel =>
      let! p := read v in
      match p with
      | None => ret tt
      | Some l =>
          let! b := block l in
          let c := u64 (m_ref_count b - 1) in
          set_count l c ;;;
          (if c =? 0
           then destroy fuel (Self l) ;;; undeclare (Self l) ;;; deallocate l
           else ret tt) ;;;
          write v None
      end
  end.

(** Freeing a block whose object holds no reference needs two nested calls. *)
Definition destroy_ptr (v : var) : M (ptr_state T) unit := destroy 2 v.

(** [allocate_shared] / [make_shared]: a fresh block holding [x]. *)
Definition allocate_shared (v : var) (x : T) : M (ptr_state T) positive :=
  let! s := get in
  let l := fresh (dom (blocks s) ∪ list_to_set (freed s)) in
  modify (λ s, PtrState (<[l := ControlBlock 1 x true]> (blocks s)) (vars s) (freed s)) ;;;
  declare (Self l) None ;;;
  declare v (Some l) ;;;
  ret l.

Definition copy_construct (v other : var) : M (ptr_state T) unit :=
  let! p := read other in
  declare v p ;;; acquire p.

Definition move_construct (v other : var) : M (ptr_state T) unit :=
  let! p := read other in
  write other None ;;; declare v p.

Definition copy_assign (v other : var) : M (ptr_state T) unit :=
  destroy_ptr v ;;;
  let! p := read other in
  write v p ;;; acquire p.

Definition move_assign (v other : var) : M (ptr_state T) unit :=
  destroy_ptr v ;;;
  let! p := read other in
  write other None ;;; write v p.

(** [~unsafe_shared_ptr()] *)
Definition destruct_ptr (v : var) : M (ptr_state T) unit :=
  destroy_ptr v ;;; undeclare v.

Definition use_count (v : var) : M (ptr_state T) Z :=
  let! p := read v in
  match p with
  | None => ret 0
  | Some l => let! b := block l in ret (m_ref_count b)
  end.

(** [get()], [operator->] and [operator*] read through the block. *)
Definition deref (v : var) : M (ptr_state T) T :=
  let! p := read v in
  match p with
  | None => stop undefined_behaviour
  | Some l => let! b := block l in ret (m_t b)
  end.

(** [enable_shared_from_this::shared_from_this()], into [v]. *)
Definition shared_from_this (l : positive) (v : var) : M (ptr_state T) unit :=
  let! b := block l in
  cassert (shared_from_this_cb b) ;;;
  declare v (Some l) ;;; acquire (Some l).

(** [m_self_ptr = shared_from_this();] the temporary is [tmp]. *)
Definition create_self_ref (l : positive) (tmp : var) : M (ptr_state T) unit :=
  shared_from_this l tmp ;;;
  move_assign (Self l) tmp ;;;
  destruct_ptr tmp.

(** [assert((bool)m_self_ptr); return std::move(m_self_ptr);] into [v]. *)
Definition release_self_ref (l : positive) (v : var) : M (ptr_state T) unit :=
  let! p := read (Self l) in
  cassert (bool_decide (p ≠ None)) ;;;
  move_construct v (Self l).

End ops.

(** ** Counting owners *)

(** The pointer variables that refer to block [l]. *)
Definition owners (l : positive) (vs : gmap var (option positive)) : nat :=
  map_count (λ p, p = Some l) vs.

Definition refers (p : option positive) (l : positive) : nat :=
  indicator (λ p, p = Some l) p.

Lemma owners_insert_fresh l v p vs :
  vs !! v = None → owners l (<[v := p]> vs) = (owners l vs + refers p l)%nat.
Proof. apply map_count_insert_fresh. Qed.
Lemma owners_delete l v p vs :
  vs !! v = Some p → owners l vs = (owners l (delete v vs) + refers p l)%nat.
Proof. apply map_count_delete. Qed.
Lemma owners_update l v p q vs :
  vs !! v = Some q →
  (owners l (<[v := p]> vs) + refers q l = owners l vs + refers p l)%nat.
Proof. apply map_count_update. Qed.
Lemma owners_le_size l vs : (owners l vs ≤ size vs)%nat.
Proof. apply map_count_le_size. Qed.
Lemma owners_pos l v vs : vs !! v = Some (Some l) → (0 < owners l vs)%nat.
Proof. intros Hv. by apply (map_count_pos _ vs v (Some l)). Qed.

Lemma refers_self l : refers (Some l) l = 1%nat.
Proof. by apply indicator_true. Qed.
Lemma refers_none l : refers None l = 0%nat.
Proof. by apply indicator_false. Qed.
Lemma refers_other l l' : l ≠ l' → refers (Some l) l' = 0%nat.
Proof. intros. apply indicator_false. congruence. Qed.

(** ** Well-formed states *)

(** Reference counts are exact and positive, no variable dangles, every live
    object has its member [m_self_ptr], which is empty or refers to the object
    itself, and blocks are freed at most once. *)
Record wf {T} (s : ptr_state T) : Prop := {
  wf_count l b : blocks s !! l = Some b →
    m_ref_count b = Z.of_nat (owners l (vars s)) ∧ (0 < owners l (vars s))%nat;
  wf_alive v l : vars s !! v = Some (Some l) → is_Some (blocks s !! l);
  wf_member l : is_Some (blocks s !! l) ↔ is_Some (vars s !! Self l);
  wf_self l p : vars s !! Self l = Some p → p = None ∨ p = Some l;
  wf_freed l : l ∈ freed s → blocks s !! l = None;
  wf_once : NoDup (freed s);
  wf_bound : Z.of_nat (size (vars s)) < 2 ^ 64
}.

Section facts.
Context {T : Type}.
Implicit Types s : ptr_state T.

(** State after dropping the last reference to [l], held by [v]. *)
Definition dropped_last (v : var) (l : positive) s : ptr_state T :=
  PtrState (delete l (blocks s)) (<[v := None]> (delete (Self l) (vars s))) (freed s ++ [l]).

(** State after dropping one of several references to [l]. *)
Definition dropped_shared (v : var) (l : positive) (b : control_block T) s : ptr_state T :=
  PtrState (<[l := ControlBlock (m_ref_count b - 1) (m_t b) (shared_from_this_cb b)]> (blocks s))
           (<[v := None]> (vars s)) (freed s).

Lemma wf_owners_bound s l : wf s → Z.of_nat (owners l (vars s)) < 2 ^ 64.
Proof. intros H. pose proof (owners_le_size l (vars s)). pose proof (wf_bound s H). lia. Qed.

Lemma self_empty_of_last s v l :
  wf s → vars s !! v = Some (Some l) → v ≠ Self l → owners l (vars s) = 1%nat →
  vars s !! Self l = Some None.
Proof.
  intros Hwf Hv Hne Ho. destruct (wf_alive s Hwf v l Hv) as [b Hb].
  destruct (proj1 (wf_member s Hwf l)) as [p Hp]; [by exists b|].
  destruct (wf_self s Hwf l p Hp) as [->| ->]; [done|].
  rewrite (owners_delete l v (Some l)), refers_self in Ho by done.
  assert (0 < owners l (delete v (vars s)))%nat; [|lia].
  apply (owners_pos l (Self l)). by rewrite lookup_delete_ne.
Qed.

Lemma destroy_none s v : vars s !! v = Some None → destroy_ptr v s = (Ret tt, s).
Proof. intros Hv. unfold destroy_ptr. cbn. unfold bnd, read. by rewrite Hv. Qed.

Lemma destroy_last s v l :
  wf s → vars s !! v = Some (Some l) → v ≠ Self l → owners l (vars s) = 1%nat →
  destroy_ptr v s = (Ret tt, dropped_last v l s).
Proof.
  intros Hwf Hv Hne Ho. destruct (wf_alive s Hwf v l Hv) as [b Hb].
  destruct (wf_count s Hwf l b Hb) as [Hc _].
  pose proof (self_empty_of_last s v l Hwf Hv Hne Ho) as Hs.
  unfold destroy_ptr. cbn. unfold bnd, read, block, set_count, bnd, block, modify.
  mlook. rewrite Hc, Ho. change (u64 (Z.of_nat 1 - 1)) with 0. cbn.
  mlook. unfold undeclare. cbn. mlook.
  unfold write. cbn. rewrite lookup_delete_ne, Hv by done.
  unfold dropped_last. by rewrite delete_insert_eq.
Qed.

Lemma destroy_shared s v l b :
  wf s → vars s !! v = Some (Some l) → blocks s !! l = Some b →
  (1 < owners l (vars s))%nat → destroy_ptr v s = (Ret tt, dropped_shared v l b s).
Proof.
  intros Hwf Hv Hb Ho. destruct (wf_count s Hwf l b Hb) as [Hc _].
  pose proof (wf_owners_bound s l Hwf).
  unfold destroy_ptr. cbn. unfold bnd, read, block, set_count, bnd, block, modify.
  mlook. rewrite u64_small by lia.
  destruct (Z.eqb_spec (m_ref_count b - 1) 0); [lia|]. cbn.
  unfold write. cbn. rewrite Hv. done.
Qed.

Lemma wf_dropped_shared s v l b :
  wf s → vars s !! v = Some (Some l) → blocks s !! l = Some b →
  (1 < owners l (vars s))%nat → wf (dropped_shared v l b s).
Proof.
  intros Hwf Hv Hb Ho. destruct (wf_count s Hwf l b Hb) as [Hc _].
  assert (∀ l', (owners l' (<[v := None]> (vars s)) + refers (Some l) l' =
                 owners l' (vars s))%nat) as Hown.
  { intros l'. rewrite (owners_update l' v None (Some l)), refers_none by done. lia. }
  split; cbn.
  - intros l' b' Hb'. specialize (Hown l').
    destruct (decide (l = l')) as [<-|Hne].
    + rewrite lookup_insert_eq in Hb'. simplify_eq/=. rewrite refers_self in Hown. lia.
    + rewrite lookup_insert_ne in Hb' by done. rewrite refers_other in Hown by done.
      destruct (wf_count s Hwf l' b' Hb'). lia.
  - intros v' l' Hv'. rewrite lookup_insert in Hv'. case_decide; simplify_eq.
    rewrite lookup_insert_is_Some. destruct (decide (l = l')); [by left|].
    right. split; [done|]. by eapply wf_alive.
  - intros l'. rewrite !lookup_insert_is_Some', <- (wf_member s Hwf l').
    split; (intros [E|?]; [right|by right]).
    + rewrite <- E. by exists b.
    + apply (wf_member s Hwf l'). rewrite <- E. by exists (Some l).
  - intros l' p Hp. rewrite lookup_insert in Hp.
    case_decide; simplify_eq; [by left|]. by eapply wf_self.
  - intros l' Hl'. apply (wf_freed s Hwf) in Hl' as Hn.
    rewrite lookup_insert_ne; [done|]. congruence.
  - exact (wf_once s Hwf).
  - rewrite map_size_insert_Some by (by eexists). exact (wf_bound s Hwf).
Qed.

Lemma wf_dropped_last s v l :
  wf s → vars s !! v = Some (Some l) → v ≠ Self l → owners l (vars s) = 1%nat →
  wf (dropped_last v l s).
Proof.
  intros Hwf Hv Hne Ho.
  pose proof (self_empty_of_last s v l Hwf Hv Hne Ho) as Hs.
  assert (∀ l', (owners l' (<[v := None]> (delete (Self l) (vars s))) + refers (Some l) l' =
                 owners l' (vars s))%nat) as Hown.
  { intros l'. rewrite (owners_update l' v None (Some l)), refers_none
      by (by rewrite lookup_delete_ne).
    rewrite (owners_delete l' (Self l) None (vars s)), refers_none by done. lia. }
  assert (Hnone : owners l (<[v := None]> (delete (Self l) (vars s))) = 0%nat).
  { specialize (Hown l). rewrite refers_self in Hown. lia. }
  split; cbn.
  - intros l' b' [Hll Hb']%lookup_delete_Some. specialize (Hown l').
    rewrite refers_other in Hown by done. destruct (wf_count s Hwf l' b' Hb'). lia.
  - intros v' l' Hv'. assert (l ≠ l').
    { intros <-. apply owners_pos in Hv'. lia. }
    rewrite lookup_delete_ne by done. rewrite lookup_insert in Hv'. case_decide; simplify_eq.
    apply lookup_delete_Some in Hv' as [_ Hv']. by eapply wf_alive.
  - intros l'. destruct (decide (l = l')) as [<-|Hll].
    + rewrite lookup_delete_eq, lookup_insert_ne, lookup_delete_eq by done. done.
    + rewrite lookup_delete_ne by done. rewrite lookup_insert_is_Some'.
      rewrite lookup_delete_ne by congruence. rewrite (wf_member s Hwf l').
      split; [by right|]. intros [->|?]; [|done]. by exists (Some l).
  - intros l' p Hp. rewrite lookup_insert in Hp. case_decide; simplify_eq; [by left|].
    apply lookup_delete_Some in Hp as [_ Hp]. by eapply wf_self.
  - intros l' [Hl'|Hl']%elem_of_app.
    + apply lookup_delete_None. right. by apply wf_freed.
    + apply list_elem_of_singleton in Hl' as ->. apply lookup_delete_eq.
  - apply NoDup_app. split_and!; [exact (wf_once s Hwf)| |apply NoDup_singleton].
    intros l' Hl' ->%list_elem_of_singleton. apply (wf_freed s Hwf) in Hl'.
    destruct (wf_alive s Hwf v l Hv). congruence.
  - rewrite map_size_insert_Some by (rewrite lookup_delete_ne by done; by eexists).
    rewrite map_size_delete_Some by (by eexists).
    pose proof (wf_bound s Hwf). lia.
Qed.

(** A variable that holds no reference: not yet alive, or null. *)
Definition avail (v : var) s : Prop := vars s !! v = None ∨ vars s !! v = Some None.

Lemma owners_avail s v p l :
  avail v s → owners l (<[v := p]> (vars s)) = (owners l (vars s) + refers p l)%nat.
Proof.
  intros [H|H]; [by apply owners_insert_fresh|].
  pose proof (owners_update l v p None _ H). rewrite refers_none in *. lia.
Qed.

Lemma size_avail s v p :
  wf s → vars s !! v = Some None ∨ (vars s !! v = None ∧ Z.of_nat (S (size (vars s))) < 2 ^ 64) →
  Z.of_nat (size (<[v := p]> (vars s))) < 2 ^ 64.
Proof.
  intros Hwf [H|[H Hb]].
  - rewrite map_size_insert_Some by (by eexists). exact (wf_bound s Hwf).
  - by rewrite map_size_insert_None.
Qed.

(** Room for one more variable, if [v] is not alive yet. *)
Definition room (v : var) s : Prop :=
  vars s !! v = Some None ∨ (vars s !! v = None ∧ Z.of_nat (S (size (vars s))) < 2 ^ 64).

Lemma room_avail v s : room v s → avail v s.
Proof. unfold room, avail. intros [H|[H _]]; [by right|by left]. Qed.

Definition acquired (v : var) (l : positive) (b : control_block T) s : ptr_state T :=
  PtrState (<[l := ControlBlock (m_ref_count b + 1) (m_t b) (shared_from_this_cb b)]> (blocks s))
           (<[v := Some l]> (vars s)) (freed s).

Lemma wf_acquired s n l b :
  wf s → room (Local n) s → blocks s !! l = Some b → wf (acquired (Local n) l b s).
Proof.
  intros Hwf Hr Hb. destruct (wf_count s Hwf l b Hb) as [Hc Hpos].
  pose proof (λ l', owners_avail s (Local n) (Some l) l' (room_avail _ _ Hr)) as Hown.
  split; cbn.
  - intros l' b' Hb'. rewrite Hown. destruct (decide (l = l')) as [<-|Hne].
    + rewrite lookup_insert_eq in Hb'. simplify_eq/=. rewrite refers_self. lia.
    + rewrite lookup_insert_ne in Hb' by done. rewrite refers_other by done.
      destruct (wf_count s Hwf l' b' Hb'). lia.
  - intros v' l' Hv'. rewrite lookup_insert_is_Some'. rewrite lookup_insert in Hv'.
    case_decide; simplify_eq; [by left|]. right. by eapply wf_alive.
  - intros l'. rewrite lookup_insert_is_Some', lookup_insert_ne, <- (wf_member s Hwf l') by done.
    split; [|by right]. intros [<-|?]; [by exists b|done].
  - intros l' p. rewrite lookup_insert_ne by done. by apply wf_self.
  - intros l' Hl'. apply (wf_freed s Hwf) in Hl' as Hn.
    rewrite lookup_insert_ne; [done|congruence].
  - exact (wf_once s Hwf).
  - by apply size_avail.
Qed.

(** Moving a reference from [o] to [v]. *)
Definition moved (v o : var) (p : option positive) s : ptr_state T :=
  PtrState (blocks s) (<[v := p]> (<[o := None]> (vars s))) (freed s).

Lemma wf_moved s v o p :
  wf s → vars s !! o = Some p → v ≠ o → room v s →
  (∀ l, v = Self l → vars s !! v = Some None ∧ (p = None ∨ p = Some l)) →
  wf (moved v o p s).
Proof.
  intros Hwf Ho Hne Hr Hself.
  assert (∀ l, owners l (<[v := p]> (<[o := None]> (vars s))) = owners l (vars s)) as Hown.
  { intros l. rewrite insert_insert_ne by done.
    pose proof (owners_update l o None p (<[v := p]> (vars s))) as H.
    rewrite lookup_insert_ne, owners_avail, refers_none in H
      by first [done|by apply room_avail]. specialize (H Ho). lia. }
  split; cbn.
  - intros l b. rewrite Hown. by apply wf_count.
  - intros v' l Hv'. rewrite lookup_insert in Hv'. case_decide; simplify_eq.
    { by eapply wf_alive. }
    rewrite lookup_insert in Hv'. case_decide; simplify_eq. by eapply wf_alive.
  - intros l. rewrite (wf_member s Hwf l), !lookup_insert_is_Some'. split; [by auto|].
    intros [E|[E|?]]; [|rewrite <- E; by exists p|done].
    destruct (Hself l E) as [H _]. rewrite <- E. by exists None.
  - intros l q Hq. rewrite lookup_insert in Hq. case_decide as E.
    { simplify_eq. by apply (Hself l). }
    rewrite lookup_insert in Hq. case_decide; simplify_eq; [by left|]. by eapply wf_self.
  - exact (wf_freed s Hwf).
  - exact (wf_once s Hwf).
  - rewrite insert_insert_ne by done. rewrite map_size_insert_Some.
    + by apply size_avail.
    + rewrite lookup_insert_ne by done. by exists p.
Qed.

(** The end of the lifetime of an empty variable. *)
Lemma wf_undeclared s n :
  wf s → vars s !! Local n = Some None →
  wf (PtrState (blocks s) (delete (Local n) (vars s)) (freed s)).
Proof.
  intros Hwf Hn.
  assert (∀ l, owners l (delete (Local n) (vars s)) = owners l (vars s)) as Hown.
  { intros l. rewrite (owners_delete l _ _ _ Hn), refers_none. lia. }
  split; cbn.
  - intros l b. rewrite Hown. by apply wf_count.
  - intros v l [_ Hv]%lookup_delete_Some. by eapply wf_alive.
  - intros l. rewrite lookup_delete_ne by done. by apply wf_member.
  - intros l p. rewrite lookup_delete_ne by done. by apply wf_self.
  - exact (wf_freed s Hwf).
  - exact (wf_once s Hwf).
  - rewrite map_size_delete_Some by (by eexists). pose proof (wf_bound s Hwf). lia.
Qed.

(** [destroy()] on any variable that is not the last owner stored inside the
    very object it owns. *)
Definition self_safe (v : var) s : Prop :=
  ∀ l, v = Self l → vars s !! v = Some (Some l) → (1 < owners l (vars s))%nat.

Lemma destroy_ok s v p :
  wf s → vars s !! v = Some p → self_safe v s →
  ∃ s', destroy_ptr v s = (Ret tt, s') ∧ wf s' ∧ vars s' !! v = Some None ∧
    (size (vars s') ≤ size (vars s))%nat ∧
    (∀ v', v' ≠ v → (∀ l, p = Some l → v' ≠ Self l) → vars s' !! v' = vars s !! v') ∧
    (∀ l, is_Some (blocks s' !! l) ↔
          is_Some (blocks s !! l) ∧ ¬ (p = Some l ∧ owners l (vars s) = 1%nat)).
Proof.
  intros Hwf Hv Hsafe. destruct p as [l|].
  2:{ exists s. split; [by apply destroy_none|]. split_and!; try done.
      intros l. split; [intros ?; split; [done|by intros [? _]]|by intros []]. }
  destruct (wf_alive s Hwf v l Hv) as [b Hb]. pose proof (owners_pos l v _ Hv) as Hpos.
  destruct (decide (owners l (vars s) = 1%nat)) as [E|E].
  - assert (v ≠ Self l) as Hne by (intros ->; specialize (Hsafe l eq_refl Hv); lia).
    exists (dropped_last v l s). split_and!.
    + by apply destroy_last.
    + by apply wf_dropped_last.
    + apply lookup_insert_eq.
    + cbn. rewrite map_size_insert_Some by (rewrite lookup_delete_ne by done; by eexists).
      rewrite map_size_delete_Some; [lia|].
      rewrite (self_empty_of_last s v l) by done. by eexists.
    + intros v' H1 H2. cbn. rewrite lookup_insert_ne, lookup_delete_ne; [done| |done].
      intros <-. by apply (H2 l).
    + intros l'. cbn. rewrite lookup_delete_is_Some. naive_solver.
  - exists (dropped_shared v l b s). split_and!.
    + apply destroy_shared; [done..|lia].
    + apply wf_dropped_shared; [done..|lia].
    + apply lookup_insert_eq.
    + cbn. rewrite map_size_insert_Some by (by eexists). lia.
    + intros v' H1 _. cbn. by rewrite lookup_insert_ne.
    + intros l'. cbn. rewrite lookup_insert_is_Some'.
      destruct (decide (l = l')) as [<-|]; naive_solver.
Qed.

(** ** Primitive steps as equations *)

Lemma read_ok s v p : vars s !! v = Some p → read v s = (Ret p, s).
Proof. unfold read. by intros ->. Qed.
Lemma write_ok s v p q :
  vars s !! v = Some q →
  write v p s = (Ret tt, PtrState (blocks s) (<[v := p]> (vars s)) (freed s)).
Proof. unfold write. by intros ->. Qed.
Lemma declare_ok s v p :
  vars s !! v = None →
  declare v p s = (Ret tt, PtrState (blocks s) (<[v := p]> (vars s)) (freed s)).
Proof. unfold declare. by intros ->. Qed.
Lemma undeclare_ok s v p :
  vars s !! v = Some p →
  undeclare v s = (Ret tt, PtrState (blocks s) (delete v (vars s)) (freed s)).
Proof. unfold undeclare. by intros ->. Qed.

Lemma acquire_ok s l b :
  blocks s !! l = Some b → m_ref_count b + 1 < 2 ^ 64 → 0 ≤ m_ref_count b →
  acquire (Some l) s =
  (Ret tt, PtrState (<[l := ControlBlock (m_ref_count b + 1) (m_t b) (shared_from_this_cb b)]>
                       (blocks s)) (vars s) (freed s)).
Proof.
  intros Hb Hlt H0. unfold acquire, set_count, bnd, block, modify. mlook.
  by rewrite u64_small by lia.
Qed.

Lemma count_room s v l b :
  wf s → blocks s !! l = Some b → vars s !! v = Some None ∨ Z.of_nat (S (size (vars s))) < 2 ^ 64 →
  0 ≤ m_ref_count b ∧ m_ref_count b + 1 < 2 ^ 64.
Proof.
  intros Hwf Hb Hr. destruct (wf_count s Hwf l b Hb) as [-> _].
  pose proof (wf_bound s Hwf). pose proof (owners_le_size l (vars s)).
  destruct Hr as [Hv|]; [|lia].
  pose proof (owners_delete l v None (vars s) Hv) as E. rewrite refers_none in E.
  pose proof (owners_le_size l (delete v (vars s))) as E2.
  assert (size (vars s) = S (size (delete v (vars s)))) by
    (rewrite map_size_delete_Some by (by eexists); pose proof (map_size_non_empty_iff (vars s));
     assert (vars s ≠ ∅) by (intros E3; rewrite E3 in Hv; done); naive_solver lia).
  lia.
Qed.

(** ** Operations on pointers preserve well-formedness *)

Lemma move_ok s v o p :
  wf s → vars s !! o = Some p → vars s !! v = Some None → v ≠ o →
  (∀ l, v = Self l → p = None ∨ p = Some l) →
  (let! q := read o in write o None ;;; write v q) s = (Ret tt, moved v o p s) ∧
  wf (moved v o p s).
Proof.
  intros Hwf Ho Hv Hne Hself. split.
  - rewrite (bnd_ret _ _ _ _ _ (read_ok _ _ _ Ho)), (bnd_ret _ _ _ _ _ (write_ok _ _ _ _ Ho)).
    erewrite write_ok; [done|]. cbn. by rewrite lookup_insert_ne.
  - apply wf_moved; [done..|by left|]. intros l E. split; [done|by apply Hself].
Qed.

Lemma move_construct_ok s n o p :
  wf s → vars s !! o = Some p → vars s !! Local n = None → room (Local n) s →
  move_construct (Local n) o s = (Ret tt, moved (Local n) o p s) ∧ wf (moved (Local n) o p s).
Proof.
  intros Hwf Ho Hn Hr. assert (Local n ≠ o) by congruence. split.
  - unfold move_construct.
    rewrite (bnd_ret _ _ _ _ _ (read_ok _ _ _ Ho)), (bnd_ret _ _ _ _ _ (write_ok _ _ _ _ Ho)).
    apply declare_ok. cbn. by rewrite lookup_insert_ne.
  - by apply wf_moved.
Qed.

Lemma move_assign_ok s v o p q :
  wf s → vars s !! v = Some q → self_safe v s → vars s !! o = Some p → v ≠ o →
  (∀ l, q = Some l → o ≠ Self l) → (∀ l, v = Self l → p = None ∨ p = Some l) →
  ∃ s', move_assign v o s = (Ret tt, s') ∧ wf s' ∧ vars s' !! v = Some p ∧ vars s' !! o = Some None ∧
        (size (vars s') ≤ size (vars s))%nat.
Proof.
  intros Hwf Hv Hsafe Ho Hne Hno Hself.
  destruct (destroy_ok s v q Hwf Hv Hsafe) as (s1 & E1 & Hwf1 & Hv1 & Hsz & Hfr & _).
  assert (vars s1 !! o = Some p) as Ho1 by (by rewrite Hfr).
  destruct (move_ok s1 v o p Hwf1 Ho1 Hv1 Hne Hself) as [E2 Hwf2].
  exists (moved v o p s1). unfold move_assign. rewrite (bnd_ret _ _ _ _ _ E1).
  split_and!; try done; cbn.
  - apply lookup_insert_eq.
  - rewrite lookup_insert_ne by done. apply lookup_insert_eq.
  - rewrite !map_size_insert_Some; [done|by eexists|].
    apply lookup_insert_is_Some'. right. by eexists.
Qed.

Lemma destruct_ok s n p :
  wf s → vars s !! Local n = Some p →
  ∃ s', destruct_ptr (Local n) s = (Ret tt, s') ∧ wf s' ∧ vars s' !! Local n = None ∧
        (∀ l, is_Some (blocks s' !! l) ↔
              is_Some (blocks s !! l) ∧ ¬ (p = Some l ∧ owners l (vars s) = 1%nat)).
Proof.
  intros Hwf Hv. destruct (destroy_ok s (Local n) p Hwf Hv) as (s1 & E1 & Hwf1 & Hv1 & _ & _ & Hb).
  { by intros l [=]. }
  eexists. unfold destruct_ptr. rewrite (bnd_ret _ _ _ _ _ E1), (undeclare_ok _ _ _ Hv1).
  split_and!; [done|by apply wf_undeclared| |done]. cbn. apply lookup_delete_eq.
Qed.

Lemma copy_construct_ok s n o p :
  wf s → vars s !! o = Some p → vars s !! Local n = None → room (Local n) s →
  ∃ s', copy_construct (Local n) o s = (Ret tt, s') ∧ wf s'.
Proof.
  intros Hwf Ho Hn Hr. unfold copy_construct.
  rewrite (bnd_ret _ _ _ _ _ (read_ok _ _ _ Ho)), (bnd_ret _ _ _ _ _ (declare_ok _ _ _ Hn)).
  destruct p as [l|].
  - destruct (wf_alive s Hwf o l Ho) as [b Hb].
    destruct (count_room s (Local n) l b Hwf Hb) as [? ?].
    { destruct Hr as [Hr|[_ Hr]]; [by left|by right]. }
    rewrite (acquire_ok _ l b) by done. eexists. split; [done|].
    by apply (wf_acquired s n l b).
  - eexists. split; [done|].
    pose proof (wf_moved s (Local n) o None Hwf Ho ltac:(congruence) Hr ltac:(done)) as Hm.
    unfold moved in Hm. by rewrite (insert_id _ o None) in Hm.
Qed.

Lemma copy_assign_ok s n o p :
  wf s → is_Some (vars s !! Local n) → vars s !! Local o = Some p → n ≠ o →
  ∃ s', copy_assign (Local n) (Local o) s = (Ret tt, s') ∧ wf s'.
Proof.
  intros Hwf [q Hq] Ho Hne.
  destruct (destroy_ok s (Local n) q Hwf Hq) as (s1 & E1 & Hwf1 & Hv1 & _ & Hfr & _).
  { by intros l [=]. }
  assert (vars s1 !! Local o = Some p) as Ho1 by (rewrite Hfr; [done|congruence|done]).
  unfold copy_assign. rewrite (bnd_ret _ _ _ _ _ E1), (bnd_ret _ _ _ _ _ (read_ok _ _ _ Ho1)).
  rewrite (bnd_ret _ _ _ _ _ (write_ok _ _ _ _ Hv1)).
  destruct p as [l|].
  - destruct (wf_alive s1 Hwf1 (Local o) l Ho1) as [b Hb].
    destruct (count_room s1 (Local n) l b Hwf1 Hb) as [? ?]; [by left|].
    rewrite (acquire_ok _ l b) by done. eexists. split; [done|].
    apply (wf_acquired s1 n l b); [done|by left|done].
  - eexists. split; [done|]. cbn. rewrite insert_id by done. by destruct s1.
Qed.

Lemma no_owner_of_fresh s l : wf s → blocks s !! l = None → owners l (vars s) = 0%nat.
Proof.
  intros Hwf Hl. apply map_count_zero. intros v p Hv ->.
  destruct (wf_alive s Hwf v l Hv). congruence.
Qed.

Lemma wf_allocated s n l x :
  wf s → vars s !! Local n = None → blocks s !! l = None → l ∉ freed s →
  Z.of_nat (S (S (size (vars s)))) < 2 ^ 64 →
  wf (PtrState (<[l := ControlBlock 1 x true]> (blocks s))
               (<[Local n := Some l]> (<[Self l := None]> (vars s))) (freed s)).
Proof.
  intros Hwf Hn Hl Hfr Hsz.
  assert (vars s !! Self l = None) as Hs.
  { rewrite eq_None_not_Some, <- (wf_member s Hwf l), Hl. by intros []. }
  assert (<[Self l := None]> (vars s) !! Local n = None) as Hn' by (by rewrite lookup_insert_ne).
  assert (∀ l', owners l' (<[Local n := Some l]> (<[Self l := None]> (vars s))) =
                (owners l' (vars s) + refers (Some l) l')%nat) as Hown.
  { intros l'. rewrite !owners_insert_fresh, refers_none by done. lia. }
  split; cbn.
  - intros l' b' Hb'. rewrite Hown. destruct (decide (l = l')) as [<-|Hne].
    + rewrite lookup_insert_eq in Hb'. simplify_eq/=.
      rewrite refers_self, no_owner_of_fresh by done. lia.
    + rewrite lookup_insert_ne in Hb' by done. rewrite refers_other by done.
      destruct (wf_count s Hwf l' b' Hb'). lia.
  - intros v l' Hv. rewrite lookup_insert_is_Some'. rewrite !lookup_insert in Hv.
    repeat case_decide; simplify_eq; [by left|]. right. by eapply wf_alive.
  - intros l'. rewrite lookup_insert_is_Some', lookup_insert_ne, lookup_insert_is_Some' by done.
    rewrite (wf_member s Hwf l'). split; (intros [E|?]; [left; congruence|by right]).
  - intros l' p. rewrite lookup_insert_ne, lookup_insert by done. case_decide; [naive_solver|].
    by apply wf_self.
  - intros l' Hl'. rewrite lookup_insert_ne by (by intros ->). by apply wf_freed.
  - exact (wf_once s Hwf).
  - by rewrite !map_size_insert_None.
Qed.

Lemma allocate_shared_ok s n x :
  wf s → vars s !! Local n = None → Z.of_nat (S (S (size (vars s)))) < 2 ^ 64 →
  ∃ l s', allocate_shared (Local n) x s = (Ret l, s') ∧ wf s' ∧ vars s' !! Local n = Some (Some l) ∧
          blocks s !! l = None.
Proof.
  intros Hwf Hn Hsz. set (X := dom (blocks s) ∪ list_to_set (freed s)).
  pose proof (is_fresh X) as Hl. set (l := fresh X) in *. subst X.
  apply not_elem_of_union in Hl as [Hl Hfr].
  apply not_elem_of_dom in Hl. rewrite elem_of_list_to_set in Hfr.
  assert (vars s !! Self l = None) as Hs.
  { rewrite eq_None_not_Some, <- (wf_member s Hwf l), Hl. by intros []. }
  exists l, (PtrState (<[l := ControlBlock 1 x true]> (blocks s))
               (<[Local n := Some l]> (<[Self l := None]> (vars s))) (freed s)).
  split; [|split; [by apply wf_allocated|]].
  - unfold allocate_shared, bnd at 1, get, bnd at 1, modify. fold l.
    erewrite bnd_ret by (by apply declare_ok).
    cbn. unfold bnd, declare. cbn. by rewrite lookup_insert_ne, Hn by done.
  - split; [apply lookup_insert_eq|done].
Qed.

Lemma create_self_ref_ok s l n b :
  wf s → blocks s !! l = Some b → shared_from_this_cb b = true →
  vars s !! Local n = None → room (Local n) s →
  ∃ s', create_self_ref l (Local n) s = (Ret tt, s') ∧ wf s' .
Proof.
  intros Hwf Hb Hsft Hn Hr.
  destruct (count_room s (Local n) l b Hwf Hb) as [? ?].
  { destruct Hr as [Hr|[_ Hr]]; [by left|by right]. }
  assert (shared_from_this l (Local n) s = (Ret tt, acquired (Local n) l b s)) as E1.
  { unfold shared_from_this. unfold bnd at 1, block. rewrite Hb, Hsft. unfold cassert, bnd at 1, ret.
    rewrite (bnd_ret _ _ _ _ _ (declare_ok _ _ _ Hn)). by rewrite (acquire_ok _ l b). }
  pose proof (wf_acquired s n l b Hwf Hr Hb) as Hwf1.
  destruct (proj1 (wf_member s Hwf l)) as [q Hq]; [by exists b|].
  assert (vars (acquired (Local n) l b s) !! Local n = Some (Some l)) as Hn1
    by apply lookup_insert_eq.
  destruct (move_assign_ok (acquired (Local n) l b s) (Self l) (Local n) (Some l) q)
    as (s2 & E2 & Hwf2 & Hv2 & Hn2 & _); try done.
  { cbn. by rewrite lookup_insert_ne. }
  { intros l' [= <-] Hl. cbn in *. rewrite owners_avail by (by apply room_avail).
    rewrite lookup_insert_ne in Hl by done. apply owners_pos in Hl. rewrite refers_self. lia. }
  { intros l' [= <-]. by right. }
  destruct (destruct_ok s2 n None Hwf2 Hn2) as (s3 & E3 & Hwf3 & _).
  exists s3. unfold create_self_ref.
  by rewrite (bnd_ret _ _ _ _ _ E1), (bnd_ret _ _ _ _ _ E2).
Qed.

Lemma release_self_ref_ok s l n :
  wf s → vars s !! Self l = Some (Some l) → vars s !! Local n = None → room (Local n) s →
  release_self_ref l (Local n) s = (Ret tt, moved (Local n) (Self l) (Some l) s) ∧
  wf (moved (Local n) (Self l) (Some l) s).
Proof.
  intros Hwf Hs Hn Hr. destruct (move_construct_ok s n (Self l) (Some l)) as [E Hwf']; try done.
  split; [|done]. unfold release_self_ref.
  rewrite (bnd_ret _ _ _ _ _ (read_ok _ _ _ Hs)). by rewrite bool_decide_eq_true_2.
Qed.

End facts.

(** ** Programs over pointers *)

(** The public operations, on pointer variables named by numbers. *)
Inductive op (T : Type) : Type :=
| OpMake (n : nat) (x : T)
| OpCopy (n o : nat)
| OpMove (n o : nat)
| OpCopyAssign (n o : nat)
| OpMoveAssign (n o : nat)
| OpDestruct (n : nat)
| OpCreateSelfRef (l : positive) (tmp : nat)
| OpReleaseSelfRef (l : positive) (n : nat).
Arguments OpMake {T} n x.
Arguments OpCopy {T} n o.
Arguments OpMove {T} n o.
Arguments OpCopyAssign {T} n o.
Arguments OpMoveAssign {T} n o.
Arguments OpDestruct {T} n.
Arguments OpCreateSelfRef {T} l tmp.
Arguments OpReleaseSelfRef {T} l n.

Definition exec {T} (o : op T) : M (ptr_state T) unit :=
  match o with
  | OpMake n x => allocate_shared (Local n) x ;;; ret tt
  | OpCopy n o => copy_construct (Local n) (Local o)
  | OpMove n o => move_construct (Local n) (Local o)
  | OpCopyAssign n o => copy_assign (Local n) (Local o)
  | OpMoveAssign n o => move_assign (Local n) (Local o)
  | OpDestruct n => destruct_ptr (Local n)
  | OpCreateSelfRef l tmp => create_self_ref l (Local tmp)
  | OpReleaseSelfRef l n => release_self_ref l (Local n)
  end.

(** What the caller has to respect: lifetimes of variables, no assignment of a
    variable to itself, and the assertions of the self-reference functions. *)
Definition enabled {T} (o : op T) (s : ptr_state T) : Prop :=
  match o with
  | OpMake n _ => vars s !! Local n = None
  | OpCopy n o | OpMove n o => vars s !! Local n = None ∧ is_Some (vars s !! Local o)
  | OpCopyAssign n o | OpMoveAssign n o =>
      is_Some (vars s !! Local n) ∧ is_Some (vars s !! Local o) ∧ n ≠ o
  | OpDestruct n => is_Some (vars s !! Local n)
  | OpCreateSelfRef l tmp =>
      vars s !! Local tmp = None ∧
      ∃ b, blocks s !! l = Some b ∧ shared_from_this_cb b = true
  | OpReleaseSelfRef l n => vars s !! Local n = None ∧ vars s !! Self l = Some (Some l)
  end.

Lemma exec_ok {T} (o : op T) s :
  wf s → enabled o s → Z.of_nat (S (S (size (vars s)))) < 2 ^ 64 →
  ∃ s', exec o s = (Ret tt, s') ∧ wf s'.
Proof.
  intros Hwf Hen Hsz.
  assert (∀ n, vars s !! Local n = None → room (Local n) s) as Hroom.
  { intros n Hn. right. split; [done|lia]. }
  destruct o as [n x|n o|n o|n o|n o|n|l n|l n]; cbn in *.
  - destruct (allocate_shared_ok s n x) as (l & s' & E & Hwf' & _); try done.
    exists s'. by rewrite (bnd_ret _ _ _ _ _ E).
  - destruct Hen as [Hn [p Ho]]. by eapply copy_construct_ok; eauto.
  - destruct Hen as [Hn [p Ho]].
    destruct (move_construct_ok s n (Local o) p) as [E Hwf']; eauto.
  - destruct Hen as (Hn & [p Ho] & Hne). by eapply copy_assign_ok.
  - destruct Hen as ([q Hn] & [p Ho] & Hne).
    destruct (move_assign_ok s (Local n) (Local o) p q) as (s' & E & Hwf' & _); try done.
    { congruence. } by exists s'.
  - destruct Hen as [p Hn]. destruct (destruct_ok s n p) as (s' & E & Hwf' & _); eauto.
  - destruct Hen as [Hn (b & Hb & Hs)]. eapply create_self_ref_ok; eauto.
  - destruct Hen as [Hn Hs]. destruct (release_self_ref_ok s l n); eauto.
Qed.

Definition empty_state {T} : ptr_state T := PtrState ∅ ∅ [].

Lemma wf_empty {T} : wf (@empty_state T).
Proof.
  split; cbn; try done.
  - intros l. by rewrite !lookup_empty.
  - by apply NoDup_nil.
Qed.

Definition step {T} (s s' : ptr_state T) : Prop :=
  ∃ o, enabled o s ∧ Z.of_nat (S (S (size (vars s)))) < 2 ^ 64 ∧ exec o s = (Ret tt, s').

Lemma step_wf {T} (s s' : ptr_state T) : wf s → step s s' → wf s'.
Proof.
  intros Hwf (o & Hen & Hsz & E).
  destruct (exec_ok o s Hwf Hen Hsz) as (s1 & E1 & Hwf1). congruence.
Qed.

(** C15: Any sequence of pointer operations that respects variable lifetimes and
    does not assign a variable to itself is safe: it never stops in undefined
    behaviour, a failed assertion or the recursion bound, in every state it
    reaches each non-null pointer can be dereferenced, reports as use count
    exactly the number of pointers that share its object, and no block has been
    freed twice. *)
Theorem reachable_safe {T} (s : ptr_state T) :
  rtc step empty_state s →
  (∀ o, enabled o s → Z.of_nat (S (S (size (vars s)))) < 2 ^ 64 →
        ∃ s', exec o s = (Ret tt, s')) ∧
  (∀ v l, vars s !! v = Some (Some l) →
     ∃ x, deref v s = (Ret x, s) ∧ use_count v s = (Ret (Z.of_nat (owners l (vars s))), s)) ∧
  NoDup (freed s) ∧ (∀ l, l ∈ freed s → blocks s !! l = None).
Proof.
  intros Hr. assert (wf s) as Hwf.
  { pose proof (@wf_empty T) as H0. induction Hr; eauto using step_wf. }
  split_and!.
  - intros o Hen Hsz. destruct (exec_ok o s Hwf Hen Hsz) as (s' & E & _). by exists s'.
  - intros v l Hv. destruct (wf_alive s Hwf v l Hv) as [b Hb]. exists (m_t b).
    destruct (wf_count s Hwf l b Hb) as [Hc _].
    unfold deref, use_count. rewrite !(bnd_ret _ _ _ _ _ (read_ok _ _ _ Hv)).
    unfold bnd, block. by rewrite Hb, <- Hc.
  - exact (wf_once s Hwf).
  - exact (wf_freed s Hwf).
Qed.

(** The program [auto a = make_shared(7); auto b = a;] *)
Definition two_owners : ptr_state nat :=
  snd ((exec (OpMake 0 7%nat) ;;; exec (OpCopy 1 0)) empty_state).

Lemma two_owners_reachable : rtc step empty_state two_owners.
Proof.
  eapply rtc_l; [exists (OpMake 0 7%nat); split_and!; [reflexivity|reflexivity|reflexivity]|].
  eapply rtc_l; [|apply rtc_refl].
  exists (OpCopy 1 0). split_and!; [split; [reflexivity|by eexists]|reflexivity|reflexivity].
Qed.

Lemma reachable_safe_witness :
  ∃ x, deref (Local 1) two_owners = (Ret x, two_owners) ∧
       use_count (Local 1) two_owners = (Ret 2, two_owners).
Proof.
  destruct (reachable_safe two_owners two_owners_reachable) as (_ & H & _).
  destruct (H (Local 1) 1%positive) as (x & Hx & Hc); [reflexivity|].
  exists x. split; [exact Hx|exact Hc].
Defined.

(** The self-reference of a request keeps it alive until it is released: the
    idiom [auto ptr = e->release_self_ref(); ...] of the progress loops frees
    the request state at the end of the scope exactly when no request handle
    refers to it any more, and otherwise leaves it to the handles. *)
Theorem release_self_ref_lifetime {T} (s : ptr_state T) l n :
  wf s → vars s !! Self l = Some (Some l) → vars s !! Local n = None →
  Z.of_nat (S (size (vars s))) < 2 ^ 64 →
  ∃ s', (release_self_ref l (Local n) ;;; destruct_ptr (Local n)) s = (Ret tt, s') ∧ wf s' ∧
        (is_Some (blocks s' !! l) ↔ (1 < owners l (vars s))%nat) ∧
        (∀ l', l' ≠ l → is_Some (blocks s' !! l') ↔ is_Some (blocks s !! l')).
Proof.
  intros Hwf Hs Hn Hsz.
  destruct (release_self_ref_ok s l n Hwf Hs Hn) as [E1 Hwf1]; [right; done|].
  set (s1 := moved (Local n) (Self l) (Some l) s) in *.
  assert (owners l (vars s1) = owners l (vars s)) as Ho.
  { cbn. rewrite insert_insert_ne by done.
    pose proof (owners_update l (Self l) None (Some l) (<[Local n := Some l]> (vars s))) as H.
    rewrite lookup_insert_ne, (owners_insert_fresh l (Local n)), refers_none, refers_self in H by done.
    specialize (H Hs). lia. }
  destruct (destruct_ok s1 n (Some l) Hwf1) as (s2 & E2 & Hwf2 & _ & Hb).
  { apply lookup_insert_eq. }
  exists s2. rewrite (bnd_ret _ _ _ _ _ E1).
  pose proof (owners_pos l (Self l) _ Hs) as Hpos.
  destruct (wf_alive s Hwf _ _ Hs) as [b Hl].
  split_and!; [done..| |].
  - rewrite Hb, Ho. cbn. split; [intros [_ H]; assert (owners l (vars s) ≠ 1%nat) by tauto; lia|].
    intros H. split; [by exists b|]. lia.
  - intros l' Hne. rewrite Hb. cbn. naive_solver.
Qed.

(** A request that the user has dropped: created, self-referenced, and its
    only handle destroyed. *)
Definition dropped_request : ptr_state nat :=
  snd ((exec (OpMake 0 7%nat) ;;; exec (OpCreateSelfRef 1 5) ;;; exec (OpDestruct 0)) empty_state).

Lemma dropped_request_wf : wf dropped_request.
Proof.
  assert (rtc step empty_state dropped_request) as Hr.
  { eapply rtc_l; [exists (OpMake 0 7%nat); split_and!; [reflexivity|reflexivity|reflexivity]|].
    eapply rtc_l; [exists (OpCreateSelfRef 1 5); split_and!;
      [split; [reflexivity|by eexists]|reflexivity|reflexivity]|].
    eapply rtc_l; [|apply rtc_refl].
    exists (OpDestruct 0). split_and!; [by eexists|reflexivity|reflexivity]. }
  pose proof (@wf_empty nat) as H0. induction Hr; eauto using step_wf.
Qed.

Lemma release_self_ref_lifetime_witness :
  is_Some (blocks dropped_request !! 1%positive) ∧
  ∃ s', (release_self_ref 1 (Local 0) ;;; destruct_ptr (Local 0)) dropped_request = (Ret tt, s') ∧
        blocks s' !! 1%positive = None.
Proof.
  split; [by eexists|].
  destruct (release_self_ref_lifetime dropped_request 1 0 dropped_request_wf)
    as (s' & E & _ & H & _); [reflexivity..|].
  exists s'. split; [exact E|]. apply eq_None_not_Some. intros Hs. apply H in Hs.
  vm_compute in Hs. lia.
Defined.

(** Assigning a pointer to itself is not safe: [operator=] destroys the target
    before it reads the source, so when the pointer is the only owner the
    object is freed and the pointer becomes null. *)
Theorem self_copy_assign_frees {T} (s : ptr_state T) n l :
  wf s → vars s !! Local n = Some (Some l) → owners l (vars s) = 1%nat →
  ∃ s', copy_assign (Local n) (Local n) s = (Ret tt, s') ∧
        vars s' !! Local n = Some None ∧ blocks s' !! l = None.
Proof.
  intros Hwf Hv Ho. exists (dropped_last (Local n) l s).
  assert (destroy_ptr (Local n) s = (Ret tt, dropped_last (Local n) l s)) as E
    by (by apply destroy_last).
  unfold copy_assign. rewrite (bnd_ret _ _ _ _ _ E).
  assert (vars (dropped_last (Local n) l s) !! Local n = Some None) as Hn by apply lookup_insert_eq.
  rewrite (bnd_ret _ _ _ _ _ (read_ok _ _ _ Hn)), (bnd_ret _ _ _ _ _ (write_ok _ _ _ _ Hn)).
  split_and!; [|done|apply lookup_delete_eq].
  cbn. unfold ret. rewrite insert_id by done. done.
Qed.

Lemma self_copy_assign_frees_witness :
  ∃ s', (exec (OpMake 0 7%nat) ;;; copy_assign (Local 0) (Local 0)) empty_state = (Ret tt, s') ∧
        blocks s' !! 1%positive = None.
Proof.
  destruct (self_copy_assign_frees (snd (exec (OpMake 0 7%nat) empty_state)) 0 1)
    as (s' & E & _ & H).
  - apply (step_wf empty_state); [apply wf_empty|].
    exists (OpMake 0 7%nat). split_and!; reflexivity.
  - reflexivity.
  - reflexivity.
  - exists s'. split; [exact E|exact H].
Defined.
