(* ===== verification/Barrier.v ===== *)
(** * The thread barrier

    Model of src/include/oomph/barrier.hpp and src/src/barrier.cpp: [m_threads]
    threads that share the counters [b_count] and [b_count2] and use the barrier
    any number of times, through [operator()] or [thread_barrier].  The threads
    are interleaved at every access to a counter (sequential consistency is
    assumed of the atomics); [compare_exchange_weak] may fail spuriously.

    The progress calls in the waiting loops do not touch the barrier and are
    left out, the rank barrier ([MPI_Ibarrier] and its test loop) is one step. *)
From S2P Require Import Prelude.

(** Where a thread is: outside; in [in_node1] (loading [b_count], about to
    exchange, about to reset it, waiting for the reset); in [operator()]
    between the halves ([Rank], [Wait2]); in [in_node2]. *)
Inductive pc : Type :=
| Out
| Load1 | Cas1 (expected : Z) | Reset1 | Wait1
| Rank | Wait2
| Load2 | Cas2 (ex : Z) | Reset2 | Wait3.
#[export] Instance pc_eq_dec : EqDecision pc.
Proof. solve_decision. Defined.

(** [full]: the thread called [operator()], not [thread_barrier]; [round]: how
    often it has passed the barrier. *)
Record thread : Type := Thread { at_pc : pc; full : bool; round : nat }.

(** [elected] logs the rounds of the threads to which [in_node1] returned
    [true]. *)
Record state : Type := State {
  b_count : Z;
  b_count2 : Z;
  threads : list thread;
  elected : list nat
}.

(** What is not determined by the code. *)
Inductive choice : Type := Enter (f : bool) | Go | Spurious.

Definition goto (p : pc) (t : thread) : thread := Thread p (full t) (round t).
Definition leave (t : thread) : thread := Thread Out (full t) (S (round t)).

Section barrier.
Variable m_threads : Z.

(** One access of a thread: its next state and the new counters; the last
    component says whether [in_node1] returns [true]. *)
Definition move (c : choice) (t : thread) (b b2 : Z) : thread * Z * Z * bool :=
  match at_pc t, c with
  (* call of operator() or thread_barrier() *)
  | Out, Enter f => (Thread Load1 f (round t), b, b2, false)
  | Out, _ => (t, b, b2, false)
  (* in_node1 *)
  | Load1, _ => (goto (Cas1 b) t, b, b2, false)
  | Cas1 _, Spurious => (goto Load1 t, b, b2, false)
  | Cas1 expected, _ =>
      if decide (b = expected) then
        (goto (if decide (expected = u64 (m_threads - 1)) then Reset1 else Wait1) t,
         u64 (expected + 1), b2, false)
      else (goto Load1 t, b, b2, false)
  | Reset1, _ => (goto (if full t then Rank else Load2) t, 0%Z, b2, true)
  | Wait1, _ =>
      if decide (b = 0%Z) then (goto (if full t then Wait2 else Load2) t, b, b2, false)
      else (t, b, b2, false)
  (* operator() *)
  | Rank, _ => (goto Load2 t, b, b2, false)
  | Wait2, _ => if decide (b2 = m_threads) then (t, b, b2, false) else (goto Load2 t, b, b2, false)
  (* in_node2 *)
  | Load2, _ => (goto (Cas2 b2) t, b, b2, false)
  | Cas2 _, Spurious => (goto Load2 t, b, b2, false)
  | Cas2 ex, _ =>
      if decide (b2 = ex) then
        (goto (if decide (ex = 1%Z) then Reset2 else Wait3) t, b, u64 (ex - 1), false)
      else (goto Load2 t, b, b2, false)
  | Reset2, _ => (leave t, b, m_threads, false)
  | Wait3, _ => if decide (b2 = m_threads) then (leave t, b, b2, false) else (t, b, b2, false)
  end.

(** Thread [i] makes its next access. *)
Definition exec (i : nat) (c : choice) (s : state) : option state :=
  match threads s !! i with
  | None => None
  | Some t =>
      let '(t', b, b2, e) := move c t (b_count s) (b_count2 s) in
      Some (State b b2 (<[i := t']> (threads s))
                  (if e : bool then elected s ++ [round t] else elected s))
  end.

Definition step (s s' : state) : Prop := ∃ i c, exec i c s = Some s'.

(** The constructor [barrier(c, n_threads)], all threads outside. *)
Definition init : state :=
  State 0 m_threads (replicate (Z.to_nat m_threads) (Thread Out false 0)) [].

Definition reachable (s : state) : Prop := rtc step init s.

(** ** The phases of a round *)

Hypothesis Hm : (1 ≤ m_threads < 2 ^ 64)%Z.
Abbreviation N := (Z.to_nat m_threads).

Definition is_wait1 (t : thread) : bool := bool_decide (at_pc t = Wait1).
(** The thread has decremented [b_count2]. *)
Definition passed (t : thread) : bool :=
  bool_decide (at_pc t = Reset2) || bool_decide (at_pc t = Wait3).

(** The thread is on its way to [b_count2] and waits for nobody. *)
Definition counting_down (t : thread) : bool :=
  match at_pc t with Rank | Load2 | Cas2 _ => true | _ => false end.

Definition gather_ok (k : nat) (t : thread) : Prop :=
  match at_pc t with
  | Out | Load1 | Cas1 _ | Wait1 => round t = k
  | Wait3 => S (round t) = k
  | _ => False
  end.
Definition release_ok (k : nat) (t : thread) : Prop :=
  match at_pc t with
  | Wait1 | Rank | Wait2 | Load2 | Cas2 _ | Reset2 | Wait3 => round t = k
  | _ => False
  end.

(** Threads arrive; some may still be leaving the previous round. *)
Record gathering (k : nat) (s : state) : Prop := {
  g_len : length (threads s) = N;
  g_count : b_count s = Z.of_nat (list_count is_wait1 (threads s));
  g_open : list_count is_wait1 (threads s) < N;
  g_count2 : b_count2 s = m_threads;
  g_threads i t : threads s !! i = Some t → gather_ok k t;
  g_elected : elected s = seq 0 k
}.

(** All have arrived, the last one is about to reset [b_count]. *)
Record closing (k : nat) (s : state) : Prop := {
  c_len : length (threads s) = N;
  c_count : b_count s = m_threads;
  c_count2 : b_count2 s = m_threads;
  c_last : ∃ i t, threads s !! i = Some t ∧ at_pc t = Reset1 ∧
    ∀ j t', threads s !! j = Some t' → j ≠ i → at_pc t' = Wait1;
  c_round i t : threads s !! i = Some t → round t = k;
  c_elected : elected s = seq 0 k
}.

(** [b_count] is reset; the threads count down [b_count2]. *)
Record releasing (k : nat) (s : state) : Prop := {
  r_len : length (threads s) = N;
  r_count : b_count s = 0%Z;
  r_count2 : b_count2 s = (m_threads - Z.of_nat (list_count passed (threads s)))%Z;
  r_threads i t : threads s !! i = Some t → release_ok k t;
  r_last i t : threads s !! i = Some t → at_pc t = Reset2 →
    ∀ j t', threads s !! j = Some t' → j ≠ i → at_pc t' = Wait3;
  r_open : list_count passed (threads s) = N → ∃ i t, threads s !! i = Some t ∧ at_pc t = Reset2;
  r_first : list_count passed (threads s) = 0 →
    ∃ i t, threads s !! i = Some t ∧ counting_down t = true;
  r_elected : elected s = seq 0 (S k)
}.

(** ** Preservation *)

Lemma gathering_move k s i t t' :
  gathering k s → threads s !! i = Some t →
  gather_ok k t' → is_wait1 t' = is_wait1 t →
  gathering k (State (b_count s) (b_count2 s) (<[i := t']> (threads s)) (elected s)).
Proof.
  intros HG Hi Hok Hw.
  pose proof (list_count_insert is_wait1 (threads s) i t t' Hi) as Hc. rewrite Hw in Hc.
  assert (list_count is_wait1 (<[i := t']> (threads s)) = list_count is_wait1 (threads s)) as E by lia.
  split; cbn; rewrite ?E, ?length_insert; try apply HG.
  intros j u. rewrite list_lookup_insert_Some. intros [(_ & <- & _)|[_ Hj]]; [done|].
  by apply (g_threads _ _ HG j).
Qed.

Lemma gathering_arrive k s i t e :
  gathering k s → threads s !! i = Some t → at_pc t = Cas1 e → b_count s = e →
  let s' := State (u64 (e + 1)) (b_count2 s)
    (<[i := goto (if decide (e = u64 (m_threads - 1)) then Reset1 else Wait1) t]> (threads s))
    (elected s) in
  gathering k s' ∨ closing k s'.
Proof.
  intros HG Hi Hpc Hb s'. pose proof (g_threads _ _ HG i t Hi) as Hok.
  unfold gather_ok in Hok. rewrite Hpc in Hok.
  pose proof (g_count _ _ HG) as Hc. pose proof (g_open _ _ HG) as Ho. pose proof (g_len _ _ HG) as Hl.
  assert (is_wait1 t = false) as Hw by (unfold is_wait1; by rewrite Hpc).
  subst s'. rewrite (u64_small (m_threads - 1)), (u64_small (e + 1)) by lia. case_decide as He.
  - right. split; cbn; rewrite ?length_insert; try apply HG; [lia|..].
    + exists i, (goto Reset1 t). split_and!; [|done|].
      * apply list_lookup_insert_eq. by eapply lookup_lt_Some.
      * intros j u. rewrite list_lookup_insert_Some. intros [(-> & _)|[_ Hj]] Hne; [done|].
        pose proof (list_count_all_but is_wait1 _ i t Hi Hw ltac:(lia) j u Hj Hne) as Hu.
        by apply bool_decide_eq_true in Hu.
    + intros j u. rewrite list_lookup_insert_Some. intros [(_ & <- & _)|[Hne Hj]]; [done|].
      pose proof (g_threads _ _ HG j u Hj) as Hu.
      pose proof (list_count_all_but is_wait1 _ i t Hi Hw ltac:(lia) j u Hj ltac:(done)) as Hw1.
      apply bool_decide_eq_true in Hw1. unfold gather_ok in Hu. by rewrite Hw1 in Hu.
  - left. pose proof (list_count_insert is_wait1 (threads s) i t (goto Wait1 t) Hi) as Hn.
    assert (is_wait1 (goto Wait1 t) = true) as Hw' by done. rewrite Hw, Hw' in Hn. cbn in Hn.
    split; cbn; rewrite ?length_insert; try apply HG; [lia|lia|].
    intros j u. rewrite list_lookup_insert_Some. intros [(_ & <- & _)|[_ Hj]]; [done|].
    by apply (g_threads _ _ HG j).
Qed.

Lemma gathering_step k s i c s' :
  gathering k s → exec i c s = Some s' → gathering k s' ∨ closing k s'.
Proof.
  intros HG. unfold exec. destruct (threads s !! i) as [t|] eqn:Hi; [|done].
  pose proof (g_threads _ _ HG i t Hi) as Hok. unfold gather_ok in Hok.
  unfold move. destruct (at_pc t) as [| |e| | | | | |e| |] eqn:Hpc; try done.
  - destruct c; intros [= <-]; left; eapply gathering_move; try done; unfold gather_ok, is_wait1; by rewrite ?Hpc.
  - intros [= <-]. left. eapply gathering_move; try done. unfold is_wait1. by rewrite Hpc.
  - assert (gathering k (State (b_count s) (b_count2 s) (<[i := goto Load1 t]> (threads s)) (elected s))) as HL.
    { eapply gathering_move; try done. unfold is_wait1. by rewrite Hpc. }
    destruct c; [case_decide|case_decide|]; intros [= <-]; try (by left);
      by apply gathering_arrive.
  - pose proof (list_count_pos is_wait1 _ i t Hi) as Hp. unfold is_wait1 in Hp at 1. rewrite Hpc in Hp.
    specialize (Hp eq_refl). pose proof (g_count _ _ HG). rewrite decide_False by lia.
    intros [= <-]. left. eapply gathering_move; try done. unfold gather_ok. by rewrite Hpc.
  - rewrite decide_True by apply HG. intros [= <-]. left. eapply gathering_move; try done.
    unfold is_wait1. by rewrite Hpc.
Qed.

Lemma state_eta s : State (b_count s) (b_count2 s) (threads s) (elected s) = s.
Proof. by destruct s. Qed.

Lemma closing_step k s i c s' :
  closing k s → exec i c s = Some s' → closing k s' ∨ releasing k s'.
Proof.
  intros HC. unfold exec. destruct (threads s !! i) as [t|] eqn:Hi; [|done].
  destruct (c_last _ _ HC) as (l & tl & Hl & Hpl & Hothers).
  destruct (decide (i = l)) as [->|Hne].
  - rewrite Hl in Hi. injection Hi as ->. unfold move. rewrite Hpl.
    destruct (c_len _ _ HC). intros Hs.
    assert (s' = State 0 (b_count2 s) (<[l := goto (if full t then Rank else Load2) t]> (threads s))
                   (elected s ++ [round t])) as -> by (destruct c; by injection Hs).
    right. pose proof (c_round _ _ HC l t Hl) as Hr.
    assert (∀ j u, <[l := goto (if full t then Rank else Load2) t]> (threads s) !! j = Some u →
              passed u = false ∧ at_pc u ≠ Reset2 ∧ release_ok k u) as Hall.
    { intros j u. rewrite list_lookup_insert_Some. intros [(_ & <- & _)|[Hne Hj]].
      - unfold passed, release_ok. by destruct (full t).
      - unfold passed, release_ok. rewrite (Hothers j u Hj) by done.
        split_and!; [done..|]. by apply (c_round _ _ HC j). }
    assert (list_count passed (<[l := goto (if full t then Rank else Load2) t]> (threads s)) = 0) as Hz.
    { apply list_count_zero. intros u [j Hj]%list_elem_of_lookup_1. by apply (Hall j). }
    split; cbn; rewrite ?length_insert, ?Hz; try apply HC.
    + done.
    + rewrite (c_count2 _ _ HC). lia.
    + intros j u Hj. by apply (Hall j).
    + intros j u Hj Hp. by destruct (Hall j u Hj) as (_ & ? & _).
    + pose proof (c_len _ _ HC). lia.
    + intros _. exists l, (goto (if full t then Rank else Load2) t). split; [|by destruct (full t)].
      apply list_lookup_insert_eq. by eapply lookup_lt_Some.
    + rewrite (c_elected _ _ HC), Hr. change (seq 0 k ++ [k] = seq 0 (S k)). by rewrite seq_S.
  - unfold move. rewrite (Hothers i t Hi Hne). rewrite decide_False by (rewrite (c_count _ _ HC); lia).
    intros Hs. left. rewrite list_insert_id, state_eta in Hs by done. destruct c; by simplify_eq.
Qed.

Lemma releasing_move k s i t t' :
  releasing k s → threads s !! i = Some t → release_ok k t' →
  passed t = false → passed t' = false → (counting_down t = true → counting_down t' = true) →
  releasing k (State (b_count s) (b_count2 s) (<[i := t']> (threads s)) (elected s)).
Proof.
  intros HR Hi Hok Hp Hp' Hcd.
  pose proof (list_count_insert passed (threads s) i t t' Hi) as Hc. rewrite Hp, Hp' in Hc.
  assert (list_count passed (<[i := t']> (threads s)) = list_count passed (threads s)) as E by lia.
  assert (∀ u, passed u = false → at_pc u ≠ Reset2 ∧ at_pc u ≠ Wait3) as Hpu.
  { intros u. unfold passed. rewrite orb_false_iff, !bool_decide_eq_false. done. }
  pose proof (list_count_lt passed _ i t Hi Hp) as Hlt. pose proof (r_len _ _ HR) as Hlen.
  assert (∀ j u, threads s !! j = Some u → at_pc u ≠ Reset2) as Hno.
  { intros j u Hj Hu. destruct (decide (i = j)) as [->|Hne].
    - rewrite Hi in Hj. injection Hj as ->. by destruct (Hpu _ Hp).
    - pose proof (r_last _ _ HR j u Hj Hu i t Hi ltac:(done)) as Hw. by destruct (Hpu _ Hp). }
  split; cbn; rewrite ?E, ?length_insert; try apply HR.
  - intros j u. rewrite list_lookup_insert_Some. intros [(_ & <- & _)|[_ Hj]]; [done|].
    by apply (r_threads _ _ HR j).
  - intros j u. rewrite list_lookup_insert_Some. intros [(_ & <- & _)|[_ Hj]] Hu.
    + by destruct (Hpu _ Hp').
    + by destruct (Hno j u Hj).
  - lia.
  - intros Hz. destruct (r_first _ _ HR Hz) as (j & u & Hj & Hu).
    pose proof (lookup_lt_Some _ _ _ Hi). destruct (decide (i = j)) as [->|Hne].
    + exists j, t'. rewrite list_lookup_insert_eq by done. rewrite Hi in Hj. injection Hj as ->. auto.
    + exists j, u. by rewrite list_lookup_insert_ne.
Qed.

Lemma releasing_pass k s i t e :
  releasing k s → threads s !! i = Some t → at_pc t = Cas2 e → b_count2 s = e →
  releasing k (State (b_count s) (u64 (e - 1))
    (<[i := goto (if decide (e = 1%Z) then Reset2 else Wait3) t]> (threads s)) (elected s)).
Proof.
  intros HR Hi Hpc Hb. set (t' := goto _ t).
  assert (passed t = false) as Hp by (unfold passed; by rewrite Hpc).
  assert (passed t' = true) as Hp' by (unfold t', passed; by case_decide).
  pose proof (list_count_insert passed (threads s) i t t' Hi) as Hc. rewrite Hp, Hp' in Hc. cbn in Hc.
  pose proof (list_count_lt passed _ i t Hi Hp) as Hlt. pose proof (r_len _ _ HR) as Hlen.
  pose proof (r_count2 _ _ HR) as H2. pose proof (r_threads _ _ HR i t Hi) as Hok.
  unfold release_ok in Hok. rewrite Hpc in Hok. rewrite u64_small by lia.
  assert (∀ j u, threads s !! j = Some u → at_pc u ≠ Reset2) as Hno.
  { intros j u Hj Hu. assert (j ≠ i) as Hne by congruence.
    pose proof (r_last _ _ HR j u Hj Hu i t Hi ltac:(done)) as Hw. congruence. }
  split; cbn; rewrite ?length_insert; try apply HR.
  - lia.
  - intros j u. rewrite list_lookup_insert_Some. intros [(_ & <- & _)|[_ Hj]].
    + unfold t', release_ok. by case_decide.
    + by apply (r_threads _ _ HR j).
  - intros j u. rewrite list_lookup_insert_Some. intros [(<- & <- & _)|[_ Hj]] Hu; [|by destruct (Hno j u Hj)].
    intros j u'. rewrite list_lookup_insert_Some. intros [(-> & _)|[_ Hj]] Hne; [done|].
    unfold t' in Hu. case_decide; [|done].
    pose proof (list_count_all_but passed _ i t Hi Hp ltac:(lia) j u' Hj Hne) as Hu'.
    unfold passed in Hu'. apply orb_true_iff in Hu' as [Hu'|Hu']; apply bool_decide_eq_true in Hu'; [|done].
    by destruct (Hno j u' Hj).
  - intros Hall. exists i, t'. split; [apply list_lookup_insert_eq; by eapply lookup_lt_Some|].
    unfold t'. rewrite decide_True by lia. done.
  - lia.
Qed.

Lemma releasing_reset k s i t :
  releasing k s → threads s !! i = Some t → at_pc t = Reset2 →
  gathering (S k) (State (b_count s) m_threads (<[i := leave t]> (threads s)) (elected s)).
Proof.
  intros HR Hi Hpc. pose proof (r_last _ _ HR i t Hi Hpc) as Hothers.
  pose proof (r_threads _ _ HR i t Hi) as Hok. unfold release_ok in Hok. rewrite Hpc in Hok.
  assert (list_count is_wait1 (<[i := leave t]> (threads s)) = 0) as Hz.
  { apply list_count_zero. intros u [j Hj]%list_elem_of_lookup_1.
    apply list_lookup_insert_Some in Hj as [(_ & <- & _)|[Hne Hj]]; [done|].
    unfold is_wait1. by rewrite (Hothers j u Hj). }
  pose proof (lookup_lt_Some _ _ _ Hi) as Hlt. pose proof (r_len _ _ HR).
  split; cbn; rewrite ?Hz, ?length_insert; try apply HR; [lia|done|].
  intros j u. rewrite list_lookup_insert_Some. intros [(_ & <- & _)|[Hne Hj]]; unfold gather_ok; cbn.
  - by rewrite Hok.
  - pose proof (r_threads _ _ HR j u Hj) as Hu. unfold release_ok in Hu.
    rewrite (Hothers j u Hj) in Hu |- * by done. by rewrite Hu.
Qed.

Lemma releasing_step k s i c s' :
  releasing k s → exec i c s = Some s' → releasing k s' ∨ gathering (S k) s'.
Proof.
  intros HR. unfold exec. destruct (threads s !! i) as [t|] eqn:Hi; [|done].
  pose proof (r_threads _ _ HR i t Hi) as Hok. unfold release_ok in Hok.
  assert (∀ p, at_pc t ≠ Reset2 → at_pc t ≠ Wait3 → release_ok k (goto p t) → passed (goto p t) = false →
    (counting_down t = true → counting_down (goto p t) = true) →
    releasing k (State (b_count s) (b_count2 s) (<[i := goto p t]> (threads s)) (elected s))) as Hmove.
  { intros p H1 H2 H3 H4 H5. eapply releasing_move; try done. unfold passed. by rewrite !bool_decide_eq_false_2. }
  unfold move. destruct (at_pc t) as [| |e| | | | | |e| |] eqn:Hpc; try done.
  - rewrite decide_True by apply HR. intros Hs. left.
    assert (releasing k (State (b_count s) (b_count2 s)
      (<[i := goto (if full t then Wait2 else Load2) t]> (threads s)) (elected s))) as HL.
    { unfold counting_down in Hmove. rewrite Hpc in Hmove. destruct (full t); by apply Hmove. }
    destruct c; by simplify_eq.
  - intros Hs. left. destruct c; simplify_eq; by apply Hmove.
  - intros Hs. left. case_decide.
    + rewrite list_insert_id, state_eta in Hs by done. destruct c; by simplify_eq.
    + destruct c; simplify_eq; by apply Hmove.
  - intros Hs. left. destruct c; simplify_eq; by apply Hmove.
  - assert (releasing k (State (b_count s) (b_count2 s) (<[i := goto Load2 t]> (threads s)) (elected s))) as HL
      by (by apply Hmove).
    destruct c; [case_decide|case_decide|]; intros [= <-]; left; try done; by apply releasing_pass.
  - intros Hs. right. pose proof (releasing_reset _ _ _ _ HR Hi Hpc). destruct c; by simplify_eq.
  - pose proof (r_count2 _ _ HR) as H2. pose proof (list_count_pos passed _ i t Hi) as Hp.
    unfold passed in Hp at 1. rewrite Hpc in Hp. specialize (Hp eq_refl).
    rewrite decide_False by lia. intros Hs. rewrite list_insert_id, state_eta in Hs by done.
    left. destruct c; by simplify_eq.
Qed.

(** Every reachable state is in one of the phases of some round. *)
Definition in_phase (k : nat) (s : state) : Prop := gathering k s ∨ closing k s ∨ releasing k s.

Lemma init_gathering : gathering 0 init.
Proof.
  assert (∀ i t, threads init !! i = Some t → t = Thread Out false 0) as Ht.
  { intros i t Hi. by apply lookup_replicate in Hi as [-> _]. }
  split; try done.
  - cbn. by rewrite length_replicate.
  - cbn. rewrite list_count_zero; [done|]. intros t [i ->%Ht]%list_elem_of_lookup_1. done.
  - rewrite list_count_zero; [lia|]. intros t [i ->%Ht]%list_elem_of_lookup_1. done.
  - intros i t ->%Ht. done.
Qed.

Lemma reachable_phase s : reachable s → ∃ k, in_phase k s.
Proof.
  assert (∃ k, in_phase k init) as H0 by (exists 0; left; apply init_gathering).
  unfold reachable. revert H0. generalize init. intros s0 H0 Hr.
  induction Hr as [|s1 s2 s3 (i & c & E) _ IH]; [done|]. apply IH.
  destruct H0 as [k [HG|[HC|HR]]].
  - exists k. destruct (gathering_step _ _ _ _ _ HG E); [by left|by right; left].
  - exists k. destruct (closing_step _ _ _ _ _ HC E); [by right; left|by right; right].
  - destruct (releasing_step _ _ _ _ _ HR E); [exists k; by right; right|exists (S k); by left].
Qed.

(** ** The promises of the barrier *)

(** Thread [t] has left its [k]-th use of the barrier, or has arrived there
    (it has been counted by [in_node1]). *)
Definition left_round (k : nat) (t : thread) : Prop := k < round t.
Definition arrived (k : nat) (t : thread) : Prop :=
  k < round t ∨ (round t = k ∧ match at_pc t with Out | Load1 | Cas1 _ => False | _ => True end).

(** C11: No thread leaves a use of the barrier before all threads have arrived
    at that use, whatever the interleaving and however often the barrier is
    used. *)
Theorem barrier_synchronizes s i j t u k :
  reachable s → threads s !! i = Some t → threads s !! j = Some u →
  left_round k t → arrived k u.
Proof.
  intros (k' & Hph)%reachable_phase Hi Hj Hl. unfold left_round, arrived in *.
  destruct Hph as [HG|[HC|HR]].
  - pose proof (g_threads _ _ HG i t Hi) as Ht. pose proof (g_threads _ _ HG j u Hj) as Hu.
    unfold gather_ok in *. destruct (at_pc t), (at_pc u); try done; try lia; left; lia.
  - rewrite (c_round _ _ HC i t Hi) in Hl. rewrite (c_round _ _ HC j u Hj). by left.
  - pose proof (r_threads _ _ HR i t Hi) as Ht. pose proof (r_threads _ _ HR j u Hj) as Hu.
    unfold release_ok in *. left. destruct (at_pc t), (at_pc u); try done; lia.
Qed.

(** [in_node1] returns [true] to exactly one thread per use of the barrier,
    when all threads have arrived and before any leaves; the rank barrier this
    thread runs in [operator()] happens in between. *)
Theorem one_elected_per_round s :
  reachable s →
  NoDup (elected s) ∧
  (∀ k i t, threads s !! i = Some t → k ∈ elected s → arrived k t) ∧
  (∀ k i t, threads s !! i = Some t → left_round k t → k ∈ elected s) ∧
  (∀ i j t u, threads s !! i = Some t → at_pc t = Rank → threads s !! j = Some u →
     arrived (round t) u ∧ ¬ left_round (round t) u).
Proof.
  intros (k & Hph)%reachable_phase. unfold left_round, arrived.
  assert (∃ n, elected s = seq 0 n ∧ ∀ i t, threads s !! i = Some t →
    round t ≤ n ∧ ∀ k', k' < n → arrived k' t) as (n & En & Hn).
  { unfold arrived. destruct Hph as [HG|[HC|HR]].
    - exists k. split; [apply HG|]. intros i t Hi. pose proof (g_threads _ _ HG i t Hi) as Ht.
      unfold gather_ok in Ht. destruct (at_pc t); try done; (split; [lia|]); intros k' Hk';
        destruct (decide (k' < round t)); (by left) || (right; split; [lia|done || (exfalso; lia)]).
    - exists k. split; [apply HC|]. intros i t Hi. rewrite (c_round _ _ HC i t Hi).
      split; [done|]. by left.
    - exists (S k). split; [apply HR|]. intros i t Hi. pose proof (r_threads _ _ HR i t Hi) as Ht.
      unfold release_ok in Ht. destruct (at_pc t); try done; (split; [lia|]); intros k' Hk';
        destruct (decide (k' < round t)); (by left) || (right; split; [lia|done || (exfalso; lia)]). }
  rewrite En. split_and!.
  - apply NoDup_seq.
  - intros k' i t Hi [_ Hk]%elem_of_seq. by apply (Hn i t Hi).
  - intros k' i t Hi Hk. apply elem_of_seq. destruct (Hn i t Hi). lia.
  - intros i j t u Hi Hp Hj. destruct Hph as [HG|[HC|HR]].
    + pose proof (g_threads _ _ HG i t Hi) as Ht. unfold gather_ok in Ht. by rewrite Hp in Ht.
    + destruct (c_last _ _ HC) as (l & tl & Hl & Hpl & Ho).
      destruct (decide (i = l)) as [->|Hne]; [congruence|]. by rewrite (Ho i t Hi Hne) in Hp.
    + pose proof (r_threads _ _ HR i t Hi) as Ht. pose proof (r_threads _ _ HR j u Hj) as Hu.
      unfold release_ok in *. rewrite Hp in Ht.
      destruct (at_pc u); try done; split; try lia; right; split; done || lia.
Qed.

(** ** The barrier never gets stuck *)

Lemma step_exec s i t c :
  threads s !! i = Some t →
  let '(t', b, b2, e) := move c t (b_count s) (b_count2 s) in
  step s (State b b2 (<[i := t']> (threads s)) (if e : bool then elected s ++ [round t] else elected s)).
Proof.
  intros Hi. destruct (move c t (b_count s) (b_count2 s)) as [[[t' b] b2] e] eqn:E.
  exists i, c. unfold exec. by rewrite Hi, E.
Qed.

(** A thread that has not arrived can: it may first have to leave the previous
    use, or to retry its exchange. *)
Lemma arrive_cas k s i t :
  gathering k s → threads s !! i = Some t → at_pc t = Cas1 (b_count s) →
  ∃ s', rtc step s s' ∧ (closing k s' ∨
    (gathering k s' ∧ list_count is_wait1 (threads s') = S (list_count is_wait1 (threads s)))).
Proof.
  intros HG Hi Hpc. pose proof (step_exec s i t Go Hi) as Hs.
  unfold move in Hs. rewrite Hpc, decide_True in Hs by done. cbn in Hs.
  eexists. split; [by apply rtc_once|].
  destruct (gathering_arrive k s i t (b_count s) HG Hi Hpc eq_refl) as [HG'|HC]; [right|by left].
  split; [done|]. destruct (decide (b_count s = u64 (m_threads - 1))) as [He|He].
  - exfalso. apply (g_threads _ _ HG' i (goto Reset1 t)), list_lookup_insert_eq.
    by eapply lookup_lt_Some.
  - pose proof (list_count_insert is_wait1 (threads s) i t (goto Wait1 t) Hi) as Hn.
    assert (is_wait1 (goto Wait1 t) = true) as Hw' by done.
    assert (is_wait1 t = false) as Hw by (unfold is_wait1; by rewrite Hpc).
    rewrite Hw, Hw' in Hn. cbn in Hn |- *. lia.
Qed.

(** One preparatory step of such a thread. *)
Lemma arrive_prepare k s i t c p :
  gathering k s → threads s !! i = Some t → is_wait1 t = false → is_wait1 p = false →
  gather_ok k p →
  move c t (b_count s) (b_count2 s) = (p, b_count s, b_count2 s, false) →
  let s' := State (b_count s) (b_count2 s) (<[i := p]> (threads s)) (elected s) in
  step s s' ∧ gathering k s' ∧ threads s' !! i = Some p ∧
  list_count is_wait1 (threads s') = list_count is_wait1 (threads s).
Proof.
  intros HG Hi Hw Hp Hok Em s'. pose proof (step_exec s i t c Hi) as Hs. rewrite Em in Hs.
  split_and!; [done|by eapply gathering_move; try done; congruence|..].
  - apply list_lookup_insert_eq. by eapply lookup_lt_Some.
  - pose proof (list_count_insert is_wait1 (threads s) i t p Hi) as Hc. rewrite Hw, Hp in Hc. cbn. lia.
Qed.

Lemma arrive k s i t :
  gathering k s → threads s !! i = Some t → is_wait1 t = false →
  ∃ s', rtc step s s' ∧ (closing k s' ∨
    (gathering k s' ∧ list_count is_wait1 (threads s') = S (list_count is_wait1 (threads s)))).
Proof.
  assert (∀ s t, gathering k s → threads s !! i = Some t → at_pc t = Load1 →
    ∃ s', rtc step s s' ∧ (closing k s' ∨
    (gathering k s' ∧ list_count is_wait1 (threads s') = S (list_count is_wait1 (threads s))))) as Hload.
  { clear s t. intros s t HG Hi Hpc. pose proof (g_threads _ _ HG i t Hi) as Hok.
    unfold gather_ok in Hok. rewrite Hpc in Hok.
    destruct (arrive_prepare k s i t Go (goto (Cas1 (b_count s)) t)) as (Hs & HG' & Hi' & Ec);
      [done..|unfold is_wait1; by rewrite Hpc|done|done|unfold move; by rewrite Hpc|].
    destruct (arrive_cas _ _ _ _ HG' Hi' eq_refl) as (s' & Hr & Hc).
    exists s'. split; [by eapply rtc_l|]. by rewrite Ec in Hc. }
  assert (∀ s t, gathering k s → threads s !! i = Some t → at_pc t = Out →
    ∃ s', rtc step s s' ∧ (closing k s' ∨
    (gathering k s' ∧ list_count is_wait1 (threads s') = S (list_count is_wait1 (threads s))))) as Hout.
  { clear s t. intros s t HG Hi Hpc. pose proof (g_threads _ _ HG i t Hi) as Hok.
    unfold gather_ok in Hok. rewrite Hpc in Hok.
    destruct (arrive_prepare k s i t (Enter true) (Thread Load1 true (round t))) as (Hs & HG' & Hi' & Ec);
      [done..|unfold is_wait1; by rewrite Hpc|done|done|unfold move; by rewrite Hpc|].
    destruct (Hload _ _ HG' Hi' eq_refl) as (s' & Hr & Hc).
    exists s'. split; [by eapply rtc_l|]. by rewrite Ec in Hc. }
  intros HG Hi Hw. pose proof (g_threads _ _ HG i t Hi) as Hok. unfold gather_ok in Hok.
  destruct (at_pc t) eqn:Hpc; try done.
  - by apply (Hout s t).
  - by apply (Hload s t).
  - destruct (arrive_prepare k s i t Spurious (goto Load1 t)) as (Hs & HG' & Hi' & Ec);
      [done..|unfold move; by rewrite Hpc|].
    destruct (Hload _ _ HG' Hi' eq_refl) as (s' & Hr & Hc).
    exists s'. split; [by eapply rtc_l|]. by rewrite Ec in Hc.
  - unfold is_wait1 in Hw. by rewrite Hpc in Hw.
  - destruct (arrive_prepare k s i t Go (leave t)) as (Hs & HG' & Hi' & Ec);
      [done..|unfold move; rewrite Hpc; by rewrite decide_True by apply HG|].
    destruct (Hout _ _ HG' Hi' eq_refl) as (s' & Hr & Hc).
    exists s'. split; [by eapply rtc_l|]. by rewrite Ec in Hc.
Qed.

Lemma gathering_closes k s : gathering k s → ∃ s', rtc step s s' ∧ closing k s'.
Proof.
  remember (N - list_count is_wait1 (threads s)) as n eqn:En. revert s En.
  induction n as [n IH] using lt_wf_ind. intros s -> HG.
  pose proof (g_open _ _ HG) as Ho. pose proof (g_len _ _ HG) as Hl.
  destruct (list_count_ex is_wait1 (threads s)) as (i & t & Hi & Hw); [lia|].
  destruct (arrive k s i t HG Hi Hw) as (s1 & Hr1 & [HC|[HG1 E1]]); [by eauto|].
  destruct (IH (N - list_count is_wait1 (threads s1))) with (s := s1) as (s2 & Hr2 & HC);
    [lia|done|done|].
  exists s2. split; [by etrans|done].
Qed.

Lemma closing_releases k s : closing k s → ∃ s', step s s' ∧ releasing k s'.
Proof.
  intros HC. destruct (c_last _ _ HC) as (i & t & Hi & Hpc & _).
  pose proof (step_exec s i t Go Hi) as Hs. unfold move in Hs. rewrite Hpc in Hs.
  destruct Hs as (j & c & Hs). eexists. split; [by exists j, c|].
  destruct (closing_step k s j c _ HC Hs) as [HC'|?]; [|done].
  pose proof (c_count _ _ HC') as Hz. cbn in Hz. lia.
Qed.

(** The same for the second counter. *)
Lemma pass_prepare k s i t p :
  releasing k s → threads s !! i = Some t → passed t = false → passed (goto p t) = false →
  release_ok k (goto p t) → (counting_down t = true → counting_down (goto p t) = true) →
  move Go t (b_count s) (b_count2 s) = (goto p t, b_count s, b_count2 s, false) →
  let s' := State (b_count s) (b_count2 s) (<[i := goto p t]> (threads s)) (elected s) in
  step s s' ∧ releasing k s' ∧ threads s' !! i = Some (goto p t) ∧
  list_count passed (threads s') = list_count passed (threads s).
Proof.
  intros HR Hi Hp Hp' Hok Hcd Em s'. pose proof (step_exec s i t Go Hi) as Hs. rewrite Em in Hs.
  split_and!; [done|by eapply releasing_move|..].
  - apply list_lookup_insert_eq. by eapply lookup_lt_Some.
  - pose proof (list_count_insert passed (threads s) i t (goto p t) Hi) as Hc.
    rewrite Hp, Hp' in Hc. cbn. lia.
Qed.

Definition one_more_passed (k : nat) (s s' : state) : Prop :=
  rtc step s s' ∧ releasing k s' ∧
  list_count passed (threads s') = S (list_count passed (threads s)).

Lemma one_more_step k s s1 s' :
  step s s1 → list_count passed (threads s1) = list_count passed (threads s) →
  one_more_passed k s1 s' → one_more_passed k s s'.
Proof. intros Hs E (Hr & HR & Ec). split_and!; [by eapply rtc_l|done|by rewrite <- E]. Qed.

Lemma pass_load k s i t :
  releasing k s → threads s !! i = Some t → at_pc t = Load2 → ∃ s', one_more_passed k s s'.
Proof.
  intros HR Hi Hpc. pose proof (r_threads _ _ HR i t Hi) as Hok. unfold release_ok in Hok.
  rewrite Hpc in Hok.
  destruct (pass_prepare k s i t (Cas2 (b_count2 s))) as (Hs & HR1 & Hi1 & E1);
    [done..|unfold passed; by rewrite Hpc|done|done|done|unfold move; by rewrite Hpc|].
  set (s1 := State _ _ _ _) in *. set (t1 := goto _ t) in *.
  pose proof (step_exec s1 i t1 Go Hi1) as Hs2. unfold move in Hs2. cbn in Hs2.
  rewrite decide_True in Hs2 by done.
  pose proof (releasing_pass k s1 i t1 (b_count2 s) HR1 Hi1 eq_refl eq_refl) as HR2.
  eexists. eapply (one_more_step k s s1); [done..|]. split_and!; [by apply rtc_once|done|].
  set (t2 := goto (if decide (b_count2 s = 1%Z) then Reset2 else Wait3) t1).
  pose proof (list_count_insert passed (threads s1) i t1 t2 Hi1) as Hc.
  assert (passed t1 = false) as H1 by done.
  assert (passed t2 = true) as H2 by (unfold t2, passed; by case_decide).
  rewrite H1, H2 in Hc. cbn [Nat.b2n] in Hc. cbn [threads].
  change (list_count passed (<[i := t2]> (threads s1)) = S (list_count passed (threads s1))). lia.
Qed.

(** A thread that waits for nobody passes. *)
Lemma pass_counting_down k s i t :
  releasing k s → threads s !! i = Some t → counting_down t = true → ∃ s', one_more_passed k s s'.
Proof.
  intros HR Hi Hcd. pose proof (r_threads _ _ HR i t Hi) as Hok. unfold release_ok in Hok.
  unfold counting_down in Hcd. destruct (at_pc t) eqn:Hpc; try done.
  - destruct (pass_prepare k s i t Load2) as (Hs & HR1 & Hi1 & E1);
      [done..|unfold passed; by rewrite Hpc|done|done|done|unfold move; by rewrite Hpc|].
    destruct (pass_load k _ i _ HR1 Hi1 eq_refl) as [s' Hs']. exists s'. by eapply one_more_step.
  - by apply (pass_load k s i t).
  - pose proof (step_exec s i t Spurious Hi) as Hs. unfold move in Hs. rewrite Hpc in Hs.
    assert (passed t = false) as Hp by (unfold passed; by rewrite Hpc).
    assert (releasing k (State (b_count s) (b_count2 s) (<[i := goto Load2 t]> (threads s)) (elected s)))
      as HR1 by (by eapply releasing_move).
    pose proof (list_count_insert passed (threads s) i t (goto Load2 t) Hi) as Hc.
    assert (passed (goto Load2 t) = false) as Hp' by done. rewrite Hp, Hp' in Hc.
    destruct (pass_load k _ i (goto Load2 t) HR1) as [s' Hs']; [|done|].
    { apply list_lookup_insert_eq. by eapply lookup_lt_Some. }
    exists s'. eapply one_more_step; [exact Hs|cbn; lia|done].
Qed.

Lemma pass_any k s :
  releasing k s → list_count passed (threads s) < N → ∃ s', one_more_passed k s s'.
Proof.
  intros HR Hlt. destruct (decide (list_count passed (threads s) = 0)) as [Hz|Hnz].
  { destruct (r_first _ _ HR Hz) as (i & t & Hi & Hcd). by eapply pass_counting_down. }
  pose proof (r_len _ _ HR) as Hl. pose proof (r_count2 _ _ HR) as H2.
  destruct (list_count_ex passed (threads s)) as (i & t & Hi & Hp); [lia|].
  assert (∀ s t, releasing k s → threads s !! i = Some t → at_pc t = Wait2 →
    list_count passed (threads s) ≠ 0 → ∃ s', one_more_passed k s s') as Hwait2.
  { clear s HR Hlt Hnz Hl H2 t Hi Hp. intros s t HR Hi Hpc Hnz.
    pose proof (r_threads _ _ HR i t Hi) as Hok. unfold release_ok in Hok. rewrite Hpc in Hok.
    pose proof (r_count2 _ _ HR) as H2.
    destruct (pass_prepare k s i t Load2) as (Hs & HR1 & Hi1 & E1);
      [done..|unfold passed; by rewrite Hpc|done|done|done| |].
    { unfold move. rewrite Hpc. rewrite decide_False by lia. done. }
    destruct (pass_load k _ i _ HR1 Hi1 eq_refl) as [s' Hs']. exists s'. by eapply one_more_step. }
  pose proof (r_threads _ _ HR i t Hi) as Hok. unfold release_ok in Hok.
  unfold passed in Hp. destruct (at_pc t) eqn:Hpc; try done;
    try (eapply pass_counting_down; [done..|]; unfold counting_down; by rewrite Hpc).
  - assert (passed t = false) as Hp' by (unfold passed; by rewrite Hpc).
    destruct (full t) eqn:Ef.
    + destruct (pass_prepare k s i t Wait2) as (Hs & HR1 & Hi1 & E1);
        [done..|unfold counting_down; by rewrite Hpc|unfold move; rewrite Hpc, Ef; by rewrite decide_True by apply HR|].
      destruct (Hwait2 _ _ HR1 Hi1 eq_refl) as [s' Hs']; [by rewrite E1|].
      exists s'. by eapply one_more_step.
    + destruct (pass_prepare k s i t Load2) as (Hs & HR1 & Hi1 & E1);
        [done..|unfold move; rewrite Hpc, Ef; by rewrite decide_True by apply HR|].
      destruct (pass_load k _ i _ HR1 Hi1 eq_refl) as [s' Hs']. exists s'. by eapply one_more_step.
  - by apply (Hwait2 s t).
Qed.

(** The last thread has opened the next round, the others are about to leave. *)
Definition is_out (t : thread) : bool := bool_decide (at_pc t = Out).
Definition leaving (t : thread) : Prop := at_pc t = Out ∨ at_pc t = Wait3.
Definition opened (k : nat) (s : state) : Prop :=
  gathering k s ∧ ∀ i t, threads s !! i = Some t → leaving t.

Lemma releasing_opens k s : releasing k s → ∃ s', rtc step s s' ∧ opened (S k) s'.
Proof.
  remember (N - list_count passed (threads s)) as n eqn:En. revert s En.
  induction n as [n IH] using lt_wf_ind. intros s -> HR.
  pose proof (list_count_le passed (threads s)) as Hle. pose proof (r_len _ _ HR) as Hl.
  destruct (decide (list_count passed (threads s) = N)) as [Hall|Hlt].
  - destruct (r_open _ _ HR Hall) as (i & t & Hi & Hpc).
    pose proof (step_exec s i t Go Hi) as Hs. unfold move in Hs. rewrite Hpc in Hs.
    eexists. split; [by apply rtc_once|]. split; [by apply releasing_reset|]. cbn. intros j u.
    rewrite list_lookup_insert_Some. intros [(_ & <- & _)|[Hne Hj]]; [by left|right].
    by apply (r_last _ _ HR i t Hi Hpc j u).
  - destruct (pass_any k s HR) as (s1 & Hr1 & HR1 & E1); [lia|].
    destruct (IH (N - list_count passed (threads s1))) with (s := s1) as (s2 & Hr2 & HG);
      [lia|done|done|].
    exists s2. split; [by etrans|done].
Qed.

(** The threads that wait for [b_count2] leave one after the other. *)
Lemma all_leave k s :
  opened k s → ∃ s', rtc step s s' ∧ opened k s' ∧ ∀ i t, threads s' !! i = Some t → at_pc t = Out.
Proof.
  remember (N - list_count is_out (threads s)) as n eqn:En. revert s En.
  induction n as [n IH] using lt_wf_ind. intros s -> [HG Hlv].
  pose proof (list_count_le is_out (threads s)) as Hle. pose proof (g_len _ _ HG) as Hl.
  destruct (decide (list_count is_out (threads s) = N)) as [Hall|Hlt].
  { exists s. split; [done|]. split; [done|]. intros i t Hi. destruct (is_out t) eqn:Ho; [by apply bool_decide_eq_true in Ho|].
    pose proof (list_count_lt is_out _ i t Hi Ho). lia. }
  destruct (list_count_ex is_out (threads s)) as (i & t & Hi & Ho); [lia|].
  assert (at_pc t = Wait3) as Hpc by (destruct (Hlv i t Hi) as [E|E]; [unfold is_out in Ho; by rewrite E in Ho|done]).
  pose proof (g_threads _ _ HG i t Hi) as Hok. unfold gather_ok in Hok. rewrite Hpc in Hok.
  destruct (arrive_prepare k s i t Go (leave t)) as (Hs & HG' & Hi' & _);
    [done..|unfold is_wait1; by rewrite Hpc|done|done|unfold move; rewrite Hpc; by rewrite decide_True by apply HG|].
  pose proof (list_count_insert is_out (threads s) i t (leave t) Hi) as Hc.
  assert (is_out (leave t) = true) as Ho' by done. rewrite Ho, Ho' in Hc. cbn [Nat.b2n] in Hc.
  set (s1 := State _ _ _ _) in *. assert (opened k s1) as Hop.
  { split; [done|]. unfold s1. cbn. intros j u. rewrite list_lookup_insert_Some.
    intros [(_ & <- & _)|[_ Hj]]; [by left|by apply (Hlv j)]. }
  destruct (IH (N - list_count is_out (threads s1))) with (s := s1) as (s2 & Hr2 & Hend); [|done|done|].
  { unfold s1. cbn [threads]. lia. }
  exists s2. split; [by eapply rtc_l|done].
Qed.

(** C18: The barrier has no deadlock and loses no wake-up: from every reachable
    state, whatever interleaving led to it, the threads can go on until every one of
    them has left the round they are in and is outside again, provided the threads that
    are outside enter; in each round up to then one thread was elected. *)
Theorem next_round_reachable s :
  reachable s → ∃ k s', rtc step s s' ∧ reachable s' ∧
    (∀ i t, threads s !! i = Some t → round t ≤ k) ∧ length (threads s') = N ∧
    (∀ i t, threads s' !! i = Some t → at_pc t = Out ∧ round t = S k) ∧ elected s' = seq 0 (S k).
Proof.
  intros Hr. destruct (reachable_phase s Hr) as (k & Hph).
  assert (∃ s', rtc step s s' ∧ opened (S k) s') as (s1 & Hs1 & Hop).
  { assert (∀ s, closing k s → ∃ s', rtc step s s' ∧ opened (S k) s') as Hclose.
    { intros s0 HC. destruct (closing_releases k s0 HC) as (s1 & H1 & HR).
      destruct (releasing_opens k s1 HR) as (s2 & H2 & HG). exists s2. split; [by eapply rtc_l|done]. }
    destruct Hph as [HG|[HC|HR]]; [|by apply Hclose|by apply releasing_opens].
    destruct (gathering_closes k s HG) as (s1 & H1 & HC).
    destruct (Hclose s1 HC) as (s2 & H2 & HG2). exists s2. split; [by etrans|done]. }
  destruct (all_leave (S k) s1 Hop) as (s' & Hs & [HG _] & Hout).
  assert (rtc step s s') as Hss by by trans s1.
  exists k, s'. split_and!; [done|unfold reachable in *; by trans s| |apply HG| |apply HG].
  - intros i t Hi. destruct Hph as [H1|[H1|H1]].
    + pose proof (g_threads _ _ H1 i t Hi) as Ht. unfold gather_ok in Ht. destruct (at_pc t); try done; lia.
    + by rewrite (c_round _ _ H1 i t Hi).
    + pose proof (r_threads _ _ H1 i t Hi) as Ht. unfold release_ok in Ht. destruct (at_pc t); try done; lia.
  - intros i t Hi. pose proof (g_threads _ _ HG i t Hi) as Ht. unfold gather_ok in Ht.
    by rewrite (Hout i t Hi) in Ht; rewrite (Hout i t Hi).
Qed.
End barrier.

(** ** Two threads *)

Fixpoint run (m : Z) (sched : list (nat * choice)) (s : state) : state :=
  match sched with
  | [] => s
  | (i, c) :: sched => match exec m i c s with Some s' => run m sched s' | None => s end
  end.

Lemma run_reachable m sched : reachable m (run m sched (init m)).
Proof.
  unfold reachable. generalize (init m). induction sched as [|[i c] sched IH]; intros s; cbn; [done|].
  destruct (exec m i c s) as [s'|] eqn:E; [|done]. eapply rtc_l; [by exists i, c|done].
Qed.

Definition both_arrive : list (nat * choice) :=
  [(0, Enter true); (0, Go); (0, Go); (1, Enter true); (1, Go); (1, Spurious); (1, Go); (1, Go); (1, Go)].
Definition one_leaves : list (nat * choice) :=
  both_arrive ++ [(0, Go); (0, Go); (1, Go); (1, Go); (1, Go); (0, Go); (0, Go); (0, Go); (0, Go)].

Example run_one_leaves :
  threads (run 2 both_arrive (init 2)) = [Thread Wait1 true 0; Thread Rank true 0] ∧
  threads (run 2 one_leaves (init 2)) = [Thread Out true 1; Thread Wait3 true 0].
Proof. split; vm_compute; reflexivity. Qed.

Lemma barrier_synchronizes_witness : arrived 0 (Thread Wait3 true 0).
Proof.
  apply (barrier_synchronizes 2 ltac:(lia) (run 2 one_leaves (init 2)) 0 1 (Thread Out true 1) _ 0);
    [apply run_reachable|vm_compute; reflexivity..|vm_compute; lia].
Defined.

Lemma one_elected_per_round_witness :
  elected (run 2 both_arrive (init 2)) = [0] ∧
  arrived 0 (Thread Wait1 true 0) ∧ ¬ left_round 0 (Thread Wait1 true 0).
Proof.
  split; [vm_compute; reflexivity|].
  destruct (one_elected_per_round 2 ltac:(lia) (run 2 both_arrive (init 2)) (run_reachable 2 both_arrive))
    as (_ & _ & _ & Hr).
  apply (Hr 1 0 (Thread Rank true 0)); vm_compute; reflexivity.
Defined.

Lemma next_round_reachable_witness :
  ∃ k s', rtc (step 2) (run 2 one_leaves (init 2)) s' ∧ (1 ≤ k)%nat ∧
    ∀ i t, threads s' !! i = Some t → at_pc t = Out ∧ round t = S k.
Proof.
  destruct (next_round_reachable 2 ltac:(lia) (run 2 one_leaves (init 2)) (run_reachable 2 one_leaves))
    as (k & s' & Hr & _ & Hk & _ & Ht & _).
  exists k, s'. split; [exact Hr|]. split; [|exact Ht].
  apply (Hk 0 (Thread Out true 1)). vm_compute. reflexivity.
Defined.
