(* ===== verification/Lifecycle.v ===== *)
(** * Contexts, communicators and the set of communicators

    Model of the life of communicators: src/src/unique_ptr_set.hpp,
    communicator_set_impl.hpp, communicator_state.cpp, the registration in
    context_base.hpp and communicator_base.hpp, [get_communicator] and the
    destructor of the context (context.cpp, mpi/context.cpp and its siblings), and
    the [communicator_set::progress] that the barrier calls.

    Operations of different threads are executed one after the other; the
    mutexes matter for operations that are entered again from a callback.  What a
    backend does when a communicator progresses or is destroyed, including the
    user's callbacks, is a parameter. *)
From S2P Require Import Prelude.

(** ** State *)

(** A live [communicator_impl]: its context, and the thread that made it (which
    the program does not store). *)
Record comm_info : Type := CommInfo { m_context : positive; creator : nat }.

(** A live [context_impl]: [m_comms_set] with its mutex. *)
Record ctx_info : Type := CtxInfo { m_ptrs : gset positive; m_mutex : bool }.

(** [m_map] and [m_mtx] of the [communicator_set]; [trace] lists the
    communicators that were progressed, with the thread. *)
Record life : Type := Life {
  comms : gmap positive comm_info;
  ctxs : gmap positive ctx_info;
  m_map : gmap positive (gmap nat (gset positive));
  m_mtx : bool;
  fresh_id : positive;
  trace : list (nat * positive)
}.

Section life.
Abbreviation S := life.
Implicit Types s : S.

Definition set_comms (f : gmap positive comm_info → gmap positive comm_info) s : S :=
  Life (f (comms s)) (ctxs s) (m_map s) (m_mtx s) (fresh_id s) (trace s).
Definition set_ctxs (f : gmap positive ctx_info → gmap positive ctx_info) s : S :=
  Life (comms s) (f (ctxs s)) (m_map s) (m_mtx s) (fresh_id s) (trace s).
Definition set_map f s : S := Life (comms s) (ctxs s) (f (m_map s)) (m_mtx s) (fresh_id s) (trace s).
Definition set_mtx (b : bool) s : S := Life (comms s) (ctxs s) (m_map s) b (fresh_id s) (trace s).
Definition next_id s : S := Life (comms s) (ctxs s) (m_map s) (m_mtx s) (Pos.succ (fresh_id s)) (trace s).
Definition log_progress (t : nat) (c : positive) s : S :=
  Life (comms s) (ctxs s) (m_map s) (m_mtx s) (fresh_id s) (trace s ++ [(t, c)]).

Definition fresh_ptr : M S positive :=
  let! s := get in modify next_id ;;; ret (fresh_id s).
Definition get_ctx (x : positive) : M S ctx_info :=
  let! s := get in
  match ctxs s !! x with Some i => ret i | None => stop undefined_behaviour end.
Definition get_comm (c : positive) : M S comm_info :=
  let! s := get in
  match comms s !! c with Some i => ret i | None => stop undefined_behaviour end.

(** ** Parameters *)

(** [c->progress()] on thread [t], and the destructor of [c]. *)
Variable impl_progress : nat → positive → M S unit.
Variable impl_destroy : nat → positive → M S unit.

(** ** [communicator_set] *)

(** A thread that locks a mutex it holds waits forever. *)
Definition lock_set : M S unit :=
  let! s := get in if m_mtx s then stop deadlock else modify (set_mtx true).
Definition unlock_set : M S unit := modify (set_mtx false).

(** [m_map[ctxt][tid]] *)
Definition entry (x : positive) (t : nat) s : gset positive := default ∅ (default ∅ (m_map s !! x) !! t).
Definition put_entry (x : positive) (t : nat) (cs : gset positive) s : S :=
  set_map (λ m, <[x := <[t := cs]> (default ∅ (m !! x))]> m) s.

Definition set_insert (t : nat) (x c : positive) : M S unit :=
  lock_set ;;; modify (λ s, put_entry x t ({[c]} ∪ entry x t s) s) ;;; unlock_set.
Definition set_erase (t : nat) (x c : positive) : M S unit :=
  lock_set ;;; modify (λ s, put_entry x t (entry x t s ∖ {[c]}) s) ;;; unlock_set.
Definition set_erase_context (x : positive) : M S unit :=
  lock_set ;;; modify (set_map (delete x)) ;;; unlock_set.

Definition progress_comm (t : nat) (c : positive) : M S unit :=
  get_comm c ;;; modify (log_progress t c) ;;; impl_progress t c.

(** The guard releases the mutex if a callback throws. *)
Definition set_progress (t : nat) (x : positive) : M S unit :=
  lock_set ;;;
  scoped
    (modify (λ s, put_entry x t (entry x t s) s) ;;;
     let! s := get in
     mfor (elements (entry x t s)) (progress_comm t))
    unlock_set.

(** ** [unique_ptr_set] *)

Definition lock_ctx (x : positive) : M S unit :=
  let! i := get_ctx x in
  if m_mutex i then stop deadlock else modify (set_ctxs (insert x (CtxInfo (m_ptrs i) true))).
Definition unlock_ctx (x : positive) : M S unit :=
  let! i := get_ctx x in modify (set_ctxs (insert x (CtxInfo (m_ptrs i) false))).

Definition ptrs_insert (x p : positive) : M S unit :=
  lock_ctx x ;;;
  let! i := get_ctx x in
  modify (set_ctxs (insert x (CtxInfo ({[p]} ∪ m_ptrs i) (m_mutex i)))) ;;;
  unlock_ctx x.

(** [delete p]: the destructor of the communicator runs on thread [t]. *)
Definition destroy (t : nat) (p : positive) : M S unit :=
  get_comm p ;;; impl_destroy t p ;;; modify (set_comms (delete p)).

(** Erasing the iterator of an absent element is undefined. *)
Definition ptrs_remove (t : nat) (x p : positive) : M S unit :=
  lock_ctx x ;;;
  let! i := get_ctx x in
  if decide (p ∈ m_ptrs i) then
    modify (set_ctxs (insert x (CtxInfo (m_ptrs i ∖ {[p]}) (m_mutex i)))) ;;;
    destroy t p ;;;
    unlock_ctx x
  else stop undefined_behaviour.

(** ** Contexts and communicators *)

(** [context::context] *)
Definition new_context : M S positive :=
  let! x := fresh_ptr in
  modify (set_ctxs (insert x (CtxInfo ∅ false))) ;;; ret x.

(** [context_impl::get_communicator] *)
Definition impl_get_communicator (t : nat) (x : positive) : M S positive :=
  let! c := fresh_ptr in
  modify (set_comms (insert c (CommInfo x t))) ;;;
  ptrs_insert x c ;;;
  ret c.

(** [communicator_state] constructor, on the result of the former *)
Definition get_communicator (t : nat) (x : positive) : M S positive :=
  get_ctx x ;;;
  let! c := impl_get_communicator t x in
  let! i := get_comm c in
  set_insert t (m_context i) c ;;;
  ret c.

(** [~communicator_state] *)
Definition destroy_communicator (t : nat) (c : positive) : M S unit :=
  let! i := get_comm c in
  set_erase t (m_context i) c ;;;
  let! i := get_comm c in
  ptrs_remove t (m_context i) c.

(** [context::~context], with the destructors of its members: the communicators
    that are left are deleted. *)
Definition destroy_context (t : nat) (x : positive) : M S unit :=
  get_ctx x ;;;
  set_erase_context x ;;;
  let! i := get_ctx x in
  mfor (elements (m_ptrs i)) (destroy t) ;;;
  modify (set_ctxs (delete x)).
End life.
