(* ===== verification/LifecycleInv.v ===== *)
(** * Communicators live in their context

    As long as communicators are destroyed by the thread that created them,
    before their context, nothing dangles; and what happens otherwise. *)
From S2P Require Import Prelude Lifecycle.

Section inv.
Abbreviation S := life.
Implicit Types s : S.

(** A communicator is alive exactly if the set of its context holds it, and
    exactly if the [communicator_set] holds it for the thread that created it. *)
Record life_inv s : Prop := {
  li_mtx : m_mtx s = false;
  li_mutex x i : ctxs s !! x = Some i → m_mutex i = false;
  li_ptrs x i c : ctxs s !! x = Some i → c ∈ m_ptrs i ↔ ∃ t, comms s !! c = Some (CommInfo x t);
  li_context c i : comms s !! c = Some i → is_Some (ctxs s !! m_context i);
  li_entry x t c : c ∈ entry x t s ↔ comms s !! c = Some (CommInfo x t);
  li_fresh p : is_Some (comms s !! p) ∨ is_Some (ctxs s !! p) → (p < fresh_id s)%positive
}.

Lemma entry_put x t x' t' cs s :
  entry x t (put_entry x' t' cs s) = if decide (x = x' ∧ t = t') then cs else entry x t s.
Proof.
  unfold entry, put_entry. cbn. destruct (decide (x = x')) as [->|Hx].
  - rewrite lookup_insert_eq. cbn. destruct (decide (t = t')) as [->|Ht].
    + by rewrite lookup_insert_eq, decide_True.
    + by rewrite lookup_insert_ne, decide_False by naive_solver.
  - by rewrite lookup_insert_ne, decide_False by naive_solver.
Qed.

(** ** Operations *)

Definition new_comm (t : nat) (x : positive) (i : ctx_info) s : S :=
  let c := fresh_id s in
  put_entry x t ({[c]} ∪ entry x t s)
    (set_ctxs (insert x (CtxInfo ({[c]} ∪ m_ptrs i) false)) (set_comms (insert c (CommInfo x t)) (next_id s))).

Lemma get_communicator_run t x i s :
  life_inv s → ctxs s !! x = Some i → get_communicator t x s = (Ret (fresh_id s), new_comm t x i s).
Proof.
  intros HI Hx. pose proof (li_mutex _ HI x i Hx) as Hm. pose proof (li_mtx _ HI) as Hm2.
  assert (x ≠ fresh_id s) as Hne.
  { intros ->. assert (fresh_id s < fresh_id s)%positive by (apply (li_fresh _ HI); right; by eexists). lia. }
  unfold get_communicator, impl_get_communicator, ptrs_insert, lock_ctx, unlock_ctx, get_ctx, get_comm, fresh_ptr,
    set_insert, lock_set, unlock_set, bnd, get, modify, ret. cbn.
  repeat (rewrite ?Hx, ?Hm, ?Hm2, ?lookup_insert_eq; cbn).
  unfold new_comm, put_entry, set_map, set_ctxs, set_comms, next_id, set_mtx, entry. cbn.
  by rewrite !insert_insert_eq, Hm2.
Qed.

Lemma get_communicator_inv t x i s : life_inv s → ctxs s !! x = Some i → life_inv (new_comm t x i s).
Proof.
  intros HI Hx. assert (∀ p, is_Some (comms s !! p) ∨ is_Some (ctxs s !! p) → p ≠ fresh_id s) as Hf.
  { intros p Hp%(li_fresh _ HI) ->. lia. }
  split.
  - apply HI.
  - intros x' i'. cbn. rewrite lookup_insert_Some. intros [(_ & <-)|(_ & Hx')]; [done|]. by apply (li_mutex _ HI x').
  - intros x' i' c. cbn. rewrite lookup_insert_Some. setoid_rewrite lookup_insert_Some.
    intros [(<- & <-)|(Hn & Hx')]; cbn; rewrite ?elem_of_union, ?elem_of_singleton.
    + rewrite (li_ptrs _ HI x i c Hx). split.
      * intros [->|(t' & Hc)]; [by exists t; left|]. exists t'. right. split; [|done]. intros <-.
        apply (Hf (fresh_id s)); eauto.
      * intros (t' & [(<- & _)|(_ & Hc)]); eauto.
    + rewrite (li_ptrs _ HI x' i' c Hx'). split.
      * intros (t' & Hc). exists t'. right. split; [|done]. intros <-. apply (Hf (fresh_id s)); eauto.
      * intros (t' & [(_ & [=])|(_ & Hc)]); [congruence|eauto].
  - intros c i'. cbn. rewrite !lookup_insert_Some, lookup_insert_is_Some'.
    intros [(_ & <-)|(_ & Hc)]; [by left|]. right. by apply (li_context _ HI c).
  - intros x' t' c. unfold new_comm. rewrite entry_put. cbn. rewrite lookup_insert_Some.
    assert (c ∈ entry x' t' s → fresh_id s ≠ c) as Hc.
    { intros Hc%(li_entry _ HI) <-. apply (Hf (fresh_id s)); eauto. }
    change (entry x' t' (set_ctxs _ _)) with (entry x' t' s).
    case_decide as Hd; [destruct Hd as [-> ->]|].
    + rewrite elem_of_union, elem_of_singleton, <- (li_entry _ HI). naive_solver.
    + rewrite <- (li_entry _ HI). naive_solver.
  - intros p. cbn. rewrite !lookup_insert_is_Some'. intros Hp.
    assert (p = fresh_id s ∨ p < fresh_id s)%positive as Hlt; [|lia].
    destruct Hp as [[->|Hp]|[->|Hp]]; [by left|right; apply (li_fresh _ HI); auto..|right; apply (li_fresh _ HI); auto].
Qed.

(** *** The backend *)

(** What a backend does when a communicator progresses or is destroyed leaves
    contexts and communicators alone. *)
Variable impl_progress : nat → positive → M S unit.
Variable impl_destroy : nat → positive → M S unit.
Hypothesis Hprogress : ∀ t c s, impl_progress t c s = (Ret tt, s).
Hypothesis Hdestroy : ∀ t c s, impl_destroy t c s = (Ret tt, s).

Definition without_comm (t : nat) (c x : positive) (i : ctx_info) s : S :=
  put_entry x t (entry x t s ∖ {[c]})
    (set_ctxs (insert x (CtxInfo (m_ptrs i ∖ {[c]}) false)) (set_comms (delete c) s)).

Lemma destroy_communicator_run t t' c x i s :
  life_inv s → comms s !! c = Some (CommInfo x t') → ctxs s !! x = Some i →
  destroy_communicator impl_destroy t c s = (Ret tt, without_comm t c x i s).
Proof.
  intros HI Hc Hx. pose proof (li_mutex _ HI x i Hx) as Hm. pose proof (li_mtx _ HI) as Hm2.
  assert (c ∈ m_ptrs i) as Hin by (apply (li_ptrs _ HI x i c Hx); eauto).
  unfold destroy_communicator, set_erase, ptrs_remove, destroy, lock_ctx, unlock_ctx, get_ctx, get_comm,
    lock_set, unlock_set, bnd, get, modify, ret.
  repeat (rewrite ?Hc, ?Hx, ?Hm, ?Hm2, ?lookup_insert_eq, ?Hdestroy, ?decide_True by done; cbn).
  unfold without_comm, put_entry, set_map, set_ctxs, set_comms, set_mtx, entry. cbn.
  by rewrite !insert_insert_eq, Hm2.
Qed.

Lemma destroy_communicator_inv t c x i s :
  life_inv s → comms s !! c = Some (CommInfo x t) → ctxs s !! x = Some i →
  life_inv (without_comm t c x i s).
Proof.
  intros HI Hc Hx. split.
  - apply HI.
  - intros x' i'. cbn. rewrite lookup_insert_Some. intros [(_ & <-)|(_ & Hx')]; [done|]. by apply (li_mutex _ HI x').
  - intros x' i' c'. cbn. rewrite lookup_insert_Some. setoid_rewrite lookup_delete_Some.
    intros [(<- & <-)|(Hn & Hx')]; cbn; rewrite ?elem_of_difference, ?elem_of_singleton.
    + rewrite (li_ptrs _ HI x i c' Hx). naive_solver.
    + rewrite (li_ptrs _ HI x' i' c' Hx'). split; [|naive_solver]. intros (t' & Hc').
      exists t'. split; [|done]. intros <-. congruence.
  - intros c' i'. cbn. rewrite lookup_delete_Some, lookup_insert_is_Some'. intros [_ Hc'].
    right. by apply (li_context _ HI c').
  - intros x' t' c'. unfold without_comm. rewrite entry_put. cbn. rewrite lookup_delete_Some.
    change (entry x' t' (set_ctxs _ _)) with (entry x' t' s).
    case_decide as Hd; [destruct Hd as [-> ->]|].
    + rewrite elem_of_difference, elem_of_singleton, (li_entry _ HI). naive_solver.
    + rewrite (li_entry _ HI). split; [|naive_solver]. intros Hc'. split; [|done]. intros <-.
      apply Hd. rewrite Hc in Hc'. by injection Hc' as -> ->.
  - intros p. cbn. rewrite lookup_delete_is_Some, lookup_insert_is_Some'. intros Hp. apply (li_fresh _ HI).
    destruct Hp as [[_ Hp]|[->|Hp]]; [by left|right; by eexists|by right].
Qed.

(** [communicator_set::progress] progresses what the entry of the thread holds. *)
Lemma set_progress_run t x s :
  life_inv s →
  ∃ s', set_progress impl_progress t x s = (Ret tt, s') ∧ life_inv s' ∧ comms s' = comms s ∧
    trace s' = trace s ++ ((λ c, (t, c)) <$> elements (entry x t s)).
Proof.
  intros HI. pose proof (li_mtx _ HI) as Hm. unfold set_progress, lock_set, bnd at 1 2, get at 1. rewrite Hm. cbn.
  set (s1 := put_entry x t (entry x t s) (set_mtx true s)).
  assert (entry x t s1 = entry x t s) as Ee by (unfold s1; by rewrite entry_put, decide_True).
  assert (∀ l s0, comms s0 = comms s → (∀ c, c ∈ l → c ∈ entry x t s) →
    mfor l (progress_comm impl_progress t) s0 =
      (Ret tt, Life (comms s0) (ctxs s0) (m_map s0) (m_mtx s0) (fresh_id s0) (trace s0 ++ ((λ c, (t, c)) <$> l))))
    as Hloop.
  { induction l as [|c l IH]; intros s0 E0 Hl; cbn.
    - rewrite app_nil_r. by destruct s0.
    - assert (comms s0 !! c = Some (CommInfo x t)) as Hc by (rewrite E0; apply (li_entry _ HI), Hl; set_solver).
      unfold bnd at 1, progress_comm at 1, get_comm, bnd, get. rewrite Hc. cbn. rewrite Hprogress.
      rewrite IH; [cbn; by rewrite <- app_assoc|done|set_solver]. }
  unfold scoped, bnd at 1 2, modify at 1, get at 1. cbn [fst snd].
  change (put_entry x t (entry x t (set_mtx true s)) (set_mtx true s)) with s1. rewrite Ee.
  rewrite Hloop by (done || set_solver). eexists. split; [done|]. split; [|done].
  split; try apply HI; try done.
  intros x' t' c. transitivity (c ∈ entry x' t' s1); [done|].
  transitivity (c ∈ entry x' t' s); [|apply (li_entry _ HI)].
  unfold s1. rewrite entry_put. case_decide as Hd; [destruct Hd as [-> ->]|]; done.
Qed.
(** The communicators that are left are deleted. *)
Lemma destroy_all t l s :
  NoDup l → (∀ c, c ∈ l → is_Some (comms s !! c)) →
  ∃ m, mfor l (destroy impl_destroy t) s = (Ret tt, set_comms (λ _, m) s) ∧
    ∀ c, m !! c = if decide (c ∈ l) then None else comms s !! c.
Proof.
  revert s. induction l as [|c l IH]; intros s Hnd Hl.
  - exists (comms s). split; [by destruct s|]. intros c. by rewrite decide_False by set_solver.
  - apply NoDup_cons in Hnd as [Hn Hnd]. destruct (Hl c) as [i Hi]; [set_solver|].
    destruct (IH (set_comms (delete c) s)) as (m & E & Hm); [done|..].
    { intros c' Hc'. cbn. rewrite lookup_delete_ne by set_solver. apply Hl. set_solver. }
    exists m. split.
    + cbn. unfold bnd at 1, destroy at 1, get_comm, bnd, get. rewrite Hi. cbn. rewrite Hdestroy. exact E.
    + intros c'. rewrite Hm. cbn. rewrite lookup_delete. repeat case_decide; set_solver.
Qed.

Lemma destroy_context_run t x s :
  life_inv s → is_Some (ctxs s !! x) →
  ∃ s', destroy_context impl_destroy t x s = (Ret tt, s') ∧ life_inv s'.
Proof.
  intros HI [i Hx]. pose proof (li_mtx _ HI) as Hm.
  unfold destroy_context, set_erase_context, lock_set, unlock_set, get_ctx, bnd, get, modify, ret.
  rewrite Hx. cbn. rewrite Hm. cbn. rewrite Hx.
  edestruct (destroy_all t (elements (m_ptrs i)) (set_mtx false (set_map (delete x) (set_mtx true s))))
    as (m & E & Hlk); [apply NoDup_elements| |].
  { intros c Hc%elem_of_elements. cbn. apply (li_ptrs _ HI x i c Hx) in Hc as (t' & Hc). by eexists. }
  rewrite E. eexists. split; [done|].
  assert (∀ c j, m !! c = Some j ↔ comms s !! c = Some j ∧ m_context j ≠ x) as Hm'.
  { intros c [y t']. rewrite Hlk. cbn. case_decide as Hd; rewrite elem_of_elements in Hd.
    - split; [done|]. intros [Hc Hne]. apply (li_ptrs _ HI x i c Hx) in Hd as (t2 & Hc2). congruence.
    - split; [|naive_solver]. intros Hc. split; [done|]. intros ->. apply Hd, (li_ptrs _ HI x i c Hx). eauto. }
  split; cbn.
  - done.
  - intros x' i' [_ Hx']%lookup_delete_Some. by apply (li_mutex _ HI x').
  - intros x' i' c [Hn Hx']%lookup_delete_Some. rewrite (li_ptrs _ HI x' i' c Hx'). setoid_rewrite Hm'. naive_solver.
  - intros c j [Hc Hne]%Hm'. rewrite lookup_delete_ne by done. by apply (li_context _ HI c).
  - intros x' t' c. rewrite Hm'. cbn. rewrite <- (li_entry _ HI). unfold entry. cbn.
    destruct (decide (x' = x)) as [->|Hn].
    + rewrite lookup_delete_eq. cbn. rewrite lookup_empty. set_solver.
    + rewrite lookup_delete_ne by done. naive_solver.
  - intros p Hp. apply (li_fresh _ HI). rewrite lookup_delete_is_Some in Hp.
    destruct Hp as [[j [Hc _]%Hm']|[_ Hp]]; [left; by eexists|by right].
Qed.

Lemma new_context_run s :
  life_inv s → ∃ s', new_context s = (Ret (fresh_id s), s') ∧ life_inv s'.
Proof.
  intros HI. eexists. split; [reflexivity|].
  assert (ctxs s !! fresh_id s = None) as Hn.
  { apply eq_None_not_Some. intros Hc. assert (fresh_id s < fresh_id s)%positive by (apply (li_fresh _ HI); auto). lia. }
  split; cbn; try apply HI.
  - intros x i. rewrite lookup_insert_Some. intros [(_ & <-)|(_ & Hx)]; [done|]. by apply (li_mutex _ HI x).
  - intros x i c. rewrite lookup_insert_Some. intros [(<- & <-)|(_ & Hx)]; [|by apply (li_ptrs _ HI)].
    cbn. split; [set_solver|]. intros (t & Hc). apply (li_context _ HI) in Hc as [? Hc]. cbn in Hc. congruence.
  - intros c i Hc. rewrite lookup_insert_is_Some'. right. by apply (li_context _ HI c).
  - intros p. rewrite lookup_insert_is_Some'. intros Hp.
    assert (p = fresh_id s ∨ p < fresh_id s)%positive as Hlt; [|lia].
    destruct Hp as [Hp|[->|Hp]]; [right; apply (li_fresh _ HI); auto|by left|right; apply (li_fresh _ HI); auto].
Qed.

(** ** Programs *)

Inductive life_op : Type :=
| New_context
| Get_communicator (t : nat) (x : positive)
| Destroy_communicator (t : nat) (c : positive)
| Destroy_context (t : nat) (x : positive)
| Progress (t : nat) (x : positive).

Definition run_life (o : life_op) : M S unit :=
  match o with
  | New_context => new_context ;;; ret tt
  | Get_communicator t x => get_communicator t x ;;; ret tt
  | Destroy_communicator t c => destroy_communicator impl_destroy t c
  | Destroy_context t x => destroy_context impl_destroy t x
  | Progress t x => set_progress impl_progress t x
  end.

(** What a program has to observe: communicators are destroyed by the thread that
    created them, and only what is alive is used. *)
Definition observes s (o : life_op) : Prop :=
  match o with
  | New_context | Progress _ _ => True
  | Get_communicator _ x | Destroy_context _ x => is_Some (ctxs s !! x)
  | Destroy_communicator t c => ∃ x, comms s !! c = Some (CommInfo x t)
  end.

Definition life0 : S := Life ∅ ∅ ∅ false 1 [].

Inductive life_reachable : S → Prop :=
| lr_start : life_reachable life0
| lr_step o s s' : life_reachable s → observes s o → run_life o s = (Ret tt, s') → life_reachable s'.

Lemma run_life_ok o s :
  life_inv s → observes s o → ∃ s', run_life o s = (Ret tt, s') ∧ life_inv s'.
Proof.
  intros HI Ho. destruct o as [|t x|t c|t x|t x]; cbn [run_life observes] in *.
  - destruct (new_context_run s HI) as (s' & E & HI'). exists s'. by rewrite (bnd_ret _ _ _ _ _ E).
  - destruct Ho as [i Hx]. exists (new_comm t x i s).
    rewrite (bnd_ret _ _ _ _ _ (get_communicator_run t x i s HI Hx)). split; [done|by apply get_communicator_inv].
  - destruct Ho as [x Hc]. destruct (li_context _ HI _ _ Hc) as [i Hx]. cbn in Hx. exists (without_comm t c x i s).
    split; [by apply (destroy_communicator_run t t)|by apply destroy_communicator_inv].
  - by apply destroy_context_run.
  - destruct (set_progress_run t x s HI) as (s' & E & HI' & _). eauto.
Qed.

Lemma life_reachable_inv s : life_reachable s → life_inv s.
Proof.
  induction 1 as [|o s s' _ IH Ho E].
  - split; try done. intros p [[? [=]]|[? [=]]].
  - destruct (run_life_ok o s IH Ho) as (s2 & E2 & HI). congruence.
Qed.

(** C25: If communicators are destroyed by the thread that created them, before their
    context, and the callbacks that a backend runs while it progresses or is destroyed
    leave contexts and communicators alone (otherwise: [create_in_progress_deadlocks]),
    then every operation returns: no dangling pointer is followed and no mutex is waited
    for forever; and the progress the barrier makes on a thread
    reaches exactly the living communicators of that thread in that context. *)
Theorem communicators_safe s :
  life_reachable s →
  (∀ o, observes s o → ∃ s', run_life o s = (Ret tt, s')) ∧
  (∀ t x, ∃ s' cs, set_progress impl_progress t x s = (Ret tt, s') ∧
     trace s' = trace s ++ ((λ c, (t, c)) <$> cs) ∧ NoDup cs ∧
     ∀ c, c ∈ cs ↔ comms s !! c = Some (CommInfo x t)).
Proof.
  intros HR. pose proof (life_reachable_inv s HR) as HI. split.
  - intros o Ho. destruct (run_life_ok o s HI Ho) as (s' & E & _). eauto.
  - intros t x. destruct (set_progress_run t x s HI) as (s' & E & _ & _ & Et).
    exists s', (elements (entry x t s)). split_and!; [done..|apply NoDup_elements|].
    intros c. rewrite elem_of_elements. apply (li_entry _ HI).
Qed.

(** ** Limits *)

Lemma progress_dangling t l c s :
  c ∈ l → comms s !! c = None → (∀ c', c' ∈ l → c' ≠ c → is_Some (comms s !! c')) →
  (mfor l (progress_comm impl_progress t) s).1 = Halt undefined_behaviour.
Proof.
  revert s. induction l as [|c' l IH]; intros s Hin Hc Hl; [set_solver|].
  cbn. unfold bnd at 1, progress_comm at 1, get_comm, bnd, get. destruct (decide (c' = c)) as [->|Hn].
  - by rewrite Hc.
  - destruct (Hl c') as [i Hi]; [set_solver|done|]. rewrite Hi. cbn. rewrite Hprogress.
    apply IH; [set_solver|done|]. intros c2 H2. apply Hl. set_solver.
Qed.

(** A communicator destroyed by another thread stays in the set: progress on the
    thread that created it follows a dangling pointer. *)
Theorem foreign_destroy_dangles s t t' c x :
  life_reachable s → comms s !! c = Some (CommInfo x t) → t' ≠ t →
  ∃ s', destroy_communicator impl_destroy t' c s = (Ret tt, s') ∧
    comms s' !! c = None ∧ c ∈ entry x t s' ∧
    (set_progress impl_progress t x s').1 = Halt undefined_behaviour.
Proof.
  intros HR Hc Hne. pose proof (life_reachable_inv s HR) as HI.
  destruct (li_context _ HI _ _ Hc) as [i Hx]. cbn in Hx. exists (without_comm t' c x i s).
  assert (entry x t (without_comm t' c x i s) = entry x t s) as Ee
    by (unfold without_comm; rewrite entry_put, decide_False by naive_solver; done).
  split_and!.
  - by apply (destroy_communicator_run t' t).
  - apply lookup_delete_eq.
  - rewrite Ee. by apply (li_entry _ HI).
  - set (s0 := without_comm t' c x i s) in *. set (s1 := put_entry x t (entry x t s0) (set_mtx true s0)).
    assert (lock_set s0 = (Ret tt, set_mtx true s0)) as El
      by (unfold lock_set, bnd, get; change (m_mtx s0) with (m_mtx s); by rewrite (li_mtx _ HI)).
    unfold set_progress. rewrite (bnd_ret _ _ _ _ _ El). unfold scoped.
    rewrite (bnd_ret (modify (λ s, put_entry x t (entry x t s) s)) _ _ tt s1 eq_refl), (bnd_ret get _ s1 s1 s1 eq_refl).
    assert (entry x t s1 = entry x t s) as E1 by (unfold s1; by rewrite entry_put, decide_True, <- Ee).
    rewrite E1. pose proof (progress_dangling t (elements (entry x t s)) c s1) as Hd.
    destruct (mfor _ _ s1) as [r s2]. cbn in Hd. rewrite Hd; [done|..].
    + rewrite elem_of_elements. by apply (li_entry _ HI).
    + apply lookup_delete_eq.
    + intros c' Hc'%elem_of_elements Hn. cbn. rewrite lookup_delete_ne by done.
      apply (li_entry _ HI) in Hc'. by eexists.
Qed.
End inv.

(** ** Callbacks *)

(** A callback that creates a communicator while [communicator_set::progress] runs
    waits for the mutex that its own thread holds. *)
Theorem create_in_progress_deadlocks s t x x' :
  life_inv s → is_Some (ctxs s !! x') → entry x t s ≠ ∅ →
  (set_progress (λ t _, get_communicator t x' ;;; ret tt) t x s).1 = Halt deadlock.
Proof.
  intros HI [i Hx] Hne. pose proof (li_mtx _ HI) as Hm. pose proof (li_mutex _ HI x' i Hx) as Hm'.
  set (s1 := put_entry x t (entry x t s) (set_mtx true s)).
  assert (lock_set s = (Ret tt, set_mtx true s)) as El by (unfold lock_set, bnd, get; by rewrite Hm).
  unfold set_progress. rewrite (bnd_ret _ _ _ _ _ El). unfold scoped.
  rewrite (bnd_ret (modify (λ s, put_entry x t (entry x t s) s)) _ _ tt s1 eq_refl), (bnd_ret get _ s1 s1 s1 eq_refl).
  assert (entry x t s1 = entry x t s) as -> by (unfold s1; by rewrite entry_put, decide_True).
  destruct (elements (entry x t s)) as [|c l] eqn:E; [by apply elements_empty_iff in E; apply leibniz_equiv in E|].
  assert (comms s !! c = Some (CommInfo x t)) as Hc by (apply (li_entry _ HI), elem_of_elements; rewrite E; set_solver).
  cbn [mfor]. unfold progress_comm at 1, get_communicator, impl_get_communicator, ptrs_insert, lock_ctx, unlock_ctx,
    get_ctx, get_comm, fresh_ptr, set_insert, lock_set, bnd, get, modify, ret. cbn.
  rewrite Hc. cbn. repeat (rewrite ?Hx, ?Hm', ?lookup_insert_eq; cbn). done.
Qed.

(** ** A program *)

(** Two threads create communicators in one context; one of them is destroyed. *)
Definition no_hook : nat → positive → M life unit := λ _ _, ret tt.
Definition life_run (os : list life_op) : life := (mfor os (run_life no_hook no_hook) life0).2.

Lemma life_run_snoc os o :
  observes (life_run os) o → life_reachable no_hook no_hook (life_run os) →
  run_life no_hook no_hook o (life_run os) = (Ret tt, life_run (os ++ [o])) →
  life_reachable no_hook no_hook (life_run (os ++ [o])).
Proof. intros Ho HR E. by apply (lr_step _ _ o (life_run os)). Qed.

Definition two_threads : list life_op := [New_context; Get_communicator 1 1; Get_communicator 2 1].

Lemma two_threads_reachable : life_reachable no_hook no_hook (life_run two_threads).
Proof.
  apply (life_run_snoc [New_context; Get_communicator 1 1] (Get_communicator 2 1)); [by eexists| |by vm_compute].
  apply (life_run_snoc [New_context] (Get_communicator 1 1)); [by eexists| |by vm_compute].
  apply (life_run_snoc [] New_context); [done| |by vm_compute]. constructor.
Qed.

Lemma communicators_safe_witness :
  ∃ s', run_life no_hook no_hook (Destroy_communicator 2 3) (life_run two_threads) = (Ret tt, s').
Proof.
  destruct (communicators_safe no_hook no_hook (λ _ _ _, eq_refl) (λ _ _ _, eq_refl) (life_run two_threads)
    two_threads_reachable) as [Hop _].
  apply Hop. by exists 1%positive.
Defined.

Lemma foreign_destroy_dangles_witness :
  ∃ s', destroy_communicator no_hook 1 3 (life_run two_threads) = (Ret tt, s') ∧
    comms s' !! 3%positive = None ∧ 3%positive ∈ entry 1 2 s' ∧
    (set_progress no_hook 2 1 s').1 = Halt undefined_behaviour.
Proof.
  apply (foreign_destroy_dangles no_hook no_hook (λ _ _ _, eq_refl) (λ _ _ _, eq_refl) (life_run two_threads) 2 1 3 1).
  - apply two_threads_reachable.
  - by vm_compute.
  - done.
Defined.

Lemma create_in_progress_deadlocks_witness :
  (set_progress (λ t _, get_communicator t 1 ;;; ret tt) 1 1 (life_run two_threads)).1 = Halt deadlock.
Proof.
  apply (create_in_progress_deadlocks (life_run two_threads) 1 1 1).
  - by apply (life_reachable_inv no_hook no_hook), two_threads_reachable.
  - by eexists.
  - by vm_compute.
Defined.
