(* ===== verification/SendMulti.v ===== *)
(** * Sending to many neighbours

    Model of the [send_multi] functions of
    src/include/oomph/communicator.hpp, of [multi_request_state]
    (src/include/oomph/request.hpp) with its constructors
    (src/include/oomph/detail/communicator_helper.hpp) and of
    [send_multi_request] (src/src/request.cpp).

    The transport below is abstract: a send either completes in place, as the
    oracle [inline_sends] decides, and its callback is called before [send]
    returns, or it is pending and completes later, in any order; either way
    its callback is called once, which is what MpiApi.v shows of the MPI
    backend. *)
From S2P Require Import Prelude.

(** How the message is given to [send_multi] and to the callback: moved
    ([message_buffer&&]), or by reference or reference to const. *)
Inductive passing : Type := Rref | Lref | Lref_const.

(** The two signatures of the callback: one tag for all, or one per
    neighbour. *)
Inductive tagging : Type := One_tag | Many_tags.

(** A [message_buffer<T>] object: its own address, the heap pointer it owns
    (null once moved from), [size()] and [sizeof(T)]. *)
Record message_buffer : Type := MessageBuffer {
  mb_this : positive;
  mb_heap_ptr : option positive;
  mb_size : Z;
  mb_elem : Z
}.

(** [m_msg_ptr] is the address of the caller's [message_buffer], [m_msg] the
    heap pointer of a message that was moved in. *)
Record multi_request_state : Type := MultiRequestState {
  m_counter : Z;
  m_neighs : list Z;
  m_tags : list Z;
  m_msg_size : Z;
  m_msg_ptr : option positive;
  m_msg : option positive
}.

(** The lambdas that [send_multi] passes to [send], with the captured [mrs] and
    [callback]: the one of the versions without callback only counts. *)
Inductive lambda : Type :=
| Count (mrs : positive)
| Fire (mrs : positive) (p : passing) (g : tagging) (callback : nat).

Definition captured (l : lambda) : positive :=
  match l with Count m => m | Fire m _ _ _ => m end.

(** The message as the user's callback gets it: a new [message_buffer<T>] that
    owns the heap pointer, or a reference to the caller's object. *)
Inductive message_arg : Type :=
| Owned (heap_ptr : option positive) (size : Z)
| Reference (addr : option positive).

(** A call of the user's callback. *)
Record user_call : Type := UserCall {
  uc_callback : nat;
  uc_mrs : positive;
  uc_msg : message_arg;
  uc_neighs : list Z;
  uc_tags : Z + list Z
}.

(** A send handed to the transport: pointer, bytes, destination, tag. *)
Record issued : Type := Issued {
  is_ptr : positive;
  is_bytes : Z;
  is_dst : Z;
  is_tag : Z
}.

(** The request states, the sends that are not complete, each with its lambda,
    and the history of issued sends and of calls. *)
Record state : Type := State {
  store : gmap positive multi_request_state;
  fresh : positive;
  pending : list (issued * lambda);
  sent : list issued;
  user_calls : list user_call;
  inline_sends : list bool
}.

Definition set_store (f : gmap positive multi_request_state) (s : state) : state :=
  State f (fresh s) (pending s) (sent s) (user_calls s) (inline_sends s).
Definition set_pending (q : list (issued * lambda)) (s : state) : state :=
  State (store s) (fresh s) q (sent s) (user_calls s) (inline_sends s).

Definition get_mrs (m : positive) : M state multi_request_state := λ s,
  match store s !! m with Some st => (Ret st, s) | None => (Halt undefined_behaviour, s) end.
Definition put_mrs (m : positive) (st : multi_request_state) : M state unit :=
  modify (λ s, set_store (<[m := st]> (store s)) s).
Definition log_user_call (c : user_call) : M state unit :=
  modify (λ s, State (store s) (fresh s) (pending s) (sent s) (user_calls s ++ [c])
                     (inline_sends s)).

(** [make_multi_request_state(...)] *)
Definition make_multi_request_state (st : multi_request_state) : M state positive :=
  let! m := gets fresh in
  modify (λ s, State (<[m := st]> (store s)) (Pos.succ (fresh s)) (pending s) (sent s)
                     (user_calls s) (inline_sends s)) ;;;
  ret m.

Definition set_counter (c : Z) (st : multi_request_state) : multi_request_state :=
  MultiRequestState c (m_neighs st) (m_tags st) (m_msg_size st) (m_msg_ptr st) (m_msg st).

(** The first argument of the callback. *)
Definition passed_msg (p : passing) (st : multi_request_state) : message_arg :=
  match p with Rref => Owned (m_msg st) (m_msg_size st) | _ => Reference (m_msg_ptr st) end.

(** The members moved into the arguments of the callback. *)
Definition moved_out (p : passing) (g : tagging) (st : multi_request_state) : multi_request_state :=
  MultiRequestState (m_counter st) []
    (match p, g with Lref, Many_tags | Lref_const, Many_tags => [] | _, _ => m_tags st end)
    (m_msg_size st) (m_msg_ptr st)
    (match p with Rref => None | _ => m_msg st end).

(** The call operator of the lambdas. *)
Definition call_lambda (l : lambda) (t : Z) : M state unit :=
  let! st := get_mrs (captured l) in
  let c := u64 (m_counter st - 1) in
  put_mrs (captured l) (set_counter c st) ;;;
  match l with
  | Count _ => ret tt
  | Fire m p g callback =>
      if decide (c = 0%Z) then
        let st := set_counter c st in
        put_mrs m (moved_out p g st) ;;;
        log_user_call (UserCall callback m (passed_msg p st) (m_neighs st)
                         (match g with One_tag => inl t | Many_tags => inr (m_tags st) end))
      else ret tt
  end.

(** [communicator::send] of the transport. *)
Definition send (x : issued) (l : lambda) : M state unit :=
  let! o := gets inline_sends in
  modify (λ s, State (store s) (fresh s) (pending s) (sent s ++ [x]) (user_calls s) (tail o)) ;;;
  if default false (head o) then call_lambda l (is_tag x)
  else modify (λ s, set_pending (pending s ++ [(x, l)]) s).

(** The transport completes its [i]-th pending send. *)
Definition complete_send (i : nat) : M state unit :=
  let! q := gets pending in
  match q !! i with
  | None => ret tt
  | Some (x, l) =>
      modify (λ s, set_pending (delete i q) s) ;;; call_lambda l (is_tag x)
  end.

(** ** [send_multi] *)

(** [assert(msg)], then [msg.m.m_heap_ptr.get()]. *)
Definition heap_ptr (msg : message_buffer) : M state positive :=
  match mb_heap_ptr msg with Some p => ret p | None => stop assert_failed end.

(** [send_multi(msg, neighs, neighs_size, tag)] and
    [send_multi(msg, neighs, tags, neighs_size)]: no callback. *)
Definition send_multi (msg : message_buffer) (neighs : list Z) (tags : Z + list Z) :
    M state positive :=
  cassert (match tags with inl _ => true | inr ts => bool_decide (length neighs = length ts) end) ;;;
  let! p := heap_ptr msg in
  let! m := make_multi_request_state
              (MultiRequestState (Z.of_nat (length neighs)) [] [] 0 None None) in
  mfor (zip neighs (match tags with inl t => replicate (length neighs) t | inr ts => ts end))
    (λ '(dst, t), send (Issued p (u64 (mb_size msg * mb_elem msg)) dst t) (Count m)) ;;;
  ret m.

(** The loop over [mrs->m_neighs]; the vectors are read anew in each iteration,
    because the lambdas may move them away. *)
Fixpoint send_loop (m : positive) (l : lambda) (p : positive) (bytes : Z) (tag : option Z)
    (n i : nat) : M state unit :=
  match n with
  | O => ret tt
  | S n =>
      let! st := get_mrs m in
      match m_neighs st !! i, (match tag with Some t => Some t | None => m_tags st !! i end) with
      | Some dst, Some t => send (Issued p bytes dst t) l ;;; send_loop m l p bytes tag n (S i)
      | _, _ => stop undefined_behaviour
      end
  end.

(** [m_mrs_factory.make(m_impl, neighs.size(), std::move(neighs), tags,
    msg.size(), ...)] for the three ways to pass the message. *)
Definition initial_state (ps : passing) (msg : message_buffer) (neighs tags : list Z) :
    multi_request_state :=
  MultiRequestState (Z.of_nat (length neighs)) neighs tags (mb_size msg)
    (match ps with Rref => None | _ => Some (mb_this msg) end)
    (match ps with Rref => mb_heap_ptr msg | _ => None end).

(** [send_multi(msg, neighs, tag, callback)] *)
Definition send_multi_cb (ps : passing) (msg : message_buffer) (neighs : list Z) (tag : Z)
    (callback : nat) : M state positive :=
  let! p := heap_ptr msg in
  let! m := make_multi_request_state (initial_state ps msg neighs []) in
  send_loop m (Fire m ps One_tag callback) p (u64 (mb_size msg * mb_elem msg)) (Some tag)
    (length neighs) 0 ;;;
  ret m.

(** [send_multi(msg, neighs, tags, callback)] *)
Definition send_multi_tags_cb (ps : passing) (msg : message_buffer) (neighs tags : list Z)
    (callback : nat) : M state positive :=
  let! p := heap_ptr msg in
  cassert (bool_decide (length neighs = length tags)) ;;;
  let! m := make_multi_request_state (initial_state ps msg neighs tags) in
  send_loop m (Fire m ps Many_tags callback) p (u64 (mb_size msg * mb_elem msg)) None
    (length neighs) 0 ;;;
  ret m.

(** ** [send_multi_request] *)

Definition send_multi_is_ready (m : option positive) : M state bool :=
  match m with
  | None => ret true
  | Some m => let! st := get_mrs m in ret (bool_decide (m_counter st = 0%Z))
  end.

(** [m->m_comm->progress()]: the transport completes the sends of this round. *)
Definition progress (round : list nat) : M state unit := mfor round complete_send.

Definition send_multi_test (m : option positive) (round : list nat) : M state bool :=
  let! r := send_multi_is_ready m in
  if r then ret true else progress round ;;; send_multi_is_ready m.

(** The loop of [wait()], over the rounds in which the transport makes
    progress. *)
Fixpoint send_multi_wait (m : option positive) (rounds : list (list nat)) : M state unit :=
  let! r := send_multi_is_ready m in
  if r then ret tt
  else match rounds with
       | [] => stop out_of_fuel
       | round :: rounds => progress round ;;; send_multi_wait m rounds
       end.

(** ** Specification *)

(** What the caller asked for. *)
Inductive origin : Type :=
| Plain
| Callback (ps : passing) (msg : message_buffer) (neighs : list Z) (tags : Z + list Z)
    (callback : nat).

Definition tagging_of (tags : Z + list Z) : tagging :=
  match tags with inl _ => One_tag | inr _ => Many_tags end.

Definition lambda_of (m : positive) (o : origin) : lambda :=
  match o with
  | Plain => Count m
  | Callback ps _ _ tags cb => Fire m ps (tagging_of tags) cb
  end.

Definition message_of (ps : passing) (msg : message_buffer) : message_arg :=
  match ps with
  | Rref => Owned (mb_heap_ptr msg) (mb_size msg)
  | _ => Reference (Some (mb_this msg))
  end.

(** The calls of the user's callback once every send is complete. *)
Definition expected_calls (m : positive) (o : origin) : list user_call :=
  match o with
  | Plain => []
  | Callback _ _ [] _ _ => []
  | Callback ps msg neighs tags cb => [UserCall cb m (message_of ps msg) neighs tags]
  end.

Definition calls_of (m : positive) (s : state) : list user_call :=
  filter (λ c, uc_mrs c = m) (user_calls s).

(** The number of pending sends of a request. *)
Definition captures (m : positive) (e : issued * lambda) : bool :=
  bool_decide (captured e.2 = m).
Definition outstanding (m : positive) (s : state) : nat :=
  list_count (captures m) (pending s).

(** The operations of a program. *)
Inductive op : Type :=
| Op_send_multi (msg : message_buffer) (neighs : list Z) (tags : Z + list Z)
| Op_send_multi_cb (ps : passing) (msg : message_buffer) (neighs : list Z) (tag : Z) (cb : nat)
| Op_send_multi_tags_cb (ps : passing) (msg : message_buffer) (neighs tags : list Z) (cb : nat)
| Op_complete (i : nat).

Definition run (o : op) : M state unit :=
  match o with
  | Op_send_multi msg neighs tags => send_multi msg neighs tags ;;; ret tt
  | Op_send_multi_cb ps msg neighs tag cb => send_multi_cb ps msg neighs tag cb ;;; ret tt
  | Op_send_multi_tags_cb ps msg neighs tags cb =>
      send_multi_tags_cb ps msg neighs tags cb ;;; ret tt
  | Op_complete i => complete_send i
  end.

(** What the asserts ask of the caller, and vectors that fit in memory. *)
Definition op_ok (o : op) : Prop :=
  match o with
  | Op_send_multi msg neighs tags =>
      is_Some (mb_heap_ptr msg) ∧ (Z.of_nat (length neighs) < 2 ^ 64)%Z ∧
      match tags with inl _ => True | inr ts => length neighs = length ts end
  | Op_send_multi_cb _ msg neighs _ _ =>
      is_Some (mb_heap_ptr msg) ∧ (Z.of_nat (length neighs) < 2 ^ 64)%Z
  | Op_send_multi_tags_cb _ msg neighs tags _ =>
      is_Some (mb_heap_ptr msg) ∧ (Z.of_nat (length neighs) < 2 ^ 64)%Z ∧
      length neighs = length tags
  | Op_complete _ => True
  end.

Definition op_origin (o : op) : option origin :=
  match o with
  | Op_send_multi _ _ _ => Some Plain
  | Op_send_multi_cb ps msg neighs tag cb => Some (Callback ps msg neighs (inl tag) cb)
  | Op_send_multi_tags_cb ps msg neighs tags cb => Some (Callback ps msg neighs (inr tags) cb)
  | Op_complete _ => None
  end.

(** One send per neighbour, in order, of the whole message. *)
Definition sends_to (msg : message_buffer) (neighs : list Z) (tags : Z + list Z) : list issued :=
  match mb_heap_ptr msg with
  | None => []
  | Some p =>
      zip_with (Issued p (u64 (mb_size msg * mb_elem msg))) neighs
        (match tags with inl t => replicate (length neighs) t | inr ts => ts end)
  end.

Definition expected_sends (o : op) : list issued :=
  match o with
  | Op_send_multi msg neighs tags => sends_to msg neighs tags
  | Op_send_multi_cb _ msg neighs tag _ => sends_to msg neighs (inl tag)
  | Op_send_multi_tags_cb _ msg neighs tags _ => sends_to msg neighs (inr tags)
  | Op_complete _ => []
  end.

(** The states a program reaches, with the requests it has made. *)
Inductive reachable : gmap positive origin → state → Prop :=
| reach_init oracle : reachable ∅ (State ∅ 1 [] [] [] oracle)
| reach_op G s o s' :
    reachable G s → op_ok o → run o s = (Ret tt, s') →
    reachable (match op_origin o with Some x => <[fresh s := x]> G | None => G end) s'.

(** ** Invariant *)

Definition intact (o : origin) (st : multi_request_state) : Prop :=
  match o with
  | Plain => True
  | Callback ps msg neighs tags _ =>
      neighs ≠ [] ∧ m_neighs st = neighs ∧ passed_msg ps st = message_of ps msg ∧
      (match tags with inl _ => True | inr ts => m_tags st = ts ∧ length neighs = length ts end)
  end.

(** [debt]: the sends of the request that the running [send_multi] has still
    to issue. *)
Record mrs_ok (o : origin) (debt : nat) (s : state) (m : positive) (st : multi_request_state) :
    Prop := MrsOk {
  mo_counter : m_counter st = Z.of_nat (outstanding m s + debt);
  mo_bound : (m_counter st < 2 ^ 64)%Z;
  mo_before : m_counter st ≠ 0%Z → calls_of m s = [] ∧ intact o st;
  mo_after : m_counter st = 0%Z → calls_of m s = expected_calls m o
}.

Definition entry_ok (G : gmap positive origin) (x : issued) (l : lambda) : Prop :=
  ∃ o, G !! captured l = Some o ∧ l = lambda_of (captured l) o ∧
       match o with Callback _ _ _ (inl t) _ => is_tag x = t | _ => True end.

Record inv (G : gmap positive origin) (debt : positive → nat) (s : state) : Prop := Inv {
  iv_fresh : ∀ m, (fresh s ≤ m)%positive → store s !! m = None ∧ G !! m = None;
  iv_store : ∀ m o, G !! m = Some o → ∃ st, store s !! m = Some st ∧ mrs_ok o (debt m) s m st;
  iv_entries : ∀ x l, (x, l) ∈ pending s → entry_ok G x l;
  iv_calls : ∀ c, c ∈ user_calls s → (uc_mrs c < fresh s)%positive
}.

(** [d], and one more for [m]. *)
Definition bump (m : positive) (d : positive → nat) : positive → nat :=
  λ m', d m' + Nat.b2n (bool_decide (m = m')).

Lemma bump_same m d : bump m d m = S (d m).
Proof. unfold bump. rewrite bool_decide_true by done. cbn. lia. Qed.
Lemma bump_other m m' d : m ≠ m' → bump m d m' = d m'.
Proof. intros. unfold bump. rewrite bool_decide_false by done. cbn. lia. Qed.

Lemma calls_of_app m s s' cs :
  user_calls s' = user_calls s ++ cs → calls_of m s' = calls_of m s ++ filter (λ c, uc_mrs c = m) cs.
Proof. intros E. unfold calls_of. by rewrite E, filter_app. Qed.

(** [mrs_ok] reads the state through these two. *)
Lemma mrs_ok_ext o d d' s s' m st :
  mrs_ok o d s m st → outstanding m s + d = outstanding m s' + d' → calls_of m s' = calls_of m s →
  mrs_ok o d' s' m st.
Proof. intros [H1 H2 H3 H4] Ho Hc. split; rewrite ?Hc; auto. congruence. Qed.

(** A step that works on the request [m] and calls its callback. *)
Lemma inv_update G d s s' m o st' cs :
  inv G (bump m d) s → G !! m = Some o → fresh s' = fresh s → pending s' = pending s →
  store s' = <[m := st']> (store s) → user_calls s' = user_calls s ++ cs →
  (∀ c, c ∈ cs → uc_mrs c = m) → mrs_ok o (d m) s' m st' → inv G d s'.
Proof.
  intros [Hf Hs He Hc] Ho Ef Ep Es Ec Hcs Hm. split; rewrite ?Ef, ?Ep, ?Es, ?Ec.
  - intros m' Hm'. rewrite lookup_insert_ne; [by apply Hf|].
    intros ->. destruct (Hf _ Hm'). congruence.
  - intros m' o' Ho'. destruct (decide (m = m')) as [<-|Hne].
    { exists st'. rewrite lookup_insert_eq. by simplify_eq. }
    destruct (Hs _ _ Ho') as (st & Hst & Hok). exists st. rewrite lookup_insert_ne by done.
    split; [done|]. apply (mrs_ok_ext _ _ _ _ _ _ _ Hok).
    + unfold outstanding. rewrite Ep, bump_other by done. done.
    + rewrite (calls_of_app _ _ _ _ Ec), filter_none, app_nil_r; [done|].
      intros c Hin. rewrite (Hcs _ Hin). done.
  - done.
  - intros c [?|Hin]%elem_of_app; [by apply Hc|]. rewrite (Hcs _ Hin).
    destruct (decide (m < fresh s)%positive) as [|Hle]; [done|].
    destruct (Hf m ltac:(lia)). congruence.
Qed.

(** What one call of a lambda keeps. *)
Definition same_transport (s s' : state) : Prop :=
  pending s' = pending s ∧ sent s' = sent s ∧ fresh s' = fresh s ∧
  inline_sends s' = inline_sends s.

Lemma call_lambda_ok G d s x l :
  inv G (bump (captured l) d) s → entry_ok G x l →
  ∃ s', call_lambda l (is_tag x) s = (Ret tt, s') ∧ inv G d s' ∧ same_transport s s'.
Proof.
  intros HI (o & Ho & Hl & Ht). destruct (iv_store _ _ _ HI _ _ Ho) as (st & Hst & [Hc Hb Hbef _]).
  rewrite bump_same in Hc. destruct Hbef as [Hno Hint]; [lia|].
  unfold call_lambda, get_mrs, bnd at 1. rewrite Hst. rewrite (u64_small (m_counter st - 1)) by lia.
  destruct o as [|ps msg neighs tags cb]; rewrite Hl in *; cbn [captured lambda_of] in *.
  - eexists. split; [done|]. split; [|done].
    eapply (inv_update _ _ _ _ _ _ _ [] HI Ho); cbn; try done; [by rewrite app_nil_r|set_solver|].
    split; cbn; [unfold outstanding in *; cbn; lia|lia|done|done].
  - unfold bnd, put_mrs, modify. cbn [fst snd].
    destruct (decide _) as [E|E].
    + eexists. split; [done|]. split; [|done]. cbn. destruct Hint as (Hne & Hn & Hp & Htg).
      eapply (inv_update _ _ _ _ _ _ _ [_] HI Ho); cbn; try done; [by rewrite insert_insert_eq|set_solver|].
      split; cbn; [cbn in E; rewrite E; unfold outstanding in *; cbn in *; lia|lia|done|intros _].
      unfold calls_of in *. cbn. rewrite filter_app, Hno, filter_cons_True, filter_nil by done. cbn.
      unfold passed_msg in *. destruct neighs; [done|]. cbn in *.
      rewrite Hn. destruct tags as [t|ts]; cbn in *; destruct ps; cbn in *; destruct_and?; congruence.
    + eexists. split; [done|]. split; [|done].
      eapply (inv_update _ _ _ _ _ _ _ [] HI Ho); cbn; try done; [by rewrite app_nil_r|set_solver|].
      split; cbn; [unfold outstanding in *; cbn; lia|lia|by split|done].
Qed.

Lemma inv_ext G d s s' :
  inv G d s → store s' = store s → fresh s' = fresh s → pending s' = pending s →
  user_calls s' = user_calls s → inv G d s'.
Proof.
  destruct s, s'; cbn. intros [H1 H2 H3 H4] -> -> -> ->. split; cbn in *; auto.
  intros m o Ho. destruct (H2 m o Ho) as (st & Hst & [? ? ? ?]). exists st. by split.
Qed.

(** The transport's list of pending sends changes by one send of [captured l]. *)
Lemma inv_pending G d d' s q :
  inv G d s → (∀ m, list_count (captures m) (pending s) + d m = list_count (captures m) q + d' m) →
  (∀ x l, (x, l) ∈ q → entry_ok G x l) → inv G d' (set_pending q s).
Proof.
  intros [H1 H2 H3 H4] Hq He. split; [done| |done|done].
  intros m o Ho. destruct (H2 m o Ho) as (st & Hst & Hok). exists st. split; [done|].
  eapply mrs_ok_ext; [exact Hok|apply Hq|done].
Qed.

Lemma send_ok G d s x l :
  inv G (bump (captured l) d) s → entry_ok G x l →
  ∃ s', send x l s = (Ret tt, s') ∧ inv G d s' ∧ sent s' = sent s ++ [x] ∧ fresh s' = fresh s.
Proof.
  intros HI He. unfold send, bnd, gets, modify. cbn.
  set (s1 := State _ _ _ _ _ _).
  assert (HI1 : inv G (bump (captured l) d) s1) by by apply (inv_ext _ _ s).
  destruct (default false _).
  - destruct (call_lambda_ok _ _ _ _ _ HI1 He) as (s' & E & HI' & (_ & Hs & Hf & _)). eauto.
  - eexists. split; [done|]. split; [|done]. apply (inv_pending _ _ _ _ _ HI1).
    + intros m. rewrite list_count_app. cbn. unfold bump, captures. cbn.
      fold (captures m). lia.
    + intros y l' [Hin|[= -> ->]%list_elem_of_singleton]%elem_of_app; [|done].
      by apply (iv_entries _ _ _ HI1).
Qed.

Lemma complete_send_ok G s i :
  inv G (λ _, 0) s →
  ∃ s', complete_send i s = (Ret tt, s') ∧ inv G (λ _, 0) s' ∧ sent s' = sent s ∧
        fresh s' = fresh s ∧ pending s' = delete i (pending s).
Proof.
  intros HI. unfold complete_send, bnd, gets, modify. cbn.
  destruct (pending s !! i) as [[x l]|] eqn:Hi.
  2:{ exists s. repeat (split; [done|]). apply lookup_ge_None in Hi.
      by rewrite delete_take_drop, take_ge, drop_ge, app_nil_r by lia. }
  assert (He : entry_ok G x l) by by apply (iv_entries _ _ _ HI), list_elem_of_lookup_2 with i.
  destruct (call_lambda_ok G (λ _, 0) (set_pending (delete i (pending s)) s) x l)
    as (s' & E & HI' & (Hp & Hs & Hf & _)); [|done|by exists s'].
  apply (inv_pending _ _ _ _ _ HI).
  - intros m. rewrite (list_count_delete _ _ _ _ Hi). unfold bump, captures. cbn. lia.
  - intros y l' Hin. apply (iv_entries _ _ _ HI). by apply list_elem_of_delete_inv in Hin.
Qed.

(** ** The operations *)

(** [n] more sends for [m]. *)
Fixpoint owe (m : positive) (n : nat) (d : positive → nat) : positive → nat :=
  match n with O => d | S n => bump m (owe m n d) end.

Lemma owe_same m n d : owe m n d m = n + d m.
Proof. induction n as [|n IH]; cbn; [done|]. by rewrite bump_same, IH. Qed.
Lemma owe_other m m' n d : m ≠ m' → owe m n d m' = d m'.
Proof. intros. induction n as [|n IH]; cbn; [done|]. by rewrite bump_other. Qed.

(** A new request owes all its sends. *)
Lemma make_ok G s st o n :
  inv G (λ _, 0) s → m_counter st = Z.of_nat n → (Z.of_nat n < 2 ^ 64)%Z →
  (n ≠ 0 → intact o st) → (n = 0 → expected_calls (fresh s) o = []) →
  ∃ s', make_multi_request_state st s = (Ret (fresh s), s') ∧
    inv (<[fresh s := o]> G) (owe (fresh s) n (λ _, 0)) s' ∧
    sent s' = sent s ∧ fresh s' = Pos.succ (fresh s).
Proof.
  intros [Hf Hs He Hc] Hn Hb Hint Hexp. eexists. split; [done|]. split; [|done].
  assert (Hnew : calls_of (fresh s) s = []).
  { apply filter_none. intros c Hin E. specialize (Hc _ Hin). rewrite E in Hc. lia. }
  assert (Hout : outstanding (fresh s) s = 0).
  { apply list_count_zero. intros [x l] Hin. apply bool_decide_false. intros E.
    destruct (He _ _ Hin) as (o' & Ho & _). destruct (Hf _ (Pos.le_refl _)). cbn in E. congruence. }
  split; cbn [store fresh pending user_calls].
  - intros m Hm. rewrite !lookup_insert_ne by lia. apply Hf. lia.
  - intros m o' Ho. destruct (decide (fresh s = m)) as [<-|Hne].
    + rewrite lookup_insert_eq in Ho. rewrite lookup_insert_eq. simplify_eq. exists st. split; [done|].
      rewrite owe_same. unfold outstanding, calls_of in *. split; cbn; rewrite ?Hnew, ?Hout.
      * lia. * lia. * intros. split; [done|]. apply Hint. lia. * intros. rewrite Hexp by lia. done.
    + rewrite lookup_insert_ne in Ho by done. destruct (Hs _ _ Ho) as (st' & Hst & Hok).
      exists st'. rewrite lookup_insert_ne by done. split; [done|].
      rewrite owe_other by done. by eapply mrs_ok_ext.
  - intros x l Hin. destruct (He _ _ Hin) as (o' & Ho & Hl). exists o'. split; [|done].
    rewrite lookup_insert_ne; [done|]. intros E. destruct (Hf _ (Pos.le_refl _)). congruence.
  - intros c Hin. specialize (Hc _ Hin). lia.
Qed.

(** A list of sends, all with the lambda of the request [m]. *)
Lemma sends_ok G m o d xs s :
  inv G (owe m (length xs) d) s → G !! m = Some o →
  (∀ x, x ∈ xs → match o with Callback _ _ _ (inl t) _ => is_tag x = t | _ => True end) →
  ∃ s', mfor xs (λ x, send x (lambda_of m o)) s = (Ret tt, s') ∧ inv G d s' ∧
        sent s' = sent s ++ xs ∧ fresh s' = fresh s.
Proof.
  intros HI Ho Ht. assert (Hcap : captured (lambda_of m o) = m) by by destruct o.
  revert s HI. induction xs as [|x xs IH]; intros s HI; cbn in *.
  { exists s. by rewrite app_nil_r. }
  destruct (send_ok G (owe m (length xs) d) s x (lambda_of m o)) as (s1 & E & HI1 & Hs & Hf).
  { by rewrite Hcap. } { exists o. rewrite Hcap. split_and!; [done..|]. apply Ht. set_solver. }
  destruct (IH (λ y Hy, Ht y ltac:(set_solver)) s1 HI1) as (s2 & E2 & HI2 & Hs2 & Hf2).
  exists s2. rewrite (bnd_ret _ _ _ _ _ E). split_and!; [done|done| |congruence].
  by rewrite Hs2, Hs, <- app_assoc.
Qed.

Definition tag_list (n : nat) (tags : Z + list Z) : list Z :=
  match tags with inl t => replicate n t | inr ts => ts end.

(** The vectors are still there when the loop reads them, so it sends what a
    loop over the original vectors would. *)
Lemma send_loop_ok G m ps msg neighs tags cb p bytes n i s :
  let o := Callback ps msg neighs tags cb in
  let xs := zip_with (Issued p bytes) (drop i neighs) (drop i (tag_list (length neighs) tags)) in
  inv G (owe m n (λ _, 0)) s → G !! m = Some o → i + n = length neighs →
  ∃ s', send_loop m (lambda_of m o) p bytes (match tags with inl t => Some t | _ => None end) n i s
          = (Ret tt, s') ∧ inv G (λ _, 0) s' ∧ sent s' = sent s ++ xs ∧ fresh s' = fresh s.
Proof.
  intros o xs HI Ho. subst xs. revert i s HI. induction n as [|n IH]; intros i s HI Hlen; cbn.
  { exists s. rewrite drop_ge by lia. by rewrite app_nil_r. }
  destruct (iv_store _ _ _ HI _ _ Ho) as (st & Hst & [Hc _ Hbef _]).
  rewrite owe_same in Hc. destruct Hbef as [_ (_ & Hn & _ & Htg)]; [lia|].
  destruct (lookup_lt_is_Some_2 neighs i ltac:(lia)) as [dst Hdst].
  assert (∃ t, tag_list (length neighs) tags !! i = Some t) as [t Ht].
  { apply lookup_lt_is_Some_2. destruct tags; cbn; [rewrite length_replicate|]; lia. }
  unfold get_mrs, bnd at 1. rewrite Hst, Hn, Hdst.
  assert (match (match tags with inl t' => Some t' | inr _ => None end) with
          Some t' => Some t' | None => m_tags st !! i end = Some t) as ->.
  { destruct tags; cbn in *; [by apply lookup_replicate in Ht as [-> _]|]. by destruct Htg as [-> _]. }
  destruct (send_ok G (owe m n (λ _, 0)) s (Issued p bytes dst t) (lambda_of m o))
    as (s1 & E & HI1 & Hs & Hf); [done| |].
  { exists o. split_and!; [done..|]. destruct tags; [|done]. by apply lookup_replicate in Ht as [-> _]. }
  destruct (IH (S i) s1 HI1 ltac:(lia)) as (s2 & E2 & HI2 & Hs2 & Hf2).
  exists s2. rewrite (bnd_ret _ _ _ _ _ E). split_and!; [done|done| |congruence].
  rewrite (drop_S _ _ _ Hdst), (drop_S _ _ _ Ht). cbn. by rewrite Hs2, Hs, <- app_assoc.
Qed.

Lemma zip_with_zip_mfor {A B C S} (f : A → B → C) (body : C → M S unit) l k (s : S) :
  mfor (zip l k) (λ '(a, b), body (f a b)) s = mfor (zip_with f l k) body s.
Proof.
  revert k s. induction l as [|a l IH]; intros [|b k] s; cbn; try done.
  apply bnd_ext. intros _ s'. apply IH.
Qed.

Lemma length_sends (p : positive) (bytes : Z) neighs tags :
  match tags with inl _ => True | inr ts => length neighs = length ts end →
  length (zip_with (Issued p bytes) neighs (tag_list (length neighs) tags)) = length neighs.
Proof. intros Ht. rewrite length_zip_with. destruct tags; cbn; rewrite ?length_replicate; lia. Qed.

(** The part the versions with a callback share. *)
Lemma start_ok G s ps msg neighs tags cb p bytes :
  let o := Callback ps msg neighs tags cb in
  let xs := zip_with (Issued p bytes) neighs (tag_list (length neighs) tags) in
  inv G (λ _, 0) s → (Z.of_nat (length neighs) < 2 ^ 64)%Z →
  match tags with inl _ => True | inr ts => length neighs = length ts end →
  ∃ s', (let! m := make_multi_request_state
                     (initial_state ps msg neighs (match tags with inl _ => [] | inr ts => ts end)) in
         send_loop m (lambda_of m o) p bytes (match tags with inl t => Some t | _ => None end)
           (length neighs) 0 ;;; ret m) s = (Ret (fresh s), s') ∧
    sent s' = sent s ++ xs ∧ inv (<[fresh s := o]> G) (λ _, 0) s'.
Proof.
  intros o xs HI Hb Ht.
  destruct (make_ok G s (initial_state ps msg neighs (match tags with inl _ => [] | inr ts => ts end)) o
              (length neighs) HI) as (s1 & E1 & HI1 & Hs1 & Hf1); [done..| | |].
  { destruct neighs; [done|]. by destruct tags, ps. } { by destruct neighs. }
  destruct (send_loop_ok _ _ ps msg neighs tags cb p bytes _ 0 _ HI1) as (s2 & E2 & HI2 & Hs2 & _);
    [by rewrite lookup_insert_eq|done|].
  exists s2. split_and!; [|by rewrite Hs2, Hs1|done]. unfold bnd, ret, o in *. by rewrite E1, E2.
Qed.

Lemma plain_ok G s msg neighs tags :
  inv G (λ _, 0) s → op_ok (Op_send_multi msg neighs tags) →
  ∃ s', send_multi msg neighs tags s = (Ret (fresh s), s') ∧
    sent s' = sent s ++ sends_to msg neighs tags ∧ inv (<[fresh s := Plain]> G) (λ _, 0) s'.
Proof.
  intros HI ([p Hp] & Hb & Ht). unfold send_multi, heap_ptr, sends_to. rewrite Hp.
  destruct (make_ok G s (MultiRequestState (Z.of_nat (length neighs)) [] [] 0 None None) Plain
              (length neighs) HI) as (s1 & E1 & HI1 & Hs1 & Hf1); [done..|].
  set (bytes := u64 _). rewrite <- (length_sends p bytes neighs tags Ht) in HI1.
  destruct (sends_ok _ _ Plain _ _ _ HI1) as (s2 & E2 & HI2 & Hs2 & _); [by rewrite lookup_insert_eq|done|].
  exists s2. split_and!; [|by rewrite Hs2, Hs1|done].
  assert ((match tags with inl _ => true | inr ts => bool_decide (length neighs = length ts) end) = true)
    as -> by (destruct tags; [done|by apply bool_decide_true]).
  unfold cassert, bnd, ret in *.
  rewrite E1, (zip_with_zip_mfor (Issued p bytes) (λ x, send x (Count (fresh s)))).
  cbn in E2. unfold tag_list in E2. by rewrite E2.
Qed.

Lemma run_ok G s o :
  inv G (λ _, 0) s → op_ok o →
  ∃ s', run o s = (Ret tt, s') ∧ sent s' = sent s ++ expected_sends o ∧
    inv (match op_origin o with Some x => <[fresh s := x]> G | None => G end) (λ _, 0) s'.
Proof.
  intros HI Hok. destruct o as [msg neighs tags|ps msg neighs tag cb|ps msg neighs tags cb|i];
    cbn -[send_multi sends_to op_ok].
  - destruct (plain_ok G s msg neighs tags HI Hok) as (s' & E & Hs).
    exists s'. by rewrite (bnd_ret _ _ _ _ _ E).
  - destruct Hok as ([p Hp] & Hb). unfold send_multi_cb, heap_ptr, sends_to. rewrite Hp.
    destruct (start_ok G s ps msg neighs (inl tag) cb p (u64 (mb_size msg * mb_elem msg)) HI Hb I)
      as (s' & E & Hs). exists s'. split; [|done]. by rewrite (bnd_ret _ _ _ _ _ E).
  - destruct Hok as ([p Hp] & Hb & Hlen). unfold send_multi_tags_cb, heap_ptr, sends_to, cassert.
    rewrite Hp, bool_decide_true by done.
    destruct (start_ok G s ps msg neighs (inr tags) cb p (u64 (mb_size msg * mb_elem msg)) HI Hb Hlen)
      as (s' & E & Hs). exists s'. split; [|done]. by rewrite (bnd_ret _ _ _ _ _ E).
  - destruct (complete_send_ok G s i HI) as (s' & E & HI' & Hs & _).
    exists s'. by rewrite app_nil_r.
Qed.

Lemma reachable_invariant G s : reachable G s → inv G (λ _, 0) s.
Proof.
  induction 1 as [oracle|G s o s' _ IH Hok E].
  - split; cbn; try done; set_solver.
  - destruct (run_ok _ _ _ IH Hok) as (s1 & E1 & _ & HI). rewrite E in E1. by simplify_eq.
Qed.

(** ** Readiness *)

Lemma is_ready_outstanding G s m o :
  inv G (λ _, 0) s → G !! m = Some o →
  send_multi_is_ready (Some m) s = (Ret (bool_decide (outstanding m s = 0)), s).
Proof.
  intros HI Ho. destruct (iv_store _ _ _ HI _ _ Ho) as (st & Hst & [Hc _ _ _]).
  unfold send_multi_is_ready, get_mrs, bnd, ret. rewrite Hst. do 2 f_equal.
  apply bool_decide_ext. lia.
Qed.

(** A round completes sends, the oldest among them if the round lists it. *)
Lemma progress_ok G s round :
  inv G (λ _, 0) s →
  ∃ s', progress round s = (Ret tt, s') ∧ inv G (λ _, 0) s' ∧
    length (pending s') ≤ length (pending s) ∧
    (0 ∈ round → pending s ≠ [] → length (pending s') < length (pending s)).
Proof.
  unfold progress. revert s. induction round as [|i round IH]; intros s HI; cbn.
  { exists s. split_and!; [done..|set_solver]. }
  destruct (complete_send_ok G s i HI) as (s1 & E & HI1 & _ & _ & Hp).
  destruct (IH s1 HI1) as (s2 & E2 & HI2 & Hle & Hlt).
  assert (length (pending s1) ≤ length (pending s)).
  { rewrite Hp, delete_take_drop, length_app, length_take, length_drop. lia. }
  exists s2. rewrite (bnd_ret _ _ _ _ _ E). split_and!; [done|done|lia|].
  intros [<-|Hin]%elem_of_cons Hne.
  - rewrite Hp in *. destruct (pending s); [done|]. cbn in *. lia.
  - destruct (decide (pending s1 = [])) as [E1|]; [|specialize (Hlt Hin n); lia].
    rewrite E1 in *. destruct (pending s); [done|]. cbn in *. lia.
Qed.

Lemma wait_ok G s m o rounds :
  inv G (λ _, 0) s → G !! m = Some o → (∀ r, r ∈ rounds → 0 ∈ r) →
  length (pending s) ≤ length rounds →
  ∃ s', send_multi_wait (Some m) rounds s = (Ret tt, s') ∧ inv G (λ _, 0) s' ∧ outstanding m s' = 0.
Proof.
  revert s. induction rounds as [|r rounds IH]; intros s HI Ho Hr Hlen;
    cbn [send_multi_wait length] in *; rewrite (bnd_ret _ _ _ _ _ (is_ready_outstanding _ _ _ _ HI Ho)).
  - assert (outstanding m s = 0) as H0.
    { unfold outstanding. destruct (pending s); [done|cbn in Hlen; lia]. }
    rewrite bool_decide_true by done. by exists s.
  - case_bool_decide as H0; [by exists s|].
    destruct (progress_ok G s r HI) as (s1 & E & HI1 & _ & Hlt). rewrite (bnd_ret _ _ _ _ _ E).
    apply IH; [done|done|set_solver|].
    assert (length (pending s1) < length (pending s)); [|lia]. apply Hlt; [set_solver|].
    intros E0. apply H0. unfold outstanding. by rewrite E0.
Qed.

(** ** Theorems *)

(** C12: In every reachable state the counter of a request is the number of its
    sends that are not complete, and its callback has been called once, with
    the message, the neighbours and the tags of the [send_multi], if and only
    if that number is zero and there was a neighbour; before that it has not
    been called. *)
Theorem send_multi_calls_back_once G s m o :
  reachable G s → G !! m = Some o →
  ∃ st, store s !! m = Some st ∧ m_counter st = Z.of_nat (outstanding m s) ∧
        calls_of m s = if decide (outstanding m s = 0) then expected_calls m o else [].
Proof.
  intros HR%reachable_invariant Ho. destruct (iv_store _ _ _ HR _ _ Ho) as (st & Hst & [Hc _ Hb Ha]).
  rewrite Nat.add_0_r in Hc. exists st. split_and!; [done|done|].
  destruct (decide _); [apply Ha; lia|apply Hb; lia].
Qed.

(** From every reachable state a [send_multi] whose asserts hold returns,
    whichever sends complete in place (the vectors are never read after they
    were moved into the callback), and has issued one send of the whole message
    per neighbour, in order, each with its tag. *)
Theorem send_multi_sends_each G s o :
  reachable G s → op_ok o →
  ∃ s', run o s = (Ret tt, s') ∧ sent s' = sent s ++ expected_sends o.
Proof.
  intros HR%reachable_invariant Hok. destruct (run_ok _ _ _ HR Hok) as (s' & E & Hs & _). eauto.
Qed.

(** [wait()] on a multi-send returns after at most as many rounds as there are
    pending sends if each round completes at least the oldest one; then
    [is_ready()] holds and the callback has been called. *)
Theorem send_multi_wait_returns G s m o rounds :
  reachable G s → G !! m = Some o → (∀ r, r ∈ rounds → 0 ∈ r) →
  length (pending s) ≤ length rounds →
  ∃ s', send_multi_wait (Some m) rounds s = (Ret tt, s') ∧
    send_multi_is_ready (Some m) s' = (Ret true, s') ∧ calls_of m s' = expected_calls m o.
Proof.
  intros HR%reachable_invariant Ho Hr Hlen. destruct (wait_ok _ _ _ _ _ HR Ho Hr Hlen) as (s' & E & HI & H0).
  exists s'. rewrite (is_ready_outstanding _ _ _ _ HI Ho), bool_decide_true by done.
  split_and!; [done|done|]. destruct (iv_store _ _ _ HI _ _ Ho) as (st & _ & [Hc _ _ Ha]).
  apply Ha. lia.
Qed.

(** ** A concrete run *)

Definition demo_msg : message_buffer := MessageBuffer 7 (Some 9%positive) 4 8.
Definition demo_op : op := Op_send_multi_tags_cb Rref demo_msg [1; 2; 3]%Z [10; 20; 30]%Z 5.
Definition demo_init : state := State ∅ 1 [] [] [] [true; false; false].
Definition demo_state : state := Eval vm_compute in (run demo_op demo_init).2.
Definition demo_ghost : gmap positive origin :=
  <[1%positive := Callback Rref demo_msg [1; 2; 3]%Z (inr [10; 20; 30]%Z) 5]> ∅.

Lemma demo_reachable : reachable demo_ghost demo_state.
Proof.
  apply (reach_op ∅ demo_init demo_op); [constructor| |vm_compute; reflexivity].
  split_and!; [by exists 9%positive|cbn; lia|done].
Qed.

Lemma send_multi_calls_back_once_witness :
  outstanding 1 demo_state = 2 ∧ calls_of 1 demo_state = [].
Proof.
  split; [vm_compute; reflexivity|].
  destruct (send_multi_calls_back_once _ _ 1 _ demo_reachable eq_refl) as (st & _ & _ & E).
  exact E.
Defined.

Lemma send_multi_sends_each_witness :
  ∃ s', run demo_op demo_state = (Ret tt, s') ∧ sent s' = sent demo_state ++ expected_sends demo_op.
Proof.
  apply (send_multi_sends_each _ _ _ demo_reachable).
  split_and!; [by exists 9%positive|cbn; lia|done].
Defined.

Lemma send_multi_wait_returns_witness :
  ∃ s', send_multi_wait (Some 1%positive) [[0]; [1; 0]] demo_state = (Ret tt, s') ∧
    send_multi_is_ready (Some 1%positive) s' = (Ret true, s') ∧
    calls_of 1 s' = [UserCall 5 1 (Owned (Some 9%positive) 4) [1; 2; 3]%Z (inr [10; 20; 30]%Z)].
Proof.
  apply (send_multi_wait_returns demo_ghost demo_state 1
           (Callback Rref demo_msg [1; 2; 3]%Z (inr [10; 20; 30]%Z) 5) [[0]; [1; 0]] demo_reachable eq_refl).
  - apply (proj1 (Forall_forall (λ r, 0 ∈ r) _)). repeat constructor.
  - vm_compute. lia.
Defined.
