(* ===== verification/Request.v ===== *)
(** * Request states

    Model of the request bookkeeping that all backends share:
    [request_state_base] of src/src/request_state_base.hpp with the lifetime
    functions of the derived [request_state] (src/src/mpi/request_state.hpp and
    siblings), over one world of the program's state:

    - [reqs], [next]: the live request states, and the next identity;
    - [counters]: the [std::size_t] cells behind [m_scheduled]
      ([communicator_state::scheduled_sends] / [scheduled_recvs] and
      [context::schedule::scheduled_recvs]);
    - [backend]: the state of the transport the program is built with.

    Two logs make statements about "exactly once" possible: [invoked] lists the
    requests whose callback has been called, [canceled] those that have been
    marked canceled.  [calls] is the trace of callback invocations, including
    those of operations that complete immediately and never get a request.

    The use count of a request is kept as a number ([m_refs]); the pointer
    operations behind it are the subject of SharedPtr.v.  The user's callbacks
    are not part of the library: [call] is a parameter. *)
From S2P Require Import Prelude.

(** [CB] is the type of the function objects, [X] that of the members a
    backend adds to the request. *)
Record request_state (CB X : Type) : Type := RequestState {
  m_scheduled : nat;
  m_rank : Z;
  m_tag : Z;
  m_cb : CB;
  m_ready : bool;
  m_canceled : bool;
  m_self_ptr : bool;
  m_refs : nat;
  m_ext : X
}.
Arguments RequestState {CB X}.
Arguments m_scheduled {CB X}.
Arguments m_rank {CB X}.
Arguments m_tag {CB X}.
Arguments m_cb {CB X}.
Arguments m_ready {CB X}.
Arguments m_canceled {CB X}.
Arguments m_self_ptr {CB X}.
Arguments m_refs {CB X}.
Arguments m_ext {CB X}.

Record world (CB X B : Type) : Type := World {
  reqs : gmap positive (request_state CB X);
  next : positive;
  counters : gmap nat Z;
  invoked : list positive;
  canceled : list positive;
  calls : list (CB * Z * Z);
  backend : B
}.
Arguments World {CB X B}.
Arguments reqs {CB X B}.
Arguments next {CB X B}.
Arguments counters {CB X B}.
Arguments invoked {CB X B}.
Arguments canceled {CB X B}.
Arguments calls {CB X B}.
Arguments backend {CB X B}.

Section request.
Context {CB X B : Type}.
Abbreviation W := (world CB X B).
Abbreviation rstate := (request_state CB X).
Implicit Types w : W.
Implicit Types st : rstate.

(** ** Field updates *)

Definition set_reqs f w : W :=
  World (f (reqs w)) (next w) (counters w) (invoked w) (canceled w) (calls w) (backend w).
Definition set_backend (b : B) w : W :=
  World (reqs w) (next w) (counters w) (invoked w) (canceled w) (calls w) b.
Definition set_ready (b : bool) st : rstate :=
  RequestState (m_scheduled st) (m_rank st) (m_tag st) (m_cb st) b (m_canceled st)
               (m_self_ptr st) (m_refs st) (m_ext st).
Definition set_ready_canceled st : rstate :=
  RequestState (m_scheduled st) (m_rank st) (m_tag st) (m_cb st) true true
               (m_self_ptr st) (m_refs st) (m_ext st).
Definition set_self (b : bool) (n : nat) st : rstate :=
  RequestState (m_scheduled st) (m_rank st) (m_tag st) (m_cb st) (m_ready st) (m_canceled st)
               b n (m_ext st).
Definition set_ext (x : X) st : rstate :=
  RequestState (m_scheduled st) (m_rank st) (m_tag st) (m_cb st) (m_ready st) (m_canceled st)
               (m_self_ptr st) (m_refs st) x.

Definition counter (c : nat) w : Z := default 0%Z (counters w !! c).

(** [++( *c)] and [--( *c)] on a [std::size_t]. *)
Definition add_counter (c : nat) (d : Z) w : W :=
  World (reqs w) (next w) (<[c := u64 (counter c w + d)]> (counters w))
        (invoked w) (canceled w) (calls w) (backend w).

(** Access through a request pointer. *)
Definition get_req (l : positive) : M W rstate := λ w,
  match reqs w !! l with
  | Some st => (Ret st, w)
  | None => (Halt undefined_behaviour, w)
  end.
Definition put_req (l : positive) (st : rstate) : M W unit :=
  modify (set_reqs (insert l st)).

(** ** [request_state_base] *)

(** [request_state_base(ctxt, comm, scheduled, rank, tag, cb)], allocated by
    the pool factory and owned by the caller's pointer. *)
Definition make_request (sched : nat) (rank tag : Z) (cb : CB) (x : X) : M W positive :=
  let! l := gets next in
  modify (λ w, World (<[l := RequestState sched rank tag cb false false false 1 x]> (reqs w))
                     (Pos.succ (next w)) (counters w) (invoked w) (canceled w) (calls w)
                     (backend w)) ;;;
  modify (add_counter sched 1) ;;;
  ret l.

Definition create_self_ref (l : positive) : M W unit :=
  let! st := get_req l in
  put_req l (set_self true (S (m_refs st)) st).

(** The moved-out pointer is owned by the caller, see [drop_ref]. *)
Definition release_self_ref (l : positive) : M W unit :=
  let! st := get_req l in
  cassert (m_self_ptr st) ;;;
  put_req l (set_self false (m_refs st) st).

(** A pointer to the request goes out of scope. *)
Definition drop_ref (l : positive) : M W unit :=
  let! st := get_req l in
  match m_refs st with
  | O => stop undefined_behaviour
  | S O => modify (set_reqs (delete l))
  | S n => put_req l (set_self (m_self_ptr st) n st)
  end.

Definition is_ready (l : positive) : M W bool :=
  let! st := get_req l in ret (m_ready st).
Definition is_canceled (l : positive) : M W bool :=
  let! st := get_req l in ret (m_canceled st).

Definition log_call (cb : CB) (r t : Z) w : W :=
  World (reqs w) (next w) (counters w) (invoked w) (canceled w)
        (calls w ++ [(cb, r, t)]) (backend w).
Definition log_invoked (l : positive) w : W :=
  World (reqs w) (next w) (counters w) (invoked w ++ [l]) (canceled w) (calls w) (backend w).
Definition log_canceled (l : positive) w : W :=
  World (reqs w) (next w) (counters w) (invoked w) (canceled w ++ [l]) (calls w) (backend w).

(** The user's function objects. *)
Variable call : CB → Z → Z → M W unit.

(** [cb(rank, tag)] *)
Definition call_cb (cb : CB) (r t : Z) : M W unit :=
  modify (log_call cb r t) ;;; call cb r t.

(** [m_cb(m_rank, m_tag); --( *m_scheduled); m_ready = true;] *)
Definition invoke_cb (l : positive) : M W unit :=
  let! st := get_req l in
  modify (log_invoked l) ;;;
  call_cb (m_cb st) (m_rank st) (m_tag st) ;;;
  let! st := get_req l in
  modify (add_counter (m_scheduled st) (-1)) ;;;
  put_req l (set_ready true st).

(** [--( *m_scheduled); m_ready = true; m_canceled = true;] *)
Definition set_canceled (l : positive) : M W unit :=
  let! st := get_req l in
  modify (log_canceled l) ;;;
  modify (add_counter (m_scheduled st) (-1)) ;;;
  put_req l (set_ready_canceled st).

(** [{ auto ptr = e->release_self_ref(); body }] *)
Definition with_self_ref {A} (l : positive) (body : M W A) : M W A :=
  release_self_ref l ;;; scoped body (drop_ref l).

(** The body of the completion loops of every backend. *)
Definition complete (l : positive) : M W unit := with_self_ref l (invoke_cb l).

(** ** The invariant of request bookkeeping *)

(** The cells [communicator_state::scheduled_sends], [scheduled_recvs] and
    [context::schedule::scheduled_recvs]. *)
Definition scheduled_sends : nat := 0.
Definition scheduled_recvs : nat := 1.
Definition scheduled_shared_recvs : nat := 2.
Definition cells : list nat := [scheduled_sends; scheduled_recvs; scheduled_shared_recvs].

Definition outstanding (c : nat) w : nat :=
  map_count (λ st : rstate, m_scheduled st = c ∧ m_ready st = false) (reqs w).

(** [exec] lists the requests whose callback is being executed (innermost
    first; callbacks nest).  Every request is in exactly one of the following
    situations: it waits for completion and owns itself; its callback is being
    executed or has been executed, once; or it has been canceled.  The
    scheduled-counters equal the numbers of unfinished requests as
    [std::size_t] values. *)
Record base_inv (exec : list positive) w : Prop := {
  bi_next l : is_Some (reqs w !! l) → (l < next w)%positive;
  bi_refs l st : reqs w !! l = Some st →
    (if m_self_ptr st then 1 else 0) + (if decide (l ∈ exec) then 1 else 0) ≤ m_refs st ∧
    0 < m_refs st;
  bi_live l st : reqs w !! l = Some st →
    if m_ready st then m_self_ptr st = false ∧ l ∉ exec
    else m_self_ptr st = true ∨ l ∈ exec;
  bi_exec l : l ∈ exec →
    ∃ st, reqs w !! l = Some st ∧ m_ready st = false ∧ m_self_ptr st = false ∧ l ∈ invoked w;
  bi_exec_nodup : NoDup exec;
  bi_count c : counter c w = u64 (Z.of_nat (outstanding c w));
  bi_once : NoDup (invoked w ++ canceled w);
  bi_past l : l ∈ invoked w ++ canceled w → (l < next w)%positive;
  bi_waiting l st : reqs w !! l = Some st → m_self_ptr st = true → l ∉ invoked w ++ canceled w;
  bi_total l : (l < next w)%positive →
    (∃ st, reqs w !! l = Some st ∧ m_self_ptr st = true) ∨ l ∈ invoked w ++ canceled w;
  bi_cells l st : reqs w !! l = Some st → m_scheduled st ∈ cells
}.

(** ** Counters *)

Lemma counter_add c c' d w :
  counter c (add_counter c' d w) =
  if decide (c = c') then u64 (counter c' w + d) else counter c w.
Proof.
  unfold counter, add_counter. cbn. rewrite lookup_insert.
  repeat case_decide; subst; done.
Qed.

Lemma outstanding_update c w l st st' w' :
  reqs w !! l = Some st → reqs w' = <[l := st']> (reqs w) →
  outstanding c w' + indicator (λ st : rstate, m_scheduled st = c ∧ m_ready st = false) st =
  outstanding c w + indicator (λ st : rstate, m_scheduled st = c ∧ m_ready st = false) st'.
Proof. intros Hl E. unfold outstanding. rewrite E. by apply map_count_update. Qed.

(** Changing a request without touching what counts leaves the count. *)
Lemma outstanding_same c w l st st' w' :
  reqs w !! l = Some st → reqs w' = <[l := st']> (reqs w) →
  m_scheduled st' = m_scheduled st → m_ready st' = m_ready st →
  outstanding c w' = outstanding c w.
Proof.
  intros Hl E Hs Hr. pose proof (outstanding_update c w l st st' w' Hl E) as H.
  unfold indicator in H. rewrite Hs, Hr in H. lia.
Qed.

(** Finishing a request takes it out of its counter. *)
Lemma outstanding_finish c w l st st' w' :
  reqs w !! l = Some st → reqs w' = <[l := st']> (reqs w) →
  m_ready st = false → m_ready st' = true →
  Z.of_nat (outstanding c w') =
  (Z.of_nat (outstanding c w) - if decide (c = m_scheduled st) then 1 else 0)%Z.
Proof.
  intros Hl E Hf Ht. pose proof (outstanding_update c w l st st' w' Hl E) as H.
  rewrite (indicator_false _ st') in H by (intros [_ ?]; congruence).
  case_decide; subst.
  - rewrite indicator_true in H by done. lia.
  - rewrite indicator_false in H by (intros [? _]; congruence). lia.
Qed.

Lemma count_finish c w l st st' w' exec :
  base_inv exec w → reqs w !! l = Some st → reqs w' = <[l := st']> (reqs w) →
  m_ready st = false → m_ready st' = true →
  counters w' = counters (add_counter (m_scheduled st) (-1) w) →
  counter c w' = u64 (Z.of_nat (outstanding c w')).
Proof.
  intros HI Hl E Hf Ht Ec. rewrite (outstanding_finish c w l st st' w') by done.
  transitivity (counter c (add_counter (m_scheduled st) (-1) w)).
  { unfold counter. by rewrite Ec. }
  rewrite counter_add. case_decide; subst.
  - rewrite (bi_count _ _ HI). apply u64_add_l.
  - rewrite (bi_count _ _ HI). f_equal. lia.
Qed.

(** ** Preservation *)

(** One request changes from [st] to [st'], the rest of the store is kept. *)
Lemma base_inv_change exec exec' w w' l st st' :
  base_inv exec w → reqs w !! l = Some st →
  reqs w' = <[l := st']> (reqs w) → next w' = next w →
  (∀ l', l' ≠ l → l' ∈ exec' ↔ l' ∈ exec) → NoDup exec' →
  (∀ l', l' ≠ l → l' ∈ invoked w' ++ canceled w' ↔ l' ∈ invoked w ++ canceled w) →
  (∀ l', l' ≠ l → l' ∈ invoked w → l' ∈ invoked w') →
  NoDup (invoked w' ++ canceled w') →
  (∀ c, counter c w' = u64 (Z.of_nat (outstanding c w'))) →
  m_scheduled st' = m_scheduled st →
  (if m_self_ptr st' then 1 else 0) + (if decide (l ∈ exec') then 1 else 0) ≤ m_refs st' →
  0 < m_refs st' →
  (if m_ready st' then m_self_ptr st' = false ∧ l ∉ exec'
   else m_self_ptr st' = true ∨ l ∈ exec') →
  (l ∈ exec' → m_ready st' = false ∧ m_self_ptr st' = false ∧ l ∈ invoked w') →
  (if m_self_ptr st' then l ∉ invoked w' ++ canceled w' else l ∈ invoked w' ++ canceled w') →
  base_inv exec' w'.
Proof.
  intros HI Hl Er En Hex Hnd Hlog Hinv Honce Hcnt Hcell Hrefs Hpos Hlive Hexl Hself.
  assert (l < next w)%positive as Hlt by (apply (bi_next _ _ HI); by eexists).
  split; rewrite ?Er, ?En.
  - intros l' Hs. rewrite lookup_insert_is_Some' in Hs.
    destruct Hs as [<-|Hs]; [done|]. by apply (bi_next _ _ HI).
  - intros l' st0 Hs. rewrite lookup_insert in Hs. case_decide as E; simplify_eq; [by split|].
    pose proof (bi_refs _ _ HI l' st0 Hs) as [H1 H2]. split; [|done].
    rewrite <- (decide_ext _ _ _ _ (Hex l' (not_eq_sym E))) in H1. done.
  - intros l' st0 Hs. rewrite lookup_insert in Hs. case_decide as E; simplify_eq; [done|].
    pose proof (bi_live _ _ HI l' st0 Hs) as H1.
    destruct (m_ready st0); rewrite (Hex l') by congruence; done.
  - intros l' Hin. destruct (decide (l' = l)) as [->|Hne].
    + exists st'. rewrite lookup_insert_eq. naive_solver.
    + apply Hex in Hin; [|done]. destruct (bi_exec _ _ HI l' Hin) as (st0 & H1 & H2 & H3 & H4).
      exists st0. rewrite lookup_insert_ne by done. auto.
  - done.
  - done.
  - done.
  - intros l' Hin. destruct (decide (l' = l)) as [->|Hne]; [done|].
    apply (bi_past _ _ HI). by apply Hlog.
  - intros l' st0 Hs Ht. rewrite lookup_insert in Hs. case_decide; simplify_eq.
    + by rewrite Ht in Hself.
    + rewrite Hlog by congruence. by eapply bi_waiting.
  - intros l' Hlt'. destruct (decide (l' = l)) as [->|Hne].
    + destruct (m_self_ptr st') eqn:E; [|by right]. left. exists st'. by rewrite lookup_insert_eq.
    + destruct (bi_total _ _ HI l' Hlt') as [(st0 & H1 & H2)|H].
      * left. exists st0. by rewrite lookup_insert_ne.
      * right. by apply Hlog.
  - intros l' st0 Hs. rewrite lookup_insert in Hs. case_decide; simplify_eq; [|by eapply bi_cells].
    rewrite Hcell. by eapply bi_cells.
Qed.

(** A finished request may leave the store. *)
Lemma base_inv_delete exec w l st :
  base_inv exec w → reqs w !! l = Some st → m_ready st = true →
  base_inv exec (set_reqs (delete l) w).
Proof.
  intros HI Hl Hr. pose proof (bi_live _ _ HI l st Hl) as Hlive. rewrite Hr in Hlive.
  destruct Hlive as [Hself Hex].
  split; cbn [set_reqs reqs next invoked canceled].
  - intros l' Hs%lookup_delete_is_Some. apply (bi_next _ _ HI). tauto.
  - intros l' st' [_ Hs]%lookup_delete_Some. by apply (bi_refs _ _ HI).
  - intros l' st' [_ Hs]%lookup_delete_Some. by apply (bi_live _ _ HI).
  - intros l' Hin. destruct (bi_exec _ _ HI l' Hin) as (st' & H1 & H2).
    exists st'. rewrite lookup_delete_ne; [done|]. by intros ->.
  - apply (bi_exec_nodup _ _ HI).
  - intros c. change (counter c w = u64 (Z.of_nat (outstanding c (set_reqs (delete l) w)))).
    rewrite (bi_count _ _ HI). do 2 f_equal. unfold outstanding. cbn.
    rewrite (map_count_delete _ (reqs w) l st Hl), indicator_false; [lia|].
    intros [_ ?]. congruence.
  - apply (bi_once _ _ HI).
  - apply (bi_past _ _ HI).
  - intros l' st' [_ Hs]%lookup_delete_Some. by apply (bi_waiting _ _ HI).
  - intros l' Hlt. destruct (bi_total _ _ HI l' Hlt) as [(st' & H1 & H2)|]; [|by right].
    left. exists st'. rewrite lookup_delete_ne; [done|]. intros <-. congruence.
  - intros l' st' [_ Hs]%lookup_delete_Some. by apply (bi_cells _ _ HI l').
Qed.

(** ** Changes the bookkeeping does not see *)

(** Two states with the same requests, up to the members of the backend. *)
Definition strip st : request_state CB unit :=
  RequestState (m_scheduled st) (m_rank st) (m_tag st) (m_cb st) (m_ready st) (m_canceled st)
               (m_self_ptr st) (m_refs st) tt.

Record same_requests w w' : Prop := {
  sr_reqs l : strip <$> reqs w !! l = strip <$> reqs w' !! l;
  sr_next : next w = next w';
  sr_counters : counters w = counters w';
  sr_invoked : invoked w = invoked w';
  sr_canceled : canceled w = canceled w'
}.

#[export] Instance same_requests_equivalence : Equivalence same_requests.
Proof.
  split.
  - by split.
  - intros w w' []. split; by symmetry.
  - intros w1 w2 w3 [] []. split; etrans; eauto.
Qed.

Lemma same_requests_lookup w w' l st :
  same_requests w w' → reqs w !! l = Some st →
  ∃ st', reqs w' !! l = Some st' ∧ strip st' = strip st.
Proof.
  intros HS Hl. pose proof (sr_reqs _ _ HS l) as E. rewrite Hl in E.
  destruct (reqs w' !! l) as [st'|]; [|done]. exists st'. split; [done|]. by apply (inj Some) in E.
Qed.

Lemma strip_eq st st' :
  strip st' = strip st →
  m_scheduled st' = m_scheduled st ∧ m_ready st' = m_ready st ∧
  m_self_ptr st' = m_self_ptr st ∧ m_refs st' = m_refs st ∧
  m_canceled st' = m_canceled st ∧
  m_cb st' = m_cb st ∧ m_rank st' = m_rank st ∧ m_tag st' = m_tag st.
Proof. destruct st, st'. unfold strip. cbn. intros [=]. by simplify_eq. Qed.

Lemma same_requests_outstanding c w w' :
  same_requests w w' → outstanding c w = outstanding c w'.
Proof.
  intros HS. unfold outstanding. apply map_count_dom. intros l.
  split; intros (st & Hl & HP).
  - destruct (same_requests_lookup _ _ _ _ HS Hl) as (st' & Hl' & E%strip_eq). exists st'. naive_solver.
  - symmetry in HS.
    destruct (same_requests_lookup _ _ _ _ HS Hl) as (st' & Hl' & E%strip_eq). exists st'. naive_solver.
Qed.

Lemma base_inv_same exec w w' : same_requests w w' → base_inv exec w → base_inv exec w'.
Proof.
  intros HS HI. pose proof HS as HS'. symmetry in HS'.
  destruct HS as [_ En Ec Ei Ex].
  split; rewrite <- ?En, <- ?Ei, <- ?Ex; try apply HI.
  - intros l [st' Hl]. destruct (same_requests_lookup _ _ _ _ HS' Hl) as (st & Hl' & _).
    apply (bi_next _ _ HI). by eexists.
  - intros l st' Hl. destruct (same_requests_lookup _ _ _ _ HS' Hl) as (st & Hl' & E%strip_eq).
    destruct E as (E1 & E2 & E3 & E4 & _). rewrite <- E3, <- E4. by apply (bi_refs _ _ HI).
  - intros l st' Hl. destruct (same_requests_lookup _ _ _ _ HS' Hl) as (st & Hl' & E%strip_eq).
    destruct E as (E1 & E2 & E3 & E4 & _). rewrite <- E2, <- E3. by apply (bi_live _ _ HI).
  - intros l (st & Hl & H)%(bi_exec _ _ HI). symmetry in HS'.
    destruct (same_requests_lookup _ _ _ _ HS' Hl) as (st' & Hl' & E%strip_eq).
    exists st'. destruct_and!. split_and!; congruence.
  - intros c. unfold counter. rewrite <- Ec. rewrite (same_requests_outstanding c w' w) by done.
    apply (bi_count _ _ HI).
  - intros l st' Hl Hs. destruct (same_requests_lookup _ _ _ _ HS' Hl) as (st & Hl' & E%strip_eq).
    apply (bi_waiting _ _ HI l st); [done|]. naive_solver.
  - intros l Hlt. destruct (bi_total _ _ HI l Hlt) as [(st & Hl & Hs)|]; [|by right].
    symmetry in HS'. destruct (same_requests_lookup _ _ _ _ HS' Hl) as (st' & Hl' & E%strip_eq).
    left. exists st'. naive_solver.
  - intros l st' Hl. destruct (same_requests_lookup _ _ _ _ HS' Hl) as (st & Hl' & (<- & _)%strip_eq).
    by eapply bi_cells.
Qed.

#[export] Instance base_inv_proper : Proper (eq ==> same_requests ==> iff) base_inv.
Proof. intros e ? <- w w' HS. split; apply base_inv_same; by try symmetry. Qed.

Lemma same_requests_backend b w : same_requests (set_backend b w) w.
Proof. by split. Qed.

(** ** Effects of the operations *)

Lemma get_req_ok l st w : reqs w !! l = Some st → get_req l w = (Ret st, w).
Proof. unfold get_req. by intros ->. Qed.

(** What is logged of a live request without a self-reference. *)
Lemma bi_self_log exec w l st :
  base_inv exec w → reqs w !! l = Some st →
  if m_self_ptr st then l ∉ invoked w ++ canceled w else l ∈ invoked w ++ canceled w.
Proof.
  intros HI Hl. destruct (m_self_ptr st) eqn:Es; [by eapply bi_waiting|].
  destruct (bi_total _ _ HI l) as [(st' & H1 & H2)|]; [|congruence|done].
  apply (bi_next _ _ HI). by eexists.
Qed.

(** Only the use count or the backend's members of a request change. *)
Lemma base_inv_refs exec w l st n x :
  base_inv exec w → reqs w !! l = Some st →
  (if m_self_ptr st then 1 else 0) + (if decide (l ∈ exec) then 1 else 0) ≤ n →
  0 < n →
  base_inv exec (set_reqs (insert l (set_ext x (set_self (m_self_ptr st) n st))) w).
Proof.
  intros HI Hl Hn Hp.
  apply (base_inv_change exec exec w _ l st (set_ext x (set_self (m_self_ptr st) n st)));
    try done; cbn [m_self_ptr m_refs m_ready set_self set_ext invoked canceled set_reqs].
  - apply HI.
  - apply HI.
  - intros c. rewrite (outstanding_same c w l st (set_ext x (set_self (m_self_ptr st) n st)))
      by done. apply (bi_count _ _ HI).
  - by apply (bi_live _ _ HI).
  - intros Hin. destruct (bi_exec _ _ HI l Hin) as (st' & H1 & H2 & H3 & H4). naive_solver.
  - by eapply bi_self_log.
Qed.

(** Dropping a pointer that is neither the self-reference nor the local
    pointer of a completion in progress. *)
Lemma drop_ref_ok exec w l st :
  base_inv exec w → reqs w !! l = Some st →
  (if m_self_ptr st then 1 else 0) + (if decide (l ∈ exec) then 1 else 0) < m_refs st →
  ∃ w', drop_ref l w = (Ret tt, w') ∧ base_inv exec w' ∧ backend w' = backend w ∧
        invoked w' = invoked w ∧ canceled w' = canceled w ∧ next w' = next w ∧
        calls w' = calls w ∧
        (∀ l', l' ≠ l → reqs w' !! l' = reqs w !! l') ∧
        reqs w' !! l = if decide (m_refs st = 1) then None
                       else Some (set_self (m_self_ptr st) (pred (m_refs st)) st).
Proof.
  intros HI Hl Hlt. unfold drop_ref. rewrite (bnd_ret _ _ _ _ _ (get_req_ok _ _ _ Hl)).
  pose proof (bi_live _ _ HI l st Hl) as Hlive.
  destruct (m_refs st) as [|[|n]] eqn:En.
  - lia.
  - assert (m_ready st = true) as Hr.
    { destruct (m_ready st); [done|]. destruct Hlive as [Hs|Hs].
      - rewrite Hs in Hlt. lia.
      - rewrite decide_True in Hlt by done. lia. }
    exists (set_reqs (delete l) w). split_and!; try done.
    + by eapply base_inv_delete.
    + intros l' Hne. cbn. by rewrite lookup_delete_ne.
    + cbn. by rewrite lookup_delete_eq.
  - exists (set_reqs (insert l (set_self (m_self_ptr st) (S n) st)) w).
    split_and!; try done.
    + apply (base_inv_refs exec w l st (S n) (m_ext st)); [done..|lia|lia].
    + intros l' Hne. cbn. by rewrite lookup_insert_ne.
    + cbn. by rewrite lookup_insert_eq.
Qed.

(** The state in which a callback runs: the self-reference has become the
    local pointer of the completion, and the call is logged. *)
Definition start_callback (l : positive) st w : W :=
  log_call (m_cb st) (m_rank st) (m_tag st)
    (log_invoked l (set_reqs (insert l (set_self false (m_refs st) st)) w)).

(** The state after the callback, before the local pointer is dropped. *)
Definition end_callback (l : positive) st w : W :=
  set_reqs (insert l (set_ready true st)) (add_counter (m_scheduled st) (-1) w).

Lemma bi_self exec w l st :
  base_inv exec w → reqs w !! l = Some st → m_self_ptr st = true →
  m_ready st = false ∧ (l ∉ exec) ∧ (l ∉ invoked w) ∧ (l ∉ canceled w) ∧ 0 < m_refs st.
Proof.
  intros HI Hl Hs. pose proof (bi_live _ _ HI l st Hl) as H1.
  pose proof (bi_waiting _ _ HI l st Hl Hs) as H2. rewrite elem_of_app in H2.
  pose proof (bi_refs _ _ HI l st Hl) as [_ H3].
  split_and!; [|intros Hin|naive_solver..].
  - destruct (m_ready st); [|done]. naive_solver.
  - destruct (bi_exec _ _ HI l Hin) as (st' & ? & ? & ? & ?). naive_solver.
Qed.

Lemma start_callback_ok exec w l st :
  base_inv exec w → reqs w !! l = Some st → m_self_ptr st = true →
  base_inv (l :: exec) (start_callback l st w).
Proof.
  intros HI Hl Hs. destruct (bi_self _ _ _ _ HI Hl Hs) as (Hr & Hne & Hni & Hnc & Hp).
  apply (base_inv_change exec _ w _ l st (set_self false (m_refs st) st));
    try done; cbn [start_callback log_call log_invoked set_self set_reqs
                   reqs next invoked canceled m_self_ptr m_refs m_ready].
  - set_solver.
  - constructor; [done|apply HI].
  - set_solver.
  - set_solver.
  - rewrite <- app_assoc, (Permutation_app_comm [l]), app_assoc.
    apply NoDup_snoc; [apply HI|set_solver].
  - intros c. rewrite (outstanding_same c w l st (set_self false (m_refs st) st)) by done.
    apply (bi_count _ _ HI).
  - rewrite decide_True by set_solver. lia.
  - rewrite Hr. right. set_solver.
  - set_solver.
  - set_solver.
Qed.

Lemma end_callback_ok exec w l st :
  base_inv (l :: exec) w → reqs w !! l = Some st →
  base_inv exec (end_callback l st w).
Proof.
  intros HI Hl. pose proof (bi_exec_nodup _ _ HI) as [Hne Hnd]%NoDup_cons.
  destruct (bi_exec _ _ HI l) as (st' & E & Hr & Hs & Hin); [set_solver|].
  rewrite Hl in E. injection E as <-.
  apply (base_inv_change (l :: exec) _ w _ l st (set_ready true st));
    try done; cbn [end_callback set_ready set_reqs add_counter
                   reqs next invoked canceled m_self_ptr m_refs m_ready].
  - set_solver.
  - apply HI.
  - intros c. by apply (count_finish c w l st (set_ready true st) _ (l :: exec)).
  - rewrite Hs, decide_False by done. lia.
  - by apply (bi_refs _ _ HI l st Hl).
  - rewrite Hs. set_solver.
Qed.

Lemma set_canceled_ok exec w l st :
  base_inv exec w → reqs w !! l = Some st → m_self_ptr st = true →
  base_inv exec (set_reqs (insert l (set_ready_canceled (set_self false (m_refs st) st)))
    (add_counter (m_scheduled st) (-1) (log_canceled l
      (set_reqs (insert l (set_self false (m_refs st) st)) w)))).
Proof.
  intros HI Hl Hs. destruct (bi_self _ _ _ _ HI Hl Hs) as (Hr & Hne & Hni & Hnc & Hp).
  apply (base_inv_change exec _ w _ l st (set_ready_canceled (set_self false (m_refs st) st)));
    try done; cbn [log_canceled set_self set_reqs set_ready_canceled add_counter
                   reqs next invoked canceled m_self_ptr m_refs m_ready m_scheduled].
  - by rewrite insert_insert_eq.
  - apply HI.
  - set_solver.
  - rewrite app_assoc. apply NoDup_snoc; [apply HI|set_solver].
  - intros c. apply (count_finish c w l st (set_ready_canceled (set_self false (m_refs st) st)) _ exec);
      try done. cbn. by rewrite insert_insert_eq.
  - rewrite decide_False by done. lia.
  - set_solver.
Qed.

Lemma release_self_ref_run l st w :
  reqs w !! l = Some st → m_self_ptr st = true →
  release_self_ref l w = (Ret tt, set_reqs (insert l (set_self false (m_refs st) st)) w).
Proof.
  intros Hl Hs. unfold release_self_ref. rewrite (bnd_ret _ _ _ _ _ (get_req_ok _ _ _ Hl)).
  by rewrite Hs.
Qed.

(** [invoke_cb], given what the callback does from the state it starts in. *)
Lemma invoke_cb_ok exec w l st w2 :
  reqs w !! l = Some st →
  call (m_cb st) (m_rank st) (m_tag st) (start_callback l st w) = (Ret tt, w2) →
  base_inv (l :: exec) w2 →
  ∃ st2, reqs w2 !! l = Some st2 ∧ m_self_ptr st2 = false ∧ 0 < m_refs st2 ∧
    invoke_cb l (set_reqs (insert l (set_self false (m_refs st) st)) w) =
      (Ret tt, end_callback l st2 w2) ∧
    base_inv exec (end_callback l st2 w2).
Proof.
  intros Hl Hcall HI2.
  destruct (bi_exec _ _ HI2 l) as (st2 & Hl2 & Hr2 & Hs2 & _); [set_solver|].
  exists st2. split_and!; [done..| | |by eapply end_callback_ok].
  { by apply (bi_refs _ _ HI2 l st2). }
  unfold invoke_cb. erewrite bnd_ret; [|apply get_req_ok, lookup_insert_eq].
  unfold bnd at 1. cbn. unfold call_cb, bnd at 1. cbn. unfold bnd.
  fold (start_callback l st w). rewrite Hcall. unfold get_req. by rewrite Hl2.
Qed.

(** Leaving the scope of the local pointer of a completion. *)
Lemma drop_finished_ok exec w l st :
  base_inv exec w → reqs w !! l = Some st → m_ready st = true → 
  ∃ w', drop_ref l w = (Ret tt, w') ∧ base_inv exec w' ∧ backend w' = backend w ∧
        invoked w' = invoked w ∧ canceled w' = canceled w ∧ next w' = next w ∧
        calls w' = calls w ∧
        (∀ l', l' ≠ l → reqs w' !! l' = reqs w !! l') ∧
        (∀ st', reqs w' !! l = Some st' → m_self_ptr st' = false ∧ m_ready st' = true) ∧
        (1 < m_refs st → is_Some (reqs w' !! l)).
Proof.
  intros HI Hl Hr. pose proof (bi_live _ _ HI l st Hl) as Hlive. rewrite Hr in Hlive.
  destruct Hlive as [Hs Hne].
  destruct (drop_ref_ok exec w l st) as (w3 & Hd & HI3 & H1 & H2 & H3 & H4 & Hc & H5 & H6); [done..| |].
  { rewrite Hs, decide_False by done. by apply (bi_refs _ _ HI l st). }
  exists w3. rewrite H6. split_and!; try done.
  - intros st'. case_decide; intros [= <-]. done.
  - intros Hm. rewrite decide_False by lia. by eexists.
Qed.

(** Completing a request that waits in some queue: the callback runs in a
    state where the request is being executed; [k] is what the scope of the
    local pointer holds besides. *)
Lemma complete_then_ok exec w l st w2 (k : M W unit) :
  base_inv exec w → reqs w !! l = Some st → m_self_ptr st = true →
  call (m_cb st) (m_rank st) (m_tag st) (start_callback l st w) = (Ret tt, w2) →
  base_inv (l :: exec) w2 →
  (∀ w, ∃ b, k w = (Ret tt, set_backend b w) ∧ b = backend (k w).2) →
  ∃ w3, with_self_ref l (invoke_cb l ;;; k) w = (Ret tt, w3) ∧ base_inv exec w3 ∧
        (∃ st2, backend w3 = backend (k (end_callback l st2 w2)).2) ∧
        invoked w3 = invoked w2 ∧ canceled w3 = canceled w2 ∧ next w3 = next w2 ∧
        calls w3 = calls w2 ∧
        (∀ l', l' ≠ l → reqs w3 !! l' = reqs w2 !! l') ∧
        (∀ st', reqs w3 !! l = Some st' → m_self_ptr st' = false ∧ m_ready st' = true) ∧
        (∀ st2, reqs w2 !! l = Some st2 → 1 < m_refs st2 → is_Some (reqs w3 !! l)).
Proof.
  intros HI Hl Hs Hcall HI2 Hk.
  destruct (invoke_cb_ok _ _ _ _ _ Hl Hcall HI2) as (st2 & Hl2 & Hs2 & Hp2 & Hinv & HI3).
  destruct (Hk (end_callback l st2 w2)) as (b & Ek & Eb).
  assert (base_inv exec (set_backend b (end_callback l st2 w2))) as HI4
    by by rewrite same_requests_backend.
  destruct (drop_finished_ok exec _ l (set_ready true st2) HI4)
    as (w3 & Hd & HI5 & H1 & H2 & H3 & H4 & Hc & H5 & H6 & H7); [apply lookup_insert_eq|done|].
  exists w3. unfold with_self_ref. rewrite (bnd_ret _ _ _ _ _ (release_self_ref_run _ _ _ Hl Hs)).
  erewrite scoped_ret by (by rewrite (bnd_ret _ _ _ _ _ Hinv)).
  rewrite (bnd_ret _ _ _ _ _ Hd). split_and!; try done.
  - exists st2. by rewrite H1, Ek.
  - intros l' Hn. rewrite H5 by done. cbn. by rewrite lookup_insert_ne.
  - intros st' Hst'. rewrite Hl2 in Hst'. injection Hst' as <-. exact H7.
Qed.

Lemma complete_halt l st w h w2 :
  reqs w !! l = Some st → m_self_ptr st = true →
  call (m_cb st) (m_rank st) (m_tag st) (start_callback l st w) = (Halt h, w2) →
  complete l w = (Halt h, w2).
Proof.
  intros Hl Hs Ec. unfold complete, with_self_ref.
  rewrite (bnd_ret _ _ _ _ _ (release_self_ref_run _ _ _ Hl Hs)).
  unfold scoped, invoke_cb. erewrite bnd_ret; [|apply get_req_ok, lookup_insert_eq].
  unfold bnd at 1. cbn. unfold call_cb, bnd at 1. cbn. unfold bnd.
  fold (start_callback l st w). by rewrite Ec.
Qed.

(** What happens after the callback of [l] has returned: its request becomes
    ready and loses a reference. *)
Record finished (l : positive) w w' : Prop := {
  fin_backend : backend w' = backend w;
  fin_invoked : invoked w' = invoked w;
  fin_canceled : canceled w' = canceled w;
  fin_next : next w' = next w;
  fin_calls : calls w' = calls w;
  fin_other l' : l' ≠ l → reqs w' !! l' = reqs w !! l';
  fin_before st : reqs w !! l = Some st → m_self_ptr st = false;
  fin_after st : reqs w' !! l = Some st → m_self_ptr st = false;
  fin_in : l ∈ invoked w
}.

(** Completing a request, given what its callback guarantees: the rule that the
    backends instantiate with their invariants. *)
Lemma complete_wp_base E exec w l st (Q : W → Prop) :
  base_inv exec w → reqs w !! l = Some st → m_self_ptr st = true →
  wp E (call (m_cb st) (m_rank st) (m_tag st)) (λ _ w2, base_inv (l :: exec) w2 ∧ Q w2)
    (start_callback l st w) →
  wp E (complete l) (λ _ w3, ∃ w2, Q w2 ∧ base_inv exec w3 ∧ finished l w2 w3) w.
Proof.
  intros HI Hl Hs Hw. unfold wp in Hw. destruct (call _ _ _ _) as [[[]| |h] w2] eqn:Ec; [|done|].
  2:{ unfold wp. by rewrite (complete_halt _ _ _ _ _ Hl Hs Ec). }
  destruct Hw as [HI2 HQ].
  destruct (complete_then_ok exec w l st w2 (ret tt) HI Hl Hs Ec HI2)
    as (w3 & E3 & HB & (st2 & Eb) & Ei & Ecn & En & Ecl & Ho & Hl3 & _);
    [intros w0; exists (backend w0); by destruct w0|].
  assert (complete l w = (Ret tt, w3)) as E'.
  { rewrite <- E3. apply bnd_ext. intros ? w0. symmetry. apply scoped_ret_unit. }
  apply (wp_from _ _ _ _ _ _ E'). exists w2. split_and!; [done..|].
  destruct (bi_exec _ _ HI2 l) as (stx & Hx & _ & Hsx & Hin); [set_solver|].
  split; try done; [naive_solver|]. by intros st' [? _]%Hl3.
Qed.

(** [e->release_self_ref(); e->set_canceled();] *)
Lemma cancel_self_ok exec w l st :
  base_inv exec w → reqs w !! l = Some st → m_self_ptr st = true →
  ∃ w1 w2 st2, release_self_ref l w = (Ret tt, w1) ∧ set_canceled l w1 = (Ret tt, w2) ∧
        base_inv exec w2 ∧ reqs w2 = <[l := st2]> (reqs w) ∧
        m_self_ptr st2 = false ∧ m_ready st2 = true ∧ m_canceled st2 = true ∧
        backend w2 = backend w ∧ invoked w2 = invoked w ∧ canceled w2 = canceled w ++ [l] ∧
        next w2 = next w ∧ calls w2 = calls w ∧ m_ext st2 = m_ext st.
Proof.
  intros HI Hl Hs. pose proof (set_canceled_ok _ _ _ _ HI Hl Hs) as HI1.
  eexists _, _, _. split; [by apply release_self_ref_run|]. split.
  { unfold set_canceled. erewrite bnd_ret; [|apply get_req_ok, lookup_insert_eq].
    cbn. reflexivity. }
  split; [exact HI1|]. split; [cbn; apply insert_insert_eq|]. done.
Qed.

(** A new request that owns itself joins the store. *)
Lemma base_inv_post exec w w' l st :
  base_inv exec w → l = next w →
  m_ready st = false → m_self_ptr st = true → 0 < m_refs st → m_scheduled st ∈ cells →
  reqs w' = <[l := st]> (reqs w) → next w' = Pos.succ (next w) →
  invoked w' = invoked w → canceled w' = canceled w →
  counters w' = counters (add_counter (m_scheduled st) 1 w) →
  base_inv exec w'.
Proof.
  intros HI -> Hr Hs Hp Hcell Er En Ei Ec Eq.
  assert (reqs w !! next w = None) as Hn.
  { apply eq_None_not_Some. intros Hc%(bi_next _ _ HI). lia. }
  assert (∀ l st', <[next w := st]> (reqs w) !! l = Some st' →
            (l = next w ∧ st' = st) ∨ reqs w !! l = Some st') as Hlk.
  { intros l st'. rewrite lookup_insert. case_decide; naive_solver. }
  assert (∀ l, l ∈ invoked w ++ canceled w → (l < next w)%positive) as Hpast by apply HI.
  split; rewrite ?Er, ?En, ?Ei, ?Ec; try apply HI.
  - intros l [st' [[-> _]|E]%Hlk]; [lia|].
    assert (l < next w)%positive by (apply (bi_next _ _ HI); by eexists). lia.
  - intros l st' [[-> ->]|E]%Hlk; [|by apply HI]. rewrite Hs, decide_False; [lia|].
    intros (st' & E & _)%(bi_exec _ _ HI). congruence.
  - intros l st' [[-> ->]|E]%Hlk; [|by apply (bi_live _ _ HI)]. rewrite Hr. by left.
  - intros l (st' & E & H)%(bi_exec _ _ HI). exists st'.
    rewrite lookup_insert_ne by congruence. done.
  - intros c. transitivity (counter c (add_counter (m_scheduled st) 1 w)).
    { unfold counter. by rewrite Eq. }
    rewrite counter_add. unfold outstanding. rewrite Er, map_count_insert_fresh by done.
    case_decide; subst; rewrite (bi_count _ _ HI).
    + rewrite indicator_true, u64_add_l by done. f_equal. unfold outstanding. lia.
    + rewrite indicator_false by naive_solver. f_equal. unfold outstanding. lia.
  - intros l Hin%Hpast. lia.
  - intros l st' [[-> ->]|E]%Hlk Ht; [|by eapply bi_waiting]. intros Hin%Hpast. lia.
  - intros l Hlt. destruct (decide (l = next w)) as [->|Hne].
    + left. exists st. by rewrite lookup_insert_eq.
    + destruct (bi_total _ _ HI l) as [(st' & E & H)|]; [lia| |by right].
      left. exists st'. by rewrite lookup_insert_ne.
  - intros l st' [[-> ->]|E]%Hlk; [done|by eapply bi_cells].
Qed.

(** [factory.make(...); s->create_self_ref();] *)
Definition post (sched : nat) (rank tag : Z) (cb : CB) (x : X) : M W positive :=
  let! l := make_request sched rank tag cb x in
  create_self_ref l ;;;
  ret l.

Lemma post_ok exec w sched rank tag cb x :
  base_inv exec w → sched ∈ cells →
  ∃ w', post sched rank tag cb x w = (Ret (next w), w') ∧ base_inv exec w' ∧
        backend w' = backend w ∧ invoked w' = invoked w ∧ canceled w' = canceled w ∧
        reqs w !! next w = None ∧ next w' = Pos.succ (next w) ∧ calls w' = calls w ∧
        reqs w' = <[next w := RequestState sched rank tag cb false false true 2 x]> (reqs w).
Proof.
  intros HI Hcell.
  assert (reqs w !! next w = None) as Hn.
  { destruct (reqs w !! next w) eqn:E; [|done].
    assert (next w < next w)%positive by (apply (bi_next _ _ HI); by eexists). lia. }
  eexists. split.
  { unfold post, make_request, create_self_ref, put_req, bnd, gets, modify, ret, get_req.
    cbn. rewrite lookup_insert_eq. cbn. reflexivity. }
  cbn. rewrite insert_insert_eq. split_and!; try done.
  apply (base_inv_post exec w _ (next w) (RequestState sched rank tag cb false false true 2 x));
    try done; cbn; [lia|apply insert_insert_eq].
Qed.

End request.
