(* ===== verification/MpiQueue.v ===== *)
(** * The MPI backend: request queues and communicator

    Model of src/src/mpi/request_queue.hpp, request.hpp, communicator.hpp and
    the parts of context.hpp, ../communicator_base.hpp and ../context_base.hpp
    they use: one communicator with its send and receive queues, and the
    context with the queue of shared receives, driven by one thread (the
    thread-local variables of [shared_request_queue] are plain variables).

    MPI itself is a parameter, the class [Mpi]; a failing call throws, as in a
    build with assertions.  Queue lengths are taken to fit an [int], the type
    in which MPI counts requests. *)
From S2P Require Import Prelude Request.

(** ** MPI *)

(** A handle of [None] is [MPI_REQUEST_NULL].  The first component of a result
    is [None] when the call reports an error.  [MPI_Testsome] yields
    [Some None] when [outcount] is [MPI_UNDEFINED]. *)
Class Mpi : Type := {
  mpi_st : Type;
  MPI_Status : Type;
  MPI_Isend : Z → Z → Z → Z → mpi_st → option nat * mpi_st;
  MPI_Irecv : Z → Z → Z → Z → mpi_st → option nat * mpi_st;
  MPI_Test : option nat → mpi_st → option bool * mpi_st;
  MPI_Testsome : list (option nat) → mpi_st → option (option (list nat)) * mpi_st;
  MPI_Cancel : option nat → mpi_st → option unit * mpi_st;
  MPI_Wait : option nat → mpi_st → option MPI_Status * mpi_st;
  MPI_Test_cancelled : MPI_Status → mpi_st → option bool * mpi_st
}.

(** What MPI documents: [MPI_Testsome] completes active requests, and reports
    [MPI_UNDEFINED] only if no request is active (in which order it reports the
    positions is not documented, and not assumed here); and, MPI's error handler being the default one
    ([MPI_ERRORS_ARE_FATAL]), a call that returns has succeeded. *)
Class MpiLaws `{Mpi} : Prop := {
  testsome_active rs s idx s' i :
    MPI_Testsome rs s = (Some (Some idx), s') → i ∈ idx → ∃ h, rs !! i = Some (Some h);
  testsome_undefined rs s s' :
    MPI_Testsome rs s = (Some None, s') → Forall (λ r, r = None) rs;
  isend_fatal d n p t s : is_Some (MPI_Isend d n p t s).1;
  irecv_fatal d n p t s : is_Some (MPI_Irecv d n p t s).1;
  test_fatal r s : is_Some (MPI_Test r s).1;
  testsome_fatal rs s : is_Some (MPI_Testsome rs s).1;
  cancel_fatal r s : is_Some (MPI_Cancel r s).1;
  wait_fatal r s : is_Some (MPI_Wait r s).1;
  test_cancelled_fatal st s : is_Some (MPI_Test_cancelled st s).1
}.

(** ** State *)

(** The members [request_state] adds to its base; [m_index] is written by
    [enqueue]. *)
Record mpi_ext : Type := MpiExt { m_req : option nat; m_index : nat }.

Record request_queue : Type := RequestQueue {
  m_queue : list positive;
  m_ready_queue : list positive;
  in_progress : bool
}.

Record shared_request_queue : Type := SharedRequestQueue {
  sh_queue : list positive;
  sh_size : Z;
  sh_in_progress : bool
}.

Inductive qid : Type := SendQ | RecvQ.
#[export] Instance qid_eq_dec : EqDecision qid.
Proof. solve_decision. Defined.

Record mpi_backend `{Mpi} : Type := MpiBackend {
  mpi : mpi_st;
  m_send_reqs : request_queue;
  m_recv_reqs : request_queue;
  m_req_queue : shared_request_queue;
  m_recursion_depth : Z;
  ctx_recursion_depth : Z
}.

Section mpi.
Context `{Mpi} {CB : Type}.
Abbreviation W := (world CB mpi_ext mpi_backend).
Abbreviation rstate := (request_state CB mpi_ext).
Implicit Types w : W.

Definition get_q (q : qid) (b : mpi_backend) : request_queue :=
  match q with SendQ => m_send_reqs b | RecvQ => m_recv_reqs b end.
Definition set_q (q : qid) (rq : request_queue) (b : mpi_backend) : mpi_backend :=
  match q with
  | SendQ => MpiBackend _ (mpi b) rq (m_recv_reqs b) (m_req_queue b)
                        (m_recursion_depth b) (ctx_recursion_depth b)
  | RecvQ => MpiBackend _ (mpi b) (m_send_reqs b) rq (m_req_queue b)
                        (m_recursion_depth b) (ctx_recursion_depth b)
  end.
Definition set_mpi (s : mpi_st) (b : mpi_backend) : mpi_backend :=
  MpiBackend _ s (m_send_reqs b) (m_recv_reqs b) (m_req_queue b)
             (m_recursion_depth b) (ctx_recursion_depth b).
Definition set_shared (sq : shared_request_queue) (b : mpi_backend) : mpi_backend :=
  MpiBackend _ (mpi b) (m_send_reqs b) (m_recv_reqs b) sq
             (m_recursion_depth b) (ctx_recursion_depth b).
Definition set_depth (d : Z) (b : mpi_backend) : mpi_backend :=
  MpiBackend _ (mpi b) (m_send_reqs b) (m_recv_reqs b) (m_req_queue b) d
             (ctx_recursion_depth b).
Definition set_ctx_depth (d : Z) (b : mpi_backend) : mpi_backend :=
  MpiBackend _ (mpi b) (m_send_reqs b) (m_recv_reqs b) (m_req_queue b)
             (m_recursion_depth b) d.
Definition upd_backend (f : mpi_backend → mpi_backend) : M W unit :=
  modify (λ w, set_backend (f (backend w)) w).

Definition queue (q : qid) : M W request_queue := gets (λ w, get_q q (backend w)).
Definition put_queue (q : qid) (l : list positive) : M W unit :=
  upd_backend (λ b, set_q q (RequestQueue l (m_ready_queue (get_q q b)) (in_progress (get_q q b))) b).
Definition put_ready (q : qid) (l : list positive) : M W unit :=
  upd_backend (λ b, set_q q (RequestQueue (m_queue (get_q q b)) l (in_progress (get_q q b))) b).
Definition put_in_progress (q : qid) (v : bool) : M W unit :=
  upd_backend (λ b, set_q q (RequestQueue (m_queue (get_q q b)) (m_ready_queue (get_q q b)) v) b).
Definition put_shared (sq : shared_request_queue) : M W unit := upd_backend (set_shared sq).

Definition set_index (i : nat) (st : rstate) : rstate :=
  set_ext (MpiExt (m_req (m_ext st)) i) st.
Definition set_handle (r : option nat) (st : rstate) : rstate :=
  set_ext (MpiExt r (m_index (m_ext st))) st.

(** [OOMPH_CHECK_MPI_RESULT(f(...))] as it is compiled without [NDEBUG]: an error of MPI
    is thrown.  (With [NDEBUG] the macro is the bare call, and the result is not looked at;
    as long as no call fails the two are the same.) *)
Definition check_mpi {A} (f : mpi_st → option A * mpi_st) : M W A := λ w,
  let '(r, s) := f (mpi (backend w)) in
  let w' := set_backend (set_mpi s (backend w)) w in
  match r with
  | Some a => (Ret a, w')
  | None => (Throw (runtime_error "MPI Call failed"), w')
  end.

(** ** [mpi_request] of a queued request *)

(** [e->m_req.is_ready()]: [MPI_Test] nulls the handle of a completed request. *)
Definition req_is_ready (l : positive) : M W bool :=
  let! st := get_req l in
  let! flag := check_mpi (MPI_Test (m_req (m_ext st))) in
  (if flag : bool then let! st := get_req l in put_req l (set_handle None st) else ret tt) ;;;
  ret flag.

(** [e->m_req.cancel()]: [MPI_Wait] nulls the handle. *)
Definition req_cancel (l : positive) : M W bool :=
  let! st := get_req l in
  check_mpi (MPI_Cancel (m_req (m_ext st))) ;;;
  let! status := check_mpi (MPI_Wait (m_req (m_ext st))) in
  put_req l (set_handle None st) ;;;
  check_mpi (MPI_Test_cancelled status).

(** ** [request_queue] *)

Definition enqueue (q : qid) (l : positive) : M W unit :=
  let! rq := queue q in
  let! st := get_req l in
  put_req l (set_index (length (m_queue rq)) st) ;;;
  put_queue q (m_queue rq ++ [l]).

(** The loop [for (i = 0; i < qs; ++i)] of [progress], from iteration [i] with
    [n] iterations to go. *)
Fixpoint compact (q : qid) (indices : list nat) (n i j k : nat) : M W unit :=
  match n with
  | O => ret tt
  | S n =>
      let! rq := queue q in
      match m_queue rq !! i, indices !! k with
      | Some e, Some x =>
          if decide (i = x) then
            put_ready q (m_ready_queue rq ++ [e]) ;;;
            compact q indices n (S i) j (S k)
          else if decide (j < i) then
            let! st := get_req e in
            put_req e (set_index j st) ;;;
            put_queue q (<[j := e]> (m_queue rq)) ;;;
            compact q indices n (S i) (S j) k
          else compact q indices n (S i) (S j) k
      | _, _ => stop undefined_behaviour
      end
  end.

(** [std::transform(m_queue..., e->m_req.m_req)] *)
Fixpoint collect_handles (l : list positive) : M W (list (option nat)) :=
  match l with
  | [] => ret []
  | e :: l =>
      let! st := get_req e in
      let! rs := collect_handles l in
      ret (m_req (m_ext st) :: rs)
  end.

Variable call : CB → Z → Z → M W unit.

Definition progress (q : qid) : M W nat :=
  let! rq := queue q in
  if in_progress rq then ret 0
  else
    put_in_progress q true ;;;
    let qs := length (m_queue rq) in
    if decide (qs = 0) then put_in_progress q false ;;; ret 0
    else
      put_ready q [] ;;;
      let! rs := collect_handles (m_queue rq) in
      let! outcount := check_mpi (MPI_Testsome rs) in
      match outcount with
      | None => stop undefined_behaviour (* indices[MPI_UNDEFINED] = qs *)
      | Some [] => put_in_progress q false ;;; ret 0
      | Some idx =>
          compact q (idx ++ [qs]) qs 0 0 0 ;;;
          let! rq := queue q in
          put_queue q (take (length (m_queue rq) - length (m_ready_queue rq)) (m_queue rq)) ;;;
          let completed := length (m_ready_queue rq) in
          mfor (m_ready_queue rq) (complete call) ;;;
          put_in_progress q false ;;;
          ret completed
      end.

(** The last element takes the place of the canceled one:
    [if (index + 1 < m_queue.size()) { m_queue[index] = m_queue.back();
    m_queue[index]->m_index = index; } m_queue.pop_back();] *)
Definition remove_entry (q : qid) (index : nat) : M W unit :=
  let! rq := queue q in
  (if decide (index + 1 < length (m_queue rq)) then
     match last (m_queue rq) with
     | None => stop undefined_behaviour
     | Some b =>
         put_queue q (<[index := b]> (m_queue rq)) ;;;
         let! st := get_req b in
         put_req b (set_index index st)
     end
   else ret tt) ;;;
  let! rq := queue q in
  put_queue q (take (length (m_queue rq) - 1) (m_queue rq)).

Definition cancel (q : qid) (e : positive) : M W bool :=
  let! st := get_req e in
  let index := m_index (m_ext st) in
  let! rq := queue q in
  match m_queue rq !! index with
  | None => stop undefined_behaviour
  | Some x =>
      let! flag := req_cancel x in
      if flag : bool then
        with_self_ref e (set_canceled e ;;; remove_entry q index ;;; ret true)
      else ret false
  end.

(** ** [shared_request_queue] *)

Definition sh_enqueue (e : positive) : M W unit :=
  let! b := gets backend in
  let sq := m_req_queue b in
  put_shared (SharedRequestQueue (sh_queue sq ++ [e]) (u64 (sh_size sq + 1)) (sh_in_progress sq)).

(** [while (m_queue.pop(e)) ...]: one element is popped per iteration, so the
    length of the queue bounds the number of iterations.  The result is the
    element found and the contents of [m_local_queue]. *)
Fixpoint pop_until_ready (n : nat) (local : list positive) :
    M W (option positive * list positive) :=
  let! b := gets backend in
  let sq := m_req_queue b in
  match sh_queue sq, n with
  | [], _ => ret (None, local)
  | _, O => stop out_of_fuel
  | e :: rest, S n =>
      put_shared (SharedRequestQueue rest (sh_size sq) (sh_in_progress sq)) ;;;
      let! r := req_is_ready e in
      if r : bool then ret (Some e, local) else pop_until_ready n (local ++ [e])
  end.

Definition sh_push (e : positive) : M W unit :=
  let! b := gets backend in
  let sq := m_req_queue b in
  put_shared (SharedRequestQueue (sh_queue sq ++ [e]) (sh_size sq) (sh_in_progress sq)).
Definition sh_set_in_progress (v : bool) : M W unit :=
  let! b := gets backend in
  let sq := m_req_queue b in
  put_shared (SharedRequestQueue (sh_queue sq) (sh_size sq) v).
Definition sh_dec_size : M W unit :=
  let! b := gets backend in
  let sq := m_req_queue b in
  put_shared (SharedRequestQueue (sh_queue sq) (u64 (sh_size sq - 1)) (sh_in_progress sq)).

Definition sh_progress : M W nat :=
  let! b := gets backend in
  if sh_in_progress (m_req_queue b) then ret 0
  else
    sh_set_in_progress true ;;;
    let! r := pop_until_ready (length (sh_queue (m_req_queue b))) [] in
    mfor r.2 sh_push ;;;
    (match r.1 with
     | Some e => with_self_ref e (invoke_cb call e ;;; sh_dec_size)
     | None => ret tt
     end) ;;;
    sh_set_in_progress false ;;;
    ret (match r.1 with Some _ => 1 | None => 0 end).

(** The body of [consume_all]: [local] and [canceled] are the captured
    variables. *)
Fixpoint sh_consume (e : positive) (l local : list positive) (canceled : bool) :
    M W (list positive * bool) :=
  match l with
  | [] => ret (local, canceled)
  | x :: l =>
      if decide (e = x) then
        let! flag := req_cancel e in
        if flag : bool then
          with_self_ref e (set_canceled e) ;;;
          sh_consume e l local true
        else sh_consume e l (local ++ [x]) canceled
      else sh_consume e l (local ++ [x]) canceled
  end.

Definition sh_cancel (e : positive) : M W bool :=
  let! b := gets backend in
  let sq := m_req_queue b in
  put_shared (SharedRequestQueue [] (sh_size sq) (sh_in_progress sq)) ;;;
  let! r := sh_consume e (sh_queue sq) [] false in
  mfor r.1 sh_push ;;;
  ret r.2.

(** ** [communicator_impl] *)

(** [OOMPH_RECURSION_DEPTH], a setting of the build. *)
Variable recursion_depth : Z.

Definition has_reached_recursion_depth w : bool :=
  bool_decide (recursion_depth < m_recursion_depth (backend w))%Z.
Definition ctx_has_reached_recursion_depth w : bool :=
  bool_decide (recursion_depth < ctx_recursion_depth (backend w))%Z.

(** The two operations of [increment_guard]. *)
Definition add_depth (d : Z) : M W unit :=
  upd_backend (λ b, set_depth (u64 (m_recursion_depth b + d)) b).
Definition add_ctx_depth (d : Z) : M W unit :=
  upd_backend (λ b, set_ctx_depth (u64 (ctx_recursion_depth b + d)) b).

(** [!has_reached_recursion_depth() && req.is_ready()] on the local request. *)
Definition test_unless (reached : W → bool) (r : nat) : M W bool :=
  let! d := gets reached in
  if d then ret false else check_mpi (MPI_Test (Some r)).

(** The result is the request the caller gets; [None] is the empty request of
    an operation that has completed. *)
Definition send (data size dst tag : Z) (cb : CB) : M W (option positive) :=
  let! r := check_mpi (MPI_Isend data size dst tag) in
  let! now := test_unless has_reached_recursion_depth r in
  if now : bool then
    add_depth 1 ;;; scoped (call_cb call cb dst tag) (add_depth (-1)) ;;; ret None
  else
    let! s := post scheduled_sends dst tag cb (MpiExt (Some r) 0) in
    enqueue SendQ s ;;; ret (Some s).

Definition recv (data size src tag : Z) (cb : CB) : M W (option positive) :=
  let! r := check_mpi (MPI_Irecv data size src tag) in
  let! now := test_unless has_reached_recursion_depth r in
  if now : bool then
    add_depth 1 ;;; scoped (call_cb call cb src tag) (add_depth (-1)) ;;; ret None
  else
    let! s := post scheduled_recvs src tag cb (MpiExt (Some r) 0) in
    enqueue RecvQ s ;;; ret (Some s).

Definition shared_recv (data size src tag : Z) (cb : CB) : M W (option positive) :=
  let! r := check_mpi (MPI_Irecv data size src tag) in
  let! now := test_unless ctx_has_reached_recursion_depth r in
  if now : bool then
    add_ctx_depth 1 ;;; scoped (call_cb call cb src tag) (add_ctx_depth (-1)) ;;; ret None
  else
    let! s := post scheduled_shared_recvs src tag cb (MpiExt (Some r) 0) in
    sh_enqueue s ;;; ret (Some s).

Definition comm_progress : M W unit :=
  progress SendQ ;;; progress RecvQ ;;; sh_progress ;;; ret tt.

Definition cancel_recv (e : positive) : M W bool := cancel RecvQ e.

End mpi.
