(* ===== verification/MpiCompact.v ===== *)
(** * The compaction loop of [request_queue::progress]

    The loop moves the requests that [MPI_Testsome] reported to the ready
    queue and closes the gaps in place.  It is compared with the reference
    definitions [picked] and [kept], which partition a list by position. *)
From S2P Require Import Prelude Request MpiQueue.

(** The elements of [l] whose position, counted from [i], is in [idx]. *)
Fixpoint picked {A} (idx : list nat) (i : nat) (l : list A) : list A :=
  match l with
  | [] => []
  | x :: l => (if decide (i ∈ idx) then [x] else []) ++ picked idx (S i) l
  end.

(** The others. *)
Fixpoint kept {A} (idx : list nat) (i : nat) (l : list A) : list A :=
  match l with
  | [] => []
  | x :: l => (if decide (i ∈ idx) then [] else [x]) ++ kept idx (S i) l
  end.

Section partition.
Context {A : Type}.
Implicit Types l : list A.

Lemma picked_snoc idx i l x :
  picked idx i (l ++ [x]) = picked idx i l ++ if decide (i + length l ∈ idx) then [x] else [].
Proof.
  revert i. induction l as [|y l IH]; intros i; cbn.
  - by rewrite Nat.add_0_r, app_nil_r.
  - rewrite IH, <- app_assoc. by replace (S i + length l) with (i + S (length l)) by lia.
Qed.

Lemma kept_snoc idx i l x :
  kept idx i (l ++ [x]) = kept idx i l ++ if decide (i + length l ∈ idx) then [] else [x].
Proof.
  revert i. induction l as [|y l IH]; intros i; cbn.
  - by rewrite Nat.add_0_r, app_nil_r.
  - rewrite IH, <- app_assoc. by replace (S i + length l) with (i + S (length l)) by lia.
Qed.

Lemma elem_of_picked idx i l x :
  x ∈ picked idx i l ↔ ∃ j, l !! j = Some x ∧ i + j ∈ idx.
Proof.
  revert i. induction l as [|y l IH]; intros i; cbn.
  { split; [set_solver|]. by intros (j & ? & _). }
  rewrite elem_of_app, IH. split.
  - case_decide; intros [Hx|(j & Hj & Hi)]; [|by exists (S j); rewrite Nat.add_succ_r|set_solver|
      by exists (S j); rewrite Nat.add_succ_r].
    apply list_elem_of_singleton in Hx as ->. exists 0. by rewrite Nat.add_0_r.
  - intros ([|j] & Hj & Hi); cbn in Hj.
    + rewrite Nat.add_0_r in Hi. rewrite decide_True by done. injection Hj as ->. set_solver.
    + right. exists j. by rewrite Nat.add_succ_l, <- Nat.add_succ_r.
Qed.

Lemma elem_of_kept idx i l x :
  x ∈ l → x ∈ picked idx i l ∨ x ∈ kept idx i l.
Proof.
  revert i. induction l as [|y l IH]; intros i; cbn; [set_solver|].
  rewrite elem_of_cons, !elem_of_app. intros [->|Hx]; [case_decide; set_solver|].
  destruct (IH (S i) Hx); auto.
Qed.

Lemma picked_kept_perm idx i l : picked idx i l ++ kept idx i l ≡ₚ l.
Proof.
  revert i. induction l as [|x l IH]; intros i; cbn; [done|].
  case_decide; cbn; rewrite <- ?Permutation_middle; by rewrite IH.
Qed.

Lemma picked_kept_length idx i l : length (picked idx i l) + length (kept idx i l) = length l.
Proof. by rewrite <- length_app, picked_kept_perm. Qed.

Lemma picked_nil i l : picked [] i l = [].
Proof.
  revert i. induction l as [|x l IH]; intros i; cbn; [done|].
  rewrite decide_False by set_solver. apply IH.
Qed.

Lemma kept_subseteq idx i l : kept idx i l ⊆ l.
Proof. intros x. rewrite <- (picked_kept_perm idx i l) at 2. set_solver. Qed.
End partition.

(** Completed positions split at the current one: [a] is behind, [b] ahead. *)
Lemma next_index (a b : list nat) i len :
  i < len → Forall (λ x, x < i) a → StronglySorted lt b → Forall (λ x, i ≤ x) b →
  ∃ x, ((a ++ b) ++ [len]) !! length a = Some x ∧
    if decide (i = x)
    then i ∈ a ++ b ∧ ∃ b', b = i :: b' ∧ Forall (λ x, S i ≤ x) b'
    else (i ∉ a ++ b) ∧ Forall (λ x, S i ≤ x) b.
Proof.
  intros Hi Ha Hs Hb. rewrite <- app_assoc, lookup_app_r, Nat.sub_diag by done.
  assert (i ∉ a) as Hna. { intros Hin. rewrite Forall_forall in Ha. apply Ha in Hin. lia. }
  destruct b as [|x b]; cbn.
  - exists len. split; [done|]. rewrite decide_False by lia. rewrite app_nil_r. auto.
  - exists x. split; [done|]. inversion_clear Hs as [|?? Hs' Hlt]. inversion_clear Hb as [|?? Hx Hb'].
    case_decide; subst.
    + split; [set_solver|]. exists b. split; [done|]. eapply Forall_impl; [exact Hlt|]. cbn. lia.
    + assert (Forall (λ y, S i ≤ y) (x :: b)) as Hall.
      { constructor; [lia|]. eapply Forall_impl; [exact Hlt|]. cbn. lia. }
      split; [|done]. rewrite elem_of_app. intros [?|Hin]; [done|].
      rewrite Forall_forall in Hall. apply Hall in Hin. lia.
Qed.

(** The longest prefix of [idx] that increases from [i] and stays below [len]: what the
    loop finds of the positions that were reported. *)
Fixpoint increasing (i len : nat) (idx : list nat) : list nat :=
  match idx with
  | [] => []
  | x :: idx => if decide (i ≤ x < len) then x :: increasing (S x) len idx else []
  end.

Lemma increasing_sorted i len idx :
  StronglySorted lt (increasing i len idx) ∧ Forall (λ x, i ≤ x) (increasing i len idx).
Proof.
  revert i. induction idx as [|x idx IH]; intros i; cbn; [by split; constructor|].
  case_decide; [|by split; constructor]. destruct (IH (S x)) as [H1 H2]. split; constructor; [done|done|lia|].
  eapply Forall_impl; [exact H2|]. cbn. lia.
Qed.

Lemma increasing_id i len idx :
  StronglySorted lt idx → Forall (λ x, i ≤ x) idx → Forall (λ x, x < len) idx → increasing i len idx = idx.
Proof.
  revert i. induction idx as [|x idx IH]; intros i Hs Hi Hl; [done|]. cbn.
  apply StronglySorted_inv in Hs as [Hs Hx]. rewrite !Forall_cons in Hi, Hl. destruct Hi as [Hi _], Hl as [Hl Hls].
  rewrite decide_True by lia. f_equal. by apply IH.
Qed.

Section compact.
Context `{Mpi} {CB : Type}.
Abbreviation W := (world CB mpi_ext mpi_backend).
Abbreviation rstate := (request_state CB mpi_ext).
Implicit Types w : W.

Lemma set_index_same (st : rstate) : set_index (m_index (m_ext st)) st = st.
Proof. by destruct st as [? ? ? ? ? ? ? ? []]. Qed.

(** A state that differs from [w] in one queue and in the request states. *)
Definition with_queue (q : qid) (rq : request_queue) (m : gmap positive rstate) w : W :=
  set_backend (set_q q rq (backend w)) (set_reqs (λ _, m) w).

Lemma get_set_q q rq b : get_q q (set_q q rq b) = rq.
Proof. by destruct q. Qed.
Lemma set_set_q q rq rq' b : set_q q rq (set_q q rq' b) = set_q q rq b.
Proof. by destruct q. Qed.
Lemma set_get_q q b : set_q q (get_q q b) b = b.
Proof. by destruct q, b. Qed.

Lemma set_q_shared q rq b : m_req_queue (set_q q rq b) = m_req_queue b.
Proof. by destruct q. Qed.
Lemma set_q_depth q rq b : m_recursion_depth (set_q q rq b) = m_recursion_depth b.
Proof. by destruct q. Qed.
Lemma set_q_ctx_depth q rq b : ctx_recursion_depth (set_q q rq b) = ctx_recursion_depth b.
Proof. by destruct q. Qed.
Lemma set_q_mpi q rq b : mpi (set_q q rq b) = mpi b.
Proof. by destruct q. Qed.
Lemma get_set_q_ne q q' rq b : q' ≠ q → get_q q' (set_q q rq b) = get_q q' b.
Proof. by destruct q, q'. Qed.

Lemma queue_with_queue q rq m w : queue q (with_queue q rq m w) = (Ret rq, with_queue q rq m w).
Proof. unfold queue, gets. cbn. by rewrite get_set_q. Qed.
Lemma put_queue_with_queue q l Q R ip m w :
  put_queue q l (with_queue q (RequestQueue Q R ip) m w) =
    (Ret tt, with_queue q (RequestQueue l R ip) m w).
Proof. unfold put_queue, upd_backend, modify, with_queue. cbn. by rewrite get_set_q, set_set_q. Qed.
Lemma put_ready_with_queue q l Q R ip m w :
  put_ready q l (with_queue q (RequestQueue Q R ip) m w) =
    (Ret tt, with_queue q (RequestQueue Q l ip) m w).
Proof. unfold put_ready, upd_backend, modify, with_queue. cbn. by rewrite get_set_q, set_set_q. Qed.
Lemma put_in_progress_with_queue q v Q R ip m w :
  put_in_progress q v (with_queue q (RequestQueue Q R ip) m w) =
    (Ret tt, with_queue q (RequestQueue Q R v) m w).
Proof.
  unfold put_in_progress, upd_backend, modify, with_queue. cbn. by rewrite get_set_q, set_set_q.
Qed.

Lemma put_req_with_queue q rq m e st w :
  put_req e st (with_queue q rq m w) = (Ret tt, with_queue q rq (<[e := st]> m) w).
Proof. done. Qed.

(** The index of every kept request is its new position; nothing else
    changes. *)
Definition reindexed (K : list positive) (m0 m : gmap positive rstate) : Prop :=
  (∀ p l, K !! p = Some l → ∃ st, m0 !! l = Some st ∧ m !! l = Some (set_index p st)) ∧
  (∀ l, l ∉ K → m !! l = m0 !! l).

Lemma reindexed_snoc K m0 m e st :
  reindexed K m0 m → e ∉ K → m0 !! e = Some st →
  reindexed (K ++ [e]) m0 (<[e := set_index (length K) st]> m).
Proof.
  intros [HK Ho] Hne He. split.
  - intros p l [Hp|[-> <-]]%lookup_snoc_Some.
    + destruct Hp as [_ Hp].
      assert (l ≠ e) by (intros ->; apply Hne; by eapply list_elem_of_lookup_2).
      rewrite lookup_insert_ne by done. by apply HK.
    + exists st. by rewrite lookup_insert_eq.
  - intros l Hl. rewrite lookup_insert_ne by set_solver. apply Ho. set_solver.
Qed.

(** One iteration, on a completed and on a pending request. *)
Lemma compact_pick q indices n i j k Q R ip m w e :
  Q !! i = Some e → indices !! k = Some i →
  compact q indices (S n) i j k (with_queue q (RequestQueue Q R ip) m w) =
  compact q indices n (S i) j (S k) (with_queue q (RequestQueue Q (R ++ [e]) ip) m w).
Proof.
  intros He Hx. cbn [compact]. rewrite (bnd_ret _ _ _ _ _ (queue_with_queue _ _ _ _)).
  cbn [m_queue m_ready_queue]. rewrite He, Hx, decide_True by done.
  by rewrite (bnd_ret _ _ _ _ _ (put_ready_with_queue _ _ _ _ _ _ _)).
Qed.

Lemma compact_keep q indices n i k K D R ip m w e st x :
  (K ++ D) !! i = Some e → length K ≤ i → indices !! k = Some x → i ≠ x →
  m !! e = Some st → (length K = i → m_index (m_ext st) = i) →
  compact q indices (S n) i (length K) k (with_queue q (RequestQueue (K ++ D) R ip) m w) =
  compact q indices n (S i) (S (length K)) k
    (with_queue q (RequestQueue (K ++ e :: drop 1 D) R ip) (<[e := set_index (length K) st]> m) w).
Proof.
  intros He HK Hx Hne Hst Hi. cbn [compact].
  rewrite (bnd_ret _ _ _ _ _ (queue_with_queue _ _ _ _)).
  cbn [m_queue m_ready_queue]. rewrite He, Hx, decide_False by done.
  rewrite lookup_app_r in He by done.
  destruct D as [|y D]; [done|]. case_decide.
  - erewrite bnd_ret by (apply get_req_ok; exact Hst).
    rewrite (bnd_ret _ _ _ _ _ (put_req_with_queue _ _ _ _ _ _)).
    rewrite (bnd_ret _ _ _ _ _ (put_queue_with_queue _ _ _ _ _ _ _)).
    by rewrite insert_app_r_alt, Nat.sub_diag by done.
  - replace (i - length K) with 0 in He by lia. injection He as ->.
    rewrite insert_id; [done|]. rewrite Hst. f_equal.
    rewrite <- (set_index_same st) at 1. f_equal. rewrite Hi; lia.
Qed.

(** The loop looks at an increasing prefix of the reported positions only. *)
Lemma compact_increasing q len n i j a b w :
  i + n ≤ len →
  compact q ((a ++ b) ++ [len]) n i j (length a) w =
  compact q ((a ++ increasing i len b) ++ [len]) n i j (length a) w.
Proof.
  revert i j a b w. induction n as [|n IH]; intros i j a b w Hn; [done|]. cbn [compact].
  assert (∀ c : list nat, ((a ++ c) ++ [len]) !! length a = Some (default len (head c))) as Hlk.
  { intros c. rewrite <- app_assoc, lookup_app_r, Nat.sub_diag by done. by destruct c. }
  apply bnd_ext. intros rq w1. rewrite !Hlk. destruct (m_queue rq !! i) as [e|]; [|done].
  assert (increasing i len b = b ∧ b = [] ∨ (∃ x b', b = x :: b' ∧ i ≤ x < len ∧
    increasing i len b = x :: increasing (S x) len b') ∨
    ∃ x b', b = x :: b' ∧ increasing i len b = [] ∧ x ≠ i ∧ increasing (S i) len b = []) as Hb.
  { destruct b as [|x b']; [by left|right]. cbn. case_decide as Hx; [left; by exists x, b'|right].
    exists x, b'. rewrite decide_False by lia. split_and!; [done..|lia|done]. }
  destruct Hb as [[-> ->]|[(x & b' & -> & Hx & ->)|(x & b' & -> & E1 & Hx & E2)]]; cbn [head default from_option id]; [done|..].
  - destruct (decide (i = x)) as [->|Hne].
    + apply bnd_ext. intros _ w2. pose proof (IH (S x) j (a ++ [x]) b' w2 ltac:(lia)) as IHx.
      rewrite length_app, Nat.add_1_r, <- !app_assoc in IHx. cbn in IHx. by rewrite <- !app_assoc.
    + assert (∀ j w, compact q ((a ++ x :: b') ++ [len]) n (S i) j (length a) w =
        compact q ((a ++ x :: increasing (S x) len b') ++ [len]) n (S i) j (length a) w) as Hgo.
      { intros j' w'. rewrite (IH (S i) j' a (x :: b')) by lia. cbn. by rewrite decide_True by lia. }
      case_decide; [|done]. by do 3 (apply bnd_ext; intros ? ?).
  - rewrite E1. cbn [head default from_option id]. rewrite (decide_False (P := i = x)), (decide_False (P := i = len)) by (done || lia).
    assert (∀ j w, compact q ((a ++ x :: b') ++ [len]) n (S i) j (length a) w =
      compact q ((a ++ []) ++ [len]) n (S i) j (length a) w) as Hgo by (intros j' w'; rewrite IH by lia; by rewrite E2).
    case_decide; [|done]. by do 3 (apply bnd_ext; intros ? ?).
Qed.

Section loop.
Context (q : qid) (w0 : W) (orig : list positive) (ip : bool) (idx : list nat).
Hypothesis Hnd : NoDup orig.
Hypothesis Hindex : ∀ i l, orig !! i = Some l →
  ∃ st, reqs w0 !! l = Some st ∧ m_index (m_ext st) = i.

(** The loop from its [i]-th iteration, whose state is determined by [i] up to
    the new indices in the request states. *)
Lemma compact_loop n i m a b :
  i + n = length orig → idx = a ++ b →
  Forall (λ x, x < i) a → StronglySorted lt b → Forall (λ x, i ≤ x) b →
  length a = length (picked idx 0 (take i orig)) →
  reindexed (kept idx 0 (take i orig)) (reqs w0) m →
  let K := kept idx 0 (take i orig) in
  let R := picked idx 0 (take i orig) in
  ∃ m', compact q (idx ++ [length orig]) n i (length K) (length R)
          (with_queue q (RequestQueue (K ++ drop (length K) orig) R ip) m w0) =
        (Ret tt, with_queue q (RequestQueue
           (kept idx 0 orig ++ drop (length (kept idx 0 orig)) orig) (picked idx 0 orig) ip) m' w0) ∧
        reindexed (kept idx 0 orig) (reqs w0) m'.
Proof.
  revert i m a b. induction n as [|n IH]; intros i m a b Hn Hidx Ha Hsb Hb Hla HR K R.
  { exists m. unfold K, R. rewrite !take_ge in * by lia. done. }
  destruct (lookup_lt_is_Some_2 orig i) as [e He]; [lia|].
  assert (length (take i orig) = i) as Hti by (rewrite length_take; lia).
  assert (length K ≤ i) as HKi.
  { pose proof (picked_kept_length idx 0 (take i orig)). unfold K. lia. }
  pose proof (take_S_r _ _ _ He) as HSi.
  assert ((K ++ drop (length K) orig) !! i = Some e) as HQ.
  { rewrite lookup_app_r, lookup_drop by done. by rewrite Nat.add_comm, Nat.sub_add. }
  destruct (next_index a b i (length orig)) as (x & Hx & Hcase); [lia|done..|].
  rewrite <- Hidx, Hla in Hx. fold R in Hx.
  pose proof (picked_snoc idx 0 (take i orig) e) as EP.
  pose proof (kept_snoc idx 0 (take i orig) e) as EK.
  rewrite <- HSi, Hti in EP, EK. cbn [Nat.add] in EP, EK.
  destruct (decide (i = x)) as [->|Hne]; rewrite <- Hidx in Hcase.
  - destruct Hcase as (Hin & b' & -> & Hb'). rewrite decide_True in EP, EK by done.
    rewrite app_nil_r in EK. rewrite (compact_pick _ _ _ _ _ _ _ _ _ _ _ e) by done.
    destruct (IH (S x) m (a ++ [x]) b') as (m' & E & HR'); try done.
    + lia.
    + by rewrite <- app_assoc.
    + rewrite Forall_app. split; [|by constructor; [lia|]]. eapply Forall_impl; [done|]. cbn. lia.
    + by inversion Hsb.
    + rewrite EP, !length_app. cbn. unfold R in *. lia.
    + by rewrite EK.
    + exists m'. split; [|done]. rewrite EP, EK, length_app in E. fold K R in E.
      cbn [length] in E. by rewrite Nat.add_1_r in E.
  - destruct Hcase as (Hnin & Hb'). rewrite decide_False in EP, EK by done.
    rewrite app_nil_r in EP.
    assert (e ∉ K) as HeK by (intros Hin%kept_subseteq; by eapply (NoDup_not_elem_take orig)).
    destruct (Hindex i e He) as (st & Hst & Hsti).
    assert (m !! e = Some st) as Hme by (rewrite (proj2 HR e HeK); done).
    rewrite (compact_keep _ _ _ _ _ _ _ _ _ _ _ e st x) by done.
    destruct (IH (S i) (<[e := set_index (length K) st]> m) a b) as (m' & E & HR');
      [lia|done|eapply Forall_impl; [done|]; cbn; lia|done..|by rewrite EP| |].
    { rewrite EK. by apply reindexed_snoc. }
    exists m'. split; [|done]. rewrite EP, EK, length_app, <- app_assoc in E. fold K R in E.
    cbn [length] in E. rewrite Nat.add_1_r in E. by rewrite drop_drop, Nat.add_1_r.
Qed.

End loop.

Lemma compact_ok q w orig idx :
  NoDup orig →
  (∀ i l, orig !! i = Some l → ∃ st, reqs w !! l = Some st ∧ m_index (m_ext st) = i) →
  StronglySorted lt idx →
  m_queue (get_q q (backend w)) = orig → m_ready_queue (get_q q (backend w)) = [] →
  ∃ m' Q,
    compact q (idx ++ [length orig]) (length orig) 0 0 0 w =
      (Ret tt, with_queue q (RequestQueue Q (picked idx 0 orig)
                               (in_progress (get_q q (backend w)))) m' w) ∧
    take (length Q - length (picked idx 0 orig)) Q = kept idx 0 orig ∧
    reindexed (kept idx 0 orig) (reqs w) m'.
Proof.
  intros Hnd Hindex Hs EQ ER.
  destruct (compact_loop q w orig (in_progress (get_q q (backend w))) idx Hnd Hindex
              (length orig) 0 (reqs w) [] idx) as (m' & E & HR); try done.
  { apply Forall_forall. lia. }
  exists m', (kept idx 0 orig ++ drop (length (kept idx 0 orig)) orig). split_and!; [|..|done].
  - rewrite <- E. f_equal. destruct w as [? ? ? ? ? ? b]. unfold with_queue. cbn in *.
    f_equal. rewrite drop_0. destruct q, b as [? [] []]; cbn in *; by subst.
  - pose proof (picked_kept_length idx 0 orig). rewrite take_app_le, take_ge; [done|..].
    + rewrite length_app, length_drop. lia.
    + rewrite length_app, length_drop. lia.
Qed.

End compact.
