(* ===== verification/MpiInv.v ===== *)
(** * The invariant of the MPI backend

    Every request that waits for completion is in exactly one queue, at the
    position its [m_index] says, and owns itself; callbacks run between two
    states of this kind.  The lemmas of this file show that the operations of
    MpiQueue.v keep the invariant, return, and leave the flags and counters a
    caller depends on as they were. *)
From S2P Require Import Prelude Request MpiQueue MpiCompact.

Section inv.
Context `{Mpi} {CB : Type}.
Abbreviation W := (world CB mpi_ext mpi_backend).
Abbreviation rstate := (request_state CB mpi_ext).
Implicit Types w : W.
Context {recursion_depth : Z}.

(** Requests in a queue, and all that wait for completion: [pend] lists those
    a running [progress] has taken out of the queues. *)
Definition queued w : list positive :=
  m_queue (m_send_reqs (backend w)) ++ m_queue (m_recv_reqs (backend w)) ++
  sh_queue (m_req_queue (backend w)).

Record inv (exec pend : list positive) w : Prop := {
  inv_base : base_inv exec w;
  inv_nodup : NoDup (pend ++ queued w);
  inv_self l : l ∈ pend ++ queued w ↔ ∃ st, reqs w !! l = Some st ∧ m_self_ptr st = true;
  inv_index q i l : m_queue (get_q q (backend w)) !! i = Some l →
    ∃ st, reqs w !! l = Some st ∧ m_index (m_ext st) = i;
  inv_handle l st : l ∈ queued w → reqs w !! l = Some st → is_Some (m_req (m_ext st));
  inv_depth : (0 ≤ m_recursion_depth (backend w) ≤ recursion_depth + 1)%Z;
  inv_ctx_depth : (0 ≤ ctx_recursion_depth (backend w) ≤ recursion_depth + 1)%Z
}.

(** What an operation leaves as it was, or only extends. *)
Record stable w w' : Prop := {
  st_flag q : in_progress (get_q q (backend w')) = in_progress (get_q q (backend w));
  st_ready q : in_progress (get_q q (backend w)) = true →
    m_ready_queue (get_q q (backend w')) = m_ready_queue (get_q q (backend w));
  st_waiting q l : in_progress (get_q q (backend w)) = true →
    l ∈ m_queue (get_q q (backend w)) → l ∈ m_queue (get_q q (backend w')) ∨ l ∈ canceled w';
  st_shared : sh_in_progress (m_req_queue (backend w')) = sh_in_progress (m_req_queue (backend w));
  st_depth : m_recursion_depth (backend w') = m_recursion_depth (backend w);
  st_ctx_depth : ctx_recursion_depth (backend w') = ctx_recursion_depth (backend w);
  st_next : (next w ≤ next w')%positive;
  st_invoked : invoked w `prefix_of` invoked w';
  st_canceled : canceled w `prefix_of` canceled w';
  st_calls : calls w `prefix_of` calls w'
}.

#[export] Instance stable_preorder : PreOrder stable.
Proof.
  split.
  - intros w. split; done || lia || by left.
  - intros w1 w2 w3 H1 H2. split.
    + intros q. by rewrite (st_flag _ _ H2), (st_flag _ _ H1).
    + intros q E. rewrite (st_ready _ _ H2), (st_ready _ _ H1); [done..|].
      by rewrite (st_flag _ _ H1).
    + intros q l Ef Hl. destruct (st_waiting _ _ H1 q l Ef Hl) as [Hl'|Hc].
      * apply (st_waiting _ _ H2 q l); [|done]. by rewrite (st_flag _ _ H1).
      * right. by eapply elem_of_prefix; [|apply H2].
    + by rewrite (st_shared _ _ H2), (st_shared _ _ H1).
    + by rewrite (st_depth _ _ H2), (st_depth _ _ H1).
    + by rewrite (st_ctx_depth _ _ H2), (st_ctx_depth _ _ H1).
    + etrans; [apply H1|apply H2].
    + etrans; [apply H1|apply H2].
    + etrans; [apply H1|apply H2].
    + etrans; [apply H1|apply H2].
Qed.

(** ** Generic steps *)

Lemma queued_eq w w' :
  (∀ q, m_queue (get_q q (backend w')) = m_queue (get_q q (backend w))) →
  sh_queue (m_req_queue (backend w')) = sh_queue (m_req_queue (backend w)) →
  queued w' = queued w.
Proof.
  intros EQ ES. pose proof (EQ SendQ). pose proof (EQ RecvQ). unfold queued. cbn in *. congruence.
Qed.

Lemma elem_of_queued q i l w : m_queue (get_q q (backend w)) !! i = Some l → l ∈ queued w.
Proof. intros Hi%list_elem_of_lookup_2. destruct q; unfold queued; set_solver. Qed.

(** The requests change only in the members of the backend, the queues are
    rearranged. *)
Lemma inv_rearrange exec pend pend' w w' :
  inv exec pend w → same_requests w w' →
  pend' ++ queued w' ≡ₚ pend ++ queued w →
  (∀ q i l, m_queue (get_q q (backend w')) !! i = Some l →
     ∃ st, reqs w' !! l = Some st ∧ m_index (m_ext st) = i) →
  (∀ l st, l ∈ queued w' → reqs w' !! l = Some st → is_Some (m_req (m_ext st))) →
  m_recursion_depth (backend w') = m_recursion_depth (backend w) →
  ctx_recursion_depth (backend w') = ctx_recursion_depth (backend w) →
  inv exec pend' w'.
Proof.
  intros HI HS HP Hi Hh E1 E2. split; try done.
  - rewrite <- HS. apply HI.
  - rewrite HP. apply HI.
  - intros l. rewrite HP, (inv_self _ _ _ HI). split; intros (st & Hl & Hs).
    + destruct (same_requests_lookup _ _ _ _ HS Hl) as (st' & ? & E%strip_eq). naive_solver.
    + symmetry in HS.
      destruct (same_requests_lookup _ _ _ _ HS Hl) as (st' & ? & E%strip_eq). naive_solver.
  - rewrite E1. apply HI.
  - rewrite E2. apply HI.
Qed.

(** Only parts of the backend change that the invariant does not mention. *)
Lemma inv_backend exec pend w b :
  inv exec pend w →
  (∀ q, m_queue (get_q q b) = m_queue (get_q q (backend w))) →
  sh_queue (m_req_queue b) = sh_queue (m_req_queue (backend w)) →
  m_recursion_depth b = m_recursion_depth (backend w) →
  ctx_recursion_depth b = ctx_recursion_depth (backend w) →
  inv exec pend (set_backend b w).
Proof.
  intros HI EQ ES E1 E2.
  assert (queued (set_backend b w) = queued w) as Eq.
  { by apply queued_eq. }
  apply (inv_rearrange exec pend pend w); try done.
  - by rewrite Eq.
  - intros q i l. cbn. rewrite EQ. apply HI.
  - rewrite Eq. apply HI.
Qed.

(** A pending request starts its callback. *)
Lemma inv_start exec pend w l st :
  inv exec (l :: pend) w → reqs w !! l = Some st →
  inv (l :: exec) pend (start_callback l st w).
Proof.
  intros HI Hl.
  pose proof (inv_nodup _ _ _ HI) as [Hne Hnd]%NoDup_cons.
  assert (m_self_ptr st = true) as Hs.
  { destruct (proj1 (inv_self _ _ _ HI l)) as (st' & ? & ?); [set_solver|congruence]. }
  assert (∀ l', l' ≠ l → reqs (start_callback l st w) !! l' = reqs w !! l') as Ho.
  { intros l' Hn. cbn. by rewrite lookup_insert_ne. }
  assert (reqs (start_callback l st w) !! l = Some (set_self false (m_refs st) st)) as Hn.
  { cbn. by rewrite lookup_insert_eq. }
  split; try apply HI.
  - apply start_callback_ok; [apply HI|done..].
  - done.
  - intros l'. destruct (decide (l' = l)) as [->|Hn'].
    + rewrite Hn. split; [done|]. naive_solver.
    + rewrite Ho by done. rewrite <- (inv_self _ _ _ HI). set_solver.
  - intros q i l' Hi. destruct (inv_index _ _ _ HI q i l' Hi) as (st' & Hl' & E).
    rewrite Ho; [by exists st'|]. intros ->. apply Hne, elem_of_app. right. by eapply elem_of_queued.
  - intros l' st' Hq. rewrite Ho; [by apply HI|]. intros ->. apply Hne. set_solver.
Qed.

(** The request of the innermost callback is finished. *)
Lemma inv_finish exec pend l w w' :
  inv (l :: exec) pend w → base_inv exec w' → 
  (∀ q, m_queue (get_q q (backend w')) = m_queue (get_q q (backend w))) →
  sh_queue (m_req_queue (backend w')) = sh_queue (m_req_queue (backend w)) →
  m_recursion_depth (backend w') = m_recursion_depth (backend w) →
  ctx_recursion_depth (backend w') = ctx_recursion_depth (backend w) →
  (∀ l', l' ≠ l → reqs w' !! l' = reqs w !! l') →
  (∀ st', reqs w' !! l = Some st' → m_self_ptr st' = false) →
  inv exec pend w'.
Proof.
  intros HI HB EQ ES E1 E2 Ho Hl.
  assert (queued w' = queued w) as Eq.
  { by apply queued_eq. }
  assert (l ∉ pend ++ queued w) as Hnq.
  { rewrite (inv_self _ _ _ HI). intros (st & Hst & Hs).
    destruct (bi_exec _ _ (inv_base _ _ _ HI) l) as (st' & ? & ? & ? & ?); [set_solver|congruence]. }
  split; rewrite ?Eq, ?E1, ?E2; try apply HI; [done|..].
  - intros l'. destruct (decide (l' = l)) as [->|Hn].
    + split; [done|]. intros (st & Hst & Hs). apply Hl in Hst. congruence.
    + rewrite Ho by done. apply HI.
  - intros q i l'. rewrite EQ. intros Hi. rewrite Ho; [by eapply inv_index|].
    intros ->. apply Hnq, elem_of_app. right. by eapply elem_of_queued.
  - intros l' st' Hq. rewrite Ho; [by apply HI|]. intros ->. apply Hnq. set_solver.
Qed.

(** A change of the backend that keeps all that callers depend on. *)
Definition keeps (b b' : mpi_backend) : Prop :=
  (∀ q, get_q q b' = get_q q b) ∧
  sh_queue (m_req_queue b') = sh_queue (m_req_queue b) ∧
  sh_in_progress (m_req_queue b') = sh_in_progress (m_req_queue b) ∧
  m_recursion_depth b' = m_recursion_depth b ∧
  ctx_recursion_depth b' = ctx_recursion_depth b.

Lemma inv_keeps exec pend w b :
  inv exec pend w → keeps (backend w) b → inv exec pend (set_backend b w).
Proof. intros HI (E & ? & ? & ? & ?). apply inv_backend; try done. intros q. by rewrite E. Qed.

Lemma stable_keeps w w' :
  keeps (backend w) (backend w') → (next w ≤ next w')%positive →
  invoked w `prefix_of` invoked w' → canceled w `prefix_of` canceled w' →
  calls w `prefix_of` calls w' → stable w w'.
Proof.
  intros (E & ? & ? & ? & ?) ????. split; try done; intros q; rewrite E; try done. intros l _ ?. by left.
Qed.

(** ** Calls of MPI *)

Lemma check_mpi_ok {A} (f : mpi_st → option A * mpi_st) w :
  is_Some (f (mpi (backend w))).1 →
  ∃ a s, f (mpi (backend w)) = (Some a, s) ∧
    check_mpi f w = (Ret a, set_backend (set_mpi s (backend w)) w).
Proof.
  unfold check_mpi. destruct (f _) as [r s]. cbn. intros [a ->]. by exists a, s.
Qed.

Lemma keeps_set_mpi s b : keeps b (set_mpi s b).
Proof. by split_and!; try intros []. Qed.

Lemma check_mpi_inv {A} exec pend (f : mpi_st → option A * mpi_st) w :
  inv exec pend w → (∀ s, is_Some (f s).1) →
  ∃ a s, check_mpi f w = (Ret a, set_backend (set_mpi s (backend w)) w) ∧
    inv exec pend (set_backend (set_mpi s (backend w)) w) ∧
    stable w (set_backend (set_mpi s (backend w)) w) ∧ f (mpi (backend w)) = (Some a, s).
Proof.
  intros HI Hf. destruct (check_mpi_ok f w (Hf _)) as (a & s & Ef & E).
  exists a, s. split_and!; [done|..|done].
  - apply inv_keeps; [done|apply keeps_set_mpi].
  - apply stable_keeps; [apply keeps_set_mpi|done..].
Qed.

(** The handle of a request. *)
Definition handle w (l : positive) : option nat :=
  match reqs w !! l with Some st => m_req (m_ext st) | None => None end.

Lemma handle_self exec pend w l :
  inv exec pend w → l ∈ pend ++ queued w → ∃ st, reqs w !! l = Some st ∧ m_self_ptr st = true.
Proof. intros HI Hl. by apply (inv_self _ _ _ HI). Qed.

Lemma queued_handle exec pend w l : inv exec pend w → l ∈ queued w → is_Some (handle w l).
Proof.
  intros HI Hq. destruct (handle_self _ _ _ l HI) as (st & Hl & _); [set_solver|].
  unfold handle. rewrite Hl. by apply (inv_handle _ _ _ HI l).
Qed.

(** ** One queue *)

Lemma with_queue_id q w : with_queue q (get_q q (backend w)) (reqs w) w = w.
Proof. unfold with_queue. rewrite set_get_q. by destruct w. Qed.
Lemma with_with_queue q rq m rq' m' w :
  with_queue q rq m (with_queue q rq' m' w) = with_queue q rq m w.
Proof. unfold with_queue, set_backend, set_reqs. cbn. by rewrite set_set_q. Qed.
Lemma set_mpi_with_queue q rq m w s :
  set_backend (set_mpi s (backend (with_queue q rq m w))) (with_queue q rq m w) =
  with_queue q rq m (set_backend (set_mpi s (backend w)) w).
Proof. by destruct q. Qed.

Lemma reindexed_lookup (K : list positive) (m0 m : gmap positive rstate) l :
  reindexed K m0 m →
  m !! l = m0 !! l ∨ ∃ p st, m0 !! l = Some st ∧ m !! l = Some (set_index p st).
Proof.
  intros [HK Ho]. destruct (decide (l ∈ K)) as [[p Hp]%list_elem_of_lookup_1|Hn].
  - right. destruct (HK p l Hp) as (st & ? & ?). eauto.
  - left. by apply Ho.
Qed.

(** The state after the compaction and the [erase]. *)
Lemma inv_compacted exec pend w q idx m s R ip :
  inv exec pend w → 
  let Q := m_queue (get_q q (backend w)) in
  reindexed (kept idx 0 Q) (reqs w) m →
  inv exec (picked idx 0 Q ++ pend)
    (with_queue q (RequestQueue (kept idx 0 Q) R ip) m (set_backend (set_mpi s (backend w)) w)).
Proof.
  intros HI Q HR. set (w' := with_queue _ _ _ _).
  assert (picked idx 0 Q ++ pend ++ queued w' ≡ₚ pend ++ queued w) as HP.
  { unfold queued, w', Q. destruct q; cbn.
    - rewrite <- (picked_kept_perm idx 0 (m_queue (m_send_reqs (backend w)))) at 3. solve_Permutation.
    - rewrite <- (picked_kept_perm idx 0 (m_queue (m_recv_reqs (backend w)))) at 3. solve_Permutation. }
  assert (∀ l st, reqs w' !! l = Some st → ∃ st0, reqs w !! l = Some st0 ∧
            (st = st0 ∨ ∃ p, st = set_index p st0)) as Hst.
  { intros l st Hl. cbn in Hl. destruct (reindexed_lookup _ _ _ l HR) as [E|(p & st0 & E & E')].
    - exists st. rewrite <- E. auto.
    - exists st0. split; [done|]. right. exists p. congruence. }
  apply (inv_rearrange exec pend _ w); [done|split; try done|by rewrite <- app_assoc|..].
  - intros l. cbn. destruct (reindexed_lookup _ _ _ l HR) as [->|(p & st0 & -> & ->)]; done.
  - intros q' i l Hi. destruct (decide (q' = q)) as [->|Hne].
    + cbn in Hi. rewrite get_set_q in Hi. destruct (proj1 HR i l Hi) as (st & _ & E). by eexists.
    + assert (m_queue (get_q q' (backend w)) !! i = Some l) as Hi' by (destruct q, q'; done).
      destruct (inv_index _ _ _ HI q' i l Hi') as (st & Hl & E).
      exists st. split; [|done]. cbn. rewrite (proj2 HR l); [done|].
      intros Hin%kept_subseteq. pose proof (inv_nodup _ _ _ HI) as Hnd.
      apply NoDup_app in Hnd as (_ & _ & Hnd). apply list_elem_of_lookup_2 in Hi'.
      unfold queued in Hnd. apply NoDup_app in Hnd as (_ & Hd & _).
      destruct q, q'; try done; cbn in *; set_solver.
  - intros l st Hl Hr. destruct (Hst l st Hr) as (st0 & Hl0 & Hc).
    assert (l ∈ queued w) as Hq.
    { unfold queued, w', Q in Hl |- *. pose proof (kept_subseteq idx 0 (m_queue (get_q q (backend w)))).
      destruct q; cbn in *; set_solver. }
    pose proof (inv_handle _ _ _ HI l st0 Hq Hl0) as Hh. destruct Hc as [->|[p ->]]; done.
  - by destruct q.
  - by destruct q.
Qed.

(** [in_progress = false] at the end of [progress]. *)
Lemma stable_bracket q rq m w w0 w' :
  in_progress (get_q q (backend w)) = false → in_progress rq = true →
  keeps (backend w) (backend w0) → next w0 = next w → invoked w0 = invoked w →
  canceled w0 = canceled w → calls w0 = calls w →
  stable (with_queue q rq m w0) w' → stable w (put_in_progress q false w').2.
Proof.
  intros Hf Hr (EQ & Eq & Es & Ed & Ec) En Ei Ex El HS.
  assert (∀ q', q' ≠ q → get_q q' (backend (with_queue q rq m w0)) = get_q q' (backend w)) as Ho.
  { intros q' Hn. rewrite <- EQ. by apply get_set_q_ne. }
  destruct HS as [H1 H2 Hwait H3 H4 H5 H6 H7 H8 H9]. cbn in H3, H4, H5, H6, H7, H8, H9.
  rewrite set_q_shared in H3. rewrite set_q_depth in H4. rewrite set_q_ctx_depth in H5.
  split; cbn; rewrite ?set_q_shared, ?set_q_depth, ?set_q_ctx_depth.
  - intros q'. destruct (decide (q' = q)) as [->|Hn]; [by rewrite get_set_q|].
    by rewrite get_set_q_ne, H1, Ho.
  - intros q' E. destruct (decide (q' = q)) as [->|Hn]; [congruence|].
    rewrite get_set_q_ne, H2, Ho by (rewrite ?Ho; done). done.
  - intros q' l E Hl. destruct (decide (q' = q)) as [->|Hn]; [congruence|].
    rewrite get_set_q_ne by done. apply (Hwait q'); by rewrite Ho.
  - congruence.
  - congruence.
  - congruence.
  - by rewrite <- En.
  - by rewrite <- Ei.
  - by rewrite <- Ex.
  - by rewrite <- El.
Qed.

Lemma inv_put_q exec pend q rq w :
  inv exec pend w → m_queue rq = m_queue (get_q q (backend w)) →
  inv exec pend (with_queue q rq (reqs w) w).
Proof.
  intros HI Eq. destruct w as [? ? ? ? ? ? b]. unfold with_queue. cbn.
  apply (inv_backend exec pend _ _ HI); cbn;
    rewrite ?set_q_shared, ?set_q_depth, ?set_q_ctx_depth; try done.
  intros q'. destruct (decide (q' = q)) as [->|Hn]; [by rewrite get_set_q|by rewrite get_set_q_ne].
Qed.

Lemma stable_put_q q rq m w :
  in_progress (get_q q (backend w)) = false → in_progress rq = false →
  stable w (with_queue q rq m w).
Proof.
  intros Ef Er. split; cbn; rewrite ?set_q_shared, ?set_q_depth, ?set_q_ctx_depth; try done.
  - intros q'. destruct (decide (q' = q)) as [->|Hn]; [rewrite get_set_q; congruence|].
    by rewrite get_set_q_ne.
  - intros q' Et. destruct (decide (q' = q)) as [->|Hn]; [congruence|]. by rewrite get_set_q_ne.
  - intros q' l Et Hl. destruct (decide (q' = q)) as [->|Hn]; [congruence|]. rewrite get_set_q_ne by done. by left.
Qed.

Lemma put_in_progress_any q v w :
  put_in_progress q v w = (Ret tt, with_queue q
    (RequestQueue (m_queue (get_q q (backend w))) (m_ready_queue (get_q q (backend w))) v) (reqs w) w).
Proof. by destruct w. Qed.

Lemma collect_handles_ok L w :
  (∀ l, l ∈ L → is_Some (reqs w !! l)) → collect_handles L w = (Ret (handle w <$> L), w).
Proof.
  induction L as [|l L IH]; intros HL; cbn [collect_handles]; [done|].
  destruct (HL l) as [st Hl]; [set_solver|].
  rewrite (bnd_ret _ _ _ _ _ (get_req_ok _ _ _ Hl)).
  rewrite (bnd_ret _ _ _ _ _ (IH ltac:(set_solver))). unfold ret. cbn.
  unfold handle at 2. by rewrite Hl.
Qed.

Lemma queue_nodup exec pend w q : inv exec pend w → NoDup (m_queue (get_q q (backend w))).
Proof.
  intros HI. pose proof (inv_nodup _ _ _ HI) as (_ & _ & Hn)%NoDup_app. unfold queued in Hn.
  apply NoDup_app in Hn as (H1 & _ & (H2 & _ & _)%NoDup_app). by destruct q.
Qed.

Lemma queues_disjoint exec pend w q q' l :
  inv exec pend w → q ≠ q' → l ∈ m_queue (get_q q (backend w)) → l ∉ m_queue (get_q q' (backend w)).
Proof.
  intros HI Hn Hl Hl'. pose proof (inv_nodup _ _ _ HI) as (_ & _ & Hd)%NoDup_app. unfold queued in Hd.
  apply NoDup_app in Hd as (_ & Hd & _). destruct q, q'; try done; cbn in *; set_solver.
Qed.

(** ** Posting *)

(** A new request joins a queue. *)
Lemma inv_join exec pend w w' l st :
  inv exec pend w → base_inv exec w' →
  reqs w !! l = None → reqs w' = <[l := st]> (reqs w) →
  m_self_ptr st = true → is_Some (m_req (m_ext st)) →
  queued w' ≡ₚ l :: queued w →
  (∀ q i l', m_queue (get_q q (backend w')) !! i = Some l' →
     (l' = l ∧ m_index (m_ext st) = i) ∨ m_queue (get_q q (backend w)) !! i = Some l') →
  m_recursion_depth (backend w') = m_recursion_depth (backend w) →
  ctx_recursion_depth (backend w') = ctx_recursion_depth (backend w) →
  inv exec pend w'.
Proof.
  intros HI HB Hn Er Hs Hh HP Hi E1 E2.
  assert (l ∉ pend ++ queued w) as Hnq. { rewrite (inv_self _ _ _ HI). naive_solver. }
  assert (pend ++ queued w' ≡ₚ l :: pend ++ queued w) as HP' by (rewrite HP; solve_Permutation).
  split; rewrite ?Er, ?E1, ?E2; try apply HI; [done|..].
  - rewrite HP'. constructor; [done|apply HI].
  - intros l'. rewrite HP', elem_of_cons, (inv_self _ _ _ HI), lookup_insert.
    case_decide; subst; naive_solver.
  - intros q i l' [[-> ?]|Hq]%Hi.
    + exists st. by rewrite lookup_insert_eq.
    + rewrite lookup_insert_ne; [by eapply inv_index|].
      intros <-. apply Hnq, elem_of_app. right. by eapply elem_of_queued.
  - intros l' st'. rewrite HP, elem_of_cons, lookup_insert. case_decide; [naive_solver|].
    intros [?|Hq]; [congruence|]. by apply HI.
Qed.

Lemma stable_post w w' :
  (∀ q, in_progress (get_q q (backend w')) = in_progress (get_q q (backend w)) ∧
        m_ready_queue (get_q q (backend w')) = m_ready_queue (get_q q (backend w)) ∧
        m_queue (get_q q (backend w)) ⊆ m_queue (get_q q (backend w'))) →
  sh_in_progress (m_req_queue (backend w')) = sh_in_progress (m_req_queue (backend w)) →
  m_recursion_depth (backend w') = m_recursion_depth (backend w) →
  ctx_recursion_depth (backend w') = ctx_recursion_depth (backend w) →
  (next w ≤ next w')%positive → invoked w' = invoked w → canceled w' = canceled w →
  calls w' = calls w → stable w w'.
Proof.
  intros Hq ????  Ei Ec El. split; try done.
  - apply Hq.
  - intros q _. apply Hq.
  - intros q l _ Hl. left. by apply Hq.
  - by rewrite Ei.
  - by rewrite Ec.
  - by rewrite El.
Qed.

(** The result of posting: a new request at the end of a queue. *)
Definition posted w w' (r : option positive) : Prop :=
  r = Some (next w) ∧ reqs w !! next w = None ∧ is_Some (reqs w' !! next w) ∧
  next w' = Pos.succ (next w) ∧ next w ∈ queued w' ∧
  invoked w' = invoked w ∧ canceled w' = canceled w ∧ calls w' = calls w.

Lemma post_enqueue_inv exec pend w q sched rank tag cb r :
  inv exec pend w → sched ∈ cells →
  ∃ w', (let! s := post sched rank tag cb (MpiExt (Some r) 0) in enqueue q s ;;; ret (Some s)) w =
          (Ret (Some (next w)), w') ∧
        inv exec pend w' ∧ stable w w' ∧ posted w w' (Some (next w)).
Proof.
  intros HI Hcell.
  destruct (post_ok exec w sched rank tag cb (MpiExt (Some r) 0)) as
    (w1 & E1 & HB & Eb & Ei & Ec & Hn & En & El & Er); [apply HI|done|].
  rewrite (bnd_ret _ _ _ _ _ E1).
  set (n := length (m_queue (get_q q (backend w)))).
  set (st := RequestState sched rank tag cb false false true 2 (MpiExt (Some r) n)).
  set (b' := set_q q (RequestQueue (m_queue (get_q q (backend w)) ++ [next w])
                (m_ready_queue (get_q q (backend w))) (in_progress (get_q q (backend w)))) (backend w)).
  assert (enqueue q (next w) w1 = (Ret tt, set_backend b' (set_reqs (insert (next w) st) w1))) as Ee.
  { unfold enqueue, queue, bnd, gets, get_req, put_req, modify, put_queue, upd_backend.
    rewrite Er, lookup_insert_eq. unfold modify. cbn. by rewrite Eb. }
  rewrite (bnd_ret _ _ _ _ _ Ee). eexists. split; [reflexivity|].
  assert (queued (set_backend b' (set_reqs (insert (next w) st) w1)) ≡ₚ next w :: queued w) as HP.
  { unfold queued, b'. destruct q; cbn; solve_Permutation. }
  split_and!.
  - apply (inv_join exec pend w _ (next w) st); try done.
    + rewrite same_requests_backend. 
      pose proof (base_inv_refs exec w1 (next w) (RequestState sched rank tag cb false false true 2
        (MpiExt (Some r) 0)) 2 (MpiExt (Some r) n) HB) as Hb.
      apply Hb; [by rewrite Er, lookup_insert_eq| |lia]. cbn. case_decide; lia.
    + cbn. by rewrite Er, insert_insert_eq.
    + intros q' i l'. cbn. unfold b'. destruct (decide (q' = q)) as [->|Hne].
      * rewrite get_set_q. cbn. intros [[? ?]|[-> <-]]%lookup_snoc_Some; auto.
      * rewrite get_set_q_ne by done. auto.
    + cbn; unfold b'. by rewrite set_q_depth.
    + cbn; unfold b'. by rewrite set_q_ctx_depth.
  - apply stable_post; cbn; unfold b'; rewrite ?set_q_shared, ?set_q_depth, ?set_q_ctx_depth, ?En;
      try done; [|lia].
    intros q'. destruct (decide (q' = q)) as [->|Hne]; [rewrite get_set_q|by rewrite get_set_q_ne].
    split_and!; [done..|cbn; set_solver].
  - repeat split; cbn; [done|by rewrite lookup_insert_eq|done| |done..]. rewrite HP. set_solver.
Qed.

Lemma sh_post_enqueue_inv exec pend w sched rank tag cb r :
  inv exec pend w → sched ∈ cells →
  ∃ w', (let! s := post sched rank tag cb (MpiExt (Some r) 0) in sh_enqueue s ;;; ret (Some s)) w =
          (Ret (Some (next w)), w') ∧
        inv exec pend w' ∧ stable w w' ∧ posted w w' (Some (next w)).
Proof.
  intros HI Hcell.
  destruct (post_ok exec w sched rank tag cb (MpiExt (Some r) 0)) as
    (w1 & E1 & HB & Eb & Ei & Ec & Hn & En & El & Er); [apply HI|done|].
  rewrite (bnd_ret _ _ _ _ _ E1).
  unfold sh_enqueue, put_shared, upd_backend, modify, gets, bnd. cbn.
  eexists. split; [reflexivity|]. rewrite Eb.
  set (w' := set_backend _ _).
  assert (queued w' ≡ₚ next w :: queued w) as HP by (unfold queued; cbn; solve_Permutation).
  split_and!.
  - eapply (inv_join exec pend w w' (next w)); try done.
    + unfold w'. by rewrite same_requests_backend.
    + intros q i l'. destruct q; auto.
  - apply stable_post; cbn; try done. rewrite En; lia.
  - repeat split; cbn; [done|by rewrite Er, lookup_insert_eq|done| |done..]. rewrite HP. set_solver.
Qed.

(** ** The queue of shared receives *)

#[export] Instance inv_permutation : Proper (eq ==> (≡ₚ) ==> eq ==> iff) inv.
Proof.
  assert (∀ e p p' w, p ≡ₚ p' → inv e p w → inv e p' w) as Hperm.
  { intros e p p' w HP HI. split; try apply HI; rewrite <- ?HP; [apply HI|]. intros l. rewrite <- HP. apply HI. }
  intros e ? <- p p' HP w ? <-. split; apply Hperm; by try symmetry.
Qed.

Definition with_shared (l : list positive) (n : Z) (v : bool) w : W :=
  set_backend (set_shared (SharedRequestQueue l n v) (backend w)) w.

Lemma stable_with_shared l n v w :
  v = sh_in_progress (m_req_queue (backend w)) → stable w (with_shared l n v w).
Proof. intros ->. split; done || (intros []; done || by left). Qed.

(** The queue of shared receives is rearranged. *)
Lemma inv_with_shared exec pend pend' w l n v :
  inv exec pend w → pend' ++ l ≡ₚ pend ++ sh_queue (m_req_queue (backend w)) →
  (∀ x, x ∈ l → is_Some (handle w x)) →
  inv exec pend' (with_shared l n v w).
Proof.
  intros HI HP Hh. apply (inv_rearrange exec pend pend' w); try done.
  - unfold queued. cbn. set (A := m_queue (m_send_reqs _)). set (B := m_queue (m_recv_reqs _)).
    trans (A ++ B ++ pend' ++ l); [solve_Permutation|]. rewrite HP. solve_Permutation.
  - intros q i x. apply (inv_index _ _ _ HI q).
  - intros x st Hx Hl. cbn in Hl. unfold queued in Hx. cbn in Hx.
    rewrite !elem_of_app in Hx. destruct Hx as [Hx|[Hx|Hx]].
    + apply (inv_handle _ _ _ HI x); [|done]. unfold queued. set_solver.
    + apply (inv_handle _ _ _ HI x); [|done]. unfold queued. set_solver.
    + apply Hh in Hx. unfold handle in Hx. by rewrite Hl in Hx.
Qed.

Lemma inv_set_handle exec pend e st h w :
  inv exec pend w → e ∈ pend → reqs w !! e = Some st →
  inv exec pend (set_reqs (insert e (set_handle h st)) w).
Proof.
  intros HI Hin He. pose proof (inv_nodup _ _ _ HI) as (_ & Hd & _)%NoDup_app.
  apply (inv_rearrange exec pend pend w); try done.
  - split; try done. intros l. cbn. rewrite lookup_insert. case_decide; subst; [|done].
    by rewrite He.
  - intros q i l Hi. cbn. rewrite lookup_insert_ne; [by eapply inv_index|].
    intros <-. apply (Hd e Hin). by eapply elem_of_queued.
  - intros l st' Hq. cbn. rewrite lookup_insert_ne; [by apply HI|].
    intros <-. by apply (Hd e Hin).
Qed.

(** [for (auto x : m_local_queue) m_queue.push(x);] *)
Lemma sh_push_all_run L w :
  let sq := m_req_queue (backend w) in
  mfor L sh_push w = (Ret tt, with_shared (sh_queue sq ++ L) (sh_size sq) (sh_in_progress sq) w).
Proof.
  revert w. induction L as [|e L IH]; intros w sq; cbn [mfor].
  { rewrite app_nil_r. by destruct w as [? ? ? ? ? ? [? ? ? [] ? ?]]. }
  assert (sh_push e w = (Ret tt, with_shared (sh_queue sq ++ [e]) (sh_size sq) (sh_in_progress sq) w))
    as E by done.
  rewrite (bnd_ret _ _ _ _ _ E), IH. cbn. by rewrite <- app_assoc.
Qed.

Lemma sh_push_all_inv exec pend L w :
  inv exec (L ++ pend) w → (∀ l, l ∈ L → is_Some (handle w l)) →
  ∃ w', mfor L sh_push w = (Ret tt, w') ∧ inv exec pend w' ∧ stable w w' ∧
    canceled w' = canceled w ∧ invoked w' = invoked w.
Proof.
  intros HI HL. rewrite sh_push_all_run. eexists. split; [reflexivity|]. split_and!; try done.
  - apply (inv_with_shared exec (L ++ pend)); [done|solve_Permutation|].
    intros x. rewrite elem_of_app. intros [Hx|Hx]; [|by apply HL].
    apply (queued_handle _ _ _ _ HI). unfold queued. set_solver.
  - by apply stable_with_shared.
Qed.

Lemma stable_sh_bracket w v w' :
  let sq := m_req_queue (backend w) in
  sh_in_progress sq = false →
  stable (with_shared (sh_queue sq) (sh_size sq) v w) w' →
  stable w (with_shared (sh_queue (m_req_queue (backend w'))) (sh_size (m_req_queue (backend w')))
              false w').
Proof.
  intros sq Hf [H1 H2 H3 H4 H5 H6 H7 H8 H9]. cbn in *.
  split; done.
Qed.

End inv.
Arguments inv {_ _} recursion_depth exec pend w.
