(* ===== verification/MpiOps.v ===== *)
(** * The operations of the MPI backend keep its invariant

    Posting and progress, for callbacks that keep it.  [well_behaved] is the
    contract between the library and a user's function object; posting
    operations need it of the callback they are given, progress of all
    callbacks that may be queued. *)
From S2P Require Import Prelude Request MpiQueue MpiCompact MpiInv.

Section ops.
Context `{Mpi} {CB : Type}.
Abbreviation W := (world CB mpi_ext mpi_backend).
Abbreviation rstate := (request_state CB mpi_ext).
Implicit Types w : W.
Context {recursion_depth : Z}.
Abbreviation inv := (inv recursion_depth).
Context `{!MpiLaws}.

(** What is required of a user's function object: called in any state of the
    backend, it returns, and what it does there (post, progress, cancel what
    may be canceled) keeps the invariant. *)
Variable call : CB → Z → Z → M W unit.
Definition well_behaved (cb : CB) : Prop := ∀ r t exec pend w,
  inv exec pend w → ∃ w', call cb r t w = (Ret tt, w') ∧ inv exec pend w' ∧ stable w w'.

(** ** Posting *)

Section posting.
Hypothesis Hrd : (0 ≤ recursion_depth < 2 ^ 64 - 1)%Z.

Lemma inv_depths exec pend w b :
  inv exec pend w → (∀ q, get_q q b = get_q q (backend w)) →
  m_req_queue b = m_req_queue (backend w) →
  (0 ≤ m_recursion_depth b ≤ recursion_depth + 1)%Z →
  (0 ≤ ctx_recursion_depth b ≤ recursion_depth + 1)%Z →
  inv exec pend (set_backend b w).
Proof.
  intros HI Hq Hs H1 H2.
  assert (queued (set_backend b w) = queued w) as Eq.
  { apply queued_eq; cbn; [|by rewrite Hs]. intros q. by rewrite Hq. }
  split; rewrite ?Eq; try done; try apply HI.
  - rewrite same_requests_backend. apply HI.
  - intros q. cbn. rewrite Hq. apply HI.
Qed.

(** What a posting operation did: either the operation completed at once and
    the callback was called, or a new request is in a queue. *)
Definition post_result w w' (cb : CB) (p t : Z) (r : option positive) : Prop :=
  (r = None ∧ (calls w ++ [(cb, p, t)]) `prefix_of` calls w') ∨ posted w w' r.

(** A callback called in place, between the two halves of an
    [increment_guard]. *)
Lemma inline_inv exec pend w cb p t (inc dec : M W unit) b1 :
  well_behaved cb → inc w = (Ret tt, set_backend b1 w) → inv exec pend (set_backend b1 w) →
  (∀ w2, inv exec pend w2 → stable (set_backend b1 w) w2 →
     ∃ b2, dec w2 = (Ret tt, set_backend b2 w2) ∧
       inv exec pend (set_backend b2 w2) ∧ stable w (set_backend b2 w2)) →
  ∃ w', (inc ;;; scoped (call_cb call cb p t) dec ;;; ret (@None positive)) w = (Ret None, w') ∧
        inv exec pend w' ∧ stable w w' ∧ (calls w ++ [(cb, p, t)]) `prefix_of` calls w'.
Proof.
  intros Hcb Einc HI Hdec. set (w1 := log_call cb p t (set_backend b1 w)).
  assert (inv exec pend w1) as HI1.
  { apply (inv_rearrange exec pend pend (set_backend b1 w)); try done; apply HI. }
  destruct (Hcb p t exec pend w1 HI1) as (w2 & Ec & HI2 & HS2).
  destruct (Hdec w2 HI2) as (b2 & Ed & HI3 & HS3).
  { etrans; [|exact HS2]. apply stable_keeps; try done. by eexists. }
  rewrite (bnd_ret _ _ _ _ _ Einc).
  assert (call_cb call cb p t (set_backend b1 w) = (Ret tt, w2)) as Ecc by done.
  eexists. split.
  { erewrite bnd_ret; [reflexivity|]. rewrite (scoped_ret _ _ _ _ _ Ecc).
    rewrite (bnd_ret _ _ _ _ _ Ed). reflexivity. }
  split_and!; [done..|]. apply (st_calls _ _ HS2).
Qed.

(** The two ways of the posting operations from the test on. *)
Lemma inline_depth_inv exec pend w cb p t :
  well_behaved cb → inv exec pend w → has_reached_recursion_depth recursion_depth w = false →
  ∃ w', (add_depth 1 ;;; scoped (call_cb call cb p t) (add_depth (-1)) ;;; ret (@None positive)) w =
          (Ret None, w') ∧
        inv exec pend w' ∧ stable w w' ∧ (calls w ++ [(cb, p, t)]) `prefix_of` calls w'.
Proof.
  intros Hcb HI Hd%bool_decide_eq_false. pose proof (inv_depth _ _ _ HI) as Hr.
  eapply inline_inv; [done|reflexivity|..].
  - apply inv_depths; cbn; try done; [rewrite u64_small; lia|apply HI].
  - intros w2 HI2 HS2. eexists. split; [reflexivity|].
    pose proof (st_depth _ _ HS2) as E. cbn in E.
    split.
    + apply inv_depths; cbn; try done; [by rewrite E, u64_inc_dec by lia|apply HI2].
    + destruct HS2. split; try done. cbn. by rewrite E, u64_inc_dec by lia.
Qed.

Lemma inline_ctx_depth_inv exec pend w cb p t :
  well_behaved cb → inv exec pend w → ctx_has_reached_recursion_depth recursion_depth w = false →
  ∃ w', (add_ctx_depth 1 ;;; scoped (call_cb call cb p t) (add_ctx_depth (-1)) ;;;
           ret (@None positive)) w = (Ret None, w') ∧
        inv exec pend w' ∧ stable w w' ∧ (calls w ++ [(cb, p, t)]) `prefix_of` calls w'.
Proof.
  intros Hcb HI Hd%bool_decide_eq_false. pose proof (inv_ctx_depth _ _ _ HI) as Hr.
  eapply inline_inv; [done|reflexivity|..].
  - apply inv_depths; cbn; try done; [apply HI|rewrite u64_small; lia].
  - intros w2 HI2 HS2. eexists. split; [reflexivity|].
    pose proof (st_ctx_depth _ _ HS2) as E. cbn in E.
    split.
    + apply inv_depths; cbn; try done; [apply HI2|by rewrite E, u64_inc_dec by lia].
    + destruct HS2. split; try done. cbn. by rewrite E, u64_inc_dec by lia.
Qed.

Lemma test_unless_inv exec pend reached r w :
  inv exec pend w →
  ∃ now b, test_unless reached r w = (Ret now, set_backend b w) ∧
    keeps (backend w) b ∧ inv exec pend (set_backend b w) ∧
    (now = true ↔ reached w = false ∧ (MPI_Test (Some r) (mpi (backend w))).1 = Some true).
Proof.
  intros HI. unfold test_unless, bnd at 1, gets at 1. destruct (reached w) eqn:E.
  - exists false, (backend w). split; [by destruct w|]. split; [done|]. split; [by destruct w|naive_solver].
  - destruct (check_mpi_inv exec pend (MPI_Test (Some r)) w HI) as (a & s & Ec & HI' & HS & Ef);
      [apply test_fatal|].
    exists a, (set_mpi s (backend w)). split; [done|]. split; [apply keeps_set_mpi|]. split; [done|].
    rewrite Ef. cbn. naive_solver.
Qed.

(** MPI has completed the operation [issue] by the time it is tested for the
    first time. *)
Definition done_at_once (issue : mpi_st → option nat * mpi_st) w : Prop :=
  ∃ r s, issue (mpi (backend w)) = (Some r, s) ∧ (MPI_Test (Some r) s).1 = Some true.

Lemma done_at_once_iff issue w r s :
  issue (mpi (backend w)) = (Some r, s) → done_at_once issue w ↔ (MPI_Test (Some r) s).1 = Some true.
Proof. intros E. unfold done_at_once. rewrite E. naive_solver. Qed.

Lemma post_result_keeps w b w' cb p t r :
  post_result (set_backend b w) w' cb p t r → post_result w w' cb p t r.
Proof. done. Qed.

(** A posting operation, from the handle MPI returned. *)
Lemma post_from_handle exec pend w reached r cb p t (inline slow : M W (option positive)) :
  inv exec pend w →
  (∀ b, keeps (backend w) b → reached (set_backend b w) = reached w) →
  (∀ w, inv exec pend w → reached w = false →
    ∃ w', inline w = (Ret None, w') ∧ inv exec pend w' ∧ stable w w' ∧
      (calls w ++ [(cb, p, t)]) `prefix_of` calls w') →
  (∀ w, inv exec pend w →
    ∃ w', slow w = (Ret (Some (next w)), w') ∧ inv exec pend w' ∧ stable w w' ∧
      posted w w' (Some (next w))) →
  ∃ o w', (let! now := test_unless reached r in if now : bool then inline else slow) w = (Ret o, w') ∧
    inv exec pend w' ∧ stable w w' ∧ post_result w w' cb p t o ∧
    (o = None ↔ reached w = false ∧ (MPI_Test (Some r) (mpi (backend w))).1 = Some true).
Proof.
  intros HI Hreach Hin Hslow.
  destruct (test_unless_inv exec pend reached r w HI) as (now & b & E & HK & HI1 & Hnow).
  rewrite (bnd_ret _ _ _ _ _ E).
  assert (stable w (set_backend b w)) as HS by by apply stable_keeps.
  destruct now.
  - destruct (Hin (set_backend b w)) as (w' & E' & HI' & HS' & Hc); [done|rewrite Hreach by done; by apply Hnow|].
    exists None, w'. rewrite <- Hnow. split_and!; [done..|by etrans| |done]. by left.
  - destruct (Hslow (set_backend b w)) as (w' & E' & HI' & HS' & Hp); [done|].
    exists (Some (next w)), w'. rewrite <- Hnow. split_and!; [done..|by etrans| |done]. by right.
Qed.

Lemma reached_keeps w b :
  keeps (backend w) b →
  has_reached_recursion_depth recursion_depth (set_backend b w) =
    has_reached_recursion_depth recursion_depth w ∧
  ctx_has_reached_recursion_depth recursion_depth (set_backend b w) =
    ctx_has_reached_recursion_depth recursion_depth w.
Proof.
  intros (_ & _ & _ & E1 & E2).
  unfold has_reached_recursion_depth, ctx_has_reached_recursion_depth. cbn. by rewrite E1, E2.
Qed.

Lemma send_inv exec pend w data size dst tag cb :
  well_behaved cb → inv exec pend w →
  ∃ o w', send call recursion_depth data size dst tag cb w = (Ret o, w') ∧
    inv exec pend w' ∧ stable w w' ∧ post_result w w' cb dst tag o ∧
    (o = None ↔ has_reached_recursion_depth recursion_depth w = false ∧ done_at_once (MPI_Isend data size dst tag) w).
Proof.
  intros Hcb HI. unfold send.
  destruct (check_mpi_inv exec pend (MPI_Isend data size dst tag) w HI) as (r & s & E & HI1 & HS1 & Ef);
    [apply isend_fatal|].
  rewrite (bnd_ret _ _ _ _ _ E).
  destruct (post_from_handle exec pend _ (has_reached_recursion_depth recursion_depth) r cb dst tag _ _
    HI1 (λ b HK, proj1 (reached_keeps _ b HK))
    (λ w HI, inline_depth_inv exec pend w cb dst tag Hcb HI)
    (λ w HI, post_enqueue_inv exec pend w SendQ scheduled_sends dst tag cb r HI ltac:(set_solver)))
    as (o & w' & E' & HI' & HS' & HP & Ho).
  exists o, w'. split_and!; [done..|by etrans|by eapply post_result_keeps|]. by rewrite Ho, (done_at_once_iff _ _ _ _ Ef).
Qed.

Lemma recv_inv exec pend w data size src tag cb :
  well_behaved cb → inv exec pend w →
  ∃ o w', recv call recursion_depth data size src tag cb w = (Ret o, w') ∧
    inv exec pend w' ∧ stable w w' ∧ post_result w w' cb src tag o ∧
    (o = None ↔ has_reached_recursion_depth recursion_depth w = false ∧ done_at_once (MPI_Irecv data size src tag) w).
Proof.
  intros Hcb HI. unfold recv.
  destruct (check_mpi_inv exec pend (MPI_Irecv data size src tag) w HI) as (r & s & E & HI1 & HS1 & Ef);
    [apply irecv_fatal|].
  rewrite (bnd_ret _ _ _ _ _ E).
  destruct (post_from_handle exec pend _ (has_reached_recursion_depth recursion_depth) r cb src tag _ _
    HI1 (λ b HK, proj1 (reached_keeps _ b HK))
    (λ w HI, inline_depth_inv exec pend w cb src tag Hcb HI)
    (λ w HI, post_enqueue_inv exec pend w RecvQ scheduled_recvs src tag cb r HI ltac:(set_solver)))
    as (o & w' & E' & HI' & HS' & HP & Ho).
  exists o, w'. split_and!; [done..|by etrans|by eapply post_result_keeps|]. by rewrite Ho, (done_at_once_iff _ _ _ _ Ef).
Qed.

Lemma shared_recv_inv exec pend w data size src tag cb :
  well_behaved cb → inv exec pend w →
  ∃ o w', shared_recv call recursion_depth data size src tag cb w = (Ret o, w') ∧
    inv exec pend w' ∧ stable w w' ∧ post_result w w' cb src tag o ∧
    (o = None ↔ ctx_has_reached_recursion_depth recursion_depth w = false ∧ done_at_once (MPI_Irecv data size src tag) w).
Proof.
  intros Hcb HI. unfold shared_recv.
  destruct (check_mpi_inv exec pend (MPI_Irecv data size src tag) w HI) as (r & s & E & HI1 & HS1 & Ef);
    [apply irecv_fatal|].
  rewrite (bnd_ret _ _ _ _ _ E).
  destruct (post_from_handle exec pend _ (ctx_has_reached_recursion_depth recursion_depth) r cb src tag
    _ _ HI1 (λ b HK, proj2 (reached_keeps _ b HK))
    (λ w HI, inline_ctx_depth_inv exec pend w cb src tag Hcb HI)
    (λ w HI, sh_post_enqueue_inv exec pend w scheduled_shared_recvs src tag cb r HI ltac:(set_solver)))
    as (o & w' & E' & HI' & HS' & HP & Ho).
  exists o, w'. split_and!; [done..|by etrans|by eapply post_result_keeps|]. by rewrite Ho, (done_at_once_iff _ _ _ _ Ef).
Qed.

End posting.

(** ** The frame of [request_queue::progress] *)

Lemma progress_empty q w R :
  get_q q (backend w) = RequestQueue [] R false → progress call q w = (Ret 0, w).
Proof.
  intros Eq. unfold progress, queue at 1, gets at 1, bnd at 1. rewrite Eq. cbn [in_progress m_queue].
  rewrite (bnd_ret _ _ _ _ _ (put_in_progress_any _ _ _)), Eq, decide_True by done.
  rewrite (bnd_ret _ _ _ _ _ (put_in_progress_with_queue _ _ _ _ _ _ _)).
  cbn [m_queue m_ready_queue]. by rewrite <- Eq, with_queue_id.
Qed.

(** [progress] up to the call of [MPI_Testsome], and after it. *)
Lemma progress_run q w Q R r s :
  get_q q (backend w) = RequestQueue Q R false → Q ≠ [] →
  (∀ l, l ∈ Q → is_Some (reqs w !! l)) →
  MPI_Testsome (handle w <$> Q) (mpi (backend w)) = (r, s) →
  let w0 := set_backend (set_mpi s (backend w)) w in
  let wt := with_queue q (RequestQueue Q [] true) (reqs w) w0 in
  progress call q w =
    match r with
    | None => (Throw (runtime_error "MPI Call failed"), wt)
    | Some None => (Halt undefined_behaviour, wt)
    | Some (Some []) => (Ret 0, with_queue q (RequestQueue Q [] false) (reqs w) w0)
    | Some (Some idx) =>
        (compact q (idx ++ [length Q]) (length Q) 0 0 0 ;;;
         let! rq := queue q in
         put_queue q (take (length (m_queue rq) - length (m_ready_queue rq)) (m_queue rq)) ;;;
         mfor (m_ready_queue rq) (complete call) ;;;
         put_in_progress q false ;;; ret (length (m_ready_queue rq))) wt
    end.
Proof.
  intros Eq Hne HQ Et w0 wt. unfold progress, queue at 1, gets at 1, bnd at 1. rewrite Eq.
  cbn [in_progress m_queue].
  rewrite (bnd_ret _ _ _ _ _ (put_in_progress_any _ _ _)), Eq. cbn [m_queue m_ready_queue].
  rewrite decide_False by (by intros ->%nil_length_inv).
  rewrite (bnd_ret _ _ _ _ _ (put_ready_with_queue _ _ _ _ _ _ _)).
  set (wr := with_queue q _ _ w).
  rewrite (bnd_ret _ _ wr _ _ (collect_handles_ok Q wr HQ)).
  assert (handle wr <$> Q = handle w <$> Q) as -> by done.
  assert (check_mpi (MPI_Testsome (handle w <$> Q)) wr =
    (match r with Some a => Ret a | None => Throw (runtime_error "MPI Call failed") end, wt)) as Ec.
  { unfold check_mpi, wr. cbn. rewrite set_q_mpi, Et. unfold wt, w0. rewrite <- set_mpi_with_queue.
    by destruct r. }
  unfold bnd at 1. rewrite Ec. destruct r as [[[|i idx]|]|]; [|done..]. unfold wt.
  by rewrite (bnd_ret _ _ _ _ _ (put_in_progress_with_queue _ _ _ _ _ _ _)).
Qed.

(** The compaction of an idle queue: what is left is the completion loop, in a
    state of the invariant where the completed requests are pending. *)
Lemma compact_run exec pend q w Q R idx s :
  inv exec pend w → get_q q (backend w) = RequestQueue Q R false →
  let w0 := set_backend (set_mpi s (backend w)) w in
  let hits := increasing 0 (length Q) idx in
  let P := picked hits 0 Q in
  ∃ m, let wc := with_queue q (RequestQueue (kept hits 0 Q) P true) m w0 in
    inv exec (P ++ pend) wc ∧ reindexed (kept hits 0 Q) (reqs w) m ∧
    (compact q (idx ++ [length Q]) (length Q) 0 0 0 ;;;
     let! rq := queue q in
     put_queue q (take (length (m_queue rq) - length (m_ready_queue rq)) (m_queue rq)) ;;;
     mfor (m_ready_queue rq) (complete call) ;;;
     put_in_progress q false ;;; ret (length (m_ready_queue rq)))
      (with_queue q (RequestQueue Q [] true) (reqs w) w0) =
    (mfor P (complete call) ;;; put_in_progress q false ;;; ret (length P)) wc.
Proof.
  intros HI Eq w0 hits P. set (wt := with_queue q _ _ w0).
  assert (get_q q (backend wt) = RequestQueue Q [] true) as Eqt by (cbn; by rewrite get_set_q).
  pose proof (queue_nodup _ _ _ q HI) as Hnd. rewrite Eq in Hnd.
  destruct (compact_ok q wt Q hits) as (m & Q' & E & EQ & HR); [done| |apply increasing_sorted|by rewrite Eqt..|].
  { intros i l Hi. apply (inv_index _ _ _ HI q). by rewrite Eq. }
  exists m. split_and!; [|done|].
  - pose proof (inv_compacted exec pend w q hits m s P true HI) as Hc.
    cbn zeta in Hc. rewrite Eq in Hc. by apply Hc.
  - pose proof (compact_increasing q (length Q) (length Q) 0 0 [] idx wt ltac:(lia)) as Ei. cbn [app length] in Ei.
    unfold bnd at 1. rewrite Ei. fold hits. rewrite E. unfold wt. rewrite with_with_queue. fold wt. rewrite Eqt.
    rewrite (bnd_ret _ _ _ _ _ (queue_with_queue _ _ _ _)). cbn [m_queue m_ready_queue in_progress].
    by rewrite (bnd_ret _ _ _ _ _ (put_queue_with_queue _ _ _ _ _ _ _)), EQ.
Qed.

(** ** The search for a completed shared receive *)

(** [MPI_Test] on a popped request. *)
Lemma req_is_ready_inv exec pend e w :
  inv exec pend w → e ∈ pend →
  ∃ r w', req_is_ready e w = (Ret r, w') ∧ inv exec pend w' ∧ stable w w' ∧
    sh_queue (m_req_queue (backend w')) = sh_queue (m_req_queue (backend w)) ∧
    (∀ l, l ≠ e ∨ r = false → handle w' l = handle w l).
Proof.
  intros HI Hin. destruct (handle_self _ _ _ e HI) as (st & He & _); [set_solver|].
  unfold req_is_ready. rewrite (bnd_ret _ _ _ _ _ (get_req_ok _ _ _ He)).
  destruct (check_mpi_inv exec pend (MPI_Test (m_req (m_ext st))) w HI) as (r & s & E & HI1 & HS1 & _);
    [apply test_fatal|].
  rewrite (bnd_ret _ _ _ _ _ E). set (w1 := set_backend _ w) in *.
  destruct r.
  - exists true, (set_reqs (insert e (set_handle None st)) w1). split.
    { unfold bnd, get_req, put_req, modify, ret. cbn. by rewrite He. }
    split_and!.
    + by apply inv_set_handle.
    + etrans; [exact HS1|]. split; done || (intros []; done || by left).
    + done.
    + intros l [Hl|?]; [|done]. unfold handle. cbn. by rewrite lookup_insert_ne.
  - by exists false, w1.
Qed.

(** The loop that looks for a completed request: it ends with the fuel it is
    given, and the popped requests are in the local queue. *)
Lemma pop_until_ready_inv exec pend n L w :
  length (sh_queue (m_req_queue (backend w))) ≤ n →
  inv exec (L ++ pend) w → (∀ l, l ∈ L → is_Some (handle w l)) →
  ∃ r L' w', pop_until_ready n L w = (Ret (r, L'), w') ∧
    inv exec (option_list r ++ L' ++ pend) w' ∧ stable w w' ∧
    (∀ l, l ∈ L' → is_Some (handle w' l)).
Proof.
  revert L w. induction n as [|n IH]; intros L w Hn HI HL.
  { apply Nat.le_0_r, nil_length_inv in Hn. exists None, L, w. split; [|done].
    cbn. unfold bnd, gets. by rewrite Hn. }
  cbn [pop_until_ready]. unfold bnd at 1, gets at 1.
  destruct (sh_queue (m_req_queue (backend w))) as [|e rest] eqn:Eq.
  { by exists None, L, w. }
  set (sq := m_req_queue (backend w)) in *.
  assert (put_shared (SharedRequestQueue rest (sh_size sq) (sh_in_progress sq)) w =
    (Ret tt, with_shared rest (sh_size sq) (sh_in_progress sq) w)) as E1 by done.
  rewrite (bnd_ret _ _ _ _ _ E1).
  assert (∀ x, x ∈ e :: rest → is_Some (handle w x)) as Hhe.
  { intros x Hx. apply (queued_handle _ _ _ _ HI). unfold queued. fold sq. rewrite Eq. set_solver. }
  assert (inv exec ((L ++ [e]) ++ pend) (with_shared rest (sh_size sq) (sh_in_progress sq) w)) as HI1.
  { apply (inv_with_shared exec (L ++ pend)); [done|fold sq; rewrite Eq; solve_Permutation|].
    intros x Hx. apply Hhe. set_solver. }
  destruct (req_is_ready_inv _ _ e _ HI1) as (r & w2 & E2 & HI2 & HS2 & Eq2 & Hh2); [set_solver|].
  assert (stable w w2) as HS by (etrans; [by apply stable_with_shared|done]).
  assert (e :: L ++ pend ≡ₚ (L ++ [e]) ++ pend) as HLe by solve_Permutation.
  rewrite (bnd_ret _ _ _ _ _ E2). destruct r.
  - exists (Some e), L, w2. split_and!; [done| |done|].
    + cbn. by rewrite HLe.
    + intros l Hl. rewrite Hh2; [by apply HL|]. left. intros ->.
      pose proof (inv_nodup _ _ _ HI1) as Hnd. rewrite <- HLe in Hnd. cbn in Hnd.
      apply NoDup_cons in Hnd as [Hne _]. set_solver.
  - destruct (IH (L ++ [e]) w2) as (r & L' & w' & E & HI' & HS' & HL').
    + rewrite Eq2. cbn in *. lia.
    + done.
    + intros l. rewrite Hh2, elem_of_app, list_elem_of_singleton by auto. intros [?| ->]; [by apply HL|]. apply Hhe. set_solver.
    + exists r, L', w'. split_and!; [done..|by etrans|done].
Qed.

(** ** Completion *)

Section completion.
Hypothesis Hcall : ∀ cb, well_behaved cb.

Lemma complete_then_inv exec pend l w (k : M W unit) :
  inv exec (l :: pend) w →
  (∀ w, ∃ b, k w = (Ret tt, set_backend b w) ∧ keeps (backend w) b) →
  ∃ w', with_self_ref l (invoke_cb call l ;;; k) w = (Ret tt, w') ∧ inv exec pend w' ∧
        stable w w' ∧ (invoked w ++ [l]) `prefix_of` invoked w'.
Proof.
  intros HI Hk. destruct (proj1 (inv_self _ _ _ HI l)) as (st & Hl & Hs); [set_solver|].
  destruct (Hcall (m_cb st) (m_rank st) (m_tag st) _ _ _ (inv_start _ _ _ _ _ HI Hl))
    as (w2 & Ec & HI2 & HS2).
  destruct (complete_then_ok call exec w l st w2 k) as
    (w3 & E & HB & (st2 & Eb) & Ei & Ex & En & El & Ho & Hl3 & _);
    [apply HI|done|done|done|apply HI2|..].
  { intros w0. destruct (Hk w0) as (b & E & _). exists b. by rewrite E. }
  destruct (Hk (end_callback l st2 w2)) as (b & Ek & HK). rewrite Ek in Eb. cbn in Eb, HK.
  rewrite <- Eb in HK.
  exists w3. split_and!; [done|..].
  - destruct HK as (EQ & ? & ? & ? & ?).
    apply (inv_finish exec pend l w2); [done|done|intros q; by rewrite EQ|done..|naive_solver].
  - etrans; [|etrans; [exact HS2|]].
    + split; cbn; try done; auto; by eexists.
    + apply stable_keeps; [done|lia|by rewrite Ei|by rewrite Ex|by rewrite El].
  - rewrite Ei. apply (st_invoked _ _ HS2).
Qed.

Lemma complete_inv exec pend l w :
  inv exec (l :: pend) w →
  ∃ w', complete call l w = (Ret tt, w') ∧ inv exec pend w' ∧
        stable w w' ∧ (invoked w ++ [l]) `prefix_of` invoked w'.
Proof.
  intros HI. destruct (complete_then_inv exec pend l w (ret tt)) as (w' & E & Hw'); [done|..].
  { intros w0. exists (backend w0). split; [by destruct w0|]. done. }
  exists w'. split; [|done]. rewrite <- E. unfold complete, with_self_ref.
  by rewrite (bnd_ext _ _ _ w (λ _, scoped_ret_unit _ _)).
Qed.

(** The completion loop of [progress]. *)
Lemma complete_all_inv exec pend R w :
  inv exec (R ++ pend) w →
  ∃ w', mfor R (complete call) w = (Ret tt, w') ∧ inv exec pend w' ∧ stable w w' ∧
        ∃ new, invoked w' = invoked w ++ new ∧ R `sublist_of` new.
Proof.
  revert w. induction R as [|l R IH]; intros w HI; cbn.
  { exists w. split_and!; try done. exists []. by rewrite app_nil_r. }
  destruct (complete_inv exec (R ++ pend) l w HI) as (w1 & E1 & HI1 & HS1 & [n1 Hn1]).
  destruct (IH w1 HI1) as (w2 & E2 & HI2 & HS2 & n2 & Hn2 & Hsub).
  exists w2. rewrite (bnd_ret _ _ _ _ _ E1). split_and!; [done..|by etrans|].
  exists (l :: n1 ++ n2). split.
  - by rewrite Hn2, Hn1, <- !app_assoc.
  - apply sublist_skip. by apply sublist_inserts_l.
Qed.

(** ** [request_queue::progress] *)

(** What a call of [progress] on an idle queue with completions does. *)
Lemma progress_completes exec pend q w Q R idx s :
  inv exec pend w → get_q q (backend w) = RequestQueue Q R false →
  let w0 := set_backend (set_mpi s (backend w)) w in
  let hits := increasing 0 (length Q) idx in
  ∃ w', (compact q (idx ++ [length Q]) (length Q) 0 0 0 ;;;
         let! rq := queue q in
         put_queue q (take (length (m_queue rq) - length (m_ready_queue rq)) (m_queue rq)) ;;;
         mfor (m_ready_queue rq) (complete call) ;;;
         put_in_progress q false ;;; ret (length (m_ready_queue rq)))
          (with_queue q (RequestQueue Q [] true) (reqs w) w0) = (Ret (length (picked hits 0 Q)), w') ∧
        inv exec pend w' ∧ stable w w' ∧
        (∃ new, invoked w' = invoked w ++ new ∧ picked hits 0 Q `sublist_of` new) ∧
        (∀ l, l ∈ kept hits 0 Q → l ∈ m_queue (get_q q (backend w')) ∨ l ∈ canceled w').
Proof.
  intros HI Eq w0 hits. destruct (compact_run exec pend q w Q R idx s HI Eq) as (m & HIc & _ & Er).
  fold w0 hits in Er, HIc. rewrite Er. set (wc := with_queue q _ _ _) in *.
  destruct (complete_all_inv exec pend (picked hits 0 Q) wc HIc) as (w' & El & HI' & HS & new & Hnew & Hsub).
  rewrite (bnd_ret _ _ _ _ _ El), (bnd_ret _ _ _ _ _ (put_in_progress_any _ _ _)).
  eexists. split; [reflexivity|]. split_and!.
  - by apply inv_put_q.
  - pose proof (stable_bracket q (RequestQueue (kept hits 0 Q) (picked hits 0 Q) true) m w w0 w') as Hb.
    rewrite put_in_progress_any in Hb. cbn [snd] in Hb. apply Hb; try done. by rewrite Eq.
  - exists new. split; [exact Hnew|done].
  - intros l Hl. cbn. rewrite get_set_q. cbn. apply (st_waiting _ _ HS q l); unfold wc; cbn; by rewrite get_set_q.
Qed.

Lemma progress_inv exec pend q w :
  inv exec pend w →
  ∃ n w', progress call q w = (Ret n, w') ∧ inv exec pend w' ∧ stable w w'.
Proof.
  intros HI. destruct (get_q q (backend w)) as [Q R f] eqn:Eq.
  destruct f.
  { exists 0, w. split; [|done]. unfold progress, queue at 1, gets at 1, bnd at 1. by rewrite Eq. }
  destruct (decide (Q = [])) as [->|Hne].
  { exists 0, w. by rewrite (progress_empty q w R). }
  assert (∀ l, l ∈ Q → ∃ st h, reqs w !! l = Some st ∧ m_req (m_ext st) = Some h) as HQ.
  { intros l [i Hi]%list_elem_of_lookup_1. 
    destruct (inv_index _ _ _ HI q i l) as (st & Hl & _); [by rewrite Eq|].
    destruct (inv_handle _ _ _ HI l st) as [h Hh]; [|done|eauto].
    apply (elem_of_queued q i). by rewrite Eq. }
  destruct (testsome_fatal (handle w <$> Q) (mpi (backend w))) as [idx Et].
  destruct (MPI_Testsome _ _) as [r s] eqn:Er. cbn in Et. subst r. rename Er into Et.
  rewrite (progress_run q w Q R (Some idx) s); [|done..|intros l (st & h & Hl & _)%HQ; by eexists|done].
  destruct idx as [idx|].
  - destruct idx as [|i idx].
    + eexists 0, _. split; [reflexivity|].
      pose proof (inv_keeps _ _ _ _ HI (keeps_set_mpi s (backend w))) as HI0.
      assert (get_q q (set_mpi s (backend w)) = RequestQueue Q R false) as Eq0 by by destruct q.
      set (w0 := set_backend _ w) in *.
      split; [apply (inv_put_q exec pend q _ w0); [done|cbn; by rewrite Eq0]|].
      trans w0; [|apply stable_put_q; cbn; by rewrite ?Eq0].
      apply stable_keeps; cbn; [apply keeps_set_mpi|done..].
    + destruct (progress_completes exec pend q w Q R (i :: idx) s) as (w' & E & HI' & HS & _);
        [done..|].
      eauto.
  - exfalso. apply testsome_undefined in Et. destruct Q as [|l Q]; [done|].
    destruct (HQ l) as (st & h & Hl & Hh); [set_solver|].
    apply Forall_inv in Et. unfold handle in Et. rewrite Hl in Et. congruence.
Qed.

(** ** [shared_request_queue::progress] *)

Lemma sh_progress_inv exec pend w :
  inv exec pend w →
  ∃ n w', sh_progress call w = (Ret n, w') ∧ inv exec pend w' ∧ stable w w'.
Proof.
  intros HI. unfold sh_progress, gets, bnd at 1. set (sq := m_req_queue (backend w)).
  destruct (sh_in_progress sq) eqn:Ef.
  { by exists 0, w. }
  set (w1 := with_shared (sh_queue sq) (sh_size sq) true w).
  assert (sh_set_in_progress true w = (Ret tt, w1)) as E1 by done.
  rewrite (bnd_ret _ _ _ _ _ E1).
  assert (inv exec pend w1) as HI1.
  { apply (inv_with_shared exec pend); [done..|]. intros x Hx. apply (queued_handle _ _ _ _ HI).
    unfold queued. fold sq. set_solver. }
  destruct (pop_until_ready_inv exec pend (length (sh_queue sq)) [] w1) as
    (r & L & w2 & E2 & HI2 & HS2 & HL2); [done..|set_solver|].
  rewrite (bnd_ret _ _ _ _ _ E2). cbn [fst snd].
  rewrite (Permutation_app_swap_app (option_list r)) in HI2.
  destruct (sh_push_all_inv exec (option_list r ++ pend) L w2 HI2 HL2) as (w3 & E3 & HI3 & HS3 & _).
  rewrite (bnd_ret _ _ _ _ _ E3).
  assert (∃ w4, match r with
     | Some e => with_self_ref e (invoke_cb call e ;;; sh_dec_size)
     | None => ret tt end w3 = (Ret tt, w4) ∧ inv exec pend w4 ∧ stable w3 w4) as (w4 & E4 & HI4 & HS4).
  { destruct r as [e|]; [|by exists w3].
    destruct (complete_then_inv exec pend e w3 sh_dec_size HI3) as (w4 & E4 & HI4 & HS4 & _).
    - intros w0. set (q0 := m_req_queue (backend w0)).
      exists (set_shared (SharedRequestQueue (sh_queue q0) (u64 (sh_size q0 - 1)) (sh_in_progress q0))
                (backend w0)). by split.
    - by exists w4. }
  rewrite (bnd_ret _ _ _ _ _ E4). eexists _, _. split; [reflexivity|]. split.
  - apply (inv_with_shared exec pend); [done..|]. intros x Hx. apply (queued_handle _ _ _ _ HI4).
    unfold queued. set_solver.
  - apply (stable_sh_bracket w true); [done|]. do 2 (etrans; [|eassumption]). done.
Qed.

Lemma comm_progress_inv exec pend w :
  inv exec pend w →
  ∃ w', comm_progress call w = (Ret tt, w') ∧ inv exec pend w' ∧ stable w w'.
Proof.
  intros HI. unfold comm_progress.
  destruct (progress_inv exec pend SendQ w HI) as (n1 & w1 & E1 & HI1 & HS1).
  destruct (progress_inv exec pend RecvQ w1 HI1) as (n2 & w2 & E2 & HI2 & HS2).
  destruct (sh_progress_inv exec pend w2 HI2) as (n3 & w3 & E3 & HI3 & HS3).
  exists w3. rewrite (bnd_ret _ _ _ _ _ E1), (bnd_ret _ _ _ _ _ E2), (bnd_ret _ _ _ _ _ E3).
  split_and!; [done..|]. by do 2 (etrans; [eassumption|]).
Qed.

End completion.

End ops.
Arguments well_behaved {_ _} recursion_depth call cb.
