(* ===== verification/MpiCancel.v ===== *)
(** * Cancellation in the MPI backend

    [request_queue::cancel] and [shared_request_queue::cancel] on a request
    that is in the queue: if MPI cancels it, it leaves the queue, whose indices
    stay right, and is marked canceled. *)
From S2P Require Import Prelude Request MpiQueue MpiCompact MpiInv.

Section cancel.
Context `{Mpi} {CB : Type}.
Abbreviation W := (world CB mpi_ext mpi_backend).
Abbreviation rstate := (request_state CB mpi_ext).
Implicit Types w : W.
Context {recursion_depth : Z}.
Abbreviation inv := (inv recursion_depth).
Context `{!MpiLaws}.

(** A request that does not wait any more leaves its queue. *)
Lemma inv_leave exec pend pend' w w' e :
  inv exec pend w → base_inv exec w' → pend ++ queued w ≡ₚ e :: pend' ++ queued w' →
  queued w' ⊆ queued w →
  (∀ st, reqs w' !! e = Some st → m_self_ptr st = false) →
  (∀ l, l ≠ e → strip <$> reqs w' !! l = strip <$> reqs w !! l ∧ handle w' l = handle w l) →
  (∀ q i l, m_queue (get_q q (backend w')) !! i = Some l →
     ∃ st, reqs w' !! l = Some st ∧ m_index (m_ext st) = i) →
  m_recursion_depth (backend w') = m_recursion_depth (backend w) →
  ctx_recursion_depth (backend w') = ctx_recursion_depth (backend w) →
  inv exec pend' w'.
Proof.
  intros HI HB HP' Hsub He Ho Hi E1 E2.
  pose proof (inv_nodup _ _ _ HI) as Hnd. rewrite HP' in Hnd. apply NoDup_cons in Hnd as [Hne Hnd].
  split; rewrite ?E1, ?E2; try done; try apply HI.
  - intros l. destruct (decide (l = e)) as [->|Hn].
    + split; [done|]. intros (st & Hst & Hs). apply He in Hst. congruence.
    + trans (l ∈ pend ++ queued w); [rewrite HP'; set_solver|].
      rewrite (inv_self _ _ _ HI). destruct (Ho l Hn) as [E _].
      destruct (reqs w' !! l) as [st'|], (reqs w !! l) as [st|]; try done.
      apply (inj Some), strip_eq in E. naive_solver.
  - intros l st Hq Hl. assert (l ≠ e) as Hn by (intros ->; set_solver).
    assert (l ∈ queued w) as Hq' by set_solver.
    destruct (Ho l Hn) as [_ E]. pose proof (queued_handle _ _ _ _ HI Hq') as Hh.
    rewrite <- E in Hh. unfold handle in Hh. by rewrite Hl in Hh.
Qed.

(** [e->m_req.cancel()] *)
Lemma req_cancel_ok e st w :
  reqs w !! e = Some st →
  ∃ flag b, req_cancel e w =
    (Ret flag, set_backend b (set_reqs (insert e (set_handle None st)) w)) ∧ keeps (backend w) b.
Proof.
  intros He. unfold req_cancel. rewrite (bnd_ret _ _ _ _ _ (get_req_ok _ _ _ He)).
  destruct (check_mpi_ok (MPI_Cancel (m_req (m_ext st))) w) as (u & s1 & _ & E1); [apply cancel_fatal|].
  rewrite (bnd_ret _ _ _ _ _ E1). set (w1 := set_backend _ w).
  destruct (check_mpi_ok (MPI_Wait (m_req (m_ext st))) w1) as (ss & s2 & _ & E2); [apply wait_fatal|].
  rewrite (bnd_ret _ _ _ _ _ E2). set (w2 := set_backend _ w1).
  assert (put_req e (set_handle None st) w2 = (Ret tt, set_reqs (insert e (set_handle None st)) w2))
    as E3 by done. rewrite (bnd_ret _ _ _ _ _ E3). set (w3 := set_reqs _ w2).
  destruct (check_mpi_ok (MPI_Test_cancelled ss) w3) as (flag & s4 & _ & E4);
    [apply test_cancelled_fatal|].
  rewrite E4. eexists flag, _. split; [reflexivity|]. by split_and!; try intros [].
Qed.

(** The list [remove_entry] leaves. *)
Definition swap_remove (i : nat) (Q : list positive) : list positive :=
  take (length Q - 1) (match last Q with
                       | Some z => if decide (i + 1 < length Q) then <[i := z]> Q else Q
                       | None => Q
                       end).

Lemma swap_remove_snoc i (Q : list positive) z :
  swap_remove i (Q ++ [z]) = if decide (i < length Q) then <[i := z]> Q else Q.
Proof.
  unfold swap_remove. rewrite last_snoc, length_app. cbn. rewrite Nat.add_sub.
  case_decide; case_decide; try lia.
  - by rewrite insert_app_l, take_app_length' by (rewrite ?length_insert; lia).
  - by rewrite take_app_length.
Qed.

Lemma swap_remove_perm i Q e : Q !! i = Some e → Q ≡ₚ e :: swap_remove i Q.
Proof.
  intros Hi. destruct Q as [|z Q _] using rev_ind; [done|]. rewrite swap_remove_snoc.
  apply lookup_snoc_Some in Hi as [[Hlt Hi]|[-> <-]].
  - rewrite decide_True by done.
    rewrite <- (take_drop_middle Q i e Hi) at 1. rewrite insert_take_drop by done. solve_Permutation.
  - rewrite decide_False by lia. solve_Permutation.
Qed.

Lemma swap_remove_lookup i Q e j l :
  Q !! i = Some e → swap_remove i Q !! j = Some l →
  (j = i ∧ last Q = Some l ∧ i + 1 < length Q) ∨ (j ≠ i ∧ Q !! j = Some l).
Proof.
  intros Hi. destruct Q as [|z Q _] using rev_ind; [done|].
  rewrite swap_remove_snoc, last_snoc, length_app. cbn.
  apply lookup_snoc_Some in Hi as [[Hlt Hi]|[-> <-]].
  - rewrite decide_True by done. rewrite list_lookup_insert by done.
    case_decide; [naive_solver lia|]. intros Hj. right. split; [naive_solver|].
    rewrite lookup_app_l; [done|]. by eapply lookup_lt_Some.
  - rewrite decide_False by lia. intros Hj. pose proof (lookup_lt_Some _ _ _ Hj).
    right. split; [lia|]. by rewrite lookup_app_l.
Qed.

(** What [remove_entry] does to the queue and to the request that moves. *)
Definition moved_index (i : nat) (Q : list positive) (m : gmap positive rstate) :
    gmap positive rstate :=
  match last Q with
  | Some z => if decide (i + 1 < length Q) then alter (set_index i) z m else m
  | None => m
  end.

Lemma remove_entry_run q i Q R f w :
  get_q q (backend w) = RequestQueue Q R f →
  (∀ z, last Q = Some z → i + 1 < length Q → is_Some (reqs w !! z)) →
  remove_entry q i w =
    (Ret tt, with_queue q (RequestQueue (swap_remove i Q) R f) (moved_index i Q (reqs w)) w).
Proof.
  intros Eq Hz. rewrite <- (with_queue_id q w) at 1. rewrite Eq.
  unfold remove_entry. rewrite (bnd_ret _ _ _ _ _ (queue_with_queue _ _ _ _)). cbn [m_queue].
  unfold swap_remove, moved_index. destruct (last Q) as [z|] eqn:El.
  - case_decide as Hlt.
    + destruct (Hz z) as [st Hst]; [done..|]. erewrite bnd_ret.
      2:{ rewrite (bnd_ret _ _ _ _ _ (put_queue_with_queue _ _ _ _ _ _ _)).
          erewrite bnd_ret by (apply get_req_ok; exact Hst).
          apply put_req_with_queue. }
      rewrite (bnd_ret _ _ _ _ _ (queue_with_queue _ _ _ _)). cbn [m_queue].
      rewrite put_queue_with_queue, length_insert. do 2 f_equal.
      apply map_eq. intros l. rewrite lookup_insert, lookup_alter.
      case_decide; subst; by rewrite ?Hst.
    + unfold bnd at 1, ret. rewrite (bnd_ret _ _ _ _ _ (queue_with_queue _ _ _ _)).
      apply put_queue_with_queue.
  - rewrite last_None in El. subst. rewrite decide_False by (cbn; lia).
    unfold bnd at 1, ret. rewrite (bnd_ret _ _ _ _ _ (queue_with_queue _ _ _ _)).
    apply put_queue_with_queue.
Qed.

Lemma moved_index_lookup i Q m l :
  strip <$> moved_index i Q m !! l = strip <$> m !! l ∧
  (m_req ∘ m_ext <$> moved_index i Q m !! l) = (m_req ∘ m_ext <$> m !! l) ∧
  ((last Q = Some l → ¬ i + 1 < length Q) → moved_index i Q m !! l = m !! l).
Proof.
  unfold moved_index. destruct (last Q) as [z|]; [|done]. case_decide; [|done].
  rewrite lookup_alter. case_decide; subst; [|done].
  split_and!; [by destruct (m !! l)..|]. intros Hn. by destruct Hn.
Qed.

(** The last element of a list without duplicates is at no other position. *)
Lemma last_elsewhere (Q : list positive) i e z :
  NoDup Q → Q !! i = Some e → last Q = Some z → i + 1 < length Q → z ≠ e.
Proof.
  intros Hnd Hi Hz Hlt ->. rewrite last_lookup in Hz.
  assert (i = Init.Nat.pred (length Q)) by (by eapply NoDup_lookup). lia.
Qed.

(** The successful cancellation of the entry at position [i], run to the end
    of the scope. *)
Lemma cancel_entry_run exec q i e st b w Q R f :
  base_inv exec w → get_q q b = RequestQueue Q R f → NoDup Q → Q !! i = Some e →
  (∀ z, last Q = Some z → is_Some (reqs w !! z)) →
  reqs w !! e = Some st → m_self_ptr st = true →
  ∃ w', with_self_ref e (set_canceled e ;;; remove_entry q i ;;; ret true)
          (set_backend b (set_reqs (insert e (set_handle None st)) w)) = (Ret true, w') ∧
        base_inv exec w' ∧ backend w' = set_q q (RequestQueue (swap_remove i Q) R f) b ∧
        canceled w' = canceled w ++ [e] ∧ invoked w' = invoked w ∧
        next w' = next w ∧ calls w' = calls w ∧
        (∀ l, l ≠ e → reqs w' !! l = moved_index i Q (reqs w) !! l) ∧
        (∀ st', reqs w' !! e = Some st' → m_self_ptr st' = false).
Proof.
  intros HB Eq Hnd Hi Hlast He Hs. set (w1 := set_backend b _).
  assert (base_inv exec w1) as HB1.
  { apply (base_inv_same exec w); [|done]. split; try done. intros l. cbn.
    rewrite lookup_insert. case_decide; subst; [by rewrite He|done]. }
  destruct (cancel_self_ok exec w1 e (set_handle None st) HB1) as
    (w2 & w3 & st3 & E2 & E3 & HB3 & Er3 & Hs3 & Hr3 & Hc3 & Eb3 & Ei3 & Ec3 & En3 & El3 & _);
    [apply lookup_insert_eq|done|].
  cbn in Er3. rewrite insert_insert_eq in Er3.
  assert (get_q q (backend w3) = RequestQueue Q R f) as Eq3 by (rewrite Eb3; done).
  assert (∀ z, last Q = Some z → i + 1 < length Q → is_Some (reqs w3 !! z)) as Hlast3.
  { intros z Hz _. rewrite Er3, lookup_insert_is_Some'. auto. }
  pose proof (remove_entry_run q i Q R f w3 Eq3 Hlast3) as E4.
  set (w4 := with_queue q _ _ w3) in E4.
  assert (base_inv exec w4) as HB4.
  { apply (base_inv_same exec w3); [|done]. split; try done. intros l. symmetry.
    apply moved_index_lookup. }
  assert (∀ l, l ≠ e → moved_index i Q (reqs w3) !! l = moved_index i Q (reqs w) !! l) as Hm.
  { intros l Hn. unfold moved_index. rewrite Er3. destruct (last Q) as [z|]; [|by rewrite lookup_insert_ne].
    case_decide; rewrite ?lookup_alter; repeat case_decide; subst; by rewrite ?lookup_insert_ne. }
  assert (reqs w4 !! e = Some st3) as He4.
  { unfold w4. cbn. rewrite (proj2 (proj2 (moved_index_lookup i Q (reqs w3) e))).
    - by rewrite Er3, lookup_insert_eq.
    - intros Hz Hlt. by destruct (last_elsewhere Q i e e). }
  destruct (drop_finished_ok exec w4 e st3 HB4 He4 Hr3) as
    (w5 & E5 & HB5 & Eb5 & Ei5 & Ec5 & En5 & El5 & Ho5 & Hs5 & _).
  exists w5. split.
  { unfold with_self_ref. rewrite (bnd_ret _ _ _ _ _ E2). erewrite scoped_ret.
    2:{ by rewrite (bnd_ret _ _ _ _ _ E3), (bnd_ret _ _ _ _ _ E4). }
    by rewrite (bnd_ret _ _ _ _ _ E5). }
  split_and!; [done|by rewrite Eb5; cbn; rewrite Eb3|by rewrite Ec5|by rewrite Ei5|by rewrite En5|
    by rewrite El5| |naive_solver].
  intros l Hn. rewrite Ho5 by done. by apply Hm.
Qed.

Lemma queued_swap_remove q i e w w' Q R f :
  get_q q (backend w) = RequestQueue Q R f →
  get_q q (backend w') = RequestQueue (swap_remove i Q) R f →
  (∀ q', q' ≠ q → get_q q' (backend w') = get_q q' (backend w)) →
  sh_queue (m_req_queue (backend w')) = sh_queue (m_req_queue (backend w)) →
  Q !! i = Some e → queued w ≡ₚ e :: queued w'.
Proof.
  intros Eq Eq' Ho Es Hi. unfold queued. rewrite Es. pose proof (swap_remove_perm i Q e Hi) as HP.
  clear Hi. revert HP Eq'. generalize (swap_remove i Q). intros Q' HP Eq'.
  destruct q; cbn in Eq, Eq'; rewrite Eq, Eq'; cbn.
  - pose proof (Ho RecvQ ltac:(done)) as E. cbn in E. rewrite HP, E. done.
  - pose proof (Ho SendQ ltac:(done)) as E. cbn in E. rewrite HP, E. solve_Permutation.
Qed.

Lemma swap_remove_ne i Q (e : positive) j l :
  NoDup Q → Q !! i = Some e → swap_remove i Q !! j = Some l → l ≠ e.
Proof.
  intros Hnd Hi Hj ->. pose proof (swap_remove_perm i Q e Hi) as HP. rewrite HP in Hnd.
  apply NoDup_cons in Hnd as [Hn _]. apply Hn. by eapply list_elem_of_lookup_2.
Qed.

(** The indices are right again after the move. *)
Lemma swap_remove_index i Q e j l (m : gmap positive rstate) :
  Q !! i = Some e → NoDup Q → swap_remove i Q !! j = Some l →
  (∀ j l, Q !! j = Some l → ∃ st, m !! l = Some st ∧ m_index (m_ext st) = j) →
  ∃ st, moved_index i Q m !! l = Some st ∧ m_index (m_ext st) = j.
Proof.
  intros Hi Hnd Hj Hm. destruct (swap_remove_lookup i Q e j l Hi Hj) as [(-> & Hz & Hlt)|(Hn & Hj')].
  - pose proof Hz as Hz'. rewrite last_lookup in Hz'. destruct (Hm _ _ Hz') as (st & Hl & _).
    exists (set_index i st). unfold moved_index. rewrite Hz, decide_True by done.
    by rewrite lookup_alter_eq, Hl.
  - destruct (Hm _ _ Hj') as (st & Hl & E). exists st. split; [|done].
    rewrite (proj2 (proj2 (moved_index_lookup i Q m l))); [done|]. intros Hz Hlt.
    rewrite last_lookup in Hz.
    assert (j = Init.Nat.pred (length Q)) as -> by (by eapply NoDup_lookup).
    apply lookup_lt_Some in Hj. pose proof (swap_remove_perm i Q e Hi) as HP%Permutation_length.
    cbn in HP. lia.
Qed.

(** What the cancellation leaves as it was: the entry that is no longer in the
    queue is the cancelled one. *)
Lemma stable_removed q i e b w w' Q R f :
  get_q q (backend w) = RequestQueue Q R f → Q !! i = Some e → keeps (backend w) b →
  backend w' = set_q q (RequestQueue (swap_remove i Q) R f) b →
  canceled w' = canceled w ++ [e] → invoked w' = invoked w → next w' = next w →
  calls w' = calls w → stable w w'.
Proof.
  intros Eq Hi (HKq & HKs & HKp & HKd & HKc) Eb Ec Ei En El.
  split; rewrite ?Ei, ?Ec, ?El, ?En, ?Eb, ?set_q_shared, ?set_q_depth, ?set_q_ctx_depth; try done.
  - intros q'. destruct (decide (q' = q)) as [->|Hn]; [by rewrite get_set_q, Eq|].
    by rewrite get_set_q_ne, HKq.
  - intros q' _. destruct (decide (q' = q)) as [->|Hn]; [by rewrite get_set_q, Eq|].
    by rewrite get_set_q_ne, HKq.
  - intros q' l _. destruct (decide (q' = q)) as [->|Hn].
    + rewrite get_set_q, Eq. cbn [m_queue]. pose proof (swap_remove_perm i Q e Hi) as HP.
      intros Hl. apply (elem_of_Permutation_proper l _ _ HP) in Hl. set_solver.
    + rewrite get_set_q_ne, HKq by done. auto.
  - by eexists.
Qed.

Lemma cancel_entry_inv exec pend q i e st b w Q R f :
  inv exec pend w → get_q q (backend w) = RequestQueue Q R f → Q !! i = Some e →
  reqs w !! e = Some st → keeps (backend w) b →
  ∃ w', with_self_ref e (set_canceled e ;;; remove_entry q i ;;; ret true)
          (set_backend b (set_reqs (insert e (set_handle None st)) w)) = (Ret true, w') ∧
        inv exec pend w' ∧ stable w w' ∧ canceled w' = canceled w ++ [e] ∧
        invoked w' = invoked w ∧ m_queue (get_q q (backend w')) = swap_remove i Q.
Proof.
  intros HI Eq Hi He (HKq & HKs & HKp & HKd & HKc).
  pose proof (queue_nodup _ _ _ q HI) as Hnd. rewrite Eq in Hnd. cbn in Hnd.
  assert (e ∈ queued w) as Heq by (apply (elem_of_queued q i); by rewrite Eq).
  destruct (proj1 (inv_self _ _ _ HI e)) as (st' & He' & Hs); [set_solver|].
  rewrite He in He'. injection He' as <-.
  destruct (cancel_entry_run exec q i e st b w Q R f) as
    (w' & E & HB & Eb & Ec & Ei & En & El & Ho & Hse); [apply HI|by rewrite HKq|done..| |done|done|].
  { intros z Hz. rewrite last_lookup in Hz.
    destruct (inv_index _ _ _ HI q (Init.Nat.pred (length Q)) z) as (stz & ? & _); [by rewrite Eq|eauto]. }
  assert (∀ q', q' ≠ q → get_q q' (backend w') = get_q q' (backend w)) as Hoq.
  { intros q' Hn. rewrite Eb, get_set_q_ne by done. apply HKq. }
  assert (get_q q (backend w') = RequestQueue (swap_remove i Q) R f) as Eq'.
  { by rewrite Eb, get_set_q. }
  exists w'. split; [done|]. split_and!; [| |done|done|by rewrite Eq'].
  - assert (queued w ≡ₚ e :: queued w') as HP.
    { apply (queued_swap_remove q i e w w' Q R f); try done. by rewrite Eb, set_q_shared. }
    apply (inv_leave exec pend pend w w' e); try done.
    + rewrite HP. solve_Permutation.
    + intros x Hx. rewrite HP. set_solver.
    + intros l Hn. unfold handle. rewrite Ho by done.
      destruct (moved_index_lookup i Q (reqs w) l) as (E1 & E2 & _). split; [done|].
      destruct (moved_index _ _ _ !! l), (reqs w !! l); cbn in E2; naive_solver.
    + intros q' j l. destruct (decide (q' = q)) as [->|Hn].
      * rewrite Eq'. cbn. intros Hj. rewrite Ho by (by eapply swap_remove_ne).
        eapply (swap_remove_index i Q e); [done..|].
        intros j' l' Hj'. apply (inv_index _ _ _ HI q). by rewrite Eq.
      * rewrite Hoq by done. intros Hj. destruct (inv_index _ _ _ HI q' j l Hj) as (stl & Hl & ?).
        exists stl. split; [|done].
        assert (l ∉ Q) as Hlq.
        { pose proof (queues_disjoint _ _ _ q' q l HI Hn) as Hd. rewrite Eq in Hd. apply Hd.
          by eapply list_elem_of_lookup_2. }
        rewrite Ho by (intros ->; by apply Hlq; eapply list_elem_of_lookup_2).
        rewrite (proj2 (proj2 (moved_index_lookup i Q (reqs w) l))); [done|].
        intros Hz _. apply Hlq. rewrite last_lookup in Hz. by eapply list_elem_of_lookup_2.
    + rewrite Eb, set_q_depth. done.
    + rewrite Eb, set_q_ctx_depth. done.
  - by apply (stable_removed q i e b w w' Q R f).
Qed.

Lemma cancel_inv exec pend q i e w :
  inv exec pend w → m_queue (get_q q (backend w)) !! i = Some e →
  ∃ flag w', cancel q e w = (Ret flag, w') ∧
    if flag : bool
    then inv exec pend w' ∧ stable w w' ∧ canceled w' = canceled w ++ [e] ∧
         invoked w' = invoked w ∧
         m_queue (get_q q (backend w')) = swap_remove i (m_queue (get_q q (backend w)))
    else same_requests w w' ∧ stable w w' ∧ queued w' = queued w ∧ handle w' e = None ∧
         (∀ q, get_q q (backend w') = get_q q (backend w)).
Proof.
  intros HI Hi. destruct (inv_index _ _ _ HI q i e Hi) as (st & He & Ei).
  unfold cancel. rewrite (bnd_ret _ _ _ _ _ (get_req_ok _ _ _ He)), Ei.
  unfold bnd at 1, queue, gets. rewrite Hi.
  destruct (req_cancel_ok e st w He) as (flag & b & E & HK).
  rewrite (bnd_ret _ _ _ _ _ E). destruct flag.
  - destruct (get_q q (backend w)) as [Q R f] eqn:Eq.
    destruct (cancel_entry_inv exec pend q i e st b w Q R f) as (w' & E' & Hw'); [done..|].
    exists true, w'. done.
  - eexists false, _. split; [reflexivity|]. split_and!.
    + split; try done. intros l. cbn. rewrite lookup_insert.
      case_decide; subst; [by rewrite He|done].
    + by apply stable_keeps.
    + destruct HK as (HKq & HKs & _). apply queued_eq; [|done]. intros q'. cbn. by rewrite HKq.
    + unfold handle. cbn. by rewrite lookup_insert_eq.
    + apply HK.
Qed.

(** *** Shared receives *)

Lemma cancel_pending_inv exec pend e st b w :
  inv exec (e :: pend) w → reqs w !! e = Some st → keeps (backend w) b →
  ∃ w', with_self_ref e (set_canceled e)
          (set_backend b (set_reqs (insert e (set_handle None st)) w)) = (Ret tt, w') ∧
        inv exec pend w' ∧ stable w w' ∧ canceled w' = canceled w ++ [e] ∧
        invoked w' = invoked w ∧ (∀ l, l ≠ e → handle w' l = handle w l) ∧
        sh_queue (m_req_queue (backend w')) = sh_queue (m_req_queue (backend w)).
Proof.
  intros HI He HK. set (w1 := set_backend b _).
  destruct (proj1 (inv_self _ _ _ HI e)) as (st' & He' & Hs); [set_solver|].
  rewrite He in He'. injection He' as <-.
  assert (base_inv exec w1) as HB1.
  { apply (base_inv_same exec w); [|apply HI]. split; try done. intros l. cbn.
    rewrite lookup_insert. case_decide; subst; [by rewrite He|done]. }
  destruct (cancel_self_ok exec w1 e (set_handle None st) HB1) as
    (w2 & w3 & st3 & E2 & E3 & HB3 & Er3 & Hs3 & Hr3 & Hc3 & Eb3 & Ei3 & Ec3 & En3 & El3 & _);
    [apply lookup_insert_eq|done|].
  cbn in Er3. rewrite insert_insert_eq in Er3.
  assert (reqs w3 !! e = Some st3) as He3 by (by rewrite Er3, lookup_insert_eq).
  destruct (drop_finished_ok exec w3 e st3 HB3 He3 Hr3) as
    (w5 & E5 & HB5 & Eb5 & Ei5 & Ec5 & En5 & El5 & Ho5 & Hs5 & _).
  assert (∀ l, l ≠ e → reqs w5 !! l = reqs w !! l) as Ho.
  { intros l Hn. by rewrite Ho5, Er3, lookup_insert_ne. }
  assert (backend w5 = b) as Eb by (rewrite Eb5, Eb3; done).
  assert (queued w5 = queued w) as Eq.
  { destruct HK as (HKq & HKs & _). apply queued_eq; rewrite Eb; [|done]. intros q. by rewrite HKq. }
  pose proof (inv_nodup _ _ _ HI) as [Hne _]%NoDup_cons.
  exists w5. split.
  { unfold with_self_ref. rewrite (bnd_ret _ _ _ _ _ E2), (scoped_ret _ _ _ _ _ E3).
    by rewrite (bnd_ret _ _ _ _ _ E5). }
  split_and!.
  - destruct HK as (HKq & HKs & HKp & HKd & HKc).
    apply (inv_leave exec (e :: pend) pend w w5 e); rewrite ?Eq, ?Eb; try done; [naive_solver|..].
    + intros l Hn. unfold handle. by rewrite Ho.
    + intros q i l. rewrite HKq. intros Hi. rewrite Ho; [by eapply inv_index|].
      intros ->. apply elem_of_queued in Hi. set_solver.
  - apply stable_keeps; rewrite ?Eb, ?En5, ?En3, ?Ei5, ?Ei3, ?Ec5, ?Ec3, ?El5, ?El3; try done. by eexists.
  - by rewrite Ec5, Ec3.
  - by rewrite Ei5, Ei3.
  - intros l Hn. unfold handle. by rewrite Ho.
  - rewrite Eb. apply HK.
Qed.

Lemma sh_consume_skip e A l local c w :
  e ∉ A → sh_consume e (A ++ l) local c w = sh_consume e l (local ++ A) c w.
Proof.
  revert local. induction A as [|x A IH]; intros local Hn; cbn.
  - by rewrite app_nil_r.
  - rewrite decide_False by set_solver. rewrite IH, <- app_assoc by set_solver. done.
Qed.

Lemma sh_consume_all e l local c w : e ∉ l → sh_consume e l local c w = (Ret (local ++ l, c), w).
Proof. intros Hn. rewrite <- (app_nil_r l) at 1. by rewrite sh_consume_skip. Qed.

(** [cancel] on a request in the queue of shared receives: if MPI cancels it,
    it leaves the queue. *)
Lemma sh_cancel_inv exec pend e w :
  inv exec pend w → e ∈ sh_queue (m_req_queue (backend w)) →
  ∃ flag w', sh_cancel e w = (Ret flag, w') ∧
    (flag = true → inv exec pend w' ∧ stable w w' ∧ canceled w' = canceled w ++ [e] ∧
                   invoked w' = invoked w).
Proof.
  intros HI He. unfold sh_cancel, bnd at 1, gets. set (sq := m_req_queue (backend w)) in *.
  destruct (list_elem_of_split _ _ He) as (A & B & Eq).
  assert (NoDup (A ++ e :: B)) as Hnd.
  { rewrite <- Eq. pose proof (inv_nodup _ _ _ HI) as (_ & _ & Hn)%NoDup_app. unfold queued in Hn.
    fold sq in Hn. apply NoDup_app in Hn as (_ & _ & Hn). by apply NoDup_app in Hn as (_ & _ & Hn). }
  apply NoDup_app in Hnd as (_ & HA & [HeB _]%NoDup_cons).
  assert (e ∉ A) as HeA by (intros Hin; apply (HA e Hin); set_solver).
  assert (∀ x, x ∈ A ++ B → x ≠ e) as Hne by set_solver.
  set (w1 := with_shared [] (sh_size sq) (sh_in_progress sq) w).
  assert (put_shared (SharedRequestQueue [] (sh_size sq) (sh_in_progress sq)) w = (Ret tt, w1)) as E1
    by done. rewrite (bnd_ret _ _ _ _ _ E1), Eq.
  pose proof (sh_consume_skip e A (e :: B) [] false w1 HeA) as Esk. cbn [sh_consume app] in Esk.
  rewrite decide_True in Esk by done.
  assert (inv exec (e :: (A ++ B) ++ pend) w1) as HI1.
  { apply (inv_with_shared exec pend); [done|fold sq; rewrite Eq; solve_Permutation|set_solver]. }
  destruct (proj1 (inv_self _ _ _ HI1 e)) as (st & Hst & _); [set_solver|].
  destruct (req_cancel_ok e st w1 Hst) as (flag & b & E2 & HK).
  destruct flag.
  - destruct (cancel_pending_inv exec ((A ++ B) ++ pend) e st b w1 HI1 Hst HK) as
      (w2 & E3 & HI2 & HS2 & Ec2 & Ei2 & Hh2 & _).
    destruct (sh_push_all_inv exec pend (A ++ B) w2 HI2) as (w3 & E4 & HI3 & HS3 & Ec3 & Ei3).
    { intros l Hl. rewrite Hh2 by auto. apply (queued_handle _ _ _ _ HI).
      unfold queued. fold sq. rewrite Eq. set_solver. }
    eexists true, w3. split.
    { rewrite (bnd_ret _ _ _ _ _ E2), (bnd_ret _ _ _ _ _ E3), (sh_consume_all _ _ _ _ _ HeB) in Esk.
      rewrite (bnd_ret _ _ _ _ _ Esk).
      cbn [fst snd]. by rewrite (bnd_ret _ _ _ _ _ E4). }
    intros _. split_and!; [done| |..].
    + do 2 (etrans; [|eassumption]). by apply stable_with_shared.
    + by rewrite Ec3, Ec2.
    + by rewrite Ei3, Ei2.
  - eexists false, _. split; [|done].
    rewrite (bnd_ret _ _ _ _ _ E2), (sh_consume_all _ _ _ _ _ HeB) in Esk. rewrite (bnd_ret _ _ _ _ _ Esk).
    cbn [fst snd]. by rewrite (bnd_ret _ _ _ _ _ (sh_push_all_run _ _)).
Qed.

End cancel.
