(* ===== verification/MpiApi.v ===== *)
(** * What a program sees of the MPI backend

    The operations of the library as steps between states of the program; the
    invariant of MpiInv.v holds in every reachable state, which gives the
    promises of the interface: callbacks are called exactly once, the counters
    behind [communicator::is_ready] are exact, nothing undefined happens. *)
From S2P Require Import Prelude Request MpiQueue MpiCompact MpiInv MpiOps MpiCancel.

Section api.
Context `{Mpi} {CB : Type}.
Abbreviation W := (world CB mpi_ext mpi_backend).
Implicit Types w : W.
Variable call : CB → Z → Z → M W unit.
Variable recursion_depth : Z.

Definition empty_queue : request_queue := RequestQueue [] [] false.

(** The state after the construction of context and communicator. *)
Definition init (s : mpi_st) : W :=
  World ∅ 1 ∅ [] [] [] (MpiBackend _ s empty_queue empty_queue (SharedRequestQueue [] 0 false) 0 0).

(** [communicator::is_ready()] *)
Definition comm_is_ready w : bool :=
  bool_decide (counter scheduled_sends w = 0%Z) && bool_decide (counter scheduled_recvs w = 0%Z) &&
  bool_decide (counter scheduled_shared_recvs w = 0%Z).

(** What a program may do next.  A request is canceled through a handle to a
    receive that is still queued; a cancellation that MPI refuses is the
    subject of [failed_cancel_undefined].  [step_env] is the network. *)
Inductive api_step : W → W → Prop :=
| step_send w data size dst tag cb o w' :
    send call recursion_depth data size dst tag cb w = (o, w') → api_step w w'
| step_recv w data size src tag cb o w' :
    recv call recursion_depth data size src tag cb w = (o, w') → api_step w w'
| step_shared_recv w data size src tag cb o w' :
    shared_recv call recursion_depth data size src tag cb w = (o, w') → api_step w w'
| step_progress w o w' : comm_progress call w = (o, w') → api_step w w'
| step_ctx_progress w o w' : sh_progress call w = (o, w') → api_step w w'
| step_cancel w e w' :
    e ∈ m_queue (m_recv_reqs (backend w)) → cancel_recv e w = (Ret true, w') → api_step w w'
| step_sh_cancel w e w' :
    e ∈ sh_queue (m_req_queue (backend w)) → sh_cancel e w = (Ret true, w') → api_step w w'
| step_drop w l st o w' :
    reqs w !! l = Some st → (if m_self_ptr st then 1 else 0) < m_refs st →
    drop_ref l w = (o, w') → api_step w w'
| step_env w s : api_step w (set_backend (set_mpi s (backend w)) w).

Definition reachable (s : mpi_st) w : Prop := rtc api_step (init s) w.

Abbreviation inv := (inv recursion_depth).

Lemma outstanding_queued w c : inv [] [] w → outstanding c w ≤ length (queued w).
Proof.
  intros HI. apply map_count_le_list. intros l st Hl [_ Hr].
  pose proof (bi_live _ _ (inv_base _ _ _ HI) l st Hl) as Hlive. rewrite Hr in Hlive.
  destruct Hlive as [Hs|Hin]; [|set_solver]. apply (inv_self _ _ _ HI). eauto.
Qed.

Lemma comm_is_ready_iff w :
  inv [] [] w → (Z.of_nat (length (queued w)) < 2 ^ 64)%Z →
  comm_is_ready w = true ↔ queued w = [].
Proof.
  intros HI Hsz. pose proof (inv_base _ _ _ HI) as HB.
  assert (∀ c, counter c w = Z.of_nat (outstanding c w)) as Hc.
  { intros c. rewrite (bi_count _ _ HB). apply u64_small. pose proof (outstanding_queued w c HI). lia. }
  unfold comm_is_ready. rewrite !Hc, !andb_true_iff, !bool_decide_eq_true. split.
  - intros [[H1 H2] H3]. destruct (queued w) as [|l L] eqn:Eq; [done|exfalso].
    assert (l ∈ [] ++ queued w) as Hin by (rewrite Eq; set_solver).
    apply (inv_self _ _ _ HI) in Hin as (st & Hl & Hs).
    destruct (bi_self _ _ _ _ HB Hl Hs) as (Hr & _).
    pose proof (bi_cells _ _ HB l st Hl) as Hcell.
    assert (0 < outstanding (m_scheduled st) w) as Hpos by (eapply map_count_pos; [exact Hl|done]).
    unfold cells in Hcell. rewrite !elem_of_cons in Hcell. 
    destruct Hcell as [E|[E|[E|Hcell]]]; [rewrite E in Hpos; lia..|set_solver].
  - intros Eq. assert (∀ c, outstanding c w = 0) as Hz; [|by rewrite !Hz].
    intros c. pose proof (outstanding_queued w c HI) as Hle. rewrite Eq in Hle. cbn in Hle. lia.
Qed.

Context `{!MpiLaws}.
Hypothesis Hrd : (0 ≤ recursion_depth < 2 ^ 64 - 1)%Z.
Hypothesis Hcall : ∀ cb, well_behaved recursion_depth call cb.

Lemma init_base s : base_inv [] (init s).
Proof.
  split; cbn; try (intros *; by rewrite lookup_empty); try set_solver;
    try apply NoDup_nil_2.
  intros l Hl. lia.
Qed.

Lemma init_inv s : inv [] [] (init s).
Proof.
  split; try (cbn; lia); try done.
  - apply init_base.
  - constructor.
  - intros l. cbn. rewrite lookup_empty. set_solver.
  - intros [] i l; cbn; by rewrite lookup_nil.
Qed.

(** Dropping a handle. *)
Lemma drop_handle_inv w l st :
  inv [] [] w → reqs w !! l = Some st → (if m_self_ptr st then 1 else 0) < m_refs st →
  ∃ w', drop_ref l w = (Ret tt, w') ∧ inv [] [] w'.
Proof.
  intros HI Hl Hr.
  destruct (drop_ref_ok [] w l st) as (w' & E & HB & Eb & Ei & Ec & En & El & Ho & Hl');
    [apply HI|done|rewrite decide_False by set_solver; lia|].
  assert (∀ st', reqs w' !! l = Some st' → st' = set_self (m_self_ptr st) (pred (m_refs st)) st) as Hl''.
  { intros st'. rewrite Hl'. case_decide; naive_solver. }
  clear Hl'. rename Hl'' into Hl'.
  assert (queued w' = queued w) as Eq by (apply queued_eq; by rewrite Eb).
  assert (∀ l' st', reqs w !! l' = Some st' → m_self_ptr st' = true →
            ∃ st2, reqs w' !! l' = Some st2 ∧ m_self_ptr st2 = true ∧ m_ext st2 = m_ext st') as Hkeep.
  { intros l' st' Hst' Hs. destruct (decide (l' = l)) as [->|Hn]; [|rewrite Ho by done; eauto].
    destruct (bi_total _ _ HB l) as [(st2 & H2 & H3)|Hin].
    - rewrite En. apply (bi_next _ _ (inv_base _ _ _ HI)). by eexists.
    - exists st2. pose proof (Hl' st2 H2) as ->. naive_solver.
    - pose proof (bi_waiting _ _ (inv_base _ _ _ HI) l st' Hst' Hs). by rewrite Ei, Ec in Hin. }
  assert (∀ l' st2, reqs w' !! l' = Some st2 →
            ∃ st', reqs w !! l' = Some st' ∧ m_self_ptr st' = m_self_ptr st2 ∧
                   m_ext st' = m_ext st2) as Hback.
  { intros l' st2 H2. destruct (decide (l' = l)) as [->|Hn]; [|rewrite Ho in H2 by done; eauto].
    pose proof (Hl' st2 H2) as ->. eauto. }
  assert (∀ l', l' ∈ queued w → ∃ st', reqs w !! l' = Some st' ∧ m_self_ptr st' = true) as Hself.
  { intros l' Hq. by apply (inv_self _ _ _ HI). }
  exists w'. split; [done|]. split; rewrite ?Eq, ?Eb; try apply HI; [done|..].
  - intros l'. rewrite (inv_self _ _ _ HI). split.
    + intros (st' & H1 & H2). destruct (Hkeep l' st' H1 H2) as (st2 & ? & ? & _). eauto.
    + intros (st2 & H1 & H2). destruct (Hback l' st2 H1) as (st' & ? & ? & _). exists st'. split; congruence.
  - intros q i l' Hi. destruct (Hself l') as (st' & H1 & H2); [by eapply elem_of_queued|].
    destruct (inv_index _ _ _ HI q i l' Hi) as (st'' & H3 & H4).
    destruct (Hkeep l' st' H1 H2) as (st2 & ? & ? & E2). exists st2. split; congruence.
  - intros l' st2 Hq H2. destruct (Hback l' st2 H2) as (st' & H1 & _ & <-). by apply (inv_handle _ _ _ HI l').
Qed.

Lemma step_inv w w' : inv [] [] w → api_step w w' → inv [] [] w'.
Proof.
  intros HI Hstep. destruct Hstep as [w data size dst tag cb o w' E|w data size src tag cb o w' E|
    w data size src tag cb o w' E|w o w' E|w o w' E|w e w' He E|w e w' He E|w l st o w' Hl Hr E|w s].
  - destruct (send_inv call Hrd [] [] w data size dst tag cb (Hcall cb) HI) as (? & ? & E' & ? & _).
    congruence.
  - destruct (recv_inv call Hrd [] [] w data size src tag cb (Hcall cb) HI) as (? & ? & E' & ? & _).
    congruence.
  - destruct (shared_recv_inv call Hrd [] [] w data size src tag cb (Hcall cb) HI) as (? & ? & E' & ? & _).
    congruence.
  - destruct (comm_progress_inv call Hcall [] [] w HI) as (? & E' & ? & _). congruence.
  - destruct (sh_progress_inv call Hcall [] [] w HI) as (? & ? & E' & ? & _). congruence.
  - apply list_elem_of_lookup_1 in He as [i Hi].
    destruct (cancel_inv [] [] RecvQ i e w HI Hi) as ([] & ? & E' & Hc); unfold cancel_recv in E; [|congruence].
    destruct Hc as (? & _). congruence.
  - destruct (sh_cancel_inv [] [] e w HI He) as (flag & ? & E' & Hc).
    rewrite E in E'. injection E' as <- <-. by apply Hc.
  - destruct (drop_handle_inv w l st HI Hl Hr) as (? & E' & ?). congruence.
  - apply inv_keeps; [done|apply keeps_set_mpi].
Qed.

Lemma reachable_inv s w : reachable s w → inv [] [] w.
Proof.
  unfold reachable. pose proof (init_inv s) as HI. revert HI. generalize (init s).
  intros w0 HI Hr. induction Hr as [|w1 w2 w3 Hs _ IH]; [done|]. apply IH. by eapply step_inv.
Qed.

(** Between operations no queue is being progressed. *)
Definition idle w : Prop :=
  (∀ q, in_progress (get_q q (backend w)) = false) ∧ sh_in_progress (m_req_queue (backend w)) = false.

Lemma idle_stable w w' : stable w w' → idle w → idle w'.
Proof.
  intros HS [H1 H2]. split; [intros q; by rewrite (st_flag _ _ HS)|by rewrite (st_shared _ _ HS)].
Qed.

Lemma step_idle w w' : inv [] [] w → api_step w w' → idle w → idle w'.
Proof.
  intros HI Hstep. destruct Hstep as [w data size dst tag cb o w' E|w data size src tag cb o w' E|
    w data size src tag cb o w' E|w o w' E|w o w' E|w e w' He E|w e w' He E|w l st o w' Hl Hr E|w s].
  - destruct (send_inv call Hrd [] [] w data size dst tag cb (Hcall cb) HI) as (? & w2 & E' & _ & ? & _).
    apply idle_stable. by replace w' with w2 by congruence.
  - destruct (recv_inv call Hrd [] [] w data size src tag cb (Hcall cb) HI) as (? & w2 & E' & _ & ? & _).
    apply idle_stable. by replace w' with w2 by congruence.
  - destruct (shared_recv_inv call Hrd [] [] w data size src tag cb (Hcall cb) HI) as (? & w2 & E' & _ & ? & _).
    apply idle_stable. by replace w' with w2 by congruence.
  - destruct (comm_progress_inv call Hcall [] [] w HI) as (w2 & E' & _ & ?).
    apply idle_stable. by replace w' with w2 by congruence.
  - destruct (sh_progress_inv call Hcall [] [] w HI) as (? & w2 & E' & _ & ?).
    apply idle_stable. by replace w' with w2 by congruence.
  - apply list_elem_of_lookup_1 in He as [i Hi].
    destruct (cancel_inv [] [] RecvQ i e w HI Hi) as ([] & w2 & E' & Hc); unfold cancel_recv in E; [|congruence].
    destruct Hc as (_ & ? & _). apply idle_stable. by replace w' with w2 by congruence.
  - destruct (sh_cancel_inv [] [] e w HI He) as (flag & ? & E' & Hc).
    rewrite E in E'. injection E' as <- <-. apply idle_stable. by apply Hc.
  - destruct (drop_ref_ok [] w l st) as (w2 & E' & _ & Eb & _);
      [apply HI|done|rewrite decide_False by set_solver; lia|].
    replace w' with w2 by congruence. unfold idle. by rewrite Eb.
  - apply idle_stable, stable_keeps; [apply keeps_set_mpi|done..].
Qed.

Lemma reachable_idle s w : reachable s w → inv [] [] w ∧ idle w.
Proof.
  assert (inv [] [] (init s) ∧ idle (init s)) as Hstart.
  { split; [apply init_inv|]. split; [by intros []|done]. }
  unfold reachable. revert Hstart. generalize (init s). intros w0 Hstart Hr.
  induction Hr as [|w1 w2 w3 Hs _ IH]; [done|]. apply IH. destruct Hstart as [HI Hid].
  split; [by eapply step_inv|by eapply step_idle].
Qed.

(** ** Promises *)

Lemma queue_present exec pend q w Q R f :
  inv exec pend w → get_q q (backend w) = RequestQueue Q R f → ∀ l, l ∈ Q → is_Some (reqs w !! l).
Proof.
  intros HI Eq l [i Hi]%list_elem_of_lookup_1.
  destruct (inv_index _ _ _ HI q i l) as (st & ? & _); [by rewrite Eq|by eexists].
Qed.

(** The requests ever posted, by what has become of them. *)
Lemma inv_partition w :
  inv [] [] w →
  NoDup (queued w ++ invoked w ++ canceled w) ∧
  ∀ l, (l < next w)%positive ↔ l ∈ queued w ++ invoked w ++ canceled w.
Proof.
  intros HI. pose proof (inv_base _ _ _ HI) as HB.
  assert (∀ l, l ∈ queued w ↔ ∃ st, reqs w !! l = Some st ∧ m_self_ptr st = true) as Hq by apply HI.
  split.
  - apply NoDup_app. split_and!; [apply HI| |apply HB].
    intros l (st & Hl & Hs)%Hq. by eapply bi_waiting.
  - intros l. rewrite elem_of_app, Hq. split.
    + apply (bi_total _ _ HB).
    + intros [(st & Hl & Hs)|Hin]; [|by apply (bi_past _ _ HB)].
      apply (bi_next _ _ HB). by eexists.
Qed.

Lemma waiting_not_invoked q w l :
  inv [] [] w → l ∈ m_queue (get_q q (backend w)) ∨ l ∈ canceled w → l ∉ invoked w.
Proof.
  intros HI Hl Hin. destruct (inv_partition w HI) as [[_ [Hd [_ [Hd' _]]%NoDup_app]]%NoDup_app _].
  destruct Hl as [[i Hi]%list_elem_of_lookup_1|Hc]; [|by apply (Hd' l)].
  apply (Hd l); [by eapply elem_of_queued|set_solver].
Qed.

(** C1: In every state a program reaches in which MPI has not refused a
    cancellation (what follows a refusal is the subject of
    [failed_cancel_undefined]), the requests ever posted are partitioned: a
    request waits in exactly one place of one queue, or its callback has been
    called, or it has been canceled.  No callback is called twice, none is called
    for a canceled request. *)
Theorem callback_exactly_once s w :
  reachable s w →
  NoDup (queued w ++ invoked w ++ canceled w) ∧
  ∀ l, (l < next w)%positive ↔ l ∈ queued w ++ invoked w ++ canceled w.
Proof. intros HI%reachable_inv. by apply inv_partition. Qed.


(** C8: [communicator::is_ready()], which compares three counters with zero, says
    whether any request is still queued (for fewer than 2^64 requests, the
    range of the counters). *)
Theorem is_ready_iff_idle s w :
  reachable s w → (Z.of_nat (length (queued w)) < 2 ^ 64)%Z →
  comm_is_ready w = true ↔ queued w = [].
Proof. intros HI%reachable_inv. by apply comm_is_ready_iff. Qed.

(** What a posting operation that returns [o] did: it completed in place, with
    its callback called before anything else, or it left the caller a new request
    that waits in a queue, with nothing called. *)
Definition posts w w' cb (p t : Z) (o : option positive) : Prop :=
  match o with
  | None => (calls w ++ [(cb, p, t)]) `prefix_of` calls w'
  | Some l => l = next w ∧ l ∈ queued w' ∧ calls w' = calls w ∧ invoked w' = invoked w
  end.

Lemma post_result_posts w w' cb p t o : post_result w w' cb p t o → posts w w' cb p t o.
Proof. intros [[-> ?]|(-> & _ & _ & _ & ? & ? & _ & ?)]; done. Qed.


(** C13: One round of [request_queue::progress] on an idle queue for which
    [MPI_Testsome] reports positions in ascending order: it returns the number of
    completions; of the requests of the queue, exactly those at the reported
    positions are called, in queue order (other calls, made by the callbacks
    themselves, may come in between). *)
Theorem progress_calls_completed s w q Q R idx m :
  reachable s w → get_q q (backend w) = RequestQueue Q R false → Q ≠ [] →
  MPI_Testsome (handle w <$> Q) (mpi (backend w)) = (Some (Some idx), m) → StronglySorted lt idx →
  ∃ w' new, progress call q w = (Ret (length (picked idx 0 Q)), w') ∧
    invoked w' = invoked w ++ new ∧ picked idx 0 Q `sublist_of` new ∧
    (∀ i l, Q !! i = Some l → l ∈ new ↔ i ∈ idx) ∧
    in_progress (get_q q (backend w')) = false.
Proof.
  intros HI%reachable_inv Eq Hne Et Hs.
  pose proof (progress_run call q w Q R _ _ Eq Hne (queue_present _ _ _ _ _ _ _ HI Eq) Et) as E.
  assert (increasing 0 (length Q) idx = idx) as Hinc.
  { apply increasing_id; [done|apply Forall_true; lia|]. apply Forall_forall. intros i Hi.
    destruct (testsome_active _ _ _ _ _ Et Hi) as [h Hh].
    apply lookup_lt_Some in Hh. by rewrite length_fmap in Hh. }
  destruct idx as [|i idx].
  - eexists _, []. split; [rewrite E; do 2 f_equal; by rewrite picked_nil|].
    rewrite app_nil_r, picked_nil. cbn. rewrite get_set_q. split_and!; [done..|set_solver|done].
  - destruct (progress_completes call Hcall [] [] q w Q R (i :: idx) m) as
      (w' & E' & HI' & HS & (new & Hn & Hsub) & Hkept); [done..|]. rewrite Hinc in E', Hsub, Hkept.
    exists w', new. rewrite E, E'. split_and!; [done..| |by rewrite (st_flag _ _ HS), Eq].
    intros k l Hk. split.
    + intros Hl. destruct (elem_of_kept (i :: idx) 0 Q l) as [Hp|Hp]; [by eapply list_elem_of_lookup_2|..].
      * apply elem_of_picked in Hp as (k' & Hk' & Hin).
        pose proof (queue_nodup _ _ _ q HI) as Hnd. rewrite Eq in Hnd.
        by rewrite (NoDup_lookup _ _ _ _ Hnd Hk Hk').
      * exfalso. apply (waiting_not_invoked q w' l HI'); [by apply Hkept|rewrite Hn; set_solver].
    + intros Hin. eapply elem_of_sublist; [|exact Hsub]. apply elem_of_picked. eauto.
Qed.

(** The loop relies on ascending positions, an order MPI does not promise: a
    completed request whose position is reported after a greater one (the
    positions the loop finds are [increasing]) is not called. *)
Theorem unordered_report_lost s w q Q R idx m i l :
  reachable s w → get_q q (backend w) = RequestQueue Q R false →
  MPI_Testsome (handle w <$> Q) (mpi (backend w)) = (Some (Some idx), m) →
  idx ≠ [] → Q !! i = Some l → i ∉ increasing 0 (length Q) idx →
  ∃ n w', progress call q w = (Ret n, w') ∧ l ∉ invoked w'.
Proof.
  intros HI%reachable_inv Eq Et Hidx Hi Hn. assert (Q ≠ []) as Hne by (by destruct Q).
  pose proof (progress_run call q w Q R _ _ Eq Hne (queue_present _ _ _ _ _ _ _ HI Eq) Et) as E.
  destruct idx as [|j idx]; [done|].
  destruct (progress_completes call Hcall [] [] q w Q R (j :: idx) m) as
    (w' & E' & HI' & HS & _ & Hkept); [done..|].
  eexists _, w'. rewrite E, E'. split; [reflexivity|].
  apply (waiting_not_invoked q w' l HI'), Hkept.
  destruct (elem_of_kept (increasing 0 (length Q) (j :: idx)) 0 Q l) as [Hp|?]; [by eapply list_elem_of_lookup_2| |done].
  apply elem_of_picked in Hp as (k & Hk & Hin). destruct Hn.
  pose proof (queue_nodup _ _ _ q HI) as Hnd. rewrite Eq in Hnd. by rewrite (NoDup_lookup _ _ _ _ Hnd Hi Hk).
Qed.

(** C5: A successful cancellation of a queued receive removes it from the queue
    (the last request takes its place) and marks it canceled; its callback is
    not called. *)
Theorem cancel_removes s w e i w' :
  reachable s w → m_queue (m_recv_reqs (backend w)) !! i = Some e →
  cancel_recv e w = (Ret true, w') →
  m_queue (m_recv_reqs (backend w')) = swap_remove i (m_queue (m_recv_reqs (backend w))) ∧
  (e ∉ m_queue (m_recv_reqs (backend w'))) ∧
  canceled w' = canceled w ++ [e] ∧ invoked w' = invoked w ∧ calls w `prefix_of` calls w'.
Proof.
  intros HI%reachable_inv Hi E.
  destruct (cancel_inv [] [] RecvQ i e w HI Hi) as ([] & w2 & E2 & Hc); unfold cancel_recv in E;
    rewrite E in E2; [injection E2 as <-|done].
  destruct Hc as (HI' & HS & Hcan & Hinv & HQ). cbn in HQ.
  split_and!; [done| |done|done|apply HS].
  rewrite HQ. pose proof (swap_remove_perm i _ e Hi) as HP.
  pose proof (queue_nodup _ _ _ RecvQ HI) as Hnd. cbn in Hnd. rewrite HP in Hnd.
  by apply NoDup_cons in Hnd as [? _].
Qed.

(** ** Limits of the implementation *)

(** If MPI refuses to cancel the only queued receive (because it has completed),
    the receive stays queued without a handle, and the next [progress] writes
    to [indices[MPI_UNDEFINED]], outside the array. *)
Theorem failed_cancel_undefined s w e w' :
  (∀ rs m, Forall (λ r, r = None) rs → (MPI_Testsome rs m).1 = Some None) →
  reachable s w → m_queue (m_recv_reqs (backend w)) = [e] → in_progress (m_recv_reqs (backend w)) = false →
  cancel_recv e w = (Ret false, w') →
  ∃ w'', progress call RecvQ w' = (Halt undefined_behaviour, w'').
Proof.
  intros Hnull HI%reachable_inv Eq Ef E. assert (m_queue (get_q RecvQ (backend w)) !! 0 = Some e) as Hi
    by (cbn; by rewrite Eq).
  destruct (cancel_inv [] [] RecvQ 0 e w HI Hi) as ([] & w2 & E2 & Hc); unfold cancel_recv in E;
    rewrite E in E2; [done|injection E2 as <-].
  destruct Hc as (HSR & HS & HQ & Hh & Hpres).
  pose proof (Hnull (handle w' <$> [e]) (mpi (backend w'))) as Hu.
  destruct (MPI_Testsome (handle w' <$> [e]) (mpi (backend w'))) as [r m] eqn:Et. cbn in Hu.
  destruct (get_q RecvQ (backend w')) as [Q' R' f'] eqn:Eq'.
  assert (Q' = [e] ∧ f' = false) as [-> ->].
  { pose proof (st_flag _ _ HS RecvQ) as Hf. rewrite Eq' in Hf. cbn in Hf. rewrite Ef in Hf.
    split; [|done]. pose proof (Hpres RecvQ) as Hp. rewrite Eq' in Hp. cbn in Hp.
    by rewrite <- Eq, <- Hp. }
  eexists. rewrite (progress_run call RecvQ w' [e] R' r m); [|done..| |done].
  - rewrite Hu; [done|]. constructor; [done|constructor].
  - intros l ->%list_elem_of_singleton. unfold handle in Hh.
    destruct (inv_index _ _ _ HI RecvQ 0 e Hi) as (st & Hl & _).
    destruct (same_requests_lookup _ _ _ _ HSR Hl) as (st' & Hl' & _). by eexists.
Qed.

End api.

Section limits.
Context `{Mpi} {CB : Type} (call : CB → Z → Z → M (world CB mpi_ext mpi_backend) unit).
Implicit Types w : world CB mpi_ext mpi_backend.

(** No call of [progress] does anything any more. *)
Definition blocked (q : qid) w : Prop := progress call q w = (Ret 0, w).

(** An error of MPI leaves [in_progress] set: [progress] throws, and from then
    on the queue is never progressed again. *)
Theorem failed_testsome_blocks q w Q R m :
  get_q q (backend w) = RequestQueue Q R false → Q ≠ [] → (∀ l, l ∈ Q → is_Some (reqs w !! l)) →
  MPI_Testsome (handle w <$> Q) (mpi (backend w)) = (None, m) →
  ∃ w', progress call q w = (Throw (runtime_error "MPI Call failed"), w') ∧
        m_queue (get_q q (backend w')) = Q ∧
        blocked q w'.
Proof.
  intros Eq Hne HQ Et. eexists. split; [by apply (progress_run call q w Q R None m)|].
  split; [cbn; by rewrite get_set_q|].
  unfold blocked, progress. by rewrite (bnd_ret _ _ _ _ _ (queue_with_queue _ _ _ _)).
Qed.
End limits.
