(* ===== verification/MpiWait.v ===== *)
(** * Requests and waiting, on the MPI backend

    Model of src/src/request.cpp for the MPI backend and of
    [communicator::wait_all]: [test], [wait] and [cancel] of the request
    handles.  The waiting loops take the number of rounds as fuel; they are
    shown to end within a bound that depends on how long MPI takes. *)
From S2P Require Import Prelude Request MpiQueue MpiCompact MpiInv MpiOps MpiCancel MpiApi.

Section requests.
Context `{Mpi} {CB : Type}.
Abbreviation W := (world CB mpi_ext mpi_backend).
Implicit Types w : W.
Variable call : CB → Z → Z → M W unit.

(** [send_request], [recv_request], [shared_recv_request]: a pointer to the
    request state, null for an operation that completed at once. *)
Definition request : Type := option positive.

Definition request_is_ready (m : request) : M W bool :=
  match m with None => ret true | Some l => is_ready l end.

Definition request_is_canceled (m : request) : M W bool :=
  match m with None => ret true | Some l => is_canceled l end.

(** [test()]; [prog] is the [progress] of the request state: that of the
    communicator, or that of the context for shared receives. *)
Definition request_test (prog : M W unit) (m : request) : M W bool :=
  match m with
  | None => ret true
  | Some l =>
      let! r := is_ready l in
      if r : bool then ret true else prog ;;; is_ready l
  end.

(** [while (!m->is_ready()) m->progress();] *)
Fixpoint request_wait (prog : M W unit) (fuel : nat) (m : request) : M W unit :=
  match m with
  | None => ret tt
  | Some l =>
      let! r := is_ready l in
      if r : bool then ret tt
      else match fuel with
           | O => stop out_of_fuel
           | S fuel => prog ;;; request_wait prog fuel m
           end
  end.

Definition recv_request_cancel (m : request) : M W bool :=
  match m with
  | None => ret false
  | Some l =>
      let! r := is_ready l in
      if r : bool then ret false else cancel_recv l
  end.

Definition shared_recv_request_cancel (m : request) : M W bool :=
  match m with
  | None => ret false
  | Some l =>
      let! r := is_ready l in
      if r : bool then ret false else sh_cancel l
  end.

(** [while (!is_ready()) { progress(); }] *)
Fixpoint wait_all (fuel : nat) : M W unit :=
  let! w := get in
  if comm_is_ready w then ret tt
  else match fuel with
       | O => stop out_of_fuel
       | S fuel => comm_progress call ;;; wait_all fuel
       end.
End requests.

(** ** What the handles report *)

Section reports.
Context `{Mpi} {CB : Type}.
Abbreviation W := (world CB mpi_ext mpi_backend).
Implicit Types w : W.
Context {recursion_depth : Z}.
Abbreviation inv := (inv recursion_depth).

Lemma ready_iff w l st :
  inv [] [] w → reqs w !! l = Some st → m_ready st = true ↔ l ∉ queued w.
Proof.
  intros HI Hl. pose proof (bi_live _ _ (inv_base _ _ _ HI) l st Hl) as Hlive.
  rewrite (inv_self _ _ _ HI l : l ∈ queued w ↔ _).
  destruct (m_ready st).
  - split; [|done]. intros _ (st' & ? & ?). destruct Hlive. congruence.
  - split; [done|]. intros Hn. destruct Hlive as [Hs|?]; [|set_solver]. destruct Hn. eauto.
Qed.

Lemma is_ready_run w l st : reqs w !! l = Some st → is_ready l w = (Ret (m_ready st), w).
Proof. intros Hl. unfold is_ready. by rewrite (bnd_ret _ _ _ _ _ (get_req_ok _ _ _ Hl)). Qed.

Context `{!MpiLaws}.
Variable call : CB → Z → Z → M W unit.
Hypothesis Hrd : (0 ≤ recursion_depth < 2 ^ 64 - 1)%Z.
Hypothesis Hcall : ∀ cb, well_behaved recursion_depth call cb.

(** [test()] tells the truth: on a request that is not queued any more it
    returns [true] without doing anything; otherwise it makes one round of
    progress and, if the caller's handle has survived the callbacks, returns
    whether the request has left the queues. *)
Theorem request_test_reports s w l st :
  reachable call recursion_depth s w → reqs w !! l = Some st →
  (l ∉ queued w → request_test (comm_progress call) (Some l) w = (Ret true, w)) ∧
  (l ∈ queued w → ∃ w', comm_progress call w = (Ret tt, w') ∧
     (is_Some (reqs w' !! l) →
      request_test (comm_progress call) (Some l) w = (Ret (bool_decide (l ∉ queued w')), w'))).
Proof.
  intros HI%reachable_inv Hl; [|done..]. unfold request_test.
  rewrite (bnd_ret _ _ _ _ _ (is_ready_run _ _ _ Hl)). split.
  - intros Hn. by rewrite (proj2 (ready_iff w l st HI Hl) Hn).
  - intros Hin. destruct (comm_progress_inv call Hcall [] [] w HI) as (w' & E & HI' & _).
    exists w'. split; [done|]. intros [st' Hl'].
    assert (m_ready st = false) as ->.
    { apply not_true_is_false. intros Hr%(ready_iff w l st HI Hl). done. }
    rewrite (bnd_ret _ _ _ _ _ E), (is_ready_run _ _ _ Hl'). do 2 f_equal.
    apply eq_bool_prop_intro. rewrite bool_decide_spec.
    pose proof (ready_iff w' l st' HI' Hl') as Hr. destruct (m_ready st'); cbn; naive_solver.
Qed.
End reports.

(** ** Waiting ends *)

(** MPI makes progress: there is a bound [delay] on the number of calls that
    can find nothing complete before something does. *)
Class MpiLive `{Mpi} (delay : mpi_st → nat) : Prop := {
  live_testsome rs s idx s' :
    MPI_Testsome rs s = (Some (Some idx), s') →
    match idx with [] => delay s' < delay s | _ => delay s' ≤ delay s end;
  live_test h s b s' :
    MPI_Test (Some h) s = (Some b, s') →
    if b : bool then delay s' ≤ delay s else delay s' < delay s
}.

Section liveness.
Context `{Mpi} {CB : Type} `{!MpiLaws} (delay : mpi_st → nat) `{!MpiLive delay}.
Abbreviation W := (world CB mpi_ext mpi_backend).
Implicit Types w : W.
Context {recursion_depth : Z}.
Abbreviation inv := (inv recursion_depth).
Variable call : CB → Z → Z → M W unit.

(** Callbacks that do not use the library (and whose effects are elsewhere). *)
Hypothesis Hquiet : ∀ cb r t w, call cb r t w = (Ret tt, w).

Lemma quiet_well_behaved cb : well_behaved recursion_depth call cb.
Proof. intros r t exec pend w HI. exists w. by rewrite Hquiet. Qed.

(** The caller has a handle to the request. *)
Definition held (l : positive) w : Prop :=
  ∃ st, reqs w !! l = Some st ∧ (if m_self_ptr st then 1 else 0) < m_refs st.

Lemma complete_then_quiet pend l w (k : M W unit) :
  inv [] (l :: pend) w →
  (∀ w, ∃ b, k w = (Ret tt, set_backend b w) ∧ keeps (backend w) b) →
  ∃ w' w2, with_self_ref l (invoke_cb call l ;;; k) w = (Ret tt, w') ∧ inv [] pend w' ∧
        backend w2 = backend w ∧ backend w' = backend (k w2).2 ∧
        (∀ x, held x w → held x w').
Proof.
  intros HI Hk. destruct (complete_then_inv call quiet_well_behaved [] pend l w k HI Hk) as (w' & E & HI' & _).
  destruct (proj1 (inv_self _ _ _ HI l)) as (st & Hl & Hs); [set_solver|].
  destruct (complete_then_ok call [] w l st (start_callback l st w) k) as
    (w3 & E3 & HB & (st2 & Eb) & _ & _ & _ & _ & Ho & Hl3 & Hheld);
    [apply HI|done|done|apply Hquiet|apply start_callback_ok; [apply HI|done|done]|..].
  { intros w0. destruct (Hk w0) as (b & E0 & _). exists b. by rewrite E0. }
  assert (w' = w3) as -> by congruence.
  exists w3, (end_callback l st2 (start_callback l st w)). split_and!; try done.
  intros x (stx & Hx & Hr). destruct (decide (x = l)) as [->|Hn].
  - rewrite Hl in Hx. injection Hx as <-. rewrite Hs in Hr.
    destruct (Hheld (set_self false (m_refs st) st)) as [st3 Hst3]; [cbn; by rewrite lookup_insert_eq|done|].
    exists st3. split; [done|]. destruct (Hl3 st3 Hst3) as [-> _]. by apply (bi_refs _ _ HB l).
  - exists stx. rewrite Ho by done. cbn. by rewrite lookup_insert_ne.
Qed.

Lemma complete_all_quiet pend R w :
  inv [] (R ++ pend) w →
  ∃ w', mfor R (complete call) w = (Ret tt, w') ∧ inv [] pend w' ∧ backend w' = backend w ∧
        (∀ x, held x w → held x w').
Proof.
  revert w. induction R as [|l R IH]; intros w HI; cbn [mfor].
  { by exists w. }
  destruct (complete_then_quiet (R ++ pend) l w (ret tt) HI) as (w1 & w2 & E1 & HI1 & Eb & Eb1 & Hh1).
  { intros w0. exists (backend w0). split; [by destruct w0|done]. }
  assert (complete call l w = (Ret tt, w1)) as E1'.
  { rewrite <- E1. unfold complete, with_self_ref. by rewrite (bnd_ext _ _ _ w (λ _, scoped_ret_unit _ _)). }
  destruct (IH w1 HI1) as (w' & E & HI' & Eb' & Hh'). exists w'. rewrite (bnd_ret _ _ _ _ _ E1').
  split_and!; [done..| |auto]. rewrite Eb', Eb1. cbn. done.
Qed.

(** The measure of waiting. *)
Definition remaining w : nat := length (queued w) + delay (mpi (backend w)).

Lemma kept_lt {A} idx j i (l : list A) :
  j ∈ idx → i ≤ j < i + length l → length (kept idx i l) < length l.
Proof.
  intros Hj. revert i. induction l as [|x l IH]; intros i Hr; cbn in *; [lia|].
  rewrite length_app. case_decide as Hi; cbn.
  - pose proof (picked_kept_length idx (S i) l). lia.
  - assert (j ≠ i) by congruence. specialize (IH (S i)). lia.
Qed.

Lemma kept_nil {A} i (l : list A) : kept [] i l = l.
Proof.
  revert i. induction l as [|x l IH]; intros i; cbn; [done|].
  rewrite decide_False by set_solver. cbn. by rewrite IH.
Qed.

Lemma handles_active pend q w Q R f :
  inv [] pend w → get_q q (backend w) = RequestQueue Q R f →
  ∀ l, l ∈ Q → is_Some (reqs w !! l) ∧ is_Some (handle w l).
Proof.
  intros HI Eq l [i Hi]%list_elem_of_lookup_1.
  destruct (inv_index _ _ _ HI q i l) as (st & Hl & _); [by rewrite Eq|].
  split; [by eexists|]. apply (queued_handle _ _ _ _ HI). apply (elem_of_queued q i). by rewrite Eq.
Qed.

(** The queues after a round of [progress]. *)
Lemma remaining_set_q q rq s w w' :
  backend w' = set_q q rq (set_mpi s (backend w)) →
  remaining w' + length (m_queue (get_q q (backend w))) + delay (mpi (backend w)) =
  remaining w + length (m_queue rq) + delay s.
Proof.
  intros E. unfold remaining, queued. rewrite !length_app, E, set_q_mpi.
  destruct q; cbn; lia.
Qed.

Lemma progress_quiet q w :
  inv [] [] w → in_progress (get_q q (backend w)) = false →
  ∃ n w', progress call q w = (Ret n, w') ∧ inv [] [] w' ∧ stable w w' ∧
    (∀ x, held x w → held x w') ∧ remaining w' ≤ remaining w ∧
    (if decide (m_queue (get_q q (backend w)) = []) then w' = w else remaining w' < remaining w).
Proof.
  intros HI Ef. destruct (progress_inv call quiet_well_behaved [] [] q w HI) as (n & w' & E & HI' & HS).
  exists n, w'. do 3 (split; [done|]).
  destruct (get_q q (backend w)) as [Q R f] eqn:Eq. cbn in Ef. subst f. cbn [m_queue].
  destruct (decide (Q = [])) as [->|Hne].
  { rewrite (progress_empty call q w R Eq) in E. by injection E as <- <-. }
  pose proof (handles_active [] q w Q R false HI Eq) as HQ.
  destruct (testsome_fatal (handle w <$> Q) (mpi (backend w))) as [o Et].
  destruct (MPI_Testsome _ _) as [r s] eqn:Er. cbn in Et. subst r.
  pose proof (progress_run call q w Q R (Some o) s Eq Hne (λ l Hl, proj1 (HQ l Hl)) Er) as Erun.
  set (w0 := set_backend (set_mpi s (backend w)) w) in *.
  destruct o as [idx|].
  2:{ rewrite Erun in E. done. }
  pose proof (live_testsome _ _ _ _ Er) as Hlive.
  destruct idx as [|j idx].
  - rewrite Erun in E. injection E as <- <-. split; [done|].
    pose proof (remaining_set_q q (RequestQueue Q [] false) s w
      (with_queue q (RequestQueue Q [] false) (reqs w) w0) eq_refl) as Hlen.
    rewrite Eq in Hlen. cbn [m_queue] in Hlen. lia.
  - destruct (compact_run call [] [] q w Q R (j :: idx) s HI Eq) as (m & HIc & HR & Ec).
    set (hits := increasing 0 (length Q) (j :: idx)) in *.
    destruct (complete_all_quiet [] _ _ HIc) as (w2 & E2 & _ & Eb2 & Hh2).
    fold w0 in Erun, Ec, E2. rewrite Erun, Ec, (bnd_ret _ _ _ _ _ E2) in E.
    rewrite (bnd_ret _ _ _ _ _ (put_in_progress_any _ _ _)) in E. injection E as <- <-.
    split.
    { intros x (st & Hx & Hr). apply Hh2. clear Hh2.
      destruct (reindexed_lookup _ _ _ x HR) as [Ex|(p & st0 & Ex & Ex')].
      - exists st. cbn. by rewrite Ex.
      - exists (set_index p st0). rewrite Hx in Ex. injection Ex as <-. done. }
    assert (length (kept hits 0 Q) < length Q) as Hlt.
    { destruct (testsome_active _ _ _ _ j Er) as [h Hh]; [set_solver|].
      apply lookup_lt_Some in Hh. rewrite length_fmap in Hh.
      apply (kept_lt _ j); [|lia]. unfold hits. cbn. rewrite decide_True by lia. set_solver. }
    set (wf := with_queue q _ (reqs w2) w2).
    assert (backend wf = set_q q (RequestQueue (kept hits 0 Q) (picked hits 0 Q) false)
              (set_mpi s (backend w))) as Ewf.
    { unfold wf. cbn [backend with_queue set_backend]. rewrite Eb2. cbn [backend with_queue set_backend].
      by rewrite get_set_q, set_set_q. }
    pose proof (remaining_set_q q _ s w wf Ewf) as Hlen. rewrite Eq in Hlen. cbn [m_queue] in Hlen.
    lia.
Qed.

Lemma req_is_ready_quiet e st h w :
  reqs w !! e = Some st → m_req (m_ext st) = Some h →
  ∃ r w', req_is_ready e w = (Ret r, w') ∧ (∀ x, held x w → held x w') ∧
    backend w' = set_mpi (mpi (backend w')) (backend w) ∧
    (if r : bool then delay (mpi (backend w')) ≤ delay (mpi (backend w))
     else delay (mpi (backend w')) < delay (mpi (backend w))).
Proof.
  intros He Hh. unfold req_is_ready. rewrite (bnd_ret _ _ _ _ _ (get_req_ok _ _ _ He)), Hh.
  destruct (check_mpi_ok (MPI_Test (Some h)) w) as (r & s & Et & E); [apply test_fatal|].
  rewrite (bnd_ret _ _ _ _ _ E). pose proof (live_test _ _ _ _ Et) as Hlive.
  set (w1 := set_backend _ w) in *. destruct r.
  - exists true, (set_reqs (insert e (set_handle None st)) w1). split.
    { unfold bnd, get_req, put_req, modify, ret. cbn. by rewrite He. }
    split_and!; [|done..]. intros x (stx & Hx & Hr). destruct (decide (x = e)) as [->|Hn].
    + rewrite He in Hx. injection Hx as <-. exists (set_handle None st). cbn. by rewrite lookup_insert_eq.
    + exists stx. cbn. by rewrite lookup_insert_ne.
  - by exists false, w1.
Qed.

(** The loop over the shared receives: either it finds one, or every one of
    them has been tested in vain. *)
Lemma pop_until_ready_quiet pend n L w :
  length (sh_queue (m_req_queue (backend w))) ≤ n →
  inv [] (L ++ pend) w →
  ∃ r L' w', pop_until_ready n L w = (Ret (r, L'), w') ∧
    (∀ x, held x w → held x w') ∧
    (∀ q, get_q q (backend w') = get_q q (backend w)) ∧
    length (option_list r) + length L' + length (sh_queue (m_req_queue (backend w'))) =
      length L + length (sh_queue (m_req_queue (backend w))) ∧
    delay (mpi (backend w')) ≤ delay (mpi (backend w)) ∧
    (r = None → sh_queue (m_req_queue (backend w)) ≠ [] →
       delay (mpi (backend w')) < delay (mpi (backend w))).
Proof.
  revert L w. induction n as [|n IH]; intros L w Hn HI.
  { apply Nat.le_0_r, nil_length_inv in Hn. exists None, L, w. split; [|by rewrite Hn].
    cbn. unfold bnd, gets. by rewrite Hn. }
  cbn [pop_until_ready]. unfold bnd at 1, gets at 1.
  destruct (sh_queue (m_req_queue (backend w))) as [|e rest] eqn:Eq.
  { exists None, L, w. split; [done|]. by rewrite Eq. }
  set (sq := m_req_queue (backend w)) in *.
  set (w1 := with_shared rest (sh_size sq) (sh_in_progress sq) w).
  assert (put_shared (SharedRequestQueue rest (sh_size sq) (sh_in_progress sq)) w = (Ret tt, w1)) as E1
    by done. rewrite (bnd_ret _ _ _ _ _ E1).
  assert (∀ x, x ∈ e :: rest → is_Some (handle w x)) as Hhe.
  { intros x Hx. apply (queued_handle _ _ _ _ HI). unfold queued. fold sq. rewrite Eq. set_solver. }
  assert (inv [] ((L ++ [e]) ++ pend) w1) as HI1.
  { apply (inv_with_shared [] (L ++ pend)); [done|fold sq; rewrite Eq; solve_Permutation|].
    intros x Hx. apply Hhe. set_solver. }
  destruct (Hhe e) as [h Hh]; [set_solver|]. unfold handle in Hh.
  destruct (reqs w !! e) as [st|] eqn:He; [|done].
  destruct (req_is_ready_quiet e st h w1 He Hh) as (r & w2 & E2 & Hh2 & Eb2 & Hd2).
  destruct (req_is_ready_inv _ _ e _ HI1) as (r' & w2' & E2' & HI2 & _); [set_solver|].
  rewrite E2 in E2'. injection E2' as <- <-.
  rewrite (bnd_ret _ _ _ _ _ E2).
  assert (sh_queue (m_req_queue (backend w2)) = rest) as Eq2 by (rewrite Eb2; done).
  assert (∀ q, get_q q (backend w2) = get_q q (backend w)) as EQ2 by (intros []; rewrite Eb2; done).
  destruct r.
  - exists (Some e), L, w2. rewrite Eq2. split_and!; try done. cbn. lia.
  - destruct (IH (L ++ [e]) w2) as (r & L' & w' & E & Hh' & EQ & Hlen & Hd & _); [|done|].
    { rewrite Eq2. cbn in Hn. lia. }
    exists r, L', w'. rewrite Eq2, length_app in Hlen. cbn in Hlen, Hd2.
    split_and!; [done|auto|intros q; by rewrite EQ|cbn; lia|lia|lia].
Qed.

Lemma sh_progress_quiet w :
  inv [] [] w → sh_in_progress (m_req_queue (backend w)) = false →
  ∃ n w', sh_progress call w = (Ret n, w') ∧ inv [] [] w' ∧ stable w w' ∧
    (∀ x, held x w → held x w') ∧ remaining w' ≤ remaining w ∧
    (sh_queue (m_req_queue (backend w)) ≠ [] → remaining w' < remaining w).
Proof.
  intros HI Ef. destruct (sh_progress_inv call quiet_well_behaved [] [] w HI) as (n & w' & E & HI' & HS).
  exists n, w'. do 3 (split; [done|]). set (sq := m_req_queue (backend w)) in *.
  unfold sh_progress, gets, bnd at 1 in E. fold sq in E. rewrite Ef in E.
  set (w1 := with_shared (sh_queue sq) (sh_size sq) true w).
  assert (sh_set_in_progress true w = (Ret tt, w1)) as E1 by done.
  rewrite (bnd_ret _ _ _ _ _ E1) in E.
  assert (inv [] ([] ++ []) w1) as HI1.
  { apply (inv_with_shared [] []); [done..|]. intros x Hx. apply (queued_handle _ _ _ _ HI).
    unfold queued. fold sq. set_solver. }
  destruct (pop_until_ready_quiet [] (length (sh_queue sq)) [] w1) as
    (r & L & w2 & E2 & Hh2 & EQ2 & Hlen2 & Hd2 & Hd2'); [done..|].
  destruct (pop_until_ready_inv (recursion_depth := recursion_depth) [] [] (length (sh_queue sq)) [] w1) as
    (r' & L' & w2' & E2' & HI2 & HS2 & HL2); [done..|set_solver|].
  rewrite E2 in E2'. injection E2' as <- <- <-.
  rewrite (bnd_ret _ _ _ _ _ E2) in E. cbn [fst snd] in E.
  rewrite (Permutation_app_swap_app (option_list r)) in HI2.
  destruct (sh_push_all_inv [] (option_list r ++ []) L w2 HI2 HL2) as (w3 & E3 & HI3 & _).
  rewrite (bnd_ret _ _ _ _ _ E3) in E. rewrite sh_push_all_run in E3. injection E3 as E3.
  assert (∃ w4, match r with
     | Some e => with_self_ref e (invoke_cb call e ;;; sh_dec_size)
     | None => ret tt end w3 = (Ret tt, w4) ∧ (∀ x, held x w3 → held x w4) ∧
     (∀ q, get_q q (backend w4) = get_q q (backend w3)) ∧ mpi (backend w4) = mpi (backend w3) ∧
     sh_queue (m_req_queue (backend w4)) = sh_queue (m_req_queue (backend w3)))
    as (w4 & E4 & Hh4 & EQ4 & Em4 & Es4).
  { destruct r as [e|]; [|by exists w3].
    destruct (complete_then_quiet [] e w3 sh_dec_size HI3) as (w4 & w5 & E4 & _ & Eb5 & Eb4 & Hh4).
    - intros w0. set (q0 := m_req_queue (backend w0)).
      exists (set_shared (SharedRequestQueue (sh_queue q0) (u64 (sh_size q0 - 1)) (sh_in_progress q0))
                (backend w0)). by split.
    - exists w4. rewrite Eb4. cbn. rewrite Eb5. split_and!; [done|done|by intros []|done|done]. }
  rewrite (bnd_ret _ _ _ _ _ E4) in E. injection E as <- <-. clear HI' HS. subst w3.
  split; [intros x Hx; apply Hh4, Hh2, Hx|].
  assert (m_send_reqs (backend w4) = m_send_reqs (backend w)) as E5
    by (rewrite (EQ4 SendQ : m_send_reqs _ = m_send_reqs _); apply (EQ2 SendQ)).
  assert (m_recv_reqs (backend w4) = m_recv_reqs (backend w)) as E6
    by (rewrite (EQ4 RecvQ : m_recv_reqs _ = m_recv_reqs _); apply (EQ2 RecvQ)).
  cbn in Em4, Es4, Hlen2, Hd2, Hd2'.
  unfold remaining, queued. cbn. fold sq. rewrite E5, E6, Em4, Es4, !length_app.
  split; [lia|]. intros Hne. destruct r as [e|]; cbn in Hlen2; [lia|]. specialize (Hd2' eq_refl Hne). lia.
Qed.

Lemma comm_progress_quiet w :
  inv [] [] w → idle w →
  ∃ w', comm_progress call w = (Ret tt, w') ∧ inv [] [] w' ∧ idle w' ∧
    (∀ x, held x w → held x w') ∧ (queued w ≠ [] → remaining w' < remaining w).
Proof.
  intros HI Hid. unfold comm_progress.
  destruct (progress_quiet SendQ w HI (proj1 Hid SendQ)) as (n1 & w1 & E1 & HI1 & HS1 & Hh1 & Hr1 & Hr1').
  pose proof (idle_stable _ _ HS1 Hid) as Hid1.
  destruct (progress_quiet RecvQ w1 HI1 (proj1 Hid1 RecvQ)) as (n2 & w2 & E2 & HI2 & HS2 & Hh2 & Hr2 & Hr2').
  pose proof (idle_stable _ _ HS2 Hid1) as Hid2.
  destruct (sh_progress_quiet w2 HI2 (proj2 Hid2)) as (n3 & w3 & E3 & HI3 & HS3 & Hh3 & Hr3 & Hr3').
  exists w3. rewrite (bnd_ret _ _ _ _ _ E1), (bnd_ret _ _ _ _ _ E2), (bnd_ret _ _ _ _ _ E3).
  split_and!; [done..|by eapply idle_stable|auto|].
  intros Hne. case_decide as HS; [subst w1|lia]. case_decide as HR; [subst w2|lia].
  apply Hr3'. intros Hsh. apply Hne. unfold queued. cbn in HS, HR. by rewrite HS, HR, Hsh.
Qed.

Lemma wait_all_ok n w :
  inv [] [] w → idle w → (Z.of_nat (remaining w) < 2 ^ 64)%Z → remaining w ≤ n →
  ∃ w', wait_all call n w = (Ret tt, w') ∧ queued w' = [].
Proof.
  assert (∀ w, (Z.of_nat (remaining w) < 2 ^ 64)%Z → (Z.of_nat (length (queued w)) < 2 ^ 64)%Z) as Hq.
  { intros w0. unfold remaining. lia. }
  revert w. induction n as [|n IH]; intros w HI Hid Hsz Hn.
  - unfold remaining in Hn. assert (queued w = []) as He by (apply nil_length_inv; lia).
    exists w. split; [|done]. cbn. unfold bnd, get.
    by rewrite (proj2 (comm_is_ready_iff recursion_depth w HI (Hq w Hsz)) He).
  - cbn [wait_all]. unfold bnd at 1, get. destruct (comm_is_ready w) eqn:Er.
    { exists w. split; [done|]. apply (comm_is_ready_iff recursion_depth w HI); auto. }
    destruct (comm_progress_quiet w HI Hid) as (w1 & E1 & HI1 & Hid1 & _ & Hr1).
    assert (queued w ≠ []) as Hne.
    { intros He. rewrite (proj2 (comm_is_ready_iff recursion_depth w HI (Hq w Hsz)) He) in Er. done. }
    specialize (Hr1 Hne). rewrite (bnd_ret _ _ _ _ _ E1). apply IH; try done; lia.
Qed.

Lemma request_wait_ok n l w :
  inv [] [] w → idle w → held l w → remaining w ≤ n →
  ∃ w', request_wait (comm_progress call) n (Some l) w = (Ret tt, w') ∧ inv [] [] w' ∧
    (l ∉ queued w') ∧ held l w'.
Proof.
  revert w. induction n as [|n IH]; intros w HI Hid Hh Hn; pose proof Hh as (st & Hl & _).
  - unfold remaining in Hn. assert (queued w = []) as He by (apply nil_length_inv; lia).
    assert (l ∉ queued w) as Hnq by (rewrite He; set_solver).
    exists w. split; [|done]. cbn. rewrite (bnd_ret _ _ _ _ _ (is_ready_run _ _ _ Hl)).
    by rewrite (proj2 (ready_iff w l st HI Hl) Hnq).
  - cbn [request_wait]. rewrite (bnd_ret _ _ _ _ _ (is_ready_run _ _ _ Hl)).
    destruct (m_ready st) eqn:Er.
    { exists w. split_and!; try done. by apply (ready_iff w l st HI Hl). }
    destruct (comm_progress_quiet w HI Hid) as (w1 & E1 & HI1 & Hid1 & Hh1 & Hr1).
    assert (queued w ≠ []) as Hne.
    { intros He. assert (l ∉ queued w) as Hnq by (rewrite He; set_solver).
      rewrite (proj2 (ready_iff w l st HI Hl) Hnq) in Er. done. }
    specialize (Hr1 Hne). rewrite (bnd_ret _ _ _ _ _ E1). apply IH; auto. lia.
Qed.

Hypothesis Hrd : (0 ≤ recursion_depth < 2 ^ 64 - 1)%Z.

(** C19: [communicator::wait_all()] returns, after at most as many rounds as there
    are requests plus MPI's delay, and leaves no request behind: from every
    state a program can be in, if its callbacks do not use the library and MPI
    makes progress. *)
Theorem wait_all_returns s w :
  reachable call recursion_depth s w → (Z.of_nat (remaining w) < 2 ^ 64)%Z →
  ∃ w', wait_all call (remaining w) w = (Ret tt, w') ∧ queued w' = [].
Proof.
  intros Hr Hsz. destruct (reachable_idle call recursion_depth Hrd quiet_well_behaved s w Hr).
  by apply wait_all_ok.
Qed.

(** [wait()] on a request the caller holds returns under the same conditions,
    and then the request has been completed or canceled. *)
Theorem request_wait_returns s w l :
  reachable call recursion_depth s w → held l w →
  ∃ w', request_wait (comm_progress call) (remaining w) (Some l) w = (Ret tt, w') ∧
    (l ∈ invoked w' ∨ l ∈ canceled w').
Proof.
  intros Hr Hh. destruct (reachable_idle call recursion_depth Hrd quiet_well_behaved s w Hr) as [HI Hid].
  destruct (request_wait_ok (remaining w) l w HI Hid Hh) as (w' & E & HI' & Hnq & st & Hl & _); [done|].
  exists w'. split; [done|]. rewrite <- elem_of_app.
  destruct (bi_total _ _ (inv_base _ _ _ HI') l) as [(st' & Hl' & Hs)|?]; [|exfalso|done].
  - apply (bi_next _ _ (inv_base _ _ _ HI')). by eexists.
  - apply Hnq. apply (inv_self _ _ _ HI'). eauto.
Qed.

End liveness.
