(* ===== verification/MpiExamples.v ===== *)
(** * The MPI backend on a concrete MPI

    A small MPI that satisfies [MpiLaws] and callbacks that use the library,
    on which the theorems about the backend are applied.  Handles are numbers
    in the order of posting: an operation with an even handle is complete when
    it is first tested, one with a handle of the form 4k+1 completes in
    [MPI_Testsome], the others never do; those can be canceled. *)
From S2P Require Import Prelude Request MpiQueue MpiCompact MpiInv MpiOps MpiCancel MpiApi MpiWait.

Definition toy_completes (rs : list (option nat)) (i : nat) : bool :=
  match rs !! i with Some (Some h) => h mod 4 =? 1 | _ => false end.

Definition toy_testsome (rs : list (option nat)) : option (list nat) :=
  if decide (Forall (λ r, r = None) rs) then None
  else Some (filter (λ i, toy_completes rs i = true) (seq 0 (length rs))).

#[export] Instance toy_mpi : Mpi := {|
  mpi_st := nat;
  MPI_Status := bool;
  MPI_Isend _ _ _ _ s := (Some s, S s);
  MPI_Irecv _ _ _ _ s := (Some s, S s);
  MPI_Test r s := (Some (match r with Some h => Nat.even h | None => true end), s);
  MPI_Testsome rs s := (Some (toy_testsome rs), s);
  MPI_Cancel _ s := (Some tt, s);
  MPI_Wait r s := (Some (match r with Some h => bool_decide (h mod 4 = 3) | None => false end), s);
  MPI_Test_cancelled st s := (Some st, s)
|}.

#[export] Instance toy_laws : MpiLaws.
Proof.
  split; try (intros; by eexists).
  - cbn. unfold toy_testsome. intros rs s idx s' i. case_decide; intros [= <- <-].
    intros [Hi _]%list_elem_of_filter. unfold toy_completes in Hi.
    destruct (rs !! i) as [[h|]|]; [by eexists|done..].
  - cbn. unfold toy_testsome. intros rs s s'. by case_decide.
Qed.

Abbreviation TW := (world nat mpi_ext mpi_backend).

(** The callback [n] posts [n] receives from its peer, each from the callback
    of the previous one. *)
Fixpoint chain (n : nat) (r t : Z) : M TW unit :=
  match n with
  | O => ret tt
  | S n => recv (λ _, chain n) 20 0 8 r t n ;;; ret tt
  end.

Lemma depth_ok : (0 ≤ 20 < 2 ^ 64 - 1)%Z.
Proof. lia. Qed.

Lemma chain_well_behaved n : well_behaved 20 chain n.
Proof.
  induction n as [|n IH]; intros r t exec pend w HI; cbn [chain].
  { by exists w. }
  assert (well_behaved 20 (λ _, chain n) n) as Hn by exact IH.
  destruct (recv_inv (λ _, chain n) depth_ok exec pend w 0 8 r t n Hn HI) as
    (o & w' & E & HI' & HS & _).
  exists w'. by rewrite (bnd_ret _ _ _ _ _ E).
Qed.

Definition api := api_step chain 20.
Definition after {A} (m : M TW A) (w : TW) : TW := (m w).2.

(** Three states of a run: after a send that completes at once and whose
    callback posts a receive; after two more receives; after a round of
    progress, in which the callback of the first receive posts again. *)
Definition w1 : TW := after (send chain 20 0 8 5 7 2) (init 0).
Definition w2 : TW := after (recv chain 20 0 8 6 8 0) (after (recv chain 20 0 8 5 7 0) w1).
Definition w3 : TW := after (comm_progress chain) w2.

Example run_trace :
  queued w1 = [1%positive] ∧ queued w2 = [1%positive; 2%positive] ∧ queued w3 = [2%positive] ∧
  invoked w3 = [1%positive] ∧
  calls w3 = [(2, 5%Z, 7%Z); (0, 5%Z, 7%Z); (1, 5%Z, 7%Z); (0, 5%Z, 7%Z)].
Proof. by vm_compute. Qed.

Lemma after_eq {A} (m : M TW A) w : m w = ((m w).1, after m w).
Proof. apply surjective_pairing. Qed.

Lemma reach1 : reachable chain 20 0 w1.
Proof. unfold w1. apply rtc_once. eapply step_send. apply after_eq. Qed.
Lemma reach2 : reachable chain 20 0 w2.
Proof.
  unfold w2. eapply rtc_r; [eapply rtc_r; [exact reach1|]|]; eapply step_recv; apply after_eq.
Qed.
Lemma reach3 : reachable chain 20 0 w3.
Proof. unfold w3. eapply rtc_r; [exact reach2|]. eapply step_progress. apply after_eq. Qed.

(** ** The theorems at these states *)


Lemma callback_exactly_once_witness :
  invoked w3 = [1%positive] ∧ NoDup (queued w3 ++ invoked w3 ++ canceled w3).
Proof.
  split; [vm_compute; reflexivity|].
  apply (callback_exactly_once chain 20 depth_ok chain_well_behaved 0 w3 reach3).
Defined.


Lemma is_ready_iff_idle_witness : comm_is_ready w3 = true ↔ queued w3 = [].
Proof.
  apply (is_ready_iff_idle chain 20 depth_ok chain_well_behaved 0 w3 reach3).
  vm_compute. reflexivity.
Defined.


Lemma progress_calls_completed_witness :
  ∃ w' new, progress chain RecvQ w2 = (Ret 1, w') ∧ invoked w' = invoked w2 ++ new ∧
    [1%positive] `sublist_of` new.
Proof.
  destruct (progress_calls_completed chain 20 depth_ok chain_well_behaved 0 w2 RecvQ
    [1%positive; 2%positive] [] [0] 4 reach2) as (w' & new & E & Hn & Hs & _).
  - vm_compute. reflexivity.
  - discriminate.
  - vm_compute. reflexivity.
  - repeat constructor.
  - exists w', new. split; [exact E|]. split; [exact Hn|exact Hs].
Defined.

Lemma cancel_removes_witness :
  ∃ w', cancel_recv 2 w2 = (Ret true, w') ∧ m_queue (m_recv_reqs (backend w')) = [1%positive].
Proof.
  exists (after (cancel_recv 2) w2). split; [vm_compute; reflexivity|].
  apply (cancel_removes chain 20 depth_ok chain_well_behaved 0 w2 2 1 _ reach2); vm_compute; reflexivity.
Defined.

Lemma failed_cancel_undefined_witness :
  cancel_recv 1 w1 = (Ret false, after (cancel_recv 1) w1) ∧
  ∃ w', progress chain RecvQ (after (cancel_recv 1) w1) = (Halt undefined_behaviour, w').
Proof.
  split; [vm_compute; reflexivity|].
  apply (failed_cancel_undefined chain 20 depth_ok chain_well_behaved 0 w1 1); [|exact reach1|..];
    [|vm_compute; reflexivity..].
  intros rs m Hf. cbn. unfold toy_testsome. by rewrite decide_True.
Defined.

(** Without the order of the positions, the loop loses a completion: here
    both requests have completed, reported as positions 1 and 0, and the first
    one stays in the queue. *)
Example compact_needs_order :
  let w' := after (compact RecvQ ([1; 0] ++ [2]) 2 0 0 0) (after (put_ready RecvQ []) w2) in
  m_ready_queue (m_recv_reqs (backend w')) = [2%positive] ∧
  m_queue (m_recv_reqs (backend w')) = [1%positive; 2%positive].
Proof. by vm_compute. Qed.

(** ** Waiting *)

(** An MPI in which nothing completes during the first calls, then everything:
    the state is the next handle and the number of calls in vain to come. *)
#[local] Instance slow_mpi : Mpi := {|
  mpi_st := nat * nat;
  MPI_Status := bool;
  MPI_Isend _ _ _ _ s := (Some s.1, (S s.1, s.2));
  MPI_Irecv _ _ _ _ s := (Some s.1, (S s.1, s.2));
  MPI_Test _ s := match s.2 with O => (Some true, s) | S n => (Some false, (s.1, n)) end;
  MPI_Testsome rs s :=
    if decide (Forall (λ r, r = None) rs) then (Some None, s)
    else match s.2 with
         | O => (Some (Some (filter (λ i, (match rs !! i with Some (Some _) => true | _ => false end) = true)
                                    (seq 0 (length rs)))), s)
         | S n => (Some (Some []), (s.1, n))
         end;
  MPI_Cancel _ s := (Some tt, s);
  MPI_Wait _ s := (Some true, s);
  MPI_Test_cancelled st s := (Some st, s)
|}.

#[local] Instance slow_laws : @MpiLaws slow_mpi.
Proof.
  split; try (intros; by eexists).
  - intros rs s idx s' i. cbn. case_decide; [done|]. destruct s.2; intros [= <- <-].
    + intros [Hi _]%list_elem_of_filter. destruct (rs !! i) as [[h|]|]; [by eexists|done..].
    + set_solver.
  - intros rs s s'. cbn. case_decide; [done|]. by destruct s.2.
  - intros r s. cbn. destruct s.2; by eexists.
  - intros rs s. cbn. case_decide; [by eexists|]. destruct s.2; by eexists.
Qed.

#[local] Instance slow_live : @MpiLive slow_mpi snd.
Proof.
  split.
  - intros rs s idx s'. cbn. case_decide as Hf; [done|]. destruct s.2 as [|n] eqn:E; intros [= <- <-].
    + rewrite E. destruct (filter _ _) eqn:Ef; [exfalso|lia]. apply Hf, Forall_lookup. intros i r Hi.
      destruct r as [h|]; [exfalso|done]. eapply (not_elem_of_nil i). rewrite <- Ef.
      apply list_elem_of_filter. rewrite Hi. split; [done|]. apply elem_of_seq.
      apply lookup_lt_Some in Hi. lia.
    + cbn. lia.
  - intros h s b s'. cbn. destruct s.2 as [|n] eqn:E; intros [= <- <-]; cbn; lia.
Qed.

Abbreviation SW := (world nat mpi_ext (@mpi_backend slow_mpi)).
Definition quiet (n : nat) (r t : Z) : M SW unit := ret tt.
Definition v0 : SW := init (H := slow_mpi) (0, 3).
Definition v1 : SW := (send (H := slow_mpi) quiet 20 0 8 1 1 0 v0).2.
Definition v2 : SW := (recv (H := slow_mpi) quiet 20 0 8 1 1 0 v1).2.
Definition v3 : SW := (shared_recv (H := slow_mpi) quiet 20 0 8 1 1 0 v2).2.

Lemma reach_v3 : reachable (H := slow_mpi) quiet 20 (0, 3) v3.
Proof.
  unfold v3, v2, v1, v0. eapply rtc_r; [eapply rtc_r; [apply rtc_once|]|].
  - eapply step_send. apply surjective_pairing.
  - eapply step_recv. apply surjective_pairing.
  - eapply step_shared_recv. apply surjective_pairing.
Qed.

Example waiting_before : queued (H := slow_mpi) v3 = [1%positive; 2%positive; 3%positive] ∧
  remaining (H := slow_mpi) snd v3 = 3.
Proof. split; vm_compute; reflexivity. Qed.

Lemma wait_all_returns_witness :
  ∃ w', wait_all (H := slow_mpi) quiet (remaining (H := slow_mpi) snd v3) v3 = (Ret tt, w') ∧
    queued (H := slow_mpi) w' = [].
Proof.
  apply (wait_all_returns (H := slow_mpi) snd quiet (λ _ _ _ _, eq_refl) depth_ok (0, 3) v3 reach_v3).
  vm_compute. reflexivity.
Defined.

Lemma request_wait_returns_witness :
  ∃ w', request_wait (H := slow_mpi) (comm_progress (H := slow_mpi) quiet)
          (remaining (H := slow_mpi) snd v3) (Some 2%positive) v3 = (Ret tt, w') ∧
    (2%positive ∈ invoked w' ∨ 2%positive ∈ canceled w').
Proof.
  apply (request_wait_returns (H := slow_mpi) snd quiet (λ _ _ _ _, eq_refl) depth_ok (0, 3) v3 2 reach_v3).
  eexists. split; [vm_compute; reflexivity|cbn; lia].
Defined.

Lemma request_test_reports_witness :
  ∃ w', comm_progress chain w2 = (Ret tt, w') ∧
    request_test (comm_progress chain) (Some 2%positive) w2 =
      (Ret (bool_decide (2%positive ∉ queued w')), w').
Proof.
  destruct (request_test_reports (H := toy_mpi) chain depth_ok chain_well_behaved 0 w2 2
    (default (RequestState 0 0 0 0 false false false 0 (MpiExt None 0)) (reqs w2 !! 2%positive)) reach2)
    as [_ Ht]; [vm_compute; reflexivity|].
  destruct Ht as (w' & E & Ht).
  - vm_compute. right. left.
  - exists w'. split; [exact E|]. apply Ht.
    apply (f_equal snd) in E. cbn [snd] in E. rewrite <- E. vm_compute. by eexists.
Defined.

(** ** An MPI that fails *)

Definition failing_mpi : Mpi := {|
  mpi_st := unit;
  MPI_Status := unit;
  MPI_Isend _ _ _ _ s := (Some 0, s);
  MPI_Irecv _ _ _ _ s := (Some 0, s);
  MPI_Test _ s := (Some false, s);
  MPI_Testsome _ s := (None, s);
  MPI_Cancel _ s := (None, s);
  MPI_Wait _ s := (None, s);
  MPI_Test_cancelled _ s := (None, s)
|}.

Definition failing_call (n : nat) (r t : Z) : M (world nat mpi_ext (@mpi_backend failing_mpi)) unit :=
  ret tt.
Definition failing_state : world nat mpi_ext (@mpi_backend failing_mpi) :=
  (recv (H := failing_mpi) failing_call 20 0 8 1 1 0 (init (H := failing_mpi) tt)).2.

Lemma failed_testsome_blocks_witness :
  ∃ w', progress (H := failing_mpi) failing_call RecvQ failing_state =
          (Throw (runtime_error "MPI Call failed"), w') ∧
        progress (H := failing_mpi) failing_call RecvQ w' = (Ret 0, w').
Proof.
  destruct (failed_testsome_blocks (H := failing_mpi) failing_call RecvQ failing_state [1%positive] [] tt)
    as (w' & E1 & _ & E2).
  - vm_compute. reflexivity.
  - discriminate.
  - intros l ->%list_elem_of_singleton. vm_compute. by eexists.
  - vm_compute. reflexivity.
  - exists w'. split; [exact E1|exact E2].
Defined.
