(* ===== verification/UcxModel.v ===== *)
(** * The UCX backend

    Model of src/src/ucx/communicator.hpp, context.hpp, request_state.hpp,
    request_data.hpp and of [worker_t::connect] (worker.hpp): one communicator
    with its send worker, and the context with the shared receive worker, its
    mutex and its queues, driven by one thread (the lock-free queues are plain
    queues, [push] succeeds).

    UCX itself is a parameter, the class [Ucx].  The memory of UCX requests is
    part of the model: [live] maps the requests that are allocated and not freed
    to the [request_data] in them; an access to any other request is undefined
    behaviour.  [fuel] bounds the loops [while (ucp_worker_progress(w)) {}],
    which need not terminate if callbacks keep posting. *)
From S2P Require Import Prelude Tags Request.

Inductive worker : Type := Recv_worker | Send_worker.
Inductive ucs_status : Type := UCS_OK | UCS_ERR_CANCELED | UCS_ERR_MESSAGE_TRUNCATED.

(** What the non-blocking operations return: completed at once (for a receive:
    a request that is not in progress), a request in progress, an error. *)
Inductive nb_result : Type := Nb_done | Nb_in_progress | Nb_error.

(** The first argument of the posting operations is the request memory UCX
    uses.  [ucp_worker_progress] yields the completions, whose callbacks are
    called in order, and whether it is to be called again. *)
Class Ucx : Type := {
  ucx_st : Type;
  ucp_tag_send_nb : positive → Z → Z → Z → Z → ucx_st → nb_result * ucx_st;
  ucp_tag_recv_nb : positive → Z → Z → Z → Z → ucx_st → nb_result * ucx_st;
  ucp_worker_progress : worker → ucx_st → list (positive * ucs_status) * bool * ucx_st;
  ucp_request_cancel : positive → ucx_st → ucx_st
}.

(** ** State *)

Record request_data : Type := RequestData {
  rd_req : option positive;
  rd_shared_req : option positive
}.
Definition rd_empty (d : request_data) : bool :=
  match d with RequestData None None => true | _ => false end.
(** [destroy()], also the state [request_init] leaves. *)
Definition destroyed : request_data := RequestData None None.

(** [m_ucx_ptr]; [None] is the null pointer of a send that completed at once. *)
Abbreviation ucx_ext := (option positive).

Record ucx_backend `{Ucx} : Type := UcxBackend {
  transport : ucx_st;
  live : gmap positive request_data;
  locked : bool;
  m_endpoint_cache : gset Z;
  m_send_req_queue : list positive;
  m_recv_req_queue : list positive;
  m_cancel_recv_req_queue : list positive;
  ctx_recv_req_queue : list positive;
  ctx_cancel_recv_req_queue : list positive;
  tl_found : bool;
  m_recursion_depth : Z;
  ctx_recursion_depth : Z
}.

Section ucx.
Context `{Ucx} {CB : Type}.
Abbreviation W := (world CB ucx_ext ucx_backend).
Implicit Types w : W.

(** *** Field updates *)

Definition upd_backend (f : ucx_backend → ucx_backend) : M W unit :=
  modify (λ w, set_backend (f (backend w)) w).
Definition set_transport (u : ucx_st) (b : ucx_backend) : ucx_backend :=
  UcxBackend _ u (live b) (locked b) (m_endpoint_cache b) (m_send_req_queue b)
    (m_recv_req_queue b) (m_cancel_recv_req_queue b) (ctx_recv_req_queue b)
    (ctx_cancel_recv_req_queue b) (tl_found b) (m_recursion_depth b) (ctx_recursion_depth b).
Definition set_live (L : gmap positive request_data) (b : ucx_backend) : ucx_backend :=
  UcxBackend _ (transport b) L (locked b) (m_endpoint_cache b) (m_send_req_queue b)
    (m_recv_req_queue b) (m_cancel_recv_req_queue b) (ctx_recv_req_queue b)
    (ctx_cancel_recv_req_queue b) (tl_found b) (m_recursion_depth b) (ctx_recursion_depth b).
Definition set_locked (v : bool) (b : ucx_backend) : ucx_backend :=
  UcxBackend _ (transport b) (live b) v (m_endpoint_cache b) (m_send_req_queue b)
    (m_recv_req_queue b) (m_cancel_recv_req_queue b) (ctx_recv_req_queue b)
    (ctx_cancel_recv_req_queue b) (tl_found b) (m_recursion_depth b) (ctx_recursion_depth b).
Definition set_cache (C : gset Z) (b : ucx_backend) : ucx_backend :=
  UcxBackend _ (transport b) (live b) (locked b) C (m_send_req_queue b)
    (m_recv_req_queue b) (m_cancel_recv_req_queue b) (ctx_recv_req_queue b)
    (ctx_cancel_recv_req_queue b) (tl_found b) (m_recursion_depth b) (ctx_recursion_depth b).
Definition set_found (v : bool) (b : ucx_backend) : ucx_backend :=
  UcxBackend _ (transport b) (live b) (locked b) (m_endpoint_cache b) (m_send_req_queue b)
    (m_recv_req_queue b) (m_cancel_recv_req_queue b) (ctx_recv_req_queue b)
    (ctx_cancel_recv_req_queue b) v (m_recursion_depth b) (ctx_recursion_depth b).
Definition set_depths (d cd : Z) (b : ucx_backend) : ucx_backend :=
  UcxBackend _ (transport b) (live b) (locked b) (m_endpoint_cache b) (m_send_req_queue b)
    (m_recv_req_queue b) (m_cancel_recv_req_queue b) (ctx_recv_req_queue b)
    (ctx_cancel_recv_req_queue b) (tl_found b) d cd.

(** The queues of the communicator and of the context. *)
Inductive qid : Type := SendQ | RecvQ | CancelQ | CtxRecvQ | CtxCancelQ.

Definition get_q (q : qid) (b : ucx_backend) : list positive :=
  match q with
  | SendQ => m_send_req_queue b
  | RecvQ => m_recv_req_queue b
  | CancelQ => m_cancel_recv_req_queue b
  | CtxRecvQ => ctx_recv_req_queue b
  | CtxCancelQ => ctx_cancel_recv_req_queue b
  end.
Definition set_q (q : qid) (l : list positive) (b : ucx_backend) : ucx_backend :=
  UcxBackend _ (transport b) (live b) (locked b) (m_endpoint_cache b)
    (match q with SendQ => l | _ => m_send_req_queue b end)
    (match q with RecvQ => l | _ => m_recv_req_queue b end)
    (match q with CancelQ => l | _ => m_cancel_recv_req_queue b end)
    (match q with CtxRecvQ => l | _ => ctx_recv_req_queue b end)
    (match q with CtxCancelQ => l | _ => ctx_cancel_recv_req_queue b end)
    (tl_found b) (m_recursion_depth b) (ctx_recursion_depth b).

(** [while (!queue.push(d)) {}] *)
Definition push (q : qid) (l : positive) : M W unit :=
  upd_backend (λ b, set_q q (get_q q b ++ [l]) b).

(** *** The mutex *)

(** The thread that locks a mutex it holds waits forever. *)
Definition lock : M W unit :=
  let! b := gets backend in
  if locked b then stop deadlock else upd_backend (set_locked true).
Definition unlock : M W unit := upd_backend (set_locked false).
Definition try_lock : M W bool :=
  let! b := gets backend in
  if locked b then ret false else upd_backend (set_locked true) ;;; ret true.

(** *** The memory of UCX requests *)

Definition get_data (r : positive) : M W request_data :=
  let! b := gets backend in
  match live b !! r with Some d => ret d | None => stop undefined_behaviour end.
(** [request_data::construct] and [destroy] write the data of a request. *)
Definition put_data (r : positive) (d : request_data) : M W unit :=
  get_data r ;;; upd_backend (λ b, set_live (<[r := d]> (live b)) b).
Definition ucp_request_free (r : positive) : M W unit :=
  get_data r ;;; upd_backend (λ b, set_live (delete r (live b)) b).
(** UCX takes a request from its memory pool; [request_init] has been run. *)
Definition alloc_request : M W positive :=
  let! b := gets backend in
  let r := fresh (dom (live b)) in
  upd_backend (λ b, set_live (<[r := destroyed]> (live b)) b) ;;; ret r.

Definition ucx_call {A} (f : ucx_st → A * ucx_st) : M W A := λ w,
  let '(a, u) := f (transport (backend w)) in
  (Ret a, set_backend (set_transport u (backend w)) w).

(** ** The build and the context *)

Variable call : CB → Z → Z → M W unit.
(** [OOMPH_RECURSION_DEPTH]; [m_thread_safe]; the rank of this process; the ranks in the
    address database. *)
Variable recursion_depth : Z.
Variable thread_safe : bool.
Variable rank : Z.
Variable peers : gset Z.

Definition lock_if : M W unit := if thread_safe then lock else ret tt.
Definition unlock_if : M W unit := if thread_safe then unlock else ret tt.

(** ** Completion callbacks *)

Definition send_callback (r : positive) (status : ucs_status) : M W unit :=
  let! d := get_data r in
  (match status with
   | UCS_OK =>
       match rd_req d, rd_shared_req d with
       | Some l, _ => complete call l
       | None, Some l => complete call l
       | None, None => stop undefined_behaviour
       end
   | _ => ret tt
   end) ;;;
  put_data r destroyed ;;;
  ucp_request_free r.

Definition recv_callback (r : positive) (status : ucs_status) : M W unit :=
  let! d := get_data r in
  match status with
  | UCS_OK =>
      if rd_empty d then ret tt
      else
        match rd_req d, rd_shared_req d with
        | Some l, _ =>
            put_data r destroyed ;;;
            ucp_request_free r ;;;
            if thread_safe then push RecvQ l else complete call l
        | None, Some l =>
            put_data r destroyed ;;;
            ucp_request_free r ;;;
            push CtxRecvQ l
        | None, None => stop undefined_behaviour
        end
  | UCS_ERR_CANCELED =>
      match rd_req d, rd_shared_req d with
      | Some l, _ => push CancelQ l
      | None, Some l => push CtxCancelQ l
      | None, None => stop undefined_behaviour
      end
  | _ => throw (runtime_error "oomph: ucx error - recv message truncated")
  end.

(** [ucp_worker_progress(w)], with the callbacks it calls. *)
Definition worker_progress (k : worker) : M W bool :=
  let! r := ucx_call (ucp_worker_progress k) in
  mfor r.1 (λ '(x, status), match k with
                            | Send_worker => send_callback x status
                            | Recv_worker => recv_callback x status
                            end) ;;;
  ret r.2.

(** [while (ucp_worker_progress(w)) {}] *)
Fixpoint drain (k : worker) (fuel : nat) : M W unit :=
  match fuel with
  | O => stop out_of_fuel
  | S fuel =>
      let! p := worker_progress k in
      if p : bool then drain k fuel else ret tt
  end.

(** [consume_all]: the queue is emptied element by element, including what the
    callbacks push meanwhile. *)
Fixpoint consume_all (q : qid) (fuel : nat) : M W unit :=
  let! b := gets backend in
  match get_q q b, fuel with
  | [], _ => ret tt
  | _, O => stop out_of_fuel
  | l :: rest, S fuel =>
      upd_backend (set_q q rest) ;;; complete call l ;;; consume_all q fuel
  end.

(** ** [communicator_impl::progress] *)

(** [for (i = 0; i < 10; ++i) if (m_mutex.try_lock()) ...] *)
Fixpoint locked_progress (n : nat) : M W unit :=
  match n with
  | O => ret tt
  | S n =>
      let! ok := try_lock in
      if ok : bool then
        let! p := worker_progress Recv_worker in
        unlock ;;;
        if p : bool then locked_progress n else ret tt
      else locked_progress n
  end.

Definition progress (fuel : nat) : M W unit :=
  drain Send_worker fuel ;;;
  (if thread_safe then locked_progress 10 else drain Recv_worker fuel) ;;;
  consume_all SendQ fuel ;;;
  (if thread_safe then consume_all RecvQ fuel else ret tt) ;;;
  consume_all CtxRecvQ fuel.

(** [context_impl::progress] *)
Definition ctx_progress (fuel : nat) : M W unit :=
  let! ok := try_lock in
  (if ok : bool then worker_progress Recv_worker ;;; unlock else ret tt) ;;;
  consume_all CtxRecvQ fuel.

(** ** Posting *)

Definition has_reached_recursion_depth w : bool :=
  bool_decide (recursion_depth < m_recursion_depth (backend w))%Z.
Definition ctx_has_reached_recursion_depth w : bool :=
  bool_decide (recursion_depth < ctx_recursion_depth (backend w))%Z.
(** The two operations of [increment_guard]. *)
Definition add_depth (d : Z) : M W unit :=
  upd_backend (λ b, set_depths (u64 (m_recursion_depth b + d)) (ctx_recursion_depth b) b).
Definition add_ctx_depth (d : Z) : M W unit :=
  upd_backend (λ b, set_depths (m_recursion_depth b) (u64 (ctx_recursion_depth b + d)) b).

(** [m_send_worker->connect(dst)]: endpoints are created once per rank, with the address
    [m_db.find] returns, or throws for.  (What an endpoint is made of is in UcxLifecycle.v.) *)
Definition connect (dst : Z) : M W unit :=
  let! b := gets backend in
  if decide (dst ∈ m_endpoint_cache b) then ret tt
  else if decide (dst ∈ peers) then upd_backend (λ b, set_cache ({[dst]} ∪ m_endpoint_cache b) b)
  else throw (runtime_error "Cound not find peer address in the MPI address xdatabase.").

Definition send (ptr size dst tag : Z) (cb : CB) : M W (option positive) :=
  connect dst ;;;
  let! b := gets backend in
  let r := fresh (dom (live b)) in
  let! res := ucx_call (ucp_tag_send_nb r dst ptr size (Ucx.stag rank tag)) in
  match res with
  | Nb_done =>
      let! d := gets has_reached_recursion_depth in
      if d then
        let! s := post scheduled_sends dst tag cb None in
        push SendQ s ;;; ret (Some s)
      else
        add_depth 1 ;;; scoped (call_cb call cb dst tag) (add_depth (-1)) ;;; ret None
  | Nb_in_progress =>
      alloc_request ;;;
      let! s := post scheduled_sends dst tag cb (Some r) in
      put_data r (RequestData (Some s) None) ;;; ret (Some s)
  | Nb_error => throw (runtime_error "oomph: ucx error - send operation failed")
  end.

(** The body that [recv] and [shared_recv] share; the parts they differ in are
    the arguments. *)
Definition recv_core (reached : W → bool) (inc dec : M W unit) (cell : nat) (q : qid)
    (data : positive → request_data) (ptr size src tag : Z) (cb : CB) : M W (option positive) :=
  lock_if ;;;
  let! r := alloc_request in
  let! res := ucx_call (ucp_tag_recv_nb r ptr size (Ucx.rtag src tag) (Ucx.rtag_mask src)) in
  match res with
  | Nb_done =>
      recv_callback r UCS_OK ;;;
      ucp_request_free r ;;;
      unlock_if ;;;
      let! d := gets reached in
      if d then
        let! s := post cell src tag cb (Some r) in
        push q s ;;; ret (Some s)
      else
        inc ;;; scoped (call_cb call cb src tag) dec ;;; ret None
  | Nb_in_progress =>
      let! s := post cell src tag cb (Some r) in
      put_data r (data s) ;;;
      unlock_if ;;; ret (Some s)
  | Nb_error =>
      upd_backend (λ b, set_live (delete r (live b)) b) ;;;
      throw (runtime_error "oomph: ucx error - recv operation failed")
  end.

Definition recv : Z → Z → Z → Z → CB → M W (option positive) :=
  recv_core has_reached_recursion_depth (add_depth 1) (add_depth (-1)) scheduled_recvs RecvQ
    (λ s, RequestData (Some s) None).

Definition shared_recv : Z → Z → Z → Z → CB → M W (option positive) :=
  recv_core ctx_has_reached_recursion_depth (add_ctx_depth 1) (add_ctx_depth (-1))
    scheduled_shared_recvs CtxRecvQ (λ s, RequestData None (Some s)).

(** ** Cancellation *)

(** [s->m_ucx_ptr] handed to UCX: the request must be allocated. *)
Definition request_cancel (l : positive) : M W unit :=
  let! st := get_req l in
  match m_ext st with
  | None => stop undefined_behaviour
  | Some r => get_data r ;;; ucx_call (λ u, (tt, ucp_request_cancel r u))
  end.

(** The queue of canceled receives is searched for [s]; the others are pushed
    back. *)
Definition take_canceled (q : qid) (s : positive) : M W bool :=
  let! b := gets backend in
  upd_backend (set_q q (filter (λ x, x ≠ s) (get_q q b))) ;;;
  ret (bool_decide (s ∈ get_q q b)).

(** [auto ptr = s->release_self_ref(); s->set_canceled(); ... ucp_request_free] *)
Definition finish_cancel (s : positive) : M W unit :=
  with_self_ref s (
    set_canceled s ;;;
    let! st := get_req s in
    match m_ext st with
    | None => stop undefined_behaviour
    | Some r => put_data r destroyed ;;; lock_if ;;; ucp_request_free r ;;; unlock_if
    end).

Definition cancel_recv (fuel : nat) (s : positive) : M W bool :=
  lock_if ;;;
  request_cancel s ;;;
  drain Recv_worker fuel ;;;
  unlock_if ;;;
  let! found := take_canceled CancelQ s in
  (if found : bool then finish_cancel s else ret tt) ;;;
  ret found.

(** [context_impl::cancel_recv]; [found] is a static variable of the thread. *)
Definition ctx_cancel_recv (fuel : nat) (s : positive) : M W bool :=
  lock_if ;;;
  request_cancel s ;;;
  drain Recv_worker fuel ;;;
  let! f := take_canceled CtxCancelQ s in
  (if f : bool then upd_backend (set_found true) else ret tt) ;;;
  unlock_if ;;;
  let! b := gets backend in
  (if tl_found b then finish_cancel s else ret tt) ;;;
  ret (tl_found b).

End ucx.
