(* ===== verification/UcxInv.v ===== *)
(** * The invariant of the UCX backend

    Every request that waits for completion owns itself and is found in exactly
    one place: attached to one allocated UCX request (which is in flight, or has
    been canceled and waits in a queue of canceled receives), or in one of the
    queues of completed requests.  [link] states this of the pointers in both
    directions; it does not mention worlds, so that the effect of each operation
    on it is a lemma about maps and lists.  Callbacks run between two states of
    this kind. *)
From S2P Require Import Prelude Request UcxModel.

(** ** What is assumed of UCX *)

(** What UCX documents.  [posted k u]: the requests in flight on worker [k].  A completion
    is reported once, for a request in flight; a post that completes at once, or fails,
    leaves nothing in flight.  [budget]: how often [ucp_worker_progress] can return
    non-zero if nothing is posted. *)
Class UcxLaws `{Ucx} : Type := {
  posted : worker → ucx_st → list positive;
  budget : worker → ucx_st → nat;
  send_nb_law r dst p n t u res u' :
    ucp_tag_send_nb r dst p n t u = (res, u') →
    posted Send_worker u' ≡ₚ (if res is Nb_in_progress then [r] else []) ++ posted Send_worker u ∧
    posted Recv_worker u' ≡ₚ posted Recv_worker u;
  recv_nb_law r p n t m u res u' :
    ucp_tag_recv_nb r p n t m u = (res, u') →
    posted Recv_worker u' ≡ₚ (if res is Nb_in_progress then [r] else []) ++ posted Recv_worker u ∧
    posted Send_worker u' ≡ₚ posted Send_worker u;
  progress_posted k u evs p u' :
    ucp_worker_progress k u = (evs, p, u') →
    posted k u ≡ₚ evs.*1 ++ posted k u' ∧
    (∀ k', k' ≠ k → posted k' u' ≡ₚ posted k' u);
  progress_budget k u evs p u' :
    ucp_worker_progress k u = (evs, p, u') →
    (∀ k', budget k' u' ≤ budget k' u) ∧ (p = true → budget k u' < budget k u);
  cancel_posted k r u : posted k (ucp_request_cancel r u) ≡ₚ posted k u;
  cancel_budget k r u : budget k (ucp_request_cancel r u) ≤ budget k u
}.

(** Runs in which UCX reports no error: no post fails, no send or receive completes with
    an error (a receive may be canceled), no message is too long for its buffer.  This is
    a condition on the run and not a promise of UCX; what the code does with an error is
    in the section on its limits (UcxApi.v). *)
Class UcxFaultless `{Ucx} : Prop := {
  send_nb_ok r dst p n t u : (ucp_tag_send_nb r dst p n t u).1 ≠ Nb_error;
  recv_nb_ok r p n t m u : (ucp_tag_recv_nb r p n t m u).1 ≠ Nb_error;
  progress_status k u evs p u' x :
    ucp_worker_progress k u = (evs, p, u') → x ∈ evs →
    match k with Send_worker => x.2 = UCS_OK | Recv_worker => x.2 ≠ UCS_ERR_MESSAGE_TRUNCATED end
}.

Section posting.
Context `{Ucx, !UcxLaws} {Hfault : UcxFaultless}.

Lemma send_nb_posted r dst p n t u res u' :
  ucp_tag_send_nb r dst p n t u = (res, u') →
  (res = Nb_done ∧ posted Send_worker u' ≡ₚ posted Send_worker u ∨
   res = Nb_in_progress ∧ posted Send_worker u' ≡ₚ r :: posted Send_worker u) ∧
  posted Recv_worker u' ≡ₚ posted Recv_worker u.
Proof.
  intros E. pose proof (send_nb_ok r dst p n t u) as Hok. rewrite E in Hok.
  destruct (send_nb_law _ _ _ _ _ _ _ _ E) as [HP HR]. split; [|done]. destruct res; [by left|by right|done].
Qed.

Lemma recv_nb_posted r p n t m u res u' :
  ucp_tag_recv_nb r p n t m u = (res, u') →
  (res = Nb_done ∧ posted Recv_worker u' ≡ₚ posted Recv_worker u ∨
   res = Nb_in_progress ∧ posted Recv_worker u' ≡ₚ r :: posted Recv_worker u) ∧
  posted Send_worker u' ≡ₚ posted Send_worker u.
Proof.
  intros E. pose proof (recv_nb_ok r p n t m u) as Hok. rewrite E in Hok.
  destruct (recv_nb_law _ _ _ _ _ _ _ _ E) as [HP HR]. split; [|done]. destruct res; [by left|by right|done].
Qed.
End posting.

(** ** Requests and UCX requests *)

(** The data [request_data::construct] writes for a request with counter [c]. *)
Definition data_for (c : nat) (l : positive) : request_data :=
  if decide (c = scheduled_shared_recvs) then RequestData None (Some l)
  else RequestData (Some l) None.

Lemma data_for_req c l d : d = data_for c l → rd_req d = Some l ∨ rd_req d = None ∧ rd_shared_req d = Some l.
Proof. unfold data_for. case_decide; intros ->; cbn; auto. Qed.

Lemma data_for_inj c l c' l' : data_for c l = data_for c' l' → l = l'.
Proof. unfold data_for. repeat case_decide; congruence. Qed.

(** [o]: the requests that own themselves, with [m_ucx_ptr] and counter; [L]:
    the allocated UCX requests; [pw]: the requests waiting in a queue (or just
    taken from one); [fly]: the UCX requests in flight (or just reported);
    [hold]: those whose send callback is running; [cq]: the queues of canceled
    receives. *)
Definition attached (L : gmap positive request_data) (hold : list positive) (l : positive) : Prop :=
  ∃ r c, (r ∉ hold) ∧ L !! r = Some (data_for c l).
Definition in_cancel_queue (L : gmap positive request_data) (hold cq : list positive) (r : positive) :
    Prop :=
  ∃ l c, (r ∉ hold) ∧ L !! r = Some (data_for c l) ∧ l ∈ cq.

Record link (o : positive → option (ucx_ext * nat)) (L : gmap positive request_data)
    (pw fly hold cq : list positive) : Prop := {
  lk_nodup : NoDup pw;
  lk_own l : is_Some (o l) ↔ l ∈ pw ∨ attached L hold l;
  lk_apart l : l ∈ pw → ¬ attached L hold l;
  lk_data r d : L !! r = Some d → r ∉ hold →
    ∃ l c, d = data_for c l ∧ o l = Some (Some r, c);
  lk_fly : NoDup (fly ++ hold);
  lk_where r : is_Some (L !! r) ↔ r ∈ fly ++ hold ∨ in_cancel_queue L hold cq r;
  lk_sep r : in_cancel_queue L hold cq r → r ∉ fly ++ hold;
  lk_cq : NoDup cq;
  lk_cq_attached l : l ∈ cq → attached L hold l
}.

Section link.
Implicit Types o : positive → option (ucx_ext * nat).
Implicit Types L : gmap positive request_data.

Lemma link_ext o o' L pw pw' fly fly' hold hold' cq cq' :
  link o L pw fly hold cq → (∀ l, o' l = o l) → pw' ≡ₚ pw → fly' ≡ₚ fly → hold' ≡ₚ hold →
  cq' ≡ₚ cq → link o' L pw' fly' hold' cq'.
Proof.
  intros HL Ho Hp Hf Hh Hc.
  assert (∀ l, attached L hold l ↔ attached L hold' l) as Ha.
  { intros l. unfold attached. by setoid_rewrite Hh. }
  assert (∀ r, in_cancel_queue L hold cq r ↔ in_cancel_queue L hold' cq' r) as Hi.
  { intros r. unfold in_cancel_queue. setoid_rewrite Hh. by setoid_rewrite Hc. }
  split.
  - rewrite Hp. apply HL.
  - intros l. rewrite <- Ha, Ho, Hp. apply HL.
  - intros l. rewrite <- Ha, Hp. apply HL.
  - intros r d. setoid_rewrite Ho. rewrite Hh. apply HL.
  - rewrite Hf, Hh. apply HL.
  - intros r. rewrite <- Hi, Hf, Hh. apply HL.
  - intros r. rewrite <- Hi, Hf, Hh. apply HL.
  - rewrite Hc. apply HL.
  - intros l. rewrite <- Ha, Hc. apply HL.
Qed.

#[export] Instance link_proper :
  Proper (pointwise_relation _ eq ==> eq ==> Permutation ==> Permutation ==> Permutation ==>
          Permutation ==> iff) link.
Proof.
  intros o o' Ho L ? <- pw pw' Hp fly fly' Hf hold hold' Hh cq cq' Hc.
  split; intros HL; apply (link_ext _ _ _ _ _ _ _ _ _ _ _ HL); by try symmetry.
Qed.

(** A reported UCX request has a request attached. *)
Lemma link_event o L pw r fly hold cq :
  link o L pw (r :: fly) hold cq →
  (r ∉ hold) ∧ ∃ l c, L !! r = Some (data_for c l) ∧ o l = Some (Some r, c) ∧ l ∉ pw.
Proof.
  intros HL. pose proof (lk_fly _ _ _ _ _ _ HL) as [Hr _]%NoDup_cons.
  assert (r ∉ hold) as Hh by set_solver. split; [done|].
  destruct (proj2 (lk_where _ _ _ _ _ _ HL r)) as [d Hd]; [set_solver|].
  destruct (lk_data _ _ _ _ _ _ HL r d Hd Hh) as (l & c & -> & Ho).
  exists l, c. split_and!; [done..|]. intros Hin. apply (lk_apart _ _ _ _ _ _ HL l Hin). by exists r, c.
Qed.

(** Only one UCX request is attached to a request. *)
Lemma link_inj o L pw fly hold cq r r' c c' l :
  link o L pw fly hold cq → L !! r = Some (data_for c l) → r ∉ hold →
  L !! r' = Some (data_for c' l) → r' ∉ hold → r = r'.
Proof.
  intros HL H1 Hh1 H2 Hh2.
  destruct (lk_data _ _ _ _ _ _ HL _ _ H1 Hh1) as (l1 & c1 & E1%data_for_inj & O1).
  destruct (lk_data _ _ _ _ _ _ HL _ _ H2 Hh2) as (l2 & c2 & E2%data_for_inj & O2). congruence.
Qed.

(** The request of a reported UCX request is about to be completed; its data
    becomes stale. *)
Lemma link_hold o L pw r fly hold cq l c :
  link o L pw (r :: fly) hold cq → L !! r = Some (data_for c l) →
  link o L (l :: pw) fly (r :: hold) cq.
Proof.
  intros HL Hr. destruct (link_event _ _ _ _ _ _ _ HL) as (Hh & l' & c' & Hr' & Ho & Hpw).
  assert (l' = l) as -> by (apply (data_for_inj c' _ c); congruence).
  pose proof (lk_fly _ _ _ _ _ _ HL) as Hnd.
  assert (∀ l', attached L (r :: hold) l' ↔ attached L hold l' ∧ l' ≠ l) as Ha.
  { intros l'. split.
    - intros (r2 & c2 & H1 & H2). split; [exists r2, c2; set_solver|]. intros ->.
      assert (r = r2); [|set_solver]. eapply (link_inj _ _ _ _ _ _ r r2); [done..|set_solver].
    - intros [(r2 & c2 & H1 & H2) Hne]. exists r2, c2. split; [|done].
      intros [->|?]%elem_of_cons; [|done]. apply Hne. apply (data_for_inj c2 _ c). congruence. }
  assert (∀ r', in_cancel_queue L (r :: hold) cq r' ↔ in_cancel_queue L hold cq r') as Hi.
  { intros r'. split.
    - intros (l2 & c2 & H1 & H2). exists l2, c2. set_solver.
    - intros Hc. pose proof (lk_sep _ _ _ _ _ _ HL r' Hc) as Hs.
      destruct Hc as (l2 & c2 & H1 & H2 & H3). exists l2, c2. set_solver. }
  assert (l ∉ cq) as Hcq.
  { intros Hin. apply (lk_sep _ _ _ _ _ _ HL r); [by exists l, c|set_solver]. }
  split.
  - constructor; [done|apply HL].
  - intros l'. rewrite (lk_own _ _ _ _ _ _ HL), Ha, elem_of_cons.
    destruct (decide (l' = l)) as [->|]; [|tauto]. split; [by auto|]. right. by exists r, c.
  - intros l'. rewrite Ha. intros [->|Hin]%elem_of_cons [Hat Hne]; [done|].
    by apply (lk_apart _ _ _ _ _ _ HL l').
  - intros r' d Hd Hn. apply (lk_data _ _ _ _ _ _ HL); [done|set_solver].
  - rewrite <- Permutation_middle. done.
  - intros r'. rewrite Hi, (lk_where _ _ _ _ _ _ HL). set_solver.
  - intros r'. rewrite Hi. intros Hs%(lk_sep _ _ _ _ _ _ HL). set_solver.
  - apply HL.
  - intros l' Hin. apply Ha. split; [by apply HL|]. by intros ->.
Qed.

(** The UCX request is freed. *)
Lemma link_release o L pw r fly hold cq :
  link o L pw fly (r :: hold) cq → link o (delete r L) pw fly hold cq.
Proof.
  intros HL. pose proof (lk_fly _ _ _ _ _ _ HL) as Hnd. rewrite <- Permutation_middle in Hnd.
  apply NoDup_cons in Hnd as [Hr Hnd].
  assert (∀ l, attached (delete r L) hold l ↔ attached L (r :: hold) l) as Ha.
  { intros l. split; intros (r' & c & H1 & H2).
    - apply lookup_delete_Some in H2 as [? ?]. exists r', c. set_solver.
    - exists r', c. rewrite lookup_delete_ne by set_solver. set_solver. }
  assert (∀ r', in_cancel_queue (delete r L) hold cq r' ↔ in_cancel_queue L (r :: hold) cq r') as Hi.
  { intros r'. split; intros (l & c & H1 & H2 & H3).
    - apply lookup_delete_Some in H2 as [? ?]. exists l, c. set_solver.
    - exists l, c. rewrite lookup_delete_ne by set_solver. set_solver. }
  split; try apply HL.
  - intros l. rewrite Ha. apply HL.
  - intros l. rewrite Ha. apply HL.
  - intros r' d [Hne Hd]%lookup_delete_Some Hn. apply (lk_data _ _ _ _ _ _ HL); set_solver.
  - done.
  - intros r'. rewrite Hi. destruct (decide (r' = r)) as [->|Hne].
    + rewrite lookup_delete_eq. split; [by intros []|]. intros [?|Hc]; [done|].
      exfalso. apply (lk_sep _ _ _ _ _ _ HL r Hc). set_solver.
    + rewrite lookup_delete_ne, (lk_where _ _ _ _ _ _ HL) by done. set_solver.
  - intros r'. rewrite Hi. intros Hs%(lk_sep _ _ _ _ _ _ HL). set_solver.
  - intros l Hin. apply Ha. by apply HL.
Qed.

(** A canceled receive goes to its queue. *)
Lemma link_cancel o L pw r fly hold cq l c :
  link o L pw (r :: fly) hold cq → L !! r = Some (data_for c l) →
  link o L pw fly hold (l :: cq).
Proof.
  intros HL Hr. destruct (link_event _ _ _ _ _ _ _ HL) as (Hh & _).
  assert (l ∉ cq) as Hcq.
  { intros Hin. apply (lk_sep _ _ _ _ _ _ HL r); [by exists l, c|set_solver]. }
  pose proof (lk_fly _ _ _ _ _ _ HL) as [Hnr Hnd]%NoDup_cons.
  assert (∀ r', in_cancel_queue L hold (l :: cq) r' ↔ r' = r ∨ in_cancel_queue L hold cq r') as Hi.
  { intros r'. split.
    - intros (l2 & c2 & H1 & H2 & [->|H3]%elem_of_cons); [|right; by exists l2, c2].
      left. by eapply link_inj.
    - intros [->|(l2 & c2 & H1 & H2 & H3)]; [exists l, c|exists l2, c2]; set_solver. }
  split; try apply HL.
  - done.
  - intros r'. rewrite Hi, (lk_where _ _ _ _ _ _ HL). set_solver.
  - intros r'. rewrite Hi. intros [->|Hs]; [done|]. apply (lk_sep _ _ _ _ _ _ HL) in Hs. set_solver.
  - constructor; [done|apply HL].
  - intros l' [->|Hin]%elem_of_cons; [by exists r, c|by apply HL].
Qed.

(** A canceled receive is taken from its queue. *)
Lemma link_uncancel o L pw fly hold cq l :
  link o L pw fly hold (l :: cq) →
  ∃ r c, L !! r = Some (data_for c l) ∧ o l = Some (Some r, c) ∧ link o L pw (r :: fly) hold cq.
Proof.
  intros HL. destruct (lk_cq_attached _ _ _ _ _ _ HL l) as (r & c0 & Hh & Hr0); [set_solver|].
  destruct (lk_data _ _ _ _ _ _ HL r _ Hr0 Hh) as (l2 & c & E & Ho).
  pose proof (data_for_inj _ _ _ _ E) as <-. rewrite E in Hr0. rename Hr0 into Hr.
  pose proof (lk_cq _ _ _ _ _ _ HL) as [Hcq Hnd]%NoDup_cons.
  assert (in_cancel_queue L hold (l :: cq) r) as Hin by (exists l, c; set_solver).
  pose proof (lk_sep _ _ _ _ _ _ HL r Hin) as Hsep.
  assert (∀ r', in_cancel_queue L hold (l :: cq) r' ↔ r' = r ∨ in_cancel_queue L hold cq r') as Hi.
  { intros r'. split.
    - intros (l2 & c2 & H1 & H2 & [->|H3]%elem_of_cons); [|right; by exists l2, c2].
      left. by eapply link_inj.
    - intros [->|(l2 & c2 & H1 & H2 & H3)]; [done|exists l2, c2; set_solver]. }
  assert (¬ in_cancel_queue L hold cq r) as Hnr.
  { intros (l2 & c2 & H1 & H2 & H3). assert (l = l2) by (apply (data_for_inj c _ c2); congruence). congruence. }
  exists r, c. split_and!; [done..|].
  split; try apply HL.
  - constructor; [done|]. apply HL.
  - intros r'. rewrite (lk_where _ _ _ _ _ _ HL), Hi. set_solver.
  - intros r' Hc [->|Hin']%elem_of_cons; [done|]. apply (lk_sep _ _ _ _ _ _ HL r'); [by apply Hi; right|done].
  - done.
  - intros l' Hin'. apply HL. set_solver.
Qed.

(** A request that was taken from a queue is finished. *)
Lemma link_disown o o' L l pw fly hold cq :
  link o L (l :: pw) fly hold cq → o' l = None → (∀ l', l' ≠ l → o' l' = o l') →
  link o' L pw fly hold cq.
Proof.
  intros HL Hl Ho. pose proof (lk_nodup _ _ _ _ _ _ HL) as [Hn Hnd]%NoDup_cons.
  assert (¬ attached L hold l) as Hna by (apply (lk_apart _ _ _ _ _ _ HL); set_solver).
  split; try apply HL.
  - done.
  - intros l'. destruct (decide (l' = l)) as [->|Hne].
    + rewrite Hl. split; [by intros []|]. tauto.
    + rewrite Ho by done. rewrite (lk_own _ _ _ _ _ _ HL), elem_of_cons. tauto.
  - intros l' Hin. apply HL. set_solver.
  - intros r d Hd Hh. destruct (lk_data _ _ _ _ _ _ HL r d Hd Hh) as (l' & c & -> & E).
    exists l', c. rewrite Ho; [done|]. intros ->. apply Hna. by exists r, c.
Qed.

(** A new request joins the queues. *)
Lemma link_wait o o' L l x pw fly hold cq :
  link o L pw fly hold cq → o l = None → o' l = Some x → (∀ l', l' ≠ l → o' l' = o l') →
  link o' L (l :: pw) fly hold cq.
Proof.
  intros HL Hl Hl' Ho.
  assert (¬ (l ∈ pw ∨ attached L hold l)) as Hno.
  { rewrite <- (lk_own _ _ _ _ _ _ HL), Hl. by intros []. }
  split; try apply HL.
  - constructor; [tauto|apply HL].
  - intros l'. destruct (decide (l' = l)) as [->|Hne].
    + rewrite Hl', elem_of_cons. split; [auto|by eexists].
    + rewrite Ho by done. rewrite (lk_own _ _ _ _ _ _ HL), elem_of_cons. tauto.
  - intros l' [->|Hin]%elem_of_cons; [tauto|by apply HL].
  - intros r d Hd Hh. destruct (lk_data _ _ _ _ _ _ HL r d Hd Hh) as (l' & c & -> & E).
    exists l', c. rewrite Ho; [done|]. intros ->. congruence.
Qed.

(** A new request with its UCX request is in flight. *)
Lemma link_post o o' L l r c pw fly hold cq :
  link o L pw fly hold cq → o l = None → L !! r = None → o' l = Some (Some r, c) →
  (∀ l', l' ≠ l → o' l' = o l') →
  link o' (<[r := data_for c l]> L) pw (r :: fly) hold cq.
Proof.
  intros HL Hl Hr Hl' Ho.
  assert (¬ (l ∈ pw ∨ attached L hold l)) as Hno.
  { rewrite <- (lk_own _ _ _ _ _ _ HL), Hl. by intros []. }
  assert (r ∉ fly ++ hold) as Hrf.
  { intros Hin. destruct (proj2 (lk_where _ _ _ _ _ _ HL r)) as [d ?]; [by left|congruence]. }
  assert (∀ r' l' c', <[r := data_for c l]> L !! r' = Some (data_for c' l') ↔
            r' = r ∧ data_for c l = data_for c' l' ∨ L !! r' = Some (data_for c' l')) as Hlk.
  { intros r' l' c'. rewrite lookup_insert. case_decide as E; [subst r'|naive_solver].
    rewrite Hr. split; [intros [= E]; by left|]. by intros [[_ ->]|]. }
  assert (∀ l', attached (<[r := data_for c l]> L) hold l' ↔ l' = l ∨ attached L hold l') as Ha.
  { intros l'. split.
    - intros (r' & c' & H1 & [[-> E%data_for_inj]|H2]%Hlk); [by left|right; by exists r', c'].
    - intros [->|(r' & c' & H1 & H2)].
      + exists r, c. rewrite lookup_insert_eq. set_solver.
      + exists r', c'. split; [done|]. apply Hlk. by right. }
  assert (l ∉ cq) as Hcq by (intros Hin%(lk_cq_attached _ _ _ _ _ _ HL); tauto).
  assert (∀ r', in_cancel_queue (<[r := data_for c l]> L) hold cq r' ↔ in_cancel_queue L hold cq r') as Hi.
  { intros r'. split.
    - intros (l' & c' & H1 & [[-> E%data_for_inj]|H2]%Hlk & H3); [congruence|by exists l', c'].
    - intros (l' & c' & H1 & H2 & H3). exists l', c'. split_and!; [done| |done]. apply Hlk. by right. }
  split; try apply HL.
  - intros l'. rewrite Ha. destruct (decide (l' = l)) as [->|Hne].
    + rewrite Hl'. split; [auto|by eexists].
    + rewrite Ho by done. rewrite (lk_own _ _ _ _ _ _ HL). tauto.
  - intros l' Hin. rewrite Ha. intros [->|Hat]; [tauto|]. by apply (lk_apart _ _ _ _ _ _ HL l').
  - intros r' d Hd Hh. rewrite lookup_insert in Hd. case_decide; simplify_eq; [by exists l, c|].
    destruct (lk_data _ _ _ _ _ _ HL r' d Hd Hh) as (l' & c' & -> & E).
    exists l', c'. rewrite Ho; [done|]. intros ->. congruence.
  - constructor; [done|apply HL].
  - intros r'. rewrite Hi. destruct (decide (r' = r)) as [->|Hne].
    + rewrite lookup_insert_eq. split; [set_solver|by eexists].
    + rewrite lookup_insert_ne, (lk_where _ _ _ _ _ _ HL) by done. set_solver.
  - intros r'. rewrite Hi. intros Hc [->|Hin]%elem_of_cons.
    + destruct Hc as (? & ? & ? & ? & ?). congruence.
    + by apply (lk_sep _ _ _ _ _ _ HL r').
  - intros l' Hin. apply Ha. right. by apply HL.
Qed.

Lemma link_nil : link (λ _, None) ∅ [] [] [] [].
Proof.
  assert (∀ l, ¬ attached ∅ [] l) as Ha by (intros l (r & c & _ & E); by rewrite lookup_empty in E).
  assert (∀ r, ¬ in_cancel_queue ∅ [] [] r) as Hi
    by (intros r (l & c & _ & E & _); by rewrite lookup_empty in E).
  split; try constructor; try set_solver. by intros [].
Qed.
End link.
