(* ===== verification/UcxOps.v ===== *)
(** * The operations of the UCX backend keep its invariant

    Completion callbacks, progress, posting and cancellation, for user callbacks
    that keep the invariant.  With [strict] the lemmas also show that the
    progress loops return, for callbacks that do not post. *)
From S2P Require Import Prelude Tags Request UcxModel UcxInv.

Section ops.
Context `{Ucx, !UcxLaws} {Hfault : UcxFaultless} {CB : Type}.
Abbreviation W := (world CB ucx_ext ucx_backend).
Implicit Types w : W.
Context (recursion_depth : Z) (thread_safe strict : bool).

(** ** The invariant *)

(** The requests that own themselves. *)
Definition own w (l : positive) : option (ucx_ext * nat) :=
  match reqs w !! l with
  | Some st => if m_self_ptr st then Some (m_ext st, m_scheduled st) else None
  | None => None
  end.

Definition waiting (b : ucx_backend) : list positive :=
  m_send_req_queue b ++ m_recv_req_queue b ++ ctx_recv_req_queue b.
Definition cancel_queues (b : ucx_backend) : list positive :=
  m_cancel_recv_req_queue b ++ ctx_cancel_recv_req_queue b.
Definition all_posted (u : ucx_st) : list positive :=
  posted Send_worker u ++ posted Recv_worker u.

(** [exec]: requests whose callback is running; [pend]: taken from a queue;
    [ev]: UCX requests reported and not yet handled; [hold]: those whose send
    callback is running. *)
Record inv (exec pend ev hold : list positive) w : Prop := {
  inv_base : base_inv exec w;
  inv_link : link (own w) (live (backend w)) (pend ++ waiting (backend w))
    (ev ++ all_posted (transport (backend w))) hold (cancel_queues (backend w));
  inv_depth : (0 ≤ m_recursion_depth (backend w) ≤ recursion_depth + 1)%Z;
  inv_ctx_depth : (0 ≤ ctx_recursion_depth (backend w) ≤ recursion_depth + 1)%Z
}.

(** User callbacks run with the mutex free. *)
Definition unlocked w : Prop := thread_safe = true → locked (backend w) = false.

(** A bound on the rounds of progress that can still do something. *)
Definition need w : nat :=
  S (budget Send_worker (transport (backend w)) + budget Recv_worker (transport (backend w)) +
     size (live (backend w)) + length (waiting (backend w))).

(** What an operation leaves as it was, or only extends. *)
Record stable w w' : Prop := {
  st_locked : locked (backend w') = locked (backend w);
  st_found : tl_found (backend w') = tl_found (backend w);
  st_depth : m_recursion_depth (backend w') = m_recursion_depth (backend w);
  st_ctx_depth : ctx_recursion_depth (backend w') = ctx_recursion_depth (backend w);
  st_next : (next w ≤ next w')%positive;
  st_invoked : invoked w `prefix_of` invoked w';
  st_canceled : canceled w `prefix_of` canceled w';
  st_calls : calls w `prefix_of` calls w';
  st_recvq : thread_safe = false →
    m_recv_req_queue (backend w) `prefix_of` m_recv_req_queue (backend w');
  st_need : strict = true → need w' ≤ need w
}.

#[export] Instance stable_preorder : PreOrder stable.
Proof.
  split.
  - intros w. split; done || lia.
  - intros w1 w2 w3 H1 H2. split.
    + by rewrite (st_locked _ _ H2), (st_locked _ _ H1).
    + by rewrite (st_found _ _ H2), (st_found _ _ H1).
    + by rewrite (st_depth _ _ H2), (st_depth _ _ H1).
    + by rewrite (st_ctx_depth _ _ H2), (st_ctx_depth _ _ H1).
    + etrans; [apply H1|apply H2].
    + etrans; [apply H1|apply H2].
    + etrans; [apply H1|apply H2].
    + etrans; [apply H1|apply H2].
    + intros Ht. etrans; [by apply H1|by apply H2].
    + intros Ht. etrans; [by apply H2|by apply H1].
Qed.

(** The halts that are allowed: a loop that goes on as long as callbacks keep
    posting, unless that is excluded. *)
Definition allowed (h : halt) : Prop := strict = false ∧ h = out_of_fuel.

Variable call : CB → Z → Z → M W unit.

(** What is required of a user's function object. *)
Definition well_behaved (cb : CB) : Prop := ∀ r t exec pend ev hold w,
  inv exec pend ev hold w → unlocked w →
  wp allowed (call cb r t) (λ _ w', inv exec pend ev hold w' ∧ stable w w') w.

(** ** Changes of the backend only *)

Lemma ucx_inv_backend exec pend pend' ev ev' hold hold' w b :
  inv exec pend ev hold w →
  link (own w) (live b) (pend' ++ waiting b) (ev' ++ all_posted (transport b)) hold' (cancel_queues b) →
  m_recursion_depth b = m_recursion_depth (backend w) →
  ctx_recursion_depth b = ctx_recursion_depth (backend w) →
  inv exec pend' ev' hold' (set_backend b w).
Proof.
  intros HI HL E1 E2. split; cbn; rewrite ?E1, ?E2; try apply HI; [|done].
  rewrite same_requests_backend. apply HI.
Qed.

(** A backend with the same flags, whose progress needs no more rounds. *)
Lemma stable_backend w b :
  locked b = locked (backend w) → tl_found b = tl_found (backend w) →
  m_recursion_depth b = m_recursion_depth (backend w) →
  ctx_recursion_depth b = ctx_recursion_depth (backend w) →
  (thread_safe = false → m_recv_req_queue (backend w) `prefix_of` m_recv_req_queue b) →
  (strict = true → need (set_backend b w) ≤ need w) →
  stable w (set_backend b w).
Proof. intros. split; done || lia. Qed.

(** ** Completing a request *)

(** Queues of completed requests. *)
Definition is_ready_queue (q : qid) : bool :=
  match q with SendQ | RecvQ | CtxRecvQ => true | _ => false end.

Lemma waiting_push q l b :
  is_ready_queue q = true → waiting (set_q q (get_q q b ++ [l]) b) ≡ₚ l :: waiting b.
Proof.
  unfold waiting. destruct q; cbn; try done; intros _.
  - by rewrite (Permutation_app_comm (m_send_req_queue b) [l]), <- app_assoc.
  - rewrite (Permutation_app_comm (m_recv_req_queue b) [l]), <- app_assoc. cbn.
    by rewrite <- Permutation_middle.
  - rewrite (Permutation_app_comm (ctx_recv_req_queue b) [l]). cbn.
    by rewrite <- !Permutation_middle.
Qed.

Lemma waiting_pop q l rest b :
  is_ready_queue q = true → get_q q b = l :: rest → waiting b ≡ₚ l :: waiting (set_q q rest b).
Proof.
  unfold waiting. destruct q; cbn; try done; intros _ ->; cbn; by rewrite <- ?Permutation_middle.
Qed.

Lemma own_start l st w l' :
  own (start_callback l st w) l' = if decide (l' = l) then None else own w l'.
Proof.
  unfold own, start_callback. cbn. rewrite lookup_insert.
  repeat case_decide; subst; done.
Qed.

(** The request of the innermost callback is gone or ready. *)
Lemma own_finish w w' l :
  (∀ l', l' ≠ l → reqs w' !! l' = reqs w !! l') →
  (∀ st, reqs w' !! l = Some st → m_self_ptr st = false) →
  (∀ st, reqs w !! l = Some st → m_self_ptr st = false) → ∀ l', own w' l' = own w l'.
Proof.
  intros Ho H1 H2 l'. unfold own. destruct (decide (l' = l)) as [->|Hne]; [|by rewrite Ho].
  destruct (reqs w' !! l) eqn:E1, (reqs w !! l) eqn:E2; rewrite ?(H1 _ eq_refl), ?(H2 _ eq_refl); done.
Qed.

Hypothesis Hcall : ∀ cb, well_behaved cb.

Lemma complete_wp exec l pend ev hold w :
  inv exec (l :: pend) ev hold w → unlocked w →
  wp allowed (complete call l)
    (λ _ w', inv exec pend ev hold w' ∧ stable w w' ∧ l ∈ invoked w') w.
Proof.
  intros HI Hu. pose proof (inv_link _ _ _ _ _ HI) as HL. cbn in HL.
  assert (is_Some (own w l)) as Ho by (apply (lk_own _ _ _ _ _ _ HL); set_solver).
  unfold own in Ho. destruct (reqs w !! l) as [st|] eqn:Hl; [|by destruct Ho].
  destruct (m_self_ptr st) eqn:Hs; [clear Ho|by destruct Ho].
  assert (inv (l :: exec) pend ev hold (start_callback l st w)) as HI1.
  { split; try apply HI; [apply start_callback_ok; [apply HI|done..]|].
    eapply link_disown; [exact HL|rewrite own_start, decide_True by done; done|].
    intros l' Hn. by rewrite own_start, decide_False. }
  assert (stable w (start_callback l st w)) as HS1.
  { split; try done; by eexists. }
  eapply wp_mono.
  { apply (complete_wp_base call allowed exec w l st
      (λ w2, inv (l :: exec) pend ev hold w2 ∧ stable (start_callback l st w) w2)); [apply HI|done..|].
    eapply wp_mono; [by apply Hcall|]. intros _ w2 [HI2 HS2]. split; [apply HI2|done]. }
  intros _ w3 (w2 & [HI2 HS2] & HB & []). 
  assert (∀ l', own w3 l' = own w2 l') as Hown by by apply own_finish with l.
  split_and!; [split| |by rewrite fin_invoked]; rewrite ?fin_backend; cbn; try apply HI2; [done| |].
  - by apply (link_ext _ _ _ _ _ _ _ _ _ _ _ (inv_link _ _ _ _ _ HI2)).
  - etrans; [exact HS1|]. etrans; [exact HS2|].
    split; unfold need; rewrite ?fin_backend, ?fin_invoked, ?fin_canceled, ?fin_next, ?fin_calls; done.
Qed.

(** ** Completion callbacks *)

Lemma get_data_run r d w : live (backend w) !! r = Some d → get_data r w = (Ret d, w).
Proof. intros E. unfold get_data, bnd, gets. by rewrite E. Qed.

Definition freed (r : positive) w : W :=
  set_backend (set_live (delete r (live (backend w))) (backend w)) w.

Lemma free_run r d w : live (backend w) !! r = Some d → ucp_request_free r w = (Ret tt, freed r w).
Proof. intros E. unfold ucp_request_free. by rewrite (bnd_ret _ _ _ _ _ (get_data_run _ _ _ E)). Qed.

Lemma put_data_run r d d' w :
  live (backend w) !! r = Some d →
  put_data r d' w = (Ret tt, set_backend (set_live (<[r := d']> (live (backend w))) (backend w)) w).
Proof. intros E. unfold put_data. by rewrite (bnd_ret _ _ _ _ _ (get_data_run _ _ _ E)). Qed.

Lemma put_free_run r d w :
  live (backend w) !! r = Some d → (put_data r destroyed ;;; ucp_request_free r) w = (Ret tt, freed r w).
Proof.
  intros E. rewrite (bnd_ret _ _ _ _ _ (put_data_run _ _ _ _ E)).
  erewrite free_run by (cbn; apply lookup_insert_eq).
  unfold freed. cbn. by rewrite delete_insert_eq.
Qed.

Lemma put_free_wp {A} r d (k : M W A) Q w :
  live (backend w) !! r = Some d → wp allowed k Q (freed r w) →
  wp allowed (put_data r destroyed ;;; ucp_request_free r ;;; k) Q w.
Proof.
  intros E Hk. unfold wp. rewrite <- bnd_assoc.
  by rewrite (bnd_ret _ _ _ _ _ (put_free_run _ _ _ E)).
Qed.

Lemma need_freed r w :
  is_Some (live (backend w) !! r) → S (need (freed r w)) = need w.
Proof.
  intros [d Hd]. unfold need, freed, waiting. cbn. rewrite map_size_delete_Some by eauto.
  assert (size (live (backend w)) ≠ 0) by (apply map_size_ne_0_lookup_2 with r; eauto). lia.
Qed.

Lemma stable_freed r w : is_Some (live (backend w) !! r) → stable w (freed r w).
Proof. intros Hr. pose proof (need_freed r w Hr). apply stable_backend; try done. intros _. unfold freed in *. lia. Qed.

Lemma push_run q l w :
  push q l w = (Ret tt, set_backend (set_q q (get_q q (backend w) ++ [l]) (backend w)) w).
Proof. done. Qed.

(** A completed request goes to a queue. *)
Lemma push_inv exec pend ev hold q l w :
  is_ready_queue q = true → inv exec (l :: pend) ev hold w →
  inv exec pend ev hold (set_backend (set_q q (get_q q (backend w) ++ [l]) (backend w)) w).
Proof.
  intros Hq HI. eapply ucx_inv_backend; [exact HI| |done..].
  apply (link_ext _ _ _ _ _ _ _ _ _ _ _ (inv_link _ _ _ _ _ HI)); try done.
  - rewrite waiting_push by done. by rewrite <- Permutation_middle.
  - by destruct q.
Qed.

Lemma push_stable q l w :
  (strict = true → False) → stable w (set_backend (set_q q (get_q q (backend w) ++ [l]) (backend w)) w).
Proof.
  intros Hs. apply stable_backend; try done. intros _. destruct q; cbn; done || by eexists.
Qed.

(** The queue operation that follows the freeing of the UCX request. *)
Lemma freed_push_stable q l r w :
  is_Some (live (backend w) !! r) → is_ready_queue q = true →
  stable w (set_backend (set_q q (get_q q (backend w) ++ [l]) (backend (freed r w))) w).
Proof.
  intros Hr Hq. pose proof (need_freed r w Hr) as Hn. apply stable_backend; try done.
  - intros _. destruct q; cbn; done || by eexists.
  - intros _. pose proof (Permutation_length (waiting_push q l (backend w) Hq)) as Hl.
    unfold need, freed, waiting in *. cbn in *. lia.
Qed.

(** What a reported UCX request leads to. *)
Lemma event_data exec pend r ev hold w :
  inv exec pend (r :: ev) hold w →
  ∃ l c, live (backend w) !! r = Some (data_for c l) ∧
    inv exec (l :: pend) ev (r :: hold) w ∧ inv exec (l :: pend) ev hold (freed r w).
Proof.
  intros HI. pose proof (inv_link _ _ _ _ _ HI) as HL. cbn in HL.
  destruct (link_event _ _ _ _ _ _ _ HL) as (Hh & l & c & Hr & _).
  pose proof (link_hold _ _ _ _ _ _ _ _ _ HL Hr) as HL1.
  exists l, c. split_and!; [done| |].
  - split; try apply HI. done.
  - eapply ucx_inv_backend; [exact HI| |done..]. by apply link_release.
Qed.

Lemma cancel_queues_push q l b :
  is_ready_queue q = false → cancel_queues (set_q q (get_q q b ++ [l]) b) ≡ₚ l :: cancel_queues b.
Proof.
  unfold cancel_queues. destruct q; cbn; try done; intros _.
  - by rewrite (Permutation_app_comm (m_cancel_recv_req_queue b) [l]), <- app_assoc.
  - rewrite (Permutation_app_comm (ctx_cancel_recv_req_queue b) [l]). cbn.
    by rewrite <- Permutation_middle.
Qed.

(** A canceled receive goes to its queue. *)
Lemma cancel_push_inv exec pend r ev hold q l c w :
  is_ready_queue q = false → inv exec pend (r :: ev) hold w →
  live (backend w) !! r = Some (data_for c l) →
  inv exec pend ev hold (set_backend (set_q q (get_q q (backend w) ++ [l]) (backend w)) w).
Proof.
  intros Hq HI Hr. eapply ucx_inv_backend; [exact HI| |done..].
  pose proof (link_cancel _ _ _ _ _ _ _ _ _ (inv_link _ _ _ _ _ HI) Hr) as HL.
  apply (link_ext _ _ _ _ _ _ _ _ _ _ _ HL); try done; [by destruct q|by apply cancel_queues_push].
Qed.

Lemma send_callback_wp exec pend r ev hold w :
  inv exec pend (r :: ev) hold w → unlocked w →
  wp allowed (send_callback call r UCS_OK) (λ _ w', inv exec pend ev hold w' ∧ stable w w') w.
Proof.
  intros HI Hu. destruct (event_data _ _ _ _ _ _ HI) as (l & c & Hr & HI1 & _).
  unfold send_callback. apply wp_bnd, (wp_from _ _ _ _ _ _ (get_data_run _ _ _ Hr)).
  assert (match rd_req (data_for c l), rd_shared_req (data_for c l) with
          | Some l, _ => complete call l
          | None, Some l => complete call l
          | None, None => stop undefined_behaviour
          end = complete call l) as ->.
  { destruct (data_for_req c l _ eq_refl) as [->|[-> ->]]; done. }
  apply wp_bnd. eapply wp_mono; [by apply (complete_wp exec l pend ev (r :: hold))|].
  intros _ w1 (HI2 & HS & _).
  destruct (proj2 (lk_where _ _ _ _ _ _ (inv_link _ _ _ _ _ HI2) r)) as [d Hd]; [set_solver|].
  apply (wp_from _ _ _ _ _ _ (put_free_run _ _ _ Hd)). split.
  - eapply ucx_inv_backend; [exact HI2| |done..]. apply link_release, HI2.
  - etrans; [exact HS|]. apply stable_freed. by eexists.
Qed.

Lemma recv_callback_wp exec pend r ev hold w status :
  inv exec pend (r :: ev) hold w → status ≠ UCS_ERR_MESSAGE_TRUNCATED →
  wp allowed (recv_callback call thread_safe r status) (λ _ w', inv exec pend ev hold w' ∧ stable w w') w.
Proof.
  intros HI Hst. destruct (event_data _ _ _ _ _ _ HI) as (l & c & Hr & _ & HI1).
  unfold recv_callback. apply wp_bnd, (wp_from _ _ _ _ _ _ (get_data_run _ _ _ Hr)).
  destruct status; [| |done].
  - assert (rd_empty (data_for c l) = false) as -> by (unfold data_for; by case_decide).
    assert (is_Some (live (backend w) !! r)) as Hs by eauto.
    destruct (data_for_req c l _ eq_refl) as [->|[-> ->]].
    + apply (put_free_wp _ _ _ _ _ Hr).
      destruct thread_safe eqn:Et.
      * apply (wp_from _ _ _ _ _ _ (push_run _ _ _)). split; [by apply push_inv|].
        exact (freed_push_stable RecvQ l r w Hs eq_refl).
      * eapply wp_mono; [apply complete_wp; [done|unfold unlocked; congruence]|].
        intros _ w' (? & ? & _). split; [done|]. etrans; [by apply stable_freed|done].
    + apply (put_free_wp _ _ _ _ _ Hr).
      apply (wp_from _ _ _ _ _ _ (push_run _ _ _)). split; [by apply push_inv|].
      exact (freed_push_stable CtxRecvQ l r w Hs eq_refl).
  - assert (∀ q, is_ready_queue q = false →
      wp allowed (push q l) (λ _ w', inv exec pend ev hold w' ∧ stable w w') w) as Hpush.
    { intros q Hq. apply (wp_from _ _ _ _ _ _ (push_run _ _ _)). split.
      - by eapply cancel_push_inv.
      - apply stable_backend; destruct q; done. }
    destruct (data_for_req c l _ eq_refl) as [->|[-> ->]]; by apply Hpush.
Qed.

(** ** Progress *)

(** The transport alone changes: what it has in flight is conserved. *)
Lemma transport_inv exec pend ev ev' hold w u :
  inv exec pend ev hold w → ev' ++ all_posted u ≡ₚ ev ++ all_posted (transport (backend w)) →
  inv exec pend ev' hold (set_backend (set_transport u (backend w)) w).
Proof.
  intros HI HP. eapply ucx_inv_backend; [exact HI| |done..].
  by apply (link_ext _ _ _ _ _ _ _ _ _ _ _ (inv_link _ _ _ _ _ HI)).
Qed.

Lemma all_posted_progress k u evs p u' :
  ucp_worker_progress k u = (evs, p, u') → all_posted u ≡ₚ evs.*1 ++ all_posted u'.
Proof.
  intros E. destruct (progress_posted _ _ _ _ _ E) as [H1 H2]. unfold all_posted. destruct k.
  - rewrite H1, (H2 Send_worker) by done. rewrite !app_assoc.
    by rewrite (Permutation_app_comm (evs.*1)).
  - rewrite H1, (H2 Recv_worker) by done. by rewrite app_assoc.
Qed.

(** What a round of progress achieves. *)
Definition progressed exec pend ev hold w (p : bool) w' : Prop :=
  inv exec pend ev hold w' ∧ stable w w' ∧ (strict = true → p = true → need w' < need w).

Lemma worker_progress_wp k exec pend ev hold w :
  inv exec pend ev hold w → (k = Send_worker → unlocked w) →
  wp allowed (worker_progress call thread_safe k) (progressed exec pend ev hold w) w.
Proof.
  intros HI Hu. unfold worker_progress. apply wp_bnd. unfold ucx_call at 1, wp at 1.
  destruct (ucp_worker_progress k (transport (backend w))) as [[evs p] u'] eqn:E.
  set (w1 := set_backend _ w). cbn [fst snd].
  pose proof (all_posted_progress _ _ _ _ _ E) as HP.
  destruct (progress_budget _ _ _ _ _ E) as [Hb Hb'].
  assert (inv exec pend (evs.*1 ++ ev) hold w1) as HI1.
  { apply transport_inv with ev; [done|]. rewrite HP. rewrite !app_assoc.
    by rewrite (Permutation_app_comm ev). }
  assert (need w1 ≤ need w) as Hn.
  { unfold need, w1, waiting. cbn. pose proof (Hb Send_worker). pose proof (Hb Recv_worker). lia. }
  assert (stable w w1) as HS1 by by apply stable_backend.
  apply wp_bnd. eapply wp_mono.
  - apply (wp_mfor _ (λ l s, inv exec pend (l.*1 ++ ev) hold s ∧ stable w1 s ∧
                        ∀ x, x ∈ l → match k with Send_worker => x.2 = UCS_OK
                                     | Recv_worker => x.2 ≠ UCS_ERR_MESSAGE_TRUNCATED end)).
    2:{ split_and!; [done..|]. intros x. by apply (progress_status _ _ _ _ _ _ E). }
    intros [r st] l s (HI2 & HS2 & Hst). pose proof (Hst (r, st) ltac:(set_solver)) as Hst'.
    eapply wp_mono with (Q := λ _ s', inv exec pend (l.*1 ++ ev) hold s' ∧ stable s s').
    + destruct k; cbn in Hst'; [by apply recv_callback_wp|]. subst st. apply send_callback_wp; [done|].
      intros Ht. rewrite (st_locked _ _ HS2). by apply Hu.
    + intros _ s' (HI3 & HS3). split_and!; [done|by etrans|]. intros x Hx. apply Hst. set_solver.
  - intros _ s (HI2 & HS2 & _). apply wp_ret. split_and!; [done|by etrans|].
    intros Ht Hp. pose proof (st_need _ _ HS2 Ht). enough (need w1 < need w) by lia.
    unfold need, w1, waiting. cbn. specialize (Hb' Hp).
    destruct k; [pose proof (Hb Send_worker)|pose proof (Hb Recv_worker)]; lia.
Qed.

Lemma drain_wp k fuel exec pend ev hold w :
  inv exec pend ev hold w → (k = Send_worker → unlocked w) → (strict = true → need w ≤ fuel) →
  wp allowed (drain call thread_safe k fuel) (λ _ w', inv exec pend ev hold w' ∧ stable w w') w.
Proof.
  revert w. induction fuel as [|fuel IH]; intros w HI Hu Hf; cbn.
  { split; [|done]. destruct strict; [|done]. specialize (Hf eq_refl). unfold need in Hf. lia. }
  apply wp_bnd. eapply wp_mono; [by apply worker_progress_wp|].
  intros p w1 (HI1 & HS1 & Hp). destruct p; [|by split].
  eapply wp_mono; [apply IH|].
  - done.
  - intros Hk Ht. rewrite (st_locked _ _ HS1). by apply Hu.
  - intros Ht. specialize (Hf Ht). specialize (Hp Ht eq_refl). lia.
  - cbn. intros _ w2 (HI2 & HS2). split; [done|by etrans].
Qed.

Lemma pop_inv exec pend ev hold q l rest w :
  is_ready_queue q = true → get_q q (backend w) = l :: rest → inv exec pend ev hold w →
  inv exec (l :: pend) ev hold (set_backend (set_q q rest (backend w)) w).
Proof.
  intros Hq E HI. eapply ucx_inv_backend; [exact HI| |done..].
  apply (link_ext _ _ _ _ _ _ _ _ _ _ _ (inv_link _ _ _ _ _ HI)); try done.
  - rewrite (waiting_pop q l rest (backend w)) by done. cbn. by rewrite Permutation_middle.
  - by destruct q.
Qed.

Lemma consume_all_wp q fuel exec pend ev hold w :
  is_ready_queue q = true → (q = RecvQ → thread_safe = true) →
  inv exec pend ev hold w → unlocked w → (strict = true → need w ≤ fuel) →
  wp allowed (consume_all call q fuel) (λ _ w', inv exec pend ev hold w' ∧ stable w w') w.
Proof.
  intros Hq Hr. revert w. induction fuel as [|fuel IH]; intros w HI Hu Hf; cbn.
  - apply wp_bnd, wp_gets. destruct (get_q q (backend w)); [by split|].
    apply wp_stop. split; [|done]. destruct strict; [|done]. specialize (Hf eq_refl). unfold need in Hf. lia.
  - apply wp_bnd, wp_gets. destruct (get_q q (backend w)) as [|l rest] eqn:E; [by split|].
    apply wp_bnd, wp_modify. set (w1 := set_backend _ w).
    pose proof (pop_inv _ _ _ _ _ _ _ _ Hq E HI) as HI1. fold w1 in HI1.
    assert (S (need w1) = need w) as Hn.
    { pose proof (Permutation_length (waiting_pop q l rest (backend w) Hq E)) as Hl.
      unfold need, w1, waiting in *. cbn in *. lia. }
    assert (stable w w1) as HS1.
    { apply stable_backend; try done; [|fold w1; lia].
      intros Ht. destruct q; cbn; try done. rewrite (Hr eq_refl) in Ht. done. }
    apply wp_bnd. eapply wp_mono; [by apply complete_wp|]. intros _ w2 (HI2 & HS2 & _).
    eapply wp_mono; [apply IH|].
    + done.
    + intros Ht. rewrite (st_locked _ _ HS2). by apply Hu.
    + intros Ht. specialize (Hf Ht). pose proof (st_need _ _ HS2 Ht). lia.
    + cbn. intros _ w3 (HI3 & HS3). split; [done|]. etrans; [exact HS1|]. by etrans.
Qed.

(** *** The mutex *)

Definition with_lock (v : bool) w : W := set_backend (set_locked v (backend w)) w.

Lemma with_lock_inv exec pend ev hold v w : inv exec pend ev hold w → inv exec pend ev hold (with_lock v w).
Proof. intros HI. eapply ucx_inv_backend; [exact HI|apply HI|done..]. Qed.

(** The effect of a locked region. *)
Lemma bracket_stable v w w' : stable (with_lock v w) w' → stable w (with_lock (locked (backend w)) w').
Proof. intros []. split; done. Qed.

Lemma with_lock_id w : with_lock (locked (backend w)) w = w.
Proof. by destruct w as [? ? ? ? ? ? []]. Qed.

Lemma try_lock_run w :
  try_lock w = (Ret (negb (locked (backend w))), with_lock true w).
Proof.
  unfold try_lock, bnd, gets. destruct (locked (backend w)) eqn:E; [|done].
  cbn. by rewrite <- E, with_lock_id.
Qed.

Lemma lock_if_run w :
  unlocked w →
  lock_if thread_safe w = (Ret tt, with_lock (if thread_safe then true else locked (backend w)) w).
Proof.
  intros Hu. unfold lock_if, unlocked in *. destruct thread_safe.
  - unfold lock, bnd, gets. by rewrite Hu.
  - by rewrite with_lock_id.
Qed.

Lemma unlock_if_locked w w' :
  unlocked w → locked (backend w') = (if thread_safe then true else locked (backend w)) →
  unlock_if thread_safe w' = (Ret tt, with_lock (locked (backend w)) w').
Proof.
  intros Hu E. unfold unlock_if, unlocked in *. destruct thread_safe.
  - by rewrite Hu.
  - by rewrite <- E, with_lock_id.
Qed.

Lemma unlock_if_run w w' :
  unlocked w → stable (with_lock (if thread_safe then true else locked (backend w)) w) w' →
  unlock_if thread_safe w' = (Ret tt, with_lock (locked (backend w)) w').
Proof. intros Hu HS. apply unlock_if_locked; [done|]. apply (st_locked _ _ HS). Qed.

Lemma locked_progress_wp n exec pend ev hold w :
  thread_safe = true → inv exec pend ev hold w → unlocked w →
  wp allowed (locked_progress call thread_safe n) (λ _ w', inv exec pend ev hold w' ∧ stable w w') w.
Proof.
  intros Ht. revert w. induction n as [|n IH]; intros w HI Hu; cbn; [by split|].
  pose proof (Hu Ht) as El.
  apply wp_bnd, (wp_from _ _ _ _ _ _ (try_lock_run _)). rewrite El. cbn [negb].
  apply wp_bnd. eapply wp_mono; [apply (worker_progress_wp Recv_worker); [by apply with_lock_inv|done]|].
  intros p w1 (HI1 & HS1 & _). apply wp_bnd, wp_modify.
  pose proof (bracket_stable _ _ _ HS1) as HS2. rewrite El in HS2.
  change (set_backend (set_locked false (backend w1)) w1) with (with_lock false w1).
  destruct p; [|split; [by apply with_lock_inv|done]].
  eapply wp_mono; [apply IH; [by apply with_lock_inv|done]|].
  intros _ w2 (HI2 & HS3). split; [done|by etrans].
Qed.

Lemma wp_if {A} (b : bool) (m1 m2 : M W A) Q w :
  (b = true → wp allowed m1 Q w) → (b = false → wp allowed m2 Q w) →
  wp allowed (if b then m1 else m2) Q w.
Proof. destruct b; auto. Qed.

(** Sequencing of steps that keep the invariant. *)
Lemma wp_step {A} (m : M W unit) (k : M W A) exec pend ev hold (Q : A → W → Prop) w0 w :
  stable w0 w →
  wp allowed m (λ _ w', inv exec pend ev hold w' ∧ stable w w') w →
  (∀ w', inv exec pend ev hold w' → stable w0 w' → wp allowed k Q w') →
  wp allowed (m ;;; k) Q w.
Proof.
  intros HS Hm Hk. apply wp_bnd. eapply wp_mono; [exact Hm|]. intros _ w' [HI HS']. apply Hk; [done|by etrans].
Qed.

Lemma unlocked_stable w w' : stable w w' → unlocked w → unlocked w'.
Proof. intros HS Hu Ht. rewrite (st_locked _ _ HS). by apply Hu. Qed.
Lemma need_stable w w' n : stable w w' → (strict = true → need w ≤ n) → strict = true → need w' ≤ n.
Proof. intros HS Hn Ht. specialize (Hn Ht). pose proof (st_need _ _ HS Ht). lia. Qed.

#[local] Hint Resolve unlocked_stable need_stable : core.

Lemma progress_wp fuel exec pend ev hold w :
  inv exec pend ev hold w → unlocked w → (strict = true → need w ≤ fuel) →
  wp allowed (progress call thread_safe fuel) (λ _ w', inv exec pend ev hold w' ∧ stable w w') w.
Proof.
  intros HI Hu Hf. unfold progress.
  eapply (wp_step _ _ _ _ _ _ _ w); [done|by apply drain_wp|]. intros w1 HI1 HS1.
  eapply (wp_step _ _ _ _ _ _ _ w); [done| |].
  { apply wp_if; intros Ht; [by apply locked_progress_wp; eauto|by apply drain_wp; eauto]. }
  intros w2 HI2 HS2.
  eapply (wp_step _ _ _ _ _ _ _ w); [done|apply consume_all_wp; eauto; done|]. intros w3 HI3 HS3.
  eapply (wp_step _ _ _ _ _ _ _ w); [done| |].
  { apply wp_if; intros Ht; [by apply consume_all_wp; eauto|by split]. }
  intros w4 HI4 HS4. eapply wp_mono; [apply consume_all_wp; eauto; done|].
  intros _ w5 [HI5 HS5]. split; [done|by etrans].
Qed.

Lemma ctx_progress_wp fuel exec pend ev hold w :
  inv exec pend ev hold w → unlocked w → (strict = true → need w ≤ fuel) →
  wp allowed (ctx_progress call thread_safe fuel) (λ _ w', inv exec pend ev hold w' ∧ stable w w') w.
Proof.
  intros HI Hu Hf. unfold ctx_progress.
  apply wp_bnd, (wp_from _ _ _ _ _ _ (try_lock_run _)).
  destruct (locked (backend w)) eqn:El; cbn [negb].
  - assert (with_lock true w = w) as -> by by rewrite <- El, with_lock_id.
    apply wp_bnd, wp_ret. apply consume_all_wp; eauto; done.
  - apply wp_bnd, wp_bnd.
    eapply wp_mono; [apply (worker_progress_wp Recv_worker); [by apply with_lock_inv|done]|].
    intros p w1 (HI1 & HS1 & _). apply wp_modify. pose proof (bracket_stable _ _ _ HS1) as HS2.
    rewrite El in HS2. change (set_backend _ w1) with (with_lock false w1).
    eapply wp_mono; [apply consume_all_wp; eauto; by try apply with_lock_inv|].
    intros _ w5 [HI5 HS5]. split; [done|by etrans].
Qed.
End ops.
