(* ===== verification/UcxPost.v ===== *)
(** * Posting on the UCX backend

    [send], [recv] and [shared_recv] keep the invariant and leave the caller
    either with a completed operation or with a request that is tracked. *)
From S2P Require Import Prelude Tags Request UcxModel UcxInv UcxOps.

Section post.
Context `{Ucx, !UcxLaws} {Hfault : UcxFaultless} {CB : Type}.
Abbreviation W := (world CB ucx_ext ucx_backend).
Implicit Types w : W.
Variable call : CB → Z → Z → M W unit.
Variable recursion_depth : Z.
Variable thread_safe : bool.
Variable rank : Z.
Variable peers : gset Z.
Abbreviation inv := (inv recursion_depth).
Abbreviation stable := (stable thread_safe false).
Abbreviation unlocked := (unlocked thread_safe).
Abbreviation allowed := (allowed false).
Abbreviation well_behaved := (well_behaved recursion_depth thread_safe false call).
Hypothesis Hrd : (0 ≤ recursion_depth < 2 ^ 64 - 1)%Z.

(** What a posting operation did: the callback was called, or the caller has a
    new request that waits for completion. *)
Definition post_result w (cb : CB) (p t : Z) (o : option positive) w' : Prop :=
  (o = None ∧ (calls w ++ [(cb, p, t)]) `prefix_of` calls w') ∨
  (o = Some (next w) ∧ is_Some (own w' (next w)) ∧ invoked w' = invoked w ∧ calls w' = calls w).

Definition posts exec pend ev hold w (cb : CB) (p t : Z) (o : option positive) w' : Prop :=
  inv exec pend ev hold w' ∧ stable w w' ∧ post_result w cb p t o w'.

(** The bookkeeping does not depend on the backend the operation starts with. *)
Lemma posts_backend exec pend ev hold w b cb p t o w' :
  stable w (set_backend b w) → posts exec pend ev hold (set_backend b w) cb p t o w' →
  posts exec pend ev hold w cb p t o w'.
Proof. intros HS (HI & HS' & HP). split_and!; [done|by etrans|done]. Qed.

Lemma stable_loose w b :
  locked b = locked (backend w) → tl_found b = tl_found (backend w) →
  m_recursion_depth b = m_recursion_depth (backend w) →
  ctx_recursion_depth b = ctx_recursion_depth (backend w) →
  (thread_safe = false → m_recv_req_queue (backend w) `prefix_of` m_recv_req_queue b) →
  stable w (set_backend b w).
Proof. intros. by apply stable_backend. Qed.

(** ** A callback called in place *)

Lemma depths_inv exec pend ev hold w d c :
  inv exec pend ev hold w → (0 ≤ d ≤ recursion_depth + 1)%Z → (0 ≤ c ≤ recursion_depth + 1)%Z →
  inv exec pend ev hold (set_backend (set_depths d c (backend w)) w).
Proof.
  intros HI Hd Hc. split; cbn; [|apply HI|done..]. rewrite same_requests_backend. apply HI.
Qed.

Lemma inline_wp exec pend ev hold w cb p t (inc dec : M W unit) d c :
  well_behaved cb → inv exec pend ev hold w → unlocked w →
  inc w = (Ret tt, set_backend (set_depths d c (backend w)) w) →
  (0 ≤ d ≤ recursion_depth + 1)%Z → (0 ≤ c ≤ recursion_depth + 1)%Z →
  (∀ w2, m_recursion_depth (backend w2) = d → ctx_recursion_depth (backend w2) = c →
     dec w2 = (Ret tt, set_backend (set_depths (m_recursion_depth (backend w))
                         (ctx_recursion_depth (backend w)) (backend w2)) w2)) →
  wp allowed (inc ;;; scoped (call_cb call cb p t) dec ;;; ret (@None positive))
    (posts exec pend ev hold w cb p t) w.
Proof.
  intros Hcb HI Hu Einc Hd Hc Hdec. apply wp_bnd, (wp_from _ _ _ _ _ _ Einc).
  set (w1 := set_backend _ w). apply wp_bnd, wp_scoped, wp_bnd, wp_modify.
  assert (inv exec pend ev hold (log_call cb p t w1)) as HI1.
  { pose proof (depths_inv _ _ _ _ _ _ _ HI Hd Hc) as HI1. split; try apply HI1.
    apply (base_inv_same exec w1); [by split|apply HI1]. }
  eapply wp_mono; [by apply (Hcb p t exec pend ev hold)|]. intros _ w2 [HI2 HS2].
  eapply wp_from; [apply Hdec; [by rewrite (st_depth _ _ _ _ HS2)|by rewrite (st_ctx_depth _ _ _ _ HS2)]|].
  apply wp_ret. split_and!.
  - apply depths_inv; [done|apply HI..].
  - destruct HS2. split; try done. cbn in *. etrans; [|done]. by eexists.
  - left. split; [done|]. apply (st_calls _ _ _ _ HS2).
Qed.

Lemma inline_depth_wp exec pend ev hold w cb p t :
  well_behaved cb → inv exec pend ev hold w → unlocked w →
  has_reached_recursion_depth recursion_depth w = false →
  wp allowed (add_depth 1 ;;; scoped (call_cb call cb p t) (add_depth (-1)) ;;; ret (@None positive))
    (posts exec pend ev hold w cb p t) w.
Proof.
  intros Hcb HI Hu Hd%bool_decide_eq_false. pose proof (inv_depth _ _ _ _ _ _ HI) as Hr.
  eapply inline_wp; [done..| |apply HI|]; [rewrite u64_small; lia|].
  intros w2 E1 E2. unfold add_depth, upd_backend, modify. by rewrite E1, E2, u64_inc_dec by lia.
Qed.

Lemma inline_ctx_depth_wp exec pend ev hold w cb p t :
  well_behaved cb → inv exec pend ev hold w → unlocked w →
  ctx_has_reached_recursion_depth recursion_depth w = false →
  wp allowed (add_ctx_depth 1 ;;; scoped (call_cb call cb p t) (add_ctx_depth (-1)) ;;; ret (@None positive))
    (posts exec pend ev hold w cb p t) w.
Proof.
  intros Hcb HI Hu Hd%bool_decide_eq_false. pose proof (inv_ctx_depth _ _ _ _ _ _ HI) as Hr.
  eapply inline_wp; [done..|apply HI| |]; [rewrite u64_small; lia|].
  intros w2 E1 E2. unfold add_ctx_depth, upd_backend, modify. by rewrite E1, E2, u64_inc_dec by lia.
Qed.

(** ** A new request *)

Lemma own_post w w' cell p t cb x :
  reqs w' = <[next w := RequestState cell p t cb false false true 2 x]> (reqs w) →
  own w' (next w) = Some (x, cell) ∧ ∀ l, l ≠ next w → own w' l = own w l.
Proof.
  intros E. unfold own. rewrite E, lookup_insert_eq. split; [done|].
  intros l Hl. by rewrite lookup_insert_ne.
Qed.

Lemma own_fresh exec w : base_inv exec w → own w (next w) = None.
Proof.
  intros HB. unfold own. destruct (reqs w !! next w) as [st|] eqn:E; [|done].
  assert (next w < next w)%positive by (apply (bi_next _ _ HB); by eexists). lia.
Qed.

(** The completed operation whose callback has to wait. *)
Lemma post_queue_wp exec pend ev hold w cell q p t cb x :
  inv exec pend ev hold w → cell ∈ cells → is_ready_queue q = true →
  wp allowed (let! s := post cell p t cb x in push q s ;;; ret (Some s))
    (posts exec pend ev hold w cb p t) w.
Proof.
  intros HI Hcell Hq.
  destruct (post_ok exec w cell p t cb x (inv_base _ _ _ _ _ _ HI) Hcell)
    as (w1 & E & HB & Eb & Ei & Ec & Hn & En & Ecl & Er).
  destruct (own_post _ _ _ _ _ _ _ Er) as [Ho Hoo].
  apply wp_bnd, (wp_from _ _ _ _ _ _ E). apply wp_bnd, wp_modify, wp_ret.
  assert (inv exec (next w :: pend) ev hold w1) as HI1.
  { split; rewrite ?Eb; try apply HI; [done|]. cbn.
    apply (link_wait (own w) _ _ _ (x, cell)); [apply HI| |done|done]. by eapply own_fresh, HI. }
  split_and!.
  - by apply push_inv.
  - split; cbn; rewrite ?Eb, ?Ei, ?Ec, ?En, ?Ecl; try done; [lia|].
    intros _. destruct q; cbn; done || by eexists.
  - right. split_and!; [done| |done|done]. exists (x, cell). exact Ho.
Qed.

(** The UCX request the operation got, with the transport that tracks it. *)
Lemma post_fly_wp exec pend ev hold w cell r u p t cb :
  inv exec pend ev hold w → cell ∈ cells → live (backend w) !! r = None →
  all_posted u ≡ₚ r :: all_posted (transport (backend w)) →
  let b := set_live (<[r := destroyed]> (live (backend w))) (set_transport u (backend w)) in
  wp allowed (let! s := post cell p t cb (Some r) in put_data r (data_for cell s) ;;; ret (Some s))
    (posts exec pend ev hold w cb p t) (set_backend b w).
Proof.
  intros HI Hcell Hr Hu b.
  assert (base_inv exec (set_backend b w)) as HB0 by (rewrite same_requests_backend; apply HI).
  destruct (post_ok exec (set_backend b w) cell p t cb (Some r) HB0 Hcell)
    as (w1 & E & HB & Eb & Ei & Ec & Hn & En & Ecl & Er).
  destruct (own_post (set_backend b w) _ _ _ _ _ _ Er) as [Ho Hoo].
  apply wp_bnd, (wp_from _ _ _ _ _ _ E). apply wp_bnd.
  eapply wp_from; [eapply put_data_run; rewrite Eb; cbn; apply lookup_insert_eq|]. apply wp_ret.
  rewrite Eb. cbn [b live set_live backend set_backend]. rewrite insert_insert_eq. split_and!.
  - split; cbn; try apply HI; [rewrite same_requests_backend; done|].
    apply (link_ext (own w1) _ _ (pend ++ waiting (backend w)) _
             (r :: ev ++ all_posted (transport (backend w))) _ hold _ (cancel_queues (backend w)));
      try done; [|by rewrite Hu, Permutation_middle].
    apply (link_post (own w)); [apply HI|by eapply own_fresh, HI|done..].
  - split; cbn in *; rewrite ?Ei, ?Ec, ?En, ?Ecl; try done. lia.
  - right. split_and!; [done| |done|done]. exists (Some r, cell). exact Ho.
Qed.

(** ** The operations *)

Lemma transport_stable w u : stable w (set_backend (set_transport u (backend w)) w).
Proof. by apply stable_loose. Qed.

(** The callback of an operation that has completed: called at once, or queued
    at the recursion limit. *)
Lemma complete_now_wp exec pend ev hold w cell q p t cb x (reached : W → bool) (inc dec : M W unit) :
  inv exec pend ev hold w → cell ∈ cells → is_ready_queue q = true →
  (reached w = false →
   wp allowed (inc ;;; scoped (call_cb call cb p t) dec ;;; ret None) (posts exec pend ev hold w cb p t) w) →
  wp allowed (let! d := gets reached in
              if d : bool then let! s := post cell p t cb x in push q s ;;; ret (Some s)
              else inc ;;; scoped (call_cb call cb p t) dec ;;; ret None)
    (posts exec pend ev hold w cb p t) w.
Proof.
  intros HI Hcell Hq Hin. apply wp_bnd, wp_gets. apply wp_if; intros Hd; [by apply post_queue_wp|auto].
Qed.

Lemma connect_wp exec pend ev hold w dst (Q : unit → W → Prop) :
  inv exec pend ev hold w → dst ∈ m_endpoint_cache (backend w) ∪ peers →
  (∀ b, inv exec pend ev hold (set_backend b w) → stable w (set_backend b w) → Q tt (set_backend b w)) →
  wp allowed (connect peers dst) Q w.
Proof.
  intros HI Hd HQ. unfold connect. apply wp_bnd, wp_gets. case_decide as Hc.
  - apply wp_ret. pose proof (HQ (backend w)) as HQw. destruct w. by apply HQw.
  - case_decide as Hp; [|set_solver]. apply wp_modify, HQ; [|by apply stable_loose].
    eapply ucx_inv_backend; [exact HI|apply HI|done..].
Qed.

Lemma send_wp exec pend ev hold w ptr size dst tag cb :
  well_behaved cb → inv exec pend ev hold w → unlocked w → dst ∈ m_endpoint_cache (backend w) ∪ peers →
  wp allowed (send call recursion_depth rank peers ptr size dst tag cb) (posts exec pend ev hold w cb dst tag) w.
Proof.
  intros Hcb HI Hu Hd. unfold send. apply wp_bnd, (connect_wp exec pend ev hold); [done|done|].
  intros b HI0 HS0. set (w0 := set_backend b w) in *.
  assert (unlocked w0) as Hu0 by (intros Ht; rewrite (st_locked _ _ _ _ HS0); by apply Hu).
  eapply wp_mono with (Q := posts exec pend ev hold w0 cb dst tag);
    [|intros o w'; by apply posts_backend].
  apply wp_bnd, wp_gets, wp_bnd. unfold ucx_call, wp at 1. set (r := fresh _).
  destruct (ucp_tag_send_nb _ _ _ _ _ _) as [res u] eqn:E. set (w1 := set_backend (set_transport u _) w0).
  destruct (send_nb_posted _ _ _ _ _ _ _ _ E) as [[[-> HP]|[-> HP]] HR].
  - assert (inv exec pend ev hold w1) as HI1.
    { apply transport_inv with ev; [done|]. unfold all_posted. by rewrite HP, HR. }
    eapply wp_mono with (Q := posts exec pend ev hold w1 cb dst tag);
      [|intros o w'; apply posts_backend, transport_stable].
    apply complete_now_wp; [done|set_solver|done|]. by apply inline_depth_wp.
  - apply wp_bnd. unfold alloc_request, bnd at 1, gets, upd_backend, modify, ret, wp at 1. cbn.
    apply (post_fly_wp exec pend ev hold w0 scheduled_sends r u dst tag cb HI0); [set_solver| |].
    + apply not_elem_of_dom. apply is_fresh.
    + unfold all_posted. by rewrite HP, HR.
Qed.

(** The receive has completed before its request data was written: the
    callback returns at once and the UCX request is freed. *)
Lemma early_run r w :
  live (backend w) !! r = None →
  let w1 := set_backend (set_live (<[r := destroyed]> (live (backend w))) (backend w)) w in
  recv_callback call thread_safe r UCS_OK w1 = (Ret tt, w1) ∧ ucp_request_free r w1 = (Ret tt, w).
Proof.
  intros Hr w1. split.
  - unfold recv_callback. erewrite bnd_ret; [|apply get_data_run, lookup_insert_eq]. done.
  - erewrite free_run by apply lookup_insert_eq. unfold freed, w1. cbn.
    rewrite delete_insert_id by done. by destruct w as [? ? ? ? ? ? []].
Qed.

(** A state of the mutex that the operation restores. *)
Definition held w : W := with_lock (if thread_safe then true else locked (backend w)) w.

Lemma held_stable w b :
  m_recursion_depth b = m_recursion_depth (backend w) →
  ctx_recursion_depth b = ctx_recursion_depth (backend w) →
  locked b = locked (backend (held w)) → tl_found b = tl_found (backend w) →
  (thread_safe = false → m_recv_req_queue (backend w) `prefix_of` m_recv_req_queue b) →
  stable (held w) (set_backend b (held w)).
Proof. intros. by apply stable_loose. Qed.

Lemma recv_core_wp exec pend ev hold w reached inc dec cell q data ptr size src tag cb :
  inv exec pend ev hold w → unlocked w → cell ∈ cells → is_ready_queue q = true →
  (∀ s, data s = data_for cell s) →
  (∀ w, inv exec pend ev hold w → unlocked w → reached w = false →
     wp allowed (inc ;;; scoped (call_cb call cb src tag) dec ;;; ret None)
       (posts exec pend ev hold w cb src tag) w) →
  wp allowed (recv_core call thread_safe reached inc dec cell q data ptr size src tag cb)
    (posts exec pend ev hold w cb src tag) w.
Proof.
  intros HI Hu Hcell Hq Hdata Hin. unfold recv_core.
  apply wp_bnd, (wp_from _ _ _ _ _ _ (lock_if_run _ _ Hu)). fold (held w).
  set (r := fresh (dom (live (backend w)))).
  assert (live (backend w) !! r = None) as Hr by (apply not_elem_of_dom, is_fresh).
  apply wp_bnd. unfold alloc_request, wp at 1. cbn. fold r.
  apply wp_bnd. unfold ucx_call, wp at 1. cbn.
  destruct (ucp_tag_recv_nb _ _ _ _ _ _) as [res u] eqn:E.
  destruct (recv_nb_posted _ _ _ _ _ _ _ _ E) as [[[-> HP]|[-> HP]] HS].
  - set (w1 := set_backend (set_transport u (backend (held w))) (held w)).
    destruct (early_run r w1 Hr) as [E1 E2].
    apply wp_bnd, (wp_from _ _ _ _ _ _ E1), wp_bnd, (wp_from _ _ _ _ _ _ E2).
    assert (stable (held w) w1) as HS1 by by apply held_stable.
    apply wp_bnd, (wp_from _ _ _ _ _ _ (unlock_if_run _ _ _ _ Hu HS1)).
    set (w2 := with_lock _ w1).
    assert (w2 = set_backend (set_transport u (backend w)) w) as -> by done.
    eapply wp_mono; [apply complete_now_wp|intros o w'; apply posts_backend, transport_stable]; try done.
    + apply transport_inv with ev; [done|]. unfold all_posted. by rewrite HP, HS.
    + intros Hd. apply Hin; [|done..]. apply transport_inv with ev; [done|]. unfold all_posted. by rewrite HP, HS.
  - pose proof (post_fly_wp exec pend ev hold (held w) cell r u src tag cb) as Hfly.
    specialize (Hfly (with_lock_inv _ _ _ _ _ _ _ HI) Hcell Hr).
    specialize (Hfly ltac:(unfold all_posted; by rewrite HP, HS, Permutation_middle)).
    unfold wp, bnd in Hfly |- *. destruct (post _ _ _ _ _ _) as [[s| |h] w3]; [|done..].
    rewrite Hdata. destruct (put_data _ _ w3) as [[[]| |h] w4]; [|done..].
    destruct Hfly as (HI4 & HS4 & HP4). rewrite (unlock_if_run _ _ _ _ Hu HS4).
    split_and!; [by apply with_lock_inv|by eapply bracket_stable|done].
Qed.

Lemma recv_wp exec pend ev hold w ptr size src tag cb :
  well_behaved cb → inv exec pend ev hold w → unlocked w →
  wp allowed (recv call recursion_depth thread_safe ptr size src tag cb)
    (posts exec pend ev hold w cb src tag) w.
Proof.
  intros Hcb HI Hu. apply recv_core_wp; try done; [set_solver|].
  intros w' HI' Hu' Hd. by apply inline_depth_wp.
Qed.

Lemma shared_recv_wp exec pend ev hold w ptr size src tag cb :
  well_behaved cb → inv exec pend ev hold w → unlocked w →
  wp allowed (shared_recv call recursion_depth thread_safe ptr size src tag cb)
    (posts exec pend ev hold w cb src tag) w.
Proof.
  intros Hcb HI Hu. apply recv_core_wp; try done; [set_solver|].
  intros w' HI' Hu' Hd. by apply inline_ctx_depth_wp.
Qed.
End post.
