(* ===== verification/UcxCancel.v ===== *)
(** * Cancellation on the UCX backend

    A receive that is attached to its UCX request may be canceled: it is then
    either marked canceled, with its UCX request freed, or left to complete. *)
From S2P Require Import Prelude Tags Request UcxModel UcxInv UcxOps.

Section cancel.
Context `{Ucx, !UcxLaws} {Hfault : UcxFaultless} {CB : Type}.
Abbreviation W := (world CB ucx_ext ucx_backend).
Implicit Types w : W.
Variable call : CB → Z → Z → M W unit.
Variable recursion_depth : Z.
Variables thread_safe strict : bool.
Abbreviation inv := (inv recursion_depth).
Abbreviation stable := (stable thread_safe strict).
Abbreviation unlocked := (unlocked thread_safe).
Abbreviation allowed := (allowed strict).
Hypothesis Hcall : ∀ cb, well_behaved recursion_depth thread_safe strict call cb.

(** The UCX request is handed to [ucp_request_cancel]. *)
Lemma request_cancel_wp exec pend ev hold w s :
  inv exec pend ev hold w → attached (live (backend w)) hold s →
  wp allowed (request_cancel s) (λ _ w', inv exec pend ev hold w' ∧ stable w w') w.
Proof.
  intros HI (r & c & Hh & Hr). pose proof (inv_link _ _ _ _ _ _ HI) as HL.
  destruct (lk_data _ _ _ _ _ _ HL r _ Hr Hh) as (l & c' & E%data_for_inj & Ho). subst l.
  unfold own in Ho. destruct (reqs w !! s) as [st|] eqn:Hs; [|done].
  destruct (m_self_ptr st) eqn:Hself; [|done]. injection Ho as Hext Hc.
  unfold request_cancel. apply wp_bnd, (wp_from _ _ _ _ _ _ (get_req_ok _ _ _ Hs)). cbv beta. rewrite Hext.
  apply wp_bnd, (wp_from _ _ _ _ _ _ (get_data_run _ _ _ Hr)).
  unfold ucx_call, wp. split.
  - apply transport_inv with ev; [done|]. unfold all_posted. by rewrite !cancel_posted.
  - apply stable_backend; try done. intros _. unfold need, waiting. cbn.
    pose proof (cancel_budget Send_worker r (transport (backend w))).
    pose proof (cancel_budget Recv_worker r (transport (backend w))). lia.
Qed.

(** The search of the queue of canceled receives. *)
Definition is_cancel_queue (q : qid) : bool :=
  match q with CancelQ | CtxCancelQ => true | _ => false end.

Lemma cancel_queues_filter q s b :
  is_cancel_queue q = true → NoDup (cancel_queues b) → s ∈ get_q q b →
  cancel_queues b ≡ₚ s :: cancel_queues (set_q q (filter (λ x, x ≠ s) (get_q q b)) b).
Proof.
  unfold cancel_queues. intros Hq Hnd Hs. destruct q; try done; cbn in *;
    apply NoDup_app in Hnd as (H1 & _ & H2).
  - rewrite (filter_ne_perm (m_cancel_recv_req_queue b) s) at 1 by done. done.
  - rewrite (filter_ne_perm (ctx_cancel_recv_req_queue b) s) at 1 by done. by rewrite Permutation_middle.
Qed.

Lemma set_q_same q b : set_q q (get_q q b) b = b.
Proof. by destruct b, q. Qed.

(** The outcome: [s] was found, and its UCX request is now the only trace of
    it; or nothing has changed. *)
Lemma take_canceled_wp q s exec pend ev hold w :
  is_cancel_queue q = true → inv exec pend ev hold w →
  wp allowed (take_canceled q s) (λ found w', stable w w' ∧
    if found : bool then
      ∃ r c, inv exec pend (r :: ev) hold w' ∧ live (backend w') !! r = Some (data_for c s) ∧
             own w' s = Some (Some r, c)
    else w' = w) w.
Proof.
  intros Hq HI. unfold take_canceled. apply wp_bnd, wp_gets, wp_bnd, wp_modify, wp_ret.
  split; [apply stable_backend; by destruct q|].
  pose proof (inv_link _ _ _ _ _ _ HI) as HL. case_bool_decide as Hs.
  - assert (link (own w) (live (backend w)) (pend ++ waiting (backend w))
      (ev ++ all_posted (transport (backend w))) hold
      (s :: cancel_queues (set_q q (filter (λ x, x ≠ s) (get_q q (backend w))) (backend w)))) as HL'.
    { apply (link_ext _ _ _ _ _ _ _ _ _ _ _ HL); try done. symmetry.
      apply cancel_queues_filter; [done|apply HL|done]. }
    destruct (link_uncancel _ _ _ _ _ _ _ HL') as (r & c & Hr & Ho & HL2).
    exists r, c. split_and!; [|done|done].
    eapply ucx_inv_backend; [exact HI| |done..].
    by apply (link_ext _ _ _ _ _ _ _ _ _ _ _ HL2); destruct q.
  - rewrite filter_all by (intros x Hx ->; done). rewrite set_q_same. by destruct w.
Qed.

(** [finish_cancel] *)
Lemma finish_cancel_wp r c exec pend ev hold w s :
  inv exec pend (r :: ev) hold w → live (backend w) !! r = Some (data_for c s) →
  own w s = Some (Some r, c) → unlocked w →
  wp allowed (finish_cancel thread_safe s)
    (λ _ w', inv exec pend ev hold w' ∧ stable w w' ∧ canceled w' = canceled w ++ [s] ∧
             invoked w' = invoked w) w.
Proof.
  intros HI Hr Ho Hu. destruct (event_data _ _ _ _ _ _ _ HI) as (s' & c' & Hr' & _ & HI1).
  assert (s' = s) as -> by (apply (data_for_inj c' _ c); congruence).
  unfold own in Ho. destruct (reqs w !! s) as [st|] eqn:Hs; [|done].
  destruct (m_self_ptr st) eqn:Hself; [|done]. injection Ho as Hext _.
  destruct (cancel_self_ok exec w s st (inv_base _ _ _ _ _ _ HI) Hs Hself)
    as (w1 & w2 & st2 & E1 & E2 & HB2 & Er & Hs2 & Hr2 & _ & Eb & Ei & Ec & En & Ecl & Ex).
  unfold finish_cancel, with_self_ref. apply wp_bnd, (wp_from _ _ _ _ _ _ E1).
  assert (reqs w2 !! s = Some st2) as Hl2 by by rewrite Er, lookup_insert_eq.
  apply wp_scoped, wp_bnd, (wp_from _ _ _ _ _ _ E2), wp_bnd, (wp_from _ _ _ _ _ _ (get_req_ok _ _ _ Hl2)).
  cbv beta. rewrite Ex, Hext. set (w3 := freed r w2).
  assert (wp allowed (put_data r destroyed ;;; lock_if thread_safe ;;; ucp_request_free r ;;; unlock_if thread_safe)
            (λ _ w', w' = w3) w2) as Hfree.
  { assert (live (backend w2) !! r = Some (data_for c s)) as Hr3 by by rewrite Eb.
    assert (unlocked w2) as Hu2 by (intros Ht; rewrite Eb; by apply Hu).
    apply wp_bnd, (wp_from _ _ _ _ _ _ (put_data_run _ _ _ _ Hr3)).
    set (wp := set_backend _ w2). assert (unlocked wp) as Hup by done.
    apply wp_bnd, (wp_from _ _ _ _ _ _ (lock_if_run _ _ Hup)).
    apply wp_bnd. eapply wp_from; [eapply free_run; cbn; apply lookup_insert_eq|].
    set (wf := freed _ _).
    assert (stable (with_lock (if thread_safe then true else locked (backend wp)) wp) wf) as HSf.
    { apply stable_freed. cbn. rewrite lookup_insert_eq. by eexists. }
    apply (wp_from _ _ _ _ _ _ (unlock_if_run _ _ _ _ Hup HSf)).
    unfold wf, w3, freed, with_lock. cbn. rewrite delete_insert_eq. by destruct w2 as [? ? ? ? ? ? []]. }
  eapply wp_mono; [exact Hfree|]. intros _ w3' ->.
  assert (base_inv exec w3) as HB3 by (unfold w3, freed; by rewrite same_requests_backend).
  destruct (drop_finished_ok exec w3 s st2 HB3 Hl2 Hr2)
    as (w4 & E4 & HB4 & Eb4 & Ei4 & Ec4 & En4 & Ecl4 & Ho4 & Hs4 & _).
  apply (wp_from _ _ _ _ _ _ E4).
  assert (backend w4 = backend (freed r w)) as Eb5 by (rewrite Eb4; unfold w3, freed; cbn; by rewrite Eb).
  split_and!; [split| |by rewrite Ec4, <- Ec|by rewrite Ei4, <- Ei]; rewrite ?Eb5; try apply HI; [done|..].
  - apply (link_disown (own w) _ _ s); [apply HI1| |].
    + unfold own. destruct (reqs w4 !! s) eqn:E; [|done]. by destruct (Hs4 _ eq_refl) as [-> _].
    + intros l' Hn. unfold own. rewrite Ho4 by done. cbn. by rewrite Er, lookup_insert_ne.
  - assert (stable w (freed r w)) as HSf by (apply stable_freed; by eexists).
    destruct HSf. split; rewrite ?Eb5, ?Ei4, ?Ec4, ?En4, ?Ecl4; cbn; rewrite ?Ei, ?Ec, ?En, ?Ecl; try done.
    + by eexists.
    + intros Ht. unfold need. rewrite Eb5. by apply st_need.
Qed.

(** The part both cancellations share, up to the search. *)
Lemma cancel_drain_wp fuel exec pend ev hold w s :
  inv exec pend ev hold w → unlocked w → (strict = true → need w ≤ fuel) →
  attached (live (backend w)) hold s →
  let h := with_lock (if thread_safe then true else locked (backend w)) w in
  wp allowed (request_cancel s) (λ _ w1,
    wp allowed (drain call thread_safe Recv_worker fuel)
      (λ _ w', inv exec pend ev hold w' ∧ stable h w') w1) h.
Proof.
  intros HI Hu Hf Ha h. assert (inv exec pend ev hold h) as HIh by by apply with_lock_inv.
  eapply wp_mono; [by apply (request_cancel_wp exec pend ev hold h)|]. intros _ w1 [HI1 HS1].
  eapply wp_mono; [apply drain_wp; [done..|]|].
  - intros Ht. specialize (Hf Ht). pose proof (st_need _ _ _ _ HS1 Ht) as Hn. etrans; [exact Hn|done].
  - intros _ w2 [HI2 HS2]. split; [done|by etrans].
Qed.

Lemma cancel_recv_wp fuel exec pend ev hold w s :
  inv exec pend ev hold w → unlocked w → (strict = true → need w ≤ fuel) →
  attached (live (backend w)) hold s →
  wp allowed (cancel_recv call thread_safe fuel s)
    (λ found w', inv exec pend ev hold w' ∧ stable w w' ∧ (found = true → s ∈ canceled w')) w.
Proof.
  intros HI Hu Hf Ha. unfold cancel_recv.
  apply wp_bnd, (wp_from _ _ _ _ _ _ (lock_if_run _ _ Hu)), wp_bnd.
  eapply wp_mono; [by apply cancel_drain_wp|]. intros [] w1 Hd. apply wp_bnd.
  eapply wp_mono; [exact Hd|]. intros _ w2 [HI2 HS2].
  apply wp_bnd, (wp_from _ _ _ _ _ _ (unlock_if_run _ _ _ _ Hu HS2)).
  set (w3 := with_lock _ w2). assert (stable w w3) as HS3 by by eapply bracket_stable.
  apply wp_bnd. eapply wp_mono; [apply (take_canceled_wp CancelQ s exec pend ev hold);
    [done|by apply with_lock_inv]|].
  intros found w4 [HS4 Hfound]. assert (stable w w4) as HS5 by by etrans.
  apply wp_bnd. destruct found.
  - destruct Hfound as (r & c & HI4 & Hr & Ho).
    eapply wp_mono; [apply (finish_cancel_wp r c exec pend ev hold); [done..|]|].
    + by eapply unlocked_stable.
    + intros _ w5 (HI5 & HS6 & Ec & _). apply wp_ret. split_and!; [done|by etrans|].
      intros _. rewrite Ec. set_solver.
  - subst w4. apply wp_ret, wp_ret. split_and!; [by apply with_lock_inv|done|done].
Qed.

(** [found] was false: the same for shared receives. *)
Lemma ctx_cancel_recv_wp fuel exec pend ev hold w s :
  inv exec pend ev hold w → unlocked w → (strict = true → need w ≤ fuel) →
  attached (live (backend w)) hold s → tl_found (backend w) = false →
  wp allowed (ctx_cancel_recv call thread_safe fuel s)
    (λ found w', inv exec pend ev hold w' ∧
       stable w (set_backend (set_found false (backend w')) w') ∧
       tl_found (backend w') = found ∧ (found = true → s ∈ canceled w')) w.
Proof.
  intros HI Hu Hf Ha Hff. unfold ctx_cancel_recv.
  apply wp_bnd, (wp_from _ _ _ _ _ _ (lock_if_run _ _ Hu)), wp_bnd.
  eapply wp_mono; [by apply cancel_drain_wp|]. intros [] w1 Hd. apply wp_bnd.
  eapply wp_mono; [exact Hd|]. intros _ w2 [HI2 HS2].
  assert (tl_found (backend w2) = false) as Hf2 by (rewrite (st_found _ _ _ _ HS2); done).
  apply wp_bnd. eapply wp_mono; [by apply (take_canceled_wp CtxCancelQ s exec pend ev hold)|].
  intros found w4 [HS4 Hfound]. assert (stable (with_lock (if thread_safe then true else locked (backend w)) w) w4)
    as HS5 by by etrans.
  pose proof (bracket_stable _ _ _ _ _ HS5) as HS6. pose proof (st_locked _ _ _ _ HS5) as El.
  apply wp_bnd. destruct found.
  - destruct Hfound as (r & c & HI4 & Hr & Ho). apply wp_modify. set (w5 := set_backend _ w4).
    apply wp_bnd, (wp_from _ _ _ _ _ _ (unlock_if_locked _ _ w5 Hu El)).
    set (w6 := with_lock _ w5). apply wp_bnd, wp_gets. change (tl_found (backend w6)) with true.
    assert (inv exec pend (r :: ev) hold w6) as HI6.
    { apply (ucx_inv_backend _ _ pend _ (r :: ev) _ hold _ w4 (backend w6) HI4); [apply HI4|done..]. }
    apply wp_bnd. eapply wp_mono; [apply (finish_cancel_wp r c exec pend ev hold); [done..|]|].
    + exact (unlocked_stable _ _ _ _ HS6 Hu).
    + intros _ w7 (HI7 & HS7 & Ec & _). apply wp_ret. split_and!; [done| |by rewrite (st_found _ _ _ _ HS7)|].
      * pose proof (st_found _ _ _ _ HS4) as Hf4. etrans; [exact HS6|].
        destruct HS7. split; try done. cbn. congruence.
      * intros _. rewrite Ec. set_solver.
  - subst w4. apply wp_ret. apply wp_bnd, (wp_from _ _ _ _ _ _ (unlock_if_run _ _ _ _ Hu HS2)).
    set (w6 := with_lock _ w2). apply wp_bnd, wp_gets. change (tl_found (backend w6)) with (tl_found (backend w2)).
    rewrite Hf2. apply wp_bnd, wp_ret, wp_ret. split_and!; [by apply with_lock_inv| |done|done].
    etrans; [exact HS6|]. fold w6. apply stable_backend; try done.
Qed.
End cancel.
