(* ===== verification/UcxApi.v ===== *)
(** * What a program sees of the UCX backend

    The operations of the library as steps between states of the program, the
    invariant in every reachable state, and what follows from it. *)
From S2P Require Import Prelude Tags Request UcxModel UcxInv UcxOps UcxPost UcxCancel.

Section api.
Context `{Ucx, !UcxLaws} {Hfault : UcxFaultless} {CB : Type}.
Abbreviation W := (world CB ucx_ext ucx_backend).
Implicit Types w : W.
Variable call : CB → Z → Z → M W unit.
Variable recursion_depth : Z.
Variable thread_safe : bool.
Variable rank : Z.
Variable peers : gset Z.

(** The state after the construction of context and communicator, with a
    transport on which nothing is in flight. *)
Definition init (u : ucx_st) : W :=
  World ∅ 1 ∅ [] [] [] (UcxBackend _ u ∅ false ∅ [] [] [] [] [] false 0 0).

(** What a program may do next.  A receive is canceled through a handle while
    it is attached to its UCX request; a shared receive as long as no earlier
    cancellation has succeeded (see [stale_found_cancels]).  [step_env] is the
    network: nothing is lost. *)
Inductive api_step : W → W → Prop :=
| step_send w ptr size dst tag cb o w' :
    send call recursion_depth rank peers ptr size dst tag cb w = (Ret o, w') → api_step w w'
| step_recv w ptr size src tag cb o w' :
    recv call recursion_depth thread_safe ptr size src tag cb w = (Ret o, w') → api_step w w'
| step_shared_recv w ptr size src tag cb o w' :
    shared_recv call recursion_depth thread_safe ptr size src tag cb w = (Ret o, w') → api_step w w'
| step_progress w fuel w' : progress call thread_safe fuel w = (Ret tt, w') → api_step w w'
| step_ctx_progress w fuel w' : ctx_progress call thread_safe fuel w = (Ret tt, w') → api_step w w'
| step_cancel w fuel s b w' :
    attached (live (backend w)) [] s → cancel_recv call thread_safe fuel s w = (Ret b, w') →
    api_step w w'
| step_ctx_cancel w fuel s b w' :
    attached (live (backend w)) [] s → tl_found (backend w) = false →
    ctx_cancel_recv call thread_safe fuel s w = (Ret b, w') → api_step w w'
| step_drop w l st w' :
    reqs w !! l = Some st → (if m_self_ptr st then 1 else 0) < m_refs st →
    drop_ref l w = (Ret tt, w') → api_step w w'
| step_env w u :
    all_posted u ≡ₚ all_posted (transport (backend w)) →
    api_step w (set_backend (set_transport u (backend w)) w).

Definition reachable (u : ucx_st) w : Prop := all_posted u = [] ∧ rtc api_step (init u) w.

Abbreviation inv := (inv recursion_depth).
Abbreviation stable := (stable thread_safe false).
Abbreviation allowed := (allowed false).
Hypothesis Hrd : (0 ≤ recursion_depth < 2 ^ 64 - 1)%Z.
Hypothesis Hcall : ∀ cb, well_behaved recursion_depth thread_safe false call cb.

(** Between operations. *)
Definition good w : Prop := inv [] [] [] [] w ∧ locked (backend w) = false.

Lemma good_unlocked w : good w → unlocked thread_safe w.
Proof. intros [_ E] _. done. Qed.

Lemma good_stable w w' : good w → inv [] [] [] [] w' → stable w w' → good w'.
Proof. intros [_ E] HI HS. split; [done|]. by rewrite (st_locked _ _ _ _ HS). Qed.

Lemma init_good u : all_posted u = [] → good (init u).
Proof.
  intros Hu. split; [|done]. split; cbn; try lia.
  - split; cbn; try (intros *; by rewrite lookup_empty); try set_solver; try apply NoDup_nil_2.
    intros l Hl. lia.
  - unfold waiting, cancel_queues. cbn. rewrite Hu.
    apply (link_ext _ _ _ _ _ _ _ _ _ _ _ link_nil); done.
Qed.

(** Dropping a handle changes no request that waits. *)
Lemma drop_handle_good w l st :
  good w → reqs w !! l = Some st → (if m_self_ptr st then 1 else 0) < m_refs st →
  ∃ w', drop_ref l w = (Ret tt, w') ∧ good w' ∧ stable w w'.
Proof.
  intros [HI El] Hl Hr.
  destruct (drop_ref_ok [] w l st) as (w' & E & HB & Eb & Ei & Ec & En & Ecl & Ho & Hl');
    [apply HI|done|rewrite decide_False by set_solver; lia|].
  exists w'. split; [done|].
  assert (∀ l', own w' l' = own w l') as Hown.
  { intros l'. unfold own. destruct (decide (l' = l)) as [->|Hn]; [|by rewrite Ho].
    rewrite Hl, Hl'. case_decide as E1; cbn; [|done].
    destruct (m_self_ptr st); [lia|done]. }
  split; [split; [split|]|]; rewrite ?Eb; try apply HI; try done.
  - by apply (link_ext _ _ _ _ _ _ _ _ _ _ _ (inv_link _ _ _ _ _ _ HI)).
  - split; rewrite ?Eb, ?Ei, ?Ec, ?En, ?Ecl; done.
Qed.

(** From a [wp] to the state an operation returned. *)

(** Every step keeps the state good, and, ignoring the variable of the shared
    cancellation, is stable. *)
Definition quiet w w' : Prop := good w' ∧ stable w (set_backend (set_found (tl_found (backend w)) (backend w')) w').

Lemma quiet_of w w' : good w → inv [] [] [] [] w' → stable w w' → quiet w w'.
Proof.
  intros Hg HI HS. split; [by eapply good_stable|].
  replace (set_found _ _) with (backend w'); [by destruct w'|].
  rewrite <- (st_found _ _ _ _ HS). by destruct (backend w').
Qed.

(** A send that returns is to a rank in the address database. *)
Lemma send_connected w ptr size dst tag cb o w' :
  send call recursion_depth rank peers ptr size dst tag cb w = (Ret o, w') →
  dst ∈ m_endpoint_cache (backend w) ∪ peers.
Proof.
  intros (? & ? & E & _)%bnd_inv. unfold connect, bnd, gets in E.
  repeat case_decide; [set_solver..|done].
Qed.

Lemma step_good w w' : good w → api_step w w' → quiet w w'.
Proof.
  intros Hg Hstep. pose proof Hg as [HI El]. pose proof (good_unlocked w Hg) as Hu.
  destruct Hstep as [w ptr size dst tag cb o w' E|w ptr size src tag cb o w' E|
    w ptr size src tag cb o w' E|w fuel w' E|w fuel w' E|w fuel s b w' Ha E|
    w fuel s b w' Ha Hf E|w l st w' Hl Hr E|w u HP].
  - pose proof (send_connected _ _ _ _ _ _ _ _ E) as Hd. destruct (wp_inv _ _ _ _ _ _
      (send_wp call recursion_depth thread_safe rank peers Hrd [] [] [] [] w ptr size dst tag cb (Hcall cb) HI Hu Hd) E)
      as (? & ? & _). by apply quiet_of.
  - destruct (wp_inv _ _ _ _ _ _
      (recv_wp call recursion_depth thread_safe Hrd [] [] [] [] w ptr size src tag cb (Hcall cb) HI Hu) E)
      as (? & ? & _). by apply quiet_of.
  - destruct (wp_inv _ _ _ _ _ _
      (shared_recv_wp call recursion_depth thread_safe Hrd [] [] [] [] w ptr size src tag cb (Hcall cb) HI Hu) E)
      as (? & ? & _). by apply quiet_of.
  - destruct (wp_inv _ _ _ _ _ _
      (progress_wp recursion_depth thread_safe false call Hcall fuel [] [] [] [] w HI Hu ltac:(done)) E)
      as (? & ?). by apply quiet_of.
  - destruct (wp_inv _ _ _ _ _ _
      (ctx_progress_wp recursion_depth thread_safe false call Hcall fuel [] [] [] [] w HI Hu ltac:(done)) E)
      as (? & ?). by apply quiet_of.
  - destruct (wp_inv _ _ _ _ _ _
      (cancel_recv_wp call recursion_depth thread_safe false Hcall fuel [] [] [] [] w s HI Hu ltac:(done) Ha) E)
      as (? & ? & _). by apply quiet_of.
  - destruct (wp_inv _ _ _ _ _ _
      (ctx_cancel_recv_wp call recursion_depth thread_safe false Hcall fuel [] [] [] [] w s HI Hu ltac:(done) Ha Hf) E)
      as (HI' & HS & _). unfold quiet. rewrite Hf. split; [split; [done|]|done].
    pose proof (st_locked _ _ _ _ HS) as E'. cbn in E'. by rewrite E'.
  - destruct (drop_handle_good w l st Hg Hl Hr) as (w2 & E2 & Hg2 & HS2).
    replace w' with w2 by congruence. apply quiet_of; [done|apply Hg2|done].
  - apply quiet_of; [done| |apply transport_stable].
    by apply transport_inv with [].
Qed.

Lemma steps_good w w' : good w → rtc api_step w w' → good w'.
Proof. intros Hg Hr. induction Hr as [|w1 w2 w3 Hs _ IH]; [done|]. apply IH. by apply (step_good w1). Qed.

Lemma reachable_good u w : reachable u w → good w.
Proof. intros [Hu Hr]. eapply steps_good; [by apply init_good|done]. Qed.

(** ** Promises *)

(** The requests that wait: completed ones in a queue, or attached to a UCX
    request that is in flight or canceled. *)
Definition tracked w (l : positive) : Prop :=
  l ∈ waiting (backend w) ∨ attached (live (backend w)) [] l.

(** They are the requests that hold on to themselves. *)
Lemma tracked_held w l :
  inv [] [] [] [] w → tracked w l ↔ ∃ st, reqs w !! l = Some st ∧ m_self_ptr st = true.
Proof.
  intros HI. pose proof (inv_link _ _ _ _ _ _ HI) as HL. cbn in HL.
  unfold tracked. rewrite <- (lk_own _ _ _ _ _ _ HL). unfold own. split.
  - destruct (reqs w !! l) as [st|]; [|by intros []]. destruct (m_self_ptr st) eqn:E; [eauto|by intros []].
  - intros (st & -> & ->). by eexists.
Qed.

(** C10: In every state a program reaches without an error of UCX ([UcxFaultless]),
    with receives canceled only while they are in flight, and shared ones only while
    no shared cancellation has succeeded before, the requests ever posted are
    partitioned: a request waits, in one place of one queue or attached to one
    UCX request, or its callback has been called once, or it has been canceled;
    and the allocated UCX requests are exactly those in flight and those of
    canceled receives: none leaks. *)
Theorem ucx_callback_exactly_once u w :
  reachable u w →
  NoDup (waiting (backend w)) ∧ NoDup (invoked w ++ canceled w) ∧
  (∀ l, l ∈ waiting (backend w) → ¬ attached (live (backend w)) [] l) ∧
  (∀ l, tracked w l → l ∉ invoked w ++ canceled w) ∧
  (∀ l, (l < next w)%positive ↔ tracked w l ∨ l ∈ invoked w ++ canceled w) ∧
  (∀ r, is_Some (live (backend w) !! r) ↔
        r ∈ all_posted (transport (backend w)) ∨
        in_cancel_queue (live (backend w)) [] (cancel_queues (backend w)) r).
Proof.
  intros [HI _]%reachable_good. pose proof (inv_base _ _ _ _ _ _ HI) as HB.
  pose proof (inv_link _ _ _ _ _ _ HI) as HL. cbn in HL.
  pose proof (λ l, tracked_held w l HI) as Ht.
  split_and!; [apply HL|apply HB|apply HL| | |].
  - intros l (st & Hl & Hs)%Ht. by eapply bi_waiting.
  - intros l. rewrite Ht. split; [apply (bi_total _ _ HB)|].
    intros [(st & Hl & Hs)|Hin]; [|by apply (bi_past _ _ HB)]. apply (bi_next _ _ HB). by eexists.
  - intros r. rewrite (lk_where _ _ _ _ _ _ HL). by rewrite app_nil_r.
Qed.

(** C20: From every such state every operation (a send to a rank of the address
    database, a cancellation under the same conditions) returns, or goes on as long as
    callbacks keep posting: as long as UCX reports no error, no freed request is used, no
    assertion fails, and the mutex is never waited for while it is held, and free
    afterwards. *)
Theorem ucx_operations_safe u w :
  reachable u w →
  let safe A (m : M W A) :=
    wp (λ h, h = out_of_fuel) m (λ _ w', locked (backend w') = false) w in
  (∀ ptr size dst tag cb, dst ∈ peers → safe _ (send call recursion_depth rank peers ptr size dst tag cb)) ∧
  (∀ ptr size src tag cb, safe _ (recv call recursion_depth thread_safe ptr size src tag cb)) ∧
  (∀ ptr size src tag cb, safe _ (shared_recv call recursion_depth thread_safe ptr size src tag cb)) ∧
  (∀ fuel, safe _ (progress call thread_safe fuel)) ∧
  (∀ fuel, safe _ (ctx_progress call thread_safe fuel)) ∧
  (∀ fuel s, attached (live (backend w)) [] s → safe _ (cancel_recv call thread_safe fuel s)) ∧
  (∀ fuel s, attached (live (backend w)) [] s → tl_found (backend w) = false →
     safe _ (ctx_cancel_recv call thread_safe fuel s)).
Proof.
  intros Hg%reachable_good safe. pose proof Hg as [HI El]. pose proof (good_unlocked w Hg) as Hu.
  assert (∀ A (m : M W A) (Q : A → W → Prop), wp allowed m Q w →
            (∀ a w', Q a w' → locked (backend w') = locked (backend w)) → safe A m) as Hsafe.
  { intros A m Q Hm HQ. unfold safe, wp in *. destruct (m w) as [[a| |h] w']; [|done|by destruct Hm].
    rewrite <- El. by apply (HQ a). }
  split_and!.
  - intros. eapply Hsafe; [apply send_wp; [done..|set_solver]|]. intros ? ? (_ & HS & _). apply HS.
  - intros. eapply Hsafe; [by apply recv_wp|]. intros ? ? (_ & HS & _). apply HS.
  - intros. eapply Hsafe; [by apply shared_recv_wp|]. intros ? ? (_ & HS & _). apply HS.
  - intros. eapply Hsafe; [by apply progress_wp|]. intros ? ? (_ & HS). apply HS.
  - intros. eapply Hsafe; [by apply ctx_progress_wp|]. intros ? ? (_ & HS). apply HS.
  - intros. eapply Hsafe; [by apply cancel_recv_wp|]. intros ? ? (_ & HS & _). apply HS.
  - intros. eapply Hsafe; [by apply ctx_cancel_recv_wp|]. intros ? ? (_ & HS & _). apply HS.
Qed.

(** ** Limits of the implementation *)

(** C40: A receive that completes early at the recursion limit goes to a queue that
    only a thread-safe context works through: otherwise it stays there whatever
    the program does, and its callback is never called. *)
Theorem ucx_early_receive_lost u w w' l :
  thread_safe = false → reachable u w → l ∈ m_recv_req_queue (backend w) → rtc api_step w w' →
  l ∈ m_recv_req_queue (backend w') ∧ l ∉ invoked w' ++ canceled w'.
Proof.
  intros Ht Hg%reachable_good Hl Hr.
  assert (good w' ∧ l ∈ m_recv_req_queue (backend w')) as [[HI _] Hl'].
  { induction Hr as [|w1 w2 w3 Hs _ IH]; [done|].
    destruct (step_good w1 w2 Hg Hs) as [Hg2 HS]. apply IH; [done|].
    destruct (st_recvq _ _ _ _ HS Ht) as [k Ek]. cbn in Ek. rewrite Ek. set_solver. }
  split; [done|]. pose proof (inv_link _ _ _ _ _ _ HI) as HL.
  destruct (proj2 (lk_own _ _ _ _ _ _ HL l)) as [x Hx].
  { left. unfold waiting. set_solver. }
  unfold own in Hx. destruct (reqs w' !! l) as [st|] eqn:E; [|done].
  destruct (m_self_ptr st) eqn:Es; [|done]. eapply bi_waiting; [apply HI|done..].
Qed.

(** The [found] of [context_impl::cancel_recv] is static and never reset: once
    a shared receive has been canceled, every later cancellation reports
    success, whatever UCX did. *)
Theorem stale_found_cancels u w fuel s b w' :
  reachable u w → attached (live (backend w)) [] s → tl_found (backend w) = true →
  ctx_cancel_recv call thread_safe fuel s w = (Ret b, w') → b = true.
Proof.
  intros Hg%reachable_good Ha Hf E. pose proof Hg as [HI El]. pose proof (good_unlocked w Hg) as Hu.
  unfold ctx_cancel_recv in E. rewrite (bnd_ret _ _ _ _ _ (lock_if_run _ _ Hu)) in E.
  apply bnd_inv in E as ([] & w1 & E1 & E). apply bnd_inv in E as ([] & w2 & E2 & E).
  pose proof (cancel_drain_wp call recursion_depth thread_safe false Hcall fuel [] [] [] [] w s HI Hu
    ltac:(done) Ha) as Hd.
  destruct (wp_inv _ _ _ _ _ _ (wp_inv _ _ _ _ _ _ Hd E1) E2) as [HI2 HS2].
  pose proof (st_found _ _ _ _ HS2) as Hf2. cbn in Hf2. rewrite Hf in Hf2.
  apply bnd_inv in E as (f & w3 & E3 & E). apply bnd_inv in E as ([] & w4 & E4 & E).
  apply bnd_inv in E as ([] & w5 & E5 & E). apply bnd_inv in E as (b' & w6 & [= <- <-] & E).
  apply bnd_inv in E as ([] & w7 & _ & [= <- _]).
  assert (tl_found (backend w3) = true) as Hf3.
  { unfold take_canceled, bnd, gets, upd_backend, modify, ret in E3. injection E3 as _ <-. exact Hf2. }
  assert (tl_found (backend w4) = true) as Hf4.
  { destruct f; [injection E4 as <-; done|injection E4 as <-; done]. }
  unfold unlock_if in E5. destruct thread_safe; injection E5 as <-; done.
Qed.
End api.

Section liveness.
Context `{Ucx, !UcxLaws} {Hfault : UcxFaultless} {CB : Type}.
Implicit Types w : world CB ucx_ext ucx_backend.
Variable call : CB → Z → Z → M (world CB ucx_ext ucx_backend) unit.
Variable recursion_depth : Z.
Variable thread_safe : bool.
(** Callbacks that return and leave the transport no more to do. *)
Hypothesis Hcall : ∀ cb, well_behaved recursion_depth thread_safe true call cb.

(** The progress loops terminate: with callbacks that post nothing,
    [communicator_impl::progress] and [context_impl::progress] return within
    [need w] iterations of each loop, a number the transport, the allocated UCX
    requests and the queues determine. *)
Theorem ucx_progress_returns fuel w :
  inv recursion_depth [] [] [] [] w → unlocked thread_safe w → need w ≤ fuel →
  ∃ w1 w2, progress call thread_safe fuel w = (Ret tt, w1) ∧
           ctx_progress call thread_safe fuel w = (Ret tt, w2) ∧
           need w1 ≤ need w ∧ need w2 ≤ need w.
Proof.
  intros HI Hu Hf. assert (∀ h, ¬ allowed true h) as Hno by (by intros h [? _]).
  destruct (wp_returns _ _ _ _ Hno (progress_wp recursion_depth thread_safe true call Hcall fuel [] [] [] [] w HI Hu ltac:(done)))
    as ([] & w1 & E1 & _ & HS1).
  destruct (wp_returns _ _ _ _ Hno (ctx_progress_wp recursion_depth thread_safe true call Hcall fuel [] [] [] [] w HI Hu ltac:(done)))
    as ([] & w2 & E2 & _ & HS2).
  exists w1, w2. split_and!; [done..|by apply HS1|by apply HS2].
Qed.
End liveness.

Section limits.
Context `{Ucx} {CB : Type}.
Implicit Types w : world CB ucx_ext ucx_backend.
Variable call : CB → Z → Z → M (world CB ucx_ext ucx_backend) unit.
Variable recursion_depth : Z.
Variable thread_safe : bool.

(** A receive that has completed and waits for its callback (pushed by another
    thread's progress, or completed early at the recursion limit) has lost its
    UCX request: canceling it hands a dangling pointer to UCX. *)
Theorem ucx_cancel_completed_undefined fuel w l st r :
  locked (backend w) = false → reqs w !! l = Some st → m_ready st = false →
  m_ext st = Some r → live (backend w) !! r = None →
  ∃ w', cancel_recv call thread_safe fuel l w = (Halt undefined_behaviour, w').
Proof.
  intros El Hl _ Hx Hr. eexists. unfold cancel_recv.
  rewrite (bnd_ret _ _ _ _ _ (lock_if_run _ w (λ _, El))).
  unfold bnd at 1, request_cancel. erewrite bnd_ret by (apply get_req_ok; exact Hl).
  rewrite Hx. unfold bnd, get_data, bnd, gets. cbn. by rewrite Hr.
Qed.

(** If UCX rejects a receive, [recv] throws with the mutex held: the next
    receive of the same thread waits for it forever. *)
Theorem ucx_failed_recv_deadlocks w ptr size src tag cb u :
  thread_safe = true → locked (backend w) = false →
  ucp_tag_recv_nb (fresh (dom (live (backend w)))) ptr size (Ucx.rtag src tag) (Ucx.rtag_mask src)
    (transport (backend w)) = (Nb_error, u) →
  ∃ w', recv call recursion_depth thread_safe ptr size src tag cb w =
          (Throw (runtime_error "oomph: ucx error - recv operation failed"), w') ∧
        ∀ ptr size src tag cb,
          recv call recursion_depth thread_safe ptr size src tag cb w' = (Halt deadlock, w').
Proof.
  intros Ht El E. eexists. split.
  - unfold recv, recv_core. rewrite (bnd_ret _ _ _ _ _ (lock_if_run _ w (λ _, El))).
    unfold bnd at 1, alloc_request, bnd at 1, gets, upd_backend, modify, ret. cbn.
    unfold bnd at 1, ucx_call. cbn. rewrite E. reflexivity.
  - intros. unfold recv, recv_core, bnd at 1, lock_if. rewrite Ht. done.
Qed.
End limits.
