(* ===== verification/UcxExamples.v ===== *)
(** * The UCX backend on a concrete transport

    A small transport that satisfies [UcxLaws], and callbacks that post, on
    which the theorems about the backend are applied: operations of size zero
    complete at once, sends complete in the next round of progress, receives
    when [arrived] is set or when they are canceled. *)
From S2P Require Import Prelude Tags Request UcxModel UcxInv UcxOps UcxPost UcxCancel UcxApi.

Record toy : Type := Toy {
  t_sends : list positive;
  t_recvs : list positive;
  t_canceled : list positive;
  arrived : bool
}.

Definition toy_due (u : toy) (r : positive) : Prop := arrived u = true ∨ r ∈ t_canceled u.
#[export] Instance toy_due_dec u r : Decision (toy_due u r).
Proof. unfold toy_due. apply _. Defined.

Definition toy_progress (k : worker) (u : toy) : list (positive * ucs_status) * bool * toy :=
  match k with
  | Send_worker =>
      ((λ r, (r, UCS_OK)) <$> t_sends u, bool_decide (t_sends u ≠ []),
       Toy [] (t_recvs u) (t_canceled u) (arrived u))
  | Recv_worker =>
      let due := filter (toy_due u) (t_recvs u) in
      ((λ r, (r, if arrived u then UCS_OK else UCS_ERR_CANCELED)) <$> due, bool_decide (due ≠ []),
       Toy (t_sends u) (filter (λ r, ¬ toy_due u r) (t_recvs u)) (t_canceled u) (arrived u))
  end.

#[export] Instance toy_ucx : Ucx := {|
  ucx_st := toy;
  ucp_tag_send_nb r _ _ n _ u :=
    if decide (n = 0%Z) then (Nb_done, u)
    else (Nb_in_progress, Toy (r :: t_sends u) (t_recvs u) (t_canceled u) (arrived u));
  ucp_tag_recv_nb r _ n _ _ u :=
    if decide (n = 0%Z) then (Nb_done, u)
    else (Nb_in_progress, Toy (t_sends u) (r :: t_recvs u) (t_canceled u) (arrived u));
  ucp_worker_progress := toy_progress;
  ucp_request_cancel r u := Toy (t_sends u) (t_recvs u) (r :: t_canceled u) (arrived u)
|}.

Definition toy_posted (k : worker) (u : toy) : list positive :=
  match k with Send_worker => t_sends u | Recv_worker => t_recvs u end.

Lemma toy_progress_posted k u evs p u' :
  toy_progress k u = (evs, p, u') →
  toy_posted k u ≡ₚ evs.*1 ++ toy_posted k u' ∧ (∀ k', k' ≠ k → toy_posted k' u' = toy_posted k' u).
Proof.
  destruct k; cbn; intros [= <- <- <-]; cbn; (split; [|by intros []]).
  - rewrite <- list_fmap_compose. cbn. rewrite list_fmap_id. by rewrite filter_app_complement.
  - rewrite <- list_fmap_compose. cbn. by rewrite list_fmap_id, app_nil_r.
Qed.

#[export] Program Instance toy_ucx_laws : UcxLaws := {|
  posted := toy_posted;
  budget k u := length (toy_posted k u)
|}.
Next Obligation. cbn. intros r dst p n t u res u'. case_decide; intros [= <- <-]; naive_solver. Qed.
Next Obligation. cbn. intros r p n t m u res u'. case_decide; intros [= <- <-]; naive_solver. Qed.
Next Obligation.
  intros k u evs p u' [H1 H2]%toy_progress_posted. split; [done|]. intros k' Hk. by rewrite H2.
Qed.
Next Obligation.
  intros k u evs p u' E. pose proof (toy_progress_posted _ _ _ _ _ E) as [H1%Permutation_length H2].
  rewrite length_app, length_fmap in H1. split.
  - intros k'. destruct k, k'; try (rewrite H2 by done; lia); cbn in *; lia.
  - destruct k; cbn in E; injection E as <- <- <-; rewrite bool_decide_eq_true; intros Hne.
    + rewrite length_fmap in H1. cbn in *. destruct (filter (toy_due u) (t_recvs u)); [done|].
      cbn in H1. lia.
    + cbn in *. destruct (t_sends u); [done|]. cbn. lia.
Qed.
Next Obligation. by intros [] r u. Qed.
Next Obligation. by intros [] r u. Qed.

#[export] Instance toy_ucx_faultless : UcxFaultless.
Proof.
  split.
  - intros r dst p n t u. cbn. by case_decide.
  - intros r p n t m u. cbn. by case_decide.
  - intros k u evs p u' x. destruct k; cbn; intros [= <- <- <-]; rewrite list_elem_of_fmap;
      intros (r & -> & _); [by destruct (arrived u)|done].
Qed.

Abbreviation TW := (world nat ucx_ext ucx_backend).

(** The callback [n] posts an empty receive with the callback [n - 1]. *)
Fixpoint chain (ts : bool) (n : nat) (r t : Z) : M TW unit :=
  match n with
  | O => ret tt
  | S n => recv (λ _, chain ts n) 0 ts 0 0 r t n ;;; ret tt
  end.

Lemma depth_zero_ok : (0 ≤ 0 < 2 ^ 64 - 1)%Z.
Proof. lia. Qed.

Lemma ucx_chain_well_behaved ts n : well_behaved 0 ts false (chain ts) n.
Proof.
  induction n as [|n IH]; intros r t exec pend ev hold w HI Hu; cbn [chain].
  { apply wp_ret. by split. }
  assert (well_behaved 0 ts false (λ _, chain ts n) n) as Hn by exact IH.
  apply wp_bnd. eapply wp_mono; [by apply (recv_wp (λ _, chain ts n) 0 ts depth_zero_ok exec pend ev hold)|].
  intros o w' (? & ? & _). apply wp_ret. by split.
Qed.

Definition idle_toy (a : bool) : toy := Toy [] [] [] a.
Definition run {A} (m : M TW A) (w : TW) : TW := (m w).2.

(** A thread-safe run: a send and two shared receives are in flight; a round of
    progress completes the send; the first shared receive is canceled. *)
Definition ua : TW := run (send (chain true) 0 0 {[1%Z]} 0 8 1 2 1) (init (idle_toy false)).
Definition ub : TW := run (shared_recv (chain true) 0 true 0 8 1 2 0) ua.
Definition u1 : TW := run (shared_recv (chain true) 0 true 0 8 1 2 0) ub.
Definition u2 : TW := run (progress (chain true) true 5) u1.
Definition u3 : TW := run (ctx_cancel_recv (chain true) true 5 2) u2.

Lemma ran_eq {A} (m : M TW A) (w : TW) a : (m w).1 = Ret a → m w = (Ret a, run m w).
Proof. intros <-. apply surjective_pairing. Qed.

Lemma reach_ua : reachable (chain true) 0 true 0 {[1%Z]} (idle_toy false) ua.
Proof.
  split; [done|]. apply rtc_once, (step_send _ _ _ _ _ _ 0 8 1 2 1 (Some 1%positive)).
  apply (ran_eq (send (chain true) 0 0 {[1%Z]} 0 8 1 2 1)). vm_compute. reflexivity.
Qed.

Lemma reach_ub : reachable (chain true) 0 true 0 {[1%Z]} (idle_toy false) ub.
Proof.
  split; [done|]. eapply rtc_r; [apply reach_ua|].
  apply (step_shared_recv _ _ _ _ _ ua 0 8 1 2 0 (Some 2%positive)).
  apply (ran_eq (shared_recv (chain true) 0 true 0 8 1 2 0)). vm_compute. reflexivity.
Qed.

Lemma reach_u1 : reachable (chain true) 0 true 0 {[1%Z]} (idle_toy false) u1.
Proof.
  split; [done|]. eapply rtc_r; [apply reach_ub|].
  apply (step_shared_recv _ _ _ _ _ ub 0 8 1 2 0 (Some 3%positive)).
  apply (ran_eq (shared_recv (chain true) 0 true 0 8 1 2 0)). vm_compute. reflexivity.
Qed.

Lemma reach_u2 : reachable (chain true) 0 true 0 {[1%Z]} (idle_toy false) u2.
Proof.
  split; [done|]. eapply rtc_r; [apply reach_u1|]. apply (step_progress _ _ _ _ _ u1 5), (ran_eq (progress (chain true) true 5)). vm_compute. reflexivity.
Qed.

Lemma attached_u2 l :
  l = 2%positive ∨ l = 3%positive → attached (live (backend u2)) [] l.
Proof.
  intros [->| ->]; [exists 2%positive, 2|exists 3%positive, 2]; (split; [set_solver|]); vm_compute; reflexivity.
Qed.

Lemma reach_u3 : reachable (chain true) 0 true 0 {[1%Z]} (idle_toy false) u3.
Proof.
  split; [done|]. eapply rtc_r; [apply reach_u2|].
  apply (step_ctx_cancel _ _ _ _ _ u2 5 2 true); [apply attached_u2; by left|vm_compute; reflexivity|].
  apply (ran_eq (ctx_cancel_recv (chain true) true 5 2) _ true). vm_compute. reflexivity.
Qed.

(** ** The theorems at these states *)

Lemma ucx_callback_exactly_once_witness :
  invoked u3 = [1%positive] ∧ canceled u3 = [2%positive] ∧
  ∀ l, (l < next u3)%positive ↔ tracked u3 l ∨ l ∈ [1%positive; 2%positive].
Proof.
  split; [vm_compute; reflexivity|]. split; [vm_compute; reflexivity|].
  destruct (ucx_callback_exactly_once (chain true) 0 true 0 {[1%Z]} depth_zero_ok (ucx_chain_well_behaved true)
              (idle_toy false) u3 reach_u3) as (_ & _ & _ & _ & Hp & _).
  exact Hp.
Defined.

Lemma ucx_operations_safe_witness :
  wp (λ h, h = out_of_fuel) (progress (chain true) true 5) (λ _ w', locked (backend w') = false) u3 ∧
  wp (λ h, h = out_of_fuel) (recv (chain true) 0 true 0 0 1 2 1) (λ _ w', locked (backend w') = false) u3.
Proof.
  destruct (ucx_operations_safe (chain true) 0 true 0 {[1%Z]} depth_zero_ok (ucx_chain_well_behaved true)
              (idle_toy false) u3 reach_u3) as (_ & Hr & _ & Hp & _).
  split; [apply Hp|apply Hr].
Defined.

Lemma attached_u3 : attached (live (backend u3)) [] 3%positive.
Proof. exists 3%positive, 2. split; [set_solver|]. vm_compute. reflexivity. Qed.

Lemma stale_found_cancels_witness :
  tl_found (backend u3) = true ∧ (ctx_cancel_recv (chain true) true 5 3 u3).1 = Ret true.
Proof.
  assert (∃ b, (ctx_cancel_recv (chain true) true 5 3 u3).1 = Ret b) as [b E]
    by (exists true; vm_compute; reflexivity).
  assert (tl_found (backend u3) = true) as Hf by (vm_compute; reflexivity).
  split; [exact Hf|]. rewrite E. f_equal.
  apply (stale_found_cancels (chain true) 0 true 0 {[1%Z]} depth_zero_ok (ucx_chain_well_behaved true)
           (idle_toy false) u3 5 3 b _ reach_u3 attached_u3 Hf (ran_eq (ctx_cancel_recv (chain true) true 5 3) u3 b E)).
Defined.

(** Had the message arrived first, the stale flag makes the cancellation touch
    the freed UCX request of the completed receive. *)
Example stale_found_undefined :
  (ctx_cancel_recv (chain true) true 5 3
     (set_backend (set_transport (Toy [] [3%positive] [] true) (backend u3)) u3)).1 =
  Halt undefined_behaviour.
Proof. vm_compute. reflexivity. Qed.

(** *** A single-threaded context *)

(** The callback of an early completed receive posts another one at the
    recursion limit. *)
Definition v1 : TW := run (recv (chain false) 0 false 0 0 1 2 1) (init (idle_toy false)).
Definition v2 : TW := run (progress (chain false) false 5) v1.

Lemma reach_v1 : reachable (chain false) 0 false 0 {[1%Z]} (idle_toy false) v1.
Proof. split; [done|]. apply rtc_once.
  apply (step_recv _ _ _ _ _ _ 0 0 1 2 1 None), (ran_eq (recv (chain false) 0 false 0 0 1 2 1)). vm_compute. reflexivity.
Qed.

Lemma ucx_early_receive_lost_witness :
  m_recv_req_queue (backend v1) = [1%positive] ∧ 1%positive ∈ m_recv_req_queue (backend v2) ∧
  calls v2 = [(1, 1%Z, 2%Z)].
Proof.
  split; [vm_compute; reflexivity|]. split; [|vm_compute; reflexivity].
  apply (ucx_early_receive_lost (chain false) 0 false 0 {[1%Z]} depth_zero_ok (ucx_chain_well_behaved false)
           (idle_toy false) v1 v2 1 eq_refl reach_v1).
  - change (m_recv_req_queue (backend v1)) with [1%positive]. constructor.
  - apply rtc_once, (step_progress _ _ _ _ _ v1 5), (ran_eq (progress (chain false) false 5)). vm_compute. reflexivity.
Defined.

Lemma ucx_cancel_completed_undefined_witness :
  ∃ w', cancel_recv (chain false) false 5 1 v1 = (Halt undefined_behaviour, w').
Proof.
  destruct (reqs v1 !! 1%positive) as [st|] eqn:E; [|vm_compute in E; discriminate].
  apply (ucx_cancel_completed_undefined (chain false) false 5 v1 1 st 1).
  - vm_compute. reflexivity.
  - exact E.
  - vm_compute in E. injection E as <-. reflexivity.
  - vm_compute in E. injection E as <-. reflexivity.
  - vm_compute. reflexivity.
Defined.

(** *** Progress with callbacks that do nothing *)

Definition silent (_ : nat) (_ _ : Z) : M TW unit := ret tt.

Lemma silent_well_behaved strict cb : well_behaved 0 true strict silent cb.
Proof. intros r t exec pend ev hold w HI Hu. apply wp_ret. by split. Qed.

Definition s1 : TW := run (send silent 0 0 {[1%Z]} 0 8 1 2 0) (init (idle_toy false)).

Lemma inv_s1 : inv 0 [] [] [] [] s1.
Proof.
  apply (reachable_good silent 0 true 0 {[1%Z]} depth_zero_ok (silent_well_behaved false) (idle_toy false)).
  split; [done|]. apply rtc_once.
  apply (step_send _ _ _ _ _ _ 0 8 1 2 0 (Some 1%positive)), (ran_eq (send silent 0 0 {[1%Z]} 0 8 1 2 0)). vm_compute. reflexivity.
Qed.

Lemma ucx_progress_returns_witness :
  need s1 = 3 ∧ ∃ w', progress silent true 3 s1 = (Ret tt, w').
Proof.
  split; [vm_compute; reflexivity|].
  destruct (ucx_progress_returns silent 0 true (silent_well_behaved true) 3 s1 inv_s1) as (w1 & w2 & E & _).
  - intros _. vm_compute. reflexivity.
  - vm_compute. lia.
  - exists w1. exact E.
Defined.

(** *** A transport that rejects receives *)

Definition rejecting_ucx : Ucx := {|
  ucx_st := unit;
  ucp_tag_send_nb _ _ _ _ _ u := (Nb_done, u);
  ucp_tag_recv_nb _ _ _ _ _ u := (Nb_error, u);
  ucp_worker_progress _ u := ([], false, u);
  ucp_request_cancel _ u := u
|}.

Lemma ucx_failed_recv_deadlocks_witness :
  let w := @init rejecting_ucx nat tt in
  ∃ w', @recv rejecting_ucx nat (λ _ _ _, ret tt) 20 true 0 8 1 2 0 w =
          (Throw (runtime_error "oomph: ucx error - recv operation failed"), w') ∧
        @recv rejecting_ucx nat (λ _ _ _, ret tt) 20 true 0 8 1 2 0 w' = (Halt deadlock, w').
Proof.
  destruct (@ucx_failed_recv_deadlocks rejecting_ucx nat (λ _ _ _, ret tt) 20 true
              (@init rejecting_ucx nat tt) 0 8 1 2 0 tt eq_refl eq_refl eq_refl) as (w' & E & Hd).
  exists w'. split; [exact E|apply Hd].
Defined.
