(* ===== verification/LfModel.v ===== *)
(** * The libfabric backend: posting, completion, progress, cancellation

    Model of src/src/libfabric/communicator.hpp, operation_context.cpp,
    context.hpp, request_state.hpp, the polling functions of controller.hpp and
    [poll_for_work_completions] of controller_base.hpp: the controller with its
    two completion queues, the context, and any number of communicators, driven
    by one thread (the lock-free queues are plain queues, [push] succeeds).

    libfabric itself is a parameter, the class [Fabric].  An operation context is
    the member of a request, so that a completion names the request; touching a
    request that is gone is undefined behaviour ([get_req]).  Raising a
    [fabric_error] ends the program: its constructor calls [std::terminate].
    The performance counters ([simple_counter<int, false>]) have no state.
    [fuel] bounds the loops that go on as long as the fabric or the callbacks
    make them. *)
From S2P Require Import Prelude Tags Request.

(** ** The fabric *)

Inductive cq : Type := Tx | Rx.

(** What posting returns: 0, [-FI_EAGAIN], [-FI_ENOENT], another error. *)
Inductive fi_ret : Type := Fi_ok | Fi_again | Fi_noent | Fi_error.

(** An entry of a completion queue: its flags and the operation context. *)
Record cq_entry : Type := CqEntry { flags : Z; op_context : positive }.

(** [fi_cq_read]: the number of entries read (with the entries; none for 0),
    [-FI_EAGAIN], [-FI_EAVAIL], another error. *)
Inductive cq_result : Type :=
| Cq_entries (l : list cq_entry)
| Cq_again
| Cq_avail
| Cq_other.

(** [fi_cq_readerr]; the context may be null. *)
Inductive cq_err : Type := FI_ECANCELED | FI_SUCCESS | FI_EOTHER.
Record cq_err_entry : Type := CqErrEntry { err : cq_err; err_context : option positive }.

Class Fabric : Type := {
  fab_st : Type;
  FI_TAGGED : Z;
  FI_SEND : Z;
  FI_RECV : Z;
  FI_MSG : Z;
  fi_tsend : Z → Z → Z → Z → positive → fab_st → fi_ret * fab_st;
  fi_tinject : Z → Z → Z → Z → fab_st → fi_ret * fab_st;
  fi_trecv : Z → Z → Z → Z → positive → fab_st → fi_ret * fab_st;
  fi_cq_read : cq → Z → fab_st → cq_result * fab_st;
  fi_cq_readerr : cq → fab_st → cq_err_entry * fab_st;
  fi_cancel : positive → fab_st → bool * fab_st
}.

(** ** State *)

(** [operation_context::m_req], a variant of two pointers. *)
Inductive req_variant : Type := Request_state | Shared_request_state.

(** What the backend adds to a request: its communicator and the variant that
    its operation context holds. *)
Record lf_ext : Type := LfExt { m_comm : nat; m_req : req_variant }.

(** The callback queues: [m_send_cb_queue], [m_recv_cb_queue] and
    [m_recv_cb_cancel] of each communicator, [m_recv_cb_queue] and
    [m_recv_cb_cancel] of the context. *)
Inductive qid : Type :=
| SendQ (c : nat)
| RecvQ (c : nat)
| CancelQ (c : nat)
| CtxRecvQ
| CtxCancelQ.

#[export] Instance qid_eq_dec : EqDecision qid.
Proof. solve_decision. Defined.
#[export] Instance qid_countable : Countable qid.
Proof.
  refine (inj_countable' (λ q, match q with
    | SendQ c => (0, c) | RecvQ c => (1, c) | CancelQ c => (2, c)
    | CtxRecvQ => (3, 0) | CtxCancelQ => (4, 0) end)
    (λ x, match x with
    | (0, c) => SendQ c | (1, c) => RecvQ c | (2, c) => CancelQ c
    | (3, _) => CtxRecvQ | _ => CtxCancelQ end) _).
  by intros [].
Defined.

(** [depths]: [m_recursion_depth] of each communicator, [None] for the context. *)
Record lf_backend `{Fabric} : Type := LfBackend {
  fabric : fab_st;
  send_mutex : bool;
  recv_mutex : bool;
  queues : gmap qid (list positive);
  depths : gmap (option nat) Z
}.

Section libfabric.
Context `{Fabric} {CB : Type}.
Abbreviation W := (world CB lf_ext lf_backend).
Implicit Types w : W.

Definition upd_backend (f : lf_backend → lf_backend) : M W unit :=
  modify (λ w, set_backend (f (backend w)) w).
Definition set_fabric (u : fab_st) (b : lf_backend) : lf_backend :=
  LfBackend _ u (send_mutex b) (recv_mutex b) (queues b) (depths b).
Definition set_mutexes (s r : bool) (b : lf_backend) : lf_backend :=
  LfBackend _ (fabric b) s r (queues b) (depths b).
Definition get_q (q : qid) (b : lf_backend) : list positive := default [] (queues b !! q).
Definition set_q (q : qid) (l : list positive) (b : lf_backend) : lf_backend :=
  LfBackend _ (fabric b) (send_mutex b) (recv_mutex b) (<[q := l]> (queues b)) (depths b).
Definition get_depth (o : option nat) (b : lf_backend) : Z := default 0%Z (depths b !! o).
Definition set_depth (o : option nat) (d : Z) (b : lf_backend) : lf_backend :=
  LfBackend _ (fabric b) (send_mutex b) (recv_mutex b) (queues b) (<[o := d]> (depths b)).

(** [while (!queue.push(s)) {}] *)
Definition push (q : qid) (l : positive) : M W unit :=
  upd_backend (λ b, set_q q (get_q q b ++ [l]) b).
Definition pop (q : qid) : M W (option positive) :=
  let! b := gets backend in
  match get_q q b with
  | [] => ret None
  | l :: rest => upd_backend (set_q q rest) ;;; ret (Some l)
  end.

Definition fab_call {A} (f : fab_st → A * fab_st) : M W A := λ w,
  let '(a, u) := f (fabric (backend w)) in
  (Ret a, set_backend (set_fabric u (backend w)) w).

(** ** The build and the controller *)

Variable call : CB → Z → Z → M W unit.
(** [OOMPH_RECURSION_DEPTH]; the context tag; [tx_inject_size_];
    [max_completions_per_poll_], a [uint32_t]; [bypass_tx_lock()] and
    [bypass_rx_lock()], which depend on the provider and the endpoint type. *)
Variable recursion_depth : Z.
Variable ctxt_tag : Z.
Variable tx_inject_size : Z.
Variable max_completions_per_poll : Z.
Variables bypass_tx bypass_rx : bool.

(** [has_reached_recursion_depth()] and the two operations of [recursion()] *)
Definition has_reached_recursion_depth (o : option nat) w : bool :=
  bool_decide (recursion_depth < get_depth o (backend w))%Z.
Definition add_depth (o : option nat) (d : Z) : M W unit :=
  upd_backend (λ b, set_depth o (u64 (get_depth o b + d)) b).
(** [{ auto inc = recursion(); body }] *)
Definition with_recursion (o : option nat) (body : M W unit) : M W unit :=
  add_depth o 1 ;;; scoped body (add_depth o (-1)).

(** ** Operation contexts *)

Definition handle_cancelled (s : positive) : M W unit :=
  let! st := get_req s in
  match m_req (m_ext st) with
  | Request_state => push (CancelQ (m_comm (m_ext st))) s
  | Shared_request_state => push CtxCancelQ s
  end.

(** The callback is called, or waits in [q] at the recursion limit. *)
Definition run_or_queue (o : option nat) (q : qid) (s : positive) : M W unit :=
  let! d := gets (has_reached_recursion_depth o) in
  if d : bool then push q s else with_recursion o (complete call s).

(** [user_data] is the communicator that polls, or null. *)
Definition handle_tagged_recv_completion (user_data : option nat) (s : positive) : M W Z :=
  let! st := get_req s in
  let c := m_comm (m_ext st) in
  match m_req (m_ext st) with
  | Request_state =>
      if decide (user_data = Some c) then run_or_queue (Some c) (RecvQ c) s
      else push (RecvQ c) s
  | Shared_request_state => run_or_queue None CtxRecvQ s
  end ;;;
  ret 1%Z.

Definition handle_tagged_send_completion (user_data : option nat) (s : positive) : M W Z :=
  let! st := get_req s in
  let c := m_comm (m_ext st) in
  match m_req (m_ext st) with
  | Request_state =>
      if decide (user_data = Some c) then run_or_queue (Some c) (SendQ c) s
      else push (SendQ c) s
  | Shared_request_state => run_or_queue None CtxRecvQ s
  end ;;;
  ret 1%Z.

(** ** Polling *)

Definition try_tx_lock : M W bool :=
  if bypass_tx then ret true
  else
    let! b := gets backend in
    if send_mutex b then ret false
    else upd_backend (set_mutexes true (recv_mutex b)) ;;; ret true.
Definition tx_unlock : M W unit :=
  if bypass_tx then ret tt else upd_backend (λ b, set_mutexes false (recv_mutex b) b).
(** A thread that locks a mutex it holds waits forever. *)
Definition get_rx_lock : M W unit :=
  if bypass_rx then ret tt
  else
    let! b := gets backend in
    if recv_mutex b then stop deadlock
    else upd_backend (set_mutexes (send_mutex b) true).
Definition rx_unlock : M W unit :=
  if bypass_rx then ret tt else upd_backend (λ b, set_mutexes (send_mutex b) false b).

Definition max_completions_array_limit : Z := 256.

(** [for (int i = 0; i < ret; ++i) { ... processed += handler->handle(user_data); }] *)
Fixpoint process (expected : Z) (handle : positive → M W Z) (processed : Z) (l : list cq_entry) :
    M W Z :=
  match l with
  | [] => ret processed
  | e :: l =>
      if decide (Z.land (flags e) expected = 0%Z) then stop terminated
      else
        let! n := handle (op_context e) in
        process expected handle (processed + n) l
  end.

Definition poll_send_queue (user_data : option nat) : M W Z :=
  cassert (bool_decide (max_completions_per_poll ≤ max_completions_array_limit)%Z) ;;;
  let! ok := try_tx_lock in
  if negb ok then ret (-1)%Z
  else
    let! r := fab_call (fi_cq_read Tx max_completions_per_poll) in
    match r with
    | Cq_avail => fab_call (fi_cq_readerr Tx) ;;; stop terminated
    | _ =>
        tx_unlock ;;;
        match r with
        | Cq_entries l =>
            process (Z.lor (Z.lor FI_TAGGED FI_SEND) FI_MSG)
              (handle_tagged_send_completion user_data) 0 l
        | _ => ret 0%Z
        end
    end.

Definition poll_recv_queue (user_data : option nat) : M W Z :=
  cassert (bool_decide (max_completions_per_poll ≤ max_completions_array_limit)%Z) ;;;
  get_rx_lock ;;;
  let! r := fab_call (fi_cq_read Rx max_completions_per_poll) in
  match r with
  | Cq_avail =>
      let! e := fab_call (fi_cq_readerr Rx) in
      match err e, err_context e with
      | FI_ECANCELED, Some s => handle_cancelled s ;;; rx_unlock ;;; ret 0%Z
      | FI_ECANCELED, None => stop undefined_behaviour
      | _, Some s => stop terminated
      | _, None => rx_unlock ;;; ret 0%Z
      end
  | _ =>
      rx_unlock ;;;
      match r with
      | Cq_entries l =>
          process (Z.lor FI_TAGGED FI_RECV) (handle_tagged_recv_completion user_data) 0 l
      | _ => ret 0%Z
      end
  end.

(** [do { ... } while (retry)]; the counts are [uint32_t]. *)
Fixpoint poll_for_work_completions (fuel : nat) (user_data : option nat) : M W unit :=
  match fuel with
  | O => stop out_of_fuel
  | S fuel =>
      let! nsend := poll_send_queue user_data in
      let! nrecv := poll_recv_queue user_data in
      if bool_decide (u32 nsend = max_completions_per_poll) ||
         bool_decide (u32 nrecv = max_completions_per_poll)
      then poll_for_work_completions fuel user_data else ret tt
  end.

(** ** Posting *)

Fixpoint execute_fi_function (fuel : nat) (c : nat) (F : fab_st → fi_ret * fab_st) : M W unit :=
  match fuel with
  | O => stop out_of_fuel
  | S fuel =>
      let! r := fab_call F in
      match r with
      | Fi_ok => ret tt
      | Fi_again =>
          poll_for_work_completions fuel (Some c) ;;; execute_fi_function fuel c F
      | Fi_noent => stop terminated
      | Fi_error => stop terminated
      end
  end.

Definition send_tagged_region (fuel : nat) (c : nat) (addr size dst tag : Z) (ctxt : positive) :
    M W unit :=
  execute_fi_function fuel c (fi_tsend addr size dst tag ctxt).
Definition inject_tagged_region (fuel : nat) (c : nat) (addr size dst tag : Z) : M W unit :=
  execute_fi_function fuel c (fi_tinject addr size dst tag).
Definition recv_tagged_region (fuel : nat) (c : nat) (addr size src tag : Z) (ctxt : positive) :
    M W unit :=
  execute_fi_function fuel c (fi_trecv addr size src tag ctxt).

(** [make_tag64(tag, m_context->get_context_tag())] *)
Definition stag (tag : Z) : Z := Libfabric.message_tag tag ctxt_tag.

Definition send (fuel : nat) (c : nat) (ptr size dst tag : Z) (cb : CB) :
    M W (option positive) :=
  if bool_decide (size ≤ tx_inject_size)%Z then
    inject_tagged_region fuel c ptr size dst (stag tag) ;;;
    let! d := gets (has_reached_recursion_depth (Some c)) in
    if d : bool then
      let! s := post scheduled_sends dst tag cb (LfExt c Request_state) in
      push (SendQ c) s ;;; ret (Some s)
    else
      with_recursion (Some c) (call_cb call cb dst tag) ;;; ret None
  else
    let! s := post scheduled_sends dst tag cb (LfExt c Request_state) in
    send_tagged_region fuel c ptr size dst (stag tag) s ;;;
    ret (Some s).

Definition recv (fuel : nat) (c : nat) (ptr size src tag : Z) (cb : CB) : M W (option positive) :=
  let! s := post scheduled_recvs src tag cb (LfExt c Request_state) in
  recv_tagged_region fuel c ptr size src (stag tag) s ;;;
  ret (Some s).

Definition shared_recv (fuel : nat) (c : nat) (ptr size src tag : Z) (cb : CB) :
    M W (option positive) :=
  let! s := post scheduled_shared_recvs src tag cb (LfExt c Shared_request_state) in
  recv_tagged_region fuel c ptr size src (stag tag) s ;;;
  poll_recv_queue (Some c) ;;;
  ret (Some s).

(** ** Progress *)

(** [consume_all]: the queue is emptied element by element, including what the
    callbacks push meanwhile. *)
Fixpoint consume_all (fuel : nat) (q : qid) : M W unit :=
  let! o := pop q in
  match o, fuel with
  | None, _ => ret tt
  | Some s, O => stop out_of_fuel
  | Some s, S fuel => complete call s ;;; consume_all fuel q
  end.

(** Also the destructor of the communicator. *)
Definition clear_callback_queues (fuel : nat) (c : nat) : M W unit :=
  consume_all fuel (SendQ c) ;;;
  consume_all fuel (RecvQ c) ;;;
  consume_all fuel CtxRecvQ.

Definition progress (fuel : nat) (c : nat) : M W unit :=
  poll_for_work_completions fuel (Some c) ;;;
  clear_callback_queues fuel c.

(** [context_impl::progress] *)
Definition ctx_progress (fuel : nat) : M W unit := poll_for_work_completions fuel None.

(** ** Cancellation *)

(** [while (!found && m_recv_cb_cancel.pop(temp)) ...] over the elements of the
    queue: whether [s] is found, the stack of the others that were popped, and
    what is left in the queue. *)
Fixpoint search (s : positive) (queue temp_stack : list positive) :
    bool * list positive * list positive :=
  match queue with
  | [] => (false, temp_stack, [])
  | t :: queue =>
      if decide (t = s) then (true, temp_stack, queue) else search s queue (t :: temp_stack)
  end.

(** One pass of the search: the stacked elements go back to the queue, top
    first; a canceled receive is finished before that. *)
Definition search_cancel_queue (q : qid) (s : positive) : M W bool :=
  let! b := gets backend in
  let '(found, temp_stack, rest) := search s (get_q q b) [] in
  upd_backend (set_q q rest) ;;;
  (if found : bool then with_self_ref s (set_canceled s) else ret tt) ;;;
  mfor temp_stack (push q) ;;;
  ret found.

(** [while (!found) ...] *)
Fixpoint cancel_loop (fuel : nat) (user_data : option nat) (q : qid) (s : positive) : M W unit :=
  match fuel with
  | O => stop out_of_fuel
  | S fuel =>
      poll_recv_queue user_data ;;;
      let! found := search_cancel_queue q s in
      if found : bool then ret tt else cancel_loop fuel user_data q s
  end.

Definition cancel_recv (fuel : nat) (c : nat) (s : positive) : M W bool :=
  get_req s ;;;
  let! ok := fab_call (fi_cancel s) in
  if negb ok then ret false
  else cancel_loop fuel (Some c) (CancelQ c) s ;;; ret true.

(** [context_impl::cancel_recv] *)
Definition ctx_cancel_recv (fuel : nat) (s : positive) : M W bool :=
  get_req s ;;;
  let! ok := fab_call (fi_cancel s) in
  if negb ok then ret false
  else cancel_loop fuel None CtxCancelQ s ;;; ret true.

End libfabric.
