(* ===== verification/LfInv.v ===== *)
(** * The invariant of the libfabric backend

    Every request that waits for completion owns itself and is in exactly one
    place: in flight on a completion queue of the fabric, or in one of the
    callback queues of a communicator or of the context.  Completion handlers,
    polling and progress keep this, for user callbacks that keep it. *)
From S2P Require Import Prelude Tags Request LfModel.

(** ** What is assumed of the fabric *)

(** [posted k u]: the operation contexts in flight whose completion will be
    reported by queue [k].  Each is reported once, with flags the library
    expects; at most the number of completions asked for are reported.  The runs
    considered are those in which the only errors the fabric reports are cancellations of
    receives; the code ends the program ([std::terminate]) on any other. *)
Class FabricLaws `{Fabric} : Type := {
  posted : cq → fab_st → list positive;
  tsend_posted a n d t s u r u' :
    fi_tsend a n d t s u = (r, u') →
    (r = Fi_ok ∧ posted Tx u' ≡ₚ s :: posted Tx u ∨ r = Fi_again ∧ posted Tx u' ≡ₚ posted Tx u) ∧
    posted Rx u' ≡ₚ posted Rx u;
  tinject_posted a n d t u r u' :
    fi_tinject a n d t u = (r, u') →
    (r = Fi_ok ∨ r = Fi_again) ∧ ∀ k, posted k u' ≡ₚ posted k u;
  trecv_posted a n d t s u r u' :
    fi_trecv a n d t s u = (r, u') →
    (r = Fi_ok ∧ posted Rx u' ≡ₚ s :: posted Rx u ∨ r = Fi_again ∧ posted Rx u' ≡ₚ posted Rx u) ∧
    posted Tx u' ≡ₚ posted Tx u;
  cq_read_posted k n u r u' :
    fi_cq_read k n u = (r, u') →
    (∀ k', k' ≠ k → posted k' u' ≡ₚ posted k' u) ∧
    posted k u ≡ₚ match r with Cq_entries l => op_context <$> l | _ => [] end ++ posted k u' ∧
    match r with Cq_entries l => (Z.of_nat (length l) ≤ Z.max n 0)%Z | Cq_avail => k = Rx | _ => True end;
  cq_read_flags k n u l u' e :
    fi_cq_read k n u = (Cq_entries l, u') → e ∈ l →
    Z.land (flags e) (match k with Tx => Z.lor (Z.lor FI_TAGGED FI_SEND) FI_MSG
                                 | Rx => Z.lor FI_TAGGED FI_RECV end) ≠ 0%Z;
  readerr_posted n u u1 e u2 :
    fi_cq_read Rx n u = (Cq_avail, u1) → fi_cq_readerr Rx u1 = (e, u2) →
    ∃ s, e = CqErrEntry FI_ECANCELED (Some s) ∧
         posted Rx u1 ≡ₚ s :: posted Rx u2 ∧ posted Tx u2 ≡ₚ posted Tx u1;
  cancel_posted k s u : posted k (fi_cancel s u).2 ≡ₚ posted k u
}.

Section inv.
Context `{Fabric, !FabricLaws} {CB : Type}.
Abbreviation W := (world CB lf_ext lf_backend).
Implicit Types w : W.
Context (recursion_depth : Z) (strict : bool).

(** ** The invariant *)

Definition owned w (l : positive) : Prop := ∃ st, reqs w !! l = Some st ∧ m_self_ptr st = true.

Definition in_flight (u : fab_st) : list positive := posted Tx u ++ posted Rx u.
Definition places (b : lf_backend) : list positive := all_queued (queues b) ++ in_flight (fabric b).

(** [exec]: requests whose callback is running; [pend]: requests that have left
    a place and not reached the next one. *)
Record inv (exec pend : list positive) w : Prop := {
  inv_base : base_inv exec w;
  inv_nodup : NoDup (pend ++ places (backend w));
  inv_own l : owned w l ↔ l ∈ pend ++ places (backend w);
  inv_depth o : (0 ≤ get_depth o (backend w) ≤ recursion_depth + 1)%Z
}.

(** User callbacks run with the mutexes of the controller free. *)
Definition unlocked w : Prop := send_mutex (backend w) = false ∧ recv_mutex (backend w) = false.

Definition is_ready_queue (q : qid) : bool :=
  match q with SendQ _ | RecvQ _ | CtxRecvQ => true | _ => false end.

(** The fate of a request is settled: it has completed, or it has been
    canceled. *)
Definition decided w (l : positive) : Prop :=
  l ∈ invoked w ++ canceled w ∨ ∃ q, is_ready_queue q = true ∧ l ∈ get_q q (backend w).

(** What an operation leaves as it was, or only extends. *)
Record stable w w' : Prop := {
  st_send_mutex : send_mutex (backend w') = send_mutex (backend w);
  st_recv_mutex : recv_mutex (backend w') = recv_mutex (backend w);
  st_depth o : get_depth o (backend w') = get_depth o (backend w);
  st_next : (next w ≤ next w')%positive;
  st_invoked : invoked w `prefix_of` invoked w';
  st_canceled : canceled w `prefix_of` canceled w';
  st_calls : calls w `prefix_of` calls w';
  st_decided l : decided w l → decided w' l
}.

#[export] Instance lf_stable_preorder : PreOrder stable.
Proof.
  split.
  - intros w. split; done || lia.
  - intros w1 w2 w3 H1 H2. split.
    + by rewrite (st_send_mutex _ _ H2), (st_send_mutex _ _ H1).
    + by rewrite (st_recv_mutex _ _ H2), (st_recv_mutex _ _ H1).
    + intros o. by rewrite (st_depth _ _ H2), (st_depth _ _ H1).
    + etrans; [apply H1|apply H2].
    + etrans; [apply H1|apply H2].
    + etrans; [apply H1|apply H2].
    + etrans; [apply H1|apply H2].
    + intros l Hl. by apply H2, H1.
Qed.

Definition flying w : nat := length (in_flight (fabric (backend w))).

(** Nothing is posted: at most [n] requests reach a place, none is in flight that
    was not before. *)
Definition grow (n : nat) w w' : Prop :=
  strict = true →
  length (places (backend w')) ≤ n + length (places (backend w)) ∧ flying w' ≤ flying w.

(** The outcome of an operation that ends with [pend] between places. *)
Definition keeps exec pend (n : nat) w w' : Prop := inv exec pend w' ∧ stable w w' ∧ grow n w w'.

Lemma keeps_refl exec pend w : inv exec pend w → keeps exec pend 0 w w.
Proof. intros HI. unfold keeps. split_and!; [done..|]. by intros _. Qed.

Lemma keeps_trans exec exec' pend pend' n m k w1 w2 w3 :
  keeps exec pend n w1 w2 → keeps exec' pend' m w2 w3 → n + m ≤ k → keeps exec' pend' k w1 w3.
Proof.
  intros (_ & HS & HG) (HI & HS' & HG') Hk. unfold keeps. split_and!; [done|by etrans|].
  intros Ht. specialize (HG Ht). specialize (HG' Ht). lia.
Qed.

(** The halts that are allowed: a loop that goes on as long as callbacks keep
    posting, unless that is excluded. *)
Definition allowed (h : halt) : Prop := strict = false ∧ h = out_of_fuel.

Variable call : CB → Z → Z → M W unit.

(** What is required of a user's function object. *)
Definition well_behaved (cb : CB) : Prop := ∀ r t exec pend w,
  inv exec pend w → unlocked w → wp allowed (call cb r t) (λ _ w', keeps exec pend 0 w w') w.

(** ** Changes of the backend only *)

Lemma lf_inv_backend exec pend pend' w b :
  inv exec pend w → pend' ++ places b ≡ₚ pend ++ places (backend w) →
  (∀ o, get_depth o b = get_depth o (backend w)) → inv exec pend' (set_backend b w).
Proof.
  intros HI HP Hd. split; cbn.
  - rewrite same_requests_backend. apply HI.
  - rewrite HP. apply HI.
  - intros l. rewrite HP. apply (inv_own _ _ _ HI).
  - intros o. rewrite Hd. apply HI.
Qed.

Lemma lf_stable_backend w b :
  send_mutex b = send_mutex (backend w) → recv_mutex b = recv_mutex (backend w) →
  (∀ o, get_depth o b = get_depth o (backend w)) →
  (∀ q l, is_ready_queue q = true → l ∈ get_q q (backend w) → l ∈ get_q q b) →
  stable w (set_backend b w).
Proof.
  intros H1 H2 H3 H4. split; try done; cbn.
  intros l [Hl|(q & Hq & Hl)]; [by left|]. right. exists q. auto.
Qed.

Lemma lf_get_set_q q q' l b : get_q q (set_q q' l b) = if decide (q = q') then l else get_q q b.
Proof. unfold get_q, set_q. cbn. rewrite lookup_insert. by repeat case_decide; subst. Qed.

Lemma places_set_q q l b :
  places (set_q q l b) ≡ₚ l ++ all_queued (delete q (queues b)) ++ in_flight (fabric b).
Proof. unfold places. cbn. by rewrite all_queued_insert, <- app_assoc. Qed.

Lemma places_get_q q b :
  places b ≡ₚ get_q q b ++ all_queued (delete q (queues b)) ++ in_flight (fabric b).
Proof. unfold places. by rewrite (all_queued_split (queues b) q), <- app_assoc. Qed.

Lemma in_get_q q l b : l ∈ get_q q b → l ∈ places b.
Proof. intros Hl. rewrite (places_get_q q). set_solver. Qed.

(** ** Queues *)

Definition pushed (q : qid) (l : positive) w : W :=
  set_backend (set_q q (get_q q (backend w) ++ [l]) (backend w)) w.

Lemma places_push q l b : places (set_q q (get_q q b ++ [l]) b) ≡ₚ l :: places b.
Proof.
  rewrite places_set_q, (places_get_q q b). rewrite <- app_assoc. cbn. by rewrite <- Permutation_middle.
Qed.

Lemma push_keeps exec pend q l w : inv exec (l :: pend) w → keeps exec pend 1 w (pushed q l w).
Proof.
  intros HI. unfold keeps. split_and!.
  - eapply lf_inv_backend; [exact HI| |done]. rewrite places_push. cbn. by rewrite Permutation_middle.
  - apply lf_stable_backend; try done. intros q' l' _ Hl. rewrite lf_get_set_q. case_decide; [subst|done]. set_solver.
  - intros _. split; [|done]. cbn. rewrite (Permutation_length (places_push q l (backend w))). cbn. lia.
Qed.

(** A request is taken from a queue of completed requests. *)
Lemma lf_pop_inv exec pend q l rest w :
  get_q q (backend w) = l :: rest → inv exec pend w →
  inv exec (l :: pend) (set_backend (set_q q rest (backend w)) w) ∧
  S (length (places (set_q q rest (backend w)))) = length (places (backend w)).
Proof.
  intros E HI.
  assert (places (backend w) ≡ₚ l :: places (set_q q rest (backend w))) as HP.
  { by rewrite places_set_q, (places_get_q q), E. }
  split; [|by rewrite HP]. eapply lf_inv_backend; [exact HI| |done].
  rewrite HP. cbn. by rewrite Permutation_middle.
Qed.

Lemma push_wp exec pend q s w :
  inv exec (s :: pend) w → is_ready_queue q = true →
  wp allowed (push q s) (λ _ w', keeps exec pend 1 w w' ∧ decided w' s) w.
Proof.
  intros HI Hq. apply wp_modify. split; [by apply push_keeps|]. right. exists q. split; [done|].
  cbn. rewrite lf_get_set_q, decide_True by done. set_solver.
Qed.

(** ** Completing a request *)

Hypothesis Hcall : ∀ cb, well_behaved cb.

Lemma owned_start l st w l' : owned (start_callback l st w) l' ↔ l' ≠ l ∧ owned w l'.
Proof.
  unfold owned, start_callback. cbn. setoid_rewrite lookup_insert.
  split; intros H1.
  - destruct H1 as (st' & H1 & H2). case_decide; [by simplify_eq|]. naive_solver.
  - destruct H1 as (Hn & st' & H1 & H2). exists st'. by rewrite decide_False.
Qed.

Lemma owned_finished l w w' l' : finished l w w' → owned w' l' ↔ owned w l'.
Proof.
  intros []. unfold owned. destruct (decide (l' = l)) as [->|Hn]; [|by rewrite fin_other].
  split; intros (st & H1 & H2); [rewrite (fin_after _ H1) in H2|rewrite (fin_before _ H1) in H2]; done.
Qed.

Lemma finished_keeps exec exec' pend l w w' :
  inv exec' pend w → base_inv exec w' → finished l w w' → keeps exec pend 0 w w'.
Proof.
  intros HI HB Hf. pose proof Hf as []. unfold keeps. split_and!.
  - split; rewrite ?fin_backend; [done|apply HI| |apply HI].
    intros l'. rewrite (owned_finished _ _ _ _ Hf). apply HI.
  - split; rewrite ?fin_backend, ?fin_invoked, ?fin_canceled, ?fin_next, ?fin_calls; try done.
    unfold decided. by rewrite fin_backend, fin_invoked, fin_canceled.
  - intros _. unfold flying. by rewrite fin_backend.
Qed.

Lemma lf_complete_wp exec l pend w :
  inv exec (l :: pend) w → unlocked w →
  wp allowed (complete call l) (λ _ w', keeps exec pend 0 w w' ∧ l ∈ invoked w') w.
Proof.
  intros HI Hu. destruct (proj2 (inv_own _ _ _ HI l)) as (st & Hl & Hs); [set_solver|].
  pose proof (inv_nodup _ _ _ HI) as [Hn Hnd]%NoDup_cons.
  assert (inv (l :: exec) pend (start_callback l st w)) as HI1.
  { split; [apply start_callback_ok; [apply HI|done..]|done| |apply HI].
    intros l'. rewrite owned_start, (inv_own _ _ _ HI). cbn in *. set_solver. }
  assert (stable w (start_callback l st w)) as HS1.
  { split; try done; try by eexists. intros l' [Hd|Hd]; [left; cbn; set_solver|by right]. }
  eapply wp_mono.
  { apply (complete_wp_base call allowed exec w l st
      (λ w2, keeps (l :: exec) pend 0 (start_callback l st w) w2)); [apply HI|done..|].
    eapply wp_mono; [by apply Hcall|]. intros [] w2 Hk. split; [apply Hk|exact Hk]. }
  intros _ w3 (w2 & Hk & HB & Hf). split; [|rewrite (fin_invoked _ _ _ Hf); apply Hf].
  assert (keeps (l :: exec) pend 0 w w2) as Hk2.
  { destruct Hk as (HI2 & HS2 & HG). unfold keeps. split_and!; [done|by etrans|exact HG]. }
  eapply keeps_trans; [exact Hk2|eapply finished_keeps; [apply Hk2|done..]|done].
Qed.

(** ** Recursion *)

Hypothesis Hrd : (0 ≤ recursion_depth < 2 ^ 64 - 1)%Z.

Lemma get_set_depth o o' d b : get_depth o (set_depth o' d b) = if decide (o = o') then d else get_depth o b.
Proof. unfold get_depth, set_depth. cbn. rewrite lookup_insert. by repeat case_decide; subst. Qed.

Lemma depth_inv exec pend o d w :
  inv exec pend w → (0 ≤ d ≤ recursion_depth + 1)%Z →
  inv exec pend (set_backend (set_depth o d (backend w)) w).
Proof.
  intros HI Hd. split; cbn; try apply HI; [rewrite same_requests_backend; apply HI|].
  intros o'. rewrite get_set_depth. case_decide; [done|apply HI].
Qed.

(** A body that runs one level deeper. *)
Lemma with_recursion_wp exec pend pend' n o (body : M W unit) (Q : W → Prop) w :
  inv exec pend w → has_reached_recursion_depth recursion_depth o w = false →
  (∀ w1 w2, Q w1 → reqs w2 = reqs w1 → invoked w2 = invoked w1 → calls w2 = calls w1 → Q w2) →
  (∀ w1, reqs w1 = reqs w → invoked w1 = invoked w → calls w1 = calls w →
     send_mutex (backend w1) = send_mutex (backend w) → recv_mutex (backend w1) = recv_mutex (backend w) →
     inv exec pend w1 → wp allowed body (λ _ w', keeps exec pend' n w1 w' ∧ Q w') w1) →
  wp allowed (with_recursion o body) (λ _ w', keeps exec pend' n w w' ∧ Q w') w.
Proof.
  intros HI Hd%bool_decide_eq_false HQ Hbody. pose proof (inv_depth _ _ _ HI o) as Hr.
  unfold with_recursion. apply wp_bnd, wp_modify. set (w1 := set_backend _ w).
  assert (inv exec pend w1) as HI1.
  { apply depth_inv; [done|]. rewrite u64_small; lia. }
  apply wp_scoped. eapply wp_mono; [by apply Hbody|]. intros _ w2 [(HI2 & HS2 & HG2) HQ2].
  apply wp_modify. split; [unfold keeps; split_and!|by eapply HQ].
  - apply depth_inv; [done|]. rewrite (st_depth _ _ HS2). cbn.
    rewrite get_set_depth, decide_True, u64_inc_dec by (done || lia). apply HI.
  - destruct HS2. split; try done; cbn in *.
    intros o'. rewrite get_set_depth, !st_depth0, !get_set_depth.
    repeat case_decide; try congruence. subst. apply u64_inc_dec. lia.
  - exact HG2.
Qed.

(** ** Completion handlers *)

Lemma run_or_queue_wp exec pend o q s w :
  inv exec (s :: pend) w → unlocked w → is_ready_queue q = true →
  wp allowed (run_or_queue call recursion_depth o q s) (λ _ w', keeps exec pend 1 w w' ∧ decided w' s) w.
Proof.
  intros HI [Hu1 Hu2] Hq. unfold run_or_queue. apply wp_bnd, wp_gets.
  destruct (has_reached_recursion_depth _ _ _) eqn:Hd.
  - apply wp_modify. split; [by apply push_keeps|]. right. exists q. split; [done|].
    cbn. rewrite lf_get_set_q, decide_True by done. set_solver.
  - eapply wp_mono.
    + apply (with_recursion_wp exec (s :: pend) pend 0 o _ (λ w', s ∈ invoked w')); [done..| |].
      * intros w1 w2 ? _ -> _. done.
      * intros w1 _ _ _ E1 E2 HI1. apply lf_complete_wp; [done|]. split; congruence.
    + intros _ w' [Hk Hin]. split; [|left; set_solver].
      eapply keeps_trans; [exact Hk|apply keeps_refl, Hk|lia].
Qed.

Lemma handle_send_wp exec pend ud s w :
  inv exec (s :: pend) w → unlocked w →
  wp allowed (handle_tagged_send_completion call recursion_depth ud s)
    (λ n w', n = 1%Z ∧ keeps exec pend 1 w w') w.
Proof.
  intros HI Hu. destruct (proj2 (inv_own _ _ _ HI s)) as (st & Hl & Hs); [set_solver|].
  unfold handle_tagged_send_completion. apply wp_bnd, (wp_from _ _ _ _ _ _ (get_req_ok _ _ _ Hl)).
  apply wp_bnd. eapply wp_mono with (Q := λ _ w', keeps exec pend 1 w w' ∧ decided w' s).
  - destruct (m_req (m_ext st)); [|by apply run_or_queue_wp].
    case_decide; [by apply run_or_queue_wp|by apply push_wp].
  - intros _ w' [Hk _]. by apply wp_ret.
Qed.

Lemma handle_recv_wp exec pend ud s w :
  inv exec (s :: pend) w → unlocked w →
  wp allowed (handle_tagged_recv_completion call recursion_depth ud s)
    (λ n w', n = 1%Z ∧ keeps exec pend 1 w w') w.
Proof.
  intros HI Hu. destruct (proj2 (inv_own _ _ _ HI s)) as (st & Hl & Hs); [set_solver|].
  unfold handle_tagged_recv_completion. apply wp_bnd, (wp_from _ _ _ _ _ _ (get_req_ok _ _ _ Hl)).
  apply wp_bnd. eapply wp_mono with (Q := λ _ w', keeps exec pend 1 w w' ∧ decided w' s).
  - destruct (m_req (m_ext st)); [|by apply run_or_queue_wp].
    case_decide; [by apply run_or_queue_wp|by apply push_wp].
  - intros _ w' [Hk _]. by apply wp_ret.
Qed.
End inv.
