(* ===== verification/LfOps.v ===== *)
(** * Polling, progress and cancellation of the libfabric backend

    The operations that complete requests keep the invariant; with [strict]
    (callbacks that do not post) the loops of progress end. *)
From S2P Require Import Prelude Tags Request LfModel LfInv.

Section ops.
Context `{Fabric, !FabricLaws} {CB : Type}.
Abbreviation W := (world CB lf_ext lf_backend).
Implicit Types w : W.
Context (recursion_depth : Z) (strict : bool) (call : CB → Z → Z → M W unit).
Context (max_completions_per_poll : Z) (bypass_tx bypass_rx : bool).
Abbreviation inv := (inv recursion_depth).
Abbreviation keeps := (keeps recursion_depth strict).
Abbreviation allowed := (allowed strict).
Hypothesis Hcall : ∀ cb, well_behaved recursion_depth strict call cb.
Hypothesis Hrd : (0 ≤ recursion_depth < 2 ^ 64 - 1)%Z.
Hypothesis Hmax : (max_completions_per_poll ≤ max_completions_array_limit)%Z.

Lemma unlocked_keeps exec pend n w w' : keeps exec pend n w w' → unlocked w → unlocked w'.
Proof.
  intros (_ & HS & _) [H1 H2]. split; [by rewrite (st_send_mutex _ _ HS)|by rewrite (st_recv_mutex _ _ HS)].
Qed.

(** The fabric alone changes: what is in flight is conserved. *)
Lemma fabric_inv exec pend pend' w u :
  inv exec pend w → pend' ++ in_flight u ≡ₚ pend ++ in_flight (fabric (backend w)) →
  inv exec pend' (set_backend (set_fabric u (backend w)) w).
Proof.
  intros HI HP. eapply lf_inv_backend; [exact HI| |done]. unfold places. cbn.
  rewrite (Permutation_app_comm (all_queued _)), app_assoc, HP, <- app_assoc.
  by rewrite (Permutation_app_comm (in_flight _)).
Qed.

Lemma fabric_stable w u : stable w (set_backend (set_fabric u (backend w)) w).
Proof. by apply lf_stable_backend. Qed.

Lemma wp_fab_call {A} E (f : fab_st → A * fab_st) (Q : A → W → Prop) w :
  (∀ a u, f (fabric (backend w)) = (a, u) → Q a (set_backend (set_fabric u (backend w)) w)) →
  wp E (fab_call f) Q w.
Proof. unfold wp, fab_call. intros HQ. destruct (f _) as [a u]. by apply HQ. Qed.

(** ** Handling the entries of a completion queue *)

Lemma process_wp exec pend expected handle acc l w :
  (∀ pend s w, inv exec (s :: pend) w → unlocked w →
     wp allowed (handle s) (λ n w', n = 1%Z ∧ keeps exec pend 1 w w') w) →
  (∀ e, e ∈ l → Z.land (flags e) expected ≠ 0%Z) →
  inv exec ((op_context <$> l) ++ pend) w → unlocked w →
  wp allowed (process expected handle acc l)
    (λ n w', n = (acc + Z.of_nat (length l))%Z ∧ keeps exec pend (length l) w w') w.
Proof.
  intros Hh. revert acc w. induction l as [|e l IH]; intros acc w Hf HI Hu; cbn [process].
  { apply wp_ret. cbn. split; [lia|by apply keeps_refl]. }
  rewrite decide_False by (apply Hf; set_solver). apply wp_bnd. cbn in HI.
  eapply wp_mono; [by apply Hh|]. intros n w1 [-> Hk].
  eapply wp_mono; [apply IH; [set_solver|apply Hk|by eapply unlocked_keeps]|].
  intros n w2 [-> Hk2]. split; [cbn; lia|]. eapply keeps_trans; [exact Hk|exact Hk2|cbn; lia].
Qed.

(** *** The mutexes *)

Definition with_mutexes (s r : bool) w : W := set_backend (set_mutexes s r (backend w)) w.

Lemma try_tx_lock_run w :
  unlocked w → try_tx_lock bypass_tx w = (Ret true, with_mutexes (negb bypass_tx) false w).
Proof.
  intros [E1 E2]. unfold try_tx_lock. destruct bypass_tx; cbn.
  - unfold with_mutexes. destruct w as [? ? ? ? ? ? []]. cbn in *. by subst.
  - unfold bnd, gets, upd_backend, modify, ret. cbn. by rewrite E1, E2.
Qed.

Lemma tx_unlock_run w :
  send_mutex (backend w) = negb bypass_tx → recv_mutex (backend w) = false →
  tx_unlock bypass_tx w = (Ret tt, with_mutexes false false w).
Proof.
  intros E1 E2. unfold tx_unlock. destruct bypass_tx; cbn.
  - unfold with_mutexes. destruct w as [? ? ? ? ? ? []]. cbn in *. by subst.
  - unfold upd_backend, modify. cbn. by rewrite E2.
Qed.

Lemma get_rx_lock_run w :
  unlocked w → get_rx_lock bypass_rx w = (Ret tt, with_mutexes false (negb bypass_rx) w).
Proof.
  intros [E1 E2]. unfold get_rx_lock. destruct bypass_rx; cbn.
  - unfold with_mutexes. destruct w as [? ? ? ? ? ? []]. cbn in *. by subst.
  - unfold bnd, gets, upd_backend, modify, ret. cbn. by rewrite E1, E2.
Qed.

Lemma rx_unlock_run w :
  send_mutex (backend w) = false → recv_mutex (backend w) = negb bypass_rx →
  rx_unlock bypass_rx w = (Ret tt, with_mutexes false false w).
Proof.
  intros E1 E2. unfold rx_unlock. destruct bypass_rx; cbn.
  - unfold with_mutexes. destruct w as [? ? ? ? ? ? []]. cbn in *. by subst.
  - unfold upd_backend, modify. cbn. by rewrite E1.
Qed.

(** The fabric has been called between taking and releasing a mutex. *)
Lemma mutex_free w s r u :
  unlocked w →
  with_mutexes false false (set_backend (set_fabric u (backend (with_mutexes s r w))) (with_mutexes s r w)) =
  set_backend (set_fabric u (backend w)) w.
Proof. intros [E1 E2]. unfold with_mutexes. destruct w as [? ? ? ? ? ? []]. cbn in *. by subst. Qed.

(** ** Polling *)

(** The outcome of a poll that reports [n] completions. *)
Definition polled exec pend w (n : Z) w' : Prop :=
  keeps exec pend 0 w w' ∧ (0 ≤ n ≤ Z.max max_completions_per_poll 0)%Z ∧
  (strict = true → (Z.of_nat (flying w') + n ≤ Z.of_nat (flying w))%Z).

(** The fabric has reported the entries [l]. *)
Lemma entries_wp exec pend expected handle l w u :
  (∀ pend s w, inv exec (s :: pend) w → unlocked w →
     wp allowed (handle s) (λ n w', n = 1%Z ∧ keeps exec pend 1 w w') w) →
  (∀ e, e ∈ l → Z.land (flags e) expected ≠ 0%Z) →
  in_flight (fabric (backend w)) ≡ₚ (op_context <$> l) ++ in_flight u →
  (Z.of_nat (length l) ≤ Z.max max_completions_per_poll 0)%Z →
  inv exec pend w → unlocked w →
  wp allowed (process expected handle 0 l) (polled exec pend w)
    (set_backend (set_fabric u (backend w)) w).
Proof.
  intros Hh Hf HP Hn HI Hu. set (w1 := set_backend _ w).
  assert (inv exec ((op_context <$> l) ++ pend) w1) as HI1.
  { apply fabric_inv with pend; [done|]. rewrite HP.
    by rewrite app_assoc, (Permutation_app_comm pend). }
  assert (length (places (backend w)) = length l + length (places (backend w1))) as Hl1.
  { unfold places, w1. cbn. rewrite !length_app, HP, length_app, length_fmap. lia. }
  assert (flying w = length l + flying w1) as Hl2.
  { unfold flying, w1. cbn. by rewrite HP, length_app, length_fmap. }
  eapply wp_mono; [by apply process_wp|]. intros n w2 [-> (HI2 & HS2 & HG2)].
  split_and!; [|lia|lia|].
  - split; [done|]. split; [by etrans; [apply fabric_stable|]|].
    intros Ht. destruct (HG2 Ht). lia.
  - intros Ht. destruct (HG2 Ht). lia.
Qed.

(** Nothing was reported. *)
Lemma nothing_polled exec pend w u :
  in_flight u ≡ₚ in_flight (fabric (backend w)) → inv exec pend w →
  polled exec pend w 0 (set_backend (set_fabric u (backend w)) w).
Proof.
  intros HP HI. split_and!; [|lia|lia|].
  - split; [by apply fabric_inv with pend; rewrite ?HP|]. split; [apply fabric_stable|].
    intros _. unfold places, flying. cbn. by rewrite !length_app, HP.
  - intros _. unfold flying. cbn. rewrite HP. lia.
Qed.

Lemma read_in_flight k n u r u' :
  fi_cq_read k n u = (r, u') →
  in_flight u ≡ₚ match r with Cq_entries l => op_context <$> l | _ => [] end ++ in_flight u'.
Proof.
  intros E. destruct (cq_read_posted _ _ _ _ _ E) as (H1 & H2 & _). unfold in_flight. destruct k.
  - by rewrite H2, (H1 Rx), <- app_assoc by done.
  - rewrite H2, (H1 Tx) by done. rewrite !app_assoc. by rewrite (Permutation_app_comm (posted Tx u)).
Qed.

Lemma poll_send_queue_wp exec pend ud w :
  inv exec pend w → unlocked w →
  wp allowed (poll_send_queue call recursion_depth max_completions_per_poll bypass_tx ud)
    (polled exec pend w) w.
Proof.
  intros HI Hu. unfold poll_send_queue. rewrite bool_decide_true by done. apply wp_bnd, wp_ret.
  apply wp_bnd, (wp_from _ _ _ _ _ _ (try_tx_lock_run _ Hu)). cbn [negb].
  apply wp_bnd, wp_fab_call. intros r u E. cbn in E. pose proof (read_in_flight _ _ _ _ _ E) as HP.
  destruct (cq_read_posted _ _ _ _ _ E) as (_ & _ & Hr).
  destruct r as [l| | |]; [..|]; try done;
    apply wp_bnd; (eapply wp_from; [by apply tx_unlock_run|]);
    rewrite mutex_free by done; 
    [|by (apply wp_ret, nothing_polled; [symmetry|])..].
  apply entries_wp; try done.
  - intros. by apply handle_send_wp.
  - intros e He. by apply (cq_read_flags _ _ _ _ _ _ E).
Qed.

(** A canceled receive goes to its queue. *)
Lemma handle_cancelled_wp exec pend s w :
  inv exec (s :: pend) w →
  wp allowed (handle_cancelled s) (λ _ w', keeps exec pend 1 w w') w.
Proof.
  intros HI. destruct (proj2 (inv_own _ _ _ _ HI s)) as (st & Hl & Hs); [set_solver|].
  unfold handle_cancelled. apply wp_bnd, (wp_from _ _ _ _ _ _ (get_req_ok _ _ _ Hl)).
  destruct (m_req (m_ext st)); apply wp_modify; by apply push_keeps.
Qed.

Lemma with_mutexes_keeps exec pend n w s r w' :
  unlocked w → keeps exec pend n (with_mutexes s r w) w' → keeps exec pend n w (with_mutexes false false w').
Proof.
  intros [E1 E2] (HI & HS & HG). split_and!.
  - eapply lf_inv_backend; [exact HI|done..].
  - destruct HS. split; try done.
  - exact HG.
Qed.

Lemma with_mutexes_inv exec pend s r w : inv exec pend w → inv exec pend (with_mutexes s r w).
Proof. intros HI. by eapply lf_inv_backend. Qed.

(** The cancellation of [s] is reported. *)
Lemma cancel_reported_wp exec pend s w u :
  inv exec pend w → in_flight (fabric (backend w)) ≡ₚ s :: in_flight u →
  wp allowed (handle_cancelled s) (λ _ w', keeps exec pend 0 w w')
    (set_backend (set_fabric u (backend w)) w).
Proof.
  intros HI HP. set (w1 := set_backend _ w).
  assert (inv exec (s :: pend) w1) as HI1.
  { apply fabric_inv with pend; [done|]. rewrite HP. cbn. by rewrite Permutation_middle. }
  eapply wp_mono; [by apply (handle_cancelled_wp exec pend)|]. intros _ w2 (HI2 & HS2 & HG2).
  split; [done|]. split; [by etrans; [apply fabric_stable|]|]. intros Ht. destruct (HG2 Ht).
  assert (length (places (backend w)) = S (length (places (backend w1))) ∧ flying w = S (flying w1)) as [].
  { unfold flying, places, w1. cbn. rewrite !length_app, HP. cbn. lia. }
  lia.
Qed.

Lemma poll_recv_queue_wp exec pend ud w :
  inv exec pend w → unlocked w →
  wp allowed (poll_recv_queue call recursion_depth max_completions_per_poll bypass_rx ud)
    (polled exec pend w) w.
Proof.
  intros HI Hu. unfold poll_recv_queue. rewrite bool_decide_true by done. apply wp_bnd, wp_ret.
  apply wp_bnd, (wp_from _ _ _ _ _ _ (get_rx_lock_run _ Hu)).
  set (wl := with_mutexes false (negb bypass_rx) w).
  assert (inv exec pend wl) as HIl by by apply with_mutexes_inv.
  apply wp_bnd, wp_fab_call. intros r u E. cbn in E. pose proof (read_in_flight _ _ _ _ _ E) as HP.
  destruct (cq_read_posted _ _ _ _ _ E) as (_ & _ & Hr).
  destruct r as [l| | |].
  3:{ apply wp_bnd, wp_fab_call. intros e u2 E2. cbn in E2.
    destruct (readerr_posted _ _ _ _ _ E E2) as (s & -> & HP2 & HP3). cbn [err err_context].
    apply wp_bnd. eapply wp_mono.
    - apply (cancel_reported_wp exec pend s wl u2); [done|]. change (fabric (backend wl)) with (fabric (backend w)).
      rewrite HP. unfold in_flight. rewrite HP2, HP3. cbn. by rewrite Permutation_middle.
    - intros [] w2 Hk. pose proof Hk as (_ & HS & _). apply wp_bnd. eapply wp_from.
      { apply rx_unlock_run; [apply (st_send_mutex _ _ HS)|apply (st_recv_mutex _ _ HS)]. }
      apply wp_ret. apply with_mutexes_keeps in Hk; [|done]. split_and!; [done|lia|lia|].
      intros Ht. destruct Hk as (_ & _ & HG). destruct (HG Ht). lia. }
  all: apply wp_bnd; (eapply wp_from; [by apply rx_unlock_run|]); unfold wl;
    rewrite mutex_free by done.
  2,3: by (apply wp_ret, nothing_polled; [symmetry|]).
  apply entries_wp; try done.
  - intros. by apply handle_recv_wp.
  - intros e He. by apply (cq_read_flags _ _ _ _ _ _ E).
Qed.

(** ** Progress *)

(** A bound on the rounds of the loops. *)
Definition need w : nat := S (length (places (backend w))).

Lemma flying_need w : flying w < need w.
Proof. unfold flying, need, places. rewrite length_app. lia. Qed.

Lemma need_keeps exec pend w w' : keeps exec pend 0 w w' → strict = true → need w' ≤ need w.
Proof. intros (_ & _ & HG) Ht. destruct (HG Ht). unfold need. lia. Qed.

Hypothesis Hpos : strict = true → (1 ≤ max_completions_per_poll)%Z.

Abbreviation poll_for_work_completions :=
  (poll_for_work_completions call recursion_depth max_completions_per_poll bypass_tx bypass_rx).

(** A round that asks for another one has completed something. *)
Lemma retry_flying exec pend w w' n :
  polled exec pend w n w' → u32 n = max_completions_per_poll → strict = true → flying w' < flying w.
Proof.
  intros (_ & Hn & HF) E Ht. specialize (HF Ht). specialize (Hpos Ht).
  unfold max_completions_array_limit in Hmax. rewrite u32_small in E by lia. lia.
Qed.

Lemma poll_for_work_completions_wp fuel exec pend ud w :
  inv exec pend w → unlocked w → (strict = true → flying w < fuel) →
  wp allowed (poll_for_work_completions fuel ud) (λ _ w', keeps exec pend 0 w w') w.
Proof.
  revert w. induction fuel as [|fuel IH]; intros w HI Hu Hf; cbn.
  { split; [|done]. destruct strict; [|done]. specialize (Hf eq_refl). lia. }
  apply wp_bnd. eapply wp_mono; [by apply poll_send_queue_wp|]. intros n1 w1 P1.
  pose proof P1 as (K1 & _ & F1). apply wp_bnd.
  eapply wp_mono; [apply poll_recv_queue_wp; [apply K1|by eapply unlocked_keeps]|]. intros n2 w2 P2.
  pose proof P2 as (K2 & N2 & F2). pose proof (keeps_trans _ _ _ _ _ _ _ _ 0 _ _ _ K1 K2 ltac:(lia)) as K.
  destruct (_ || _) eqn:Er; [|by apply wp_ret].
  eapply wp_mono; [apply IH; [apply K2|exact (unlocked_keeps _ _ _ _ _ K Hu)|]|].
  - intros Ht. specialize (Hf Ht). specialize (F1 Ht). specialize (F2 Ht). pose proof P1 as (_ & N1 & _).
    apply orb_true_iff in Er as [Er|Er]; apply bool_decide_eq_true in Er.
    + assert (flying w1 < flying w) by (by eapply retry_flying). lia.
    + assert (flying w2 < flying w1) by (by eapply retry_flying). lia.
  - intros [] w3 K3. by eapply keeps_trans.
Qed.

(** A request is taken from its queue and completed. *)
Lemma consume_one_wp exec pend q l rest w :
  is_ready_queue q = true → get_q q (backend w) = l :: rest → inv exec pend w → unlocked w →
  wp allowed (complete call l)
    (λ _ w', keeps exec pend 0 w w' ∧ (strict = true → need w' < need w))
    (set_backend (set_q q rest (backend w)) w).
Proof.
  intros Hq E HI Hu. destruct (lf_pop_inv recursion_depth _ _ _ _ _ _ E HI) as [HI1 Hl].
  set (w1 := set_backend _ w) in *.
  eapply wp_mono; [by apply (lf_complete_wp recursion_depth strict call Hcall exec l pend)|].
  intros _ w2 [(HI2 & HS2 & HG2) Hin]. split.
  2:{ intros Ht. destruct (HG2 Ht). unfold need, w1 in *. cbn in *. lia. }
  split; [done|]. split; [|intros Ht; destruct (HG2 Ht); unfold flying, w1 in *; cbn in *; lia].
  destruct HS2. split; try done. intros l' Hd. destruct (decide (l' = l)) as [->|Hn]; [left; set_solver|].
  apply st_decided. destruct Hd as [Hd|(q' & Hq' & Hd)]; [by left|]. right. exists q'. split; [done|].
  unfold w1. cbn. rewrite lf_get_set_q. case_decide; [|done]. subst q'. rewrite E in Hd. set_solver.
Qed.

Lemma lf_consume_all_wp fuel q exec pend w :
  is_ready_queue q = true → inv exec pend w → unlocked w → (strict = true → need w ≤ fuel) →
  wp allowed (consume_all call fuel q) (λ _ w', keeps exec pend 0 w w') w.
Proof.
  intros Hq. revert w. induction fuel as [|fuel IH]; intros w HI Hu Hf; cbn;
    apply wp_bnd; unfold pop; apply wp_bnd, wp_gets;
    destruct (get_q q (backend w)) as [|l rest] eqn:E; try (by apply wp_ret, wp_ret, keeps_refl);
    apply wp_bnd, wp_modify, wp_ret.
  - split; [|done]. destruct strict; [|done]. specialize (Hf eq_refl). unfold need in Hf. lia.
  - apply wp_bnd. eapply wp_mono; [by apply consume_one_wp|]. intros [] w1 [K1 N1].
    eapply wp_mono; [apply IH; [apply K1|by eapply unlocked_keeps|]|].
    + intros Ht. specialize (Hf Ht). specialize (N1 Ht). lia.
    + intros [] w2 K2. by eapply keeps_trans.
Qed.

(** Sequencing of steps that keep the invariant. *)
Lemma lf_wp_step {A} (m : M W unit) (k : M W A) exec pend (Q : A → W → Prop) w0 w :
  keeps exec pend 0 w0 w → unlocked w0 →
  (unlocked w → inv exec pend w → (strict = true → need w ≤ need w0) →
   wp allowed m (λ _ w', keeps exec pend 0 w w') w) →
  (∀ w', keeps exec pend 0 w0 w' → wp allowed k Q w') →
  wp allowed (m ;;; k) Q w.
Proof.
  intros K Hu Hm Hk. apply wp_bnd. eapply wp_mono; [apply Hm; [by eapply unlocked_keeps|apply K|]|].
  - intros Ht. by eapply need_keeps.
  - intros [] w' K'. apply Hk. by eapply keeps_trans.
Qed.

Lemma clear_callback_queues_wp fuel c exec pend w :
  inv exec pend w → unlocked w → (strict = true → need w ≤ fuel) →
  wp allowed (clear_callback_queues call fuel c) (λ _ w', keeps exec pend 0 w w') w.
Proof.
  intros HI Hu Hf. unfold clear_callback_queues.
  assert (∀ w', (strict = true → need w' ≤ need w) → strict = true → need w' ≤ fuel) as Hn.
  { intros w' Hw Ht. specialize (Hf Ht). specialize (Hw Ht). lia. }
  eapply lf_wp_step; [by apply keeps_refl|done|intros; apply lf_consume_all_wp; auto|]. intros w1 K1.
  eapply lf_wp_step; [exact K1|done|intros; apply lf_consume_all_wp; auto|]. intros w2 K2.
  eapply wp_mono; [apply lf_consume_all_wp; [done|apply K2|by eapply unlocked_keeps|]|].
  - apply Hn. intros Ht. by eapply need_keeps.
  - intros [] w3 K3. by eapply keeps_trans.
Qed.

Lemma lf_progress_wp fuel c exec pend w :
  inv exec pend w → unlocked w → (strict = true → need w ≤ fuel) →
  wp allowed (progress call recursion_depth max_completions_per_poll bypass_tx bypass_rx fuel c)
    (λ _ w', keeps exec pend 0 w w') w.
Proof.
  intros HI Hu Hf. unfold progress.
  eapply lf_wp_step; [by apply keeps_refl|done| |].
  - intros. apply poll_for_work_completions_wp; [done..|]. intros Ht. specialize (Hf Ht).
    pose proof (flying_need w). lia.
  - intros w1 K1. eapply wp_mono; [apply clear_callback_queues_wp; [apply K1|by eapply unlocked_keeps|]|].
    + intros Ht. specialize (Hf Ht). pose proof (need_keeps _ _ _ _ K1 Ht). lia.
    + intros [] w2 K2. by eapply keeps_trans.
Qed.

End ops.
