(* ===== verification/LfPost.v ===== *)
(** * Posting and cancellation on the libfabric backend

    [send], [recv] and [shared_recv] leave the caller either with a completed
    operation or with a request that is tracked.  [cancel_recv] marks a receive
    canceled, or goes on polling: it has no way to return once the receive has
    completed ([cancel_loop_diverges]). *)
From S2P Require Import Prelude Tags Request LfModel LfInv LfOps.

Section post.
Context `{Fabric, !FabricLaws} {CB : Type}.
Abbreviation W := (world CB lf_ext lf_backend).
Implicit Types w : W.
Context (recursion_depth ctxt_tag tx_inject_size : Z) (call : CB → Z → Z → M W unit).
Context (max_completions_per_poll : Z) (bypass_tx bypass_rx : bool).
Abbreviation inv := (inv recursion_depth).
Abbreviation keeps := (keeps recursion_depth false).
Abbreviation allowed := (allowed false).
Hypothesis Hcall : ∀ cb, well_behaved recursion_depth false call cb.
Hypothesis Hrd : (0 ≤ recursion_depth < 2 ^ 64 - 1)%Z.
Hypothesis Hmax : (max_completions_per_poll ≤ max_completions_array_limit)%Z.

Lemma keeps_loose exec pend n w w' : inv exec pend w' → stable w w' → keeps exec pend n w w'.
Proof. intros HI HS. by split_and!. Qed.

Lemma keeps_loose_trans exec exec' pend pend' n m w1 w2 w3 :
  keeps exec pend n w1 w2 → keeps exec' pend' m w2 w3 → keeps exec' pend' 0 w1 w3.
Proof. intros (_ & HS & _) (HI & HS' & _). apply keeps_loose; [done|by etrans]. Qed.

(** ** The posting loop *)

(** [F] either accepts the operation, after which [pend'] is what remains
    between places, or asks to try again. *)
Lemma execute_fi_function_wp fuel c F exec pend pend' w :
  (∀ u r u', F u = (r, u') →
     r = Fi_ok ∧ pend' ++ in_flight u' ≡ₚ pend ++ in_flight u ∨
     r = Fi_again ∧ in_flight u' ≡ₚ in_flight u) →
  inv exec pend w → unlocked w →
  wp allowed (execute_fi_function call recursion_depth max_completions_per_poll bypass_tx bypass_rx fuel c F)
    (λ _ w', keeps exec pend' 0 w w') w.
Proof.
  intros HF. revert w. induction fuel as [|fuel IH]; intros w HI Hu; [done|]. cbn.
  apply wp_bnd, wp_fab_call. intros r u E. destruct (HF _ _ _ E) as [[-> HP]|[-> HP]].
  - apply wp_ret, keeps_loose; [by apply fabric_inv with pend|apply fabric_stable].
  - set (w1 := set_backend _ w).
    assert (keeps exec pend 0 w w1) as K1.
    { apply keeps_loose; [apply fabric_inv with pend; [done|by rewrite HP]|apply fabric_stable]. }
    apply wp_bnd. eapply wp_mono; [apply poll_for_work_completions_wp; try done; apply K1|].
    intros [] w2 K2. eapply wp_mono; [apply IH; [apply K2|]|].
    + exact (unlocked_keeps _ _ _ _ _ _ _ K2 (unlocked_keeps _ _ _ _ _ _ _ K1 Hu)).
    + intros [] w3 K3. eapply keeps_loose_trans; [exact K1|]. by eapply keeps_loose_trans.
Qed.

(** ** Posting *)

(** What a posting operation did: the callback was called, or the caller has a
    new request that is in one place. *)
Definition post_result w (cb : CB) (p t : Z) (o : option positive) w' : Prop :=
  match o with
  | None => ∃ l, calls w' = calls w ++ l ∧ (cb, p, t) ∈ l
  | Some s => (next w ≤ s)%positive ∧ (s < next w')%positive
  end.

Definition posts exec pend w (cb : CB) (p t : Z) (o : option positive) w' : Prop :=
  keeps exec pend 0 w w' ∧ post_result w cb p t o w'.

Lemma owned_post w w' cell p t cb x l :
  base_inv l w →
  reqs w' = <[next w := RequestState cell p t cb false false true 2 x]> (reqs w) →
  (∀ l', owned w' l' ↔ l' = next w ∨ owned w l') ∧ ¬ owned w (next w).
Proof.
  intros HB E. split.
  - intros l'. unfold owned. rewrite E. setoid_rewrite lookup_insert. case_decide; subst; naive_solver.
  - intros (st & Hl & _). assert (next w < next w)%positive by (apply (bi_next _ _ HB); by eexists). lia.
Qed.

(** A new request is between places. *)
Lemma post_wp cell p t cb x exec pend w :
  inv exec pend w → cell ∈ cells →
  wp allowed (post cell p t cb x)
    (λ s w', s = next w ∧ keeps exec (s :: pend) 0 w w' ∧ next w' = Pos.succ (next w) ∧ backend w' = backend w) w.
Proof.
  intros HI Hcell.
  destruct (post_ok exec w cell p t cb x (inv_base _ _ _ _ HI) Hcell)
    as (w1 & E & HB & Eb & Ei & Ec & Hn & En & Ecl & Er).
  destruct (owned_post _ _ _ _ _ _ _ _ (inv_base _ _ _ _ HI) Er) as [Ho Hno].
  apply (wp_from _ _ _ _ _ _ E). split_and!; [done| |done|done]. apply keeps_loose.
  - split; rewrite ?Eb; [done| | |apply HI].
    + constructor; [|apply HI]. intros Hin. apply Hno. by apply (inv_own _ _ _ _ HI).
    + intros l. rewrite Ho, (inv_own _ _ _ _ HI l). set_solver.
  - split; rewrite ?Eb, ?Ei, ?Ec, ?En, ?Ecl; try done; [lia|]. unfold decided. by rewrite Eb, Ei, Ec.
Qed.

(** A callback called in place. *)
Lemma call_cb_wp cb p t exec pend w :
  inv exec pend w → unlocked w →
  wp allowed (call_cb call cb p t) (λ _ w', keeps exec pend 0 w w' ∧ (calls w ++ [(cb, p, t)]) `prefix_of` calls w') w.
Proof.
  intros HI Hu. unfold call_cb. apply wp_bnd, wp_modify.
  assert (keeps exec pend 0 w (log_call cb p t w)) as K1.
  { apply keeps_loose.
    - split; try apply HI. apply (base_inv_same exec w); [by split|apply HI].
    - split; try done. by eexists. }
  eapply wp_mono; [apply Hcall; [apply K1|done]|]. intros [] w2 K2. split; [by eapply keeps_loose_trans|].
  destruct K2 as (_ & HS & _). apply (st_calls _ _ HS).
Qed.

Abbreviation exec_fi := (execute_fi_function call recursion_depth max_completions_per_poll bypass_tx bypass_rx).

(** A request posted on the fabric; [k] is the rest of the operation. *)
Lemma lf_post_fly_wp fuel c cell p t cb x F k exec pend (Q : option positive → W → Prop) w :
  inv exec pend w → unlocked w → cell ∈ cells →
  (∀ s u r u', F s u = (r, u') →
     r = Fi_ok ∧ in_flight u' ≡ₚ s :: in_flight u ∨ r = Fi_again ∧ in_flight u' ≡ₚ in_flight u) →
  (∀ w', keeps exec pend 0 w w' → (next w < next w')%positive → wp allowed (k (next w)) Q w') →
  wp allowed (let! s := post cell p t cb x in exec_fi fuel c (F s) ;;; k s) Q w.
Proof.
  intros HI Hu Hcell HF Hk. apply wp_bnd. eapply wp_mono; [by apply (post_wp cell p t cb x exec pend)|].
  intros s w1 (-> & K1 & En & Eb). apply wp_bnd.
  eapply wp_mono; [apply (execute_fi_function_wp fuel c (F (next w)) exec (next w :: pend) pend)|].
  - intros u r u' E. destruct (HF _ _ _ _ E) as [[-> HP]|[-> HP]]; [left|by right]. split; [done|].
    rewrite HP. cbn. by rewrite Permutation_middle.
  - apply K1.
  - by eapply unlocked_keeps.
  - intros [] w2 K2. apply Hk; [by eapply keeps_loose_trans|].
    destruct K2 as (_ & HS & _). pose proof (st_next _ _ HS). lia.
Qed.

Lemma posts_new exec pend w w' cb p t :
  keeps exec pend 0 w w' → (next w < next w')%positive → posts exec pend w cb p t (Some (next w)) w'.
Proof. by intros K Hn. Qed.

Lemma tsend_flight a n d t s u r u' :
  fi_tsend a n d t s u = (r, u') →
  r = Fi_ok ∧ in_flight u' ≡ₚ s :: in_flight u ∨ r = Fi_again ∧ in_flight u' ≡ₚ in_flight u.
Proof.
  intros E. destruct (tsend_posted _ _ _ _ _ _ _ _ E) as [[[-> HP]|[-> HP]] HR]; [left|right];
    (split; [done|]); unfold in_flight; by rewrite HP, HR.
Qed.

Lemma trecv_flight a n d t s u r u' :
  fi_trecv a n d t s u = (r, u') →
  r = Fi_ok ∧ in_flight u' ≡ₚ s :: in_flight u ∨ r = Fi_again ∧ in_flight u' ≡ₚ in_flight u.
Proof.
  intros E. destruct (trecv_posted _ _ _ _ _ _ _ _ E) as [[[-> HP]|[-> HP]] HR]; [left|right];
    (split; [done|]); unfold in_flight; rewrite HP, HR; [by rewrite Permutation_middle|done].
Qed.

Lemma tinject_flight a n d t u r u' :
  fi_tinject a n d t u = (r, u') → (r = Fi_ok ∨ r = Fi_again) ∧ in_flight u' ≡ₚ in_flight u.
Proof.
  intros E. destruct (tinject_posted _ _ _ _ _ _ _ E) as [Hr HP]. split; [done|].
  unfold in_flight. by rewrite !HP.
Qed.

(** The completed send whose callback has to wait. *)
Lemma lf_post_queue_wp q cell p t cb x exec pend w :
  inv exec pend w → cell ∈ cells → is_ready_queue q = true →
  wp allowed (let! s := post cell p t cb x in push q s ;;; ret (Some s)) (posts exec pend w cb p t) w.
Proof.
  intros HI Hcell Hq. apply wp_bnd. eapply wp_mono; [by apply (post_wp cell p t cb x exec pend)|].
  intros s w1 (-> & K1 & En & Eb). apply wp_bnd.
  eapply wp_mono; [apply (push_wp recursion_depth false exec pend); [apply K1|done]|].
  intros [] w2 [K2 _]. apply wp_ret. split; [by eapply keeps_loose_trans|]. cbn. split; [done|].
  destruct K2 as (_ & HS & _). pose proof (st_next _ _ HS). lia.
Qed.

(** The callback of a completed send is called in place. *)
Lemma lf_inline_wp c p t cb exec pend w :
  inv exec pend w → unlocked w → has_reached_recursion_depth recursion_depth (Some c) w = false →
  wp allowed (with_recursion (Some c) (call_cb call cb p t) ;;; ret (@None positive))
    (posts exec pend w cb p t) w.
Proof.
  intros HI [Hu1 Hu2] Hd. apply wp_bnd. eapply wp_mono.
  - apply (with_recursion_wp recursion_depth false Hrd exec pend pend 0 (Some c) _
      (λ w', (calls w ++ [(cb, p, t)]) `prefix_of` calls w')); [done..| |].
    + intros w1 w2 ? _ _ ->. done.
    + intros w1 _ _ Ec E1 E2 HI1. rewrite <- Ec. apply call_cb_wp; [done|]. split; congruence.
  - intros [] w2 [K2 [l El]]. apply wp_ret. split; [done|]. exists ((cb, p, t) :: l). split; [|set_solver].
    rewrite El. by rewrite <- app_assoc.
Qed.

Lemma posts_keeps exec exec' pend n w w1 cb p t o w' :
  keeps exec' pend n w w1 → posts exec pend w1 cb p t o w' → posts exec pend w cb p t o w'.
Proof.
  intros K1 [K2 Hr]. split; [by eapply keeps_loose_trans|]. destruct K1 as (_ & HS & _).
  destruct o as [s|]; cbn in *.
  - pose proof (st_next _ _ HS). destruct Hr. split; [lia|done].
  - destruct (st_calls _ _ HS) as [k Ek]. destruct Hr as (l & El & Hin). exists (k ++ l).
    rewrite El, Ek, <- app_assoc. split; [done|set_solver].
Qed.

Lemma lf_send_wp fuel c ptr size dst tag cb exec pend w :
  inv exec pend w → unlocked w →
  wp allowed (send call recursion_depth ctxt_tag tx_inject_size max_completions_per_poll bypass_tx
                bypass_rx fuel c ptr size dst tag cb) (posts exec pend w cb dst tag) w.
Proof.
  intros HI Hu. unfold send. case_bool_decide.
  - apply wp_bnd. eapply wp_mono; [apply (execute_fi_function_wp fuel c _ exec pend pend); [|done..]|].
    + intros u r u' E. destruct (tinject_flight _ _ _ _ _ _ _ E) as [[->| ->] HP]; [left|by right].
      by rewrite HP.
    + intros [] w1 K1. eapply wp_mono with (Q := posts exec pend w1 cb dst tag);
        [|intros o w'; by eapply posts_keeps].
      apply wp_bnd, wp_gets. destruct (has_reached_recursion_depth _ _ _) eqn:Hd.
      * apply lf_post_queue_wp; [apply K1|set_solver|done].
      * apply lf_inline_wp; [apply K1|by eapply unlocked_keeps|done].
  - apply (lf_post_fly_wp fuel c scheduled_sends dst tag cb (LfExt c Request_state)
             (fi_tsend ptr size dst (stag ctxt_tag tag)) (λ s, ret (Some s)) exec pend); [done..|set_solver| |].
    + intros s u r u'. apply tsend_flight.
    + intros w1 K1 Hn. by apply wp_ret, posts_new.
Qed.

Lemma lf_recv_wp fuel c ptr size src tag cb exec pend w :
  inv exec pend w → unlocked w →
  wp allowed (recv call recursion_depth ctxt_tag max_completions_per_poll bypass_tx bypass_rx
                fuel c ptr size src tag cb) (posts exec pend w cb src tag) w.
Proof.
  intros HI Hu. apply (lf_post_fly_wp fuel c scheduled_recvs src tag cb (LfExt c Request_state)
             (fi_trecv ptr size src (stag ctxt_tag tag)) (λ s, ret (Some s)) exec pend); [done..|set_solver| |].
  - intros s u r u'. apply trecv_flight.
  - intros w1 K1 Hn. by apply wp_ret, posts_new.
Qed.

Lemma lf_shared_recv_wp fuel c ptr size src tag cb exec pend w :
  inv exec pend w → unlocked w →
  wp allowed (shared_recv call recursion_depth ctxt_tag max_completions_per_poll bypass_tx bypass_rx
                fuel c ptr size src tag cb) (posts exec pend w cb src tag) w.
Proof.
  intros HI Hu. eapply (lf_post_fly_wp fuel c scheduled_shared_recvs src tag cb (LfExt c Shared_request_state)
             (fi_trecv ptr size src (stag ctxt_tag tag)) _ exec pend); [done..|set_solver| |].
  - intros s u r u'. apply trecv_flight.
  - intros w1 K1 Hn. apply wp_bnd.
    eapply wp_mono; [apply poll_recv_queue_wp; try done; [apply K1|by eapply unlocked_keeps]|].
    intros n w2 (K2 & _). apply wp_ret, posts_new; [by eapply keeps_loose_trans|].
    destruct K2 as (_ & HS & _). pose proof (st_next _ _ HS). lia.
Qed.

(** ** Cancellation *)

Lemma search_spec s q stack :
  match search s q stack with
  | (true, stack', rest) => ∃ popped, q = popped ++ s :: rest ∧ stack' = reverse popped ++ stack
  | (false, stack', rest) => (s ∉ q) ∧ rest = [] ∧ stack' = reverse q ++ stack
  end.
Proof.
  revert stack. induction q as [|t q IH]; intros stack; cbn [search]; [set_solver|].
  case_decide as E; [subst; by exists []|]. specialize (IH (t :: stack)).
  destruct (search s q (t :: stack)) as [[[] stack'] rest].
  - destruct IH as (popped & -> & ->). exists (t :: popped). split; [done|].
    by rewrite reverse_cons, <- app_assoc.
  - destruct IH as (Hs & -> & ->). split_and!; [set_solver|done|]. by rewrite reverse_cons, <- app_assoc.
Qed.

Lemma owned_canceled w w' l st :
  reqs w' = <[l := st]> (reqs w) → m_self_ptr st = false →
  ∀ l', owned w' l' ↔ l' ≠ l ∧ owned w l'.
Proof.
  intros E Hs l'. unfold owned. rewrite E. split.
  - intros (st' & H1 & H2). rewrite lookup_insert in H1. case_decide; [congruence|]. split; [congruence|by exists st'].
  - intros (Hn & st' & H1 & H2). exists st'. by rewrite lookup_insert_ne.
Qed.

(** [auto ptr = s->release_self_ref(); s->set_canceled();] *)
Lemma set_canceled_wp s exec pend w :
  inv exec (s :: pend) w →
  wp allowed (with_self_ref s (set_canceled s)) (λ _ w', keeps exec pend 0 w w' ∧ s ∈ canceled w') w.
Proof.
  intros HI. destruct (proj2 (inv_own _ _ _ _ HI s)) as (st & Hl & Hs); [set_solver|].
  pose proof (inv_nodup _ _ _ _ HI) as [Hn Hnd]%NoDup_cons.
  destruct (cancel_self_ok exec w s st (inv_base _ _ _ _ HI) Hl Hs)
    as (w1 & w2 & st2 & E1 & E2 & HB2 & Er & Hs2 & Hr2 & _ & Eb & Ei & Ec & En & Ecl & Ex).
  unfold with_self_ref. apply wp_bnd, (wp_from _ _ _ _ _ _ E1), wp_scoped, (wp_from _ _ _ _ _ _ E2).
  destruct (drop_finished_ok exec w2 s st2 HB2) as (w3 & E3 & HB3 & Eb3 & Ei3 & Ec3 & En3 & Ecl3 & Ho3 & Hs3 & _);
    [by rewrite Er, lookup_insert_eq|done|].
  apply (wp_from _ _ _ _ _ _ E3). split; [|rewrite Ec3, Ec; set_solver]. apply keeps_loose.
  - split; rewrite ?Eb3, ?Eb; [done|done| |apply HI]. intros l'.
    transitivity (l' ≠ s ∧ owned w l'); [|rewrite (inv_own _ _ _ _ HI); set_solver].
    rewrite <- (owned_canceled w w2 s st2 Er Hs2). unfold owned.
    destruct (decide (l' = s)) as [->|Hne]; [|by rewrite Ho3].
    rewrite Er, lookup_insert_eq. split; intros (st' & E & Ht); [destruct (Hs3 _ E)|]; congruence.
  - split; rewrite ?Eb3, ?Eb, ?Ei3, ?Ec3, ?En3, ?Ecl3, ?Ei, ?Ec, ?En, ?Ecl; try done; [by eexists|].
    intros l' [Hd|Hd]; [left|right; by rewrite Eb3, Eb]. rewrite Ei3, Ec3, Ei, Ec. set_solver.
Qed.

Lemma push_back_wp q l exec pend w :
  inv exec (l ++ pend) w → wp allowed (mfor l (push q)) (λ _ w', keeps exec pend 0 w w') w.
Proof.
  intros HI. eapply wp_mono.
  - apply (wp_mfor _ (λ l w', keeps exec (l ++ pend) 0 w w')); [|by apply keeps_refl].
    intros x l' w' K. apply wp_modify. eapply keeps_loose_trans; [exact K|]. apply push_keeps, K.
  - cbn. intros _ w' K. exact K.
Qed.

Lemma cancel_queue_set exec pend pend' q rest w :
  is_ready_queue q = false → inv exec pend w → pend' ++ rest ≡ₚ pend ++ get_q q (backend w) →
  keeps exec pend' 0 w (set_backend (set_q q rest (backend w)) w).
Proof.
  intros Hq HI HP. apply keeps_loose.
  - eapply lf_inv_backend; [exact HI| |done]. rewrite places_set_q, (places_get_q q (backend w)).
    by rewrite !app_assoc, HP.
  - apply lf_stable_backend; try done. intros q' l' Hq' Hl. rewrite lf_get_set_q, decide_False; [done|]. congruence.
Qed.

(** The search finds [s] exactly if it is in the queue. *)
Lemma search_cancel_queue_wp q s exec pend w :
  is_ready_queue q = false → inv exec pend w →
  wp allowed (search_cancel_queue q s)
    (λ found w', keeps exec pend 0 w w' ∧ (found = true ↔ s ∈ get_q q (backend w)) ∧
                 (found = true → s ∈ canceled w')) w.
Proof.
  intros Hq HI. unfold search_cancel_queue. apply wp_bnd, wp_gets.
  pose proof (search_spec s (get_q q (backend w)) []) as Hsp.
  destruct (search _ _ _) as [[[] stack] rest]; cbv zeta beta; apply wp_bnd, wp_modify.
  - destruct Hsp as (popped & Eq & ->). rewrite app_nil_r.
    pose proof (cancel_queue_set exec pend (s :: reverse popped ++ pend) q rest w Hq HI) as K1.
    specialize (K1 ltac:(rewrite Eq, reverse_Permutation; cbn;
      rewrite app_assoc, <- Permutation_middle; by rewrite (Permutation_app_comm pend popped), <- app_assoc)).
    apply wp_bnd. eapply wp_mono; [apply (set_canceled_wp s exec (reverse popped ++ pend)), K1|].
    intros [] w2 [K2 Hin]. apply wp_bnd. eapply wp_mono; [apply push_back_wp, K2|].
    intros [] w3 K3. apply wp_ret. split_and!.
    + eapply keeps_loose_trans; [exact K1|]. by eapply keeps_loose_trans.
    + split; [|done]. rewrite Eq. set_solver.
    + intros _. destruct K3 as (_ & HS & _). destruct (st_canceled _ _ HS) as [k ->]. set_solver.
  - destruct Hsp as (Hs & -> & ->). rewrite app_nil_r.
    pose proof (cancel_queue_set exec pend (reverse (get_q q (backend w)) ++ pend) q [] w Hq HI) as K1.
    specialize (K1 ltac:(by rewrite app_nil_r, reverse_Permutation, Permutation_app_comm)).
    apply wp_bnd, wp_ret, wp_bnd. eapply wp_mono; [apply push_back_wp, K1|].
    intros [] w3 K3. apply wp_ret. split_and!; [by eapply keeps_loose_trans|by split|done].
Qed.

Abbreviation cancel_loop := (cancel_loop call recursion_depth max_completions_per_poll bypass_rx).

Lemma cancel_loop_wp fuel ud q s exec pend w :
  is_ready_queue q = false → inv exec pend w → unlocked w →
  wp allowed (cancel_loop fuel ud q s) (λ _ w', keeps exec pend 0 w w' ∧ s ∈ canceled w') w.
Proof.
  intros Hq. revert w. induction fuel as [|fuel IH]; intros w HI Hu; [done|]. cbn.
  apply wp_bnd. eapply wp_mono; [by apply (poll_recv_queue_wp recursion_depth false call _ _ Hcall Hrd Hmax exec pend)|].
  intros n w1 (K1 & _). apply wp_bnd.
  eapply wp_mono; [by apply (search_cancel_queue_wp q s exec pend), K1|].
  intros found w2 (K2 & _ & Hc). pose proof (keeps_loose_trans _ _ _ _ _ _ _ _ _ K1 K2) as K3.
  destruct found; [apply wp_ret; auto|].
  eapply wp_mono; [apply IH; [apply K2|by eapply unlocked_keeps]|].
  intros [] w4 [K4 Hin]. split; [by eapply keeps_loose_trans|done].
Qed.

(** A request in a queue of completed requests, or finished, is in no other
    place. *)
Lemma decided_not_canceling exec pend q s w :
  inv exec pend w → decided w s → is_ready_queue q = false → s ∉ get_q q (backend w).
Proof.
  intros HI Hd Hq Hin. pose proof (in_get_q _ _ _ Hin) as Hp.
  destruct Hd as [Hd|(q' & Hq' & Hd)].
  - destruct (proj2 (inv_own _ _ _ _ HI s)) as (st & Hl & Hs); [set_solver|].
    by apply (bi_waiting _ _ (inv_base _ _ _ _ HI) s st Hl Hs).
  - pose proof (inv_nodup _ _ _ _ HI) as (_ & _ & Hnd)%NoDup_app.
    rewrite (places_get_q q) in Hnd. apply NoDup_app in Hnd as (_ & Hnd & _). apply (Hnd s Hin).
    apply elem_of_app. left. rewrite (all_queued_split _ q').
    rewrite lookup_delete_ne by congruence. set_solver.
Qed.

(** Once the receive has completed, the loop of [cancel_recv] does not end. *)
Lemma cancel_loop_diverges fuel ud q s exec pend w :
  is_ready_queue q = false → inv exec pend w → unlocked w → decided w s →
  ∃ w', cancel_loop fuel ud q s w = (Halt out_of_fuel, w').
Proof.
  intros Hq. revert w. induction fuel as [|fuel IH]; intros w HI Hu Hd; cbn; [by eexists|].
  pose proof (poll_recv_queue_wp recursion_depth false call _ bypass_rx Hcall Hrd Hmax exec pend ud w HI Hu) as Hp.
  unfold bnd at 1. unfold wp in Hp. destruct (poll_recv_queue _ _ _ _ _ _) as [[n| |h] w1]; [|done|].
  2:{ destruct Hp as [_ ->]. by eexists. }
  destruct Hp as (K1 & _). pose proof (search_cancel_queue_wp q s exec pend w1 Hq ltac:(apply K1)) as Hsr.
  unfold bnd. unfold wp in Hsr. destruct (search_cancel_queue _ _ _) as [[found| |h] w2]; [|done|].
  2:{ destruct Hsr as [_ ->]. by eexists. }
  destruct Hsr as (K2 & Hf & _). pose proof K1 as (_ & HS1 & _). pose proof K2 as (_ & HS2 & _).
  destruct found.
  - exfalso. apply (decided_not_canceling exec pend q s w1); [apply K1|by apply HS1|done|by apply Hf].
  - apply IH; [apply K2|exact (unlocked_keeps _ _ _ _ _ _ _ K2 (unlocked_keeps _ _ _ _ _ _ _ K1 Hu))|].
    by apply HS2, HS1.
Qed.
End post.
