(* ===== verification/LfApi.v ===== *)
(** * What a program sees of the libfabric backend

    The operations of the library as steps between states of the program, the
    invariant in every reachable state, and what follows from it. *)
From S2P Require Import Prelude Tags Request LfModel LfInv LfOps LfPost.

Section api.
Context `{Fabric, !FabricLaws} {CB : Type}.
Abbreviation W := (world CB lf_ext lf_backend).
Implicit Types w : W.
Variable call : CB → Z → Z → M W unit.
Variables recursion_depth ctxt_tag tx_inject_size max_completions_per_poll : Z.
Variables bypass_tx bypass_rx : bool.

(** The state after the construction of the context, with nothing in flight. *)
Definition init (u : fab_st) : W := World ∅ 1 ∅ [] [] [] (LfBackend _ u false false ∅ ∅).

Abbreviation send := (send call recursion_depth ctxt_tag tx_inject_size max_completions_per_poll bypass_tx bypass_rx).
Abbreviation recv := (recv call recursion_depth ctxt_tag max_completions_per_poll bypass_tx bypass_rx).
Abbreviation shared_recv := (shared_recv call recursion_depth ctxt_tag max_completions_per_poll bypass_tx bypass_rx).
Abbreviation progress := (progress call recursion_depth max_completions_per_poll bypass_tx bypass_rx).
Abbreviation ctx_progress := (ctx_progress call recursion_depth max_completions_per_poll bypass_tx bypass_rx).
Abbreviation cancel_recv := (cancel_recv call recursion_depth max_completions_per_poll bypass_rx).
Abbreviation ctx_cancel_recv := (ctx_cancel_recv call recursion_depth max_completions_per_poll bypass_rx).

(** What a program may do next, with any communicator [c].  A receive is
    canceled through a handle, which keeps the request.  [step_env] is the
    network: nothing is lost. *)
Inductive api_step : W → W → Prop :=
| step_send w fuel c ptr size dst tag cb o w' :
    send fuel c ptr size dst tag cb w = (Ret o, w') → api_step w w'
| step_recv w fuel c ptr size src tag cb o w' :
    recv fuel c ptr size src tag cb w = (Ret o, w') → api_step w w'
| step_shared_recv w fuel c ptr size src tag cb o w' :
    shared_recv fuel c ptr size src tag cb w = (Ret o, w') → api_step w w'
| step_progress w fuel c w' : progress fuel c w = (Ret tt, w') → api_step w w'
| step_ctx_progress w fuel w' : ctx_progress fuel w = (Ret tt, w') → api_step w w'
| step_clear w fuel c w' : clear_callback_queues call fuel c w = (Ret tt, w') → api_step w w'
| step_cancel w fuel c s b w' : cancel_recv fuel c s w = (Ret b, w') → api_step w w'
| step_ctx_cancel w fuel s b w' : ctx_cancel_recv fuel s w = (Ret b, w') → api_step w w'
| step_drop w l st w' :
    reqs w !! l = Some st → (if m_self_ptr st then 1 else 0) < m_refs st →
    drop_ref l w = (Ret tt, w') → api_step w w'
| step_env w u :
    in_flight u ≡ₚ in_flight (fabric (backend w)) →
    api_step w (set_backend (set_fabric u (backend w)) w).

Definition reachable (u : fab_st) w : Prop := in_flight u = [] ∧ rtc api_step (init u) w.

Abbreviation inv := (inv recursion_depth).
Abbreviation keeps := (keeps recursion_depth false).
Abbreviation allowed := (allowed false).
Hypothesis Hrd : (0 ≤ recursion_depth < 2 ^ 64 - 1)%Z.
Hypothesis Hmax : (max_completions_per_poll ≤ max_completions_array_limit)%Z.
Hypothesis Hcall : ∀ cb, well_behaved recursion_depth false call cb.

(** Between operations. *)
Definition good w : Prop := inv [] [] w ∧ unlocked w.

Lemma good_keeps n w w' : good w → keeps [] [] n w w' → good w'.
Proof. intros [_ Hu] K. split; [apply K|by eapply unlocked_keeps]. Qed.

Lemma lf_init_good u : in_flight u = [] → good (init u).
Proof.
  intros Hu. split; [|done]. split; cbn.
  - split; cbn; try (intros *; by rewrite lookup_empty); try set_solver; try apply NoDup_nil_2.
    intros l Hl. lia.
  - unfold places. cbn. rewrite Hu. apply NoDup_nil_2.
  - intros l. unfold places, owned. cbn. rewrite Hu. setoid_rewrite lookup_empty. set_solver.
  - intros o. unfold get_depth. cbn. rewrite lookup_empty. cbn. lia.
Qed.

(** Cancellation, from the request to the result. *)
Lemma cancel_wp (ud : option nat) q fuel s w :
  is_ready_queue q = false → good w → is_Some (reqs w !! s) →
  wp allowed (get_req s ;;;
      let! ok := fab_call (fi_cancel s) in
      if negb ok then ret false
      else cancel_loop call recursion_depth max_completions_per_poll bypass_rx fuel ud q s ;;; ret true)
    (λ b w', keeps [] [] 0 w w' ∧ (b = true → s ∈ canceled w')) w.
Proof.
  intros Hq [HI Hu] [st Hs]. apply wp_bnd, (wp_from _ _ _ _ _ _ (get_req_ok _ _ _ Hs)).
  apply wp_bnd, wp_fab_call. intros ok u E. set (w1 := set_backend _ w).
  assert (keeps [] [] 0 w w1) as K1.
  { apply keeps_loose; [|apply fabric_stable]. apply fabric_inv with []; [done|]. cbn.
    replace u with (fi_cancel s (fabric (backend w))).2 by by rewrite E.
    unfold in_flight. by rewrite !cancel_posted. }
  destruct ok; cbn [negb]; [|by apply wp_ret].
  apply wp_bnd. eapply wp_mono; [apply (cancel_loop_wp recursion_depth call _ bypass_rx Hcall Hrd Hmax fuel ud q s [] []);
    [done|apply K1|by eapply unlocked_keeps]|].
  intros [] w2 [K2 Hin]. apply wp_ret. split; [by eapply keeps_loose_trans|done].
Qed.

Lemma lf_cancel_recv_wp fuel c s w :
  good w → is_Some (reqs w !! s) →
  wp allowed (cancel_recv fuel c s) (λ b w', keeps [] [] 0 w w' ∧ (b = true → s ∈ canceled w')) w.
Proof. by apply cancel_wp. Qed.
Lemma lf_ctx_cancel_recv_wp fuel s w :
  good w → is_Some (reqs w !! s) →
  wp allowed (ctx_cancel_recv fuel s) (λ b w', keeps [] [] 0 w w' ∧ (b = true → s ∈ canceled w')) w.
Proof. by apply cancel_wp. Qed.

(** A cancellation that returned was given a live request. *)
Lemma cancel_live {A} s (k : M W A) w a w' :
  (get_req s ;;; k) w = (Ret a, w') → is_Some (reqs w !! s).
Proof. unfold bnd, get_req. destruct (reqs w !! s); [by eexists|done]. Qed.

(** Dropping a handle changes no request that waits. *)
Lemma drop_handle_keeps w l st :
  good w → reqs w !! l = Some st → (if m_self_ptr st then 1 else 0) < m_refs st →
  ∃ w', drop_ref l w = (Ret tt, w') ∧ keeps [] [] 0 w w'.
Proof.
  intros [HI Hu] Hl Hr.
  destruct (drop_ref_ok [] w l st) as (w' & E & HB & Eb & Ei & Ec & En & Ecl & Ho & Hl');
    [apply HI|done|rewrite decide_False by set_solver; lia|].
  exists w'. split; [done|]. apply keeps_loose.
  - split; rewrite ?Eb; try apply HI; [done|]. intros l'. rewrite <- (inv_own _ _ _ _ HI). unfold owned.
    destruct (decide (l' = l)) as [->|Hn]; [|by rewrite Ho]. rewrite Hl, Hl'.
    case_decide as E1; [rewrite E1 in Hr|].
    + split; [by intros (? & ? & _)|]. intros (st' & [= <-] & Hs). rewrite Hs in Hr. lia.
    + split; intros (st' & [= <-] & Hs); eexists; split; done.
  - split; rewrite ?Eb, ?Ei, ?Ec, ?En, ?Ecl; try done. unfold decided. by rewrite Eb, Ei, Ec.
Qed.

Lemma step_keeps w w' : good w → api_step w w' → keeps [] [] 0 w w'.
Proof.
  intros Hg Hstep. pose proof Hg as [HI Hu].
  destruct Hstep as [w fuel c ptr size dst tag cb o w' E|w fuel c ptr size src tag cb o w' E|
    w fuel c ptr size src tag cb o w' E|w fuel c w' E|w fuel w' E|w fuel c w' E|w fuel c s b w' E|
    w fuel s b w' E|w l st w' Hl Hr E|w u HP].
  - refine (proj1 (wp_inv _ _ _ _ _ _ (lf_send_wp _ _ _ _ _ _ _ Hcall Hrd Hmax _ _ _ _ _ _ _ _ _ _ HI Hu) E)).
  - refine (proj1 (wp_inv _ _ _ _ _ _ (lf_recv_wp _ _ _ _ _ _ Hcall Hrd Hmax _ _ _ _ _ _ _ _ _ _ HI Hu) E)).
  - refine (proj1 (wp_inv _ _ _ _ _ _ (lf_shared_recv_wp _ _ _ _ _ _ Hcall Hrd Hmax _ _ _ _ _ _ _ _ _ _ HI Hu) E)).
  - refine (wp_inv _ _ _ _ _ _ (lf_progress_wp _ false _ _ _ _ Hcall Hrd Hmax _ _ _ _ _ _ HI Hu _) E); done.
  - refine (wp_inv _ _ _ _ _ _ (poll_for_work_completions_wp _ false _ _ _ _ Hcall Hrd Hmax _ _ _ _ _ _ HI Hu _) E); done.
  - refine (wp_inv _ _ _ _ _ _ (clear_callback_queues_wp _ false _ _ Hcall Hrd Hmax _ _ _ _ _ _ HI Hu _) E); done.
  - pose proof (cancel_live _ _ _ _ _ E) as Hs. apply (wp_inv _ _ _ _ _ _ (lf_cancel_recv_wp _ _ _ _ Hg Hs) E).
  - pose proof (cancel_live _ _ _ _ _ E) as Hs. apply (wp_inv _ _ _ _ _ _ (lf_ctx_cancel_recv_wp _ _ _ Hg Hs) E).
  - destruct (drop_handle_keeps w l st Hg Hl Hr) as (w2 & E2 & K2). by replace w' with w2 by congruence.
  - apply keeps_loose; [|apply fabric_stable]. by apply fabric_inv with [].
Qed.

Lemma steps_keeps w w' : good w → rtc api_step w w' → keeps [] [] 0 w w'.
Proof.
  intros Hg Hr. induction Hr as [w|w1 w2 w3 Hs _ IH]; [by apply keeps_refl, Hg|].
  pose proof (step_keeps _ _ Hg Hs) as K. eapply keeps_loose_trans; [exact K|].
  apply IH. by eapply good_keeps.
Qed.

Lemma lf_reachable_good u w : reachable u w → good w.
Proof.
  intros [Hu Hr]. eapply good_keeps; [by apply lf_init_good|]. eapply steps_keeps; [by apply lf_init_good|done].
Qed.

(** ** Promises *)

(** C6: In every reachable state of a program, the requests ever posted are
    partitioned: a request waits, in flight or in one callback queue, at one
    place, or its callback has been called once, or it has been canceled. *)
Theorem lf_callback_exactly_once u w :
  reachable u w →
  NoDup (places (backend w)) ∧ NoDup (invoked w ++ canceled w) ∧
  (∀ l, l ∈ places (backend w) → l ∉ invoked w ++ canceled w) ∧
  (∀ l, (l < next w)%positive ↔ l ∈ places (backend w) ∨ l ∈ invoked w ++ canceled w).
Proof.
  intros [HI _]%lf_reachable_good. pose proof (inv_base _ _ _ _ HI) as HB.
  pose proof (inv_own _ _ _ _ HI) as Ho. cbn in Ho.
  split_and!; [apply HI|apply HB| |].
  - intros l (st & Hl & Hs)%Ho. by eapply bi_waiting.
  - intros l. rewrite <- Ho. split; [apply (bi_total _ _ HB)|].
    intros [(st & Hl & Hs)|Hin]; [|by apply (bi_past _ _ HB)]. apply (bi_next _ _ HB). by eexists.
Qed.

(** C21: With a poll size of at most 256, the length of the array the completions are
    read into (LIBFABRIC_POLL_SIZE is not checked against it), and as long as the
    fabric reports no error but cancellations ([FabricLaws]): from every reachable state
    every operation returns, or goes on as long as the fabric asks for another try,
    callbacks keep posting, or a cancellation is not reported; nothing is written
    outside the array, no request that is gone is used, no assertion fails, and the
    mutexes are free afterwards. *)
Theorem lf_operations_safe u w :
  reachable u w →
  let safe A (m : M W A) := wp (λ h, h = out_of_fuel) m (λ _ w', unlocked w') w in
  (∀ fuel c ptr size dst tag cb, safe _ (send fuel c ptr size dst tag cb)) ∧
  (∀ fuel c ptr size src tag cb, safe _ (recv fuel c ptr size src tag cb)) ∧
  (∀ fuel c ptr size src tag cb, safe _ (shared_recv fuel c ptr size src tag cb)) ∧
  (∀ fuel c, safe _ (progress fuel c)) ∧
  (∀ fuel, safe _ (ctx_progress fuel)) ∧
  (∀ fuel c s, is_Some (reqs w !! s) → safe _ (cancel_recv fuel c s)) ∧
  (∀ fuel s, is_Some (reqs w !! s) → safe _ (ctx_cancel_recv fuel s)).
Proof.
  intros Hg%lf_reachable_good safe. pose proof Hg as [HI Hu].
  assert (∀ A (m : M W A) (Q : A → W → Prop), wp allowed m Q w →
            (∀ a w', Q a w' → keeps [] [] 0 w w') → safe A m) as Hsafe.
  { intros A m Q Hm HQ. unfold safe, wp in *. destruct (m w) as [[a| |h] w']; [|done|by destruct Hm].
    eapply unlocked_keeps; [by eapply HQ|done]. }
  split_and!.
  - intros. eapply Hsafe; [by apply lf_send_wp|]. by intros ? ? [? _].
  - intros. eapply Hsafe; [by apply lf_recv_wp|]. by intros ? ? [? _].
  - intros. eapply Hsafe; [by apply lf_shared_recv_wp|]. by intros ? ? [? _].
  - intros. eapply Hsafe; [by apply lf_progress_wp|]. auto.
  - intros. eapply Hsafe; [by apply poll_for_work_completions_wp|]. auto.
  - intros. eapply Hsafe; [by apply lf_cancel_recv_wp|]. by intros ? ? [? _].
  - intros. eapply Hsafe; [by apply lf_ctx_cancel_recv_wp|]. by intros ? ? [? _].
Qed.

(** ** Limits of the implementation *)

(** A cancellation that returns true is final: the callback of the receive is
    not called, whatever the program does next. *)
Theorem lf_cancel_final u w fuel c s w1 w2 :
  reachable u w → cancel_recv fuel c s w = (Ret true, w1) → rtc api_step w1 w2 →
  s ∈ canceled w2 ∧ s ∉ invoked w2.
Proof.
  intros Hg%lf_reachable_good E Hr. pose proof (cancel_live _ _ _ _ _ E) as Hs.
  destruct (wp_inv _ _ _ _ _ _ (lf_cancel_recv_wp _ _ _ _ Hg Hs) E) as [K Hin].
  pose proof (good_keeps _ _ _ Hg K) as Hg1. pose proof (steps_keeps _ _ Hg1 Hr) as K2.
  pose proof K2 as (HI2 & HS2 & _). specialize (Hin eq_refl).
  assert (s ∈ canceled w2) as Hc by (destruct (st_canceled _ _ HS2) as [k ->]; set_solver).
  split; [done|]. intros Hi. pose proof (bi_once _ _ (inv_base _ _ _ _ HI2)) as (_ & Hd & _)%NoDup_app.
  by apply (Hd s).
Qed.

(** A receive that has completed and waits for its callback can no longer be
    canceled, but [cancel_recv] does not notice: once [fi_cancel] has accepted
    the request, it polls forever. *)
Theorem lf_cancel_completed_diverges u w fuel c s v :
  reachable u w → s ∈ get_q (RecvQ c) (backend w) →
  fi_cancel s (fabric (backend w)) = (true, v) →
  ∃ w', cancel_recv fuel c s w = (Halt out_of_fuel, w').
Proof.
  intros [HI Hu]%lf_reachable_good Hs E.
  destruct (proj2 (inv_own _ _ _ _ HI s)) as (st & Hl & _); [by eapply in_get_q|].
  unfold LfModel.cancel_recv. rewrite (bnd_ret _ _ _ _ _ (get_req_ok _ _ _ Hl)).
  unfold bnd at 1, fab_call. rewrite E. cbn [negb]. set (w1 := set_backend _ w).
  destruct (cancel_loop_diverges recursion_depth call max_completions_per_poll bypass_rx Hcall Hrd Hmax
              fuel (Some c) (CancelQ c) s [] [] w1) as [w2 E2]; [done| |done| |].
  - apply fabric_inv with []; [done|]. cbn. replace v with (fi_cancel s (fabric (backend w))).2 by by rewrite E.
    unfold in_flight. by rewrite !cancel_posted.
  - right. by exists (RecvQ c).
  - exists w2. unfold bnd. by rewrite E2.
Qed.

(** With a poll size of zero every round of polling asks for another one: no
    call of progress returns. *)
Theorem lf_poll_size_zero_diverges u w fuel c :
  max_completions_per_poll = 0%Z → reachable u w →
  ∃ w', progress fuel c w = (Halt out_of_fuel, w').
Proof.
  intros Hz [HI Hu]%lf_reachable_good.
  assert (∃ w', poll_for_work_completions call recursion_depth max_completions_per_poll bypass_tx bypass_rx
            fuel (Some c) w = (Halt out_of_fuel, w')) as [w' E];
    [|exists w'; unfold LfModel.progress, bnd; by rewrite E].
  revert w HI Hu. induction fuel as [|fuel IH]; intros w HI Hu; cbn; [by eexists|].
  pose proof (poll_send_queue_wp recursion_depth false call max_completions_per_poll bypass_tx Hcall Hrd Hmax
                [] [] (Some c) w HI Hu) as Hp.
  unfold bnd at 1. unfold wp in Hp. destruct (poll_send_queue _ _ _ _ _ _) as [[n| |h] w1]; [|done|].
  2:{ destruct Hp as [_ ->]. by eexists. }
  destruct Hp as (K1 & Hn & _). pose proof (unlocked_keeps _ _ _ _ _ _ _ K1 Hu) as Hu1.
  pose proof (poll_recv_queue_wp recursion_depth false call max_completions_per_poll bypass_rx Hcall Hrd Hmax
                [] [] (Some c) w1 (proj1 K1) Hu1) as Hp2.
  unfold bnd. unfold wp in Hp2. destruct (poll_recv_queue _ _ _ _ _ _) as [[n2| |h] w2]; [|done|].
  2:{ destruct Hp2 as [_ ->]. by eexists. }
  destruct Hp2 as (K2 & _). assert (n = 0%Z) as -> by lia.
  rewrite (bool_decide_true (u32 0 = _)) by by rewrite Hz. cbn [orb].
  apply IH; [apply K2|by eapply unlocked_keeps].
Qed.
End api.

(** ** Progress *)

Section liveness.
Context `{Fabric, !FabricLaws} {CB : Type}.
Abbreviation W := (world CB lf_ext lf_backend).
Implicit Types w : W.
Variable call : CB → Z → Z → M W unit.
Variables recursion_depth max_completions_per_poll : Z.
Variables bypass_tx bypass_rx : bool.

(** C22: With a poll size between 1 and 256 and callbacks that do not post, progress
    returns: the rounds of the communicator and of the context are bounded by
    the number of requests that are in flight or queued. *)
Theorem lf_progress_returns fuel c w :
  (0 ≤ recursion_depth < 2 ^ 64 - 1)%Z →
  (1 ≤ max_completions_per_poll ≤ max_completions_array_limit)%Z →
  (∀ cb, well_behaved recursion_depth true call cb) →
  inv recursion_depth [] [] w → unlocked w → need w ≤ fuel →
  ∃ w1 w2, progress call recursion_depth max_completions_per_poll bypass_tx bypass_rx fuel c w = (Ret tt, w1) ∧
           ctx_progress call recursion_depth max_completions_per_poll bypass_tx bypass_rx fuel w = (Ret tt, w2) ∧
           need w1 ≤ need w ∧ need w2 ≤ need w.
Proof.
  intros Hrd [Hpos Hmax] Hcall HI Hu Hf. assert (∀ h, ¬ allowed true h) as Hno by (by intros h [? _]).
  destruct (wp_returns _ _ _ _ Hno (lf_progress_wp recursion_depth true call max_completions_per_poll bypass_tx
              bypass_rx Hcall Hrd Hmax (λ _, Hpos) fuel c [] [] w HI Hu (λ _, Hf))) as ([] & w1 & E1 & K1).
  pose proof (flying_need w) as Hfl.
  destruct (wp_returns _ _ _ _ Hno (poll_for_work_completions_wp recursion_depth true call max_completions_per_poll
              bypass_tx bypass_rx Hcall Hrd Hmax (λ _, Hpos) fuel [] [] None w HI Hu ltac:(lia)))
    as ([] & w2 & E2 & K2).
  exists w1, w2. split_and!; [done..| |]; by eapply need_keeps.
Qed.
End liveness.
