(* ===== verification/LfExamples.v ===== *)
(** * The libfabric backend on a concrete fabric

    A small fabric that satisfies [FabricLaws], and callbacks that post, on which
    the theorems about the backend are applied: the fabric is busy for a number
    of calls, sends complete in the next poll, receives when [arrived] is set or
    when they are canceled. *)
From S2P Require Import Prelude Tags Request LfModel LfInv LfOps LfPost LfApi.

Record lf_toy : Type := LfToy {
  t_tx : list positive;
  t_rx : list positive;
  t_cancel : list positive;
  arrived : bool;
  busy : nat
}.

(** The calls that post: the fabric may ask to try again. *)
Definition toy_post (u u' : lf_toy) : fi_ret * lf_toy :=
  match busy u with
  | O => (Fi_ok, u')
  | S n => (Fi_again, LfToy (t_tx u) (t_rx u) (t_cancel u) (arrived u) n)
  end.

(** The first canceled receive that is in flight, and the others. *)
Fixpoint toy_find (c l : list positive) : option (positive * list positive) :=
  match l with
  | [] => None
  | x :: l => if decide (x ∈ c) then Some (x, l) else prod_map id (cons x) <$> toy_find c l
  end.

Definition toy_entries (f : Z) (n : Z) (l : list positive) : list cq_entry :=
  CqEntry f <$> take (Z.to_nat n) l.

Definition toy_read (k : cq) (n : Z) (u : lf_toy) : cq_result * lf_toy :=
  match k with
  | Tx => (Cq_entries (toy_entries 2 n (t_tx u)),
           LfToy (drop (Z.to_nat n) (t_tx u)) (t_rx u) (t_cancel u) (arrived u) (busy u))
  | Rx =>
      if arrived u then
        (Cq_entries (toy_entries 4 n (t_rx u)),
         LfToy (t_tx u) (drop (Z.to_nat n) (t_rx u)) (t_cancel u) (arrived u) (busy u))
      else match toy_find (t_cancel u) (t_rx u) with
           | Some _ => (Cq_avail, u)
           | None => (Cq_again, u)
           end
  end.

Definition toy_readerr (k : cq) (u : lf_toy) : cq_err_entry * lf_toy :=
  match k, toy_find (t_cancel u) (t_rx u) with
  | Rx, Some (s, l) =>
      (CqErrEntry FI_ECANCELED (Some s), LfToy (t_tx u) l (t_cancel u) (arrived u) (busy u))
  | _, _ => (CqErrEntry FI_SUCCESS None, u)
  end.

#[export] Instance lf_toy_fabric : Fabric := {|
  fab_st := lf_toy;
  FI_TAGGED := 1; FI_SEND := 2; FI_RECV := 4; FI_MSG := 8;
  fi_tsend _ _ _ _ s u :=
    toy_post u (LfToy (s :: t_tx u) (t_rx u) (t_cancel u) (arrived u) 0);
  fi_tinject _ _ _ _ u := toy_post u u;
  fi_trecv _ _ _ _ s u :=
    toy_post u (LfToy (t_tx u) (s :: t_rx u) (t_cancel u) (arrived u) 0);
  fi_cq_read := toy_read;
  fi_cq_readerr := toy_readerr;
  fi_cancel s u := (true, LfToy (t_tx u) (t_rx u) (s :: t_cancel u) (arrived u) (busy u))
|}.

Definition toy_posted (k : cq) (u : lf_toy) : list positive :=
  match k with Tx => t_tx u | Rx => t_rx u end.

Lemma toy_find_perm c l s r : toy_find c l = Some (s, r) → l ≡ₚ s :: r.
Proof.
  revert r. induction l as [|x l IH]; intros r; cbn; [done|]. case_decide; [by intros [= <- <-]|].
  destruct (toy_find c l) as [[s' r']|]; cbn; [|done]. intros [= -> <-].
  rewrite (IH r' eq_refl). apply perm_swap.
Qed.

Lemma toy_entries_op f n l : op_context <$> toy_entries f n l = take (Z.to_nat n) l.
Proof. unfold toy_entries. rewrite <- list_fmap_compose. cbn. apply list_fmap_id. Qed.

Lemma toy_entries_length f n l : (Z.of_nat (length (toy_entries f n l)) ≤ Z.max n 0)%Z.
Proof. unfold toy_entries. rewrite length_fmap, length_take. lia. Qed.

#[export] Program Instance lf_toy_laws : FabricLaws := {| posted := toy_posted |}.
Next Obligation. intros a n d t s u r u'. cbn. unfold toy_post. destruct (busy u); intros [= <- <-]; naive_solver. Qed.
Next Obligation.
  intros a n d t u r u'. cbn. unfold toy_post. destruct (busy u); intros [= <- <-]; (split; [auto|by intros []]).
Qed.
Next Obligation. intros a n d t s u r u'. cbn. unfold toy_post. destruct (busy u); intros [= <- <-]; naive_solver. Qed.
Next Obligation.
  intros k n u r u'. destruct k; cbn.
  - intros [= <- <-]. rewrite toy_entries_op. cbn. split_and!; [by intros []|by rewrite take_drop|apply toy_entries_length].
  - destruct (arrived u); [|destruct (toy_find _ _)]; intros [= <- <-]; cbn; [|by split_and!..].
    rewrite toy_entries_op. split_and!; [by intros []|by rewrite take_drop|apply toy_entries_length].
Qed.
Next Obligation.
  intros k n u l u' e. destruct k; cbn.
  - intros [= <- <-] (s & -> & _)%list_elem_of_fmap. done.
  - destruct (arrived u); [|by destruct (toy_find _ _)]. intros [= <- <-] (s & -> & _)%list_elem_of_fmap. done.
Qed.
Next Obligation.
  intros n u u1 e u2. cbn. destruct (arrived u); [done|]. destruct (toy_find _ _) as [[s l]|] eqn:E; [|done].
  intros [= <-]. rewrite E. intros [= <- <-]. exists s. split_and!; [done|by apply toy_find_perm in E|done].
Qed.
Next Obligation. by intros [] s u. Qed.

Abbreviation LW := (world nat lf_ext lf_backend).

Lemma lf_depth_ok : (0 ≤ 0 < 2 ^ 64 - 1)%Z.
Proof. lia. Qed.
Lemma lf_poll_range : (1 ≤ 4 ≤ max_completions_array_limit)%Z.
Proof. unfold max_completions_array_limit. lia. Qed.
Lemma lf_poll_ok : (4 ≤ max_completions_array_limit)%Z.
Proof. unfold max_completions_array_limit. lia. Qed.

(** The callback [n] posts a receive with the callback [n - 1]. *)
Fixpoint lf_chain (n : nat) (r t : Z) : M LW unit :=
  match n with
  | O => ret tt
  | S n => recv (λ _, lf_chain n) 0 7 4 true true 5 0 0 64 r t n ;;; ret tt
  end.

Lemma lf_chain_well_behaved n : well_behaved 0 false lf_chain n.
Proof.
  induction n as [|n IH]; intros r t exec pend w HI Hu; cbn [lf_chain].
  { by apply wp_ret, keeps_refl. }
  assert (∀ cb : nat, well_behaved 0 false (λ _, lf_chain n) cb) as Hn by (intros cb; exact IH).
  apply wp_bnd. eapply wp_mono; [by apply (lf_recv_wp 0 7 (λ _, lf_chain n) 4 true true Hn lf_depth_ok lf_poll_ok)|].
  intros o w' [K _]. by apply wp_ret.
Qed.

Definition lf_idle (a : bool) (n : nat) : lf_toy := LfToy [] [] [] a n.
Definition lf_run {A} (m : M LW A) (w : LW) : LW := (m w).2.

(** Two communicators: a send on the first is tried twice and is in flight; a
    receive of the second is in flight; progress of the first completes the send;
    the receive is canceled. *)
Abbreviation xsend := (send lf_chain 0 7 8 4 true true).
Abbreviation xrecv := (recv lf_chain 0 7 4 true true).
Abbreviation xprogress := (progress lf_chain 0 4 true true).
Abbreviation xcancel := (cancel_recv lf_chain 0 4 true).
Definition fa : LW := lf_run (xsend 5 0 0 64 1 2 0) (init (lf_idle false 1)).
Definition fb : LW := lf_run (xrecv 5 1 0 64 1 2 0) fa.
Definition fc : LW := lf_run (xprogress 5 0) fb.
Definition fd : LW := lf_run (xcancel 5 1 2) fc.

Lemma lf_ran {A} (m : M LW A) (w : LW) a : (m w).1 = Ret a → m w = (Ret a, lf_run m w).
Proof. intros <-. apply surjective_pairing. Qed.

Abbreviation xreachable := (reachable lf_chain 0 7 8 4 true true).

Lemma reach_fa : xreachable (lf_idle false 1) fa.
Proof.
  split; [done|]. apply rtc_once, (step_send _ _ _ _ _ _ _ _ 5 0 0 64 1 2 0 (Some 1%positive)).
  apply (lf_ran (xsend 5 0 0 64 1 2 0)). vm_compute. reflexivity.
Qed.

Lemma reach_fb : xreachable (lf_idle false 1) fb.
Proof.
  split; [done|]. eapply rtc_r; [apply reach_fa|].
  apply (step_recv _ _ _ _ _ _ _ fa 5 1 0 64 1 2 0 (Some 2%positive)).
  apply (lf_ran (xrecv 5 1 0 64 1 2 0)). vm_compute. reflexivity.
Qed.

Lemma reach_fc : xreachable (lf_idle false 1) fc.
Proof.
  split; [done|]. eapply rtc_r; [apply reach_fb|].
  apply (step_progress _ _ _ _ _ _ _ fb 5 0), (lf_ran (xprogress 5 0)). vm_compute. reflexivity.
Qed.

Lemma reach_fd : xreachable (lf_idle false 1) fd.
Proof.
  split; [done|]. eapply rtc_r; [apply reach_fc|].
  apply (step_cancel _ _ _ _ _ _ _ fc 5 1 2 true), (lf_ran (xcancel 5 1 2) fc true). vm_compute. reflexivity.
Qed.

(** ** The theorems at these states *)

Lemma lf_callback_exactly_once_witness :
  invoked fd = [1%positive] ∧ canceled fd = [2%positive] ∧
  ∀ l, (l < next fd)%positive ↔ l ∈ places (backend fd) ∨ l ∈ [1%positive; 2%positive].
Proof.
  split; [vm_compute; reflexivity|]. split; [vm_compute; reflexivity|].
  destruct (lf_callback_exactly_once lf_chain 0 7 8 4 true true lf_depth_ok lf_poll_ok
              lf_chain_well_behaved (lf_idle false 1) fd reach_fd) as (_ & _ & _ & Hp).
  exact Hp.
Defined.

Lemma lf_operations_safe_witness :
  wp (λ h, h = out_of_fuel) (xprogress 5 1) (λ _ w', unlocked w') fc ∧
  wp (λ h, h = out_of_fuel) (xcancel 5 1 2) (λ _ w', unlocked w') fc.
Proof.
  destruct (lf_operations_safe lf_chain 0 7 8 4 true true lf_depth_ok lf_poll_ok
              lf_chain_well_behaved (lf_idle false 1) fc reach_fc) as (_ & _ & _ & Hp & _ & Hc & _).
  split; [apply Hp|apply Hc]. exists (RequestState 1 1 2 0 false false true 2 (LfExt 1 Request_state)).
  vm_compute. reflexivity.
Defined.

Lemma lf_cancel_final_witness : 2%positive ∈ canceled fd ∧ 2%positive ∉ invoked fd.
Proof.
  apply (lf_cancel_final lf_chain 0 7 8 4 true true lf_depth_ok lf_poll_ok
           lf_chain_well_behaved (lf_idle false 1) fc 5 1 2 fd fd reach_fc).
  - apply (lf_ran (xcancel 5 1 2) fc true). vm_compute. reflexivity.
  - apply rtc_refl.
Defined.

(** The message has arrived: progress of the first communicator completes the
    receive of the second, whose callback then waits in the second's queue. *)
Definition ga : LW := lf_run (xrecv 5 1 0 64 1 2 0) (init (lf_idle true 0)).
Definition gb : LW := lf_run (xprogress 5 0) ga.

Lemma reach_ga : xreachable (lf_idle true 0) ga.
Proof.
  split; [done|]. apply rtc_once, (step_recv _ _ _ _ _ _ _ _ 5 1 0 64 1 2 0 (Some 1%positive)).
  apply (lf_ran (xrecv 5 1 0 64 1 2 0)). vm_compute. reflexivity.
Qed.

Lemma reach_gb : xreachable (lf_idle true 0) gb.
Proof.
  split; [done|]. eapply rtc_r; [apply reach_ga|].
  apply (step_progress _ _ _ _ _ _ _ ga 5 0), (lf_ran (xprogress 5 0)). vm_compute. reflexivity.
Qed.

Lemma lf_cancel_completed_diverges_witness :
  get_q (RecvQ 1) (backend gb) = [1%positive] ∧ ∃ w', xcancel 100 1 1 gb = (Halt out_of_fuel, w').
Proof.
  assert (get_q (RecvQ 1) (backend gb) = [1%positive]) as E by (vm_compute; reflexivity).
  split; [exact E|].
  apply (lf_cancel_completed_diverges lf_chain 0 7 8 4 true true lf_depth_ok lf_poll_ok
           lf_chain_well_behaved (lf_idle true 0) gb 100 1 1
           (fi_cancel 1 (fabric (backend gb))).2 reach_gb).
  - rewrite E. constructor.
  - reflexivity.
Defined.

Definition g0 : LW := init (lf_idle true 0).

Lemma lf_poll_size_zero_diverges_witness :
  ∃ w', progress lf_chain 0 0 true true 100 0 g0 = (Halt out_of_fuel, w').
Proof.
  assert (0 ≤ max_completions_array_limit)%Z as Hz by (unfold max_completions_array_limit; lia).
  apply (lf_poll_size_zero_diverges lf_chain 0 7 8 0 true true lf_depth_ok Hz
           lf_chain_well_behaved (lf_idle true 0) g0 100 0 eq_refl).
  split; [reflexivity|apply rtc_refl].
Defined.

(** *** Progress with callbacks that do nothing *)

Definition lf_silent (_ : nat) (_ _ : Z) : M LW unit := ret tt.

Lemma lf_silent_well_behaved strict cb : well_behaved 0 strict lf_silent cb.
Proof. intros r t exec pend w HI Hu. by apply wp_ret, keeps_refl. Qed.

Definition ha : LW := lf_run (recv lf_silent 0 7 4 true true 5 1 0 64 1 2 0) (init (lf_idle true 0)).

Lemma good_ha : good 0 ha.
Proof.
  apply (lf_reachable_good lf_silent 0 7 8 4 true true lf_depth_ok lf_poll_ok (lf_silent_well_behaved false) (lf_idle true 0)).
  split; [done|]. apply rtc_once.
  apply (step_recv _ _ _ _ _ _ _ _ 5 1 0 64 1 2 0 (Some 1%positive)).
  apply (lf_ran (recv lf_silent 0 7 4 true true 5 1 0 64 1 2 0)). vm_compute. reflexivity.
Qed.

Lemma lf_progress_returns_witness :
  need ha = 2 ∧ ∃ w', progress lf_silent 0 4 true true 2 1 ha = (Ret tt, w').
Proof.
  split; [vm_compute; reflexivity|].
  destruct (lf_progress_returns lf_silent 0 4 true true 2 1 ha lf_depth_ok lf_poll_range
              (lf_silent_well_behaved true) (proj1 good_ha) (proj2 good_ha)) as (w1 & w2 & E & _).
  - vm_compute. lia.
  - exists w1. exact E.
Defined.
