(* ===== verification/LfEnv.v ===== *)
(** * Configuration of the libfabric backend

    The functions of src/src/libfabric/controller_base.hpp that read the
    environment (progress mode, endpoint type, poll size, rendezvous threshold)
    and [context_impl::get_transport_option] of src/src/libfabric/context.cpp that
    reports them.  [std::atoi] and [std::strtoul] with base 0 are modelled on
    strings; a value of [atoi] that does not fit an [int] is undefined behaviour
    in C++ and is left unbounded here. *)
From stdpp Require Import pretty.
From Stdlib Require Import Ascii.
From S2P Require Import Prelude.

(** ** Numbers in strings *)

Definition is_space (a : ascii) : bool :=
  let n := nat_of_ascii a in (n =? 32) || ((9 <=? n) && (n <=? 13)).

(** The value of a digit: 0-9, then letters of either case. *)
Definition digit_value (a : ascii) : option Z :=
  let n := Z.of_nat (nat_of_ascii a) in
  if (48 <=? n)%Z && (n <=? 57)%Z then Some (n - 48)%Z
  else if (97 <=? n)%Z && (n <=? 122)%Z then Some (n - 87)%Z
  else if (65 <=? n)%Z && (n <=? 90)%Z then Some (n - 55)%Z
  else None.

Definition digit (base : Z) (a : ascii) : option Z :=
  match digit_value a with Some d => if (d <? base)%Z then Some d else None | None => None end.

(** Digits are read as long as there are any. *)
Fixpoint read_digits (base acc : Z) (s : string) : Z :=
  match s with
  | EmptyString => acc
  | String a s =>
      match digit base a with
      | Some d => read_digits base (acc * base + d) s
      | None => acc
      end
  end.

Fixpoint skip_space (s : string) : string :=
  match s with
  | String a s' => if is_space a then skip_space s' else s
  | EmptyString => s
  end.

(** An optional sign. *)
Definition read_sign (s : string) : bool * string :=
  match s with
  | String "-" s => (true, s)
  | String "+" s => (false, s)
  | _ => (false, s)
  end.

Definition atoi (s : string) : Z :=
  let '(neg, s) := read_sign (skip_space s) in
  let n := read_digits 10 0 s in
  if neg : bool then (- n)%Z else n.

(** The prefix that selects the base: [0x] before a hexadecimal digit, or [0]. *)
Definition read_base (s : string) : Z * string :=
  match s with
  | String "0" (String "x" (String a _ as s')) | String "0" (String "X" (String a _ as s')) =>
      match digit 16 a with Some _ => (16%Z, s') | None => (8%Z, s) end
  | String "0" _ => (8%Z, s)
  | _ => (10%Z, s)
  end.

(** [ULONG_MAX] if the value is too large; a negative value is negated as an
    [unsigned long]. *)
Definition strtoul (s : string) : Z :=
  let '(neg, s) := read_sign (skip_space s) in
  let '(base, s) := read_base s in
  let n := read_digits base 0 s in
  if (2 ^ 64 <=? n)%Z then (2 ^ 64 - 1)%Z
  else if neg : bool then u64 (- n) else n.

(** Conversion to [int]: the low 32 bits as a signed number. *)
Definition to_int (z : Z) : Z := ((z + 2 ^ 31) mod 2 ^ 32 - 2 ^ 31)%Z.

(** ** The settings *)

Section settings.
(** [std::getenv] *)
Variable getenv : string → option string.

Inductive fi_progress : Type := FI_PROGRESS_AUTO | FI_PROGRESS_MANUAL.

Definition libfabric_progress_type : fi_progress :=
  match getenv "LIBFABRIC_AUTO_PROGRESS" with
  | None => FI_PROGRESS_MANUAL
  | Some _ => FI_PROGRESS_AUTO
  end.

Definition libfabric_progress_string : string :=
  match libfabric_progress_type with
  | FI_PROGRESS_AUTO => "auto"
  | FI_PROGRESS_MANUAL => "manual"
  end.

Inductive endpoint_type : Type := single | multiple | threadlocalTx | scalableTx | scalableTxRx.

#[export] Instance endpoint_type_eq_dec : EqDecision endpoint_type.
Proof. solve_decision. Defined.

(** [int(t)] *)
Definition endpoint_type_int (t : endpoint_type) : Z :=
  match t with
  | single => 0
  | multiple => 1
  | threadlocalTx => 2
  | scalableTx => 3
  | scalableTxRx => 4
  end.

(** The value of the variable [LIBFABRIC_ENDPOINT_TYPE]. *)
Definition endpoint_type_of (env_str : option string) : endpoint_type :=
  match env_str with
  | None => single
  | Some s =>
      let sel (name : string) (t : endpoint_type) :=
        bool_decide (s = name) || (atoi s =? endpoint_type_int t)%Z in
      if sel "multiple" multiple then multiple
      else if sel "threadlocal" threadlocalTx then threadlocalTx
      else if sel "scalableTx" scalableTx then scalableTx
      else if sel "scalableTxRx" scalableTxRx then scalableTxRx
      else single
  end.

Definition libfabric_endpoint_type : endpoint_type :=
  endpoint_type_of (getenv "LIBFABRIC_ENDPOINT_TYPE").

Definition endpoint_type_string (t : endpoint_type) : string :=
  match t with
  | multiple => "multiple"
  | threadlocalTx => "threadlocal"
  | scalableTx => "scalableTx"
  | scalableTxRx => "scalableTxRx"
  | single => "single"
  end.

Definition libfabric_endpoint_string : string := endpoint_type_string libfabric_endpoint_type.

Definition libfabric_completions_per_poll : Z :=
  match getenv "LIBFABRIC_POLL_SIZE" with
  | Some s => atoi s
  | None => 4
  end.

(** The result is an [int], which [initialize] stores in a [uint32_t]. *)
Definition libfabric_rendezvous_threshold (def_val : Z) : Z :=
  match getenv "LIBFABRIC_RENDEZVOUS_THRESHOLD" with
  | Some s => to_int (strtoul s)
  | None => to_int def_val
  end.

(** The members [initialize] sets from the environment. *)
Definition max_completions_per_poll : Z := u32 libfabric_completions_per_poll.
Definition msg_rendezvous_threshold (threads : Z) : Z :=
  u32 (libfabric_rendezvous_threshold (if (threads =? 1)%Z then 0x400 else 0x4000)).

(** [std::to_string] of a [uint32_t] *)
Definition to_string (z : Z) : string := pretty (Z.to_N z).

(** The buffer has room for the at most ten digits of a [uint32_t]. *)
Definition get_transport_option (threads : Z) (opt : string) : string :=
  if bool_decide (opt = "name") then "libfabric"
  else if bool_decide (opt = "progress") then libfabric_progress_string
  else if bool_decide (opt = "endpoint") then libfabric_endpoint_string
  else if bool_decide (opt = "rendezvous_threshold") then to_string (msg_rendezvous_threshold threads)
  else "unspecified".
End settings.

(** ** Reading back what is printed *)

Lemma digit_pretty x : (x < 10)%N → digit 10 (pretty_N_char x) = Some (Z.of_N x).
Proof.
  intros Hx. assert (x = 0 ∨ x = 1 ∨ x = 2 ∨ x = 3 ∨ x = 4 ∨ x = 5 ∨ x = 6 ∨ x = 7 ∨ x = 8 ∨ x = 9)%N
    as Hc by lia. by repeat destruct Hc as [->|Hc]; [..|subst].
Qed.

Lemma read_digits_pretty x s : read_digits 10 0 (pretty_N_go x s) = read_digits 10 (Z.of_N x) s.
Proof.
  revert s. induction (N.lt_wf_0 x) as [x _ IH]; intros s.
  assert (x = 0 ∨ 0 < x)%N as [->|Hx] by lia; [done|].
  rewrite pretty_N_go_step by done. rewrite IH by by apply N.div_lt. cbn [read_digits].
  rewrite digit_pretty by (by apply N.mod_lt). f_equal.
  rewrite N2Z.inj_div, N2Z.inj_mod. pose proof (Z.div_mod (Z.of_N x) 10). lia.
Qed.

(** The first character of a printed positive number is a non-zero digit. *)
Lemma pretty_head x s :
  (0 < x)%N → ∃ a s', pretty_N_go x s = String a s' ∧ ∃ d, (0 < d < 10)%N ∧ a = pretty_N_char d.
Proof.
  revert s. induction (N.lt_wf_0 x) as [x _ IH]; intros s Hx. rewrite pretty_N_go_step by done.
  destruct (N.eq_0_gt_0_cases (x `div` 10)) as [E|Hd]; [|by apply IH; [apply N.div_lt|]].
  rewrite E, pretty_N_go_0. eexists _, _. split; [done|]. exists (x mod 10)%N. split; [|done].
  pose proof (N.div_mod x 10). pose proof (N.mod_lt x 10). lia.
Qed.

(** A leading digit is neither space nor sign; a non-zero one selects base 10. *)
Lemma plain_number d s :
  (0 < d < 10)%N →
  skip_space (String (pretty_N_char d) s) = String (pretty_N_char d) s ∧
  read_sign (String (pretty_N_char d) s) = (false, String (pretty_N_char d) s) ∧
  read_base (String (pretty_N_char d) s) = (10%Z, String (pretty_N_char d) s).
Proof.
  intros Hd. assert (d = 1 ∨ d = 2 ∨ d = 3 ∨ d = 4 ∨ d = 5 ∨ d = 6 ∨ d = 7 ∨ d = 8 ∨ d = 9)%N
    as Hc by lia. by repeat destruct Hc as [->|Hc]; [..|subst].
Qed.

Lemma atoi_pretty n : atoi (pretty n) = Z.of_N n.
Proof.
  unfold pretty, pretty_N. case_decide as E; [by subst|].
  destruct (pretty_head n "") as (a & s & Es & d & Hd & ->); [lia|].
  pose proof (read_digits_pretty n "") as Hr. rewrite Es in *.
  destruct (plain_number d s Hd) as (E1 & E2 & _). unfold atoi. by rewrite E1, E2, Hr.
Qed.

Lemma strtoul_pretty n : (n < 2 ^ 64)%N → strtoul (pretty n) = Z.of_N n.
Proof.
  intros Hn. unfold pretty, pretty_N. case_decide as E; [by subst|].
  destruct (pretty_head n "") as (a & s & Es & d & Hd & ->); [lia|].
  pose proof (read_digits_pretty n "") as Hr. rewrite Es in *.
  destruct (plain_number d s Hd) as (E1 & E2 & E3). unfold strtoul. rewrite E1, E2, E3, Hr. cbn [read_digits].
  destruct (Z.leb_spec (2 ^ 64) (Z.of_N n)); [lia|done].
Qed.

Lemma u32_to_int z : u32 (to_int z) = u32 z.
Proof.
  unfold u32, to_int. rewrite Zminus_mod_idemp_l. f_equal. lia.
Qed.

(** What [get_transport_option] reports of the endpoint type and of the rendezvous
    threshold, written back to the environment, selects the same endpoint type
    and the same threshold; the number of an endpoint type selects it too. *)
Theorem transport_options_roundtrip (env env' : string → option string) threads :
  env' "LIBFABRIC_ENDPOINT_TYPE" = Some (get_transport_option env threads "endpoint") →
  env' "LIBFABRIC_RENDEZVOUS_THRESHOLD" = Some (get_transport_option env threads "rendezvous_threshold") →
  libfabric_endpoint_type env' = libfabric_endpoint_type env ∧
  (∀ t, endpoint_type_of (Some (to_string (endpoint_type_int t))) = t) ∧
  ∀ threads', msg_rendezvous_threshold env' threads' = msg_rendezvous_threshold env threads.
Proof.
  intros E1 E2. split_and!.
  - unfold libfabric_endpoint_type at 1. rewrite E1.
    change (get_transport_option _ _ _) with (endpoint_type_string (libfabric_endpoint_type env)).
    by destruct (libfabric_endpoint_type env).
  - by intros [].
  - intros threads'. unfold msg_rendezvous_threshold at 1, libfabric_rendezvous_threshold. rewrite E2.
    change (get_transport_option _ _ _) with (to_string (msg_rendezvous_threshold env threads)).
    set (t := msg_rendezvous_threshold env threads).
    assert (0 ≤ t < 2 ^ 32)%Z as Ht by (apply Z.mod_pos_bound; lia).
    unfold to_string. rewrite strtoul_pretty by lia. rewrite u32_to_int, Z2N.id by lia. by apply u32_small.
Qed.

Lemma transport_options_roundtrip_witness :
  let env v := if bool_decide (v = "LIBFABRIC_ENDPOINT_TYPE") then Some "scalableTx"
               else if bool_decide (v = "LIBFABRIC_RENDEZVOUS_THRESHOLD") then Some "0x2000" else None in
  let env' v := if bool_decide (v = "LIBFABRIC_ENDPOINT_TYPE") then Some "scalableTx"
                else if bool_decide (v = "LIBFABRIC_RENDEZVOUS_THRESHOLD") then Some "8192" else None in
  msg_rendezvous_threshold env' 4 = 8192%Z ∧ msg_rendezvous_threshold env 1 = 8192%Z.
Proof.
  intros env env'.
  assert (msg_rendezvous_threshold env 1 = 8192%Z) as E by (vm_compute; reflexivity).
  destruct (transport_options_roundtrip env env' 1) as (_ & _ & Ht).
  - vm_compute. reflexivity.
  - vm_compute. reflexivity.
  - rewrite Ht. split; exact E.
Defined.

(** A poll size that is not a number is zero. *)
Example poll_size_not_a_number :
  max_completions_per_poll (λ _, Some "four") = 0%Z ∧ max_completions_per_poll (λ _, None) = 4%Z ∧
  max_completions_per_poll (λ _, Some " 16") = 16%Z.
Proof. by vm_compute. Qed.
