(* ===== verification/LfConfig.v ===== *)
(** * Build-time configuration of the libfabric backend

    What the provider selected at build time and the device support decide in
    src/src/libfabric/controller.hpp and controller_base.hpp: capabilities, memory
    registration, threading level, the hints of [open_fabric] and the flags it
    derives from them, the attributes of the address vector, and which locks the
    polling functions take.  The numeric values of libfabric's flags are
    parameters. *)
From S2P Require Import Prelude LfEnv.

(** ** The build *)

(** [HAVE_LIBFABRIC_GNI], ...; any other provider defines none of the macros the
    sources test. *)
Inductive provider : Type := Gni | Sockets | Tcp | Verbs | Cxi | Efa | Other_provider.
#[export] Instance provider_eq_dec : EqDecision provider.
Proof. solve_decision. Defined.

(** [OOMPH_ENABLE_DEVICE] *)
Record build : Type := Build { prov : provider; enable_device : bool }.

(** ** Flags *)

Inductive mr_flag : Type :=
| FI_MR_LOCAL | FI_MR_VIRT_ADDR | FI_MR_ALLOCATED | FI_MR_PROV_KEY | FI_MR_MMU_NOTIFY
| FI_MR_ENDPOINT | FI_MR_HMEM.
Inductive cap_flag : Type :=
| FI_HMEM | FI_MSG | FI_TAGGED | FI_RMA | FI_READ | FI_WRITE | FI_RECV | FI_SEND | FI_TRANSMIT
| FI_REMOTE_READ | FI_REMOTE_WRITE.

(** Different registration modes are different bits. *)
Class FiFlags : Type := {
  mr : mr_flag → Z;
  cap : cap_flag → Z;
  FI_CONTEXT : Z;
  mr_nonzero f : mr f ≠ 0%Z;
  mr_disjoint f g : f ≠ g → Z.land (mr f) (mr g) = 0%Z
}.

Inductive fi_threading : Type := FI_THREAD_SAFE | FI_THREAD_ENDPOINT | FI_THREAD_DOMAIN.
#[export] Instance fi_threading_eq_dec : EqDecision fi_threading.
Proof. solve_decision. Defined.
Inductive addr_format : Type := FI_FORMAT_UNSPEC | FI_SOCKADDR_IN | FI_ADDR_EFA.

(** The fields of the hints that [open_fabric] sets. *)
Record fabric_hints : Type := FabricHints {
  h_addr_format : addr_format;
  h_caps : Z;
  h_mode : Z;
  h_prov_name : string;
  h_mr_mode : Z;
  h_control_progress : fi_progress;
  h_data_progress : fi_progress;
  h_threading : fi_threading
}.

Section config.
Context `{FiFlags}.
Variable b : build.

Definition threadlevel_flags : fi_threading :=
  match prov b with Gni => FI_THREAD_ENDPOINT | _ => FI_THREAD_SAFE end.

Definition caps_flags : Z :=
  let hmem_flags := if enable_device b && negb (bool_decide (prov b = Tcp)) then cap FI_HMEM else 0%Z in
  fold_left Z.lor
    (cap <$> [FI_MSG; FI_TAGGED; FI_RMA; FI_READ; FI_WRITE; FI_RECV; FI_SEND; FI_TRANSMIT;
              FI_REMOTE_READ; FI_REMOTE_WRITE]) hmem_flags.

Definition memory_registration_mode_flags : Z :=
  let base_flags := Z.lor (Z.lor (mr FI_MR_VIRT_ADDR) (mr FI_MR_ALLOCATED)) (mr FI_MR_PROV_KEY) in
  let base_flags := if enable_device b then Z.lor base_flags (mr FI_MR_HMEM) else base_flags in
  let base_flags := Z.lor base_flags (mr FI_MR_LOCAL) in
  match prov b with
  | Cxi | Efa => Z.lor (Z.lor base_flags (mr FI_MR_MMU_NOTIFY)) (mr FI_MR_ENDPOINT)
  | _ => base_flags
  end.

Definition hint_addr_format : addr_format :=
  match prov b with
  | Sockets | Tcp | Verbs => FI_SOCKADDR_IN
  | Efa => FI_ADDR_EFA
  | _ => FI_FORMAT_UNSPEC
  end.

Definition hint_prov_name (provider : string) : string :=
  if bool_decide (provider = "tcp") then provider +:+ ";ofi_rxm"
  else if bool_decide (provider = "verbs") then provider +:+ ";ofi_rxm"
  else provider.

Definition hints (getenv : string → option string) (provider : string) (threads : Z) : fabric_hints :=
  let progress := libfabric_progress_type getenv in
  FabricHints hint_addr_format caps_flags FI_CONTEXT (hint_prov_name provider)
    memory_registration_mode_flags progress progress
    (if (1 <? threads)%Z then threadlevel_flags else FI_THREAD_DOMAIN).

(** The members [mrlocal], [mrbind] and [mrhmem], computed from the hints. *)
Definition mr_requires (f : mr_flag) (h : fabric_hints) : bool :=
  negb (bool_decide (Z.land (h_mr_mode h) (mr f) = 0%Z)).
Definition mrlocal (h : fabric_hints) : bool := mr_requires FI_MR_LOCAL h.
Definition mrbind (h : fabric_hints) : bool := mr_requires FI_MR_ENDPOINT h.
Definition mrhmem (h : fabric_hints) : bool := mr_requires FI_MR_HMEM h.

(** Whether [initialize] binds a Tx queue to the receive endpoint of a provider. *)
Definition needs_dummy_cq : bool :=
  match prov b with Sockets | Tcp | Verbs | Cxi | Efa => true | Gni | Other_provider => false end.

Definition bypass_tx_lock (t : endpoint_type) : bool :=
  match prov b with
  | Gni => true
  | Cxi => false
  | _ => bool_decide (threadlevel_flags = FI_THREAD_SAFE) || bool_decide (t = threadlocalTx)
  end.

Definition bypass_rx_lock (t : endpoint_type) : bool :=
  match prov b with
  | Gni => true
  | _ => bool_decide (threadlevel_flags = FI_THREAD_SAFE) || bool_decide (t = scalableTxRx)
  end.
End config.

(** ** The address vector *)

Inductive av_type : Type := FI_AV_UNSPEC | FI_AV_MAP | FI_AV_TABLE.
Record av_attr : Type := AvAttr { av_count : Z; rx_ctx_bits : Z; ep_per_node : Z; av_type_ : av_type }.

(** [create_address_vector] without [RX_CONTEXTS_SUPPORT]. *)
Definition address_vector_attr (domain_av_type : av_type) (N num_rx_contexts : Z) : av_attr :=
  AvAttr N 0 (if (0 <? num_rx_contexts)%Z then 2 else 0)
    (match domain_av_type with FI_AV_UNSPEC => FI_AV_TABLE | t => t end).

(** ** What a build does *)

Section facts.
Context `{FiFlags}.

(** The bit of a flag in a union of flags. *)
Lemma land_mr_lor z f g :
  (Z.land (Z.lor z (mr g)) (mr f) = 0 ↔ Z.land z (mr f) = 0 ∧ f ≠ g)%Z.
Proof.
  rewrite Z.land_lor_distr_l, Z.lor_eq_0_iff. split; intros [Hz Hg]; (split; [done|]).
  - intros ->. rewrite Z.land_diag in Hg. by apply (mr_nonzero g).
  - by apply mr_disjoint.
Qed.

Lemma land_mr f g : (Z.land (mr g) (mr f) = 0 ↔ f ≠ g)%Z.
Proof. rewrite <- (Z.lor_0_l (mr g)), land_mr_lor, Z.land_0_l. tauto. Qed.

Lemma mr_mode_requires b getenv provider threads f :
  mr_requires f (hints b getenv provider threads) = true ↔
  f = FI_MR_VIRT_ADDR ∨ f = FI_MR_ALLOCATED ∨ f = FI_MR_PROV_KEY ∨ f = FI_MR_LOCAL ∨
  (f = FI_MR_HMEM ∧ enable_device b = true) ∨
  ((f = FI_MR_MMU_NOTIFY ∨ f = FI_MR_ENDPOINT) ∧ (prov b = Cxi ∨ prov b = Efa)).
Proof.
  unfold mr_requires. rewrite negb_true_iff, bool_decide_eq_false. cbn. unfold memory_registration_mode_flags.
  destruct (enable_device b), (prov b); rewrite ?land_mr_lor, ?land_mr; destruct f; naive_solver.
Qed.

(** Memory regions are bound to the receive endpoint exactly in builds for the
    CXI and EFA providers, and registered for devices exactly in builds with
    device support; local access always needs registration.  No build takes the
    lock of the receive queue, and only builds for CXI take that of the send
    queue, whatever the endpoint type. *)
Theorem lf_build_modes b getenv provider threads t :
  let h := hints b getenv provider threads in
  (mrbind h = true ↔ prov b = Cxi ∨ prov b = Efa) ∧
  mrhmem h = enable_device b ∧
  mrlocal h = true ∧
  bypass_rx_lock b t = true ∧
  (bypass_tx_lock b t = false ↔ prov b = Cxi).
Proof.
  cbn zeta. split_and!.
  - unfold mrbind. rewrite mr_mode_requires. naive_solver.
  - apply eq_true_iff_eq. unfold mrhmem. rewrite mr_mode_requires. naive_solver.
  - unfold mrlocal. rewrite mr_mode_requires. auto.
  - unfold bypass_rx_lock, threadlevel_flags. by destruct (prov b).
  - unfold bypass_tx_lock, threadlevel_flags. by destruct (prov b).
Qed.
End facts.

(** ** An assignment of bits *)

#[local] Instance some_flags : FiFlags.
Proof.
  refine {|
    mr f := match f with
      | FI_MR_LOCAL => 4 | FI_MR_VIRT_ADDR => 16 | FI_MR_ALLOCATED => 32 | FI_MR_PROV_KEY => 64
      | FI_MR_MMU_NOTIFY => 128 | FI_MR_ENDPOINT => 512 | FI_MR_HMEM => 1024 end%Z;
    cap f := match f with
      | FI_MSG => 2 | FI_RMA => 4 | FI_TAGGED => 8 | FI_READ => 256 | FI_WRITE => 512 | FI_RECV => 1024
      | FI_SEND => 2048 | FI_REMOTE_READ => 4096 | FI_REMOTE_WRITE => 8192 | FI_TRANSMIT => 2048
      | FI_HMEM => 2 ^ 47 end%Z;
    FI_CONTEXT := (2 ^ 59)%Z |}.
  - by intros [].
  - by intros [] [].
Defined.

Lemma lf_build_modes_witness :
  mrbind (hints (Build Cxi true) (λ _, None) "cxi" 4) = true ∧ bypass_tx_lock (Build Cxi true) single = false.
Proof.
  destruct (lf_build_modes (Build Cxi true) (λ _, None) "cxi" 4 single) as ([_ Hb] & _ & _ & _ & [_ Ht]).
  split; [apply Hb; by left|by apply Ht].
Defined.
