(* ===== verification/LfController.v ===== *)
(** * The libfabric controller: fabric objects and endpoints

    Model of the resource management of src/src/libfabric/controller_base.hpp and
    controller.hpp: the wrappers of endpoints, [initialize] and the destructor,
    the endpoints that threads obtain, and the exchange of addresses.  The
    provider (libfabric) is a parameter; a failed call raises a [fabric_error],
    whose constructor terminates the program.  The block for the GNI provider,
    the debug output and [controller_mutex_] (which no function holds while it
    calls another one that takes it) are left out. *)
From S2P Require Import Prelude LfEnv.

(** ** The provider *)

(** [fi_close]: success, [-FI_EBUSY], another error. *)
Inductive close_ret : Type := Close_ok | Close_busy | Close_error.

(** Calls that create an object yield none if they fail; objects are named by
    handles. *)
Class Provider : Type := {
  prov_st : Type;
  fi_allocinfo : prov_st → option positive * prov_st;
  fi_getinfo : positive → prov_st → option positive * prov_st;
  fi_dupinfo : positive → prov_st → option positive * prov_st;
  fi_freeinfo : positive → prov_st → prov_st;
  fi_fabric : positive → prov_st → option positive * prov_st;
  fi_domain : positive → positive → prov_st → option positive * prov_st;
  fi_av_open : positive → prov_st → option positive * prov_st;
  fi_cq_open : positive → Z → prov_st → option positive * prov_st;
  fi_endpoint : positive → positive → prov_st → option positive * prov_st;
  fi_scalable_ep : positive → positive → nat → prov_st → option positive * prov_st;
  fi_tx_context : positive → nat → prov_st → option positive * prov_st;
  fi_ep_bind : positive → positive → prov_st → bool * prov_st;
  fi_enable : positive → prov_st → bool * prov_st;
  fi_close : positive → prov_st → close_ret * prov_st;
  fi_getname : positive → prov_st → (bool * list Z) * prov_st;
  fi_av_insert : positive → list Z → prov_st → (Z * Z) * prov_st;
  fi_av_lookup : positive → Z → prov_st → (bool * Z) * prov_st;
  tx_ctx_cnt : positive → prov_st → nat;
  inject_size : positive → prov_st → Z;
  tx_attr_size : positive → prov_st → Z;
  rx_attr_size : positive → prov_st → Z
}.

(** ** State *)

(** Null pointers are [None]. *)
Record endpoint_wrapper : Type := EndpointWrapper {
  ep_ : option positive;
  rq_ : option positive;
  tq_ : option positive;
  name_ : string
}.
Definition no_endpoint : endpoint_wrapper := EndpointWrapper None None None "".

(** [pool_]: whether the endpoint goes back to a pool at the end of the thread. *)
Record stack_endpoint : Type := StackEndpoint { endpoint_ : endpoint_wrapper; pool_ : bool }.
Definition no_stack_endpoint : stack_endpoint := StackEndpoint no_endpoint false.

(** The thread-local endpoints of a thread. *)
Record thread_endpoints : Type := ThreadEndpoints {
  tl_tx_ : stack_endpoint;
  tl_stx_ : stack_endpoint;
  tl_srx_ : stack_endpoint
}.
Definition no_thread_endpoints : thread_endpoints :=
  ThreadEndpoints no_stack_endpoint no_stack_endpoint no_stack_endpoint.

(** [fabric_info_], [fabric_], [fabric_domain_], [av_] *)
Record fids : Type := Fids {
  fabric_info_ : option positive;
  fabric_ : option positive;
  fabric_domain_ : option positive;
  av_ : option positive
}.

(** [eps_] holds [ep_tx_] and [ep_rx_]. *)
Record controller `{Provider} : Type := Controller {
  prov : prov_st;
  base : fids;
  eps_ : option (endpoint_wrapper * endpoint_wrapper);
  tx_endpoints_ : list endpoint_wrapper;
  rx_endpoints_ : list endpoint_wrapper;
  threads_ : gmap nat thread_endpoints;
  endpoint_type_ : endpoint_type;
  here_ : list Z;
  tx_inject_size_ : Z;
  tx_attr_size_ : Z;
  rx_attr_size_ : Z
}.

Section controller.
Context `{Provider}.
Abbreviation C := controller.
Implicit Types k : C.

(** *** Field updates *)

Definition set_prov (u : prov_st) k : C :=
  Controller _ u (base k) (eps_ k) (tx_endpoints_ k) (rx_endpoints_ k) (threads_ k) (endpoint_type_ k)
    (here_ k) (tx_inject_size_ k) (tx_attr_size_ k) (rx_attr_size_ k).
Definition set_base (b : fids) k : C :=
  Controller _ (prov k) b (eps_ k) (tx_endpoints_ k) (rx_endpoints_ k) (threads_ k) (endpoint_type_ k)
    (here_ k) (tx_inject_size_ k) (tx_attr_size_ k) (rx_attr_size_ k).
Definition set_eps (e : option (endpoint_wrapper * endpoint_wrapper)) k : C :=
  Controller _ (prov k) (base k) e (tx_endpoints_ k) (rx_endpoints_ k) (threads_ k) (endpoint_type_ k)
    (here_ k) (tx_inject_size_ k) (tx_attr_size_ k) (rx_attr_size_ k).
Definition set_pools (tx rx : list endpoint_wrapper) k : C :=
  Controller _ (prov k) (base k) (eps_ k) tx rx (threads_ k) (endpoint_type_ k)
    (here_ k) (tx_inject_size_ k) (tx_attr_size_ k) (rx_attr_size_ k).
Definition set_thread (t : nat) (e : thread_endpoints) k : C :=
  Controller _ (prov k) (base k) (eps_ k) (tx_endpoints_ k) (rx_endpoints_ k) (<[t := e]> (threads_ k))
    (endpoint_type_ k) (here_ k) (tx_inject_size_ k) (tx_attr_size_ k) (rx_attr_size_ k).
Definition set_config (e : endpoint_type) (h : list Z) (i t r : Z) k : C :=
  Controller _ (prov k) (base k) (eps_ k) (tx_endpoints_ k) (rx_endpoints_ k) (threads_ k) e h i t r.

Definition thread (t : nat) k : thread_endpoints := default no_thread_endpoints (threads_ k !! t).

(** *** Calls of the provider *)

Definition prov_call {A} (f : prov_st → A * prov_st) : M C A := λ k,
  let '(a, u) := f (prov k) in (Ret a, set_prov u k).
(** A null object, or an error, is reported by a [fabric_error]. *)
Definition create (f : prov_st → option positive * prov_st) : M C positive :=
  let! r := prov_call f in
  match r with Some h => ret h | None => stop terminated end.
(** [if (ret) throw fabric_error(...)], also [finvoke] *)
Definition checked (f : prov_st → bool * prov_st) : M C unit :=
  let! ok := prov_call f in if ok : bool then ret tt else stop terminated.
(** Access through a pointer. *)
Definition deref (p : option positive) : M C positive :=
  match p with Some h => ret h | None => stop undefined_behaviour end.
Definition freeinfo (h : positive) : M C unit := prov_call (λ u, (tt, fi_freeinfo h u)).

(** ** Handles *)

Definition fidclose (h : positive) : M C unit :=
  let! r := prov_call (fi_close h) in
  match r with Close_ok => ret tt | _ => stop terminated end.

Definition close_if (p : option positive) : M C unit :=
  match p with Some h => fidclose h | None => ret tt end.

Definition cleanup (w : endpoint_wrapper) : M C unit :=
  close_if (ep_ w) ;;; close_if (rq_ w) ;;; close_if (tq_ w).

(** The destructor of a [stack_endpoint]: its endpoint goes back to the pool. *)
Definition push_tx (e : stack_endpoint) : M C unit :=
  if pool_ e then modify (λ k, set_pools (tx_endpoints_ k ++ [endpoint_ e]) (rx_endpoints_ k) k) else ret tt.
Definition push_rx (e : stack_endpoint) : M C unit :=
  if pool_ e then modify (λ k, set_pools (tx_endpoints_ k) (rx_endpoints_ k ++ [endpoint_ e]) k) else ret tt.

(** The end of a thread destroys its endpoints. *)
Definition thread_exit (t : nat) : M C unit :=
  let! k := get in
  modify (set_thread t no_thread_endpoints) ;;;
  push_rx (tl_srx_ (thread t k)) ;;;
  push_tx (tl_stx_ (thread t k)) ;;;
  push_tx (tl_tx_ (thread t k)).

(** ** Endpoints and queues *)

Definition bind_address_vector_to_endpoint (ep av : positive) : M C unit := checked (fi_ep_bind ep av).
Definition bind_queue_to_endpoint (ep cq : positive) : M C unit := checked (fi_ep_bind ep cq).
Definition create_completion_queue (domain : positive) (size : Z) : M C positive :=
  create (fi_cq_open domain size).
Definition enable_endpoint (ep : option positive) : M C unit :=
  let! h := deref ep in checked (fi_enable h).

(** [set_src_dst_addresses]: a copy of the info, without destination. *)
Definition set_src_dst_addresses (info : positive) : M C positive := create (fi_dupinfo info).

Definition new_endpoint_active (domain info : positive) : M C positive :=
  let! hints := set_src_dst_addresses info in
  let! ep := create (fi_endpoint domain hints) in
  freeinfo hints ;;;
  ret ep.

(** The number of contexts is the smaller of what the provider supports and the
    number of threads.  Of the two infos only [hints] is freed. *)
Definition new_endpoint_scalable (domain info : positive) (threads : nat) : M C (positive * nat) :=
  let! hints := create (fi_dupinfo info) in
  let! new_hints := create (fi_getinfo hints) in
  let! k := get in
  let context_count := Nat.min (tx_ctx_cnt new_hints (prov k)) threads in
  let! ep := create (fi_scalable_ep domain new_hints context_count) in
  freeinfo hints ;;;
  ret (ep, context_count).

Definition create_rx_endpoint (domain info av : positive) : M C endpoint_wrapper :=
  let! ep_rx := new_endpoint_active domain info in
  bind_address_vector_to_endpoint ep_rx av ;;;
  let! k := get in
  let! rx_cq := create_completion_queue domain (rx_attr_size info (prov k)) in
  bind_queue_to_endpoint ep_rx rx_cq ;;;
  ret (EndpointWrapper (Some ep_rx) (Some rx_cq) None "rx").

Definition bind_tx_queue_to_rx_endpoint (domain info : positive) (ep : option positive) : M C positive :=
  let! k := get in
  let! tx_cq := create_completion_queue domain (tx_attr_size info (prov k)) in
  let! h := deref ep in
  bind_queue_to_endpoint h tx_cq ;;;
  ret tx_cq.

Definition set_tx_cq (cq : positive) (w : endpoint_wrapper) : endpoint_wrapper :=
  EndpointWrapper (ep_ w) (rq_ w) (Some cq) (name_ w).

(** A Tx endpoint with its completion queue; [tl] distinguishes the order of
    creation for a thread from the one in [initialize]. *)
Definition create_tx_endpoint (domain info av : positive) (tl : bool) (name : string) :
    M C endpoint_wrapper :=
  let! k := get in
  let size := tx_attr_size info (prov k) in
  let! p := (if tl then
               let! tx_cq := create_completion_queue domain size in
               let! ep_tx := new_endpoint_active domain info in ret (ep_tx, tx_cq)
             else
               let! ep_tx := new_endpoint_active domain info in
               let! tx_cq := create_completion_queue domain size in ret (ep_tx, tx_cq)) in
  let '(ep_tx, tx_cq) := p in
  bind_queue_to_endpoint ep_tx tx_cq ;;;
  bind_address_vector_to_endpoint ep_tx av ;;;
  enable_endpoint (Some ep_tx) ;;;
  ret (EndpointWrapper (Some ep_tx) None (Some tx_cq) name).

(** *** The endpoints of a thread *)

Definition get_base : M C (positive * positive * positive) :=
  let! k := get in
  let! d := deref (fabric_domain_ (base k)) in
  let! i := deref (fabric_info_ (base k)) in
  let! a := deref (av_ (base k)) in
  ret (d, i, a).

Definition get_eps : M C (endpoint_wrapper * endpoint_wrapper) :=
  let! k := get in
  match eps_ k with Some e => ret e | None => stop undefined_behaviour end.

Definition set_tl_tx (e : stack_endpoint) (t : thread_endpoints) : thread_endpoints :=
  ThreadEndpoints e (tl_stx_ t) (tl_srx_ t).
Definition set_tl_stx (e : stack_endpoint) (t : thread_endpoints) : thread_endpoints :=
  ThreadEndpoints (tl_tx_ t) e (tl_srx_ t).
Definition set_tl_srx (e : stack_endpoint) (t : thread_endpoints) : thread_endpoints :=
  ThreadEndpoints (tl_tx_ t) (tl_stx_ t) e.

Definition get_rx_endpoint (t : nat) : M C endpoint_wrapper :=
  let! eps := get_eps in
  let! k := get in
  match endpoint_type_ k with
  | scalableTxRx =>
      match ep_ (endpoint_ (tl_srx_ (thread t k))), rx_endpoints_ k with
      | Some _, _ => ret (endpoint_ (tl_srx_ (thread t k)))
      | None, [] => throw (runtime_error "rx endpoint wrapper pop fail")
      | None, ep :: rest =>
          modify (set_pools (tx_endpoints_ k) rest) ;;;
          modify (set_thread t (set_tl_srx (StackEndpoint ep true) (thread t k))) ;;;
          ret ep
      end
  | _ => ret eps.2
  end.

Definition get_tx_endpoint (t : nat) : M C endpoint_wrapper :=
  let! eps := get_eps in
  let! k := get in
  match endpoint_type_ k with
  | threadlocalTx =>
      match ep_ (endpoint_ (tl_tx_ (thread t k))) with
      | Some _ => ret (endpoint_ (tl_tx_ (thread t k)))
      | None =>
          let! b := get_base in
          let '(d, i, a) := b in
          let! ep := create_tx_endpoint d i a true "tx threadlocal" in
          modify (λ k, set_pools (tx_endpoints_ k ++ [ep]) (rx_endpoints_ k) k) ;;;
          let e := EndpointWrapper (ep_ ep) None (tq_ ep) "threadlocal" in
          modify (λ k, set_thread t (set_tl_tx (StackEndpoint e false) (thread t k)) k) ;;;
          ret e
      end
  | scalableTx | scalableTxRx =>
      match ep_ (endpoint_ (tl_stx_ (thread t k))), tx_endpoints_ k with
      | Some _, _ => ret (endpoint_ (tl_stx_ (thread t k)))
      | None, [] => throw (runtime_error "tx endpoint wrapper pop fail")
      | None, ep :: rest =>
          modify (set_pools rest (rx_endpoints_ k)) ;;;
          modify (set_thread t (set_tl_stx (StackEndpoint ep true) (thread t k))) ;;;
          ret ep
      end
  | multiple => ret eps.1
  | single => ret eps.2
  end.

(** ** Addresses *)

(** [locality_defs::array_size], in bytes. *)
Variable array_size : nat.
(** What the bytes of the uninitialised [local_addr] happen to be. *)
Variable local_addr : nat → Z.

(** The address, in the bytes of a [locality]; the bytes behind a shorter name are not
    written. *)
Definition get_endpoint_address (ep : positive) : M C (list Z) :=
  let! r := prov_call (fi_getname ep) in
  if negb r.1 || bool_decide (array_size < length r.2) then stop terminated
  else ret (r.2 ++ (local_addr <$> seq (length r.2) (array_size - length r.2))).

(** The new locality has the address that was inserted. *)
Definition insert_address (av : positive) (address : list Z) : M C Z :=
  let! r := prov_call (fi_av_insert av address) in
  if bool_decide (r.1 < 0)%Z then stop terminated
  else if bool_decide (r.1 = 0)%Z then stop terminated
  else ret r.2.

(** The bytes of the [i]-th locality of a buffer. *)
Definition locality_at (buf : list Z) (i : nat) : list Z := take array_size (drop (i * array_size) buf).

(** The end of [MPI_exchange_localities]: every rank has all localities. *)
Definition populate_av (av : positive) (localities : list Z) (size : nat) : M C unit :=
  mfor (seq 0 size) (λ i, insert_address av (locality_at localities i) ;;; ret tt).

Definition debug_print_av_vector (av : positive) (N : nat) : M C unit :=
  mfor (seq 0 N) (λ i,
    let! r := prov_call (fi_av_lookup av (Z.of_nat i)) in
    if r.1 && bool_decide (r.2 = Z.of_nat array_size) then ret tt
    else throw (runtime_error "debug_print_av_vector : address vector traversal failure")).

(** [exchange]: what [MPI_Send] and [MPI_Recv] make of this rank's locality, the
    buffer of all localities (see [gather_localities]). *)
Variable exchange : list Z → list Z.

Definition exchange_addresses (av : positive) (size : nat) : M C unit :=
  let! k := get in
  populate_av av (exchange (here_ k)) size ;;;
  debug_print_av_vector av size.

(** ** Initialization *)

(** The providers for which the rx endpoint needs a Tx queue; the environment. *)
Variable needs_dummy_cq : bool.
Variable getenv : string → option string.

Definition open_fabric : M C unit :=
  let! hints := create fi_allocinfo in
  let! info := create (fi_getinfo hints) in
  modify (λ k, set_base (Fids (Some info) (fabric_ (base k)) (fabric_domain_ (base k)) (av_ (base k))) k) ;;;
  let! fab := create (fi_fabric info) in
  modify (λ k, set_base (Fids (Some info) (Some fab) (fabric_domain_ (base k)) (av_ (base k))) k) ;;;
  let! dom := create (fi_domain fab info) in
  modify (λ k, set_base (Fids (Some info) (Some fab) (Some dom) (av_ (base k))) k) ;;;
  modify (λ k, set_config (endpoint_type_ k) (here_ k) (inject_size info (prov k))
                 (Z.min 512 (tx_attr_size info (prov k) / 2)) (Z.min 512 (rx_attr_size info (prov k) / 2)) k) ;;;
  freeinfo hints.

Definition create_address_vector (domain : positive) : M C positive := create (fi_av_open domain).

(** We need an rx endpoint in all cases except scalable rx. *)
Definition initialize_rx (d i a : positive) : M C unit :=
  let! k := get in
  match endpoint_type_ k with
  | scalableTxRx => ret tt
  | et =>
      let! rx := create_rx_endpoint d i a in
      let! eps := get_eps in
      modify (set_eps (Some (eps.1, rx))) ;;;
      if decide (et = single) then
        let! tx_cq := bind_tx_queue_to_rx_endpoint d i (ep_ rx) in
        modify (set_eps (Some (eps.1, set_tx_cq tx_cq rx)))
      else if needs_dummy_cq then
        let! dummy_cq := bind_tx_queue_to_rx_endpoint d i (ep_ rx) in
        modify (set_eps (Some (eps.1, set_tx_cq dummy_cq rx)))
      else ret tt
  end.

(** A Tx context of the scalable endpoint. *)
Definition create_tx_context (d i ep_sx : positive) (n : nat) : M C unit :=
  let! ep := create (fi_tx_context ep_sx n) in
  let! k := get in
  let! cq := create_completion_queue d (tx_attr_size i (prov k)) in
  bind_queue_to_endpoint ep cq ;;;
  enable_endpoint (Some ep) ;;;
  modify (λ k, set_pools (tx_endpoints_ k ++ [EndpointWrapper (Some ep) None (Some cq) "tx scalable"])
                 (rx_endpoints_ k) k).

Definition initialize_tx (d i a : positive) (threads : nat) : M C unit :=
  let! k := get in
  match endpoint_type_ k with
  | multiple =>
      let! tx := create_tx_endpoint d i a false "tx multiple" in
      let! eps := get_eps in
      modify (set_eps (Some (tx, eps.2)))
  | scalableTx | scalableTxRx =>
      let! r := new_endpoint_scalable d i threads in
      let '(ep_sx, threads_allocated) := r in
      checked (fi_ep_bind ep_sx a) ;;;
      mfor (seq 0 threads_allocated) (create_tx_context d i ep_sx) ;;;
      let! eps := get_eps in
      modify (set_eps (Some (EndpointWrapper (Some ep_sx) None None "rx scalable", eps.2)))
  | single | threadlocalTx => ret tt
  end.

(** [size] ranks, [threads] threads. *)
Definition initialize (size threads : nat) : M C unit :=
  modify (λ k, set_config (libfabric_endpoint_type getenv) (here_ k) (tx_inject_size_ k) (tx_attr_size_ k)
                 (rx_attr_size_ k) k) ;;;
  modify (set_eps (Some (no_endpoint, no_endpoint))) ;;;
  open_fabric ;;;
  let! k := get in
  let! d := deref (fabric_domain_ (base k)) in
  let! i := deref (fabric_info_ (base k)) in
  let! a := create_address_vector d in
  modify (λ k, set_base (Fids (fabric_info_ (base k)) (fabric_ (base k)) (fabric_domain_ (base k)) (Some a)) k) ;;;
  initialize_rx d i a ;;;
  initialize_tx d i a threads ;;;
  let! eps := get_eps in
  enable_endpoint (ep_ eps.2) ;;;
  let! h := deref (ep_ eps.2) in
  let! here := get_endpoint_address h in
  modify (λ k, set_config (endpoint_type_ k) here (tx_inject_size_ k) (tx_attr_size_ k) (rx_attr_size_ k) k) ;;;
  exchange_addresses a size.

(** [controller_base()] *)
Definition constructed (u : prov_st) (ts : gmap nat thread_endpoints) : C :=
  Controller _ u (Fids None None None None) None [] [] ts single [] 0 0 0.

(** ** [~controller_base] *)

(** [consume_all([](auto&& ep) { ep.cleanup(); })] *)
Definition cleanup_pools : M C unit :=
  let! k := get in
  mfor (tx_endpoints_ k) cleanup ;;;
  mfor (rx_endpoints_ k) cleanup ;;;
  modify (set_pools [] []).

(** A domain that cannot be closed raises a [fabric_error] like the others: the
    handler around it is never reached. *)
Definition destroy : M C unit :=
  cleanup_pools ;;;
  let! eps := get_eps in
  cleanup eps.1 ;;;
  cleanup eps.2 ;;;
  modify (set_eps None) ;;;
  let! k := get in
  let! a := deref (av_ (base k)) in
  fidclose a ;;;
  let! d := deref (fabric_domain_ (base k)) in
  fidclose d ;;;
  let! f := deref (fabric_ (base k)) in
  fidclose f ;;;
  let! i := deref (fabric_info_ (base k)) in
  freeinfo i.

End controller.

(** ** The exchange of localities between the ranks *)

Section exchange.
Variable array_size : nat.

(** [memcpy(&buf[off], data, array_size)] and [MPI_Recv] at [&buf[off]] *)
Definition write_at (off : nat) (data buf : list Z) : list Z :=
  take off buf ++ data ++ drop (off + length data) buf.

(** Rank 0: its own locality, then those the other ranks send, in rank order. *)
Definition gather_localities (heres : list (list Z)) : list Z :=
  foldl (λ buf '(i, here), write_at (i * array_size) here buf)
    (replicate (length heres * array_size) 0%Z) (imap pair heres).
End exchange.
