(* ===== verification/LfResources.v ===== *)
(** * Ownership of fabric objects

    Which objects a program has opened, which of them use which, and in what
    order they can be closed: lemmas on maps and lists that the proofs about the
    controller rest on. *)
From S2P Require Import Prelude LfController.

(** ** What is assumed of the provider *)

(** Objects and the objects they use. *)
Abbreviation obj_map := (gmap positive (gset positive)).

(** [f] creates an object that uses [deps], or fails. *)
Definition creates `{Provider} (objs : prov_st → obj_map)
    (f : prov_st → option positive * prov_st) (deps : gset positive) : Prop :=
  ∀ u r u', f u = (r, u') →
    match r with
    | Some h => objs u !! h = None ∧ objs u' = <[h := deps]> (objs u)
    | None => objs u' = objs u
    end.

Definition in_use (m : obj_map) (h : positive) : Prop := ∃ h' d, m !! h' = Some d ∧ h ∈ d.

(** Opening an object on a parent, and binding an object to an endpoint, makes
    the parent, or the bound object, used; an object can be closed exactly if
    nothing that is open uses it. *)
Class ProviderLaws `{Provider} : Type := {
  objs : prov_st → obj_map;
  allocinfo_creates : creates objs fi_allocinfo ∅;
  getinfo_creates i : creates objs (fi_getinfo i) ∅;
  dupinfo_creates i : creates objs (fi_dupinfo i) ∅;
  fabric_creates i : creates objs (fi_fabric i) ∅;
  domain_creates f i : creates objs (fi_domain f i) {[f]};
  av_open_creates d : creates objs (fi_av_open d) {[d]};
  cq_open_creates d n : creates objs (fi_cq_open d n) {[d]};
  endpoint_creates d i : creates objs (fi_endpoint d i) {[d]};
  scalable_ep_creates d i n : creates objs (fi_scalable_ep d i n) {[d]};
  tx_context_creates e n : creates objs (fi_tx_context e n) {[e]};
  freeinfo_frees i u : objs (fi_freeinfo i u) = delete i (objs u);
  ep_bind_uses e x u ok u' :
    fi_ep_bind e x u = (ok, u') → objs u' = if ok then alter (λ d, {[x]} ∪ d) e (objs u) else objs u;
  enable_keeps e u : objs (fi_enable e u).2 = objs u;
  getname_keeps e u : objs (fi_getname e u).2 = objs u;
  av_insert_keeps a x u : objs (fi_av_insert a x u).2 = objs u;
  av_lookup_keeps a i u : objs (fi_av_lookup a i u).2 = objs u;
  close_closes h u r u' :
    fi_close h u = (r, u') → is_Some (objs u !! h) →
    (in_use (objs u) h ∧ r ≠ Close_ok ∧ objs u' = objs u) ∨
    (¬ in_use (objs u) h ∧ r = Close_ok ∧ objs u' = delete h (objs u))
}.

(** ** Orders in which objects can be closed *)

(** Every object of the list uses only later ones. *)
Fixpoint closable (m : obj_map) (l : list positive) : Prop :=
  match l with
  | [] => True
  | h :: l => (∃ d, m !! h = Some d ∧ d ⊆ list_to_set l) ∧ closable m l
  end.

Lemma closable_mono m m' l :
  closable m l → (∀ h, h ∈ l → m' !! h = m !! h) → closable m' l.
Proof.
  induction l as [|h l IH]; cbn; [done|]. intros [(d & Hd & Hs) Hl] Hm. split.
  - exists d. rewrite Hm by set_solver. done.
  - apply IH; [done|]. set_solver.
Qed.

Lemma closable_lookup m l h d : closable m l → h ∈ l → m !! h = Some d → d ⊆ list_to_set l.
Proof.
  induction l as [|x l IH]; cbn; [set_solver|]. intros [(d' & Hd' & Hs) Hl] Hh Hd.
  apply elem_of_cons in Hh as [->|Hh]; [|specialize (IH Hl Hh Hd); set_solver].
  rewrite Hd in Hd'. simplify_eq. set_solver.
Qed.

(** Groups that use only themselves and a common base. *)
Lemma closable_concat m ws l :
  closable m l → (∀ g, g ∈ ws → closable m (g ++ l)) → closable m (concat ws ++ l).
Proof.
  intros Hl. induction ws as [|g ws IH]; intros Hg; cbn; [done|].
  assert (closable m (concat ws ++ l)) as Hc by (apply IH; set_solver).
  specialize (Hg g ltac:(set_solver)). clear IH. rewrite <- app_assoc.
  induction g as [|h g IHg]; cbn in *; [done|].
  destruct Hg as [(d & Hd & Hs) Hg]. split; [|auto]. exists d. split; [done|].
  rewrite !list_to_set_app_L in *. set_solver.
Qed.

Lemma closable_base m g l : closable m (g ++ l) → closable m l.
Proof. induction g as [|h g IH]; cbn; [done|]. tauto. Qed.

(** ** What a program owns *)

(** The open objects: groups [ws], a base [l] that the groups may use, and infos. *)
Record owns (m : obj_map) (ws : list (list positive)) (l infos : list positive) : Prop := {
  ow_nodup : NoDup (concat ws ++ l ++ infos);
  ow_dom h : is_Some (m !! h) ↔ h ∈ concat ws ++ l ++ infos;
  ow_base : closable m l;
  ow_group g : g ∈ ws → closable m (g ++ l);
  ow_info i : i ∈ infos → m !! i = Some ∅
}.

Lemma elem_of_group (ws : list (list positive)) g x : g ∈ ws → x ∈ g → x ∈ concat ws.
Proof. induction ws as [|g' ws IH]; cbn; [set_solver|]. intros [->|Hg]%elem_of_cons Hx; set_solver. Qed.

Lemma concat_perm (ws ws' : list (list positive)) : ws ≡ₚ ws' → concat ws ≡ₚ concat ws'.
Proof.
  induction 1; cbn; [done|by f_equiv| |by etrans].
  rewrite !app_assoc. f_equiv. apply Permutation_app_comm.
Qed.

Lemma owns_perm m ws ws' l infos infos' :
  owns m ws l infos → ws' ≡ₚ ws → infos' ≡ₚ infos → owns m ws' l infos'.
Proof.
  intros [] Hw Hi. pose proof (concat_perm _ _ Hw) as Hc.
  split; try done.
  - by rewrite Hc, Hi.
  - intros h. by rewrite Hc, Hi.
  - intros g. rewrite Hw. apply ow_group0.
  - intros i. rewrite Hi. apply ow_info0.
Qed.

#[export] Instance owns_proper :
  Proper (eq ==> Permutation ==> eq ==> Permutation ==> iff) owns.
Proof. intros m ? <- ws ws' Hw l ? <- i i' Hi. split; intros HO; by apply (owns_perm _ _ _ _ _ _ HO). Qed.

Lemma owns_fresh m ws l infos h : owns m ws l infos → m !! h = None → h ∉ concat ws ++ l ++ infos.
Proof. intros HO Hh Hin. apply (ow_dom _ _ _ _ HO) in Hin as [? ?]. congruence. Qed.

(** A new object changes nothing for the old ones. *)
Lemma closable_insert m l h d : closable m l → h ∉ l → closable (<[h := d]> m) l.
Proof.
  intros Hl Hh. apply (closable_mono m); [done|]. intros h' Hin. apply lookup_insert_ne. set_solver.
Qed.

(** A new object of the base, while there are no groups. *)
Lemma owns_cons m l infos h d :
  owns m [] l infos → m !! h = None → d ⊆ list_to_set l → owns (<[h := d]> m) [] (h :: l) infos.
Proof.
  intros HO Hh Hd. pose proof (owns_fresh _ _ _ _ _ HO Hh) as Hn. cbn in Hn.
  split; cbn.
  - constructor; [done|]. apply (ow_nodup _ _ _ _ HO).
  - intros h'. rewrite lookup_insert_is_Some', (ow_dom _ _ _ _ HO). cbn. set_solver.
  - split; [exists d; by rewrite lookup_insert_eq|]. apply closable_insert; [apply HO|set_solver].
  - set_solver.
  - intros i Hi. rewrite lookup_insert_ne by set_solver. by apply HO.
Qed.

Lemma owns_info m ws l infos h :
  owns m ws l infos → m !! h = None → owns (<[h := ∅]> m) ws l (h :: infos).
Proof.
  intros HO Hh. pose proof (owns_fresh _ _ _ _ _ HO Hh) as Hn.
  split.
  - rewrite app_assoc, <- Permutation_middle, <- app_assoc. constructor; [done|apply HO].
  - intros h'. rewrite lookup_insert_is_Some', (ow_dom _ _ _ _ HO). set_solver.
  - apply closable_insert; [apply HO|set_solver].
  - intros g Hg. apply closable_insert; [by apply HO|]. intros Hin. apply Hn.
    apply elem_of_app in Hin as [Hin|Hin]; [|set_solver]. apply elem_of_app. left. by eapply elem_of_group.
  - intros i [->|Hi]%elem_of_cons; [apply lookup_insert_eq|]. rewrite lookup_insert_ne by set_solver. by apply HO.
Qed.

Lemma owns_freeinfo m ws l infos i : owns m ws l (i :: infos) → owns (delete i m) ws l infos.
Proof.
  intros HO. pose proof (ow_nodup _ _ _ _ HO) as Hnd.
  rewrite app_assoc, <- Permutation_middle, <- app_assoc in Hnd. apply NoDup_cons in Hnd as [Hi Hnd].
  assert (∀ k, i ∉ k → closable m k → closable (delete i m) k) as Hcl.
  { intros k Hk Hc. apply (closable_mono m); [done|]. intros h Hh. apply lookup_delete_ne. set_solver. }
  split.
  - done.
  - intros h. rewrite lookup_delete_is_Some, (ow_dom _ _ _ _ HO). set_solver.
  - apply Hcl; [set_solver|apply HO].
  - intros g Hg. apply Hcl; [|by apply HO]. intros [Hin|Hin]%elem_of_app; [|set_solver]. apply Hi.
    apply elem_of_app. left. by eapply elem_of_group.
  - intros j Hj. rewrite lookup_delete_ne by set_solver. apply HO. set_solver.
Qed.

(** A new group: an endpoint and its queue. *)
Lemma owns_group m ws l infos e q d :
  owns m ws l infos → m !! e = None → m !! q = None → e ≠ q → d ⊆ {[q]} ∪ list_to_set l →
  ∀ p, p ∈ l →
  owns (<[e := d]> (<[q := {[p]}]> m)) ([e; q] :: ws) l infos.
Proof.
  intros HO He Hq Hne Hd p Hp.
  pose proof (owns_fresh _ _ _ _ _ HO He) as Hne'. pose proof (owns_fresh _ _ _ _ _ HO Hq) as Hnq.
  assert (∀ k, e ∉ k → q ∉ k → closable m k → closable (<[e := d]> (<[q := {[p]}]> m)) k) as Hcl.
  { intros k H1 H2 Hc. by apply closable_insert, H1; apply closable_insert. }
  split; cbn.
  - constructor; [set_solver|]. constructor; [done|apply HO].
  - intros h. rewrite !lookup_insert_is_Some', (ow_dom _ _ _ _ HO). set_solver.
  - apply Hcl; [set_solver..|apply HO].
  - intros g [->|Hg]%elem_of_cons; cbn.
    + split; [exists d; by rewrite lookup_insert_eq|]. split.
      * exists {[p]}. rewrite lookup_insert_ne, lookup_insert_eq by done. set_solver.
      * apply Hcl; [set_solver..|apply HO].
    + apply Hcl; [..|by apply HO]; (intros [Hin|Hin]%elem_of_app; [|set_solver]);
        [apply Hne'|apply Hnq]; apply elem_of_app; left; by eapply elem_of_group.
  - intros i Hi. rewrite !lookup_insert_ne by set_solver. by apply HO.
Qed.

(** ** Closing *)

(** The first object of the order is used by nobody. *)
Lemma closable_unused m h l infos :
  NoDup (h :: l ++ infos) → (∀ x, is_Some (m !! x) ↔ x ∈ h :: l ++ infos) →
  closable m (h :: l) → (∀ i, i ∈ infos → m !! i = Some ∅) → ¬ in_use m h.
Proof.
  intros [Hn Hnd]%NoDup_cons Hdom Hc Hi (x & d & Hx & Hin).
  assert (x ∈ h :: l ++ infos) as [->|[Hl|Hl]%elem_of_app]%elem_of_cons by (apply Hdom; eauto).
  - destruct Hc as [(d' & Hd' & Hs) _]. simplify_eq. apply Hs, elem_of_list_to_set in Hin. set_solver.
  - destruct Hc as [_ Hc]. pose proof (closable_lookup _ _ _ _ Hc Hl Hx) as Hs.
    apply Hs, elem_of_list_to_set in Hin. set_solver.
  - rewrite (Hi x Hl) in Hx. simplify_eq. set_solver.
Qed.

(** Closing that object. *)
Lemma owns_close m h l infos : owns m [] (h :: l) infos → owns (delete h m) [] l infos ∧ ¬ in_use m h.
Proof.
  intros [Hnd Hdom Hc _ Hi]. cbn in *. split; [|by eapply closable_unused].
  apply NoDup_cons in Hnd as [Hh Hnd]. split; cbn; try done.
  - intros x. rewrite lookup_delete_is_Some, Hdom. set_solver.
  - apply (closable_mono m); [apply Hc|]. intros x Hx. apply lookup_delete_ne. set_solver.
  - set_solver.
  - intros x Hx. rewrite lookup_delete_ne by set_solver. by apply Hi.
Qed.

(** The groups can be closed one after the other, before the base. *)
Lemma owns_flatten m ws l infos : owns m ws l infos → owns m [] (concat ws ++ l) infos.
Proof.
  intros [Hnd Hdom Hc Hg Hi]. split; cbn; try done.
  - by rewrite <- app_assoc.
  - intros h. by rewrite Hdom, <- app_assoc.
  - by apply closable_concat.
  - set_solver.
Qed.

Lemma owns_empty : owns ∅ [] [] [].
Proof.
  split; cbn; [constructor|..]; try set_solver. intros h. rewrite lookup_empty. set_solver.
Qed.

Lemma owns_size m ws l infos : owns m ws l infos → size m = length (concat ws ++ l ++ infos).
Proof.
  intros HO. rewrite <- size_dom.
  replace (dom m) with (list_to_set (concat ws ++ l ++ infos) : gset positive).
  - apply size_list_to_set, HO.
  - apply set_eq. intros h. by rewrite elem_of_list_to_set, elem_of_dom, (ow_dom _ _ _ _ HO).
Qed.
