(* ===== verification/LfControllerInv.v ===== *)
(** * The libfabric controller releases what it opens

    [initialize] opens the fabric objects of the selected endpoint type, threads
    take and return endpoints, the destructor closes everything in an order in
    which nothing is still in use; and where this goes wrong. *)
From S2P Require Import Prelude LfEnv LfController LfResources.

Section inv.
Context `{Provider, !ProviderLaws}.
Abbreviation C := controller.
Implicit Types k : C.

(** A failed call of the provider ends the program; the list of allowed
    exceptions is that of [debug_print_av_vector] and of an empty pool. *)
Abbreviation pre_x X := (wpx (λ h, h = terminated) X).
Abbreviation pre := (pre_x (λ _, True)).
Abbreviation open_objs k := (objs (prov k)).

(** ** Calls of the provider *)

Lemma create_pre {X} f deps Q k :
  creates objs f deps →
  (∀ h u, open_objs k !! h = None → objs u = <[h := deps]> (open_objs k) → Q h (set_prov u k)) →
  pre_x X (create f) Q k.
Proof.
  intros Hf HQ. unfold create, prov_call, wpx, bnd. destruct (f (prov k)) as [[h|] u] eqn:E; [|done].
  destruct (Hf _ _ _ E). by apply HQ.
Qed.

Lemma bind_pre {X} e x Q k :
  (∀ u, objs u = alter (λ d, {[x]} ∪ d) e (open_objs k) → Q tt (set_prov u k)) →
  pre_x X (checked (fi_ep_bind e x)) Q k.
Proof.
  intros HQ. unfold checked, prov_call, wpx, bnd. destruct (fi_ep_bind e x (prov k)) as [ok u] eqn:E.
  pose proof (ep_bind_uses _ _ _ _ _ E) as Hu. destruct ok; [by apply HQ|done].
Qed.

Lemma enable_pre {X} e Q k :
  (∀ u, objs u = open_objs k → Q tt (set_prov u k)) → pre_x X (enable_endpoint (Some e)) Q k.
Proof.
  intros HQ. unfold enable_endpoint, deref, checked, prov_call, wpx, bnd, ret.
  pose proof (enable_keeps e (prov k)) as He. destruct (fi_enable e (prov k)) as [[] u]; [by apply HQ|done].
Qed.

Lemma freeinfo_pre {X} i Q k :
  (∀ u, objs u = delete i (open_objs k) → Q tt (set_prov u k)) → pre_x X (freeinfo i) Q k.
Proof. intros HQ. apply HQ, freeinfo_frees. Qed.

Lemma get_eps_pre {X} e Q k : eps_ k = Some e → Q e k → pre_x X get_eps Q k.
Proof. intros E HQ. unfold get_eps, bnd, wpx, get. by rewrite E. Qed.

(** ** Endpoints and queues *)

Lemma new_endpoint_active_pre {X} d i Q k :
  (∀ h u, open_objs k !! h = None → objs u = <[h := {[d]}]> (open_objs k) → Q h (set_prov u k)) →
  pre_x X (new_endpoint_active d i) Q k.
Proof.
  intros HQ. unfold new_endpoint_active, set_src_dst_addresses.
  apply wpx_bnd, (create_pre _ _ _ _ (dupinfo_creates i)). intros x u1 Hx E1.
  apply wpx_bnd, (create_pre _ _ _ _ (endpoint_creates d x)). intros h u2 Hh E2. cbn [prov set_prov] in *.
  apply wpx_bnd, freeinfo_pre. intros u3 E3. apply wpx_ret. cbn [prov set_prov] in *.
  rewrite E1 in Hh. assert (x ≠ h) by (intros ->; by rewrite lookup_insert_eq in Hh).
  apply (HQ h u3); [by rewrite lookup_insert_ne in Hh|].
  rewrite E3, E2, E1, delete_insert_ne by done. by rewrite delete_insert_id.
Qed.

(** An endpoint and its queue are open; the endpoint uses [deps] besides. *)
Definition pair_open (m m' : obj_map) (e q d : positive) (deps : gset positive) : Prop :=
  m !! e = None ∧ m !! q = None ∧ e ≠ q ∧ m' = <[e := deps ∪ {[q]}]> (<[q := {[d]}]> m).

Lemma create_tx_endpoint_pre {X} d i a tl name Q k :
  (∀ e q u, pair_open (open_objs k) (objs u) e q d {[a; d]} →
     Q (EndpointWrapper (Some e) None (Some q) name) (set_prov u k)) →
  pre_x X (create_tx_endpoint d i a tl name) Q k.
Proof.
  intros HQ. unfold create_tx_endpoint. apply wpx_bnd, wpx_get, wpx_bnd.
  eapply wpx_mono with (Q := λ '(e, q) k', ∃ u, k' = set_prov u k ∧ open_objs k !! e = None ∧
    open_objs k !! q = None ∧ e ≠ q ∧ objs u = <[e := {[d]}]> (<[q := {[d]}]> (open_objs k))).
  - destruct tl; unfold create_completion_queue.
    + apply wpx_bnd, (create_pre _ _ _ _ (cq_open_creates _ _)). intros q u1 Hq E1.
      apply wpx_bnd, new_endpoint_active_pre. intros e u2 He E2. apply wpx_ret. exists u2. cbn [prov set_prov] in *.
      rewrite E1 in *. assert (e ≠ q) by (intros ->; by rewrite lookup_insert_eq in He).
      rewrite lookup_insert_ne in He by done. done.
    + apply wpx_bnd, new_endpoint_active_pre. intros e u1 He E1.
      apply wpx_bnd, (create_pre _ _ _ _ (cq_open_creates _ _)). intros q u2 Hq E2. apply wpx_ret. exists u2. cbn [prov set_prov] in *.
      rewrite E1 in *. assert (e ≠ q) by (intros ->; by rewrite lookup_insert_eq in Hq).
      rewrite lookup_insert_ne in Hq by done. split_and!; [done..|]. by rewrite E2, insert_insert_ne.
  - intros [e q] k' (u & -> & He & Hq & Hne & E). unfold bind_queue_to_endpoint, bind_address_vector_to_endpoint.
    apply wpx_bnd, bind_pre. intros u1 E1. apply wpx_bnd, bind_pre. intros u2 E2.
    apply wpx_bnd, enable_pre. intros u3 E3. apply wpx_ret. cbn [prov set_prov] in *.
    apply (HQ e q u3). split_and!; [done..|]. rewrite E3, E2, E1, E.
    rewrite alter_insert_eq, alter_insert_eq. f_equal. set_solver.
Qed.

Lemma create_rx_endpoint_pre d i a Q k :
  (∀ e q u, pair_open (open_objs k) (objs u) e q d {[a; d]} →
     Q (EndpointWrapper (Some e) (Some q) None "rx") (set_prov u k)) →
  pre (create_rx_endpoint d i a) Q k.
Proof.
  intros HQ. unfold create_rx_endpoint, bind_address_vector_to_endpoint, bind_queue_to_endpoint.
  apply wpx_bnd, new_endpoint_active_pre. intros e u1 He E1. apply wpx_bnd, bind_pre. intros u2 E2.
  apply wpx_bnd, wpx_get, wpx_bnd, (create_pre _ _ _ _ (cq_open_creates _ _)). intros q u3 Hq E3.
  apply wpx_bnd, bind_pre. intros u4 E4. apply wpx_ret. cbn [prov set_prov] in *.
  rewrite E1, alter_insert_eq in E2. rewrite E2 in *.
  assert (e ≠ q) by (intros ->; by rewrite lookup_insert_eq in Hq). rewrite lookup_insert_ne in Hq by done.
  apply (HQ e q u4). split_and!; [done..|]. rewrite E4, E3.
  rewrite insert_insert_ne, alter_insert_eq by done. f_equal. set_solver.
Qed.

(** A second queue for an endpoint. *)
Lemma bind_tx_queue_pre d i e Q k :
  (∀ q u, open_objs k !! q = None → objs u = alter (λ d, {[q]} ∪ d) e (<[q := {[d]}]> (open_objs k)) →
     Q q (set_prov u k)) →
  pre (bind_tx_queue_to_rx_endpoint d i (Some e)) Q k.
Proof.
  intros HQ. unfold bind_tx_queue_to_rx_endpoint.
  apply wpx_bnd, wpx_get, wpx_bnd, (create_pre _ _ _ _ (cq_open_creates _ _)). intros q u1 Hq E1.
  apply wpx_bnd, wpx_ret, wpx_bnd, bind_pre. intros u2 E2. apply wpx_ret. cbn [prov set_prov] in *.
  apply (HQ q u2); [done|]. by rewrite E2, E1.
Qed.

Lemma new_endpoint_scalable_pre d i threads Q k :
  (∀ e x n u, open_objs k !! e = None → open_objs k !! x = None → e ≠ x →
     objs u = <[e := {[d]}]> (<[x := ∅]> (open_objs k)) → Q (e, n) (set_prov u k)) →
  pre (new_endpoint_scalable d i threads) Q k.
Proof.
  intros HQ. unfold new_endpoint_scalable.
  apply wpx_bnd, (create_pre _ _ _ _ (dupinfo_creates _)). intros y u1 Hy E1.
  apply wpx_bnd, (create_pre _ _ _ _ (getinfo_creates _)). intros x u2 Hx E2.
  apply wpx_bnd, wpx_get, wpx_bnd, (create_pre _ _ _ _ (scalable_ep_creates _ _ _)). intros e u3 He E3.
  apply wpx_bnd, freeinfo_pre. intros u4 E4. apply wpx_ret. cbn [prov set_prov] in *.
  rewrite E1 in *. rewrite E2 in *.
  assert (y ≠ x) by (intros ->; by rewrite lookup_insert_eq in Hx). rewrite lookup_insert_ne in Hx by done.
  assert (x ≠ e) by (intros ->; by rewrite lookup_insert_eq in He). rewrite lookup_insert_ne in He by done.
  assert (y ≠ e) by (intros ->; by rewrite lookup_insert_eq in He). rewrite lookup_insert_ne in He by done.
  apply (HQ e x _ u4); [done..|]. rewrite E4, E3.
  rewrite !delete_insert_ne by done. by rewrite delete_insert_id.
Qed.

(** ** The invariant *)

Definition handle (o : option positive) : list positive := match o with Some h => [h] | None => [] end.
(** The objects of a wrapper, in the order [cleanup] closes them. *)
Definition handles (w : endpoint_wrapper) : list positive := handle (ep_ w) ++ handle (rq_ w) ++ handle (tq_ w).

(** The endpoints that threads have taken from a pool. *)
Definition pooled (e : stack_endpoint) : list endpoint_wrapper := if pool_ e then [endpoint_ e] else [].
Definition taken (t : thread_endpoints) : list endpoint_wrapper :=
  pooled (tl_tx_ t) ++ pooled (tl_stx_ t) ++ pooled (tl_srx_ t).
Definition held_in (ts : gmap nat thread_endpoints) : list endpoint_wrapper :=
  map_to_list ts ≫= λ x, taken x.2.
Definition held k : list endpoint_wrapper := held_in (threads_ k).
Definition wrappers k : list endpoint_wrapper := tx_endpoints_ k ++ rx_endpoints_ k ++ held k.

(** The base objects; the infos that are never freed. *)
Record ctl_inv (leaked : list positive) (tx rx : endpoint_wrapper) (i f d a : positive) k : Prop := {
  ci_eps : eps_ k = Some (tx, rx);
  ci_base : base k = Fids (Some i) (Some f) (Some d) (Some a);
  ci_owns : owns (open_objs k) (handles <$> wrappers k) (handles tx ++ handles rx ++ [a; d; f]) (i :: leaked);
  ci_ep w : w ∈ wrappers k → is_Some (ep_ w);
  ci_context : endpoint_type_ k = scalableTx →
    ∃ s, ep_ tx = Some s ∧
      ∀ w, w ∈ wrappers k → ∃ e deps, ep_ w = Some e ∧ open_objs k !! e = Some deps ∧ s ∈ deps;
  ci_leaked : length leaked = if decide (endpoint_type_ k = scalableTx) then 1 else 0
}.

(** ** Initialization *)

(** The members that a step leaves alone. *)
Record same k k' : Prop := {
  sm_eps : eps_ k' = eps_ k;
  sm_tx : tx_endpoints_ k' = tx_endpoints_ k;
  sm_rx : rx_endpoints_ k' = rx_endpoints_ k;
  sm_threads : threads_ k' = threads_ k;
  sm_type : endpoint_type_ k' = endpoint_type_ k;
  sm_base : base k' = base k
}.

#[export] Instance same_preorder : PreOrder same.
Proof. split; [by split|]. intros k1 k2 k3 [] []. split; congruence. Qed.

Lemma open_fabric_pre k :
  owns (open_objs k) [] [] [] →
  pre open_fabric (λ _ k', ∃ i f d,
    base k' = Fids (Some i) (Some f) (Some d) (av_ (base k)) ∧
    owns (open_objs k') [] [d; f] [i] ∧ same k (set_base (base k) k')) k.
Proof.
  intros HO. unfold open_fabric.
  apply wpx_bnd, (create_pre _ _ _ _ allocinfo_creates). intros x u1 Hx E1.
  apply wpx_bnd, (create_pre _ _ _ _ (getinfo_creates _)). intros i u2 Hi E2. apply wpx_bnd, wpx_modify.
  apply wpx_bnd, (create_pre _ _ _ _ (fabric_creates _)). intros f u3 Hf E3. apply wpx_bnd, wpx_modify.
  apply wpx_bnd, (create_pre _ _ _ _ (domain_creates _ _)). intros d u4 Hd E4. apply wpx_bnd, wpx_modify.
  apply wpx_bnd, wpx_modify, freeinfo_pre. intros u5 E5.
  cbn [prov set_prov set_base set_config] in *. exists i, f, d. split_and!; [done| |by split].
  cbn [prov set_prov set_base set_config]. rewrite E5. apply owns_freeinfo.
  apply (owns_perm _ [] _ _ [i; x]); [|done|constructor].
  rewrite E4. rewrite E3 in *. rewrite E2 in *. rewrite E1 in *.
  apply owns_cons; [|done|set_solver]. apply owns_cons; [|done|set_solver].
  by apply owns_info; [apply owns_info|].
Qed.

Lemma pair_owns m m' e q d deps l infos :
  pair_open m m' e q d deps → owns m [] l infos → deps ⊆ list_to_set l → d ∈ l →
  owns m' [] (e :: q :: l) infos.
Proof.
  intros (He & Hq & Hne & ->) HO Hd Hl. apply owns_cons; [apply owns_cons; [done..|set_solver]| |].
  - by rewrite lookup_insert_ne.
  - set_solver.
Qed.

(** The endpoint gets a second queue. *)
Lemma second_queue_owns m m' e q q2 d deps l infos :
  pair_open m m' e q d deps → m' !! q2 = None → owns m [] l infos → deps ⊆ list_to_set l → d ∈ l →
  owns (alter (λ s, {[q2]} ∪ s) e (<[q2 := {[d]}]> m')) [] (e :: q :: q2 :: l) infos.
Proof.
  intros (He & Hq & Hne & ->) Hq2 HO Hd Hl.
  assert (e ≠ q2) by (intros ->; by rewrite lookup_insert_eq in Hq2). rewrite lookup_insert_ne in Hq2 by done.
  assert (q ≠ q2) by (intros ->; by rewrite lookup_insert_eq in Hq2). rewrite lookup_insert_ne in Hq2 by done.
  rewrite insert_insert_ne, alter_insert_eq, (insert_insert_ne m) by done.
  apply owns_cons; [apply owns_cons; [apply owns_cons; [done..|set_solver]| |set_solver]| |set_solver].
  - by rewrite lookup_insert_ne.
  - by rewrite !lookup_insert_ne.
Qed.

Lemma initialize_rx_pre needs_dummy_cq d i a f infos tx0 rx0 k :
  owns (open_objs k) [] [a; d; f] infos → eps_ k = Some (tx0, rx0) → endpoint_type_ k ≠ scalableTxRx →
  pre (initialize_rx needs_dummy_cq d i a) (λ _ k', ∃ rx, eps_ k' = Some (tx0, rx) ∧ is_Some (ep_ rx) ∧
    owns (open_objs k') [] (handles rx ++ [a; d; f]) infos ∧ same k (set_eps (eps_ k) k')) k.
Proof.
  intros HO He Het. unfold initialize_rx. apply wpx_bnd, wpx_get.
  assert (pre (let! rx := create_rx_endpoint d i a in
      let! eps := get_eps in
      modify (set_eps (Some (eps.1, rx))) ;;;
      if decide (endpoint_type_ k = single) then
        let! tx_cq := bind_tx_queue_to_rx_endpoint d i (ep_ rx) in
        modify (set_eps (Some (eps.1, set_tx_cq tx_cq rx)))
      else if needs_dummy_cq then
        let! dummy_cq := bind_tx_queue_to_rx_endpoint d i (ep_ rx) in
        modify (set_eps (Some (eps.1, set_tx_cq dummy_cq rx)))
      else ret tt) (λ _ k', ∃ rx, eps_ k' = Some (tx0, rx) ∧ is_Some (ep_ rx) ∧
        owns (open_objs k') [] (handles rx ++ [a; d; f]) infos ∧ same k (set_eps (eps_ k) k')) k) as Hpre;
    [|by destruct (endpoint_type_ k)].
  apply wpx_bnd, create_rx_endpoint_pre. intros e q u Hp. apply wpx_bnd, (get_eps_pre (tx0, rx0)); [done|].
  apply wpx_bnd, wpx_modify.
  assert (∀ k1, prov k1 = u → eps_ k1 = Some (tx0, EndpointWrapper (Some e) (Some q) None "rx") →
    same k (set_eps (eps_ k) k1) → pre (let! c := bind_tx_queue_to_rx_endpoint d i (Some e) in
      modify (set_eps (Some (tx0, set_tx_cq c (EndpointWrapper (Some e) (Some q) None "rx")))))
      (λ _ k', ∃ rx, eps_ k' = Some (tx0, rx) ∧ is_Some (ep_ rx) ∧
        owns (open_objs k') [] (handles rx ++ [a; d; f]) infos ∧ same k (set_eps (eps_ k) k')) k1) as Hsec.
  { intros k1 Ep _ Hs. apply wpx_bnd, bind_tx_queue_pre. intros q2 u2 Hq2 E2. apply wpx_modify.
    eexists. split_and!; [done|by eexists| |destruct Hs; by split].
    cbn. rewrite E2, Ep in *. eapply second_queue_owns; [done..| |]; set_solver. }
  cbn [fst ep_]. destruct (decide _); [by apply Hsec|]. destruct needs_dummy_cq; [by apply Hsec|].
  apply wpx_ret. eexists. split_and!; [done|by eexists| |by split].
  cbn. eapply pair_owns; [done..| |]; set_solver.
Qed.

(** *** The contexts of a scalable endpoint *)

(** Every endpoint of the pool uses the scalable endpoint [s]. *)
Definition contexts_of (s : positive) (m : obj_map) (ws : list endpoint_wrapper) : Prop :=
  ∀ w, w ∈ ws → ∃ e deps, ep_ w = Some e ∧ m !! e = Some deps ∧ s ∈ deps.

Definition contexts_open s l infos k0 k : Prop :=
  owns (open_objs k) (handles <$> tx_endpoints_ k) (s :: l) infos ∧
  contexts_of s (open_objs k) (tx_endpoints_ k) ∧
  same (set_pools (tx_endpoints_ k) (rx_endpoints_ k0) k0) k.

Lemma owned_lookup m ws l infos w e :
  owns m (handles <$> ws) l infos → w ∈ ws → ep_ w = Some e → is_Some (m !! e).
Proof.
  intros HO Hw He. apply (ow_dom _ _ _ _ HO), elem_of_app. left. apply (elem_of_group _ (handles w)).
  - by apply list_elem_of_fmap_2.
  - unfold handles. rewrite He. cbn. set_solver.
Qed.

Lemma create_tx_context_pre d i s n l infos k0 k :
  d ∈ l → contexts_open s l infos k0 k →
  pre (create_tx_context d i s n) (λ _ k', contexts_open s l infos k0 k') k.
Proof.
  intros Hd (HO & HC & HS). unfold create_tx_context, create_completion_queue, bind_queue_to_endpoint.
  apply wpx_bnd, (create_pre _ _ _ _ (tx_context_creates _ _)). intros e u1 He E1.
  apply wpx_bnd, wpx_get, wpx_bnd, (create_pre _ _ _ _ (cq_open_creates _ _)). intros q u2 Hq E2.
  apply wpx_bnd, bind_pre. intros u3 E3. apply wpx_bnd, enable_pre. intros u4 E4. apply wpx_modify.
  cbn [prov set_prov] in *. rewrite E1 in *. rewrite E2 in *.
  assert (e ≠ q) as Hne by (intros ->; by rewrite lookup_insert_eq in Hq). rewrite lookup_insert_ne in Hq by done.
  rewrite insert_insert_ne, alter_insert_eq in E3 by done.
  assert (objs u4 = <[e := {[q]} ∪ {[s]}]> (<[q := {[d]}]> (open_objs k))) as E by by rewrite E4, E3.
  split_and!; cbn; rewrite ?E.
  - rewrite fmap_app, (Permutation_app_comm _ (handles <$> [_])). cbn.
    apply owns_group; [done..|set_solver|set_solver].
  - intros w [Hw|Hw]%elem_of_app.
    + destruct (HC w Hw) as (e' & deps & H1 & H2 & H3). exists e', deps. split_and!; [done| |done].
      destruct (owned_lookup _ _ _ _ _ _ HO Hw H1) as [x Hx].
      by rewrite !lookup_insert_ne by congruence.
    + apply list_elem_of_singleton in Hw as ->. exists e, ({[q]} ∪ {[s]}). split_and!; [done| |set_solver].
      apply lookup_insert_eq.
  - destruct HS. by split.
Qed.

(** [eps_], what is owned, and what is left alone after the Tx part. *)
Definition tx_open l infos rx k0 k : Prop :=
  ∃ tx leaked, eps_ k = Some (tx, rx) ∧
    owns (open_objs k) (handles <$> tx_endpoints_ k) (handles tx ++ l) (infos ++ leaked) ∧
    (endpoint_type_ k0 = scalableTx → ∃ s, ep_ tx = Some s ∧ contexts_of s (open_objs k) (tx_endpoints_ k)) ∧
    (∀ w, w ∈ tx_endpoints_ k → is_Some (ep_ w)) ∧
    length leaked = (if decide (endpoint_type_ k0 = scalableTx) then 1 else 0) ∧
    rx_endpoints_ k = rx_endpoints_ k0 ∧ threads_ k = threads_ k0 ∧
    endpoint_type_ k = endpoint_type_ k0 ∧ base k = base k0.

Lemma scalable_pre d i a threads l infos rx k :
  d ∈ l → a ∈ l → owns (open_objs k) [] l infos → tx_endpoints_ k = [] →
  eps_ k = Some (no_endpoint, rx) →
  pre (let! r := new_endpoint_scalable d i threads in
      let '(ep_sx, threads_allocated) := r in
      checked (fi_ep_bind ep_sx a) ;;;
      mfor (seq 0 threads_allocated) (create_tx_context d i ep_sx) ;;;
      let! eps := get_eps in
      modify (set_eps (Some (EndpointWrapper (Some ep_sx) None None "rx scalable", eps.2))))
    (λ _ k', (∃ tx, eps_ k' = Some (tx, rx)) ∧ (endpoint_type_ k = scalableTx → tx_open l infos rx k k')) k.
Proof.
  intros Hd Ha HO Htx Heps. apply wpx_bnd, new_endpoint_scalable_pre. intros s x n u Hs Hx Hne E.
  apply wpx_bnd, bind_pre. intros u1 E1. cbn [prov set_prov set_eps] in *.
  set (k1 := set_prov u1 _). apply wpx_bnd. eapply wpx_mono.
  - apply (wpx_mfor _ _ (λ _ k', contexts_open s l (x :: infos) k1 k')).
    + intros m l' k' HI. by apply create_tx_context_pre.
    + unfold contexts_open, k1. cbn. rewrite Htx. split_and!; [|set_solver|by split].
      rewrite E1, E, alter_insert_eq.
      apply owns_cons; [by apply owns_info|by rewrite lookup_insert_ne by congruence|set_solver].
  - intros _ k2 (HO2 & HC & HS). pose proof (sm_eps _ _ HS) as He. cbn in He.
    apply wpx_bnd, (get_eps_pre (no_endpoint, rx)); [by rewrite He|]. apply wpx_modify.
    split; [by eexists|]. intros Ht.
    eexists _, [x]. destruct HS. cbn in *. split_and!; try done.
    + by rewrite (Permutation_app_comm infos).
    + intros _. by exists s.
    + intros w Hw. destruct (HC w Hw) as (e & deps & -> & _). by eexists.
    + by rewrite decide_True.
Qed.

Lemma initialize_tx_pre d i a threads l infos rx k :
  d ∈ l → a ∈ l → owns (open_objs k) [] l infos → tx_endpoints_ k = [] →
  eps_ k = Some (no_endpoint, rx) → endpoint_type_ k ≠ scalableTxRx →
  pre (initialize_tx d i a threads) (λ _ k', tx_open l infos rx k k') k.
Proof.
  intros Hd Ha HO Htx He Het. unfold initialize_tx. apply wpx_bnd, wpx_get.
  assert (endpoint_type_ k ≠ scalableTx → tx_open l infos rx k k) as Hnone.
  { intros Hn. exists no_endpoint, []. rewrite Htx, app_nil_r. split_and!; try done; [set_solver|].
    by rewrite decide_False. }
  destruct (endpoint_type_ k) eqn:Et; try done; try (by apply wpx_ret, Hnone).
  - apply wpx_bnd, create_tx_endpoint_pre. intros e q u Hp.
    apply wpx_bnd, (get_eps_pre (no_endpoint, rx)); [done|]. apply wpx_modify.
    eexists _, []. cbn. rewrite Htx, app_nil_r. split_and!; try done.
    + eapply pair_owns; [done..| |]; set_solver.
    + by rewrite Et.
    + set_solver.
    + by rewrite Et.
  - eapply wpx_mono; [by apply (scalable_pre d i a threads l infos rx k)|].
    intros [] k' Hk. by apply Hk.
Qed.

(** *** Addresses *)

Lemma prov_call_pre {A} (f : prov_st → A * prov_st) Q k :
  (∀ a u, f (prov k) = (a, u) → Q a (set_prov u k)) → pre (prov_call f) Q k.
Proof. intros HQ. unfold prov_call, wpx. destruct (f (prov k)) as [a u] eqn:E. by apply HQ. Qed.

(** Only the provider's state changes, and no object. *)
Definition quiet k k' : Prop := ∃ u, k' = set_prov u k ∧ objs u = open_objs k.

Lemma quiet_trans k1 k2 k3 : quiet k1 k2 → quiet k2 k3 → quiet k1 k3.
Proof. intros (u & -> & E) (u' & -> & E'). exists u'. cbn in *. by rewrite E', E. Qed.

Lemma quiet_refl k : quiet k k.
Proof. exists (prov k). by destruct k. Qed.

Lemma populate_av_pre size0 a buf size k :
  pre (populate_av size0 a buf size) (λ _ k', quiet k k') k.
Proof.
  apply (wpx_mfor _ _ (λ _ k', quiet k k')); [|apply quiet_refl].
  intros i l k' Hq. unfold insert_address. apply wpx_bnd, wpx_bnd, prov_call_pre. intros r u E.
  repeat case_bool_decide; try done. apply wpx_ret, wpx_ret. eapply quiet_trans; [done|]. exists u. split; [done|].
  by rewrite <- (av_insert_keeps a (locality_at size0 buf i) (prov k')), E.
Qed.

Lemma debug_print_pre size0 a N k : pre (debug_print_av_vector size0 a N) (λ _ k', quiet k k') k.
Proof.
  apply (wpx_mfor _ _ (λ _ k', quiet k k')); [|apply quiet_refl].
  intros i l k' Hq. apply wpx_bnd, prov_call_pre. intros r u E. destruct (_ && _); [|done].
  apply wpx_ret. eapply quiet_trans; [done|]. exists u. split; [done|].
  by rewrite <- (av_lookup_keeps a (Z.of_nat i) (prov k')), E.
Qed.

Lemma exchange_addresses_pre array_size exchange a size k :
  pre (exchange_addresses array_size exchange a size) (λ _ k', quiet k k') k.
Proof.
  unfold exchange_addresses. apply wpx_bnd, wpx_get, wpx_bnd.
  eapply wpx_mono; [apply populate_av_pre|]. intros [] k1 Hq.
  eapply wpx_mono; [apply debug_print_pre|]. intros [] k2 Hq2. by eapply quiet_trans.
Qed.
End inv.
