(* ===== verification/LfControllerApi.v ===== *)
(** * The libfabric controller: from [initialize] to the destructor

    What [initialize] leaves open, what threads do to the endpoints, and what the
    destructor closes. *)
From S2P Require Import Prelude LfEnv LfController LfResources LfControllerInv.

Section api.
Context `{Provider, !ProviderLaws}.
Abbreviation C := controller.
Implicit Types k : C.
Abbreviation pre := (wpx (λ h, h = terminated) (λ _, True)).
Abbreviation open_objs k := (objs (prov k)).

Lemma get_endpoint_address_pre size0 local e Q k :
  (∀ x k', quiet k k' → Q x k') → pre (get_endpoint_address size0 local e) Q k.
Proof.
  intros HQ. unfold get_endpoint_address. apply wpx_bnd, prov_call_pre. intros r u E.
  destruct (_ || _); [done|]. apply wpx_ret, HQ. exists u. split; [done|].
  by rewrite <- (getname_keeps e (prov k)), E.
Qed.

Lemma quiet_inv leaked tx rx i f d a k k' :
  quiet k k' → ctl_inv leaked tx rx i f d a k → ctl_inv leaked tx rx i f d a k'.
Proof. intros (u & -> & E) []. by split; cbn; rewrite ?E. Qed.

(** ** [initialize] *)

Definition ready k : Prop := ∃ leaked tx rx i f d a, ctl_inv leaked tx rx i f d a k.

Lemma tx_open_inv rx i f d a k k' :
  tx_open (handles rx ++ [a; d; f]) [i] rx k k' → rx_endpoints_ k = [] → threads_ k = ∅ →
  base k = Fids (Some i) (Some f) (Some d) (Some a) →
  held k' = [] ∧ ∃ leaked tx, ctl_inv leaked tx rx i f d a k'.
Proof.
  intros (tx & leaked & He & HO & HC & Hep & Hl & Hrx & Ht & Het & Hb) Hrx0 Ht0 Hb0.
  assert (held k' = []) as Hh by (unfold held, held_in; by rewrite Ht, Ht0). split; [done|].
  assert (wrappers k' = tx_endpoints_ k') as Hw by (unfold wrappers; by rewrite Hh, Hrx, Hrx0, !app_nil_r).
  exists leaked, tx. split; rewrite ?Hw, ?Het; try done; congruence.
Qed.

Lemma initialize_pre size0 local exchange dummy getenv size threads u :
  objs u = ∅ → libfabric_endpoint_type getenv ≠ scalableTxRx →
  pre (initialize size0 local exchange dummy getenv size threads)
    (λ _ k', ready k' ∧ held k' = [] ∧ endpoint_type_ k' = libfabric_endpoint_type getenv)
    (constructed u ∅).
Proof.
  intros Hu Het. unfold initialize, create_address_vector.
  apply wpx_bnd, wpx_modify, wpx_bnd, wpx_modify, wpx_bnd.
  set (k0 := set_eps _ _). eapply wpx_mono; [apply (open_fabric_pre k0)|].
  { unfold k0. cbn. rewrite Hu. apply owns_empty. }
  intros [] k1 (i & f & d & Hb & HO & HS).
  assert (eps_ k1 = Some (no_endpoint, no_endpoint) ∧ tx_endpoints_ k1 = [] ∧ rx_endpoints_ k1 = [] ∧
    threads_ k1 = ∅ ∧ endpoint_type_ k1 = libfabric_endpoint_type getenv) as (E1 & E2 & E3 & E4 & E5)
    by (destruct HS; done).
  change (av_ (base k0)) with (@None positive) in Hb. clear HS k0.
  apply wpx_bnd, wpx_get, wpx_bnd. rewrite Hb. apply wpx_ret, wpx_bnd, wpx_ret, wpx_bnd.
  apply (create_pre _ _ _ _ (av_open_creates _)). intros a u2 Ha Ea. apply wpx_bnd, wpx_modify, wpx_bnd.
  set (k2 := set_base _ _). eapply wpx_mono; [eapply (initialize_rx_pre _ d i a f [i] no_endpoint no_endpoint k2)|].
  { unfold k2. cbn. rewrite Ea. apply owns_cons; [done|done|set_solver]. }
  { done. } { unfold k2. cbn. by rewrite E5. }
  intros [] k3 (rx & He3 & Hrx & HO3 & HS3).
  assert (tx_endpoints_ k3 = [] ∧ rx_endpoints_ k3 = [] ∧ threads_ k3 = ∅ ∧
    endpoint_type_ k3 = libfabric_endpoint_type getenv ∧ base k3 = Fids (Some i) (Some f) (Some d) (Some a))
    as (F2 & F3 & F4 & F5 & F6) by (destruct HS3; unfold k2 in *; cbn in *; rewrite Hb in *; cbn in *; split_and!; congruence).
  clear HS3 k2. apply wpx_bnd.
  eapply wpx_mono; [apply (initialize_tx_pre d i a threads (handles rx ++ [a; d; f]) [i] rx k3);
    [set_solver|set_solver|done|done|done|congruence]|].
  intros [] k4 Htx. assert (endpoint_type_ k4 = libfabric_endpoint_type getenv) as Et4
    by (destruct Htx as (? & ? & Htx); destruct_and? Htx; congruence).
  destruct (tx_open_inv _ _ _ _ _ _ _ Htx F3 F4 F6) as (Hh & leaked & tx & HI).
  apply wpx_bnd, (get_eps_pre (tx, rx)); [apply HI|]. destruct Hrx as [r Hr]. cbn [snd]. rewrite Hr.
  apply wpx_bnd, enable_pre. intros u5 E6. apply wpx_bnd, wpx_ret, wpx_bnd, get_endpoint_address_pre.
  intros here k6 Hq. apply wpx_bnd, wpx_modify. eapply wpx_mono; [apply exchange_addresses_pre|].
  intros [] k7 Hq7. assert (quiet k4 k6) as Hq6 by (eapply quiet_trans; [by exists u5|done]).
  destruct Hq6 as (u6 & -> & E7), Hq7 as (u7 & -> & E8). cbn in E8. split_and!; [|done|done].
  exists leaked, tx, rx, i, f, d, a. destruct HI. by split; cbn; rewrite ?E8, ?E7.
Qed.
(** ** The endpoints of threads *)

Lemma held_in_insert (ts : gmap nat thread_endpoints) t e :
  held_in (<[t := e]> ts) ++ taken (default no_thread_endpoints (ts !! t)) ≡ₚ taken e ++ held_in ts.
Proof.
  unfold held_in. destruct (ts !! t) as [e0|] eqn:E; cbn.
  - rewrite <- (insert_delete_id ts t e0 E) at 2.
    rewrite <- insert_delete_eq, !map_to_list_insert by apply lookup_delete_eq. cbn. solve_Permutation.
  - rewrite map_to_list_insert by done. cbn. by rewrite app_nil_r.
Qed.

(** Endpoints change hands. *)
Lemma ctl_inv_perm leaked tx rx i f d a k k' :
  ctl_inv leaked tx rx i f d a k → eps_ k' = eps_ k → base k' = base k → prov k' = prov k →
  endpoint_type_ k' = endpoint_type_ k → wrappers k' ≡ₚ wrappers k →
  ctl_inv leaked tx rx i f d a k'.
Proof.
  intros [] He Hb Hp Ht Hw. split; rewrite ?He, ?Hb, ?Hp, ?Ht, ?Hw; try done.
  - intros w. rewrite Hw. apply ci_ep.
  - intros Hs. destruct (ci_context Hs) as (s & Hs' & HC). exists s. split; [done|]. intros w. rewrite Hw. apply HC.
Qed.

(** An empty slot of a thread holds nothing. *)
Lemma free_slot leaked tx rx i f d a k t e :
  ctl_inv leaked tx rx i f d a k → ep_ (endpoint_ e) = None →
  e = tl_tx_ (thread t k) ∨ e = tl_stx_ (thread t k) ∨ e = tl_srx_ (thread t k) → pooled e = [].
Proof.
  intros HI He Hs. unfold pooled. destruct (pool_ e) eqn:Hp; [|done]. exfalso.
  assert (endpoint_ e ∈ taken (thread t k)) as Hin.
  { unfold taken, pooled. destruct Hs as [->|[->| ->]]; rewrite Hp; set_solver. }
  assert (endpoint_ e ∈ wrappers k) as Hw.
  { unfold wrappers, held, held_in. rewrite !elem_of_app. right; right.
    unfold thread in Hin. destruct (threads_ k !! t) as [x|] eqn:E; cbn in Hin; [|set_solver].
    apply list_elem_of_bind. exists (t, x). split; [done|]. by apply elem_of_map_to_list. }
  apply (ci_ep _ _ _ _ _ _ _ _ HI) in Hw as [? ?]. congruence.
Qed.

(** What the threads do. *)
Inductive thread_op : Type := Take_tx (t : nat) | Take_rx (t : nat) | Exit (t : nat).

Definition run_op (o : thread_op) : M C unit :=
  match o with
  | Take_tx t => get_tx_endpoint t ;;; ret tt
  | Take_rx t => get_rx_endpoint t ;;; ret tt
  | Exit t => thread_exit t
  end.

(** An exception (an empty pool) leaves the state as it was. *)
Definition keeps (m : M C unit) k : Prop :=
  ∀ r k', m k = (r, k') →
    match r with
    | Ret _ => ready k' ∧ endpoint_type_ k' = endpoint_type_ k
    | Throw _ => k' = k
    | Halt h => h = terminated
    end.

Lemma keeps_pre (m : M C unit) k :
  wpx (λ h, h = terminated) (λ _, (m k).2 = k) m
    (λ _ k', ready k' ∧ endpoint_type_ k' = endpoint_type_ k) k → keeps m k.
Proof. intros Hp r k' E. unfold wpx in Hp. rewrite E in Hp. by destruct r. Qed.

Lemma thread_exit_keeps t k : ready k → keeps (thread_exit t) k.
Proof.
  intros (leaked & tx & rx & i & f & d & a & HI). apply keeps_pre. unfold thread_exit, push_tx, push_rx.
  apply wpx_bnd, wpx_get, wpx_bnd, wpx_modify.
  destruct (thread t k) as [[w1 p1] [w2 p2] [w3 p3]] eqn:Et. cbn [tl_tx_ tl_stx_ tl_srx_ pool_ endpoint_].
  pose proof (held_in_insert (threads_ k) t no_thread_endpoints) as Hh. change (default _ _) with (thread t k) in Hh.
  rewrite Et in Hh.
  destruct p1, p2, p3; (split; [exists leaked, tx, rx, i, f, d, a|done]);
    (eapply ctl_inv_perm; [done..|]); unfold wrappers, held; cbn in *; rewrite <- Hh; solve_Permutation.
Qed.

(** A thread's slot gets an endpoint of a pool. *)
Lemma take_inv leaked tx rx i f d a k k' t e :
  ctl_inv leaked tx rx i f d a k → eps_ k' = eps_ k → base k' = base k → prov k' = prov k →
  endpoint_type_ k' = endpoint_type_ k → threads_ k' = <[t := e]> (threads_ k) →
  (tx_endpoints_ k' ++ rx_endpoints_ k') ++ taken e ≡ₚ
    (tx_endpoints_ k ++ rx_endpoints_ k) ++ taken (thread t k) →
  ctl_inv leaked tx rx i f d a k'.
Proof.
  intros HI He Hb Hp Ht Hth Hw. apply (ctl_inv_perm _ _ _ _ _ _ _ _ _ HI); try done.
  unfold wrappers, held. rewrite Hth. pose proof (held_in_insert (threads_ k) t e) as Hh.
  change (default _ _) with (thread t k) in Hh. rewrite !app_assoc.
  apply (Permutation_app_inv_r (taken (thread t k))). rewrite <- app_assoc, Hh, app_assoc, Hw.
  solve_Permutation.
Qed.

Lemma get_rx_endpoint_keeps t k : ready k → keeps (get_rx_endpoint t ;;; ret tt) k.
Proof.
  intros (leaked & tx & rx & i & f & d & a & HI).
  assert (ready k) as Hready by by exists leaked, tx, rx, i, f, d, a.
  apply keeps_pre. unfold get_rx_endpoint, get_eps.
  apply wpx_bnd, wpx_bnd, wpx_bnd, wpx_get. rewrite (ci_eps _ _ _ _ _ _ _ _ HI). apply wpx_ret, wpx_bnd, wpx_get.
  destruct (endpoint_type_ k) eqn:Et; try done.
  destruct (ep_ (endpoint_ (tl_srx_ (thread t k)))) eqn:E; [done|].
  destruct (rx_endpoints_ k) as [|ep rest] eqn:Er.
  - apply wpx_throw. cbn. unfold get_rx_endpoint, get_eps, bnd, get, ret.
    rewrite (ci_eps _ _ _ _ _ _ _ _ HI), Et, E, Er. done.
  - apply wpx_bnd, wpx_modify, wpx_bnd, wpx_modify, wpx_ret, wpx_ret. split; [|done].
    exists leaked, tx, rx, i, f, d, a. eapply take_inv; [done..|]. cbn. rewrite Er.
    unfold taken. cbn. rewrite (free_slot _ _ _ _ _ _ _ _ t (tl_srx_ (thread t k)) HI E) by auto.
    solve_Permutation.
Qed.

Lemma own_tx_inv leaked tx rx i f d a k t e q u :
  ctl_inv leaked tx rx i f d a k → pair_open (open_objs k) (objs u) e q d {[a; d]} →
  ep_ (endpoint_ (tl_tx_ (thread t k))) = None → endpoint_type_ k = threadlocalTx →
  ctl_inv leaked tx rx i f d a
    (set_thread t (set_tl_tx (StackEndpoint (EndpointWrapper (Some e) None (Some q) "threadlocal") false) (thread t k))
      (set_pools (tx_endpoints_ k ++ [EndpointWrapper (Some e) None (Some q) "tx threadlocal"]) (rx_endpoints_ k)
        (set_prov u k))).
Proof.
  intros HI (He & Hq & Hne & Eu) Hslot Et. set (w := EndpointWrapper (Some e) None (Some q) "tx threadlocal").
  apply (take_inv _ _ _ _ _ _ _ (set_pools (tx_endpoints_ k ++ [w]) (rx_endpoints_ k) (set_prov u k)) _ t
    (set_tl_tx (StackEndpoint (EndpointWrapper (Some e) None (Some q) "threadlocal") false) (thread t k))); try done.
  - destruct HI. set (k' := set_pools _ _ _).
    assert (wrappers k' ≡ₚ w :: wrappers k) as Hw by (unfold wrappers, held; cbn; solve_Permutation).
    split; try done.
    + rewrite Hw. cbn. rewrite Eu. apply (owns_group _ _ _ _ _ _ _ ci_owns); [done..| |set_solver].
      set_solver.
    + intros w'. rewrite Hw. intros [->|Hin]%elem_of_cons; [by eexists|auto].
    + cbn. by rewrite Et.
  - unfold taken. change (thread t (set_pools _ _ _)) with (thread t k).
    by rewrite (free_slot _ _ _ _ _ _ _ _ t (tl_tx_ (thread t k)) HI Hslot) by auto.
Qed.

Lemma get_tx_endpoint_keeps t k : ready k → keeps (get_tx_endpoint t ;;; ret tt) k.
Proof.
  intros (leaked & tx & rx & i & f & d & a & HI).
  assert (ready k) as Hready by by exists leaked, tx, rx, i, f, d, a.
  assert (ep_ (endpoint_ (tl_stx_ (thread t k))) = None → ∀ ep rest, tx_endpoints_ k = ep :: rest →
    ready (set_thread t (set_tl_stx (StackEndpoint ep true) (thread t k)) (set_pools rest (rx_endpoints_ k) k)))
    as Htake.
  { intros E ep rest Er. exists leaked, tx, rx, i, f, d, a. eapply take_inv; [done..|]. cbn. rewrite Er.
    unfold taken. cbn. rewrite (free_slot _ _ _ _ _ _ _ _ t (tl_stx_ (thread t k)) HI E) by auto.
    solve_Permutation. }
  apply keeps_pre.
  assert (get_eps k = (Ret (tx, rx), k)) as Ee
    by (unfold get_eps, bnd, get, ret; by rewrite (ci_eps _ _ _ _ _ _ _ _ HI)).
  unfold get_tx_endpoint. apply wpx_bnd, wpx_bnd, (get_eps_pre (tx, rx)); [apply HI|]. apply wpx_bnd, wpx_get.
  destruct (endpoint_type_ k) eqn:Et; try done.
  2, 3: destruct (ep_ (endpoint_ (tl_stx_ (thread t k)))) eqn:E; [done|];
    destruct (tx_endpoints_ k) as [|ep rest] eqn:Er;
    [apply wpx_throw; unfold get_tx_endpoint; cbn beta; unfold bnd; rewrite Ee; cbn; by rewrite Et, E, Er|];
    apply wpx_bnd, wpx_modify, wpx_bnd, wpx_modify, wpx_ret, wpx_ret; split; [by apply Htake|done].
  destruct (ep_ (endpoint_ (tl_tx_ (thread t k)))) eqn:E; [done|]. unfold get_base.
  apply wpx_bnd, wpx_bnd, wpx_get. rewrite (ci_base _ _ _ _ _ _ _ _ HI).
  apply wpx_bnd, wpx_ret, wpx_bnd, wpx_ret, wpx_bnd, wpx_ret, wpx_ret, wpx_bnd, create_tx_endpoint_pre.
  intros e q u Hp. apply wpx_bnd, wpx_modify, wpx_bnd, wpx_modify, wpx_ret, wpx_ret.
  split; [exists leaked, tx, rx, i, f, d, a; by apply (own_tx_inv _ _ _ _ _ _ _ k t e q u)|done].
Qed.

Lemma run_op_keeps o k : ready k → keeps (run_op o) k.
Proof.
  destruct o; [apply get_tx_endpoint_keeps|apply get_rx_endpoint_keeps|apply thread_exit_keeps].
Qed.

(** ** The destructor *)

Lemma fidclose_returns h l infos k :
  owns (open_objs k) [] (h :: l) infos →
  ∃ u, fidclose h k = (Ret tt, set_prov u k) ∧ owns (objs u) [] l infos ∧
    ∀ x, x ≠ h → objs u !! x = open_objs k !! x.
Proof.
  intros HO. destruct (owns_close _ _ _ _ HO) as [HO' Hn]. unfold fidclose, prov_call, bnd, ret.
  destruct (fi_close h (prov k)) as [r u] eqn:E.
  destruct (close_closes h _ _ _ E) as [[Hin _]|(_ & -> & Eu)]; [|done|].
  - apply (ow_dom _ _ _ _ HO). set_solver.
  - exists u. split; [done|]. rewrite Eu. split; [done|]. intros x Hx. by apply lookup_delete_ne.
Qed.

(** A list of handles is closed: what remains, and that the others stay. *)
Definition closes (m : M C unit) (hs : list positive) k : Prop :=
  ∀ l infos, owns (open_objs k) [] (hs ++ l) infos →
  ∃ u, m k = (Ret tt, set_prov u k) ∧ owns (objs u) [] l infos ∧
    ∀ x, x ∉ hs → objs u !! x = open_objs k !! x.

Lemma closes_nil k : closes (ret tt) [] k.
Proof. intros l infos HO. exists (prov k). by destruct k. Qed.

Lemma closes_seq (m1 m2 : M C unit) h1 h2 k :
  closes m1 h1 k → (∀ k', closes m2 h2 k') → closes (m1 ;;; m2) (h1 ++ h2) k.
Proof.
  intros H1 H2 l infos HO. rewrite <- app_assoc in HO. destruct (H1 _ _ HO) as (u1 & E1 & HO1 & K1).
  destruct (H2 (set_prov u1 k) _ _ HO1) as (u2 & E2 & HO2 & K2). exists u2.
  rewrite (bnd_ret _ _ _ _ _ E1), E2. split_and!; [done..|]. intros x Hx.
  rewrite K2 by set_solver. apply K1. set_solver.
Qed.

Lemma close_if_closes p k : closes (close_if p) (handle p) k.
Proof.
  destruct p as [h|]; [|apply closes_nil]. intros l infos HO.
  destruct (fidclose_returns h l infos k HO) as (u & E & HO' & K). exists u. split_and!; [done..|]. set_solver.
Qed.

Lemma cleanup_closes w k : closes (cleanup w) (handles w) k.
Proof. apply closes_seq; [apply close_if_closes|]. intros. apply closes_seq; intros; apply close_if_closes. Qed.

Lemma cleanup_all_closes ws k : closes (mfor ws cleanup) (concat (handles <$> ws)) k.
Proof.
  revert k. induction ws as [|w ws IH]; intros k; [apply closes_nil|].
  apply (closes_seq (cleanup w)); [apply cleanup_closes|apply IH].
Qed.

(** The pools are closed first; endpoints that threads hold stay open. *)
Lemma cleanup_pools_closes leaked tx rx i f d a k :
  ctl_inv leaked tx rx i f d a k →
  ∃ u, cleanup_pools k = (Ret tt, set_pools [] [] (set_prov u k)) ∧
    owns (objs u) [] (concat (handles <$> held k) ++ handles tx ++ handles rx ++ [a; d; f]) (i :: leaked) ∧
    ∀ x, x ∉ concat (handles <$> tx_endpoints_ k ++ rx_endpoints_ k) → objs u !! x = open_objs k !! x.
Proof.
  intros HI. pose proof (owns_flatten _ _ _ _ (ci_owns _ _ _ _ _ _ _ _ HI)) as HO.
  unfold wrappers in HO. rewrite !fmap_app, !concat_app, (app_assoc (concat _)), <- app_assoc in HO.
  rewrite fmap_app, concat_app.
  destruct (closes_seq _ _ _ _ k (cleanup_all_closes (tx_endpoints_ k) k)
    (cleanup_all_closes (rx_endpoints_ k)) _ _ HO) as (u & E & HO' & K).
  exists u. split_and!; [|done|done]. unfold cleanup_pools.
  rewrite (bnd_ret get _ k k k eq_refl), <- bnd_assoc. by rewrite (bnd_ret _ _ _ _ _ E).
Qed.

Lemma destroy_returns leaked tx rx i f d a k :
  ctl_inv leaked tx rx i f d a k → held k = [] →
  ∃ k', destroy k = (Ret tt, k') ∧ owns (open_objs k') [] [] leaked.
Proof.
  intros HI Hh. destruct (cleanup_pools_closes _ _ _ _ _ _ _ _ HI) as (u & E & HO & _). rewrite Hh in HO. cbn in HO.
  unfold destroy. rewrite (bnd_ret _ _ _ _ _ E). set (k1 := set_pools _ _ _).
  assert (get_eps k1 = (Ret (tx, rx), k1)) as Ee
    by (unfold get_eps, bnd, get, k1; cbn; by rewrite (ci_eps _ _ _ _ _ _ _ _ HI)).
  rewrite (bnd_ret _ _ _ _ _ Ee). cbn [fst snd].
  destruct (cleanup_closes tx k1 _ _ HO) as (u2 & E2 & HO2 & _). rewrite (bnd_ret _ _ _ _ _ E2).
  destruct (cleanup_closes rx (set_prov u2 k1) _ _ HO2) as (u3 & E3 & HO3 & _). rewrite (bnd_ret _ _ _ _ _ E3).
  set (k3 := set_eps None (set_prov u3 (set_prov u2 k1))).
  rewrite (bnd_ret (modify _) _ _ tt k3 eq_refl), (bnd_ret get _ _ k3 k3 eq_refl).
  assert (base k3 = Fids (Some i) (Some f) (Some d) (Some a)) as -> by (unfold k3, k1; cbn; apply HI).
  cbn [deref av_ fabric_domain_ fabric_ fabric_info_].
  destruct (fidclose_returns a _ _ k3 HO3) as (u4 & E4 & HO4 & _).
  destruct (fidclose_returns d _ _ (set_prov u4 k3) HO4) as (u5 & E5 & HO5 & _).
  destruct (fidclose_returns f _ _ (set_prov u5 (set_prov u4 k3)) HO5) as (u6 & E6 & HO6 & _).
  repeat first [rewrite (bnd_ret _ _ _ _ _ E4)|rewrite (bnd_ret _ _ _ _ _ E5)|rewrite (bnd_ret _ _ _ _ _ E6)
               |rewrite (bnd_ret (ret _) _ _ _ _ eq_refl)].
  eexists. split; [done|]. cbn. rewrite freeinfo_frees. by apply owns_freeinfo.
Qed.

(** An object that is in use is not closed. *)
Lemma fidclose_busy h k :
  is_Some (open_objs k !! h) → in_use (open_objs k) h → (fidclose h k).1 = Halt terminated.
Proof.
  intros Hs Hu. unfold fidclose, prov_call, bnd. destruct (fi_close h (prov k)) as [r u] eqn:E.
  destruct (close_closes h _ _ _ E Hs) as [(_ & Hr & _)|[Hn _]]; [|done]. by destruct r.
Qed.

Lemma destroy_busy leaked tx rx i f d a k w :
  ctl_inv leaked tx rx i f d a k → w ∈ held k → endpoint_type_ k = scalableTx →
  (destroy k).1 = Halt terminated.
Proof.
  intros HI Hw Et. destruct (cleanup_pools_closes _ _ _ _ _ _ _ _ HI) as (u & E & HO & K).
  destruct (ci_context _ _ _ _ _ _ _ _ HI Et) as (s & Hs & HC).
  destruct (HC w) as (e & deps & He & Hl & Hin); [unfold wrappers; set_solver|].
  assert (objs u !! e = Some deps) as Hu.
  { rewrite K; [done|]. pose proof (ow_nodup _ _ _ _ (ci_owns _ _ _ _ _ _ _ _ HI)) as Hnd.
    unfold wrappers in Hnd. rewrite (app_assoc (tx_endpoints_ k)), fmap_app, concat_app, <- app_assoc in Hnd.
    apply NoDup_app in Hnd as (_ & Hd & _). intros Hc. apply (Hd e Hc), elem_of_app. left.
    apply (elem_of_group _ (handles w)); [by apply list_elem_of_fmap_2|]. unfold handles. rewrite He. set_solver. }
  unfold destroy. rewrite (bnd_ret _ _ _ _ _ E). set (k1 := set_pools _ _ _).
  assert (get_eps k1 = (Ret (tx, rx), k1)) as Ee
    by (unfold get_eps, bnd, get, k1; cbn; by rewrite (ci_eps _ _ _ _ _ _ _ _ HI)).
  rewrite (bnd_ret _ _ _ _ _ Ee). unfold cleanup. cbn [fst]. rewrite Hs, bnd_assoc. cbn [close_if].
  unfold bnd at 1. pose proof (fidclose_busy s k1) as Hb. destruct (fidclose s k1) as [r k2].
  cbn in Hb. rewrite Hb; [done| |by exists e, deps].
  apply (ow_dom _ _ _ _ HO). rewrite !elem_of_app. right; left; right; left. unfold handles. rewrite Hs. set_solver.
Qed.

(** ** The life of a controller *)

Section life.
Context (size0 : nat) (local : nat → Z) (exchange : list Z → list Z) (needs_dummy_cq : bool) (getenv : string → option string).

(** A controller after [initialize] and operations of threads. *)
Inductive live : C → Prop :=
| live_init u size threads k :
    objs u = ∅ →
    initialize size0 local exchange needs_dummy_cq getenv size threads (constructed u ∅) = (Ret tt, k) →
    live k
| live_op o r k k' : live k → run_op o k = (r, k') → (∀ h, r ≠ Halt h) → live k'.

Lemma live_ready k :
  libfabric_endpoint_type getenv ≠ scalableTxRx → live k →
  ready k ∧ endpoint_type_ k = libfabric_endpoint_type getenv.
Proof.
  intros Hn. induction 1 as [u size threads k Hu E|o r k k' _ [Hr Ht] E Hh].
  - destruct (wpx_inv _ _ _ _ _ _ _ (initialize_pre _ _ _ _ _ _ _ _ Hu Hn) E) as (? & _ & ?). done.
  - specialize (run_op_keeps o k Hr r k' E). destruct r as [[]|x|h]; [|by intros ->|naive_solver].
    intros [??]. split; [done|congruence].
Qed.

(** C7: When no thread holds an endpoint of a pool, the destructor of the
    controller returns: it closes every endpoint, queue, address vector, domain
    and fabric that was opened, each after the objects that use it. Nothing
    stays open but, with a scalable endpoint, one info structure that is never
    freed. *)
Theorem lf_destroy_closes_all k :
  libfabric_endpoint_type getenv ≠ scalableTxRx → live k → held k = [] →
  ∃ k', destroy k = (Ret tt, k') ∧
    size (open_objs k') = if decide (libfabric_endpoint_type getenv = scalableTx) then 1 else 0.
Proof.
  intros Hn Hl Hh. destruct (live_ready k Hn Hl) as [(leaked & tx & rx & i & f & d & a & HI) Ht].
  destruct (destroy_returns _ _ _ _ _ _ _ _ HI Hh) as (k' & E & HO). exists k'. split; [done|].
  rewrite <- Ht, <- (ci_leaked _ _ _ _ _ _ _ _ HI), (owns_size _ _ _ _ HO). done.
Qed.

(** With a scalable endpoint, the destructor terminates the program when a
    thread that has sent is still alive: its context keeps the scalable endpoint
    busy. *)
Theorem lf_destroy_busy_terminates k :
  libfabric_endpoint_type getenv = scalableTx → live k → held k ≠ [] →
  (destroy k).1 = Halt terminated.
Proof.
  intros Hs Hl Hh. destruct (live_ready k) as [(leaked & tx & rx & i & f & d & a & HI) Ht]; [congruence|done|].
  destruct (held k) as [|w ws] eqn:E; [done|].
  apply (destroy_busy _ _ _ _ _ _ _ _ w HI); [rewrite E; set_solver|congruence].
Qed.

(** [initialize] never returns for the endpoint type scalableTxRx: it enables
    the receive endpoint, which that type does not create. *)
Theorem lf_scalable_rx_unusable u size threads k :
  objs u = ∅ → libfabric_endpoint_type getenv = scalableTxRx →
  initialize size0 local exchange needs_dummy_cq getenv size threads (constructed u ∅) ≠ (Ret tt, k).
Proof.
  intros Hu Het E. unfold initialize in E.
  apply bnd_inv in E as ([] & k1 & [= <-] & E). apply bnd_inv in E as ([] & k2 & [= <-] & E).
  apply bnd_inv in E as ([] & k3 & Eo & E).
  eapply wpx_inv in Eo; [|apply open_fabric_pre; cbn; rewrite Hu; apply owns_empty].
  destruct Eo as (i & f & d & Hb & HO & HS).
  pose proof (sm_eps _ _ HS) as He. pose proof (sm_type _ _ HS) as Ht. pose proof (sm_tx _ _ HS) as Htx.
  cbn in He, Ht, Htx. rewrite Het in Ht.
  apply bnd_inv in E as (k3' & k4 & [= <- <-] & E). rewrite Hb in E.
  apply bnd_inv in E as (d' & k4 & [= <- <-] & E). apply bnd_inv in E as (i' & k4 & [= <- <-] & E).
  apply bnd_inv in E as (a & k4 & Ea & E).
  eapply wpx_inv in Ea; [|apply (create_pre (X := λ _, True) _ _ (λ a k', open_objs k3 !! a = None ∧
    ∃ u, k' = set_prov u k3 ∧ objs u = <[a := {[d]}]> (open_objs k3)) _ (av_open_creates d)); eauto].
  destruct Ea as (Ha & u4 & -> & Eu).
  apply bnd_inv in E as ([] & k5 & [= <-] & E). apply bnd_inv in E as ([] & k6 & Erx & E).
  unfold initialize_rx, bnd, get in Erx. cbn in Erx. rewrite Ht in Erx. injection Erx as <-.
  apply bnd_inv in E as ([] & k7 & Etx & E).
  unfold initialize_tx in Etx. apply bnd_inv in Etx as (k6 & k6' & [= <- <-] & Etx). cbn in Etx. rewrite Ht in Etx.
  eapply wpx_inv in Etx; [|eapply (scalable_pre _ _ _ _ [a; d; f] [i]); [set_solver|set_solver| |done|done]].
  2: { cbn. rewrite Eu. apply owns_cons; [done|done|set_solver]. }
  destruct Etx as [[tx He7] _]. unfold get_eps, bnd at 1 2, get at 1 in E. by rewrite He7 in E.
Qed.
End life.
End api.

(** ** The exchange of localities *)

Section exchange.
Context (n : nat).
Implicit Types heres : list (list Z).
Abbreviation sized heres := (Forall (λ here, length here = n) heres).

Lemma length_concat_sized heres : sized heres → length (concat heres) = length heres * n.
Proof. induction 1 as [|h l E _ IH]; cbn; [done|]. rewrite length_app, E, IH. lia. Qed.

(** After the first ranks, the rest of the buffer is untouched. *)
Lemma gather_prefix heres N :
  sized heres → length heres ≤ N →
  foldl (λ buf '(i, here), write_at (i * n) here buf) (replicate (N * n) 0%Z) (imap pair heres) =
  concat heres ++ replicate ((N - length heres) * n) 0%Z.
Proof.
  induction heres as [|h heres IH] using rev_ind; intros Hs HN; cbn; [by rewrite Nat.sub_0_r|].
  apply Forall_app in Hs as [Hs [Hh _]%Forall_cons]. rewrite length_app in *. cbn in HN.
  rewrite imap_app, foldl_app, IH by (done || lia). cbn. rewrite Nat.add_0_r. unfold write_at.
  rewrite take_app_length' by by rewrite length_concat_sized.
  rewrite drop_app_ge, length_concat_sized by (done || rewrite length_concat_sized by done; lia).
  rewrite concat_app, drop_replicate, <- app_assoc. cbn. rewrite app_nil_r. repeat f_equal. nia.
Qed.

Lemma gather_concat heres : sized heres → gather_localities n heres = concat heres.
Proof.
  intros Hs. unfold gather_localities. rewrite gather_prefix by done.
  by rewrite Nat.sub_diag, Nat.mul_0_l, app_nil_r.
Qed.

Lemma locality_at_concat heres i here :
  sized heres → heres !! i = Some here → locality_at n (concat heres) i = here.
Proof.
  intros Hs. revert i. induction Hs as [|h l E Hl IH]; intros [|i] Hi; simplify_eq/=; unfold locality_at in *; cbn.
  - by rewrite drop_0, take_app_length.
  - rewrite <- drop_drop, drop_app_length' by done. by apply IH.
Qed.

(** C23: The buffer of localities that rank 0 fills, and every rank receives, gives
    back each rank's own address at that rank's position; inserting it enters
    the addresses into the address vector in rank order. *)
Theorem lf_exchange_roundtrip `{Provider} heres av k :
  sized heres →
  (∀ i here, heres !! i = Some here → locality_at n (gather_localities n heres) i = here) ∧
  populate_av n av (gather_localities n heres) (length heres) k =
    mfor heres (λ here, insert_address av here ;;; ret tt) k.
Proof.
  intros Hs. rewrite gather_concat by done. split; [intros; by apply locality_at_concat|].
  apply mfor_seq. intros i here k' Hi. change (0 + i) with i. by rewrite (locality_at_concat heres i here).
Qed.
End exchange.
