(* ===== verification/LfControllerExamples.v ===== *)
(** * A provider for the controller, and its life on it

    A provider that only keeps the open objects satisfies the laws; on it the
    theorems about the controller apply. *)
From S2P Require Import Prelude LfEnv LfController LfResources LfControllerInv LfControllerApi.

Definition opened (deps : gset positive) (m : obj_map) : option positive * obj_map :=
  let h := fresh (dom m) in (Some h, <[h := deps]> m).

Definition used (m : obj_map) (h : positive) : bool :=
  existsb (λ x : positive * gset positive, bool_decide (h ∈ x.2)) (map_to_list m).

#[local] Instance toy_provider : Provider := {
  prov_st := obj_map;
  fi_allocinfo := opened ∅;
  fi_getinfo _ := opened ∅;
  fi_dupinfo _ := opened ∅;
  fi_freeinfo h := delete h;
  fi_fabric _ := opened ∅;
  fi_domain f _ := opened {[f]};
  fi_av_open d := opened {[d]};
  fi_cq_open d _ := opened {[d]};
  fi_endpoint d _ := opened {[d]};
  fi_scalable_ep d _ _ := opened {[d]};
  fi_tx_context e _ := opened {[e]};
  fi_ep_bind e x m := (true, alter (λ d, {[x]} ∪ d) e m);
  fi_enable _ m := (true, m);
  fi_close h m := if used m h then (Close_busy, m) else (Close_ok, delete h m);
  fi_getname _ m := ((true, [1%Z; 2%Z]), m);
  fi_av_insert _ _ m := ((1%Z, 0%Z), m);
  fi_av_lookup _ _ m := ((true, 2%Z), m);
  tx_ctx_cnt _ _ := 2;
  inject_size _ _ := 64%Z;
  tx_attr_size _ _ := 1024%Z;
  rx_attr_size _ _ := 1024%Z
}.

Lemma used_spec m h : used m h = true ↔ in_use m h.
Proof.
  unfold used, in_use. rewrite existsb_exists. split.
  - intros ([h' d] & Hin & Hd). apply bool_decide_eq_true in Hd. exists h', d. split; [|done].
    by apply elem_of_map_to_list, list_elem_of_In.
  - intros (h' & d & Hm & Hd). exists (h', d). split; [by apply list_elem_of_In, elem_of_map_to_list|].
    by apply bool_decide_eq_true.
Qed.

Lemma opened_creates (objs : obj_map → obj_map) deps :
  (∀ m, objs m = m) → creates (H := toy_provider) objs (opened deps) deps.
Proof.
  intros Ho u r u' [= <- <-]. rewrite !Ho. split; [|done]. apply not_elem_of_dom, is_fresh.
Qed.

#[local] Instance toy_laws : ProviderLaws.
Proof.
  refine {| objs := λ m : @prov_st toy_provider, m : obj_map |};
    intros; try (by apply opened_creates); try done; cbn in *.
  - by simplify_eq.
  - rename H into E. destruct (used u h) eqn:Eu; simplify_eq; [left|right].
    + by rewrite used_spec in Eu.
    + split_and!; [|done..]. rewrite <- used_spec. congruence.
Defined.

(** Nothing is open. *)
Definition nothing : @prov_st toy_provider := (∅ : obj_map).

(** One rank of two bytes, two threads. *)
Definition env (s t : string) : option string :=
  if decide (t = "LIBFABRIC_ENDPOINT_TYPE") then Some s else None.

Definition start (ep : string) : outcome unit * controller :=
  initialize 2 (λ _, 0%Z) (λ here, here) false (env ep) 1 2 (constructed nothing ∅).

Abbreviation alive ep := (live 2 (λ _, 0%Z) (λ here, here) false (env ep)).

Lemma with_outcome {A B} (p : A * B) a : p.1 = a → p = (a, p.2).
Proof. destruct p. cbn. congruence. Qed.

Lemma start_alive ep : (start ep).1 = Ret tt → alive ep (start ep).2.
Proof.
  unfold start. destruct (initialize _ _ _ _ _ _ _ _) as [r k] eqn:Ek. cbn [fst snd]. intros ->.
  exact (live_init _ _ _ _ _ nothing 1 2 k eq_refl Ek).
Qed.

(** A thread sends, and ends. *)
Definition sent (ep : string) : controller := (run_op (Take_tx 7) (start ep).2).2.
Definition ended (ep : string) : controller := (run_op (Exit 7) (sent ep)).2.

Lemma sent_alive ep :
  (start ep).1 = Ret tt → (run_op (Take_tx 7) (start ep).2).1 = Ret tt → alive ep (sent ep).
Proof.
  intros E1 E2. apply (live_op _ _ _ _ _ (Take_tx 7) (Ret tt) (start ep).2).
  - exact (start_alive ep E1).
  - exact (with_outcome _ _ E2).
  - discriminate.
Qed.

Lemma ended_alive ep :
  (start ep).1 = Ret tt → (run_op (Take_tx 7) (start ep).2).1 = Ret tt →
  (run_op (Exit 7) (sent ep)).1 = Ret tt → alive ep (ended ep).
Proof.
  intros E1 E2 E3. apply (live_op _ _ _ _ _ (Exit 7) (Ret tt) (sent ep)).
  - exact (sent_alive ep E1 E2).
  - exact (with_outcome _ _ E3).
  - discriminate.
Qed.

(** A thread has used a scalable endpoint and has ended: one info stays. *)
Lemma lf_destroy_closes_all_witness :
  ∃ k', destroy (ended "scalableTx") = (Ret tt, k') ∧ size (objs (prov k')) = 1.
Proof.
  apply (lf_destroy_closes_all 2 (λ _, 0%Z) (λ here, here) false (env "scalableTx") (ended "scalableTx")).
  - by vm_compute.
  - apply ended_alive; by vm_compute.
  - by vm_compute.
Defined.

(** The thread has not ended. *)
Lemma lf_destroy_busy_terminates_witness : (destroy (sent "scalableTx")).1 = Halt terminated.
Proof.
  apply (lf_destroy_busy_terminates 2 (λ _, 0%Z) (λ here, here) false (env "scalableTx")).
  - by vm_compute.
  - apply sent_alive; by vm_compute.
  - by vm_compute.
Defined.

Lemma lf_scalable_rx_unusable_witness : ∀ k, start "scalableTxRx" ≠ (Ret tt, k).
Proof.
  intros k. apply (lf_scalable_rx_unusable 2 (λ _, 0%Z) (λ here, here) false (env "scalableTxRx") nothing 1 2 k).
  - done.
  - by vm_compute.
Defined.

Lemma lf_exchange_roundtrip_witness :
  locality_at 2 (gather_localities 2 [[1%Z; 2%Z]; [3%Z; 4%Z]]) 1 = [3%Z; 4%Z].
Proof.
  apply (lf_exchange_roundtrip 2 [[1%Z; 2%Z]; [3%Z; 4%Z]] 1%positive (start "multiple").2); [|done].
  by repeat constructor.
Defined.

(** The other endpoint types. *)
Example destroy_multiple : size (objs (prov (destroy (ended "multiple")).2)) = 0.
Proof. by vm_compute. Qed.
Example destroy_threadlocal : size (objs (prov (destroy (sent "threadlocal")).2)) = 0.
Proof. by vm_compute. Qed.
