(* ===== verification/LfMemory.v ===== *)
(** * Registered memory of the libfabric backend

    Model of src/src/libfabric/memory_region.hpp: handles, segments that register
    their memory when they are constructed and deregister it when they are
    destroyed, their moves, and [context_impl::make_region].  Segments are
    variables of a program; the registration of memory is a parameter.  Null
    pointers are [None], or 0 for an address. *)
From S2P Require Import Prelude.

(** ** Registration *)

(** [fi_mr_attr] as far as the code sets it. *)
Inductive hmem_iface : Type := FI_HMEM_SYSTEM | FI_HMEM_CUDA | FI_HMEM_ROCR.
Record mr_attr : Type := MrAttr {
  iov_base : Z;
  iov_len : Z;
  access : Z;
  offset : Z;
  requested_key : Z;
  iface : hmem_iface;
  device : Z
}.

(** [fi_mr_regattr] yields none if it fails; [fi_mr_bind], [fi_mr_enable] and
    [fi_close] report success. *)
Class Registrar : Type := {
  reg_st : Type;
  FI_READ : Z;
  FI_WRITE : Z;
  FI_RECV : Z;
  FI_SEND : Z;
  fi_mr_regattr : Z → mr_attr → reg_st → option positive * reg_st;
  fi_mr_bind : positive → Z → reg_st → bool * reg_st;
  fi_mr_enable : positive → reg_st → bool * reg_st;
  fi_mr_close : positive → reg_st → bool * reg_st;
  (** [hwmalloc::get_device_id()] *)
  get_device_id : reg_st → Z
}.

(** ** Data *)

Record memory_handle : Type := MemoryHandle {
  address_ : Z;
  region_ : option positive;
  size_ : Z;
  used_space_ : Z
}.

Record memory_segment : Type := MemorySegment {
  seg_handle : memory_handle;
  base_addr_ : Z
}.

(** The build: no device support, CUDA, HIP. *)
Inductive device_support : Type := No_device | Device_cuda | Device_hip.

(** [key]: the static counter of the constructor, a [uint64_t]; [segs]: the
    segments that are alive. *)
Record mem `{Registrar} : Type := Mem {
  registrar : reg_st;
  key : Z;
  segs : gmap nat memory_segment
}.

(** ** Handles *)

Definition no_handle : memory_handle := MemoryHandle 0 None 0 0.
(** [memory_handle(region, addr, size)] *)
Definition make_handle (region : option positive) (addr size : Z) : memory_handle :=
  MemoryHandle addr region (u32 size) 0.
(** What a move leaves in the source, and gives to the target. *)
Definition moved_from (h : memory_handle) : memory_handle :=
  MemoryHandle (address_ h) None (size_ h) (used_space_ h).
Definition release_region (h : memory_handle) : memory_handle := moved_from h.
Definition set_message_length (length : Z) (h : memory_handle) : memory_handle :=
  MemoryHandle (address_ h) (region_ h) (size_ h) (u32 length).
Definition set_region (r : option positive) (h : memory_handle) : memory_handle :=
  MemoryHandle (address_ h) r (size_ h) (used_space_ h).

Section segments.
Context `{Registrar}.
Variable dev : device_support.
Abbreviation S := mem.
Implicit Types m : S.

Definition reg_call {A} (f : reg_st → A * reg_st) : M S A := λ m,
  let '(a, u) := f (registrar m) in (Ret a, Mem _ u (key m) (segs m)).
Definition get_seg (v : nat) : M S memory_segment :=
  let! m := get in
  match segs m !! v with Some s => ret s | None => stop undefined_behaviour end.
Definition set_seg (v : nat) (s : memory_segment) : M S unit :=
  modify (λ m, Mem _ (registrar m) (key m) (<[v := s]> (segs m))).
(** A variable comes to life once. *)
Definition new_seg (v : nat) (s : memory_segment) : M S unit :=
  let! m := get in
  match segs m !! v with Some _ => stop undefined_behaviour | None => set_seg v s end.

Definition access_flags : Z := Z.lor (Z.lor (Z.lor FI_READ FI_WRITE) FI_RECV) FI_SEND.

(** The attributes of a registration; [d] is the current device. *)
Definition attributes (device_id buf len offset request_key d : Z) : mr_attr :=
  let attr := MrAttr buf len access_flags offset request_key FI_HMEM_SYSTEM 0 in
  if (device_id <? 0)%Z then attr
  else
    match dev with
    | No_device => attr
    | Device_cuda => MrAttr buf len access_flags offset request_key FI_HMEM_CUDA d
    | Device_hip => MrAttr buf len access_flags offset request_key FI_HMEM_ROCR d
    end.

(** A failure raises a [fabric_error], which terminates the program. *)
Definition fi_register_memory (pd device_id buf len offset request_key : Z) : M S positive :=
  let! m := get in
  let! r := reg_call (fi_mr_regattr pd
              (attributes device_id buf len offset request_key (get_device_id (registrar m)))) in
  match r with Some r => ret r | None => stop terminated end.

Definition checked (f : reg_st → bool * reg_st) : M S unit :=
  let! ok := reg_call f in if ok : bool then ret tt else stop terminated.

(** [key++] *)
Definition next_key : M S Z :=
  let! m := get in
  modify (λ m, Mem _ (registrar m) (u64 (key m + 1)) (segs m)) ;;;
  ret (key m).

(** [memory_segment v(pd, buffer, length, bind_mr, ep, device_id)] *)
Definition construct (v : nat) (pd buffer length : Z) (bind_mr : bool) (ep device_id : Z) : M S unit :=
  let! k := next_key in
  let! r := fi_register_memory pd device_id buffer length 0 k in
  (if bind_mr then checked (fi_mr_bind r ep) ;;; checked (fi_mr_enable r) else ret tt) ;;;
  new_seg v (MemorySegment (MemoryHandle buffer (Some r) (u32 length) (u32 length)) buffer).

(** [memory_segment v(std::move(o))] *)
Definition move_construct (v o : nat) : M S unit :=
  let! s := get_seg o in
  set_seg o (MemorySegment (moved_from (seg_handle s)) 0) ;;;
  new_seg v s.

(** [v = std::move(o)]: the first statement moves the handle of [o] into a
    temporary; the second one then takes a null pointer. *)
Definition move_assign (v o : nat) : M S unit :=
  let! s := get_seg o in
  set_seg o (MemorySegment (moved_from (seg_handle s)) (base_addr_ s)) ;;;
  let! s' := get_seg o in
  let region := region_ (seg_handle s') in
  set_seg o (MemorySegment (set_region None (seg_handle s')) (base_addr_ s')) ;;;
  let! t := get_seg v in
  set_seg v (MemorySegment (set_region region (seg_handle t)) (base_addr_ t)).

(** 0 when successful, -1 otherwise. *)
Definition deregister (v : nat) : M S Z :=
  let! s := get_seg v in
  match region_ (seg_handle s) with
  | None => ret 0%Z
  | Some r =>
      let! ok := reg_call (fi_mr_close r) in
      if ok : bool then
        set_seg v (MemorySegment (set_region None (seg_handle s)) (base_addr_ s)) ;;; ret 0%Z
      else ret (-1)%Z
  end.

(** [~memory_segment] *)
Definition destruct_segment (v : nat) : M S unit :=
  deregister v ;;;
  modify (λ m, Mem _ (registrar m) (key m) (delete v (segs m))).

Definition get_handle (v : nat) (offset size : Z) : M S memory_handle :=
  let! s := get_seg v in
  ret (make_handle (region_ (seg_handle s)) (base_addr_ s + offset) size).

(** [context_impl::make_region]; [mrbind] is a flag of the controller, [ep] its
    receive endpoint. *)
Definition make_region (v : nat) (domain : Z) (mrbind : bool) (ep ptr size device_id : Z) : M S unit :=
  if mrbind then construct v domain ptr size true ep device_id
  else construct v domain ptr size false 0 device_id.
End segments.
