(* ===== verification/LfMemoryInv.v ===== *)
(** * Registered memory is deregistered once

    Every region belongs to one segment, handles stay inside the memory their
    segment registered, and move assignment loses regions. *)
From S2P Require Import Prelude LfMemory.

(** A registration covers a range of memory; closing it ends it.  A region that
    is registered can be closed. *)
Class RegistrarLaws `{Registrar} : Type := {
  regions : reg_st → gmap positive (Z * Z);
  regattr_registers pd a u r u' :
    fi_mr_regattr pd a u = (r, u') →
    match r with
    | Some r => regions u !! r = None ∧ regions u' = <[r := (iov_base a, iov_len a)]> (regions u)
    | None => regions u' = regions u
    end;
  mr_bind_keeps r e u : regions (fi_mr_bind r e u).2 = regions u;
  mr_enable_keeps r u : regions (fi_mr_enable r u).2 = regions u;
  mr_close_closes r u :
    is_Some (regions u !! r) →
    (fi_mr_close r u).1 = true ∧ regions (fi_mr_close r u).2 = delete r (regions u)
}.

Section inv.
Context `{Registrar, !RegistrarLaws}.
Variable dev : device_support.
Abbreviation S := mem.
Implicit Types m : S.

Abbreviation open_regions m := (regions (registrar m)).
(** Segment [v] holds region [r]. *)
Definition holds m (v : nat) (r : positive) (s : memory_segment) : Prop :=
  segs m !! v = Some s ∧ region_ (seg_handle s) = Some r.

(** [lost]: the regions that move assignment has lost. *)
Record mem_inv (lost : gset positive) m : Prop := {
  mi_held r : is_Some (open_regions m !! r) ↔ (∃ v s, holds m v r s) ∨ r ∈ lost;
  mi_lost v r s : holds m v r s → r ∉ lost;
  mi_once v v' r s s' : holds m v r s → holds m v' r s' → v = v';
  mi_range v r s : holds m v r s →
    ∃ len, open_regions m !! r = Some (base_addr_ s, len) ∧ size_ (seg_handle s) = u32 len
}.

Inductive seg_op : Type :=
| Construct (v : nat) (pd buffer length : Z) (bind_mr : bool) (ep device_id : Z)
| Move_construct (v o : nat)
| Move_assign (v o : nat)
| Destruct (v : nat).

Definition run_seg (o : seg_op) : M S unit :=
  match o with
  | Construct v pd buffer length bind_mr ep device_id =>
      construct dev v pd buffer length bind_mr ep device_id
  | Move_construct v o => move_construct v o
  | Move_assign v o => move_assign v o
  | Destruct v => destruct_segment v
  end.

(** The region of a segment, and the regions an operation loses: those of both sides of
    a move assignment. *)
Definition region_of m (v : nat) : gset positive :=
  match segs m !! v ≫= (λ s, region_ (seg_handle s)) with Some r => {[r]} | None => ∅ end.
Definition loses (o : seg_op) m : gset positive :=
  match o with Move_assign v o => region_of m v ∪ region_of m o | _ => ∅ end.

(** ** The operations keep the invariant *)

(** A region becomes known to the segment that holds it. *)
Lemma inv_add lost m m' v r buf len :
  mem_inv lost m → open_regions m !! r = None → segs m !! v = None →
  open_regions m' = <[r := (buf, len)]> (open_regions m) →
  segs m' = <[v := MemorySegment (MemoryHandle buf (Some r) (u32 len) (u32 len)) buf]> (segs m) →
  mem_inv lost m'.
Proof.
  intros [Hh Hl Ho Hr] Hnr Hv ER ES.
  assert (∀ v' r' s', holds m' v' r' s' ↔ holds m v' r' s' ∨
    (v' = v ∧ r' = r ∧ s' = MemorySegment (MemoryHandle buf (Some r) (u32 len) (u32 len)) buf)) as Hm.
  { intros v' r' s'. unfold holds. rewrite ES, lookup_insert_Some. naive_solver. }
  apply (eq_None_not_Some _) in Hnr. rewrite Hh in Hnr.
  assert (∀ v' s', ¬ holds m v' r s') as Hn by (intros v' s' Hs; apply Hnr; eauto).
  split.
  - intros r'. rewrite ER, lookup_insert_is_Some', Hh. setoid_rewrite Hm. naive_solver.
  - intros v' r' s'. rewrite Hm. intros [Hs|(-> & -> & ->)]; [by eapply Hl|]. auto.
  - intros v1 v2 r' s1 s2. rewrite !Hm. intros [H1|(-> & -> & ->)] [H2|(-> & ? & ->)]; subst; naive_solver.
  - intros v' r' s'. rewrite Hm, ER. intros [Hs|(-> & -> & ->)].
    + destruct (Hr _ _ _ Hs) as (l & Hl' & El). exists l. rewrite lookup_insert_ne; [done|]. intros ->. by eapply Hn.
    + exists len. by rewrite lookup_insert_eq.
Qed.

Lemma construct_inv lost m m' v pd buf len b ep d :
  mem_inv lost m → construct dev v pd buf len b ep d m = (Ret tt, m') → mem_inv lost m'.
Proof.
  intros HI E. unfold construct, next_key in E.
  apply bnd_inv in E as (k & m1 & [= <- <-] & E).
  apply bnd_inv in E as (r & m2 & E2 & E). unfold fi_register_memory in E2.
  apply bnd_inv in E2 as (m1' & m1'' & [= <- <-] & E2).
  apply bnd_inv in E2 as (o & m3 & E3 & E4). destruct o as [r'|]; [|done]. injection E4 as -> ->.
  unfold reg_call in E3. cbn in E3. destruct (fi_mr_regattr _ _ _) as [o u] eqn:Eu. injection E3 as -> <-.
  apply regattr_registers in Eu as [Hn Hu].
  assert (iov_base (attributes dev d buf len 0 (key m) (get_device_id (registrar m))) = buf ∧
    iov_len (attributes dev d buf len 0 (key m) (get_device_id (registrar m))) = len) as [Eb El]
    by (unfold attributes; destruct (_ <? _)%Z, dev; done).
  rewrite Eb, El in Hu. cbn in E. apply bnd_inv in E as ([] & m4 & E4 & E).
  assert (open_regions m4 = <[r := (buf, len)]> (open_regions m) ∧ segs m4 = segs m) as [H4 S4].
  { destruct b; [|by injection E4 as <-]. apply bnd_inv in E4 as ([] & m5 & E5 & E6).
    unfold checked, reg_call, bnd in E5, E6. cbn in E5.
    pose proof (mr_bind_keeps r ep u) as Hb. destruct (fi_mr_bind r ep u) as [[] u5]; [|done]. injection E5 as <-.
    cbn in E6, Hb. pose proof (mr_enable_keeps r u5) as He. destruct (fi_mr_enable r u5) as [[] u6]; [|done].
    injection E6 as <-. cbn in *. by rewrite He, Hb. }
  unfold new_seg in E. apply bnd_inv in E as (m4' & m4'' & [= <- <-] & E). rewrite S4 in E.
  destruct (segs m !! v) eqn:Ev; [done|]. injection E as <-. cbn.
  eapply (inv_add lost m); [done|done|exact Ev|exact H4|]. cbn. by rewrite S4.
Qed.

Lemma move_construct_inv lost m m' v o :
  mem_inv lost m → move_construct v o m = (Ret tt, m') → mem_inv lost m'.
Proof.
  intros [Hh Hl Ho Hr] E. unfold move_construct, get_seg, new_seg in E.
  apply bnd_inv in E as (s & m1 & E1 & E). apply bnd_inv in E1 as (m0 & m0' & [= <- <-] & E1).
  destruct (segs m !! o) as [s0|] eqn:Eo; [|done]. injection E1 as -> <-.
  apply bnd_inv in E as ([] & m2 & [= <-] & E). apply bnd_inv in E as (m0 & m0' & [= <- <-] & E). cbn in E.
  destruct (<[o := _]> (segs m) !! v) eqn:Ev; [done|]. injection E as <-.
  apply lookup_insert_None in Ev as [Ev Hne].
  set (m' := Mem _ _ _ _). set (f := λ v', if decide (v' = o) then v else v').
  assert (∀ v' r' s', holds m' v' r' s' ↔ ∃ v0, holds m v0 r' s' ∧ v' = f v0) as Hm.
  { intros v' r' s'. unfold holds, m', f. cbn. rewrite lookup_insert_Some. split.
    - intros [[(<- & <-)|(Hv & Hs)] HR]; [exists o; by rewrite decide_True|].
      apply lookup_insert_Some in Hs as [(<- & <-)|(Ho' & Hs)]; [done|]. exists v'. by rewrite decide_False.
    - intros (v0 & (Hs & HR) & ->). case_decide as Hd.
      + subst. rewrite Eo in Hs. injection Hs as ->. auto.
      + split; [|done]. right. split; [congruence|]. apply lookup_insert_Some. right. done. }
  split.
  - intros r'. cbn. rewrite Hh. setoid_rewrite Hm. naive_solver.
  - intros v' r' s'. rewrite Hm. intros (v0 & Hs & _). by eapply Hl.
  - intros v1 v2 r' s1 s2. rewrite !Hm. intros (w1 & H1 & ->) (w2 & H2 & ->). f_equal. by eapply Ho.
  - intros v' r' s'. rewrite Hm. intros (v0 & Hs & _). by apply (Hr v0).
Qed.

(** Neither side of a move assignment holds a region afterwards. *)
Lemma move_assign_inv lost m m' v o :
  mem_inv lost m → move_assign v o m = (Ret tt, m') → mem_inv (lost ∪ (region_of m v ∪ region_of m o)) m'.
Proof.
  intros [Hh Hl Ho Hr] E. assert (open_regions m' = open_regions m ∧
    ∀ v' r s, holds m' v' r s ↔ holds m v' r s ∧ v' ≠ v ∧ v' ≠ o) as [ER Hm].
  { unfold move_assign, get_seg, set_seg, modify, bnd, get, ret in E. destruct (segs m !! o) as [so|] eqn:Eo; [|done].
    cbn in E. rewrite lookup_insert_eq in E. cbn in E. rewrite insert_insert_eq in E.
    destruct (<[o := ?[s1]]> (segs m) !! v) as [sv|] eqn:Ev; [|done]. injection E as <-. cbn. split; [done|].
    intros v' r s. unfold holds. cbn. rewrite !lookup_insert_Some. apply lookup_insert_Some in Ev. naive_solver. }
  assert (∀ v' r s, holds m v' r s → r ∈ region_of m v ∪ region_of m o ↔ v' = v ∨ v' = o) as Hreg.
  { assert (∀ v0 v' r s, holds m v' r s → r ∈ region_of m v0 ↔ v' = v0) as Hone.
    { intros v0 v' r s Hs. unfold region_of. split.
      - destruct (segs m !! v0) as [s0|] eqn:E0; cbn; [|set_solver].
        destruct (region_ (seg_handle s0)) as [r0|] eqn:Er0; [|set_solver]. intros ->%elem_of_singleton.
        by eapply Ho.
      - intros ->. destruct Hs as [-> Er]. cbn. rewrite Er. set_solver. }
    intros v' r s Hs. by rewrite elem_of_union, !(Hone _ v' r s Hs). }
  assert (∀ v0 r, r ∈ region_of m v0 → ∃ s, holds m v0 r s) as Hof.
  { intros v0 r. unfold region_of. destruct (segs m !! v0) as [s0|] eqn:E0; cbn; [|set_solver].
    destruct (region_ (seg_handle s0)) as [r0|] eqn:Er0; [|set_solver]. intros ->%elem_of_singleton. by exists s0. }
  split.
  - intros r. rewrite ER, Hh. setoid_rewrite Hm. rewrite !elem_of_union. split.
    + intros [(v' & s & Hs)|?]; [|by auto]. pose proof (Hreg _ _ _ Hs) as Hiff. rewrite elem_of_union in Hiff.
      destruct (decide (v' = v)), (decide (v' = o)); naive_solver.
    + intros [(v' & s & Hs & _)|[?|[(s & Hs)%Hof|(s & Hs)%Hof]]]; eauto.
  - intros v' r s [Hs [? ?]]%Hm. rewrite elem_of_union, (Hreg _ _ _ Hs). pose proof (Hl _ _ _ Hs). naive_solver.
  - intros v1 v2 r s1 s2 [H1 _]%Hm [H2 _]%Hm. by eapply Ho.
  - intros v' r s [Hs _]%Hm. rewrite ER. by apply (Hr v').
Qed.

(** A segment that is alive can be destroyed. *)
Lemma destruct_returns lost m v :
  mem_inv lost m → is_Some (segs m !! v) →
  ∃ m', destruct_segment v m = (Ret tt, m') ∧ mem_inv lost m' ∧ segs m' = delete v (segs m) ∧
    open_regions m' = match segs m !! v ≫= (λ s, region_ (seg_handle s)) with
                      | Some r => delete r (open_regions m) | None => open_regions m end.
Proof.
  intros [Hh Hlost Ho Hr] [s Hv]. unfold destruct_segment, deregister, get_seg, bnd, get, ret, reg_call. rewrite Hv. cbn.
  destruct (region_ (seg_handle s)) as [r|] eqn:Er.
  - assert (holds m v r s) as Hs by done.
    destruct (mr_close_closes r (registrar m)) as [Hok Hd]; [apply Hh; left; eauto|].
    destruct (fi_mr_close r (registrar m)) as [ok u]. cbn in *. subst ok. cbn.
    eexists. split; [done|]. cbn. rewrite Hd, delete_insert_eq. split_and!; try done.
    assert (∀ v' r' s', holds (Mem _ u (key m) (delete v (segs m))) v' r' s' ↔ holds m v' r' s' ∧ v' ≠ v) as Hm.
    { intros v' r' s'. unfold holds. cbn. rewrite lookup_delete_Some. naive_solver. }
    split; cbn.
    + intros r'. rewrite Hd, lookup_delete_is_Some, Hh. setoid_rewrite Hm. split.
      * intros [Hne [(v' & s' & Hs')|?]]; [left|by right]. exists v', s'. split; [done|]. intros ->. destruct Hs, Hs'. congruence.
      * intros [(v' & s' & Hs' & Hne)|Hr']; (split; [|eauto]); [intros ->; apply Hne; by eapply Ho|].
        intros ->. by apply (Hlost v r' s).
    + intros v' r' s' [Hs' _]%Hm. by eapply Hlost.
    + intros v1 v2 r' s1 s2. rewrite !Hm. intros [H1 _] [H2 _]. by eapply Ho.
    + intros v' r' s'. rewrite Hm, Hd. intros [Hs' Hne]. destruct (Hr _ _ _ Hs') as (l & Hl & El). exists l.
      split; [|done]. apply lookup_delete_Some. split; [|done]. intros ->. apply Hne. by eapply Ho.
  - eexists. split; [done|]. cbn. split_and!; try done.
    assert (∀ v' r' s', holds (Mem _ (registrar m) (key m) (delete v (segs m))) v' r' s' ↔ holds m v' r' s') as Hm.
    { intros v' r' s'. unfold holds. cbn. rewrite lookup_delete_Some. split; [naive_solver|].
      intros [Hl HR]. split_and!; try done. congruence. }
    split; cbn; setoid_rewrite Hm; done.
Qed.

(** ** Programs *)

(** Programs that construct, move, assign and destroy segments, with the regions that
    move assignment has lost. *)
Inductive seg_reachable (m0 : S) : gset positive → S → Prop :=
| sr_start : open_regions m0 = ∅ → segs m0 = ∅ → seg_reachable m0 ∅ m0
| sr_step o lost m m' :
    seg_reachable m0 lost m → run_seg o m = (Ret tt, m') → seg_reachable m0 (lost ∪ loses o m) m'.

Lemma destruct_alive m v m' : destruct_segment v m = (Ret tt, m') → is_Some (segs m !! v).
Proof. unfold destruct_segment, deregister, get_seg, bnd, get. destruct (segs m !! v); [by eexists|done]. Qed.

Lemma seg_reachable_inv m0 lost m : seg_reachable m0 lost m → mem_inv lost m.
Proof.
  induction 1 as [HR HS|[v pd buf len b ep d|v o|v o|v] lost m m' _ IH E]; cbn [loses]; rewrite ?union_empty_r_L.
  - split; unfold holds; rewrite ?HS, ?HR; [|by intros ? ? ? [[=]]|by intros ? ? ? ? ? [[=]]|by intros ? ? ? [[=]]].
    intros r. rewrite lookup_empty. split; [by intros [? [=]]|]. intros [(v & s & [=] & _)|?]; set_solver.
  - by apply (construct_inv lost m m' v pd buf len b ep d).
  - by apply (move_construct_inv lost m m' v o).
  - by apply (move_assign_inv lost m m' v o).
  - cbn in E. destruct (destruct_returns lost m v IH (destruct_alive _ _ _ E)) as (m2 & E2 & HI & _). congruence.
Qed.


(** A handle taken from a segment lies inside the memory that its region covers,
    as long as offset and size fit the segment and sizes fit 32 bits. *)
Theorem lf_handle_within_region m0 lost m v r s off size h m' :
  seg_reachable m0 lost m → holds m v r s →
  (0 ≤ off)%Z → (0 ≤ size)%Z →
  get_handle v off size m = (Ret h, m') →
  region_ h = Some r ∧
  ∃ base len, open_regions m' !! r = Some (base, len) ∧ address_ h = (base + off)%Z ∧
    ((off + size ≤ len)%Z → (len < 2 ^ 32)%Z → size_ h = size ∧ (address_ h + size_ h ≤ base + len)%Z).
Proof.
  intros HR [Hv Er] Hoff Hsz E. pose proof (seg_reachable_inv _ _ _ HR) as HI.
  unfold get_handle, get_seg, bnd, get in E. rewrite Hv in E. injection E as <- <-. cbn.
  split; [done|]. destruct (mi_range _ _ HI v r s) as (len & Hl & _); [done|].
  exists (base_addr_ s), len. split_and!; [done..|]. intros Hfit Hlen. rewrite u32_small by lia. lia.
Qed.

(** Move assignment deregisters nothing and keeps nothing: the regions of both
    segments stay registered after both are destroyed. *)
Theorem lf_segment_move_assign_leaks m v o rv ro sv so :
  holds m v rv sv → holds m o ro so → v ≠ o →
  ∃ m', (move_assign v o ;;; destruct_segment v ;;; destruct_segment o) m = (Ret tt, m') ∧
    segs m' !! v = None ∧ segs m' !! o = None ∧ open_regions m' = open_regions m.
Proof.
  intros [Hv Ev] [Ho Eo] Hne.
  unfold move_assign, destruct_segment, deregister, get_seg, set_seg, modify, bnd, get, ret. rewrite Ho. cbn.
  rewrite lookup_insert_eq. cbn. rewrite insert_insert_eq, lookup_insert_ne by done. rewrite Hv. cbn.
  rewrite lookup_insert_eq. cbn. rewrite delete_insert_eq, lookup_delete_ne, lookup_insert_eq by done. cbn.
  eexists. split; [done|]. cbn. split_and!; [|apply lookup_delete_eq|done].
  rewrite lookup_delete_ne by done. apply lookup_delete_eq.
Qed.
End inv.
