(* ===== verification/LfMemoryExamples.v ===== *)
(** * A registrar for the segments *)
From S2P Require Import Prelude LfMemory LfMemoryInv.

(** A registrar that keeps the ranges of the regions. *)
#[local] Instance toy_registrar : Registrar := {
  reg_st := gmap positive (Z * Z);
  FI_READ := 256;
  FI_WRITE := 512;
  FI_RECV := 1024;
  FI_SEND := 2048;
  fi_mr_regattr _ a u := let r := fresh (dom u) in (Some r, <[r := (iov_base a, iov_len a)]> u);
  fi_mr_bind _ _ u := (true, u);
  fi_mr_enable _ u := (true, u);
  fi_mr_close r u := (true, delete r u);
  get_device_id _ := 0%Z
}.

#[local] Instance toy_registrar_laws : RegistrarLaws.
Proof.
  refine {| regions := λ u : @reg_st toy_registrar, u : gmap positive (Z * Z) |}; try done.
  intros pd a u r u' [= <- <-]. split; [|done]. apply not_elem_of_dom, is_fresh.
Defined.

Definition mem0 : mem := Mem toy_registrar (∅ : gmap positive (Z * Z)) 0 ∅.
(** Two segments; the first one is moved into a third. *)
Definition one : mem := (construct No_device 0 7 4096 64 true 9 (-2) mem0).2.
Definition two : mem := (construct No_device 1 7 8192 32 false 0 (-2) one).2.
Definition moved : mem := (move_construct 2 0 two).2.

(** A step that loses nothing *)
Lemma sr_plain o lost m m' :
  loses o m = ∅ → seg_reachable No_device mem0 lost m → run_seg No_device o m = (Ret tt, m') →
  seg_reachable No_device mem0 lost m'.
Proof. intros El Hr E. pose proof (sr_step _ _ o lost m m' Hr E) as H. by rewrite El, union_empty_r_L in H. Qed.

Lemma two_reachable : seg_reachable No_device mem0 ∅ two.
Proof.
  apply (sr_plain (Construct 1 7 8192 32 false 0 (-2)) ∅ one); [done| |by vm_compute].
  apply (sr_plain (Construct 0 7 4096 64 true 9 (-2)) ∅ mem0); [done| |by vm_compute].
  by apply sr_start.
Qed.

Lemma moved_reachable : seg_reachable No_device mem0 ∅ moved.
Proof. apply (sr_plain (Move_construct 2 0) ∅ two); [done|apply two_reachable|by vm_compute]. Qed.

(** ... and the third is assigned to the second, which loses both regions. *)
Definition assigned : mem := (move_assign 1 2 moved).2.
Lemma assigned_reachable : seg_reachable No_device mem0 (∅ ∪ loses (Move_assign 1 2) moved) assigned.
Proof. apply (sr_step _ _ (Move_assign 1 2) ∅ moved); [apply moved_reachable|by vm_compute]. Qed.

Definition segment (v : nat) (m : mem) : memory_segment :=
  default (MemorySegment no_handle 0) (segs m !! v).


Lemma lf_handle_within_region_witness :
  (address_ (make_handle (Some 1%positive) 4112 16) + 16 ≤ 4096 + 64)%Z.
Proof.
  destruct (lf_handle_within_region No_device mem0 ∅ moved 2 1%positive (segment 2 moved) 16 16
    (make_handle (Some 1%positive) 4112 16) moved) as [_ (base & len & Hl & Ha & Hfit)].
  - apply moved_reachable.
  - by vm_compute.
  - done.
  - done.
  - by vm_compute.
  - vm_compute in Hl. injection Hl as <- <-. by apply Hfit.
Defined.

Lemma lf_segment_move_assign_leaks_witness :
  ∃ m', (move_assign 0 1 ;;; destruct_segment 0 ;;; destruct_segment 1) two = (Ret tt, m') ∧
    segs m' !! 0 = None ∧ segs m' !! 1 = None ∧ regions (registrar m') = regions (registrar two).
Proof.
  apply (lf_segment_move_assign_leaks two 0 1 1%positive 2%positive (segment 0 two) (segment 1 two));
    by vm_compute.
Defined.
