(* ===== verification/UniqueFunction.v ===== *)
(** * Move-only function objects

    Model of include/oomph/util/unique_function.hpp: the wrapper of the callbacks
    that requests own, with its small buffer.  The state holds the
    [unique_function] objects of a program (by a name), the heap with the
    function objects that were allocated, and a log of the function objects that
    have been destroyed.

    The function object inside a buffer may be alive or not ([Buffer None] is raw
    storage).  A moved-from function object that is destroyed after its content
    has been moved out is not logged: the content lives on in the new object.
    Deleting an object that is not allocated, destroying or moving from raw
    storage, and using a name that does not exist are undefined behaviour. *)
From S2P Require Import Prelude.

(** ** Layout *)

Section layout.
Local Open Scope Z_scope.

(** [sbo_size], and the alignment of [std::max_align_t] on the platform. *)
Definition sbo_size : Z := 40.
Definition max_align : Z := 16.

Definition round_up (n a : Z) : Z := (n + a - 1) / a * a.

(** [sizeof(std::aligned_storage_t<sbo_size, ...>)]: a multiple of the alignment. *)
Definition buffer_size : Z := round_up sbo_size max_align.

(** [sizeof(unique_function_impl<F, ...>)]: the pointer to the virtual table, then
    [func] at the next multiple of its alignment. *)
Definition impl_size (size align : Z) : Z :=
  round_up (round_up 8 align + size) (Z.max 8 align).

(** The choice between the buffer and the heap looks at the size of the function
    object, not at that of [concrete_t]. *)
Definition is_small (size : Z) : bool := bool_decide (size ≤ sbo_size).
End layout.

(** ** Objects *)

Record closure : Type := Closure { c_id : positive; c_size : Z }.
#[export] Instance closure_eq_dec : EqDecision closure.
Proof. solve_decision. Defined.

(** The variant [holder_t]. *)
Inductive holder : Type :=
| Monostate
| Heap (p : positive)
| Buffer (o : option closure).

Record ufs : Type := Ufs {
  fns : gmap nat holder;
  heap : gmap positive closure;
  destroyed : list positive;
  fresh_id : positive
}.

Definition set_holder (v : nat) (h : holder) : M ufs unit :=
  modify (λ s, Ufs (<[v := h]> (fns s)) (heap s) (destroyed s) (fresh_id s)).
Definition get_holder (v : nat) : M ufs holder := λ s,
  match fns s !! v with Some h => (Ret h, s) | None => (Halt undefined_behaviour, s) end.
Definition log_destroyed (c : closure) : M ufs unit :=
  modify (λ s, Ufs (fns s) (heap s) (destroyed s ++ [c_id c]) (fresh_id s)).

(** The program creates a function object of a given size, to be moved from. *)
Definition new_closure (size : Z) : M ufs closure := λ s,
  (Ret (Closure (fresh_id s) size), Ufs (fns s) (heap s) (destroyed s) (Pos.succ (fresh_id s))).

(** [new concrete_t<F>(std::move(f))] and [delete] *)
Definition alloc (c : closure) : M ufs positive := λ s,
  let p := fresh (dom (heap s)) in
  (Ret p, Ufs (fns s) (<[p := c]> (heap s)) (destroyed s) (fresh_id s)).
Definition delete_heap (p : positive) : M ufs unit := λ s,
  match heap s !! p with
  | Some c => (Ret tt, Ufs (fns s) (delete p (heap s)) (destroyed s ++ [c_id c]) (fresh_id s))
  | None => (Halt undefined_behaviour, s)
  end.

(** ** Members *)

Definition destroy (v : nat) : M ufs unit :=
  let! h := get_holder v in
  match h with
  | Monostate => ret tt
  | Heap p => delete_heap p
  | Buffer (Some c) => log_destroyed c ;;; set_holder v (Buffer None)
  | Buffer None => stop undefined_behaviour
  end.

(** The bits of the variant: a pointer is copied, the bytes of a function object
    are not an object in their new place. *)
Definition holder_bits (h : holder) : holder :=
  match h with Buffer _ => Buffer None | h => h end.

(** [move_construct(other.holder)], after the bits have been copied. *)
Definition move_construct (v other : nat) : M ufs unit :=
  let! h := get_holder other in
  match h with
  | Buffer (Some c) => set_holder v (Buffer (Some c))
  | Buffer None => stop undefined_behaviour
  | _ => ret tt
  end ;;;
  set_holder other Monostate.

(** [unique_function()] *)
Definition construct_empty (v : nat) : M ufs unit := set_holder v Monostate.

(** [unique_function(F&& f)], for large and for small function objects.  The code looks at
    the size only: function objects are taken to be aligned to [max_align] at most (a
    small one with a stricter alignment would be misplaced in the buffer). *)
Definition construct_from (v : nat) (c : closure) : M ufs unit :=
  if is_small (c_size c) then set_holder v (Buffer (Some c))
  else let! p := alloc c in set_holder v (Heap p).

(** [unique_function(unique_function&& other)] *)
Definition construct_move (v other : nat) : M ufs unit :=
  let! h := get_holder other in
  set_holder v (holder_bits h) ;;;
  move_construct v other.

(** [operator=(unique_function&& other)] *)
Definition assign_move (v other : nat) : M ufs unit :=
  destroy v ;;;
  let! h := get_holder other in
  (if decide (v = other) then ret tt else set_holder v (holder_bits h)) ;;;
  move_construct v other.

(** [operator=(F&& f)] *)
Definition assign_from (v : nat) (c : closure) : M ufs unit :=
  destroy v ;;;
  construct_from v c.

(** [~unique_function()] *)
Definition destruct_fn (v : nat) : M ufs unit :=
  destroy v ;;;
  modify (λ s, Ufs (delete v (fns s)) (heap s) (destroyed s) (fresh_id s)).

(** [get()->invoke(...)]: the function object that is called.  [get] is
    [noexcept], so that the exception of [std::get<1>] on an empty variant
    terminates the program. *)
Definition invoke (v : nat) : M ufs closure := λ s,
  match fns s !! v with
  | Some Monostate => (Halt terminated, s)
  | Some (Heap p) =>
      match heap s !! p with Some c => (Ret c, s) | None => (Halt undefined_behaviour, s) end
  | Some (Buffer (Some c)) => (Ret c, s)
  | Some (Buffer None) => (Halt undefined_behaviour, s)
  | None => (Halt undefined_behaviour, s)
  end.

Definition is_set (v : nat) : M ufs bool :=
  let! h := get_holder v in
  ret (match h with Monostate => false | _ => true end).

(** ** What a program does with them *)

Inductive uop : Type :=
| U_empty (v : nat)
| U_from (v : nat) (size : Z)
| U_move (v other : nat)
| U_assign (v other : nat)
| U_assign_from (v : nat) (size : Z)
| U_destruct (v : nat).

Definition run_op (o : uop) : M ufs unit :=
  match o with
  | U_empty v => construct_empty v
  | U_from v n => let! c := new_closure n in construct_from v c
  | U_move v o => construct_move v o
  | U_assign v o => assign_move v o
  | U_assign_from v n => let! c := new_closure n in assign_from v c
  | U_destruct v => destruct_fn v
  end.

(** Constructors make new objects, the other operations use existing ones; no
    object is assigned to itself. *)
Definition admissible (o : uop) (s : ufs) : bool :=
  match o with
  | U_empty v | U_from v _ => bool_decide (fns s !! v = None)
  | U_move v o => bool_decide (fns s !! v = None ∧ is_Some (fns s !! o))
  | U_assign v o => bool_decide (v ≠ o ∧ is_Some (fns s !! v) ∧ is_Some (fns s !! o))
  | U_assign_from v _ | U_destruct v => bool_decide (is_Some (fns s !! v))
  end.

Fixpoint run_ops (l : list uop) (s : ufs) : option (outcome unit * ufs) :=
  match l with
  | [] => Some (Ret tt, s)
  | o :: l =>
      if admissible o s then
        match run_op o s with (Ret _, s') => run_ops l s' | r => Some r end
      else None
  end.

Definition init_fns : ufs := Ufs ∅ ∅ [] 1.

(** ** Ownership *)

Definition buffer_ids (h : holder) : list positive :=
  match h with Buffer (Some c) => [c_id c] | _ => [] end.
Definition held (s : ufs) : list positive :=
  all_queued ((λ c, [c_id c]) <$> heap s) ++ all_queued (buffer_ids <$> fns s).

(** The function object a [unique_function] calls. *)
Definition target (v : nat) (s : ufs) : option closure :=
  match fns s !! v with
  | Some (Heap p) => heap s !! p
  | Some (Buffer o) => o
  | _ => None
  end.

(** Every function object is owned by one [unique_function], in the heap if it is
    large and in the buffer if it is small, or has been destroyed, once.
    [loose]: function objects in variables of the program. *)
Record uf_inv (loose : list positive) (s : ufs) : Prop := {
  ui_heap v p : fns s !! v = Some (Heap p) → ∃ c, heap s !! p = Some c ∧ is_small (c_size c) = false;
  ui_unique v v' p : fns s !! v = Some (Heap p) → fns s !! v' = Some (Heap p) → v = v';
  ui_owned p : is_Some (heap s !! p) → ∃ v, fns s !! v = Some (Heap p);
  ui_buffer v o : fns s !! v = Some (Buffer o) → ∃ c, o = Some c ∧ is_small (c_size c) = true;
  ui_once : NoDup (loose ++ held s ++ destroyed s);
  ui_all i : i ∈ loose ++ held s ++ destroyed s ↔ (i < fresh_id s)%positive
}.

Definition with_fns (f : gmap nat holder) (s : ufs) : ufs := Ufs f (heap s) (destroyed s) (fresh_id s).
Definition clean (v : nat) (s : ufs) : ufs := with_fns (<[v := Monostate]> (fns s)) s.

(** Only the permutation of the identities matters. *)
Lemma uf_ids_perm loose loose' s s' :
  loose ++ held s ++ destroyed s ≡ₚ loose' ++ held s' ++ destroyed s' → fresh_id s' = fresh_id s →
  NoDup (loose ++ held s ++ destroyed s) →
  (∀ i, i ∈ loose ++ held s ++ destroyed s ↔ (i < fresh_id s)%positive) →
  NoDup (loose' ++ held s' ++ destroyed s') ∧
  (∀ i, i ∈ loose' ++ held s' ++ destroyed s' ↔ (i < fresh_id s')%positive).
Proof. intros HP Hf Hn Ha. split; [by rewrite <- HP|]. intros i. rewrite <- HP, Hf. apply Ha. Qed.

Lemma fn_ids_insert v h (f : gmap nat holder) :
  all_queued (buffer_ids <$> <[v := h]> f) ≡ₚ buffer_ids h ++ all_queued (buffer_ids <$> delete v f).
Proof. by rewrite fmap_insert, all_queued_insert, fmap_delete. Qed.
Lemma fn_ids_split v h (f : gmap nat holder) :
  f !! v = Some h → all_queued (buffer_ids <$> f) ≡ₚ buffer_ids h ++ all_queued (buffer_ids <$> delete v f).
Proof. intros Hv. by rewrite (all_queued_split _ v), lookup_fmap, Hv, fmap_delete. Qed.
Lemma heap_ids_insert p c (m : gmap positive closure) :
  m !! p = None →
  all_queued ((λ c, [c_id c]) <$> <[p := c]> m) ≡ₚ c_id c :: all_queued ((λ c, [c_id c]) <$> m).
Proof.
  intros Hp. rewrite fmap_insert, all_queued_insert, delete_id; [done|].
  by rewrite lookup_fmap, Hp.
Qed.
Lemma heap_ids_delete p c (m : gmap positive closure) :
  m !! p = Some c →
  all_queued ((λ c, [c_id c]) <$> m) ≡ₚ c_id c :: all_queued ((λ c, [c_id c]) <$> delete p m).
Proof. intros Hp. by rewrite (all_queued_split _ p), lookup_fmap, Hp, fmap_delete. Qed.

(** An empty place: a new name, or an object that is empty. *)
Definition vacant (v : nat) (s : ufs) : Prop := fns s !! v = None ∨ fns s !! v = Some Monostate.

Lemma vacant_ids v (s : ufs) :
  vacant v s → all_queued (buffer_ids <$> delete v (fns s)) ≡ₚ all_queued (buffer_ids <$> fns s).
Proof.
  intros [Hv|Hv]; [by rewrite delete_id|]. by rewrite (fn_ids_split v _ _ Hv).
Qed.

Lemma vacant_clean_inv loose v s : uf_inv loose s → vacant v s → uf_inv loose (clean v s).
Proof.
  intros [H1 H2 H3 H4 H5 H6] Hv.
  assert (∀ v' h, fns (clean v s) !! v' = Some h → h ≠ Monostate → fns s !! v' = Some h) as Hl.
  { intros v' h. cbn. rewrite lookup_insert. case_decide; [by intros [= <-]|done]. }
  split.
  - intros v' p Hp%Hl; [|done]. by eapply H1.
  - intros v1 v2 p E1%Hl E2%Hl; [by eapply H2|done..].
  - intros p (v' & Hp)%H3. exists v'. cbn. rewrite lookup_insert_ne; [done|]. intros ->. destruct Hv; congruence.
  - intros v' o Hp%Hl; [|done]. by eapply H4.
  - unfold held. cbn. rewrite fn_ids_insert, vacant_ids by done. done.
  - intros i. unfold held. cbn. rewrite fn_ids_insert, vacant_ids by done. apply H6.
Qed.

(** *** Construction *)

(** [v] holds [c] now, the other objects are as they were. *)
Record constructed (loose : list positive) (v : nat) (c : closure) (s s' : ufs) : Prop := {
  co_inv : uf_inv loose s';
  co_target : target v s' = Some c;
  co_fresh : fresh_id s' = fresh_id s;
  co_destroyed : destroyed s' = destroyed s;
  co_dom v' : v' ≠ v → fns s' !! v' = fns s !! v';
  co_other v' : v' ≠ v → target v' s' = target v' s
}.

Lemma vacant_heap v s p v' : vacant v s → fns s !! v' = Some (Heap p) → v' ≠ v.
Proof. intros Hv Hp ->. destruct Hv; congruence. Qed.

Lemma construct_small_ok loose v c s :
  uf_inv (c_id c :: loose) s → vacant v s → is_small (c_size c) = true →
  constructed loose v c s (with_fns (<[v := Buffer (Some c)]> (fns s)) s).
Proof.
  intros [H1 H2 H3 H4 H5 H6] Hv Es.
  destruct (uf_ids_perm (c_id c :: loose) loose s (with_fns (<[v := Buffer (Some c)]> (fns s)) s))
    as [Hn Ha]; [|done..|].
  { unfold held. cbn. rewrite fn_ids_insert, vacant_ids by done. cbn. solve_Permutation. }
  split; unfold target; cbn; try done.
  - split; cbn; [..|done|done].
    + intros v' p. rewrite lookup_insert. case_decide; [done|apply H1].
    + intros v1 v2 p. rewrite !lookup_insert. repeat case_decide; try done. apply H2.
    + intros p (v' & Hp)%H3. exists v'. rewrite lookup_insert_ne; [done|]. by eapply not_eq_sym, vacant_heap.
    + intros v' o. rewrite lookup_insert. case_decide; [|apply H4]. intros [= <-]. by exists c.
  - by rewrite lookup_insert_eq.
  - intros v' Hne. by rewrite lookup_insert_ne.
  - intros v' Hne. by rewrite lookup_insert_ne.
Qed.

Lemma construct_large_ok loose v c p s :
  uf_inv (c_id c :: loose) s → vacant v s → is_small (c_size c) = false → heap s !! p = None →
  constructed loose v c s (Ufs (<[v := Heap p]> (fns s)) (<[p := c]> (heap s)) (destroyed s) (fresh_id s)).
Proof.
  intros [H1 H2 H3 H4 H5 H6] Hv Es Hp.
  assert (∀ v' p', fns s !! v' = Some (Heap p') → p ≠ p') as Hpp.
  { intros v' p' (c' & Hc & _)%H1 ->. congruence. }
  destruct (uf_ids_perm (c_id c :: loose) loose s (Ufs (<[v := Heap p]> (fns s)) (<[p := c]> (heap s)) (destroyed s) (fresh_id s)))
    as [Hn Ha]; [|done..|].
  { unfold held. cbn -[fmap]. rewrite heap_ids_insert, fn_ids_insert, vacant_ids by done. cbn. solve_Permutation. }
  split; unfold target; cbn; try done.
  - split; cbn; [..|done|done].
    + intros v' p'. rewrite !lookup_insert. case_decide.
      { intros [= <-]. exists c. by rewrite decide_True. }
      intros Hv'. rewrite decide_False by by eapply Hpp. by eapply H1.
    + intros v1 v2 p'. rewrite !lookup_insert. repeat case_decide; subst; try done.
      * intros [= <-] E%Hpp. done.
      * intros E%Hpp [= <-]. done.
      * apply H2.
    + intros p'. rewrite lookup_insert. case_decide; subst.
      * intros _. exists v. by rewrite lookup_insert_eq.
      * intros (v' & Hp')%H3. exists v'. rewrite lookup_insert_ne; [done|]. by eapply not_eq_sym, vacant_heap.
    + intros v' o. rewrite lookup_insert. case_decide; [done|apply H4].
  - by rewrite !lookup_insert_eq.
  - intros v' Hne. by rewrite lookup_insert_ne.
  - intros v' Hne. rewrite lookup_insert_ne by done. destruct (fns s !! v') as [[|p'|]|] eqn:E; try done.
    by rewrite lookup_insert_ne by by eapply Hpp.
Qed.

Lemma construct_from_ok loose v c s :
  uf_inv (c_id c :: loose) s → vacant v s →
  ∃ s', construct_from v c s = (Ret tt, s') ∧ constructed loose v c s s'.
Proof.
  intros HI Hv. unfold construct_from. destruct (is_small (c_size c)) eqn:Es.
  - eexists. split; [done|]. by apply construct_small_ok.
  - eexists. split; [done|]. cbn [fns heap destroyed fresh_id]. apply construct_large_ok; [done..|]. apply not_elem_of_dom, is_fresh.
Qed.

(** *** Destruction *)

(** Taking the function object of [v] out of the heap or out of the buffer. *)
Lemma delete_heap_inv loose v p c s :
  uf_inv loose s → fns s !! v = Some (Heap p) → heap s !! p = Some c →
  uf_inv loose (clean v (Ufs (fns s) (delete p (heap s)) (destroyed s ++ [c_id c]) (fresh_id s))).
Proof.
  intros [H1 H2 H3 H4 H5 H6] Hv Hc.
  destruct (uf_ids_perm loose loose s (clean v (Ufs (fns s) (delete p (heap s)) (destroyed s ++ [c_id c]) (fresh_id s))))
    as [Hn Ha]; [|done..|].
  { unfold held. cbn -[fmap]. rewrite (heap_ids_delete p c), fn_ids_insert, (fn_ids_split v _ _ Hv) by done.
    cbn. solve_Permutation. }
  split; cbn; [..|done|done].
  - intros v' p'. rewrite lookup_insert. case_decide as Hne; [done|]. intros Hv'.
    rewrite lookup_delete_ne; [by eapply H1|]. intros ->. apply Hne. by eapply H2.
  - intros v1 v2 p'. rewrite !lookup_insert. repeat case_decide; try done. apply H2.
  - intros p' [Hne (v' & Hp')%H3]%lookup_delete_is_Some. exists v'.
    rewrite lookup_insert_ne; [done|]. intros ->. congruence.
  - intros v' o. rewrite lookup_insert. case_decide; [done|apply H4].
Qed.

Lemma drop_buffer_inv loose v c s :
  uf_inv loose s → fns s !! v = Some (Buffer (Some c)) →
  uf_inv loose (clean v (Ufs (fns s) (heap s) (destroyed s ++ [c_id c]) (fresh_id s))).
Proof.
  intros [H1 H2 H3 H4 H5 H6] Hv.
  destruct (uf_ids_perm loose loose s (clean v (Ufs (fns s) (heap s) (destroyed s ++ [c_id c]) (fresh_id s))))
    as [Hn Ha]; [|done..|].
  { unfold held. cbn. rewrite fn_ids_insert, (fn_ids_split v _ _ Hv). cbn. solve_Permutation. }
  split; cbn; [..|done|done].
  - intros v' p'. rewrite lookup_insert. case_decide; [done|]. apply H1.
  - intros v1 v2 p'. rewrite !lookup_insert. repeat case_decide; try done. apply H2.
  - intros p' (v' & Hp')%H3. exists v'. rewrite lookup_insert_ne; [done|]. intros ->. congruence.
  - intros v' o. rewrite lookup_insert. case_decide; [done|apply H4].
Qed.

(** The function object of [v], if any, is destroyed; what is left in [v] is
    garbage, which [clean] forgets. *)
Lemma fn_destroy_ok loose v h s :
  uf_inv loose s → fns s !! v = Some h →
  ∃ s', destroy v s = (Ret tt, s') ∧ uf_inv loose (clean v s') ∧
        fresh_id s' = fresh_id s ∧ is_Some (fns s' !! v) ∧
        destroyed s' = destroyed s ++ option_list (c_id <$> target v s) ∧
        (∀ v', v' ≠ v → fns s' !! v' = fns s !! v' ∧ target v' s' = target v' s).
Proof.
  intros HI Hv. unfold destroy, get_holder, bnd, target. rewrite Hv. destruct h as [|p|[c|]].
  - exists s. cbn. rewrite app_nil_r. split_and!; [done| |done..]. apply vacant_clean_inv; [done|by right].
  - destruct (ui_heap _ _ HI _ _ Hv) as (c & Hc & Hs). unfold delete_heap. rewrite Hc. eexists. split; [done|].
    split; [by apply delete_heap_inv|]. cbn. split_and!; try done. intros v' Hne. split; [done|].
    destruct (fns s !! v') as [[|p'|]|] eqn:E; try done. rewrite lookup_delete_ne; [done|].
    intros ->. apply Hne. by eapply ui_unique.
  - eexists. split; [done|]. cbn [fns heap destroyed fresh_id].
    split; [|cbn; split_and!; [done|by rewrite lookup_insert_eq|done|]].
    + unfold clean, with_fns. cbn. rewrite insert_insert_eq. by apply drop_buffer_inv.
    + intros v' Hne. by rewrite lookup_insert_ne.
  - by destruct (ui_buffer _ _ HI _ _ Hv) as (c & ? & _).
Qed.

(** *** Moves *)

(** The state after a move from [o] to [v]. *)
Definition moved (v o : nat) (h : holder) (s : ufs) : ufs :=
  with_fns (<[o := Monostate]> (<[v := h]> (fns s))) s.

Lemma fn_moved_lookup v o h s v' :
  v ≠ o → fns (moved v o h s) !! v' =
  if decide (v' = o) then Some Monostate else if decide (v' = v) then Some h else fns s !! v'.
Proof. intros Hne. cbn. rewrite !lookup_insert. repeat case_decide; congruence. Qed.

Lemma fn_moved_inv loose v o h s :
  uf_inv loose s → v ≠ o → vacant v s → fns s !! o = Some h → uf_inv loose (moved v o h s).
Proof.
  intros [H1 H2 H3 H4 H5 H6] Hne Hv Ho.
  assert (∀ v' h', fns (moved v o h s) !! v' = Some h' → h' ≠ Monostate →
    v' ≠ o ∧ ((v' = v ∧ h' = h) ∨ fns s !! v' = Some h')) as Hl.
  { intros v' h'. rewrite fn_moved_lookup by done. repeat case_decide; naive_solver. }
  destruct (uf_ids_perm loose loose s (moved v o h s)) as [Hn Ha]; [|done..|].
  { unfold held, moved, with_fns. cbn -[fmap]. rewrite fn_ids_insert. cbn [buffer_ids app].
    rewrite delete_insert_ne, fn_ids_insert by done. rewrite (fn_ids_split o _ _ Ho).
    assert (vacant v (with_fns (delete o (fns s)) s)) as Hv2.
    { unfold vacant. cbn. by rewrite lookup_delete_ne. }
    by rewrite <- (vacant_ids v _ Hv2) at 1. }
  split; [..|done|done].
  - intros v' p [_ [[-> <-]|E]]%Hl; [| |done]; by eapply H1.
  - intros v1 v2 p [N1 [[-> <-]|E1]]%Hl [N2 [[-> E2]|E2]]%Hl; try done.
    + exfalso. apply N2. by eapply H2.
    + subst h. exfalso. apply N1. by eapply H2.
    + by eapply H2.
  - intros p (v' & Hp)%H3. destruct (decide (v' = o)) as [->|Hvo].
    + exists v. rewrite fn_moved_lookup, decide_False, decide_True by done. congruence.
    + exists v'. rewrite fn_moved_lookup, decide_False by done.
      rewrite decide_False by by eapply vacant_heap. done.
  - intros v' b [_ [[-> <-]|E]]%Hl; [| |done]; by eapply H4.
Qed.

Lemma moved_target v o h s v' :
  v ≠ o → fns s !! o = Some h →
  target v' (moved v o h s) = if decide (v' = o) then None else target (if decide (v' = v) then o else v') s.
Proof.
  intros Hne Ho. unfold target. rewrite fn_moved_lookup by done. repeat case_decide; subst; try done. by rewrite Ho.
Qed.

(** Copying the bits and [move_construct]. *)
Lemma move_run loose v o h s :
  uf_inv loose s → v ≠ o → fns s !! o = Some h →
  (set_holder v (holder_bits h) ;;; move_construct v o) s = (Ret tt, moved v o h s).
Proof.
  intros HI Hne Ho. unfold bnd at 1, set_holder at 1, modify.
  unfold move_construct, bnd at 1, get_holder. cbn. rewrite lookup_insert_ne, Ho by done.
  unfold moved, with_fns. destruct h as [|p|[c|]]; cbn; [done..| |].
  - by rewrite insert_insert_eq.
  - by destruct (ui_buffer _ _ HI _ _ Ho) as (c & ? & _).
Qed.

(** *** Every operation *)

Lemma new_closure_inv loose s :
  uf_inv loose s →
  uf_inv (fresh_id s :: loose) (Ufs (fns s) (heap s) (destroyed s) (Pos.succ (fresh_id s))).
Proof.
  intros [H1 H2 H3 H4 H5 H6]. split; try done.
  - cbn. constructor; [|done]. rewrite H6. lia.
  - intros i. rewrite <- app_comm_cons, elem_of_cons. change (held _) with (held s). cbn [destroyed fresh_id].
    rewrite H6. lia.
Qed.

(** Writing to [v] after [destroy] makes the garbage irrelevant. *)
Lemma construct_from_clean v c s : construct_from v c s = construct_from v c (clean v s).
Proof.
  unfold construct_from. destruct (is_small (c_size c)).
  - unfold set_holder, modify, clean, with_fns. cbn. by rewrite insert_insert_eq.
  - unfold bnd, alloc, set_holder, modify, clean, with_fns. cbn. by rewrite insert_insert_eq.
Qed.

Lemma move_clean v o h s :
  v ≠ o → (set_holder v (holder_bits h) ;;; move_construct v o) s =
          (set_holder v (holder_bits h) ;;; move_construct v o) (clean v s).
Proof.
  intros Hne. unfold bnd, set_holder, modify, clean, with_fns. cbn [fns heap destroyed fresh_id].
  by rewrite insert_insert_eq.
Qed.

Lemma assign_move_ok loose v o h h' s :
  uf_inv loose s → v ≠ o → fns s !! v = Some h → fns s !! o = Some h' →
  ∃ s', assign_move v o s = (Ret tt, s') ∧ uf_inv loose s' ∧
        destroyed s' = destroyed s ++ option_list (c_id <$> target v s) ∧
        (∀ v', target v' s' = if decide (v' = o) then None else target (if decide (v' = v) then o else v') s) ∧
        fns s' !! o = Some Monostate.
Proof.
  intros HI Hne Hv Ho. destruct (fn_destroy_ok loose v h s HI Hv) as (s1 & E1 & HI1 & Ef & _ & Ed & Hoth).
  destruct (Hoth o (not_eq_sym Hne)) as [Ho1 Ht1]. rewrite Ho in Ho1.
  unfold assign_move. rewrite (bnd_ret _ _ _ _ _ E1). unfold bnd at 1, get_holder at 1. rewrite Ho1.
  rewrite decide_False by done. rewrite move_clean by done.
  assert (fns (clean v s1) !! o = Some h') as Hoc by (cbn; by rewrite lookup_insert_ne).
  rewrite (move_run loose) by done. eexists. split; [done|].
  split; [apply fn_moved_inv; [done..| |done]; right; cbn; apply lookup_insert_eq|].
  split; [done|]. split; [|cbn; apply lookup_insert_eq]. intros v'. rewrite moved_target by done.
  destruct (decide (v' = o)); [done|]. destruct (decide (v' = v)) as [->|Hn].
  - unfold target in *. rewrite Hoc. rewrite Ho1, Ho in Ht1. rewrite Ho. exact Ht1.
  - destruct (Hoth v' Hn) as [Hf Ht]. unfold target in *. cbn. rewrite lookup_insert_ne by done. done.
Qed.

Lemma fn_run_op_ok o s :
  uf_inv [] s → admissible o s = true → ∃ s', run_op o s = (Ret tt, s') ∧ uf_inv [] s'.
Proof.
  intros HI Ha. destruct o as [v|v n|v o|v o|v n|v]; cbn in Ha; apply bool_decide_eq_true in Ha; cbn [run_op].
  - eexists. split; [done|]. apply vacant_clean_inv; [done|by left].
  - destruct (construct_from_ok [] v (Closure (fresh_id s) n) _ (new_closure_inv [] s HI)) as (s' & E & Hc);
      [by left|]. exists s'. split; [exact E|apply Hc].
  - destruct Ha as [Hv [h Ho]]. assert (v ≠ o) as Hne by congruence.
    unfold construct_move, bnd at 1, get_holder. rewrite Ho, (move_run []) by done.
    eexists. split; [done|]. apply fn_moved_inv; [done..|by left|done].
  - destruct Ha as (Hne & [h Hv] & [h' Ho]).
    destruct (assign_move_ok [] v o h h' s HI Hne Hv Ho) as (s' & E & HI' & _). by exists s'.
  - destruct Ha as [h Hv]. pose proof (new_closure_inv [] s HI) as HI1.
    destruct (fn_destroy_ok _ v h _ HI1 Hv) as (s1 & E1 & HI2 & _).
    destruct (construct_from_ok [] v (Closure (fresh_id s) n) _ HI2) as (s' & E & Hc);
      [right; cbn; apply lookup_insert_eq|].
    exists s'. split; [|apply Hc]. unfold bnd at 1, new_closure. unfold assign_from.
    rewrite (bnd_ret _ _ _ _ _ E1). by rewrite construct_from_clean.
  - destruct Ha as [h Hv]. destruct (fn_destroy_ok _ v h _ HI Hv) as (s1 & E1 & [H1 H2 H3 H4 H5 H6] & _).
    unfold destruct_fn. rewrite (bnd_ret _ _ _ _ _ E1). eexists. split; [done|]. cbn in *.
    assert (∀ v' x, delete v (fns s1) !! v' = Some x → <[v := Monostate]> (fns s1) !! v' = Some x) as Hl.
    { intros v' x [Hn Hx]%lookup_delete_Some. by rewrite lookup_insert_ne. }
    unfold held in *. cbn -[fmap] in *. rewrite fn_ids_insert in H5. setoid_rewrite fn_ids_insert in H6.
    split; cbn -[fmap]; try done.
    + intros v' p Hp%Hl. by eapply H1.
    + intros v1 v2 p E2%Hl E3%Hl. by eapply H2.
    + intros p (v' & Hp)%H3. exists v'. rewrite lookup_insert in Hp. case_decide; [done|]. by rewrite lookup_delete_ne.
    + intros v' b Hp%Hl. by eapply H4.
Qed.

Lemma fn_run_ops_ok l s r :
  uf_inv [] s → run_ops l s = Some r → ∃ s', r = (Ret tt, s') ∧ uf_inv [] s'.
Proof.
  revert s. induction l as [|o l IH]; intros s HI; cbn [run_ops]; [intros [= <-]; by exists s|].
  destruct (admissible o s) eqn:Ea; [|done]. destruct (fn_run_op_ok o s HI Ea) as (s1 & -> & HI1). by apply IH.
Qed.

Lemma uf_init_inv : uf_inv [] init_fns.
Proof.
  split; cbn.
  - intros v p. by rewrite lookup_empty.
  - intros v v' p. by rewrite lookup_empty.
  - intros p. rewrite lookup_empty. by intros [].
  - intros v o. by rewrite lookup_empty.
  - apply NoDup_nil_2.
  - intros i. split; [set_solver|lia].
Qed.

(** ** Promises *)

(** C31: Whatever a program does with [unique_function] objects (constructing, moving,
    assigning, destroying them, but not assigning one to itself): nothing
    undefined happens; every function object is owned by exactly one of them or
    has been destroyed exactly once; the heap holds what they point to and no
    more; each of them that is not empty can be called. *)
Theorem uf_owned_once l r :
  run_ops l init_fns = Some r →
  ∃ s, r = (Ret tt, s) ∧
    NoDup (held s ++ destroyed s) ∧
    (∀ i, i ∈ held s ++ destroyed s ↔ (i < fresh_id s)%positive) ∧
    (∀ p, is_Some (heap s !! p) ↔ ∃ v, fns s !! v = Some (Heap p)) ∧
    (∀ v, is_set v s = (Ret true, s) → ∃ c, invoke v s = (Ret c, s) ∧ c_id c ∈ held s) ∧
    (fns s = ∅ → heap s = ∅ ∧ held s = []).
Proof.
  intros Hr. destruct (fn_run_ops_ok l _ r uf_init_inv Hr) as (s & -> & [H1 H2 H3 H4 H5 H6]).
  exists s. split_and!; try done.
  - intros p. split; [apply H3|]. intros (v & (c & Hc & _)%H1). by eexists.
  - intros v. unfold is_set, invoke, bnd, get_holder. destruct (fns s !! v) as [[|p|o]|] eqn:Ev; try done; intros _.
    + destruct (H1 _ _ Ev) as (c & Hc & _). exists c. rewrite Hc. split; [done|]. unfold held.
      rewrite (heap_ids_delete p c) by done. set_solver.
    + destruct (H4 _ _ Ev) as (c & -> & _). exists c. split; [done|]. unfold held.
      rewrite (fn_ids_split v _ _ Ev). set_solver.
  - intros Hf. assert (heap s = ∅) as Hh.
    { apply map_eq. intros p. rewrite lookup_empty. apply eq_None_not_Some. intros (v & Hv)%H3.
      by rewrite Hf, lookup_empty in Hv. }
    unfold held. by rewrite Hf, Hh, !fmap_empty.
Qed.

(** Move assignment: the target calls what the source called, the source is
    empty, what the target called before is destroyed, and no other object
    changes. *)
Theorem uf_move_transfers l s v o :
  run_ops l init_fns = Some (Ret tt, s) → admissible (U_assign v o) s = true →
  ∃ s', run_op (U_assign v o) s = (Ret tt, s') ∧
    target v s' = target o s ∧ target o s' = None ∧ is_set o s' = (Ret false, s') ∧
    (∀ v', v' ≠ v → v' ≠ o → target v' s' = target v' s) ∧
    destroyed s' = destroyed s ++ option_list (c_id <$> target v s).
Proof.
  intros Hr Ha. destruct (fn_run_ops_ok l _ _ uf_init_inv Hr) as (s0 & [= <-] & HI).
  cbn in Ha. apply bool_decide_eq_true in Ha as (Hne & [h Hv] & [h' Ho]).
  destruct (assign_move_ok [] v o h h' s HI Hne Hv Ho) as (s' & E & HI' & Ed & Ht & Ho').
  exists s'. split_and!; try done.
  - by rewrite Ht, decide_False, decide_True.
  - by rewrite Ht, decide_True.
  - unfold is_set, bnd, get_holder. by rewrite Ho'.
  - intros v' H1 H2. by rewrite Ht, !decide_False.
Qed.

(** The object that holds a small function object, with the pointer to its
    virtual table, fits into the buffer, although only the size of the function
    object is compared with [sbo_size]: the buffer is as large as its alignment
    makes it.  For a function object with a larger alignment it does not fit. *)
Theorem uf_small_fits size align :
  align ∈ [1; 2; 4; 8; 16]%Z → (0 < size)%Z → (align | size)%Z → is_small size = true →
  (impl_size size align ≤ buffer_size)%Z ∧ (buffer_size < impl_size 32 32)%Z.
Proof.
  intros Ha Hs [k ->] Hk%bool_decide_eq_true. split; [|done]. unfold sbo_size in Hk.
  unfold impl_size, buffer_size, round_up, sbo_size, max_align.
  repeat (apply elem_of_cons in Ha as [->|Ha]); [..|set_solver];
    cbn [Z.max Z.compare Pos.compare Pos.compare_cont]; Z.div_mod_to_equations; lia.
Qed.

(** Assigning an object to itself destroys the function object; a large one
    leaves an empty [unique_function], with a small one the behaviour is
    undefined. *)
Theorem uf_self_assignment v c s :
  (∀ p, fns s !! v = Some (Heap p) → heap s !! p = Some c →
     ∃ s', assign_move v v s = (Ret tt, s') ∧ fns s' !! v = Some Monostate ∧ c_id c ∈ destroyed s') ∧
  (fns s !! v = Some (Buffer (Some c)) →
     ∃ s', assign_move v v s = (Halt undefined_behaviour, s')).
Proof.
  unfold assign_move, destroy, move_construct, bnd, get_holder. split.
  - intros p Hv Hp. rewrite Hv. unfold delete_heap. rewrite Hp. cbn. rewrite Hv, decide_True by done. cbn. rewrite Hv.
    eexists. split; [done|]. cbn. rewrite lookup_insert_eq. set_solver.
  - intros Hv. rewrite Hv. cbn. rewrite lookup_insert_eq, decide_True by done. cbn. rewrite lookup_insert_eq. by eexists.
Qed.

(** ** Examples *)

Definition demo : list uop :=
  [U_from 0 16; U_from 1 64; U_move 2 0; U_assign 2 1; U_assign_from 1 8; U_empty 3; U_destruct 0].

Definition demo_state : ufs := match run_ops demo init_fns with Some (_, s) => s | None => init_fns end.

Lemma demo_runs : run_ops demo init_fns = Some (Ret tt, demo_state).
Proof. vm_compute. reflexivity. Qed.

Lemma uf_owned_once_witness :
  destroyed demo_state = [1%positive] ∧ NoDup (held demo_state ++ destroyed demo_state).
Proof.
  split; [vm_compute; reflexivity|].
  destruct (uf_owned_once demo _ demo_runs) as (s & E & Hn & _). injection E as ->. exact Hn.
Defined.

Lemma uf_move_transfers_witness :
  target 2 demo_state = Some (Closure 2 64) ∧
  ∃ s', run_op (U_assign 1 2) demo_state = (Ret tt, s') ∧ target 1 s' = Some (Closure 2 64).
Proof.
  assert (target 2 demo_state = Some (Closure 2 64)) as Et by (vm_compute; reflexivity). split; [exact Et|].
  destruct (uf_move_transfers demo demo_state 1 2 demo_runs) as (s' & E & H1 & _); [vm_compute; reflexivity|].
  exists s'. split; [exact E|]. rewrite H1. exact Et.
Defined.

Lemma uf_small_fits_witness : (impl_size 40 8 ≤ buffer_size)%Z.
Proof.
  apply (uf_small_fits 40 8); [set_solver|lia|by exists 5%Z|reflexivity].
Defined.

Lemma uf_self_assignment_witness :
  ∃ s', assign_move 1 1 demo_state = (Halt undefined_behaviour, s').
Proof.
  apply (uf_self_assignment 1 (Closure 3 8) demo_state). vm_compute. reflexivity.
Defined.
