(* ===== verification/Pool.v ===== *)
(** * Pools of request states

    Model of src/include/oomph/util/pool_factory.hpp and pool_allocator.hpp: the memory of
    the request states of a communicator comes from a pool that the communicator owns, and
    the states are shared through the pointers of SharedPtr.v.

    A pool of Boost is a parameter: whether it has memory for another chunk.  Chunks have
    the size that the pool was made with; when a pool is destroyed, its chunks are gone,
    whatever is in them, and no destructor runs. *)
From S2P Require Import Prelude SharedPtr.
Local Open Scope Z_scope.

Create HintDb shrinks.

Section pool.
Context {T : Type}.
(** [sizeof(control_block_impl<T, pool_allocator<char>>)], which is
    [unsafe_shared_ptr<T>::allocation_size<pool_allocator<char>>()] *)
Variable allocation_size : Z.

(** [pools]: the factories, with [get_requested_size()] of their pools; [home]: the pool of
    the allocator [m_alloc] in a control block. *)
Record factory_state : Type := FactoryState {
  ptrs : ptr_state T;
  pools : gmap nat Z;
  home : gmap positive nat
}.

Definition on_ptrs {A} (m : M (ptr_state T) A) : M factory_state A := λ s,
  let '(r, p) := m (ptrs s) in (r, FactoryState p (pools s) (home s)).

(** [pool_factory()] *)
Definition new_factory (f : nat) : M factory_state unit :=
  modify (λ s, FactoryState (ptrs s) (<[f := allocation_size]> (pools s)) (home s)).

(** The objects in the chunks of other pools *)
Definition survivors (f : nat) (s : factory_state) : gmap positive (control_block T) :=
  filter (λ lb, home s !! lb.1 ≠ Some f) (blocks (ptrs s)).

(** [~pool_factory()] *)
Definition destroy_factory (f : nat) : M factory_state unit := modify (λ s,
  FactoryState
    (PtrState (survivors f s) (vars (ptrs s)) (freed (ptrs s)))
    (delete f (pools s)) (home s)).

(** [pool_allocator::allocate(n)] of objects of [size] bytes; [got]: the pool has memory. *)
Definition pool_allocate (f : nat) (size n : Z) (got : bool) : M factory_state unit :=
  let! ps := gets pools in
  match ps !! f with
  | None => stop undefined_behaviour
  | Some requested =>
      cassert (size * n <=? requested) ;;;
      if got then ret tt else throw bad_alloc
  end.

(** [pool_factory::make], into the variable [v] *)
Definition make (f : nat) (v : var) (x : T) (got : bool) : M factory_state unit :=
  pool_allocate f allocation_size 1 got ;;;
  let! l := on_ptrs (allocate_shared v x) in
  modify (λ s, FactoryState (ptrs s) (pools s) (<[l := f]> (home s))).

(** Programs: pointers are made by factories only. *)
Inductive pool_op : Type :=
| NewFactory (f : nat) | DestroyFactory (f : nat) | Make (f n : nat) (x : T) (got : bool) | Pointer (o : SharedPtr.op T).

Definition run_pool_op (o : pool_op) : M factory_state unit :=
  match o with
  | NewFactory f => new_factory f
  | DestroyFactory f => destroy_factory f
  | Make f n x got => make f (Local n) x got
  | Pointer o => on_ptrs (exec o)
  end.

Definition is_make (o : SharedPtr.op T) : bool := match o with OpMake _ _ => true | _ => false end.

(** A factory is destroyed after the last pointer to what it made. *)
Definition pool_enabled (o : pool_op) (s : factory_state) : Prop :=
  match o with
  | NewFactory f => pools s !! f = None
  | DestroyFactory f => is_Some (pools s !! f) ∧ ∀ l, is_Some (blocks (ptrs s) !! l) → home s !! l ≠ Some f
  | Make f n _ _ => is_Some (pools s !! f) ∧ vars (ptrs s) !! Local n = None
  | Pointer o => is_make o = false ∧ enabled o (ptrs s)
  end.

Definition fits (s : factory_state) : Prop := Z.of_nat (S (S (size (vars (ptrs s))))) < 2 ^ 64.

Inductive pool_step (s s' : factory_state) : Prop :=
| Pool_step o r : pool_enabled o s → fits s → run_pool_op o s = (r, s') → pool_step s s'.

(** The reference counts are right, and every object lives in the chunk of a pool that
    exists, which is large enough for it. *)
Record pool_ok (s : factory_state) : Prop := {
  po_wf : wf (ptrs s);
  po_home l : is_Some (blocks (ptrs s) !! l) → ∃ f, home s !! l = Some f ∧ is_Some (pools s !! f);
  po_size f z : pools s !! f = Some z → z = allocation_size
}.

(** ** Operations on pointers do not make objects *)

Definition shrinks {A} (m : M (ptr_state T) A) : Prop :=
  ∀ s l, is_Some (blocks (m s).2 !! l) → is_Some (blocks s !! l).

Lemma shrinks_bnd {A B} (m : M (ptr_state T) A) (k : A → M (ptr_state T) B) :
  shrinks m → (∀ a, shrinks (k a)) → shrinks (bnd m k).
Proof.
  intros Hm Hk s l. specialize (Hm s l). unfold bnd. destruct (m s) as [[a| |] s1]; cbn in *; [|done..].
  intros H. by apply Hm, (Hk a s1 l).
Qed.
Lemma shrinks_ret {A} (a : A) : shrinks (ret a).
Proof. by intros s l. Qed.
Lemma shrinks_stop {A} h : shrinks (A := A) (stop h).
Proof. by intros s l. Qed.
Lemma shrinks_cassert b : shrinks (cassert b).
Proof. destruct b; by intros s l. Qed.
Lemma shrinks_read v : shrinks (read v).
Proof. intros s l. unfold read. by destruct (vars s !! v). Qed.
Lemma shrinks_write v p : shrinks (write v p).
Proof. intros s l. unfold write. by destruct (vars s !! v). Qed.
Lemma shrinks_declare v p : shrinks (declare v p).
Proof. intros s l. unfold declare. by destruct (vars s !! v). Qed.
Lemma shrinks_undeclare v : shrinks (undeclare v).
Proof. intros s l. unfold undeclare. by destruct (vars s !! v). Qed.
Lemma shrinks_block l : shrinks (block l).
Proof. intros s l'. unfold block. by destruct (blocks s !! l). Qed.
Lemma shrinks_set_count l c : shrinks (set_count l c).
Proof.
  intros s l'. unfold set_count, bnd, block. destruct (blocks s !! l) as [b|] eqn:Hb; [|done]. cbn.
  rewrite lookup_insert_is_Some'. intros [<-|?]; [by exists b|done].
Qed.
Lemma shrinks_deallocate l : shrinks (deallocate l).
Proof. intros s l'. cbn. rewrite lookup_delete_is_Some. by intros [_ ?]. Qed.
Hint Resolve shrinks_bnd shrinks_ret shrinks_stop shrinks_cassert shrinks_read shrinks_write shrinks_declare
  shrinks_undeclare shrinks_block shrinks_set_count shrinks_deallocate : shrinks.

Lemma shrinks_acquire p : shrinks (acquire p).
Proof. destruct p; cbn; auto with shrinks. Qed.
Lemma shrinks_destroy fuel v : shrinks (destroy fuel v).
Proof.
  revert v. induction fuel as [|fuel IH]; intros v; cbn; [auto with shrinks|].
  apply shrinks_bnd; [auto with shrinks|]. intros [l|]; [|auto with shrinks].
  apply shrinks_bnd; [auto with shrinks|]. intros b. apply shrinks_bnd; [auto with shrinks|]. intros _.
  apply shrinks_bnd; [|auto with shrinks]. destruct (_ =? 0); auto 6 with shrinks.
Qed.
Hint Resolve shrinks_acquire shrinks_destroy : shrinks.

Lemma exec_shrinks o : is_make o = false → shrinks (exec o).
Proof.
  destruct o; cbn; [done|..]; intros _;
    unfold copy_construct, move_construct, copy_assign, move_assign, destruct_ptr, create_self_ref, release_self_ref,
      shared_from_this, move_assign, destruct_ptr, move_construct, destroy_ptr;
    repeat first [by auto with shrinks | apply shrinks_bnd; [|intros ?]].
Qed.

(** ** Safety *)

Lemma allocate_blocks v x s l s' :
  allocate_shared (T := T) v x s = (Ret l, s') → blocks s' = <[l := ControlBlock 1 x true]> (blocks s).
Proof.
  assert (∀ w p t t' (a : unit), declare (T := T) w p t = (Ret a, t') → blocks t' = blocks t) as Hd.
  { intros w p t t' a. unfold declare. destruct (vars t !! w); by intros [= <- <-]. }
  unfold allocate_shared. intros (t & s0 & [= <- <-] & E)%bnd_inv. apply bnd_inv in E as (u & s1 & [= <- <-] & E).
  apply bnd_inv in E as (u1 & s2 & E2 & E). apply bnd_inv in E as (u2 & s3 & E3 & [= <- <-]).
  by rewrite (Hd _ _ _ _ _ E3), (Hd _ _ _ _ _ E2).
Qed.

Lemma make_returns f n x s :
  pool_ok s → is_Some (pools s !! f) → vars (ptrs s) !! Local n = None → fits s →
  ∃ s', make f (Local n) x true s = (Ret tt, s') ∧ pool_ok s'.
Proof.
  intros Hok [z Hf] Hn Hsz. pose proof (po_size s Hok f z Hf) as ->.
  destruct (allocate_shared_ok (ptrs s) n x) as (l & p & E & Hwf & _); [apply Hok|done|exact Hsz|].
  exists (FactoryState p (pools s) (<[l := f]> (home s))). split.
  - unfold make, pool_allocate, bnd, gets, on_ptrs. rewrite Hf, Z.mul_1_r, Z.leb_refl. cbn -[allocate_shared]. by rewrite E.
  - split; cbn; [done| |apply Hok]. intros k. rewrite (allocate_blocks _ _ _ _ _ E).
    destruct (decide (k = l)) as [->|Hk]; [intros _; exists f; by rewrite lookup_insert_eq, Hf|].
    rewrite !lookup_insert_ne by done. apply Hok.
Qed.

Lemma pool_op_ok o s :
  pool_ok s → pool_enabled o s → fits s →
  ∃ r s', run_pool_op o s = (r, s') ∧ pool_ok s' ∧
    (r = Ret tt ∨ (∃ f n x, o = Make f n x false) ∧ r = Throw bad_alloc ∧ s' = s).
Proof.
  intros Hok Ho Hsz. destruct o as [f|f|f n x got|o]; cbn [pool_enabled run_pool_op] in *.
  - exists (Ret tt). eexists. split; [done|]. split; [|by left]. split; cbn; [apply Hok| |].
    + intros l Hl. destruct (po_home s Hok l Hl) as (g & ? & ?). exists g. split; [done|]. by apply lookup_insert_is_Some'; right.
    + intros g z. rewrite lookup_insert. case_decide; [by intros [= <-]|apply Hok].
  - destruct Ho as [Hf Hn]. assert (survivors f s = blocks (ptrs s)) as Eb.
    { apply map_filter_id. intros l b Hb. apply Hn. by exists b. }
    exists (Ret tt). eexists. split; [done|]. split; [|by left]. rewrite Eb. split; cbn.
    + by destruct (ptrs s) eqn:E; cbn; rewrite <- E; apply Hok.
    + intros l Hl. destruct (po_home s Hok l Hl) as (g & Hg & Hp). exists g. split; [done|].
      rewrite lookup_delete_ne; [done|]. intros ->. by destruct (Hn l Hl).
    + intros g z [_ Hg]%lookup_delete_Some. by eapply po_size.
  - destruct Ho as [Hf Hn]. destruct got.
    + destruct (make_returns f n x s Hok Hf Hn Hsz) as (s' & E & Hok'). exists (Ret tt), s'. split_and!; [done..|by left].
    + destruct Hf as [z Hf]. exists (Throw bad_alloc), s. split; [|split; [done|right; split; [by exists f, n, x|done]]].
      unfold make, pool_allocate, bnd, gets. rewrite Hf, Z.mul_1_r, (po_size s Hok f z Hf), Z.leb_refl. done.
  - destruct Ho as [Hm Ho]. destruct (exec_ok o (ptrs s)) as (p & E & Hwf); [apply Hok|done|done|].
    exists (Ret tt), (FactoryState p (pools s) (home s)). split; [by unfold on_ptrs; rewrite E|]. split; [|by left].
    split; cbn; [done| |apply Hok]. intros l Hl. apply (po_home s Hok). pose proof (exec_shrinks o Hm (ptrs s) l) as H.
    rewrite E in H. by apply H.
Qed.

Definition no_factories : factory_state := FactoryState (PtrState ∅ ∅ []) ∅ ∅.

Lemma no_factories_ok : pool_ok no_factories.
Proof. split; cbn; [apply wf_empty|by intros l [? ?]|done]. Qed.

Lemma pool_steps_ok s s' : rtc pool_step s s' → pool_ok s → pool_ok s'.
Proof.
  induction 1 as [|s1 s2 s3 [o r Ho Hs E] _ IH]; [done|]. intros Hok. apply IH.
  destruct (pool_op_ok o s1 Hok Ho Hs) as (r' & s' & E' & ? & _). congruence.
Qed.

(** C4: As long as a factory is destroyed after the last pointer to what it made, request
    states from pools are safe: every operation works, only a pool without memory throws,
    and then nothing has changed; every object lives in a chunk of a pool that exists,
    pointers can be dereferenced and count their owners; and when a factory is destroyed
    no object in it is left behind. *)
Theorem pool_states_safe s :
  rtc pool_step no_factories s →
  (∀ o, pool_enabled o s → fits s → ∃ r s', run_pool_op o s = (r, s') ∧
     (r = Ret tt ∨ (∃ f n x, o = Make f n x false) ∧ r = Throw bad_alloc ∧ s' = s)) ∧
  (∀ v l, vars (ptrs s) !! v = Some (Some l) →
     (∃ f, home s !! l = Some f ∧ pools s !! f = Some allocation_size) ∧
     ∃ x, deref v (ptrs s) = (Ret x, ptrs s) ∧
          use_count v (ptrs s) = (Ret (Z.of_nat (owners l (vars (ptrs s)))), ptrs s)) ∧
  (pools s = ∅ → blocks (ptrs s) = ∅).
Proof.
  intros Hs. pose proof (pool_steps_ok _ _ Hs no_factories_ok) as Hok. split_and!.
  - intros o Ho Hsz. destruct (pool_op_ok o s Hok Ho Hsz) as (r & s' & ? & _ & ?). eauto.
  - intros v l Hv. destruct (wf_alive _ (po_wf s Hok) v l Hv) as [b Hb]. split.
    + destruct (po_home s Hok l) as (f & Hf & [z Hz]); [by exists b|]. exists f. by rewrite <- (po_size s Hok f z Hz).
    + exists (m_t b). destruct (wf_count _ (po_wf s Hok) l b Hb) as [Hc _].
      unfold deref, use_count. rewrite !(bnd_ret _ _ _ _ _ (read_ok _ _ _ Hv)). unfold bnd, block. by rewrite Hb, <- Hc.
  - intros He. apply map_empty. intros l. apply eq_None_not_Some. intros Hl.
    destruct (po_home s Hok l Hl) as (f & _ & [z Hz]). by rewrite He in Hz.
Qed.

Lemma dangling_undefined n l (p : ptr_state T) :
  vars p !! Local n = Some (Some l) → blocks p !! l = None →
  deref (Local n) p = (Halt undefined_behaviour, p) ∧ exec (OpDestruct n) p = (Halt undefined_behaviour, p).
Proof.
  intros Hv Hb. assert (block l p = (Halt undefined_behaviour, p)) as E by (unfold block; by rewrite Hb). split.
  - unfold deref. rewrite (bnd_ret _ _ _ _ _ (read_ok _ _ _ Hv)). unfold bnd. by rewrite E.
  - cbn [exec]. unfold destruct_ptr, destroy_ptr, bnd at 1. cbn [destroy].
    rewrite (bnd_ret _ _ _ _ _ (read_ok _ _ _ Hv)). unfold bnd at 1. by rewrite E.
Qed.

(** A pointer that outlives the factory of its object (a request that outlives its
    communicator) cannot be used, nor destroyed. *)
Theorem pool_outlived_undefined s f n l :
  vars (ptrs s) !! Local n = Some (Some l) → home s !! l = Some f →
  ∃ s', destroy_factory f s = (Ret tt, s') ∧
    on_ptrs (deref (Local n)) s' = (Halt undefined_behaviour, s') ∧
    run_pool_op (Pointer (OpDestruct n)) s' = (Halt undefined_behaviour, s').
Proof.
  intros Hv Hf. eexists. split; [done|].
  destruct (dangling_undefined n l (PtrState (survivors f s) (vars (ptrs s)) (freed (ptrs s)))) as [E1 E2]; [done| |].
  - apply map_lookup_filter_None. right. intros b _. cbn. by intros H.
  - unfold on_ptrs, run_pool_op. cbn [ptrs]. split; [by rewrite E1|]. unfold on_ptrs. cbn [ptrs]. by rewrite E2.
Qed.
End pool.

(** ** A request of a communicator *)

Definition with_request : factory_state (T := nat) :=
  (run_pool_op 64 (Make 1 0 7%nat true) (run_pool_op 64 (NewFactory 1) no_factories).2).2.

Lemma with_request_reached : rtc (pool_step 64) no_factories with_request.
Proof.
  eapply rtc_l; [eapply (Pool_step _ _ _ (NewFactory 1)); reflexivity|].
  apply rtc_once. eapply (Pool_step _ _ _ (Make 1 0 7%nat true)); [|reflexivity|reflexivity].
  split; [by eexists|reflexivity].
Qed.

Lemma pool_states_safe_witness :
  vars (ptrs with_request) !! Local 0 = Some (Some 1%positive) ∧
  ∃ x, deref (Local 0) (ptrs with_request) = (Ret x, ptrs with_request).
Proof.
  split; [reflexivity|].
  destruct (pool_states_safe 64 with_request with_request_reached) as (_ & H & _).
  destruct (H (Local 0) 1%positive eq_refl) as (_ & x & Hx & _). by exists x.
Defined.

Lemma pool_outlived_undefined_witness :
  ∃ s', destroy_factory 1 with_request = (Ret tt, s') ∧
    on_ptrs (deref (Local 0)) s' = (Halt undefined_behaviour, s') ∧
    run_pool_op 64 (Pointer (OpDestruct 0)) s' = (Halt undefined_behaviour, s').
Proof. exact (pool_outlived_undefined 64 with_request 1 0 1%positive eq_refl eq_refl). Defined.
