(* ===== verification/Guards.v ===== *)
(** * Guards, counters and storage

    Model of the small resource classes: src/increment_guard.hpp, src/device_guard.hpp,
    include/oomph/util/stack_storage.hpp with placement_new.hpp and
    src/util/stack_pimpl_src.hpp, include/oomph/util/moved_bit.hpp and
    mpi_comm_holder.hpp, src/libfabric/simple_counter.hpp.  Each is state and one
    definition per member; the theorems say that what an object holds is given back
    exactly once. *)
From S2P Require Import Prelude.
Local Open Scope Z_scope.

(** ** increment_guard *)

Module Increment.

(** The counters (of type [std::size_t]) and the guards of a program; a guard that has been
    moved from has a null pointer. *)
Record state : Type := State {
  cells : gmap nat Z;
  guards : gmap nat (option nat)
}.

Definition cell (c : nat) (s : state) : Z := default 0 (cells s !! c).
Definition add (c : nat) (d : Z) (s : state) : state :=
  State (<[c := u64 (cell c s + d)]> (cells s)) (guards s).

Definition construct (g c : nat) : M state unit :=
  modify (λ s, State (cells (add c 1 s)) (<[g := Some c]> (guards s))).

Definition construct_move (g o : nat) : M state unit := λ s,
  match guards s !! o with
  | Some m => (Ret tt, State (cells s) (<[g := m]> (<[o := None]> (guards s))))
  | None => (Halt undefined_behaviour, s)
  end.

Definition destroy (g : nat) : M state unit := λ s,
  match guards s !! g with
  | Some (Some c) => (Ret tt, State (cells (add c (-1) s)) (delete g (guards s)))
  | Some None => (Ret tt, State (cells s) (delete g (guards s)))
  | None => (Halt undefined_behaviour, s)
  end.

Inductive op : Type := Construct (g c : nat) | Move (g o : nat) | Destroy (g : nat).
Definition run_op (o : op) : M state unit :=
  match o with Construct g c => construct g c | Move g o => construct_move g o | Destroy g => destroy g end.

(** Objects are constructed once. *)
Definition allowed (o : op) (s : state) : Prop :=
  match o with
  | Construct g _ => guards s !! g = None
  | Move g o => guards s !! g = None ∧ is_Some (guards s !! o)
  | Destroy g => is_Some (guards s !! g)
  end.

Inductive step : state → state → Prop :=
| Step o s s' : allowed o s → run_op o s = (Ret tt, s') → step s s'.

(** The guards that count in cell [c] *)
Definition holds (c : nat) (m : option nat) : Prop := m = Some c.
#[export] Instance holds_dec c m : Decision (holds c m).
Proof. unfold holds. apply _. Defined.
Definition held (c : nat) (s : state) : nat := map_count (holds c) (guards s).

Definition ok (z : nat → Z) (s : state) : Prop := ∀ c, cell c s = u64 (z c + Z.of_nat (held c s)).

Lemma cell_add c c' x s gs : cell c (State (<[c' := x]> (cells s)) gs) = if decide (c = c') then x else cell c s.
Proof. unfold cell. cbn. rewrite lookup_insert. repeat case_decide; subst; done. Qed.

Lemma u64_add_mod a b : u64 (u64 a + b) = u64 (a + b).
Proof. unfold u64. by rewrite Z.add_mod_idemp_l. Qed.

Lemma guard_construct_ok z g c s s' : ok z s → guards s !! g = None → construct g c s = (Ret tt, s') → ok z s'.
Proof.
  intros Hs Hg [= <-] k. unfold held. cbn [guards]. rewrite map_count_insert_fresh by done. fold (held k s).
  unfold indicator, holds. rewrite cell_add, (Hs k). destruct (decide (k = c)) as [->|Hk].
  - rewrite (Hs c), u64_add_mod, decide_True by done. f_equal. lia.
  - rewrite decide_False by congruence. f_equal. lia.
Qed.

Lemma guard_move_ok z g o s s' : ok z s → guards s !! g = None → construct_move g o s = (Ret tt, s') → ok z s'.
Proof.
  intros Hs Hg. unfold construct_move. destruct (guards s !! o) as [m|] eqn:Ho; [|done]. intros [= <-] k.
  assert (g ≠ o) as Hne by congruence. unfold held. cbn [guards].
  rewrite map_count_insert_fresh by by rewrite lookup_insert_ne.
  pose proof (map_count_update (holds k) (guards s) o None m Ho) as E. fold (held k s) in E.
  rewrite (indicator_false _ None) in E by done. unfold cell. cbn [cells]. fold (cell k s). rewrite (Hs k). f_equal. lia.
Qed.

Lemma guard_destroy_ok z g s s' : ok z s → destroy g s = (Ret tt, s') → ok z s'.
Proof.
  intros Hs. unfold destroy. destruct (guards s !! g) as [m|] eqn:Hg; [|done].
  assert (∀ k, held k s = held k (State ∅ (delete g (guards s))) + indicator (holds k) m)%nat as E
    by (intros k; apply map_count_delete; done).
  destruct m as [c|]; intros [= <-] k; specialize (E k); fold (held k (State ∅ (delete g (guards s)))).
  - change (held k (State _ (delete g (guards s)))) with (held k (State ∅ (delete g (guards s)))).
    rewrite cell_add. destruct (decide (k = c)) as [->|Hk].
    + rewrite indicator_true in E by done. rewrite (Hs c), u64_add_mod. f_equal. lia.
    + rewrite indicator_false in E by (unfold holds; congruence). rewrite (Hs k). f_equal. lia.
  - rewrite indicator_false in E by done.
    change (held k (State _ (delete g (guards s)))) with (held k (State ∅ (delete g (guards s)))).
    change (cell k (State (cells s) _)) with (cell k s). rewrite (Hs k). f_equal. lia.
Qed.

Lemma guard_steps_ok z s s' : ok z s → rtc step s s' → ok z s'.
Proof.
  intros Hok Hs. induction Hs as [|s1 s2 s3 [o s s' Ha E] _ IH]; [done|]. apply IH.
  destruct o; cbn in *; [by eapply guard_construct_ok|by eapply guard_move_ok; [|apply Ha|]|by eapply guard_destroy_ok].
Qed.

(** A counter is its old value plus the number of guards that exist for it, wherever they
    have been moved; when they are all gone, it has its old value. *)
Theorem increment_guard_balanced cs s c :
  map_Forall (λ _ x, 0 ≤ x < 2 ^ 64) cs → rtc step (State cs ∅) s →
  cell c s = u64 (cell c (State cs ∅) + Z.of_nat (held c s)) ∧ (guards s = ∅ → cell c s = cell c (State cs ∅)).
Proof.
  intros Hc Hs. assert (∀ k, u64 (cell k (State cs ∅)) = cell k (State cs ∅)) as Hz.
  { intros k. unfold cell. cbn. destruct (cs !! k) as [x|] eqn:E; [apply u64_small; by apply (Hc k x)|done]. }
  assert (ok (λ k, cell k (State cs ∅)) s) as Hok.
  { assert (ok (λ k, cell k (State cs ∅)) (State cs ∅)) as H0.
    { intros k. change (held k (State cs ∅)) with 0%nat. by rewrite Z.add_0_r, Hz. }
    by eapply guard_steps_ok. }
  split; [apply Hok|]. intros Hg. rewrite (Hok c). unfold held. rewrite Hg.
  change (map_count (holds c) ∅) with 0%nat. by rewrite Z.add_0_r, Hz.
Qed.

(** A guard is constructed and moved. *)
Definition two_guards : state := (run_op (Move 1 0) (run_op (Construct 0 7) (State ∅ ∅)).2).2.

Lemma two_guards_reached : rtc step (State ∅ ∅) two_guards.
Proof.
  eapply rtc_l; [apply (Step (Construct 0 7)); reflexivity|]. apply rtc_once, (Step (Move 1 0)); [|reflexivity].
  split; [reflexivity|by eexists].
Qed.

Lemma increment_guard_balanced_witness :
  cell 7 two_guards = u64 (0 + Z.of_nat (held 7 two_guards)) ∧ cell 7 two_guards = 1.
Proof.
  split; [|reflexivity].
  destruct (increment_guard_balanced ∅ two_guards 7 (map_Forall_empty _) two_guards_reached) as [H _]. exact H.
Defined.
End Increment.

(** ** device_guard *)

Module Device.

(** [device_guard_base]: the device of the thread is the state. *)
Record guard : Type := Guard {
  m_on_device : bool;
  m_new_device_id : Z;
  m_current_device_id : Z
}.

Definition construct (on_device : bool) (new_id : Z) : M Z guard := λ current,
  let g := Guard on_device new_id current in
  (Ret g, if on_device && negb (current =? new_id) then new_id else current).

Definition destroy (g : guard) : M Z unit := λ d,
  (Ret tt, if m_on_device g && negb (m_current_device_id g =? m_new_device_id g) then m_current_device_id g else d).

(** A pointer of hwmalloc: its host and device side *)
Record pointer : Type := Pointer {
  on_device : bool;
  device_id : Z;
  host_ptr : positive;
  device_ptr : positive
}.

(** [device_guard dg(ptr);] or [const_device_guard dg(ptr);] at the head of a scope, whose
    body uses [dg.data()] *)
Definition with_device {A} (ptr : pointer) (body : positive → M Z A) : M Z A :=
  let! g := construct (on_device ptr) (device_id ptr) in
  scoped (body (if on_device ptr then device_ptr ptr else host_ptr ptr)) (destroy g).

(** A scope does not change the device of the thread, however it is left, if what it does
    does not (other scopes, for example); inside, memory of a device is used on its
    device, through its device pointer, and other memory where the thread is. *)
Theorem device_guard_restores {A} ptr (body : positive → M Z A) d :
  (∀ p d', (body p d').2 = d') →
  (with_device ptr body d).2 = (if on_device ptr then
     match body (device_ptr ptr) (device_id ptr) with (Halt _, _) => device_id ptr | _ => d end else d) ∧
  (with_device ptr body d).1 =
    (if on_device ptr then body (device_ptr ptr) (device_id ptr) else body (host_ptr ptr) d).1.
Proof.
  intros Hb. unfold with_device, bnd at 1, construct, scoped, destroy, bnd, ret, throw. cbn [m_on_device m_new_device_id m_current_device_id].
  destruct (on_device ptr); cbn [andb].
  - pose proof (Hb (device_ptr ptr) (device_id ptr)) as E. destruct (Z.eqb_spec d (device_id ptr)) as [->|Hd]; cbn [negb].
    + destruct (body _ _) as [[] d']; cbn in *; by subst.
    + destruct (body _ _) as [[] d']; cbn in *; by subst.
  - pose proof (Hb (host_ptr ptr) d) as E. destruct (body _ _) as [[] d']; cbn in *; by subst.
Qed.

(** Nested scopes on two devices *)
Lemma device_guard_restores_witness :
  (with_device (Pointer true 3 1 2) (λ p, with_device (Pointer true 4 5 6) (λ q, ret (p, q))) 0) = (Ret (2, 6)%positive, 0).
Proof.
  rewrite (surjective_pairing (with_device _ _ _)).
  destruct (device_guard_restores (Pointer true 3 1 2) (λ p, with_device (Pointer true 4 5 6) (λ q, ret (p, q))) 0) as [E1 E2].
  - intros p d. cbn. unfold with_device, bnd, construct, scoped, destroy. cbn. unfold bnd, ret. cbn.
    destruct (Z.eqb_spec d 4) as [->|]; reflexivity.
  - rewrite E1, E2. reflexivity.
Defined.
End Device.

(** ** stack_storage and stack_pimpl *)

Module Storage.
Section storage.
(** The values of [T], and what is left of one after a move *)
Context {V : Type} (moved_from : V → V).

(** [m_empty] of every storage object; the objects of type [T] that are alive in the
    buffers; and how many have been constructed and destroyed. *)
Record state : Type := State {
  m_empty : gmap nat bool;
  m_impl : gmap nat V;
  constructed : nat;
  destroyed : nat
}.

Definition empty_of (p : nat) : M state bool := λ s,
  match m_empty s !! p with Some e => (Ret e, s) | None => (Halt undefined_behaviour, s) end.
Definition set_empty (p : nat) (e : bool) : M state unit :=
  modify (λ s, State (<[p := e]> (m_empty s)) (m_impl s) (constructed s) (destroyed s)).

(** [placement_new<T>(&m_impl, ...)]; an object that is alive in the buffer would be lost. *)
Definition placement_new (p : nat) (v : V) : M state unit := λ s,
  match m_impl s !! p with
  | None => (Ret tt, State (m_empty s) (<[p := v]> (m_impl s)) (S (constructed s)) (destroyed s))
  | Some _ => (Halt undefined_behaviour, s)
  end.

(** [placement_delete<T>(&m_impl)] *)
Definition placement_delete (p : nat) : M state unit := λ s,
  match m_impl s !! p with
  | Some _ => (Ret tt, State (m_empty s) (delete p (m_impl s)) (constructed s) (S (destroyed s)))
  | None => (Halt undefined_behaviour, s)
  end.

(** [*get()] *)
Definition get (p : nat) : M state V :=
  let! e := empty_of p in
  cassert (negb e) ;;;
  λ s, match m_impl s !! p with Some v => (Ret v, s) | None => (Halt undefined_behaviour, s) end.

(** [std::move( *get())] is moved from. *)
Definition take (p : nat) : M state V :=
  let! v := get p in
  modify (λ s, State (m_empty s) (<[p := moved_from v]> (m_impl s)) (constructed s) (destroyed s)) ;;;
  ret v.

Definition construct_default (p : nat) : M state unit := set_empty p true.
Definition construct (p : nat) (v : V) : M state unit := set_empty p false ;;; placement_new p v.

Definition construct_move (p q : nat) : M state unit :=
  let! e := empty_of q in
  set_empty p e ;;;
  if e then ret tt else let! v := take q in placement_new p v.

Definition assign_move (p q : nat) : M state unit :=
  let! e := empty_of p in
  let! o := empty_of q in
  if e && o then ret tt
  else if e && negb o then let! v := take q in placement_new p v ;;; set_empty p false
  else if negb e && o then placement_delete p ;;; set_empty p true
  else
    let! v := take q in
    modify (λ s, State (m_empty s) (<[p := v]> (m_impl s)) (constructed s) (destroyed s)).

Definition destroy (p : nat) : M state unit :=
  let! e := empty_of p in
  (if e then ret tt else placement_delete p) ;;;
  modify (λ s, State (delete p (m_empty s)) (m_impl s) (constructed s) (destroyed s)).

Inductive op : Type :=
| Default (p : nat) | Construct (p : nat) (v : V) | Move (p q : nat) | Assign (p q : nat) | Destroy (p : nat).

Definition run_op (o : op) : M state unit :=
  match o with
  | Default p => construct_default p
  | Construct p v => construct p v
  | Move p q => construct_move p q
  | Assign p q => assign_move p q
  | Destroy p => destroy p
  end.

(** Objects are constructed once and not assigned to themselves. *)
Definition allowed (o : op) (s : state) : Prop :=
  match o with
  | Default p | Construct p _ => m_empty s !! p = None
  | Move p q => m_empty s !! p = None ∧ is_Some (m_empty s !! q)
  | Assign p q => p ≠ q ∧ is_Some (m_empty s !! p) ∧ is_Some (m_empty s !! q)
  | Destroy p => is_Some (m_empty s !! p)
  end.

(** A buffer holds an object if and only if its storage is not empty. *)
Record ok (s : state) : Prop := {
  ok_full p : m_empty s !! p = Some false ↔ is_Some (m_impl s !! p);
  ok_count : constructed s = (destroyed s + size (m_impl s))%nat
}.

Lemma empty_of_run p e s : m_empty s !! p = Some e → empty_of p s = (Ret e, s).
Proof. unfold empty_of. by intros ->. Qed.

Lemma take_run p s :
  ok s → m_empty s !! p = Some false →
  ∃ v, m_impl s !! p = Some v ∧
    take p s = (Ret v, State (m_empty s) (<[p := moved_from v]> (m_impl s)) (constructed s) (destroyed s)).
Proof.
  intros Hs Hp. destruct (proj1 (ok_full _ Hs p) Hp) as [v Hv]. exists v. split; [done|].
  unfold take, get. erewrite bnd_ret; [done|]. erewrite bnd_ret by by apply empty_of_run.
  erewrite bnd_ret by done. by rewrite Hv.
Qed.

Lemma no_object s p : ok s → m_empty s !! p ≠ Some false → m_impl s !! p = None.
Proof. intros Hs Hp. apply eq_None_not_Some. by rewrite <- (ok_full _ Hs). Qed.

(** The changes that the members make to the two tables *)
Lemma put_empty_ok s p : ok s → m_impl s !! p = None → ok (State (<[p := true]> (m_empty s)) (m_impl s) (constructed s) (destroyed s)).
Proof.
  intros [Hf Hc] Hp. split; cbn; [|done]. intros r. rewrite <- Hf, lookup_insert. case_decide; [subst|done].
  rewrite Hf, Hp. split; [done|by intros [? ?]].
Qed.

Lemma put_object_ok s p v :
  ok s → m_impl s !! p = None → ok (State (<[p := false]> (m_empty s)) (<[p := v]> (m_impl s)) (S (constructed s)) (destroyed s)).
Proof.
  intros [Hf Hc] Hp. split; cbn.
  - intros r. rewrite !lookup_insert. case_decide; [by split; [eexists|]|apply Hf].
  - rewrite map_size_insert_None by done. lia.
Qed.

Lemma overwrite_ok s q w :
  ok s → m_empty s !! q = Some false → ok (State (m_empty s) (<[q := w]> (m_impl s)) (constructed s) (destroyed s)).
Proof.
  intros [Hf Hc] Hq. split; cbn.
  - intros r. rewrite Hf, lookup_insert. case_decide; [subst|done]. split; [by eexists|]. intros _. by apply Hf.
  - rewrite map_size_insert_Some; [done|by apply Hf].
Qed.

Lemma drop_object_ok s p em :
  ok s → m_empty s !! p = Some false → (∀ r, r ≠ p → em !! r = m_empty s !! r) → em !! p ≠ Some false →
  ok (State em (delete p (m_impl s)) (constructed s) (S (destroyed s))).
Proof.
  intros [Hf Hc] Hp Hem Hpe. destruct (proj1 (Hf p) Hp) as [v Hv]. split; cbn.
  - intros r. rewrite lookup_delete. case_decide as E; [subst|rewrite Hem by done; apply Hf]. split; [done|by intros [? ?]].
  - rewrite map_size_delete_Some by by eexists. pose proof (map_size_ne_0_lookup_2 (m_impl s) p ltac:(by eexists)). lia.
Qed.

(** An object moves into an empty storage. *)
Lemma moved_in_ok p q v w s :
  ok s → p ≠ q → m_empty s !! q = Some false → m_impl s !! p = None →
  ok (State (<[p := false]> (m_empty s)) (<[p := v]> (<[q := w]> (m_impl s))) (S (constructed s)) (destroyed s)).
Proof.
  intros Hs Hne Hq Hp. pose proof (overwrite_ok s q w Hs Hq) as Hw. apply (put_object_ok _ p v) in Hw; [done|].
  cbn. by rewrite lookup_insert_ne.
Qed.

Lemma move_in p q s :
  ok s → p ≠ q → m_empty s !! q = Some false → m_impl s !! p = None →
  ∃ s', (let! v := take q in placement_new p v) s = (Ret tt, s') ∧ m_empty s' = m_empty s ∧
    ok (State (<[p := false]> (m_empty s')) (m_impl s') (constructed s') (destroyed s')).
Proof.
  intros Hs Hne Hq Hp. destruct (take_run q s Hs Hq) as (v & Hv & E). rewrite (bnd_ret _ _ _ _ _ E).
  unfold placement_new. cbn. rewrite lookup_insert_ne, Hp by done. eexists. split; [done|]. split; [done|]. cbn.
  by apply moved_in_ok.
Qed.

Lemma storage_move_ok p q s :
  ok s → m_empty s !! p = None → is_Some (m_empty s !! q) → ∃ s', construct_move p q s = (Ret tt, s') ∧ ok s'.
Proof.
  intros Hs Hp [e Hq]. assert (p ≠ q) as Hne by congruence. assert (m_impl s !! p = None) as Hi by (apply no_object; congruence).
  unfold construct_move. rewrite (bnd_ret _ _ _ _ _ (empty_of_run _ _ _ Hq)). unfold set_empty. erewrite bnd_ret by done.
  destruct e; [eexists; split; [done|by apply put_empty_ok]|].
  destruct (take_run q s Hs Hq) as (v & Hv & E). unfold bnd, take, get, empty_of, modify, ret. cbn.
  unfold bnd. cbn. rewrite lookup_insert_ne, Hq by done. cbn. rewrite Hv. unfold placement_new. cbn.
  rewrite lookup_insert_ne, Hi by done. eexists. split; [done|].
  by apply moved_in_ok.
Qed.

Lemma storage_assign_ok p q s :
  ok s → p ≠ q → is_Some (m_empty s !! p) → is_Some (m_empty s !! q) → ∃ s', assign_move p q s = (Ret tt, s') ∧ ok s'.
Proof.
  intros Hs Hne [e Hp] [o Hq]. unfold assign_move. rewrite (bnd_ret _ _ _ _ _ (empty_of_run _ _ _ Hp)).
  rewrite (bnd_ret _ _ _ _ _ (empty_of_run _ _ _ Hq)). destruct e, o; cbn [andb negb].
  - by exists s.
  - destruct (move_in p q s Hs Hne Hq) as (s' & E & Em & Hok); [apply no_object; congruence|].
    rewrite <- bnd_assoc. rewrite (bnd_ret _ _ _ _ _ E). by eexists.
  - destruct (proj1 (ok_full _ Hs p) Hp) as [v Hv]. unfold placement_delete, bnd. rewrite Hv. eexists. split; [done|]. cbn.
    apply drop_object_ok; [done..| |by rewrite lookup_insert_eq]. intros r Hr. by rewrite lookup_insert_ne.
  - destruct (take_run q s Hs Hq) as (v & Hv & E). rewrite (bnd_ret _ _ _ _ _ E). eexists. split; [done|]. cbn.
    pose proof (overwrite_ok s q (moved_from v) Hs Hq) as Hw. by apply (overwrite_ok _ p v) in Hw.
Qed.

Lemma storage_destroy_ok p s : ok s → is_Some (m_empty s !! p) → ∃ s', destroy p s = (Ret tt, s') ∧ ok s'.
Proof.
  intros Hs [e Hp]. unfold destroy. rewrite (bnd_ret _ _ _ _ _ (empty_of_run _ _ _ Hp)). destruct e.
  - erewrite bnd_ret by done. eexists. split; [done|]. destruct Hs as [Hf Hc]. split; cbn; [|done]. intros r.
    rewrite lookup_delete. case_decide; [subst|apply Hf]. rewrite <- Hf, Hp. split; done.
  - destruct (proj1 (ok_full _ Hs p) Hp) as [v Hv]. unfold placement_delete, bnd. rewrite Hv. eexists. split; [done|]. cbn.
    apply drop_object_ok; [done..| |by rewrite lookup_delete_eq]. intros r Hr. by rewrite lookup_delete_ne.
Qed.

Inductive step : state → state → Prop :=
| Step o s s' : allowed o s → run_op o s = (Ret tt, s') → step s s'.

Lemma storage_op_ok o s : ok s → allowed o s → ∃ s', run_op o s = (Ret tt, s') ∧ ok s'.
Proof.
  intros Hs Ho. destruct o as [p|p v|p q|p q|p]; cbn in *.
  - eexists. split; [done|]. apply put_empty_ok; [done|]. apply no_object; [done|congruence].
  - assert (m_impl s !! p = None) as Hi by (apply no_object; congruence). unfold construct, set_empty, placement_new, bnd, modify.
    cbn. rewrite Hi. eexists. split; [done|]. by apply put_object_ok.
  - destruct Ho. by apply storage_move_ok.
  - destruct Ho as (? & ? & ?). by apply storage_assign_ok.
  - by apply storage_destroy_ok.
Qed.

Lemma storage_steps_ok s s' : ok s → rtc step s s' → ok s'.
Proof.
  intros Hok Hs. induction Hs as [|s1 s2 s3 [o s s' Ha E] _ IH]; [done|]. apply IH.
  destruct (storage_op_ok o s Hok Ha) as (s'' & E' & ?). congruence.
Qed.

(** Objects in storages are constructed and destroyed in pairs: every member that is
    allowed works, on empty and on full storages, and an object is alive exactly in the
    storages that are not empty; each object that was constructed has been destroyed once
    or is alive, so that nothing is left when the last storage is gone. *)
Theorem stack_storage_balanced s :
  rtc step (State ∅ ∅ 0 0) s →
  (∀ o, allowed o s → ∃ s', run_op o s = (Ret tt, s')) ∧
  (∀ p, m_empty s !! p = Some false ↔ is_Some (m_impl s !! p)) ∧
  constructed s = (destroyed s + size (m_impl s))%nat ∧
  (m_empty s = ∅ → constructed s = destroyed s).
Proof.
  intros Hs. assert (ok (State ∅ ∅ 0 0)) as H0.
  { split; cbn; [|done]. intros p. rewrite !lookup_empty. split; [done|by intros [? ?]]. }
  pose proof (storage_steps_ok _ _ H0 Hs) as Hok. split_and!.
  - intros o Ho. destruct (storage_op_ok o s Hok Ho) as (s' & E & _). by exists s'.
  - apply Hok.
  - apply Hok.
  - intros He. rewrite (ok_count _ Hok). assert (m_impl s = ∅) as ->; [|rewrite map_size_empty; lia].
    apply map_empty. intros p. apply no_object; [done|]. by rewrite He, lookup_empty.
Qed.
End storage.

(** A storage is filled, moved from into a second one, and that one is emptied by an
    assignment. *)
Definition example : state (V := Z) :=
  (run_op (λ _, 0) (Assign 1 2) (run_op (λ _, 0) (Default 2) (run_op (λ _, 0) (Move 1 0)
    (run_op (λ _, 0) (Construct 0 5) (State ∅ ∅ 0 0)).2).2).2).2.

Lemma example_reached : rtc (step (λ _, 0)) (State ∅ ∅ 0 0) example.
Proof.
  eapply rtc_l; [apply (Step _ (Construct 0 5)); reflexivity|].
  eapply rtc_l; [apply (Step _ (Move 1 0)); [split; [reflexivity|by eexists]|reflexivity]|].
  eapply rtc_l; [apply (Step _ (Default 2)); reflexivity|].
  apply rtc_once, (Step _ (Assign 1 2)); [split; [done|split; by eexists]|reflexivity].
Qed.

Lemma stack_storage_balanced_witness :
  constructed example = 2%nat ∧ destroyed example = 1%nat ∧
  constructed example = (destroyed example + size (m_impl example))%nat.
Proof.
  split; [reflexivity|]. split; [reflexivity|].
  apply (stack_storage_balanced (λ _, 0) example example_reached).
Defined.
End Storage.

(** ** moved_bit *)

Module MovedBit.

(** [m_moved] of the objects that share one resource *)
Abbreviation bits := (gmap nat bool).

Definition construct_move (p q : nat) (m : bits) : option bits :=
  (λ b, <[p := b]> (<[q := true]> m)) <$> m !! q.
(** [operator=]: the bit of [p] is overwritten. *)
Definition assign_move (p q : nat) (m : bits) : option bits :=
  (λ b, <[p := b]> (<[q := true]> m)) <$> m !! q.

(** The objects that still have the resource *)
Definition owners (m : bits) : nat := map_count (λ b, b = false) m.

(** A move does not change how many objects have the resource; an assignment takes it
    away from the object that is overwritten. *)
Lemma moved_bit_owners p q m m' :
  p ≠ q → is_Some (m !! q) →
  (construct_move p q m = Some m' → m !! p = None → owners m' = owners m) ∧
  (assign_move p q m = Some m' → m !! p = Some true → owners m' = owners m) ∧
  (assign_move p q m = Some m' → m !! p = Some false → S (owners m') = owners m).
Proof.
  intros Hne [b Hq]. unfold construct_move, assign_move, owners. rewrite Hq. cbn.
  pose proof (map_count_update (λ b, b = false) m q true b Hq) as Eq.
  rewrite (indicator_false _ true) in Eq by done. split_and!; intros [= <-] Hp.
  - rewrite map_count_insert_fresh by by rewrite lookup_insert_ne. lia.
  - pose proof (map_count_update (λ b, b = false) (<[q := true]> m) p b true) as Ep.
    rewrite lookup_insert_ne in Ep by done. specialize (Ep Hp). rewrite (indicator_false _ true) in Ep by done. lia.
  - pose proof (map_count_update (λ b, b = false) (<[q := true]> m) p b false) as Ep.
    rewrite lookup_insert_ne in Ep by done. specialize (Ep Hp). rewrite (indicator_true _ false) in Ep by done. lia.
Qed.
End MovedBit.

(** ** simple_counter *)

Module Counter.

(** [T] is [int]: the arithmetic of [std::atomic<int>] wraps around. *)
Definition int32 (z : Z) : Z := (z + 2 ^ 31) mod 2 ^ 32 - 2 ^ 31.

(** The members of [simple_counter<T, true>]: what they return, and the new value.  The
    compiler passes 0 as the argument of a postfix operator. *)
Definition pre_increment (v : Z) : Z * Z := (int32 (v + 1), int32 (v + 1)).
Definition post_increment (x v : Z) : Z * Z := (int32 (v + x), int32 (v + x)).
Definition add_assign (rhs v : Z) : Z * Z := (int32 (v + rhs), int32 (v + rhs)).
Definition pre_decrement (v : Z) : Z * Z := (int32 (v - 1), int32 (v - 1)).
Definition post_decrement (x v : Z) : Z * Z := (int32 (v - x), int32 (v - x)).
Definition sub_assign (rhs v : Z) : Z * Z := (int32 (v - rhs), int32 (v - rhs)).

Definition postfix_argument : Z := 0.

(** [counter++] and [counter--] do not count; [++counter] and [--counter] do. *)
Theorem postfix_does_not_count v :
  - 2 ^ 31 ≤ v < 2 ^ 31 - 1 →
  post_increment postfix_argument v = (v, v) ∧ post_decrement postfix_argument v = (v, v) ∧
  pre_increment v = (v + 1, v + 1) ∧ (pre_decrement (v + 1)).2 = v.
Proof.
  intros Hv. unfold post_increment, post_decrement, pre_increment, pre_decrement, postfix_argument, int32. cbn [snd].
  rewrite !Z.add_0_r, !Z.sub_0_r. rewrite !(Z.mod_small (v + _)), !(Z.mod_small (v + 1 + _)), !(Z.mod_small (v + 1 - 1 + _)) by lia.
  split_and!; f_equal; lia.
Qed.
End Counter.

(** ** mpi_comm_holder *)

Module CommHolder.

(** [m] and [m_moved] of the holders; the communicators that are open, and all there ever
    were. *)
Record state : Type := State {
  holders : gmap nat (positive * bool);
  opened : gset positive;
  used : gset positive
}.

(** [mpi_comm_holder(MPI_Comm)]: [mpi_clone_comm] duplicates the communicator, or throws. *)
Definition construct (p : nat) (dup : bool) : M state unit := λ s,
  if dup then
    let c := fresh (used s) in
    (Ret tt, State (<[p := (c, false)]> (holders s)) ({[c]} ∪ opened s) ({[c]} ∪ used s))
  else (Throw (runtime_error "MPI Call failed"), s).

(** The defaulted moves: the handle is copied, the bit is moved. *)
Definition construct_move (p q : nat) : M state unit := λ s,
  match holders s !! q with
  | Some (c, b) => (Ret tt, State (<[p := (c, b)]> (<[q := (c, true)]> (holders s))) (opened s) (used s))
  | None => (Halt undefined_behaviour, s)
  end.
Definition assign_move (p q : nat) : M state unit := construct_move p q.

Definition destroy (p : nat) : M state unit := λ s,
  match holders s !! p with
  | None => (Halt undefined_behaviour, s)
  | Some (c, true) => (Ret tt, State (delete p (holders s)) (opened s) (used s))
  | Some (c, false) =>
      if decide (c ∈ opened s) then (Ret tt, State (delete p (holders s)) (opened s ∖ {[c]}) (used s))
      else (Halt undefined_behaviour, s)
  end.

Inductive op : Type := Construct (p : nat) (dup : bool) | Move (p q : nat) | Assign (p q : nat) | Destroy (p : nat).

Definition run_op (o : op) : M state unit :=
  match o with
  | Construct p dup => construct p dup
  | Move p q => construct_move p q
  | Assign p q => assign_move p q
  | Destroy p => destroy p
  end.

(** An assignment is to a holder that has been moved from, or to itself. *)
Definition allowed (o : op) (s : state) : Prop :=
  match o with
  | Construct p _ => holders s !! p = None
  | Move p q => holders s !! p = None ∧ is_Some (holders s !! q)
  | Assign p q => is_Some (holders s !! q) ∧ (p = q ∨ ∃ c, holders s !! p = Some (c, true))
  | Destroy p => is_Some (holders s !! p)
  end.

Inductive step (s s' : state) : Prop :=
| Step o r : allowed o s → run_op o s = (r, s') → step s s'.

Record ok (s : state) : Prop := {
  ok_open c : c ∈ opened s ↔ ∃ p, holders s !! p = Some (c, false);
  ok_one p q c : holders s !! p = Some (c, false) → holders s !! q = Some (c, false) → p = q;
  ok_used : opened s ⊆ used s
}.

(** A move to a holder that owns nothing *)
Lemma comm_move_ok p q s c b :
  ok s → holders s !! q = Some (c, b) → (p = q ∨ ∀ c', holders s !! p ≠ Some (c', false)) →
  ok (State (<[p := (c, b)]> (<[q := (c, true)]> (holders s))) (opened s) (used s)).
Proof.
  intros Hok Hq Hp. set (h := <[p := (c, b)]> (<[q := (c, true)]> (holders s))).
  assert (∀ r c', h !! r = Some (c', false) ↔ (r = p ∧ c' = c ∧ b = false) ∨
    (r ≠ p ∧ r ≠ q ∧ holders s !! r = Some (c', false))) as Hh.
  { intros r c'. unfold h. rewrite !lookup_insert. repeat case_decide; naive_solver. }
  split; cbn; [| |apply Hok].
  - intros c'. rewrite (ok_open s Hok). setoid_rewrite Hh. split.
    + intros [r Hr]. destruct (decide (r = q)) as [->|Hrq]; [exists p; left; naive_solver|].
      exists r. right. split_and!; [|done|done]. intros ->. destruct Hp as [->|Hp]; [done|by destruct (Hp c')].
    + intros [r [(-> & -> & ->)|(_ & _ & Hr)]]; eauto.
  - intros r r' c'. rewrite !Hh. intros [(-> & -> & ->)|(? & ? & Hr)] [(-> & E & ?)|(? & ? & Hr')]; try done.
    + by destruct (ok_one s Hok r' q c Hr' Hq).
    + subst c' b. by destruct (ok_one s Hok r q c Hr Hq).
    + by eapply (ok_one s Hok).
Qed.

Lemma comm_construct_ok p s :
  ok s → holders s !! p = None → ∃ s', construct p true s = (Ret tt, s') ∧ ok s'.
Proof.
  intros Hok Hp. pose proof (is_fresh (used s)) as Hc. unfold construct. set (c := fresh (used s)) in *.
  eexists. split; [done|].
  assert (∀ r, holders s !! r ≠ Some (c, false)) as Hn.
  { intros r Hr. apply Hc, (ok_used s Hok), (ok_open s Hok). by exists r. }
  split; cbn.
  - intros c'. rewrite elem_of_union, elem_of_singleton, (ok_open s Hok). split.
    + intros [->|[r Hr]]; [exists p; apply lookup_insert_eq|]. exists r. rewrite lookup_insert_ne; [done|congruence].
    + intros [r Hr]. rewrite lookup_insert in Hr. case_decide; [left; by simplify_eq|right; by exists r].
  - intros r r' c'. rewrite !lookup_insert. intros H1 H2. repeat case_decide; simplify_eq; try done;
      first [by eapply (ok_one s Hok)|exfalso; by eapply Hn].
  - pose proof (ok_used s Hok). set_solver.
Qed.

Lemma comm_destroy_ok p s : ok s → is_Some (holders s !! p) → ∃ s', destroy p s = (Ret tt, s') ∧ ok s'.
Proof.
  intros Hok [[c b] Hp]. unfold destroy. rewrite Hp.
  assert (∀ r r' c', delete p (holders s) !! r = Some (c', false) → delete p (holders s) !! r' = Some (c', false) → r = r') as H1.
  { intros r r' c' [_ H1]%lookup_delete_Some [_ H2]%lookup_delete_Some. by eapply (ok_one s Hok). }
  pose proof (ok_used s Hok). destruct b.
  - eexists. split; [done|]. split; cbn; [|done|done].
    intros c'. rewrite (ok_open s Hok). split; intros [r Hr]; exists r; [|by apply lookup_delete_Some in Hr as [_ ?]].
    rewrite lookup_delete_ne; [done|congruence].
  - rewrite decide_True by (apply (ok_open s Hok); by exists p). eexists. split; [done|]. split; cbn; [|done|set_solver].
    intros c'. rewrite elem_of_difference, elem_of_singleton, (ok_open s Hok). setoid_rewrite lookup_delete_Some. split.
    + intros [[r Hr] Hne]. exists r. split; [congruence|done].
    + intros (r & Hne & Hr). split; [by exists r|]. intros ->. destruct Hne. by eapply (ok_one s Hok).
Qed.

Lemma comm_op_ok o s :
  ok s → allowed o s → ∃ r s', run_op o s = (r, s') ∧ ok s' ∧
    (r = Ret tt ∨ (∃ p, o = Construct p false) ∧ r = Throw (runtime_error "MPI Call failed") ∧ s' = s).
Proof.
  intros Hok Ho. destruct o as [p [|]|p q|p q|p]; cbn [run_op allowed] in *.
  - destruct (comm_construct_ok p s Hok Ho) as (s' & ? & ?). exists (Ret tt), s'. split_and!; [done..|by left].
  - exists (Throw (runtime_error "MPI Call failed")), s. split_and!; [done..|]. right. by split; [exists p|].
  - destruct Ho as [Hp [[c b] Hq]]. exists (Ret tt). eexists. unfold construct_move. rewrite Hq. split; [done|]. split; [|by left].
    apply comm_move_ok; [done..|]. right. by rewrite Hp.
  - destruct Ho as [[[c b] Hq] Hp]. exists (Ret tt). eexists. unfold assign_move, construct_move. rewrite Hq.
    split; [done|]. split; [|by left]. apply comm_move_ok; [done..|]. destruct Hp as [?|[c' Hp]]; [by left|right]. intros c''. by rewrite Hp.
  - destruct (comm_destroy_ok p s Hok Ho) as (s' & ? & ?). exists (Ret tt), s'. split_and!; [done..|by left].
Qed.

Lemma comm_steps_ok s s' : rtc step s s' → ok s → ok s'.
Proof.
  induction 1 as [|s1 s2 s3 [o r Ho E] _ IH]; [done|]. intros Hok. apply IH.
  destruct (comm_op_ok o s1 Hok Ho) as (r' & s' & E' & ? & _). congruence.
Qed.

(** The communicator that a context duplicates is freed once: whatever holders are made,
    moved and destroyed, every operation works, the open communicators are those of the
    holders that have not been moved from, each has its own, and none is open when the
    last holder is gone. *)
Theorem comm_holders_balanced s :
  rtc step (State ∅ ∅ ∅) s →
  (∀ o h, allowed o s → (run_op o s).1 ≠ Halt h) ∧
  (∀ c, c ∈ opened s ↔ ∃ p, holders s !! p = Some (c, false)) ∧
  (∀ p q c, holders s !! p = Some (c, false) → holders s !! q = Some (c, false) → p = q) ∧
  (holders s = ∅ → opened s = ∅).
Proof.
  intros Hs. assert (ok (State ∅ ∅ ∅)) as H0 by (split; cbn; [set_solver|done|done]).
  pose proof (comm_steps_ok _ _ Hs H0) as Hok. split_and!.
  - intros o h Ho. destruct (comm_op_ok o s Hok Ho) as (r & s' & -> & _ & [->|(_ & -> & _)]); done.
  - apply Hok.
  - apply Hok.
  - intros He. apply set_eq. intros c. rewrite (ok_open s Hok), He. set_solver.
Qed.

(** A holder that has a communicator loses it when another one is assigned to it: it
    stays open, and no holder has it. *)
Theorem comm_assign_leaks p q s c s' :
  ok s → p ≠ q → holders s !! p = Some (c, false) → assign_move p q s = (Ret tt, s') →
  c ∈ opened s' ∧ ∀ r, holders s' !! r ≠ Some (c, false).
Proof.
  intros Hok Hne Hp. unfold assign_move, construct_move. destruct (holders s !! q) as [[d b]|] eqn:Hq; [|done].
  intros [= <-]. cbn. split; [apply (ok_open s Hok); by exists p|]. intros r. rewrite !lookup_insert.
  intros Hr. repeat case_decide; simplify_eq.
  - by destruct (ok_one s Hok r q c).
  - by destruct (ok_one s Hok p r c).
Qed.

End CommHolder.
