(* ===== verification/Regions.v ===== *)
(** * Registered memory and windows

    Model of the classes of the MPI and UCX backends that register memory for remote
    access: [region] and [rma_region] (src/mpi/region.hpp, src/ucx/region.hpp), the cache of
    window locks (src/mpi/lock_cache.hpp) and the constructor of the context that owns the
    window (src/mpi/rma_context.hpp).

    What registers memory is a parameter ([Registry]): [MPI_Win_attach] and
    [MPI_Win_detach], where memory is known by its address, or [ucp_mem_map] and
    [ucp_mem_unmap], where it gets a handle.  The locks of a window are a parameter too
    ([Window]). *)
From S2P Require Import Prelude.
Local Open Scope Z_scope.

(** ** Regions *)

Class Registry : Type := {
  rg_st : Type;
  rg_register : positive → Z → rg_st → option positive * rg_st;
  rg_unregister : positive → rg_st → rg_st
}.

(** The memory that is registered, by its handle *)
Class RegistryLaws `{Registry} : Type := {
  registered : rg_st → gset positive;
  law_register ptr n u o u' : rg_register ptr n u = (o, u') →
    match o with
    | Some h => (h ∉ registered u) ∧ registered u' = {[h]} ∪ registered u
    | None => registered u' = registered u
    end;
  law_unregister h u : registered (rg_unregister h u) = registered u ∖ {[h]}
}.

(** [region]: the pointer; nothing is registered. *)
Definition region_move (m_ptr : option positive) : option positive * option positive := (m_ptr, None).

(** [get_handle(offset, size)]: an address and a size *)
Definition get_handle (m_ptr : option positive) (offset size : Z) : option (positive * Z) * Z :=
  ((λ p, (p, offset)) <$> m_ptr, size).

Section rma.
Context `{Registry}.

(** [rma_region] *)
Record rma_region : Type := RmaRegion {
  m_ptr : option positive;
  m_memh : positive
}.

Record state : Type := State {
  regions : gmap nat rma_region;
  reg : rg_st
}.

(** The constructor, for memory that exists ([ptr] is not null): when the registration fails
    there is no object. *)
Definition construct (p : nat) (ptr : positive) (size : Z) : M state unit := λ s,
  match rg_register ptr size (reg s) with
  | (Some h, u) => (Ret tt, State (<[p := RmaRegion (Some ptr) h]> (regions s)) u)
  | (None, u) => (Throw (runtime_error "register"), State (regions s) u)
  end.

Definition construct_move (p q : nat) : M state unit := λ s,
  match regions s !! q with
  | Some r => (Ret tt, State (<[p := r]> (<[q := RmaRegion None (m_memh r)]> (regions s))) (reg s))
  | None => (Halt undefined_behaviour, s)
  end.

(** [if (m_ptr) ...] *)
Definition destroy (p : nat) : M state unit := λ s,
  match regions s !! p with
  | Some (RmaRegion (Some _) h) => (Ret tt, State (delete p (regions s)) (rg_unregister h (reg s)))
  | Some (RmaRegion None _) => (Ret tt, State (delete p (regions s)) (reg s))
  | None => (Halt undefined_behaviour, s)
  end.

Inductive op : Type := Make (p : nat) (ptr : positive) (size : Z) | Move (p q : nat) | Destroy (p : nat).

Definition run_op (o : op) : M state unit :=
  match o with
  | Make p ptr n => construct p ptr n
  | Move p q => construct_move p q
  | Destroy p => destroy p
  end.

Definition allowed (o : op) (s : state) : Prop :=
  match o with
  | Make p _ _ => regions s !! p = None
  | Move p q => regions s !! p = None ∧ is_Some (regions s !! q)
  | Destroy p => is_Some (regions s !! p)
  end.

Inductive step : state → state → Prop :=
| Step o s r s' : allowed o s → run_op o s = (r, s') → step s s'.
End rma.

Section rma_laws.
Context `{RegistryLaws}.
Implicit Types s : state.

(** The handle of an object that has not been moved from *)
Definition holds s (p : nat) (h : positive) : Prop :=
  ∃ r, regions s !! p = Some r ∧ is_Some (m_ptr r) ∧ m_memh r = h.

Record ok s : Prop := {
  ok_held h : h ∈ registered (reg s) ↔ ∃ p, holds s p h;
  ok_inj p q h : holds s p h → holds s q h → p = q
}.

Lemma holds_insert rs u p r q h :
  holds (State (<[p := r]> rs) u) q h ↔
  (q = p ∧ is_Some (m_ptr r) ∧ m_memh r = h) ∨ (q ≠ p ∧ holds (State rs u) q h).
Proof.
  unfold holds. cbn. setoid_rewrite lookup_insert_Some. split; [intros (x & [[<- <-]|[? ?]] & ? & ?)|]; [naive_solver..|].
  intros [(-> & ? & ?)|(? & x & ? & ? & ?)]; [exists r; naive_solver|exists x; naive_solver].
Qed.

Lemma holds_delete rs u p q h : holds (State (delete p rs) u) q h ↔ q ≠ p ∧ holds (State rs u) q h.
Proof. unfold holds. cbn. setoid_rewrite lookup_delete_Some. naive_solver. Qed.

Lemma holds_new s p h u : regions s !! p = None → ¬ holds (State (regions s) u) p h.
Proof. intros Hp (r & Hr & _). cbn in Hr. congruence. Qed.

Lemma region_construct_ok s p ptr n r s' :
  ok s → regions s !! p = None → construct p ptr n s = (r, s') → ok s'.
Proof.
  intros [Hh Hi] Hp. unfold construct. destruct (rg_register ptr n (reg s)) as [[h|] u] eqn:E; intros [= <- <-];
    apply law_register in E; [destruct E as [Hnew Eu]|].
  - assert (∀ q k, holds (State (regions s) u) q k ↔ holds s q k) as Hsame by done. split; cbn.
    + intros k. rewrite Eu, elem_of_union, elem_of_singleton, Hh. setoid_rewrite holds_insert. cbn. split.
      * intros [->|[q Hq]]; [exists p; left; by eauto|]. exists q. right. split; [|done]. intros ->. by apply (holds_new s p k u Hp).
      * intros [q [(-> & _ & ->)|[_ Hq]]]; [by left|right; by exists q].
    + intros q q' k. rewrite !holds_insert. cbn. intros [(-> & _ & <-)|[Hq Hk]] [(-> & _ & Ek)|[Hq' Hk']]; try done.
      * destruct Hnew. apply Hh. by exists q'.
      * subst. destruct Hnew. apply Hh. by exists q.
      * by eapply Hi.
  - split; cbn; [intros h; rewrite E; apply Hh|apply Hi].
Qed.

Lemma region_move_ok s p q r s' :
  ok s → regions s !! p = None → construct_move p q s = (r, s') → ok s'.
Proof.
  intros [Hh Hi] Hp. unfold construct_move. destruct (regions s !! q) as [x|] eqn:Hq; intros [= <- <-]; [|done].
  assert (p ≠ q) as Hne by congruence.
  assert (∀ k h, holds (State (<[p := x]> (<[q := RmaRegion None (m_memh x)]> (regions s))) (reg s)) k h ↔
    (k = p ∧ holds s q h) ∨ (k ≠ p ∧ k ≠ q ∧ holds s k h)) as Hk.
  { intros k h. rewrite !holds_insert. cbn. assert (holds s q h ↔ is_Some (m_ptr x) ∧ m_memh x = h) as ->.
    { unfold holds. rewrite Hq. naive_solver. }
    assert (¬ is_Some (None : option positive)) as Hn by by intros [? ?]. naive_solver. }
  assert (∀ h, ¬ holds s p h) as Hnp by (intros h (y & Hy & _); congruence).
  split; cbn.
  - intros h. rewrite Hh. setoid_rewrite Hk. split.
    + intros [k Hkh]. destruct (decide (k = q)) as [->|]; [exists p; by left|]. exists k. right. split; [|done].
      intros ->. by destruct (Hnp h).
    + intros [k [[_ ?]|(_ & _ & ?)]]; eauto.
  - intros k k' h. rewrite !Hk. intros [[-> H1]|(H1 & H2 & H3)] [[-> H4]|(H4 & H5 & H6)]; try done.
    + by destruct (Hi _ _ _ H1 H6).
    + by destruct (Hi _ _ _ H3 H4).
    + by eapply Hi.
Qed.

Lemma region_destroy_ok s p r s' : ok s → destroy p s = (r, s') → ok s'.
Proof.
  intros [Hh Hi]. unfold destroy. destruct (regions s !! p) as [[[ptr|] h]|] eqn:Hp; intros [= <- <-]; [| |done].
  - assert (holds s p h) as Hold by (by eexists; split; [done|]; split; [eexists|]). split; cbn.
    + intros k. rewrite law_unregister, elem_of_difference, elem_of_singleton, Hh. setoid_rewrite holds_delete. split.
      * intros [[q Hq] Hk]. exists q. split; [|done]. intros ->. destruct Hk.
        destruct Hold as (x & E1 & _ & E2), Hq as (y & E3 & _ & E4). congruence.
      * intros [q [Hq Hk]]. split; [by exists q|]. intros ->. by destruct Hq; eapply Hi.
    + intros q q' k. rewrite !holds_delete. intros [_ ?] [_ ?]. by eapply Hi.
  - assert (∀ k, ¬ holds s p k) as Hn by (intros k (x & E & [z Ez] & _); rewrite Hp in E; by injection E as <-).
    split; cbn.
    + intros k. rewrite Hh. setoid_rewrite holds_delete. split; [|naive_solver]. intros [q Hq]. exists q. split; [|done].
      intros ->. by destruct (Hn k).
    + intros q q' k. rewrite !holds_delete. intros [_ ?] [_ ?]. by eapply Hi.
Qed.

Lemma region_steps_ok s s' : ok s → rtc step s s' → ok s'.
Proof.
  intros Hok Hs. induction Hs as [|s1 s2 s3 [o s r s' Ha E] _ IH]; [done|]. apply IH.
  destruct o; cbn in *; [by eapply region_construct_ok|by eapply region_move_ok; [|apply Ha|]|by eapply region_destroy_ok].
Qed.

(** Memory is registered while a region object has it and not longer: whatever regions are
    made, moved and destroyed, and whether registrations fail, what is registered is what
    the objects that have not been moved from hold, each has its own, and when all
    objects are gone nothing is registered. *)
Theorem regions_registered_once u s :
  registered u = ∅ → rtc step (State ∅ u) s →
  (∀ h, h ∈ registered (reg s) ↔ ∃ p, holds s p h) ∧
  (∀ p q h, holds s p h → holds s q h → p = q) ∧
  (regions s = ∅ → registered (reg s) = ∅).
Proof.
  intros Hu Hs. assert (ok (State ∅ u)) as Hinit.
  { split; cbn; [intros h; rewrite Hu; split; [set_solver|]; by intros (p & r & Hr & _)|]. by intros p q h (r & Hr & _). }
  pose proof (region_steps_ok _ _ Hinit Hs) as [Hh Hi]. split_and!; [done..|]. intros He. apply set_eq. intros h.
  rewrite Hh. split; [|set_solver]. intros (p & r & Hr & _). by rewrite He, lookup_empty in Hr.
Qed.
End rma_laws.

(** *** A registry *)

#[export] Instance toy_registry : Registry := {|
  rg_st := gset positive;
  rg_register ptr _ u := if decide (ptr ∈ u) then (None, u) else (Some ptr, {[ptr]} ∪ u);
  rg_unregister h u := u ∖ {[h]}
|}.
#[export] Program Instance toy_registry_laws : RegistryLaws := {| registered u := u |}.
Next Obligation. intros ptr n u o u'. cbn. case_decide; by intros [= <- <-]. Qed.
Next Obligation. done. Qed.

Definition two_regions : state := (run_op (Move 1 0) (run_op (Make 0 5 64) (State ∅ ∅)).2).2.
Lemma two_regions_reached : rtc step (State (H := toy_registry) ∅ ∅) two_regions.
Proof.
  eapply rtc_l; [eapply (Step (Make 0 5 64)); reflexivity|]. apply rtc_once. eapply (Step (Move 1 0)); [|reflexivity].
  split; [reflexivity|by eexists].
Qed.

Lemma regions_registered_once_witness : 5%positive ∈ registered (reg two_regions) ↔ ∃ p, holds two_regions p 5.
Proof.
  destruct (regions_registered_once (H := toy_registry) (H0 := toy_registry_laws) ∅ two_regions eq_refl two_regions_reached) as [H _]. exact (H 5%positive).
Defined.

(** ** Locks of a window *)

Class Window : Type := {
  win_st : Type;
  MPI_Win_lock : Z → win_st → bool * win_st;
  MPI_Win_unlock : Z → win_st → win_st
}.

(** The targets that are locked *)
Class WindowLaws `{Window} : Type := {
  locked : win_st → gset Z;
  law_lock r u b u' : MPI_Win_lock r u = (b, u') → locked u' = if b then {[r]} ∪ locked u else locked u;
  law_unlock r u : locked (MPI_Win_unlock r u) = locked u ∖ {[r]}
}.

Section lock_cache.
Context `{Window}.

(** [lock_cache]: [m_ranks]; [lock_calls] are the calls of [MPI_Win_lock]. *)
Record lock_cache : Type := LockCache {
  m_ranks : gset Z;
  m_win : win_st;
  lock_calls : list Z
}.

(** [lock(r)]; the mutex is released when it returns or throws. *)
Definition lock (r : Z) : M lock_cache unit := λ c,
  if decide (r ∈ m_ranks c) then (Ret tt, c)
  else
    let '(b, u) := MPI_Win_lock r (m_win c) in
    let c' := LockCache ({[r]} ∪ m_ranks c) u (lock_calls c ++ [r]) in
    (if b then Ret tt else Throw (runtime_error "MPI Call failed"), c').

(** The destructor: the window afterwards *)
Definition destroy_cache (c : lock_cache) : win_st := foldl (λ u r, MPI_Win_unlock r u) (m_win c) (elements (m_ranks c)).

Fixpoint lock_all (l : list Z) : M lock_cache unit :=
  match l with [] => ret tt | r :: l => lock r ;;; lock_all l end.
End lock_cache.

Section lock_laws.
Context `{WindowLaws}.

Lemma unlock_all l u : locked (foldl (λ u r, MPI_Win_unlock r u) u l) = locked u ∖ list_to_set l.
Proof.
  revert u. induction l as [|r l IH]; intros u; cbn; [set_solver|]. rewrite IH, law_unlock. set_solver.
Qed.

Lemma lock_all_ok l c c' :
  lock_all l c = (Ret tt, c') → locked (m_win c) = m_ranks c → m_ranks c = list_to_set (lock_calls c) → NoDup (lock_calls c) →
  locked (m_win c') = m_ranks c' ∧ m_ranks c' = list_to_set (lock_calls c') ∧ NoDup (lock_calls c') ∧
  m_ranks c' = list_to_set l ∪ m_ranks c.
Proof.
  revert c. induction l as [|r l IH]; intros c; cbn [lock_all]; [intros [= <-]; set_solver|].
  intros ([] & c1 & E & E')%bnd_inv H1 H2 H3. unfold lock in E. case_decide as Hr.
  - injection E as <-. destruct (IH c E' H1 H2 H3) as (? & ? & ? & Em). split_and!; [done..|]. rewrite Em. set_solver.
  - destruct (MPI_Win_lock r (m_win c)) as [b u] eqn:Ew. apply law_lock in Ew. destruct b; [|done]. injection E as <-.
    destruct (IH _ E') as (? & ? & ? & Em); cbn in *.
    + by rewrite Ew, H1.
    + rewrite list_to_set_app_L, H2. set_solver.
    + apply NoDup_app. split_and!; [done| |apply NoDup_singleton]. intros x Hx ->%list_elem_of_singleton.
      destruct Hr. rewrite H2. by apply elem_of_list_to_set.
    + split_and!; [done..|]. rewrite Em. set_solver.
Qed.

(** A target is locked once, when it is first asked for, however often that is; the
    destructor unlocks exactly what is locked. *)
Theorem lock_cache_balanced u l c :
  locked u = ∅ → lock_all l (LockCache ∅ u []) = (Ret tt, c) →
  NoDup (lock_calls c) ∧ locked (m_win c) = list_to_set l ∧ (∀ r, r ∈ lock_calls c ↔ r ∈ l) ∧
  locked (destroy_cache c) = ∅.
Proof.
  intros Hu E. destruct (lock_all_ok l _ c E) as (E1 & E2 & E3 & E4); cbn; [done..|constructor|].
  cbn in E4. rewrite union_empty_r_L in E4. split_and!.
  - done.
  - by rewrite E1, E4.
  - intros r. rewrite <- (elem_of_list_to_set (C := gset Z)), <- E2, E4. apply elem_of_list_to_set.
  - unfold destroy_cache. rewrite unlock_all, E1. set_solver.
Qed.

(** A lock that fails is remembered as if it were held: the next call for the target
    returns without locking, and the destructor unlocks a target that is not locked. *)
Theorem failed_lock_is_cached r c u :
  r ∉ m_ranks c → MPI_Win_lock r (m_win c) = (false, u) →
  ∃ c', lock r c = (Throw (runtime_error "MPI Call failed"), c') ∧ lock r c' = (Ret tt, c') ∧
        locked (m_win c') = locked (m_win c) ∧ r ∈ elements (m_ranks c').
Proof.
  intros Hr E. unfold lock at 1. rewrite decide_False, E by done. eexists. split; [done|]. unfold lock. cbn.
  rewrite decide_True by set_solver. split_and!; [done|by apply law_lock in E|apply elem_of_elements; set_solver].
Qed.
End lock_laws.

(** *** A window *)

#[export] Instance toy_window : Window := {|
  win_st := gset Z;
  MPI_Win_lock r u := if decide (r < 0) then (false, u) else (true, {[r]} ∪ u);
  MPI_Win_unlock r u := u ∖ {[r]}
|}.
#[export] Program Instance toy_window_laws : WindowLaws := {| locked u := u |}.
Next Obligation. intros r u b u'. cbn. case_decide; by intros [= <- <-]. Qed.
Next Obligation. done. Qed.

Lemma lock_cache_balanced_witness :
  ∃ c, lock_all (H := toy_window) [3; 5; 3] (LockCache ∅ ∅ []) = (Ret tt, c) ∧ lock_calls c = [3; 5] ∧ locked (destroy_cache c) = ∅.
Proof.
  eexists. split; [reflexivity|]. split; [reflexivity|].
  apply (lock_cache_balanced (H := toy_window) ∅ [3; 5; 3]); reflexivity.
Defined.

Lemma failed_lock_is_cached_witness :
  ∃ c', lock (H := toy_window) (-1) (LockCache ∅ ∅ []) = (Throw (runtime_error "MPI Call failed"), c') ∧
        lock (H := toy_window) (-1) c' = (Ret tt, c').
Proof.
  destruct (failed_lock_is_cached (H := toy_window) (-1) (LockCache ∅ ∅ []) ∅) as (c' & E1 & E2 & _); [set_solver|reflexivity|].
  exists c'. split; [exact E1|exact E2].
Defined.

(** ** The constructor of rma_context *)

(** The calls of the body of the constructor, in their order *)
Inductive win_call : Type := Info_create | Info_set | Win_create_dynamic | Win_fence.

(** [fails c]: the call returns an error.  [m_win.m] has no value before
    [MPI_Win_create_dynamic] has succeeded.  When the body throws, the members are
    destroyed: the window is freed.  The result: the windows that exist. *)
Definition construct_rma_context (fails : win_call → bool) : M nat unit :=
  let check (c : win_call) (dtor : M nat unit) : M nat unit :=
    if fails c then dtor ;;; throw (runtime_error "MPI Call failed") else ret tt in
  check Info_create (stop undefined_behaviour) ;;;
  check Info_set (stop undefined_behaviour) ;;;
  check Win_create_dynamic (stop undefined_behaviour) ;;;
  modify S ;;;
  check Win_fence (modify pred).

(** The constructor makes one window, or frees it again when the fence fails; if the
    window could not be made, a window that does not exist is freed. *)
Theorem rma_context_construction fails :
  (∀ c, fails c = false) ∧ construct_rma_context fails 0%nat = (Ret tt, 1%nat) ∨
  (∃ e, construct_rma_context fails 0%nat = (Throw e, 0%nat)) ∧ fails Win_fence = true ∨
  construct_rma_context fails 0%nat = (Halt undefined_behaviour, 0%nat) ∧ ∃ c, c ≠ Win_fence ∧ fails c = true.
Proof.
  unfold construct_rma_context, bnd, ret. cbn. destruct (fails Info_create) eqn:E1; [right; right; split; [done|by exists Info_create]|].
  destruct (fails Info_set) eqn:E2; [right; right; split; [done|by exists Info_set]|].
  destruct (fails Win_create_dynamic) eqn:E3; [right; right; split; [done|by exists Win_create_dynamic]|].
  destruct (fails Win_fence) eqn:E4; [right; left; split; [by eexists|done]|]. left. split; [by intros []|done].
Qed.
