(* ===== verification/Channel.v ===== *)
(** * Channels

    Model of the channels of the MPI backend: the layout of a channel's buffers
    (src/mpi/channel_base.hpp and the allocation in src/mpi/recv_channel.hpp) and the
    buffers a receiver gets from a channel (include/oomph/channel/recv_channel.hpp).

    A channel has [levels] buffers of [size] elements of [T_size] bytes, each with a flag of
    the size of an address behind the elements. *)
From S2P Require Import Prelude.
Local Open Scope Z_scope.

(** ** Layout *)

(** [sizeof(flag_basic_type)]: a flag is an [MPI_Aint]. *)
Definition flag_size : Z := 8.

Record channel_base : Type := ChannelBase {
  m_size : Z;
  m_T_size : Z;
  m_levels : Z
}.

Section layout.
Variable c : channel_base.

(** The arithmetic is that of [std::size_t]. *)
Definition flag_offset : Z :=
  u64 (u64 (u64 (m_size c * m_T_size c) + 2 * flag_size - 1) / flag_size - 1).
Definition buffer_size : Z :=
  u64 (u64 (u64 (flag_offset + 1) * flag_size) + m_T_size c - 1) / m_T_size c.

(** [flag_ptr(ptr)] for the buffer that starts at [ptr] *)
Definition flag_ptr (ptr : Z) : Z := ptr + flag_offset * flag_size.

(** [levels * base::buffer_size() * T_size]: what the receiver allocates *)
Definition recv_bytes : Z := u64 (u64 (m_levels c * buffer_size) * m_T_size c).

End layout.

(** The sizes fit: the elements, the flag and the padding of all levels. *)
Definition fits (c : channel_base) : Prop :=
  0 ≤ m_size c ∧ 0 < m_T_size c ∧ 0 ≤ m_levels c ∧
  (m_levels c + 1) * (m_size c * m_T_size c + 2 * flag_size + m_T_size c) < 2 ^ 64.

Lemma flag_offset_eq c : fits c → flag_offset c = (m_size c * m_T_size c + 7) / 8.
Proof.
  intros (H1 & H2 & H3 & H4). unfold flag_offset, flag_size in *.
  assert (0 ≤ m_size c * m_T_size c) by nia. assert (m_size c * m_T_size c + 16 + m_T_size c < 2 ^ 64) by nia.
  rewrite (u64_small (m_size c * m_T_size c)), (u64_small (_ + _ - 1)) by lia.
  replace (m_size c * m_T_size c + 2 * 8 - 1) with (m_size c * m_T_size c + 7 + 1 * 8) by lia.
  rewrite Z.div_add by lia. pose proof (Z.div_pos (m_size c * m_T_size c + 7) 8 ltac:(lia) ltac:(lia)).
  pose proof (Z.div_le_upper_bound (m_size c * m_T_size c + 7) 8 (m_size c * m_T_size c + 7) ltac:(lia) ltac:(lia)).
  rewrite u64_small; lia.
Qed.

(** The rounding of the two divisions *)
Lemma layout_bounds c :
  fits c →
  let n := m_size c * m_T_size c in let off := flag_offset c in let bs := buffer_size c in
  n ≤ off * 8 < n + 8 ∧ off * 8 + 8 ≤ bs * m_T_size c < off * 8 + 8 + m_T_size c ∧
  bs = (off * 8 + 8 + m_T_size c - 1) / m_T_size c.
Proof.
  intros Hf. cbn zeta. pose proof Hf as (H1 & H2 & H3 & H4). unfold buffer_size. rewrite flag_offset_eq by done.
  unfold flag_size in *. set (n := m_size c * m_T_size c) in *. assert (0 ≤ n) by (unfold n; nia).
  assert (n + 16 + m_T_size c < 2 ^ 64) by (fold n in H4; nia).
  pose proof (Z.div_mod (n + 7) 8 ltac:(lia)) as Ed. pose proof (Z.mod_pos_bound (n + 7) 8 ltac:(lia)) as Em.
  set (off := (n + 7) / 8) in *. assert (n ≤ off * 8 < n + 8) as Hoff by lia.
  rewrite (u64_small (off + 1)), (u64_small ((off + 1) * 8)), (u64_small ((off + 1) * 8 + m_T_size c - 1)) by lia.
  replace ((off + 1) * 8 + m_T_size c - 1) with (off * 8 + 8 + m_T_size c - 1) by lia.
  pose proof (Z.div_mod (off * 8 + 8 + m_T_size c - 1) (m_T_size c) ltac:(lia)) as Ed'.
  pose proof (Z.mod_pos_bound (off * 8 + 8 + m_T_size c - 1) (m_T_size c) ltac:(lia)) as Em'.
  split_and!; try lia; nia.
Qed.

(** C38: The layout of a channel, for sizes that do not overflow [std::size_t] and elements
    that have a size ([fits]): in a buffer that starts at [ptr] the flag lies behind the
    elements, less than a flag apart, and inside the buffer, which has less than one
    element of padding; the memory the receiver allocates is exactly one such buffer for
    each level. *)
Theorem channel_layout c ptr :
  fits c →
  let stop := ptr + buffer_size c * m_T_size c in
  ptr + m_size c * m_T_size c ≤ flag_ptr c ptr < ptr + m_size c * m_T_size c + flag_size ∧
  flag_ptr c ptr + flag_size ≤ stop < flag_ptr c ptr + flag_size + m_T_size c ∧
  recv_bytes c = m_levels c * (stop - ptr).
Proof.
  intros Hf. cbn zeta. pose proof (layout_bounds c Hf) as (L1 & L2 & _). cbn zeta in *.
  pose proof Hf as (H1 & H2 & H3 & H4). unfold flag_ptr, flag_size in *.
  assert (0 ≤ m_size c * m_T_size c) by nia. assert (0 ≤ buffer_size c * m_T_size c) by lia.
  assert (0 ≤ buffer_size c) by nia.
  assert (buffer_size c * m_T_size c ≤ m_size c * m_T_size c + 2 * 8 + m_T_size c) as Hb by lia.
  assert (m_levels c * (buffer_size c * m_T_size c) < 2 ^ 64) as Hall by nia.
  assert (buffer_size c ≤ buffer_size c * m_T_size c) by nia.
  unfold recv_bytes. rewrite (u64_small (m_levels c * buffer_size c)) by nia. rewrite u64_small by nia.
  split_and!; try lia; nia.
Qed.

(** In an array of such buffers every flag is aligned if the size of an element divides that
    of a flag, or the other way round. *)
Theorem channel_flags_aligned c base i :
  fits c → (base mod flag_size = 0) → (m_T_size c | flag_size) ∨ (flag_size | m_T_size c) →
  flag_ptr c (base + i * (buffer_size c * m_T_size c)) mod flag_size = 0.
Proof.
  intros Hf Hb HT. unfold flag_ptr. pose proof (layout_bounds c Hf) as (_ & L2 & Ebs). cbn zeta in *.
  pose proof Hf as (_ & H2 & _). unfold flag_size in *.
  assert (∃ k, buffer_size c * m_T_size c = k * 8) as [k Ek].
  { destruct HT as [[d Hd]|[d Hd]].
    - exists (flag_offset c + 1). rewrite Ebs.
      assert ((flag_offset c + 1) * d * m_T_size c = (flag_offset c + 1) * 8) as Em by by rewrite <- Z.mul_assoc, <- Hd.
      replace (flag_offset c * 8 + 8 + m_T_size c - 1) with (m_T_size c - 1 + (flag_offset c + 1) * d * m_T_size c) by lia.
      rewrite Z.div_add by lia. rewrite (Z.div_small (m_T_size c - 1)) by lia. lia.
    - exists (buffer_size c * d). rewrite Hd. lia. }
  rewrite Ek. rewrite <- Z.add_assoc, <- Z.add_mod_idemp_l, Hb by lia. cbn.
  replace (i * (k * 8) + flag_offset c * 8) with ((i * k + flag_offset c) * 8) by lia. apply Z.mod_mul. lia.
Qed.

(** In general it is not: with elements of twelve bytes, the flag of the second level of a
    channel with two elements is at byte 60. *)
Theorem channel_flag_misaligned :
  flag_ptr (ChannelBase 2 12 2) (buffer_size (ChannelBase 2 12 2) * 12) mod flag_size = 4.
Proof. reflexivity. Qed.

Lemma channel_layout_witness :
  let c := ChannelBase 5 4 3 in
  flag_ptr c 64 = 88 ∧ flag_ptr c 64 + flag_size ≤ 64 + buffer_size c * 4 ∧ recv_bytes c = 96.
Proof.
  split; [reflexivity|]. split; [|reflexivity]. apply (channel_layout (ChannelBase 5 4 3) 64).
  unfold fits, flag_size. cbn [m_size m_T_size m_levels]. lia.
Defined.

Lemma channel_flags_aligned_witness : flag_ptr (ChannelBase 5 4 3) (64 + 2 * (buffer_size (ChannelBase 5 4 3) * 4)) mod flag_size = 0.
Proof.
  apply (channel_flags_aligned (ChannelBase 5 4 3) 64 2).
  - unfold fits, flag_size. cbn [m_size m_T_size m_levels]. lia.
  - reflexivity.
  - left. by exists 2.
Defined.

(** ** Buffers of a channel *)

(** [recv_channel<T>::buffer]: the element pointer, null for a buffer that holds nothing, the
    index of the buffer in its channel, and the channel *)
Record cbuf : Type := Cbuf {
  b_ptr : option positive;
  b_index : Z;
  b_channel : nat
}.

(** The buffer objects of a program; what it has got from channels, and what has been
    released, as channel and index. *)
Record state : Type := State {
  bufs : gmap nat cbuf;
  acquired : list (nat * Z);
  released : list (nat * Z)
}.

Definition set_bufs x s := State x (acquired s) (released s).

Section channel.
(** [recv_channel_impl::get(index)]: a pointer, or null, and an index *)
Variable impl_get : nat → option positive * Z.

Definition read_buf (p : nat) : M state cbuf := λ s,
  match bufs s !! p with Some b => (Ret b, s) | None => (Halt undefined_behaviour, s) end.
Definition write_buf (p : nat) (b : cbuf) : M state unit := modify (λ s, set_bufs (<[p := b]> (bufs s)) s).

(** [release()] *)
Definition release (p : nat) : M state unit :=
  let! b := read_buf p in
  match b_ptr b with
  | Some _ =>
      modify (λ s, State (bufs s) (acquired s) (released s ++ [(b_channel b, b_index b)])) ;;;
      write_buf p (Cbuf None (b_index b) (b_channel b))
  | None => ret tt
  end.

Definition construct_default (p : nat) : M state unit := write_buf p (Cbuf None 0 0).

Definition construct_move (p q : nat) : M state unit :=
  let! b := read_buf q in
  write_buf q (Cbuf None (b_index b) (b_channel b)) ;;;
  write_buf p b.

Definition assign_move (p q : nat) : M state unit :=
  release p ;;;
  let! b := read_buf q in
  write_buf q (Cbuf None (b_index b) (b_channel b)) ;;;
  write_buf p b.

Definition destroy (p : nat) : M state unit :=
  release p ;;;
  modify (λ s, set_bufs (delete p (bufs s)) s).

(** [recv_channel::get()]: the loop runs once. *)
Definition get (p c : nat) : M state unit :=
  let '(ptr, i) := impl_get c in
  modify (λ s, State (<[p := Cbuf ptr i c]> (bufs s))
    (match ptr with Some _ => acquired s ++ [(c, i)] | None => acquired s end) (released s)).

Inductive op : Type :=
| Default (p : nat) | Get (p c : nat) | Move (p q : nat) | Assign (p q : nat) | Release (p : nat) | Destroy (p : nat).

Definition run_op (o : op) : M state unit :=
  match o with
  | Default p => construct_default p
  | Get p c => get p c
  | Move p q => construct_move p q
  | Assign p q => assign_move p q
  | Release p => release p
  | Destroy p => destroy p
  end.

Definition allowed (o : op) (s : state) : Prop :=
  match o with
  | Default p | Get p _ => bufs s !! p = None
  | Move p q => bufs s !! p = None ∧ is_Some (bufs s !! q)
  | Assign p q => is_Some (bufs s !! p) ∧ is_Some (bufs s !! q)
  | Release p | Destroy p => is_Some (bufs s !! p)
  end.

Inductive step : state → state → Prop :=
| Step o s s' : allowed o s → run_op o s = (Ret tt, s') → step s s'.

(** What a buffer holds *)
Definition one (b : cbuf) : list (nat * Z) := match b_ptr b with Some _ => [(b_channel b, b_index b)] | None => [] end.
Definition held (m : gmap nat cbuf) : list (nat * Z) := map_to_list m ≫= (λ kb, one kb.2).
Definition ok (s : state) : Prop := acquired s ≡ₚ released s ++ held (bufs s).

Lemma held_insert m p b : m !! p = None → held (<[p := b]> m) ≡ₚ one b ++ held m.
Proof. intros Hp. unfold held. rewrite (map_to_list_insert m p b Hp). done. Qed.
(** What the object at [p] holds, if there is one *)
Definition one_at (m : gmap nat cbuf) (p : nat) : list (nat * Z) := from_option one [] (m !! p).

Lemma held_put m p b : one_at m p ++ held (<[p := b]> m) ≡ₚ one b ++ held m.
Proof.
  unfold one_at. destruct (m !! p) as [b'|] eqn:Hp; cbn; [|by apply held_insert].
  assert (held m ≡ₚ one b' ++ held (delete p m)) as ->.
  { rewrite <- held_insert by apply lookup_delete_eq. by rewrite insert_delete_id. }
  rewrite <- insert_delete_eq, held_insert by apply lookup_delete_eq.
  rewrite !(assoc (++)). f_equiv. apply Permutation_app_comm.
Qed.

Definition emptied (b : cbuf) : cbuf := Cbuf None (b_index b) (b_channel b).

(** What [q] holds goes to [p], which holds nothing. *)
Lemma held_move m p q b :
  m !! q = Some b → one_at m p = [] → held (<[p := b]> (<[q := emptied b]> m)) ≡ₚ held m.
Proof.
  intros Hq Hp. pose proof (held_put m q (emptied b)) as E1. unfold one_at in E1. rewrite Hq in E1. cbn in E1.
  pose proof (held_put (<[q := emptied b]> m) p b) as E2. assert (one_at (<[q := emptied b]> m) p = []) as Ep.
  { unfold one_at in *. rewrite lookup_insert. case_decide; [done|exact Hp]. }
  rewrite Ep in E2. cbn in E2. by rewrite E2, E1.
Qed.

Lemma read_buf_eq p b s : bufs s !! p = Some b → read_buf p s = (Ret b, s).
Proof. unfold read_buf. by intros ->. Qed.

(** [release] leaves an object that holds nothing, and the others alone. *)
Lemma release_ok p s :
  ok s → is_Some (bufs s !! p) →
  ∃ s', release p s = (Ret tt, s') ∧ ok s' ∧ one_at (bufs s') p = [] ∧ acquired s' = acquired s ∧
    ∀ r, is_Some (bufs s !! r) ↔ is_Some (bufs s' !! r).
Proof.
  intros Hs [b Hb]. unfold release. rewrite (bnd_ret _ _ _ _ _ (read_buf_eq _ _ _ Hb)). destruct (b_ptr b) as [x|] eqn:Ex.
  - eexists. split; [done|]. pose proof (held_put (bufs s) p (emptied b)) as E. unfold one_at in E. rewrite Hb in E. cbn in E.
    unfold ok in *. cbn. split_and!.
    + rewrite Hs, <- E. unfold one. rewrite Ex. by rewrite <- app_assoc.
    + unfold one_at. by rewrite lookup_insert_eq.
    + done.
    + intros r. rewrite lookup_insert_is_Some'. destruct (decide (p = r)) as [->|]; [|naive_solver].
      split; [by left|]. intros _. by exists b.
  - exists s. split_and!; [done..| |done|done]. unfold one_at. rewrite Hb. cbn. unfold one. by rewrite Ex.
Qed.

Lemma move_tail_ok p q s :
  ok s → one_at (bufs s) p = [] → is_Some (bufs s !! q) →
  ∃ s', (let! b := read_buf q in write_buf q (emptied b) ;;; write_buf p b) s = (Ret tt, s') ∧ ok s' ∧ acquired s' = acquired s.
Proof.
  intros Hs Hp [b Hq]. rewrite (bnd_ret _ _ _ _ _ (read_buf_eq _ _ _ Hq)). eexists. split; [done|]. split; [|done].
  unfold ok in *. cbn. by rewrite held_move.
Qed.

Lemma channel_op_ok o s : ok s → allowed o s → ∃ s', run_op o s = (Ret tt, s') ∧ ok s'.
Proof.
  intros Hs Ho. destruct o as [p|p c|p q|p q|p|p]; cbn [run_op allowed] in *.
  - eexists. split; [done|]. unfold ok in *. cbn. by rewrite held_insert.
  - unfold get. destruct (impl_get c) as [ptr i]. eexists. split; [done|]. unfold ok in *. cbn. rewrite held_insert by done.
    unfold one. cbn. destruct ptr; [|done]. rewrite Hs. rewrite <- !app_assoc. f_equiv. apply Permutation_app_comm.
  - destruct Ho as [Hp Hq]. destruct (move_tail_ok p q s Hs) as (s' & E & Hs' & _); [unfold one_at; by rewrite Hp|done|]. by exists s'.
  - destruct Ho as [Hp Hq]. destruct (release_ok p s Hs Hp) as (s1 & E1 & Hs1 & Hn & _ & Hd). apply Hd in Hq.
    destruct (move_tail_ok p q s1 Hs1 Hn Hq) as (s' & E & Hs' & _). exists s'. unfold assign_move. by rewrite (bnd_ret _ _ _ _ _ E1).
  - destruct (release_ok p s Hs Ho) as (s1 & E1 & Hs1 & _). by exists s1.
  - destruct (release_ok p s Hs Ho) as (s1 & E1 & Hs1 & Hn & _ & Hd). unfold destroy. rewrite (bnd_ret _ _ _ _ _ E1).
    destruct (proj1 (Hd _) Ho) as [b Hb]. eexists. split; [done|]. unfold ok in *. cbn. rewrite Hs1. f_equiv.
    unfold one_at in Hn. rewrite Hb in Hn. cbn in Hn.
    rewrite <- (insert_delete_id (bufs s1) p b Hb) at 1. by rewrite held_insert, Hn by apply lookup_delete_eq.
Qed.

Lemma channel_steps_ok s s' : ok s → rtc step s s' → ok s'.
Proof.
  intros Hok Hs. induction Hs as [|s1 s2 s3 [o s s' Ha E] _ IH]; [done|]. apply IH.
  destruct (channel_op_ok o s Hok Ha) as (s'' & E' & ?). congruence.
Qed.

(** A buffer that a program has got from a channel is released once: whatever objects are
    moved, assigned (to themselves, too) and destroyed, what was got is what has been
    released and what the objects hold; after the last object nothing is left. *)
Theorem channel_buffers_released_once s :
  rtc step (State ∅ [] []) s →
  (∀ o, allowed o s → ∃ s', run_op o s = (Ret tt, s')) ∧
  acquired s ≡ₚ released s ++ held (bufs s) ∧ (bufs s = ∅ → acquired s ≡ₚ released s).
Proof.
  intros Hs. pose proof (channel_steps_ok (State ∅ [] []) s (Permutation_refl []) Hs) as Hok. split_and!.
  - intros o Ho. destruct (channel_op_ok o s Hok Ho) as (s' & E & _). by exists s'.
  - exact Hok.
  - intros He. unfold ok in Hok. rewrite He in Hok. by rewrite app_nil_r in Hok.
Qed.
End channel.

(** *** The MPI backend *)

(** [recv_channel_impl::get] *)
Definition mpi_impl_get (_ : nat) : option positive * Z := (None, 0).

Definition nothing_got (s : state) : Prop := acquired s = [] ∧ map_Forall (λ _ b, b_ptr b = None) (bufs s).

Lemma mpi_op_empty o s s' :
  allowed o s → run_op mpi_impl_get o s = (Ret tt, s') → nothing_got s → nothing_got s'.
Proof.
  intros Ha E [H1 H2]. apply (f_equal snd) in E. cbn [snd] in E. subst s'.
  assert (∀ p b, bufs s !! p = Some b → b_ptr b = None) as Hb by (intros p b; apply H2).
  destruct o as [p|p c|p q|p q|p|p]; cbn [run_op allowed] in *.
  - split; [done|]. by apply map_Forall_insert_2.
  - split; [done|]. by apply map_Forall_insert_2.
  - destruct Ha as [_ [b Hq]]. unfold construct_move. rewrite (bnd_ret _ _ _ _ _ (read_buf_eq _ _ _ Hq)).
    split; [done|]. apply map_Forall_insert_2; [by eapply Hb|]. by apply map_Forall_insert_2.
  - destruct Ha as [[b' Hp] [b Hq]]. unfold assign_move, release.
    erewrite bnd_ret by (rewrite (bnd_ret _ _ _ _ _ (read_buf_eq _ _ _ Hp)), (Hb _ _ Hp); done).
    rewrite (bnd_ret _ _ _ _ _ (read_buf_eq _ _ _ Hq)).
    split; [done|]. apply map_Forall_insert_2; [by eapply Hb|]. by apply map_Forall_insert_2.
  - destruct Ha as [b Hp]. unfold release. by rewrite (bnd_ret _ _ _ _ _ (read_buf_eq _ _ _ Hp)), (Hb _ _ Hp).
  - destruct Ha as [b Hp]. unfold destroy, release.
    erewrite bnd_ret by (rewrite (bnd_ret _ _ _ _ _ (read_buf_eq _ _ _ Hp)), (Hb _ _ Hp); done).
    split; [done|]. by apply map_Forall_delete.
Qed.

Lemma mpi_steps_empty s s' : rtc (step mpi_impl_get) s s' → nothing_got s → nothing_got s'.
Proof. induction 1 as [|s1 s2 s3 [o t t' Ha E] _ IH]; [done|]. intros ?. apply IH. by eapply mpi_op_empty. Qed.

(** A channel of the MPI backend never delivers anything: all buffers that a program ever
    has from it are empty. *)
Theorem mpi_channel_delivers_nothing s :
  rtc (step mpi_impl_get) (State ∅ [] []) s → acquired s = [] ∧ map_Forall (λ _ b, b_ptr b = None) (bufs s).
Proof. intros Hs. apply (mpi_steps_empty _ _ Hs). split; [done|apply map_Forall_empty]. Qed.

(** *** A channel that delivers *)

Definition two_level_get (c : nat) : option positive * Z := (Some (Pos.of_succ_nat c), 7).
Definition moved_buffer : state := (run_op two_level_get (Assign 1 1) (run_op two_level_get (Move 1 0)
  (run_op two_level_get (Get 0 3) (State ∅ [] [])).2).2).2.

Lemma moved_buffer_reached : rtc (step two_level_get) (State ∅ [] []) moved_buffer.
Proof.
  eapply rtc_l; [apply (Step _ (Get 0 3)); reflexivity|].
  eapply rtc_l; [apply (Step _ (Move 1 0)); [split; [reflexivity|by eexists]|reflexivity]|].
  apply rtc_once, (Step _ (Assign 1 1)); [split; by eexists|reflexivity].
Qed.

Lemma channel_buffers_released_once_witness :
  released moved_buffer = [(3%nat, 7)] ∧ acquired moved_buffer ≡ₚ released moved_buffer ++ held (bufs moved_buffer).
Proof.
  split; [reflexivity|]. exact (proj1 (proj2 (channel_buffers_released_once two_level_get moved_buffer moved_buffer_reached))).
Defined.
