(* ===== verification/Topology.v ===== *)
(** * Ranks, nodes and the base of a context

    Model of src/src/mpi_comm.hpp, src/src/rank_topology.hpp,
    src/src/common/rank_topology.cpp and the constructor of src/src/context_base.hpp.

    Every rank of the communicator runs the constructor.  MPI is a parameter: which calls
    succeed on which rank, and the communicator of the ranks that share memory with a
    rank, as the list of its members in the order MPI gives them.  The state is the number
    of communicators that this rank has not freed.  Results are checked as in a debug
    build; the result of [MPI_Allgather] is not checked in any build. *)
From S2P Require Import Prelude.
Local Open Scope Z_scope.

Inductive mpi_call : Type :=
| Comm_rank | Comm_size | Split_type | Shared_rank | Shared_size | Comm_free | Query_thread.

Inductive thread_level : Type := THREAD_SINGLE | THREAD_FUNNELED | THREAD_SERIALIZED | THREAD_MULTIPLE.
#[export] Instance thread_level_eq_dec : EqDecision thread_level.
Proof. solve_decision. Defined.

Class Mpi : Type := {
  nranks : Z;
  succeeds : mpi_call → Z → bool;
  (** [MPI_Comm_split_type(comm, MPI_COMM_TYPE_SHARED, key, ...)]: what the ranks give as
      keys, the rank that calls, and the members of its new communicator *)
  split_shared : (Z → Z) → Z → list Z;
  provided : thread_level
}.

(** MPI partitions the ranks of a communicator: a rank's part are the ranks of its node,
    ordered by key. *)
Class MpiLaws `{Mpi} : Type := {
  node : Z → Z;
  law_members keys r q : 0 ≤ r < nranks → q ∈ split_shared keys r ↔ 0 ≤ q < nranks ∧ node q = node r;
  law_distinct keys r : 0 ≤ r < nranks → NoDup (split_shared keys r);
  law_order keys r : 0 ≤ r < nranks → StronglySorted Z.le (keys <$> split_shared keys r)
}.

Record mpi_comm : Type := MpiComm { c_rank : Z; c_size : Z }.

(** [m_rank] and [m_rank_set] *)
Record rank_topology : Type := RankTopology { m_rank : Z; m_rank_set : gset Z }.

Record context_base : Type := ContextBase {
  m_mpi_comm : mpi_comm;
  m_thread_safe : bool;
  m_rank_topology : rank_topology
}.

Section topology.
Context `{Mpi}.

(** [OOMPH_CHECK_MPI_RESULT] of a call that the rank [r] makes *)
Definition checked (c : mpi_call) (r : Z) : M nat unit :=
  if succeeds c r then ret tt else throw (runtime_error "MPI Call failed").

(** The constructor of [mpi_comm] on rank [r] *)
Definition new_mpi_comm (r : Z) : M nat mpi_comm :=
  checked Comm_rank r ;;;
  checked Comm_size r ;;;
  ret (MpiComm r nranks).

(** The position of a rank in the new communicator *)
Fixpoint position (r : Z) (l : list Z) : Z :=
  match l with [] => 0 | q :: l => if decide (q = r) then 0 else 1 + position r l end.

(** The constructor of [rank_topology]: every rank gives its rank as key and as the value
    that is gathered. *)
Definition new_rank_topology (r : Z) : M nat rank_topology :=
  checked Comm_rank r ;;;
  checked Split_type r ;;;
  let shared := split_shared (λ q, q) r in
  modify S ;;;
  checked Shared_rank r ;;;
  let m_rank := position r shared in
  checked Shared_size r ;;;
  let ranks := (λ q, q) <$> shared in
  let m_rank_set := foldl (λ s q, {[q]} ∪ s) ∅ ranks in
  checked Comm_free r ;;;
  modify pred ;;;
  ret (RankTopology m_rank m_rank_set).

Definition is_local (t : rank_topology) (q : Z) : bool := bool_decide (q ∈ m_rank_set t).
Definition local_size (t : rank_topology) : Z := Z.of_nat (size (m_rank_set t)).
Definition local_ranks (t : rank_topology) : gset Z := m_rank_set t.
Definition local_rank (t : rank_topology) : Z := m_rank t.

(** The constructor of [context_base]; the warning is not modelled. *)
Definition new_context_base (r : Z) (thread_safe : bool) : M nat context_base :=
  let! c := new_mpi_comm r in
  let! t := new_rank_topology r in
  checked Query_thread r ;;;
  if thread_safe && negb (bool_decide (provided = THREAD_MULTIPLE))
  then throw (runtime_error "oomph: MPI is not thread safe!")
  else ret (ContextBase c thread_safe t).
End topology.

(** ** Positions in sorted lists *)

Lemma position_bounds r l : r ∈ l → 0 ≤ position r l < Z.of_nat (length l).
Proof.
  induction l as [|q l IH]; [by intros ?%not_elem_of_nil|]. cbn. case_decide as E; [lia|].
  intros [->|Hl]%elem_of_cons; [done|]. apply IH in Hl. lia.
Qed.

Lemma position_lookup r l : r ∈ l → l !! Z.to_nat (position r l) = Some r.
Proof.
  induction l as [|q l IH]; [by intros ?%not_elem_of_nil|]. cbn. case_decide as E; [by subst|].
  intros [->|Hl]%elem_of_cons; [done|]. pose proof (position_bounds r l Hl).
  rewrite Z2Nat.inj_add, Nat.add_1_l by lia. by apply IH.
Qed.

Lemma position_mono r q l :
  StronglySorted Z.le l → r ∈ l → q ∈ l → r < q → position r l < position q l.
Proof.
  induction 1 as [|x l Hl IH Hx]; [by intros ?%not_elem_of_nil|]. intros Hr Hq Hrq. cbn.
  rewrite Forall_forall in Hx. destruct (decide (x = r)) as [->|Er].
  - rewrite decide_False by lia. apply elem_of_cons in Hq as [->|Hq]; [lia|]. pose proof (position_bounds q l Hq). lia.
  - apply elem_of_cons in Hr as [->|Hr]; [done|]. pose proof (Hx r Hr). rewrite decide_False by lia.
    apply elem_of_cons in Hq as [->|Hq]; [lia|]. specialize (IH Hr Hq Hrq). lia.
Qed.

Lemma insert_all_elem (l : list Z) (s : gset Z) q : q ∈ foldl (λ s q, {[q]} ∪ s) s l ↔ q ∈ l ∨ q ∈ s.
Proof. revert s. induction l as [|x l IH]; intros s; cbn; [set_solver|]. rewrite IH. set_solver. Qed.

Lemma insert_all_set (l : list Z) : foldl (λ s q, {[q]} ∪ s) ∅ l = list_to_set (C := gset Z) l.
Proof. apply set_eq. intros q. rewrite insert_all_elem, elem_of_list_to_set. set_solver. Qed.

Section laws.
Context `{MpiLaws}.

(** Ranks of a node have the same communicator. *)
Lemma same_node_same_group r q :
  0 ≤ r < nranks → 0 ≤ q < nranks → node r = node q → split_shared (λ k, k) r = split_shared (λ k, k) q.
Proof.
  intros Hr Hq Hn. apply (StronglySorted_unique_strong Z.le).
  - intros x y _ _. apply Z.le_antisymm.
  - pose proof (law_order (λ k, k) r Hr) as Hs. by rewrite list_fmap_id in Hs.
  - pose proof (law_order (λ k, k) q Hq) as Hs. by rewrite list_fmap_id in Hs.
  - apply NoDup_Permutation; [by apply law_distinct..|]. intros x. rewrite !law_members by done. by rewrite Hn.
Qed.

Lemma checked_inv c r n n' : checked c r n = (Ret tt, n') → n' = n.
Proof. unfold checked. by destruct (succeeds c r); [intros [= ->]|]. Qed.

(** What a constructor that returns has made *)
Lemma new_rank_topology_inv r n t n' :
  new_rank_topology r n = (Ret t, n') →
  n' = n ∧ t = RankTopology (position r (split_shared (λ k, k) r)) (list_to_set (split_shared (λ k, k) r)).
Proof.
  unfold new_rank_topology. rewrite list_fmap_id, insert_all_set.
  intros ([] & n1 & ->%checked_inv & E)%bnd_inv. apply bnd_inv in E as ([] & n2 & ->%checked_inv & E).
  apply bnd_inv in E as ([] & n3 & [= <-] & E). apply bnd_inv in E as ([] & n4 & ->%checked_inv & E).
  apply bnd_inv in E as ([] & n5 & ->%checked_inv & E). apply bnd_inv in E as ([] & n6 & ->%checked_inv & E).
  cbn in E. by injection E as <- <-.
Qed.

(** C39: The topology of a rank [r] describes its node, and the ranks of a node agree: the local
    ranks are the ranks of the node, a rank is local exactly where it is on the node, and
    [local_rank] numbers the ranks of the node from 0 to [local_size - 1], in the order of
    the ranks, each number used; no communicator is left behind. *)
Theorem topology_numbers_nodes r n t n' :
  0 ≤ r < nranks → new_rank_topology r n = (Ret t, n') →
  n' = n ∧
  (∀ q, is_local t q = true ↔ 0 ≤ q < nranks ∧ node q = node r) ∧
  0 ≤ local_rank t < local_size t ∧
  ∀ q m t' m', 0 ≤ q < nranks → new_rank_topology q m = (Ret t', m') →
    (is_local t q = true ↔ is_local t' r = true) ∧
    (is_local t q = true → local_ranks t' = local_ranks t ∧ local_size t' = local_size t ∧
       (r < q → local_rank t < local_rank t') ∧ (local_rank t = local_rank t' → r = q)).
Proof.
  intros Hr (-> & ->)%new_rank_topology_inv. split; [done|].
  assert (∀ r q, 0 ≤ r < nranks → is_local (RankTopology (position r (split_shared (λ k, k) r))
    (list_to_set (split_shared (λ k, k) r))) q = true ↔ 0 ≤ q < nranks ∧ node q = node r) as Hloc.
  { intros r' q Hr'. unfold is_local. cbn. rewrite bool_decide_eq_true, elem_of_list_to_set. by apply law_members. }
  assert (∀ r, 0 ≤ r < nranks → r ∈ split_shared (λ k, k) r) as Hself by (intros; by apply law_members).
  split_and!.
  - intros q. by apply Hloc.
  - apply position_bounds, Hself, Hr.
  - unfold local_size, local_rank. cbn. rewrite size_list_to_set by (by apply law_distinct).
    apply position_bounds, Hself, Hr.
  - intros q m t' m' Hq (-> & ->)%new_rank_topology_inv. rewrite !Hloc by done. split; [naive_solver|].
    intros [_ Hn]. unfold local_ranks, local_size, local_rank. cbn. rewrite (same_node_same_group q r) by done.
    pose proof (law_order (λ k, k) r Hr) as Hs. rewrite list_fmap_id in Hs.
    assert (q ∈ split_shared (λ k, k) r) as Hqr by (by apply law_members). split_and!; [done..| |].
    + intros Hlt. by apply position_mono; [| apply Hself| |].
    + intros E. apply (inj Some). rewrite <- (position_lookup r _ (Hself r Hr)), <- (position_lookup q _ Hqr). by rewrite E.
Qed.

(** The base of a context throws where MPI is not initialised for several threads and the
    context is to be thread safe; otherwise, where MPI succeeds, it has the rank, the
    number of ranks and the topology. *)
Theorem context_base_construction r thread_safe n :
  (∀ c, succeeds c r = true) →
  if bool_decide (thread_safe = true ∧ provided ≠ THREAD_MULTIPLE)
  then new_context_base r thread_safe n = (Throw (runtime_error "oomph: MPI is not thread safe!"), n)
  else ∃ t, new_rank_topology r n = (Ret t, n) ∧
       new_context_base r thread_safe n = (Ret (ContextBase (MpiComm r nranks) thread_safe t), n).
Proof.
  intros Hs. assert (∃ t, new_rank_topology r n = (Ret t, n)) as [t Et].
  { unfold new_rank_topology, checked. rewrite !Hs. by eexists. }
  assert (new_mpi_comm r n = (Ret (MpiComm r nranks), n)) as Ec by (unfold new_mpi_comm, checked; by rewrite !Hs).
  unfold new_context_base. rewrite (bnd_ret _ _ _ _ _ Ec), (bnd_ret _ _ _ _ _ Et). unfold checked. rewrite Hs. cbn.
  destruct thread_safe; [|by rewrite bool_decide_false by naive_solver; eauto].
  destruct (decide (provided = THREAD_MULTIPLE)) as [E|E].
  - rewrite (bool_decide_false (_ ∧ _)) by naive_solver. rewrite bool_decide_true by done. eauto.
  - by rewrite (bool_decide_true (_ ∧ _)), bool_decide_false by done.
Qed.

(** A call that fails after the split leaves the communicator of the node behind. *)
Theorem topology_error_leaks r n :
  succeeds Comm_rank r = true → succeeds Split_type r = true →
  succeeds Shared_rank r && succeeds Shared_size r && succeeds Comm_free r = false →
  new_rank_topology r n = (Throw (runtime_error "MPI Call failed"), S n).
Proof.
  intros E1 E2 E3. unfold new_rank_topology, checked. rewrite E1, E2. cbn.
  destruct (succeeds Shared_rank r); [|done]. destruct (succeeds Shared_size r); [|done]. by destruct (succeeds Comm_free r).
Qed.
End laws.

(** ** Two nodes of two ranks each *)

Definition by_key (keys : Z → Z) (a b : Z) : Prop := keys a ≤ keys b.
#[export] Instance by_key_dec keys : RelDecision (by_key keys).
Proof. intros a b. unfold by_key. apply _. Defined.
#[export] Instance by_key_total keys : Total (by_key keys).
Proof. intros a b. unfold by_key. lia. Qed.
#[export] Instance by_key_trans keys : Transitive (by_key keys).
Proof. intros a b c. unfold by_key. lia. Qed.

#[export] Instance toy_mpi : Mpi := {|
  nranks := 4; succeeds _ _ := true; provided := THREAD_SERIALIZED;
  split_shared keys r := merge_sort (by_key keys) (filter (λ q, q mod 2 = r mod 2) [0; 1; 2; 3])
|}.

Lemma sorted_keys keys l : StronglySorted (by_key keys) l → StronglySorted Z.le (keys <$> l).
Proof. induction 1 as [|x l _ IH Hx]; cbn; constructor; [done|]. by apply Forall_fmap. Qed.

#[export] Program Instance toy_mpi_laws : MpiLaws := {| node r := r mod 2 |}.
Next Obligation.
  intros keys r q _. cbn [nranks split_shared toy_mpi]. rewrite merge_sort_Permutation, list_elem_of_filter.
  rewrite !elem_of_cons, elem_of_nil. split; [|intros [? ?]; split; [done|lia]]. intros [? Hq]. split; [|done].
  destruct Hq as [->|[->|[->|[->|[]]]]]; lia.
Qed.
Next Obligation.
  intros keys r _. cbn [split_shared toy_mpi]. rewrite merge_sort_Permutation. apply NoDup_filter.
  apply (bool_decide_unpack _). by vm_compute.
Qed.
Next Obligation. intros keys r _. apply sorted_keys, StronglySorted_merge_sort; apply _. Qed.

Lemma topology_of_3 : new_rank_topology 3 0%nat = (Ret (RankTopology 1 {[3; 1]}), 0%nat).
Proof. by vm_compute. Qed.

Lemma topology_numbers_nodes_witness :
  new_rank_topology 3 0%nat = (Ret (RankTopology 1 {[3; 1]}), 0%nat) ∧ is_local (RankTopology 1 {[3; 1]}) 1 = true.
Proof.
  split; [exact topology_of_3|].
  apply (topology_numbers_nodes 3 0%nat _ 0%nat ltac:(by vm_compute) topology_of_3). by vm_compute.
Defined.

Lemma context_base_construction_witness :
  new_context_base 2 true 0%nat = (Throw (runtime_error "oomph: MPI is not thread safe!"), 0%nat).
Proof. exact (context_base_construction 2 true 0%nat (λ _, eq_refl)). Defined.
