(* ===== verification/Locality.v ===== *)
(** * Localities of the libfabric backend

    Model of src/src/libfabric/locality.hpp: the address of an endpoint as an
    array of 32-bit words with a fabric address, its constructors, accessors and
    comparisons, for each of the address formats that the build selects.

    The words are seen as bytes in the order of the (little-endian) platform
    wherever the source does: [memcpy], [memcmp], [reinterpret_cast].  The
    network functions are a parameter: [inet_pton] yields the four bytes of
    [sin_addr], as a 32-bit word in memory order. *)
From stdpp Require Import pretty.
From S2P Require Import Prelude LfEnv.

(** ** Words and bytes *)

Definition bytes_of_word (x : Z) : list Z :=
  [x mod 256; (x / 256) mod 256; (x / 65536) mod 256; (x / 16777216) mod 256]%Z.
Definition word_of_bytes (b0 b1 b2 b3 : Z) : Z := (b0 + b1 * 256 + b2 * 65536 + b3 * 16777216)%Z.

Definition bytes_of (l : list Z) : list Z := l ≫= bytes_of_word.
Fixpoint words_of (l : list Z) : list Z :=
  match l with
  | b0 :: b1 :: b2 :: b3 :: l => word_of_bytes b0 b1 b2 b3 :: words_of l
  | _ => []
  end.

Definition is_byte (b : Z) : Prop := (0 ≤ b < 256)%Z.
Definition is_word (x : Z) : Prop := (0 ≤ x < 2 ^ 32)%Z.

Lemma word_of_bytes_of x : is_word x →
  word_of_bytes (x mod 256) ((x / 256) mod 256) ((x / 65536) mod 256) ((x / 16777216) mod 256) = x.
Proof. unfold is_word, word_of_bytes. intros Hx. Z.div_mod_to_equations. lia. Qed.

Lemma bytes_of_word_of b0 b1 b2 b3 :
  is_byte b0 → is_byte b1 → is_byte b2 → is_byte b3 →
  bytes_of_word (word_of_bytes b0 b1 b2 b3) = [b0; b1; b2; b3].
Proof.
  unfold is_byte, bytes_of_word, word_of_bytes. intros H0 H1 H2 H3.
  assert (∀ a a' b b' c c' d d' : Z, a = a' → b = b' → c = c' → d = d' → [a; b; c; d] = [a'; b'; c'; d']) as Hl
    by (by intros; subst). apply Hl; Z.div_mod_to_equations; lia.
Qed.

Lemma words_of_bytes_of l : Forall is_word l → words_of (bytes_of l) = l.
Proof.
  induction 1 as [|x l Hx _ IH]; [done|]. cbn -[Z.div Z.modulo Z.pow].
  change (l ≫= bytes_of_word) with (bytes_of l). by rewrite IH, word_of_bytes_of.
Qed.

Lemma bytes_of_words_of n l : length l = 4 * n → Forall is_byte l → bytes_of (words_of l) = l ∧ length (words_of l) = n.
Proof.
  revert l. induction n as [|n IH]; intros l Hn Hl; [by apply nil_length_inv in Hn as ->|].
  destruct l as [|b0 [|b1 [|b2 [|b3 l]]]]; cbn in Hn; try lia.
  rewrite !Forall_cons in Hl. destruct Hl as (H0 & H1 & H2 & H3 & Hl).
  destruct (IH l ltac:(lia) Hl) as [E1 E2]. cbn [words_of]. split; [|cbn; lia].
  change (bytes_of (?x :: ?l)) with (bytes_of_word x ++ bytes_of l).
  by rewrite E1, bytes_of_word_of.
Qed.

Lemma bytes_of_byte l : Forall is_byte (bytes_of l).
Proof.
  unfold bytes_of, is_byte. induction l as [|x l IH]; [done|]. cbn -[Z.div Z.modulo Z.pow].
  repeat constructor; try apply Z.mod_pos_bound; try lia. exact IH.
Qed.

Lemma length_bytes_of l : length (bytes_of l) = 4 * length l.
Proof. induction l as [|x l IH]; [done|]. cbn -[Z.div Z.modulo Z.pow Nat.mul]. unfold bytes_of in IH. lia. Qed.

Lemma words_of_word l : Forall is_byte l → Forall is_word (words_of l).
Proof.
  revert l. refine (fix IH l {struct l} := _). destruct l as [|b0 [|b1 [|b2 [|b3 l]]]]; intros Hl; cbn; try done.
  rewrite !Forall_cons in Hl. destruct Hl as (H0 & H1 & H2 & H3 & Hl). constructor; [|by apply IH].
  unfold is_word, is_byte, word_of_bytes in *. lia.
Qed.

(** ** The formats *)

Inductive address_format : Type :=
| Sockaddr  (** [HAVE_LIBFABRIC_LOCALITY_SOCKADDR]: verbs, tcp, sockets, psm2 *)
| Gni
| Cxi_1_15
| Cxi
| Efa.

(** [locality_defs::array_size] and [array_length] *)
Definition array_size (f : address_format) : nat :=
  match f with Sockaddr => 16 | Gni => 48 | Cxi_1_15 => 4 | Cxi => 8 | Efa => 32 end.
Definition array_length (f : address_format) : nat := array_size f / 4.

Record locality : Type := Locality { data_ : list Z; fi_address_ : Z }.

Section locality.
Variable f : address_format.
Variable inet_pton : string → option Z.

(** *** Constructors *)

Definition from_data (in_data : list Z) : locality :=
  Locality (words_of (take (array_size f) (bytes_of in_data))) 0.
Definition default_locality : locality := Locality (words_of (replicate (array_size f) 0%Z)) 0.
Definition copy (other : locality) : locality := Locality (data_ other) (fi_address_ other).
Definition copy_fi (other : locality) (addr : Z) : locality := Locality (data_ other) addr.
Definition assign (target other : locality) : locality := Locality (data_ other) (fi_address_ other).
Definition set_fi_address (l : locality) (fi_addr : Z) : locality := Locality (data_ l) fi_addr.

(** [std::stol]: leading space, a sign, digits; an exception without digits or
    for a number that is no [long]. *)
Definition stol (s : string) : outcome Z :=
  let s1 := (read_sign (skip_space s)).2 in
  match s1 with
  | String a _ =>
      match digit 10 a with
      | Some _ =>
          if bool_decide (- 2 ^ 63 ≤ atoi s < 2 ^ 63)%Z then Ret (atoi s)
          else Throw (logic_error "stol")
      | None => Throw (logic_error "stol")
      end
  | EmptyString => Throw (logic_error "stol")
  end.

(** [htons]: the argument is a [uint16_t]; the bytes in memory order. *)
Definition htons_bytes (p : Z) : list Z := [(p / 256) mod 256; p mod 256]%Z.

Definition AF_INET : Z := 2.
Definition sockaddr_in (port_ addr : Z) : list Z :=
  [AF_INET; 0%Z] ++ htons_bytes port_ ++ bytes_of_word addr ++ replicate 8 0%Z.

(** The address stays zero if it cannot be parsed.  [memcpy] of more than the 16
    bytes of [sockaddr_in] reads outside of it. *)
Definition from_strings (address portnum : string) : outcome locality :=
  match stol portnum with
  | Ret p =>
      let socket_data := sockaddr_in p (default 0%Z (inet_pton address)) in
      if bool_decide (length socket_data < array_size f) then Halt undefined_behaviour
      else Ret (Locality (words_of (take (array_size f) socket_data)) 0)
  | Throw e => Throw e
  | Halt h => Halt h
  end.

(** *** Accessors *)

(** [sin_addr] is at the bytes 4 to 7 of a [sockaddr_in]. *)
Definition ip_address (l : locality) : Z :=
  match f with
  | Sockaddr => default 0%Z (data_ l !! 1)
  | _ => default 0%Z (data_ l !! 0)
  end.

Definition valid (l : locality) : bool := bool_decide (ip_address l ≠ 0%Z).

Definition port (l : locality) : Z :=
  let b i := default 0%Z (bytes_of (data_ l) !! i) in
  (256 * b 2%nat + b 3%nat)%Z.

(** The bytes that [fabric_data] points to. *)
Definition fabric_data (l : locality) : list Z := bytes_of (data_ l).

(** *** Comparisons *)

(** The member function compares the bytes, the friend also the fabric address. *)
Definition member_eq (l other : locality) : bool :=
  bool_decide (take (array_size f) (bytes_of (data_ l)) = take (array_size f) (bytes_of (data_ other))).
Definition friend_eq (lhs rhs : locality) : bool :=
  bool_decide (data_ lhs = data_ rhs) && bool_decide (fi_address_ lhs = fi_address_ rhs).

Definition less_than (l other : locality) : bool :=
  if bool_decide (ip_address l < ip_address other)%Z then true
  else if bool_decide (ip_address l = ip_address other) then bool_decide (port l < port other)%Z
  else false.

Definition friend_lt (lhs rhs : locality) : bool :=
  bool_decide (ip_address lhs < ip_address rhs)%Z ||
  (bool_decide (ip_address lhs = ip_address rhs) && bool_decide (fi_address_ lhs < fi_address_ rhs)%Z).

(** ** Types *)

(** The array has its length, the words are 32-bit, the fabric address 64-bit. *)
Record wf (l : locality) : Prop := {
  wf_length : length (data_ l) = array_length f;
  wf_words : Forall is_word (data_ l);
  wf_fi : (0 ≤ fi_address_ l < 2 ^ 64)%Z
}.

(** The localities a program can make. *)
Inductive built : locality → Prop :=
| built_data d : length d = array_length f → Forall is_word d → built (from_data d)
| built_default : built default_locality
| built_copy l : built l → built (copy l)
| built_copy_fi l a : built l → (0 ≤ a < 2 ^ 64)%Z → built (copy_fi l a)
| built_strings a p l : from_strings a p = Ret l → built l
| built_assign l l' : built l → built l' → built (assign l l')
| built_set_fi l a : built l → (0 ≤ a < 2 ^ 64)%Z → built (set_fi_address l a).

Lemma array_size_words : array_size f = 4 * array_length f.
Proof. by destruct f. Qed.

Lemma wf_of_bytes l a :
  length l = array_size f → Forall is_byte l → (0 ≤ a < 2 ^ 64)%Z → wf (Locality (words_of l) a).
Proof.
  intros Hl Hb Ha. rewrite array_size_words in Hl. destruct (bytes_of_words_of _ _ Hl Hb) as [_ E].
  split; [done|by apply words_of_word|done].
Qed.

Lemma sockaddr_bytes p a : Forall is_byte (sockaddr_in p a).
Proof.
  unfold sockaddr_in. rewrite !Forall_app. split_and!.
  - repeat constructor; unfold is_byte, AF_INET; lia.
  - repeat constructor; unfold is_byte; apply Z.mod_pos_bound; lia.
  - pose proof (bytes_of_byte [a]) as Hb. unfold bytes_of in Hb. cbn [mbind list_bind] in Hb. by rewrite app_nil_r in Hb.
  - apply Forall_replicate. unfold is_byte. lia.
Qed.

Lemma from_strings_wf a p l : from_strings a p = Ret l → wf l.
Proof.
  unfold from_strings. destruct (stol p) as [n| |]; [|done..].
  case_bool_decide as Hlt; [done|]. intros [= <-]. apply wf_of_bytes; [|apply Forall_take, sockaddr_bytes|lia].
  rewrite length_take. lia.
Qed.

Lemma from_data_wf d : length d = array_length f → Forall is_word d → from_data d = Locality d 0.
Proof.
  intros Hl Hd. unfold from_data. f_equal. rewrite take_ge; [by apply words_of_bytes_of|].
  rewrite length_bytes_of, Hl, <- array_size_words. done.
Qed.

Lemma built_wf l : built l → wf l.
Proof.
  induction 1 as [d Hl Hd| |l _ []|l a _ [] Ha|a p l Es|l l' _ _ _ []|l a _ [] Ha]; try by split.
  - rewrite from_data_wf by done. split; [done..|cbn; lia].
  - apply wf_of_bytes; [apply length_replicate|apply Forall_replicate; unfold is_byte; lia|lia].
  - by eapply from_strings_wf.
Qed.

(** ** Round trips *)

Lemma stol_pretty p : (p < 2 ^ 63)%N → stol (pretty p) = Ret (Z.of_N p).
Proof.
  intros Hp. unfold stol. rewrite atoi_pretty, bool_decide_eq_true_2 by lia.
  unfold pretty, pretty_N. case_decide as E; [by subst|].
  destruct (pretty_head p "") as (a & s & Es & d & Hd & ->); [lia|]. rewrite Es.
  destruct (plain_number d s Hd) as (E1 & E2 & _). rewrite E1, E2. cbn [snd].
  rewrite digit_pretty by lia. done.
Qed.

(** A locality can be rebuilt from the bytes that another rank receives. *)
Theorem locality_bytes_roundtrip l l' :
  built l → built l' →
  words_of (fabric_data l) = data_ l ∧ from_data (data_ l) = Locality (data_ l) 0 ∧
  (member_eq l l' = true ↔ data_ l = data_ l') ∧
  (friend_eq l l' = true ↔ l = l').
Proof.
  intros [Hl Hw _]%built_wf [Hl' Hw' _]%built_wf.
  pose proof (words_of_bytes_of _ Hw) as E. pose proof (words_of_bytes_of _ Hw') as E'.
  split_and!; [done|by apply from_data_wf| |].
  - unfold member_eq. rewrite bool_decide_eq_true, !take_ge
      by (rewrite length_bytes_of, ?Hl, ?Hl', <- array_size_words; done).
    split; [|by intros ->]. intros Eb. by rewrite <- E, <- E', Eb.
  - unfold friend_eq. rewrite andb_true_iff, !bool_decide_eq_true. destruct l, l'; cbn. naive_solver.
Qed.

(** *** Orders *)

Lemma friend_lt_spec l l' :
  friend_lt l l' = true ↔
  (ip_address l < ip_address l' ∨ ip_address l = ip_address l' ∧ fi_address_ l < fi_address_ l')%Z.
Proof. unfold friend_lt. rewrite orb_true_iff, andb_true_iff, !bool_decide_eq_true. done. Qed.

Lemma less_than_spec l l' :
  less_than l l' = true ↔
  (ip_address l < ip_address l' ∨ ip_address l = ip_address l' ∧ port l < port l')%Z.
Proof. unfold less_than. repeat case_bool_decide; naive_solver lia. Qed.

(** Both orders are strict and their incomparability is an equivalence, as
    ordered containers and sorting need it: [operator<] identifies the
    localities with the same address and fabric address, [less_than] those with
    the same address and port; equal localities are never ordered. *)
Theorem locality_strict_weak_orders :
  (∀ lt : locality → locality → bool, lt = friend_lt ∨ lt = less_than →
     (∀ x, lt x x = false) ∧
     (∀ x y z, lt x y = true → lt y z = true → lt x z = true) ∧
     (∀ x y z, lt x y = true → lt x z = true ∨ lt z y = true) ∧
     (∀ x y, friend_eq x y = true → lt x y = false)) ∧
  (∀ x y, friend_lt x y = false ∧ friend_lt y x = false ↔
          ip_address x = ip_address y ∧ fi_address_ x = fi_address_ y) ∧
  (∀ x y, less_than x y = false ∧ less_than y x = false ↔
          ip_address x = ip_address y ∧ port x = port y).
Proof.
  assert (∀ (k1 k2 : locality → Z) (lt : locality → locality → bool),
    (∀ x y, lt x y = true ↔ (k1 x < k1 y ∨ k1 x = k1 y ∧ k2 x < k2 y)%Z) →
    (∀ x y, x = y → k1 x = k1 y ∧ k2 x = k2 y) →
    ((∀ x, lt x x = false) ∧ (∀ x y z, lt x y = true → lt y z = true → lt x z = true) ∧
     (∀ x y z, lt x y = true → lt x z = true ∨ lt z y = true) ∧
     (∀ x y, friend_eq x y = true → lt x y = false)) ∧
    (∀ x y, lt x y = false ∧ lt y x = false ↔ k1 x = k1 y ∧ k2 x = k2 y)) as Hlex.
  { intros k1 k2 lt Hlt Hk. assert (∀ x y, lt x y = false ↔ ¬ (k1 x < k1 y ∨ k1 x = k1 y ∧ k2 x < k2 y)%Z) as Hf.
    { intros x y. rewrite <- Hlt. by rewrite not_true_iff_false. }
    split; [split_and!|].
    - intros x. rewrite Hf. lia.
    - intros x y z. rewrite !Hlt. lia.
    - intros x y z. rewrite !Hlt. lia.
    - intros x y [E1%bool_decide_eq_true E2%bool_decide_eq_true]%andb_true_iff. rewrite Hf.
      destruct (Hk x y) as [-> ->]; [destruct x, y; cbn in *; congruence|lia].
    - intros x y. rewrite !Hf. lia. }
  destruct (Hlex ip_address fi_address_ friend_lt friend_lt_spec) as [H1 H2]; [by intros x y ->|].
  destruct (Hlex ip_address port less_than less_than_spec) as [H3 H4]; [by intros x y ->|].
  split; [intros lt [->| ->]; done|done].
Qed.
End locality.

(** *** Addresses as strings *)

Section strings.
Variable inet_pton : string → option Z.

Lemma sockaddr_words p a :
  is_word a →
  words_of (sockaddr_in p a) =
    [word_of_bytes AF_INET 0 ((p / 256) mod 256) (p mod 256); a; 0%Z; 0%Z].
Proof.
  intros Ha. unfold sockaddr_in, htons_bytes, bytes_of_word. cbn -[Z.div Z.modulo AF_INET word_of_bytes].
  by rewrite word_of_bytes_of.
Qed.

(** C30: In the socket formats, the address and the port a locality is made from are
    those its accessors report; the address of a valid locality is not zero.
    In the formats with longer addresses the constructor reads outside of the
    socket address. *)
Theorem locality_string_roundtrip address a p :
  inet_pton address = Some a → is_word a → (p < 2 ^ 16)%N →
  (∃ l, from_strings Sockaddr inet_pton address (pretty p) = Ret l ∧
        ip_address Sockaddr l = a ∧ port l = Z.of_N p ∧ fi_address_ l = 0%Z ∧
        valid Sockaddr l = bool_decide (a ≠ 0%Z)) ∧
  (∀ f, f = Gni ∨ f = Efa → from_strings f inet_pton address (pretty p) = Halt undefined_behaviour).
Proof.
  intros Ha Hw Hp. unfold from_strings. rewrite stol_pretty, Ha by lia. cbn [default].
  split; [|by intros f [-> | ->]].
  eexists. split; [done|]. cbn [array_size].
  rewrite take_ge by done. unfold valid, ip_address, port. cbn [data_ fi_address_].
  rewrite sockaddr_words by done. cbn [lookup list_lookup default]. split_and!; [done| |done|done].
  unfold bytes_of. cbn [mbind list_bind app]. rewrite bytes_of_word_of;
    try (unfold is_byte, AF_INET; try apply Z.mod_pos_bound; lia). cbn -[Z.div Z.modulo].
  Z.div_mod_to_equations. lia.
Qed.
End strings.

(** ** Examples *)

(** [127.0.0.1] in memory order. *)
Definition toy_pton (s : string) : option Z := if decide (s = "127.0.0.1") then Some 16777343%Z else None.

Lemma locality_string_roundtrip_witness :
  ∃ l, from_strings Sockaddr toy_pton "127.0.0.1" "8080" = Ret l ∧
       ip_address Sockaddr l = 16777343%Z ∧ port l = 8080%Z.
Proof.
  destruct (locality_string_roundtrip toy_pton "127.0.0.1" 16777343 8080) as [(l & E & H1 & H2 & _) _].
  - reflexivity.
  - unfold is_word. lia.
  - lia.
  - exists l. split; [exact E|]. split; [exact H1|exact H2].
Defined.

Lemma toy_built : ∃ l, from_strings Sockaddr toy_pton "127.0.0.1" "8080" = Ret l ∧ built Sockaddr toy_pton l.
Proof.
  destruct (from_strings Sockaddr toy_pton "127.0.0.1" "8080") as [l| |] eqn:E; try (vm_compute in E; discriminate).
  exists l. split; [reflexivity|by eapply built_strings].
Qed.

Lemma locality_bytes_roundtrip_witness :
  ∃ l, from_strings Sockaddr toy_pton "127.0.0.1" "8080" = Ret l ∧ words_of (fabric_data l) = data_ l.
Proof.
  destruct toy_built as (l & E & Hb). exists l. split; [exact E|].
  apply (locality_bytes_roundtrip Sockaddr toy_pton l l Hb Hb).
Defined.
