(* ===== verification/MsgBuffer.v ===== *)
(** * Message buffers and the operations on them

    Model of include/oomph/message_buffer.hpp, include/oomph/detail/message_buffer.hpp,
    src/message_buffer.cpp, src/util/heap_pimpl_src.hpp and of the members of
    [communicator] (include/oomph/communicator.hpp, src/communicator.cpp) that make
    buffers and hand them to a backend.

    Buffers are objects at places: the variables of the program ([inl v]) and the
    member [m] of the closure [cb_rref] that an operation owns ([inr i] for
    operation [i]).  The object behind a [heap_pimpl] has an identity of its own,
    so that its address survives a move of the buffer.  The memory comes from the
    hwmalloc library, whose choice of addresses is a parameter; the backend
    accepts or rejects an operation and completes or cancels it later.

    Releasing memory that is not live, reading through a null or dangling pointer
    and using a variable that does not exist are undefined behaviour. *)
From S2P Require Import Prelude.
Local Open Scope Z_scope.

(** ** State *)

(** Memory of a heap: its size, who owns the host and the device side, the device
    and the contents. *)
Record alloc : Type := Alloc {
  a_bytes : Z;
  a_user_host : bool;
  a_user_device : bool;
  a_device : option Z;
  a_host : Z → Z;
  a_dev : Z → Z
}.

(** [message_buffer<T>] with its base [detail::message_buffer]; [elem] is
    [sizeof(T)]. *)
Record mbuf : Type := Mbuf {
  m_ptr : option positive;
  m_heap_ptr : option positive;
  m_size : Z;
  elem : Z
}.

Definition place : Type := nat + nat.

Inductive op_kind : Type := Op_send | Op_recv | Op_shared_recv.

(** The closures handed to the backend; [Cb_none] remembers the variable whose
    buffer is in use. *)
Inductive fcb : Type :=
| Cb_none (v : nat)
| Cb_rref (cb : nat)
| Cb_lref (cb v : nat)
| Cb_lref_const (cb v : nat).

Record op : Type := Op {
  o_kind : op_kind;
  o_alloc : positive;
  o_bytes : Z;
  o_peer : Z;
  o_tag : Z;
  o_cb : fcb
}.

(** What a callback is called with. *)
Record call : Type := Call {
  c_cb : nat;
  c_buffer : mbuf;
  c_rank : Z;
  c_tag : Z
}.

(** [detached]: memory that [clear] has let go of. *)
Record fes : Type := Fes {
  allocs : gmap positive alloc;
  impls : gmap positive (option positive);
  bufs : gmap place mbuf;
  ops : gmap nat op;
  next_op : nat;
  calls : list call;
  detached : gset positive
}.

Definition set_allocs x s := Fes x (impls s) (bufs s) (ops s) (next_op s) (calls s) (detached s).
Definition set_impls x s := Fes (allocs s) x (bufs s) (ops s) (next_op s) (calls s) (detached s).
Definition set_bufs x s := Fes (allocs s) (impls s) x (ops s) (next_op s) (calls s) (detached s).
Definition set_ops x s := Fes (allocs s) (impls s) (bufs s) x (next_op s) (calls s) (detached s).
Definition set_next x s := Fes (allocs s) (impls s) (bufs s) (ops s) x (calls s) (detached s).
Definition set_calls x s := Fes (allocs s) (impls s) (bufs s) (ops s) (next_op s) x (detached s).
Definition set_detached x s := Fes (allocs s) (impls s) (bufs s) (ops s) (next_op s) (calls s) x.

Definition init_fes : fes := Fes ∅ ∅ ∅ ∅ 0 [] ∅.

Definition read_buf (p : place) : M fes mbuf := λ s,
  match bufs s !! p with Some b => (Ret b, s) | None => (Halt undefined_behaviour, s) end.
Definition write_buf (p : place) (b : mbuf) : M fes unit :=
  modify (λ s, set_bufs (<[p := b]> (bufs s)) s).

(** ** heap_ptr_impl and heap_pimpl *)

(** [new T{ptr}] *)
Definition new_impl (a : option positive) : M fes positive := λ s,
  let h := fresh (dom (impls s)) in (Ret h, set_impls (<[h := a]> (impls s)) s).

(** Reading [m] of the object: a null pointer or one that has been deleted is an
    error. *)
Definition impl_m (h : option positive) : M fes (option positive) := λ s,
  match h with
  | Some h => match impls s !! h with Some a => (Ret a, s) | None => (Halt undefined_behaviour, s) end
  | None => (Halt undefined_behaviour, s)
  end.

(** [heap_ptr_impl::release()] *)
Definition release_impl (h : option positive) : M fes unit :=
  let! a := impl_m h in
  λ s, match a with
       | Some a =>
           match allocs s !! a with
           | Some _ => (Ret tt, set_allocs (delete a (allocs s)) s)
           | None => (Halt undefined_behaviour, s)
           end
       | None => (Halt undefined_behaviour, s)
       end.

(** The destructor of the [unique_ptr] in a [heap_pimpl] *)
Definition delete_impl (h : option positive) : M fes unit := λ s,
  match h with
  | None => (Ret tt, s)
  | Some h =>
      match impls s !! h with
      | Some _ => (Ret tt, set_impls (delete h (impls s)) s)
      | None => (Halt undefined_behaviour, s)
      end
  end.

(** [heap_pimpl::operator=(heap_pimpl&&)]: the [unique_ptr] takes the pointer out of
    [q], stores it in [p] and deletes what was there. *)
Definition pimpl_assign (p q : place) : M fes unit :=
  let! bq := read_buf q in
  write_buf q (Mbuf (m_ptr bq) None (m_size bq) (elem bq)) ;;;
  let! bp := read_buf p in
  write_buf p (Mbuf (m_ptr bp) (m_heap_ptr bq) (m_size bp) (elem bp)) ;;;
  delete_impl (m_heap_ptr bp).

(** ** message_buffer *)

(** [operator bool] *)
Definition is_set (b : mbuf) : bool := bool_decide (is_Some (m_ptr b)).

(** [m_size * sizeof(T)] in [std::size_t] *)
Definition byte_size (b : mbuf) : Z := u64 (m_size b * elem b).

(** [operator[]]: the memory and the offset of element [i] *)
Definition at_index (b : mbuf) (i : Z) : option (positive * Z) :=
  (λ a, (a, i * elem b)) <$> m_ptr b.

(** [if (m_ptr) m_heap_ptr->release();] *)
Definition release_buf (b : mbuf) : M fes unit :=
  if is_set b then release_impl (m_heap_ptr b) else ret tt.

(** [message_buffer() = default]: the size is indeterminate. *)
Definition construct_default (p : place) (size garbage : Z) : M fes unit :=
  write_buf p (Mbuf None None garbage size).

(** [~message_buffer()], then the destructors of the members *)
Definition destroy_buf (p : place) : M fes unit :=
  let! b := read_buf p in
  release_buf b ;;;
  delete_impl (m_heap_ptr b) ;;;
  modify (λ s, set_bufs (delete p (bufs s)) s).

(** The move constructor of [detail::message_buffer], with the size [n] and the
    element size of the new object *)
Definition move_construct (p q : place) (n size : Z) : M fes unit :=
  let! b := read_buf q in
  write_buf q (Mbuf None None (m_size b) (elem b)) ;;;
  write_buf p (Mbuf (m_ptr b) (m_heap_ptr b) n size).

(** [message_buffer(message_buffer&&) = default] *)
Definition construct_move (p q : place) : M fes unit :=
  let! b := read_buf q in move_construct p q (m_size b) (elem b).

(** [message_buffer(message_buffer<U>&& other)] *)
Definition convert_size (b : mbuf) (size : Z) : Z := byte_size b / size.
Definition construct_convert (p q : place) (size : Z) : M fes unit :=
  let! b := read_buf q in move_construct p q (convert_size b size) size.

(** [detail::message_buffer::operator=(message_buffer&&)] *)
Definition assign_core (p q : place) : M fes unit :=
  let! b := read_buf p in
  release_buf b ;;;
  let! bq := read_buf q in
  write_buf q (Mbuf None (m_heap_ptr bq) (m_size bq) (elem bq)) ;;;
  let! bp := read_buf p in
  write_buf p (Mbuf (m_ptr bq) (m_heap_ptr bp) (m_size bp) (elem bp)) ;;;
  pimpl_assign p q.

Definition write_size (p : place) (n : Z) : M fes unit :=
  let! b := read_buf p in write_buf p (Mbuf (m_ptr b) (m_heap_ptr b) n (elem b)).

(** [operator=(message_buffer&&) = default] *)
Definition assign_move (p q : place) : M fes unit :=
  assign_core p q ;;;
  let! b := read_buf q in write_size p (m_size b).

(** [operator=(message_buffer<U>&& other)] *)
Definition assign_convert (p q : place) : M fes unit :=
  assign_core p q ;;;
  let! bp := read_buf p in
  let! bq := read_buf q in
  write_size p (convert_size bq (elem bp)).

(** [detail::message_buffer::clear()]: a new [heap_ptr_impl] with a null pointer takes
    the place of the old one, the memory is not released. *)
Definition clear (p : place) : M fes unit :=
  let! b := read_buf p in
  write_buf p (Mbuf None (m_heap_ptr b) (m_size b) (elem b)) ;;;
  let! h := new_impl None in
  write_buf p (Mbuf None (Some h) (m_size b) (elem b)) ;;;
  delete_impl (m_heap_ptr b) ;;;
  modify (λ s, set_detached (match m_ptr b with Some a => {[a]} ∪ detached s | None => detached s end) s).

(** The memory behind a buffer, as its accessors reach it *)
Definition buf_alloc (p : place) : M fes (positive * alloc) :=
  let! b := read_buf p in
  let! o := impl_m (m_heap_ptr b) in
  λ s, match o ≫= (λ a, (a,.) <$> allocs s !! a) with
       | Some r => (Ret r, s)
       | None => (Halt undefined_behaviour, s)
       end.

Definition on_device (p : place) : M fes bool :=
  let! r := buf_alloc p in ret (bool_decide (is_Some (a_device (snd r)))).

(** A device pointer there must be: the copies of hwmalloc take the pointers as
    they are. *)
Definition device_id (p : place) : M fes Z :=
  let! r := buf_alloc p in
  match a_device (snd r) with Some d => ret d | None => stop undefined_behaviour end.

(** The first [n] bytes of [g], the others of [f] *)
Definition overwrite (n : Z) (g f : Z → Z) : Z → Z := λ i, if decide (i < n) then g i else f i.

(** The memory [m_ptr] points to *)
Definition host_alloc (b : mbuf) : M fes (positive * alloc) := λ s,
  match m_ptr b ≫= (λ a, (a,.) <$> allocs s !! a) with
  | Some r => (Ret r, s)
  | None => (Halt undefined_behaviour, s)
  end.

Definition put_alloc (a : positive) (x : alloc) : M fes unit :=
  modify (λ s, set_allocs (<[a := x]> (allocs s)) s).

(** [memcpy_to_device(m_heap_ptr->m.device_ptr(), m_ptr, m_size * sizeof(T))] *)
Definition clone_to_device (p : place) : M fes unit :=
  let! b := read_buf p in
  let! h := host_alloc b in
  let! _ := device_id p in
  let! r := buf_alloc p in
  let a := snd r in
  put_alloc (fst r) (Alloc (a_bytes a) (a_user_host a) (a_user_device a) (a_device a)
    (a_host a) (overwrite (byte_size b) (a_host (snd h)) (a_dev a))).

(** [memcpy_to_host(m_ptr, m_heap_ptr->m.device_ptr(), m_size * sizeof(T))] *)
Definition clone_to_host (p : place) : M fes unit :=
  let! b := read_buf p in
  let! _ := device_id p in
  let! r := buf_alloc p in
  let! h := host_alloc b in
  let a := snd h in
  put_alloc (fst h) (Alloc (a_bytes a) (a_user_host a) (a_user_device a) (a_device a)
    (overwrite (byte_size b) (a_dev (snd r)) (a_host a)) (a_dev a)).

(** ** Making buffers *)

(** [detail::message_buffer(VoidPtr ptr)] and the constructor of
    [message_buffer<T>] from it *)
Definition construct_ptr (p : place) (a : positive) (n size : Z) : M fes unit :=
  let! h := new_impl (Some a) in
  write_buf p (Mbuf (Some a) (Some h) n size).

(** [register_user_allocation]: the memory of the user, of [bytes] bytes, gets its
    pointer. *)
Definition register_user (a : positive) (bytes : Z) (udev : bool) (dev : option Z) : M fes positive := λ s,
  (Ret a, set_allocs (<[a := Alloc bytes true udev dev (λ _, 0) (λ _, 0)]> (allocs s)) s).

(** [make_buffer<T>(T* ptr, size)] *)
Definition make_buffer_user (p : place) (size : Z) (ptr : positive) (n : Z) : M fes unit :=
  let! a := register_user ptr (u64 (n * size)) false None in
  construct_ptr p a n size.

(** [make_device_buffer<T>(T* ptr, T* device_ptr, size, id)] *)
Definition make_device_buffer_user2 (p : place) (size : Z) (ptr : positive) (n id : Z) : M fes unit :=
  let! a := register_user ptr (u64 (n * size)) true (Some id) in
  construct_ptr p a n size.

Section heap.
(** The heap of hwmalloc: the address of new memory of a size, given the memory
    that is in use, or none when there is no memory left. *)
Variable hw_allocate : gmap positive alloc → Z → option positive.

(** [allocate]: memory of the library; [udev]: for memory the user has on the
    device, the host side of [register_user_allocation(device_ptr, id, size)] *)
Definition heap_allocate (bytes : Z) (udev : bool) (dev : option Z) : M fes positive := λ s,
  match hw_allocate (allocs s) bytes with
  | Some a => (Ret a, set_allocs (<[a := Alloc bytes false udev dev (λ _, 0) (λ _, 0)]> (allocs s)) s)
  | None => (Throw bad_alloc, s)
  end.

(** [make_buffer<T>(size)] *)
Definition make_buffer (p : place) (size n : Z) : M fes unit :=
  let! a := heap_allocate (u64 (n * size)) false None in
  construct_ptr p a n size.

(** [make_device_buffer<T>(size, id)] *)
Definition make_device_buffer (p : place) (size n id : Z) : M fes unit :=
  let! a := heap_allocate (u64 (n * size)) false (Some id) in
  construct_ptr p a n size.

(** [make_device_buffer<T>(T* device_ptr, size, id)] *)
Definition make_device_buffer_user (p : place) (size n id : Z) : M fes unit :=
  let! a := heap_allocate (u64 (n * size)) true (Some id) in
  construct_ptr p a n size.

(** ** Operations *)

(** [communicator::send], [recv] and [shared_recv] on a pointer to a
    [heap_ptr_impl]: the pointer is read and the closure goes to the backend.  A
    backend that throws destroys the closure. *)
Definition submit (k : op_kind) (h : option positive) (bytes peer tag : Z) (cb : fcb) (accept : bool) : M fes unit :=
  let! i := gets next_op in
  on_exception
    (let! a := impl_m h in
     match a with
     | Some a =>
         if accept then modify (λ s, set_next (S i) (set_ops (<[i := Op k a bytes peer tag cb]> (ops s)) s))
         else throw (runtime_error "backend")
     | None => stop undefined_behaviour
     end)
    (match cb with Cb_rref _ => destroy_buf (inr i) | _ => ret tt end).

Definition core_send := submit Op_send.
Definition core_recv := submit Op_recv.
Definition core_shared_recv := submit Op_shared_recv.

Section overloads.
Context (core : option positive → Z → Z → Z → fcb → bool → M fes unit).

(** The overloads without a callback *)
Definition post_plain (v : nat) (peer tag : Z) (accept : bool) : M fes unit :=
  let! msg := read_buf (inl v) in
  cassert (is_set msg) ;;;
  core (m_heap_ptr msg) (byte_size msg) peer tag (Cb_none v) accept.

(** [message_buffer<T>&&]: the pointer is taken before the buffer moves into the
    closure. *)
Definition post_rref (v : nat) (peer tag : Z) (cb : nat) (accept : bool) : M fes unit :=
  let! msg := read_buf (inl v) in
  cassert (is_set msg) ;;;
  let s := m_size msg in
  let m_ptr := m_heap_ptr msg in
  let! i := gets next_op in
  construct_move (inr i) (inl v) ;;;
  core m_ptr (u64 (s * elem msg)) peer tag (Cb_rref cb) accept.

(** [message_buffer<T>&] *)
Definition post_lref (v : nat) (peer tag : Z) (cb : nat) (accept : bool) : M fes unit :=
  let! msg := read_buf (inl v) in
  cassert (is_set msg) ;;;
  let s := m_size msg in
  let m_ptr := m_heap_ptr msg in
  core m_ptr (u64 (s * elem msg)) peer tag (Cb_lref cb v) accept.

(** [message_buffer<T> const&], for sends *)
Definition post_lref_const (v : nat) (peer tag : Z) (cb : nat) (accept : bool) : M fes unit :=
  let! msg := read_buf (inl v) in
  cassert (is_set msg) ;;;
  let s := m_size msg in
  let m_ptr := m_heap_ptr msg in
  core m_ptr (u64 (s * elem msg)) peer tag (Cb_lref_const cb v) accept.
End overloads.

Definition recv := post_plain core_recv.
Definition shared_recv := post_plain core_shared_recv.
Definition send := post_plain core_send.
Definition recv_rref := post_rref core_recv.
Definition shared_recv_rref := post_rref core_shared_recv.
Definition send_rref := post_rref core_send.
Definition recv_lref := post_lref core_recv.
Definition shared_recv_lref := post_lref core_shared_recv.
Definition send_lref := post_lref core_send.
Definition send_lref_const := post_lref_const core_send.

(** ** Completion *)

Definition log_call (c : call) : M fes unit := modify (λ s, set_calls (calls s ++ [c]) s).

(** What a callback that is given the buffer itself does with it: it moves it into a
    variable of the program, or leaves it in the closure. *)
Definition keep_or_drop (i : nat) (keep : option nat) : M fes unit :=
  match keep with Some v => construct_move (inl v) (inr i) | None => ret tt end ;;;
  destroy_buf (inr i).

(** [operator()] of the closures.  A callback that is given the message gets it by value:
    the message is moved out of the closure into the parameter, which the callback keeps
    ([keep]) or which is destroyed when it returns.  The closure itself stays in the
    request state until that is freed, with nothing but an empty message in it; it is
    dropped from the table here.  (A callback with a parameter [message_buffer&&] that
    does not take the message leaves it in the closure, to be freed with the request
    state, later than here.)  The other things a callback does are operations that
    follow. *)
Definition invoke (i : nat) (cb : fcb) (r t : Z) (keep : option nat) : M fes unit :=
  match cb with
  | Cb_none _ => ret tt
  | Cb_rref u => let! b := read_buf (inr i) in log_call (Call u b r t) ;;; keep_or_drop i keep
  | Cb_lref u v | Cb_lref_const u v => let! b := read_buf (inl v) in log_call (Call u b r t)
  end.

Definition take_op (i : nat) : M fes op := λ s,
  match ops s !! i with
  | Some o => (Ret o, set_ops (delete i (ops s)) s)
  | None => (Halt undefined_behaviour, s)
  end.

(** The backend completes operation [i] with a message from or to rank [r]. *)
Definition complete (i : nat) (r t : Z) (keep : option nat) : M fes unit :=
  let! o := take_op i in invoke i (o_cb o) r t keep.

(** The backend cancels it: the closure is destroyed without a call, in the code when the
    request state is freed. *)
Definition cancel (i : nat) : M fes unit :=
  let! o := take_op i in
  match o_cb o with Cb_rref _ => destroy_buf (inr i) | _ => ret tt end.
End heap.
