(* ===== verification/MsgBufferInv.v ===== *)
(** * Ownership of message memory

    The programs that use message buffers, their contract, and the invariant:
    every piece of memory is owned by one buffer, and the memory of an operation in
    flight is live and large enough.  The basic steps on buffers preserve it. *)
From S2P Require Import Prelude MsgBuffer.
Local Open Scope Z_scope.

(** ** Programs *)

Inductive pop : Type :=
| P_default (v : nat) (size garbage : Z)
| P_make (v : nat) (size n : Z)
| P_make_device (v : nat) (size n id : Z)
| P_make_device_user (v : nat) (size n id : Z)
| P_make_user (v : nat) (size : Z) (ptr : positive) (n : Z)
| P_make_user2 (v : nat) (size : Z) (ptr : positive) (n id : Z)
| P_move (v o : nat)
| P_convert (v o : nat) (size : Z)
| P_assign (v o : nat)
| P_assign_convert (v o : nat)
| P_destroy (v : nat)
| P_clear (v : nat)
| P_to_device (v : nat)
| P_to_host (v : nat)
| P_plain (k : op_kind) (v : nat) (peer tag : Z) (accept : bool)
| P_rref (k : op_kind) (v : nat) (peer tag : Z) (cb : nat) (accept : bool)
| P_lref (k : op_kind) (v : nat) (peer tag : Z) (cb : nat) (accept : bool)
| P_lref_const (v : nat) (peer tag : Z) (cb : nat) (accept : bool)
| P_complete (i : nat) (r t : Z) (keep : option nat)
| P_cancel (i : nat).

Section programs.
Variable hw_allocate : gmap positive alloc → Z → option positive.

Definition run_op (o : pop) : M fes unit :=
  match o with
  | P_default v size g => construct_default (inl v) size g
  | P_make v size n => make_buffer hw_allocate (inl v) size n
  | P_make_device v size n id => make_device_buffer hw_allocate (inl v) size n id
  | P_make_device_user v size n id => make_device_buffer_user hw_allocate (inl v) size n id
  | P_make_user v size ptr n => make_buffer_user (inl v) size ptr n
  | P_make_user2 v size ptr n id => make_device_buffer_user2 (inl v) size ptr n id
  | P_move v o => construct_move (inl v) (inl o)
  | P_convert v o size => construct_convert (inl v) (inl o) size
  | P_assign v o => assign_move (inl v) (inl o)
  | P_assign_convert v o => assign_convert (inl v) (inl o)
  | P_destroy v => destroy_buf (inl v)
  | P_clear v => clear (inl v)
  | P_to_device v => clone_to_device (inl v)
  | P_to_host v => clone_to_host (inl v)
  | P_plain Op_send v r t a => send v r t a
  | P_plain Op_recv v r t a => recv v r t a
  | P_plain Op_shared_recv v r t a => shared_recv v r t a
  | P_rref Op_send v r t c a => send_rref v r t c a
  | P_rref Op_recv v r t c a => recv_rref v r t c a
  | P_rref Op_shared_recv v r t c a => shared_recv_rref v r t c a
  | P_lref Op_send v r t c a => send_lref v r t c a
  | P_lref Op_recv v r t c a => recv_lref v r t c a
  | P_lref Op_shared_recv v r t c a => shared_recv_lref v r t c a
  | P_lref_const v r t c a => send_lref_const v r t c a
  | P_complete i r t keep => complete i r t keep
  | P_cancel i => cancel i
  end.
End programs.

(** The buffer an operation works on: the one in its closure, or a variable. *)
Definition owner (i : nat) (cb : fcb) : place :=
  match cb with
  | Cb_rref _ => inr i
  | Cb_none v | Cb_lref _ v | Cb_lref_const _ v => inl v
  end.

Definition unpinned (p : place) (s : fes) : Prop :=
  map_Forall (λ i o, owner i (o_cb o) ≠ p) (ops s).

Definition device_buffer (v : nat) (s : fes) : Prop :=
  is_Some (((bufs s !! inl v ≫= m_ptr) ≫= (λ a, allocs s !! a)) ≫= a_device).
#[export] Instance device_buffer_dec v s : Decision (device_buffer v s).
Proof. unfold device_buffer. apply _. Defined.

(** The contract of the interface: variables are constructed once and used while
    they exist, memory of the user is registered once at a time, a buffer is not
    assigned to itself, and a buffer that an operation in flight refers to is
    not moved from, assigned, cleared or destroyed.  Copies between host and
    device are for buffers of a device. *)
Definition admissible (o : pop) (s : fes) : bool :=
  let new v := bufs s !! inl v = None in
  let old v := is_Some (bufs s !! inl v) in
  let free v := unpinned (inl v) s in
  match o with
  | P_default v size _ | P_make v size _ | P_make_device v size _ _ | P_make_device_user v size _ _ =>
      bool_decide (new v ∧ 0 < size)
  | P_make_user v size ptr _ | P_make_user2 v size ptr _ _ =>
      bool_decide (new v ∧ 0 < size ∧ allocs s !! ptr = None)
  | P_move v o => bool_decide (new v ∧ old o ∧ free o)
  | P_convert v o size => bool_decide (new v ∧ old o ∧ free o ∧ 0 < size)
  | P_assign v o =>
      bool_decide (v ≠ o ∧ old v ∧ old o ∧ free v ∧ free o ∧ elem <$> bufs s !! inl v = elem <$> bufs s !! inl o)
  | P_assign_convert v o => bool_decide (v ≠ o ∧ old v ∧ old o ∧ free v ∧ free o)
  | P_destroy v | P_clear v => bool_decide (old v ∧ free v)
  | P_to_device v | P_to_host v => bool_decide (device_buffer v s)
  | P_plain _ v _ _ _ | P_lref _ v _ _ _ _ | P_lref_const v _ _ _ _ => bool_decide (old v)
  | P_rref _ v _ _ _ _ => bool_decide (old v ∧ free v)
  | P_complete i _ _ None | P_cancel i => bool_decide (is_Some (ops s !! i))
  | P_complete i _ _ (Some v) => bool_decide (is_Some (ops s !! i) ∧ new v)
  end.

(** A program that keeps the contract; it goes on after an exception. *)
Fixpoint run_ops (hw : gmap positive alloc → Z → option positive) (l : list pop) (s : fes) :
    option (outcome unit * fes) :=
  match l with
  | [] => Some (Ret tt, s)
  | o :: l =>
      if admissible o s then
        match run_op hw o s with (Halt h, s') => Some (Halt h, s') | (_, s') => run_ops hw l s' end
      else None
  end.

(** ** Invariant *)

(** A buffer that is set owns its memory, through its [heap_ptr_impl]. *)
Definition buf_ok (s : fes) (b : mbuf) : Prop :=
  0 < elem b ∧
  match m_ptr b with
  | Some a => ∃ h x, m_heap_ptr b = Some h ∧ impls s !! h = Some (Some a) ∧
                     allocs s !! a = Some x ∧ byte_size b ≤ a_bytes x
  | None => ∀ h, m_heap_ptr b = Some h → impls s !! h = Some None
  end.

(** An operation in flight: its memory is that of the buffer it refers to. *)
Definition op_ok (s : fes) (i : nat) (o : op) : Prop :=
  (i < next_op s)%nat ∧
  ∃ b, bufs s !! owner i (o_cb o) = Some b ∧ m_ptr b = Some (o_alloc o) ∧ o_bytes o = byte_size b.

(** [x]: a closure that is not, or not any more, in the hands of the backend. *)
Record fe_inv (x : option nat) (s : fes) : Prop := {
  fi_buf p b : bufs s !! p = Some b → buf_ok s b;
  fi_impl_unique p q b c h :
    bufs s !! p = Some b → bufs s !! q = Some c → m_heap_ptr b = Some h → m_heap_ptr c = Some h → p = q;
  fi_ptr_unique p q b c a :
    bufs s !! p = Some b → bufs s !! q = Some c → m_ptr b = Some a → m_ptr c = Some a → p = q;
  fi_impl_owned h : is_Some (impls s !! h) → ∃ p b, bufs s !! p = Some b ∧ m_heap_ptr b = Some h;
  fi_alloc_owned a :
    is_Some (allocs s !! a) → a ∈ detached s ∨ ∃ p b, bufs s !! p = Some b ∧ m_ptr b = Some a;
  fi_detached a : a ∈ detached s → is_Some (allocs s !! a) ∧ ∀ p b, bufs s !! p = Some b → m_ptr b ≠ Some a;
  fi_op i o : ops s !! i = Some o → op_ok s i o;
  fi_closure i b :
    bufs s !! inr i = Some b → x = Some i ∨ ∃ o, ops s !! i = Some o ∧ owner i (o_cb o) = inr i;
  fi_loose i : x = Some i → (i ≤ next_op s)%nat ∧ ops s !! i = None
}.

Lemma fe_init_inv : fe_inv None init_fes.
Proof. split; try (intros *; cbn; rewrite ?lookup_empty; naive_solver); intros a Ha; set_solver. Qed.

Definition empty_buf (n e : Z) : mbuf := Mbuf None None n e.

(** [p] holds no memory: there is no object, or an empty one. *)
Definition vacant (p : place) (s : fes) : Prop :=
  ∀ b, bufs s !! p = Some b → m_ptr b = None ∧ m_heap_ptr b = None.

Lemma buf_ok_empty s n e : 0 < e → buf_ok s (empty_buf n e).
Proof. by split. Qed.

Lemma owner_inr i j cb : owner i cb = inr j → i = j.
Proof. by destruct cb; intros [= ->]. Qed.

Section steps.
Implicit Types (s : fes) (p q : place).

(** A buffer an operation refers to is set. *)
Lemma vacant_unpinned x p s : fe_inv x s → vacant p s → unpinned p s.
Proof.
  intros HI Hv i o Ho Hp. destruct (fi_op _ _ HI _ _ Ho) as (_ & b & Hb & Hm & _).
  rewrite Hp in Hb. destruct (Hv b Hb). congruence.
Qed.

(** *** Constructing an empty buffer *)
Lemma put_empty_inv x p n e s :
  fe_inv x s → vacant p s → 0 < e → (∀ i, p = inr i → x = Some i ∨ is_Some (bufs s !! p)) →
  fe_inv x (set_bufs (<[p := empty_buf n e]> (bufs s)) s).
Proof.
  intros HI Hv He Hc. pose proof (vacant_unpinned _ _ _ HI Hv) as Hp.
  assert (∀ q b, <[p := empty_buf n e]> (bufs s) !! q = Some b →
    b = empty_buf n e ∧ q = p ∨ q ≠ p ∧ bufs s !! q = Some b) as Hl.
  { intros q b. rewrite lookup_insert. case_decide; naive_solver. }
  assert (∀ q b, bufs s !! q = Some b → m_ptr b ≠ None ∨ m_heap_ptr b ≠ None → q ≠ p) as Hq.
  { intros q b Hb Hn ->. destruct (Hv b Hb). naive_solver. }
  destruct HI as [H1 H2 H3 H4 H5 H6 H7 H8 H9]. split; cbn.
  - intros q b [[-> ->]|[_ Hb]]%Hl; [by apply buf_ok_empty|]. by apply H1 in Hb.
  - intros q q' b c h [[-> ->]|[_ Hb]]%Hl [[-> ->]|[_ Hb']]%Hl; try done. by eapply H2.
  - intros q q' b c h [[-> ->]|[_ Hb]]%Hl [[-> ->]|[_ Hb']]%Hl; try done. by eapply H3.
  - intros h (q & b & Hb & Hh)%H4. exists q, b. rewrite lookup_insert_ne; [done|].
    apply not_eq_sym, (Hq _ _ Hb). right. congruence.
  - intros a [?|(q & b & Hb & Ha)]%H5; [by left|]. right. exists q, b. rewrite lookup_insert_ne; [done|].
    apply not_eq_sym, (Hq _ _ Hb). left. congruence.
  - intros a [Ha Hn]%H6. split; [done|]. intros q b [[-> ->]|[_ Hb]]%Hl; [done|by eapply Hn].
  - intros i o Ho. destruct (H7 i o Ho) as (Hi & b & Hb & Hm). split; [done|]. exists b. cbn.
    rewrite lookup_insert_ne; [done|]. intros E. by apply (Hp i o Ho).
  - intros i b [[-> Ei]|[_ Hb]]%Hl; [|by eapply H8]. destruct (Hc i (eq_sym Ei)) as [?|[b Hb]]; [by left|].
    rewrite <- Ei in Hb. by eapply H8.
  - done.
Qed.

(** *** Dropping one *)
Lemma drop_empty_inv x p s :
  fe_inv x s → vacant p s → fe_inv x (set_bufs (delete p (bufs s)) s).
Proof.
  intros HI Hv. pose proof (vacant_unpinned _ _ _ HI Hv) as Hp.
  assert (∀ q b, bufs s !! q = Some b → m_ptr b ≠ None ∨ m_heap_ptr b ≠ None → p ≠ q) as Hq.
  { intros q b Hb Hn ->. destruct (Hv b Hb). naive_solver. }
  destruct HI as [H1 H2 H3 H4 H5 H6 H7 H8 H9]. split; cbn.
  - intros q b [_ Hb]%lookup_delete_Some. by apply H1 in Hb.
  - intros q q' b c h [_ Hb]%lookup_delete_Some [_ Hb']%lookup_delete_Some. by eapply H2.
  - intros q q' b c h [_ Hb]%lookup_delete_Some [_ Hb']%lookup_delete_Some. by eapply H3.
  - intros h (q & b & Hb & Hh)%H4. exists q, b. rewrite lookup_delete_ne; [done|].
    apply (Hq _ _ Hb). right. congruence.
  - intros a [?|(q & b & Hb & Ha)]%H5; [by left|]. right. exists q, b. rewrite lookup_delete_ne; [done|].
    apply (Hq _ _ Hb). left. congruence.
  - intros a [Ha Hn]%H6. split; [done|]. intros q b [_ Hb]%lookup_delete_Some. by eapply Hn.
  - intros i o Ho. destruct (H7 i o Ho) as (Hi & b & Hb & Hm). split; [done|]. exists b. cbn.
    rewrite lookup_delete_ne; [done|]. intros E. by apply (Hp i o Ho).
  - intros i b [_ Hb]%lookup_delete_Some. by eapply H8.
  - done.
Qed.

(** *** Releasing what a buffer owns *)

Definition delete_opt {A} (o : option positive) (m : gmap positive A) : gmap positive A :=
  match o with Some k => delete k m | None => m end.

Lemma lookup_delete_opt {A} o (m : gmap positive A) k :
  o ≠ Some k → delete_opt o m !! k = m !! k.
Proof. destruct o as [j|]; [|done]. intros Hne. cbn. rewrite lookup_delete_ne; congruence. Qed.
Lemma delete_opt_is_Some {A} o (m : gmap positive A) k :
  is_Some (delete_opt o m !! k) → o ≠ Some k ∧ is_Some (m !! k).
Proof. destruct o as [j|]; [|done]. cbn. intros [? ?]%lookup_delete_is_Some. split; [congruence|done]. Qed.

(** The memory and the [heap_ptr_impl] of [b], at [p], are gone. *)
Definition emptied (p : place) (b : mbuf) (s : fes) : fes :=
  Fes (delete_opt (m_ptr b) (allocs s)) (delete_opt (m_heap_ptr b) (impls s))
      (<[p := empty_buf (m_size b) (elem b)]> (bufs s)) (ops s) (next_op s) (calls s) (detached s).

Lemma emptied_other x p b s q c :
  fe_inv x s → bufs s !! p = Some b → bufs (emptied p b s) !! q = Some c →
  c = empty_buf (m_size b) (elem b) ∧ q = p ∨
  q ≠ p ∧ bufs s !! q = Some c ∧
  (∀ a, m_ptr c = Some a → m_ptr b ≠ Some a) ∧ (∀ h, m_heap_ptr c = Some h → m_heap_ptr b ≠ Some h).
Proof.
  intros HI Hb. cbn. rewrite lookup_insert. case_decide as E; [naive_solver|]. intros Hc. right.
  split_and!; [done..| |]; intros k H1 H2; apply E; [eapply fi_ptr_unique|eapply fi_impl_unique]; done.
Qed.

Lemma emptied_inv x p b s :
  fe_inv x s → bufs s !! p = Some b → unpinned p s → fe_inv x (emptied p b s).
Proof.
  intros HI Hb Hp. pose proof (λ q c, emptied_other x p b s q c HI Hb) as Hl.
  destruct HI as [H1 H2 H3 H4 H5 H6 H7 H8 H9].
  assert (∀ q c, bufs s !! q = Some c → q ≠ p → bufs (emptied p b s) !! q = Some c) as Hne.
  { intros q c Hc E. cbn. by rewrite lookup_insert_ne. }
  split.
  - intros q c [[-> ->]|(_ & Hc & Ha & Hh)]%Hl; [apply buf_ok_empty, (H1 _ _ Hb)|].
    destruct (H1 _ _ Hc) as [He Hok]. split; [done|]. destruct (m_ptr c) as [a|]; cbn.
    + destruct Hok as (h & y & E1 & E2 & E3 & E4). exists h, y.
      rewrite !lookup_delete_opt; [done|by apply Ha|by apply Hh].
    + intros h E. rewrite lookup_delete_opt; [by apply Hok|by apply Hh].
  - intros q q' c c' h [[-> ->]|(_ & Hc & _)]%Hl [[-> ->]|(_ & Hc' & _)]%Hl; try done. by eapply H2.
  - intros q q' c c' h [[-> ->]|(_ & Hc & _)]%Hl [[-> ->]|(_ & Hc' & _)]%Hl; try done. by eapply H3.
  - intros h [Hn (q & c & Hc & Hh)%H4]%delete_opt_is_Some. exists q, c. split; [|done].
    apply Hne; [done|]. intros ->. congruence.
  - intros a [Hn [?|(q & c & Hc & Ha)]%H5]%delete_opt_is_Some; [by left|]. right.
    exists q, c. split; [|done]. apply Hne; [done|]. intros ->. congruence.
  - intros a [Ha Hn]%H6. split.
    + cbn. rewrite lookup_delete_opt; [done|]. by apply (Hn p).
    + intros q c [[-> ->]|(_ & Hc & _)]%Hl; [done|by eapply Hn].
  - intros i o Ho. destruct (H7 i o Ho) as (Hi & c & Hc & Hm). split; [done|]. exists c. split; [|done].
    apply Hne; [done|]. by apply (Hp i o).
  - intros i c [[-> Ei]|(_ & Hc & _)]%Hl; [|by eapply H8]. rewrite <- Ei in Hb. by eapply H8.
  - done.
Qed.

Lemma emptied_vacant p b s : vacant p (emptied p b s).
Proof. intros c. cbn. rewrite lookup_insert_eq. by intros [= <-]. Qed.

(** *** Moving *)

(** What [q] owned is owned by [p], with another size and element size. *)
Definition moved (p q : place) (b : mbuf) (n e : Z) (s : fes) : fes :=
  set_bufs (<[p := Mbuf (m_ptr b) (m_heap_ptr b) n e]> (<[q := empty_buf (m_size b) (elem b)]> (bufs s))) s.

Lemma moved_lookup p q b n e s r :
  p ≠ q → bufs (moved p q b n e s) !! r =
  if decide (r = p) then Some (Mbuf (m_ptr b) (m_heap_ptr b) n e)
  else if decide (r = q) then Some (empty_buf (m_size b) (elem b)) else bufs s !! r.
Proof. intros Hne. cbn. rewrite !lookup_insert. repeat case_decide; congruence. Qed.

(** Where the buffers of the state before the move have gone. *)
Lemma moved_to p q b n e s r c :
  p ≠ q → vacant p s → bufs s !! q = Some b → bufs s !! r = Some c →
  m_ptr c ≠ None ∨ m_heap_ptr c ≠ None →
  ∃ r' c', bufs (moved p q b n e s) !! r' = Some c' ∧ m_ptr c' = m_ptr c ∧ m_heap_ptr c' = m_heap_ptr c.
Proof.
  intros Hne Hv Hq Hr Hc. destruct (decide (r = q)) as [->|E].
  - exists p. eexists. rewrite moved_lookup, decide_True by done. split; [done|]. cbn. by simplify_eq.
  - exists r, c. rewrite moved_lookup, decide_False, decide_False; try done.
    intros ->. destruct (Hv c Hr). naive_solver.
Qed.

Lemma moved_inv x p q b n e s :
  fe_inv x s → p ≠ q → vacant p s → bufs s !! q = Some b → unpinned q s → 0 < e →
  u64 (n * e) ≤ byte_size b → (∀ i, p = inr i → x = Some i ∨ is_Some (bufs s !! p)) →
  fe_inv x (moved p q b n e s).
Proof.
  intros HI Hne Hv Hq Hu He Hn Hcl. pose proof (vacant_unpinned _ _ _ HI Hv) as Hp.
  assert (∀ r c, bufs (moved p q b n e s) !! r = Some c →
    (r = p ∧ c = Mbuf (m_ptr b) (m_heap_ptr b) n e) ∨ (r = q ∧ c = empty_buf (m_size b) (elem b)) ∨
    (r ≠ q ∧ bufs s !! r = Some c)) as Hl.
  { intros r c. rewrite moved_lookup by done. repeat case_decide; naive_solver. }
  assert (∀ r c, bufs s !! r = Some c → _) as Hto by (intros r c Hc; exact (moved_to p q b n e s r c Hne Hv Hq Hc)).
  destruct HI as [H1 H2 H3 H4 H5 H6 H7 H8 H9]. split.
  - intros r c [[-> ->]|[[-> ->]|[_ Hc]]]%Hl; [|apply buf_ok_empty, (H1 _ _ Hq)|by apply H1 in Hc].
    destruct (H1 _ _ Hq) as [_ Hok]. split; [done|]. cbn. destruct (m_ptr b) as [a|]; [|done].
    destruct Hok as (h & y & E1 & E2 & E3 & E4). exists h, y. split_and!; try done. unfold byte_size at 1. cbn. lia.
  - intros r r' c c' h [[-> ->]|[[-> ->]|[? Hc]]]%Hl [[-> ->]|[[-> ->]|[? Hc']]]%Hl; cbn; try done; intros E E';
      [exfalso; eauto..|by eapply H2].
  - intros r r' c c' h [[-> ->]|[[-> ->]|[? Hc]]]%Hl [[-> ->]|[[-> ->]|[? Hc']]]%Hl; cbn; try done; intros E E';
      [exfalso; eauto..|by eapply H3].
  - intros h (r & c & Hc & Hh)%H4. destruct (Hto r c Hc) as (r' & c' & Hc' & _ & E); [right; congruence|].
    exists r', c'. by rewrite E.
  - intros a [?|(r & c & Hc & Ha)]%H5; [by left|]. right.
    destruct (Hto r c Hc) as (r' & c' & Hc' & E & _); [left; congruence|]. exists r', c'. by rewrite E.
  - intros a [Ha Hd]%H6. split; [done|].
    intros r c [[-> ->]|[[-> ->]|[? Hc]]]%Hl; cbn; [by apply (Hd q)|done|by apply (Hd r)].
  - intros i o Ho. destruct (H7 i o Ho) as (Hi & c & Hc & Hm). split; [done|]. exists c. split; [|done].
    rewrite moved_lookup, decide_False, decide_False; try done; [by apply (Hu i)|by apply (Hp i)].
  - intros i c [[Ei ->]|[[Ei ->]|[? Hc]]]%Hl; [| |by eapply H8].
    + destruct (Hcl i (eq_sym Ei)) as [?|[c Hc]]; [by left|]. rewrite <- Ei in Hc. by eapply H8.
    + rewrite <- Ei in Hq. by eapply H8.
  - done.
Qed.

(** *** New memory *)

Definition made (p : place) (a h : positive) (y : alloc) (n e : Z) (s : fes) : fes :=
  Fes (<[a := y]> (allocs s)) (<[h := Some a]> (impls s)) (<[p := Mbuf (Some a) (Some h) n e]> (bufs s))
      (ops s) (next_op s) (calls s) (detached s).

(** No buffer refers to an address or an object that is not there. *)
Lemma buf_not_fresh x s q c :
  fe_inv x s → bufs s !! q = Some c →
  (∀ a, allocs s !! a = None → m_ptr c ≠ Some a) ∧ (∀ h, impls s !! h = None → m_heap_ptr c ≠ Some h).
Proof.
  intros HI Hc. destruct (fi_buf _ _ HI _ _ Hc) as [_ Hok]. split; intros k Hk E.
  - rewrite E in Hok. destruct Hok as (? & ? & ? & ? & ? & ?). congruence.
  - destruct (m_ptr c) as [a|].
    + destruct Hok as (? & ? & ? & ? & ? & ?). congruence.
    + by rewrite (Hok _ E) in Hk.
Qed.

Lemma made_inv x v a h y n e s :
  fe_inv x s → bufs s !! inl v = None → allocs s !! a = None → impls s !! h = None →
  0 < e → u64 (n * e) ≤ a_bytes y → fe_inv x (made (inl v) a h y n e s).
Proof.
  intros HI Hv Ha Hh He Hy.
  assert (∀ q c, bufs (made (inl v) a h y n e s) !! q = Some c →
    (q = inl v ∧ c = Mbuf (Some a) (Some h) n e) ∨
    (q ≠ inl v ∧ bufs s !! q = Some c ∧ m_ptr c ≠ Some a ∧ m_heap_ptr c ≠ Some h)) as Hl.
  { intros q c. cbn. rewrite lookup_insert. case_decide; [naive_solver|]. intros Hc. right.
    destruct (buf_not_fresh _ _ _ _ HI Hc). split_and!; auto. }
  assert (∀ q c, bufs s !! q = Some c → bufs (made (inl v) a h y n e s) !! q = Some c) as Hk.
  { intros q c Hc. cbn. rewrite lookup_insert_ne; [done|]. intros <-. discriminate (eq_trans (eq_sym Hv) Hc). }
  destruct HI as [H1 H2 H3 H4 H5 H6 H7 H8 H9]. split.
  - intros q c [[-> ->]|(_ & Hc & Na & Nh)]%Hl.
    + split; [done|]. cbn. exists h, y. by rewrite !lookup_insert_eq.
    + destruct (H1 _ _ Hc) as [He' Hok]. split; [done|]. cbn. destruct (m_ptr c) as [a'|].
      * destruct Hok as (h' & y' & E1 & E2 & E3 & E4). exists h', y'. rewrite !lookup_insert_ne by congruence. done.
      * intros h' E. rewrite lookup_insert_ne by congruence. by apply Hok.
  - intros q q' c c' k [[-> ->]|(_ & Hc & _ & Nh)]%Hl [[-> ->]|(_ & Hc' & _ & Nh')]%Hl; cbn; try congruence. by eapply H2.
  - intros q q' c c' k [[-> ->]|(_ & Hc & Nh & _)]%Hl [[-> ->]|(_ & Hc' & Nh' & _)]%Hl; cbn; try congruence. by eapply H3.
  - intros k. cbn. rewrite lookup_insert. case_decide as E.
    + subst. intros _. exists (inl v). eexists. rewrite lookup_insert_eq. by split.
    + intros (q & c & Hc & Hk')%H4. exists q, c. split; [by apply Hk|done].
  - intros k. cbn -[bufs]. rewrite lookup_insert. case_decide as E.
    + subst. intros _. right. exists (inl v). eexists. cbn. rewrite lookup_insert_eq. by split.
    + intros [?|(q & c & Hc & Hk')]%H5; [by left|]. right. exists q, c. split; [by apply Hk|done].
  - intros k [Hk' Hd]%H6. split; [cbn; rewrite lookup_insert; case_decide; [done|assumption]|].
    intros q c [[-> ->]|(_ & Hc & _)]%Hl; [|by eapply Hd]. cbn. intros [= ->]. by destruct Hk' as [? ?]; simplify_eq.
  - intros i o Ho. destruct (H7 i o Ho) as (Hi & c & Hc & Hm). split; [done|]. exists c. split; [by apply Hk|done].
  - intros i c [[? ->]|(_ & Hc & _)]%Hl; [done|by eapply H8].
  - done.
Qed.

(** *** Letting go of memory *)

Definition cleared (p : place) (b : mbuf) (h : positive) (s : fes) : fes :=
  Fes (allocs s) (delete_opt (m_heap_ptr b) (<[h := None]> (impls s)))
      (<[p := Mbuf None (Some h) (m_size b) (elem b)]> (bufs s)) (ops s) (next_op s) (calls s)
      (match m_ptr b with Some a => {[a]} ∪ detached s | None => detached s end).

Lemma cleared_detached p b h s a : a ∈ detached (cleared p b h s) ↔ m_ptr b = Some a ∨ a ∈ detached s.
Proof. cbn. destruct (m_ptr b); set_solver. Qed.

Lemma cleared_inv x p b h s :
  fe_inv x s → bufs s !! p = Some b → unpinned p s → impls s !! h = None → fe_inv x (cleared p b h s).
Proof.
  intros HI Hb Hp Hh. pose proof (proj2 (buf_not_fresh _ _ _ _ HI Hb) h Hh) as Hbh.
  assert (∀ q c, bufs (cleared p b h s) !! q = Some c →
    (q = p ∧ c = Mbuf None (Some h) (m_size b) (elem b)) ∨
    (q ≠ p ∧ bufs s !! q = Some c ∧ m_heap_ptr c ≠ Some h ∧
     (∀ a, m_ptr c = Some a → m_ptr b ≠ Some a) ∧ (∀ k, m_heap_ptr c = Some k → m_heap_ptr b ≠ Some k))) as Hl.
  { intros q c. cbn. rewrite lookup_insert. case_decide as E; [naive_solver|]. intros Hc. right.
    split_and!; [done..|by apply (buf_not_fresh _ _ _ _ HI Hc)| |]; intros k E1 E2; apply E;
      [eapply fi_ptr_unique|eapply fi_impl_unique]; done. }
  assert (∀ q c, bufs s !! q = Some c → q ≠ p → bufs (cleared p b h s) !! q = Some c) as Hk.
  { intros q c Hc E. cbn. by rewrite lookup_insert_ne. }
  destruct HI as [H1 H2 H3 H4 H5 H6 H7 H8 H9]. split.
  - intros q c [[-> ->]|(_ & Hc & Nh & Na & Nk)]%Hl.
    + split; [apply (H1 _ _ Hb)|]. cbn. intros k [= <-]. by rewrite lookup_delete_opt, lookup_insert_eq.
    + destruct (H1 _ _ Hc) as [He Hok]. split; [done|]. cbn. destruct (m_ptr c) as [a|].
      * destruct Hok as (k & y & E1 & E2 & E3 & E4). exists k, y.
        rewrite lookup_delete_opt by by apply Nk. rewrite lookup_insert_ne by congruence. done.
      * intros k E. rewrite lookup_delete_opt by by apply Nk. rewrite lookup_insert_ne by congruence. by apply Hok.
  - intros q q' c c' k [[-> ->]|(_ & Hc & Nh & _)]%Hl [[-> ->]|(_ & Hc' & Nh' & _)]%Hl; cbn; try congruence. by eapply H2.
  - intros q q' c c' k [[-> ->]|(_ & Hc & _)]%Hl [[-> ->]|(_ & Hc' & _)]%Hl; cbn; try done. by eapply H3.
  - intros k [Nk Hk']%delete_opt_is_Some. rewrite lookup_insert in Hk'. case_decide as E.
    + subst. exists p. eexists. cbn. rewrite lookup_insert_eq. by split.
    + apply H4 in Hk' as (q & c & Hc & E'). exists q, c. split; [|done]. apply Hk; [done|]. intros ->. congruence.
  - intros a Ha. rewrite cleared_detached. apply H5 in Ha as [?|(q & c & Hc & E')]; [by left; right|].
    destruct (decide (q = p)) as [->|E]; [left; left; congruence|]. right. exists q, c. split; [by apply Hk|done].
  - intros a [Ha|Ha]%cleared_detached.
    + split; [destruct (H1 _ _ Hb) as [_ Hok]; rewrite Ha in Hok; destruct Hok as (? & y & _ & _ & E & _); by exists y|].
      intros q c [[-> ->]|(_ & Hc & _ & Na & _)]%Hl; [done|]. intros E. by apply (Na a).
    + apply H6 in Ha as [Ha Hd]. split; [done|]. intros q c [[-> ->]|(_ & Hc & _)]%Hl; [done|by eapply Hd].
  - intros i o Ho. destruct (H7 i o Ho) as (Hi & c & Hc & Hm). split; [done|]. exists c. split; [|done].
    apply Hk; [done|]. by apply (Hp i).
  - intros i c [[Ei ->]|(_ & Hc & _)]%Hl; [|by eapply H8]. rewrite <- Ei in Hb. by eapply H8.
  - done.
Qed.

(** *** Operations *)

Lemma submitted_inv x k a n peer tag cb b s :
  fe_inv x s → bufs s !! owner (next_op s) cb = Some b → m_ptr b = Some a → n = byte_size b →
  (x = None ∨ x = Some (next_op s) ∧ owner (next_op s) cb = inr (next_op s)) →
  fe_inv None (set_next (S (next_op s)) (set_ops (<[next_op s := Op k a n peer tag cb]> (ops s)) s)).
Proof.
  intros [H1 H2 H3 H4 H5 H6 H7 H8 H9] Hb Ha -> Hx. split; try done.
  - intros i o. cbn. rewrite lookup_insert. case_decide as E.
    + subst. intros [= <-]. split; [cbn; lia|]. by exists b.
    + intros Ho. destruct (H7 i o Ho) as (Hi & Hc). split; [cbn; lia|done].
  - intros i c Hc. right. cbn. rewrite lookup_insert. case_decide as E.
    + subst. eexists. split; [done|]. cbn. destruct Hx as [Hx|[_ Hx]]; [|done].
      destruct (H8 _ _ Hc) as [?|(o & Ho & _)]; [congruence|]. destruct (H7 _ _ Ho). lia.
    + destruct (H8 _ _ Hc) as [Hi|?]; [|done]. destruct Hx as [Hx|[Hx _]]; congruence.
Qed.

(** The closure of an operation that is over, if it holds the buffer. *)
Definition loose_of (i : nat) (cb : fcb) : option nat :=
  match cb with Cb_rref _ => Some i | _ => None end.

Lemma taken_inv i o s :
  fe_inv None s → ops s !! i = Some o → fe_inv (loose_of i (o_cb o)) (set_ops (delete i (ops s)) s).
Proof.
  intros [H1 H2 H3 H4 H5 H6 H7 H8 H9] Ho. split; try done.
  - intros j o'. cbn. intros [_ Hj]%lookup_delete_Some. by apply H7.
  - intros j b Hb. destruct (H8 _ _ Hb) as [?|(o' & Ho' & Hj)]; [done|]. cbn.
    destruct (decide (i = j)) as [->|E].
    + left. simplify_eq. by destruct (o_cb o).
    + right. exists o'. by rewrite lookup_delete_ne.
  - intros j. destruct (o_cb o); intros [= ->]. split; [|apply lookup_delete_eq].
    destruct (H7 _ _ Ho). cbn. lia.
Qed.

(** *** Contents *)

Lemma contents_inv x a y y' s :
  fe_inv x s → allocs s !! a = Some y → a_bytes y' = a_bytes y →
  fe_inv x (set_allocs (<[a := y']> (allocs s)) s).
Proof.
  intros [H1 H2 H3 H4 H5 H6 H7 H8 H9] Ha Hy.
  assert (∀ k, is_Some (<[a := y']> (allocs s) !! k) ↔ is_Some (allocs s !! k)) as Hd.
  { intros k. rewrite lookup_insert. case_decide; [subst; rewrite Ha; split; intros; by eexists|done]. }
  split; try done; cbn.
  - intros p b Hb. destruct (H1 _ _ Hb) as [He Hok]. split; [done|]. cbn. destruct (m_ptr b) as [k|]; [|done].
    destruct Hok as (h & z & E1 & E2 & E3 & E4). exists h. rewrite lookup_insert. case_decide as E.
    + exists y'. subst. split_and!; try done. rewrite Hy. congruence.
    + by exists z.
  - intros k. rewrite Hd. apply H5.
  - intros k. rewrite Hd. apply H6.
Qed.
End steps.
