(* ===== verification/MsgBufferApi.v ===== *)
(** * What message buffers guarantee

    Every operation on buffers keeps the invariant of MsgBufferInv.v; from it
    follow the properties of a program that keeps the contract: memory in flight is
    live, every piece of memory is owned once and released once, a callback gets the
    buffer its operation was given. *)
From S2P Require Import Prelude MsgBuffer MsgBufferInv.
Local Open Scope Z_scope.

(** ** Runs of the members *)

Section runs.
Implicit Types (s : fes) (p q : place).

Lemma read_buf_run p b s : bufs s !! p = Some b → read_buf p s = (Ret b, s).
Proof. unfold read_buf. by intros ->. Qed.

(** The memory of a buffer is released, if it has any. *)
Lemma release_buf_run x p b s :
  fe_inv x s → bufs s !! p = Some b →
  release_buf b s = (Ret tt, set_allocs (delete_opt (m_ptr b) (allocs s)) s).
Proof.
  intros HI Hb. destruct (fi_buf _ _ HI _ _ Hb) as [_ Hok]. unfold release_buf, is_set.
  destruct (m_ptr b) as [a|]; [|by destruct s].
  destruct Hok as (h & y & E1 & E2 & E3 & _). rewrite bool_decide_eq_true_2 by by eexists.
  unfold release_impl, impl_m, bnd. by rewrite E1, E2, E3.
Qed.

Lemma delete_impl_run h s :
  (∀ k, h = Some k → is_Some (impls s !! k)) →
  delete_impl h s = (Ret tt, set_impls (delete_opt h (impls s)) s).
Proof.
  intros Hh. destruct h as [k|]; [|by destruct s]. cbn. by destruct (Hh k eq_refl) as [? ->].
Qed.

Lemma impl_live x p b s k :
  fe_inv x s → bufs s !! p = Some b → m_heap_ptr b = Some k → is_Some (impls s !! k).
Proof.
  intros HI Hb Hk. destruct (impls s !! k) eqn:E; [by eexists|].
  destruct (buf_not_fresh _ _ _ _ HI Hb) as [_ Hn]. by destruct (Hn k E).
Qed.

Lemma destroy_buf_run x p b s :
  fe_inv x s → bufs s !! p = Some b →
  destroy_buf p s = (Ret tt, set_bufs (delete p (bufs (emptied p b s))) (emptied p b s)).
Proof.
  intros HI Hb. unfold destroy_buf. rewrite (bnd_ret _ _ _ _ _ (read_buf_run _ _ _ Hb)).
  rewrite (bnd_ret _ _ _ _ _ (release_buf_run _ _ _ _ HI Hb)).
  erewrite bnd_ret; [|apply delete_impl_run; intros k Hk; exact (impl_live _ _ _ _ _ HI Hb Hk)].
  unfold modify, emptied, set_bufs, set_impls, set_allocs. cbn. by rewrite delete_insert_eq.
Qed.

(** Destroying a buffer, and the closure that holds it. *)
Lemma destroy_buf_inv x p b s :
  fe_inv x s → bufs s !! p = Some b → unpinned p s →
  ∃ s', destroy_buf p s = (Ret tt, s') ∧ bufs s' !! p = None ∧ fe_inv x s'.
Proof.
  intros HI Hb Hp. rewrite (destroy_buf_run x p b s HI Hb). eexists. split; [done|].
  split; [apply lookup_delete_eq|]. apply drop_empty_inv, emptied_vacant. by apply emptied_inv.
Qed.

Lemma forget_closure x i s : fe_inv x s → bufs s !! inr i = None → x = Some i → fe_inv None s.
Proof.
  intros [H1 H2 H3 H4 H5 H6 H7 H8 H9] Hi ->. split; try done.
  intros j b Hb. destruct (H8 _ _ Hb) as [[= ->]|?]; [|by right]. congruence.
Qed.

Lemma drop_closure i b s :
  fe_inv (Some i) s → bufs s !! inr i = Some b →
  ∃ s', destroy_buf (inr i) s = (Ret tt, s') ∧ fe_inv None s'.
Proof.
  intros HI Hb. destruct (destroy_buf_inv _ _ _ _ HI Hb) as (s' & E & Hn & HI').
  - intros j o Ho <-%owner_inr. destruct (fi_loose _ _ HI j eq_refl). congruence.
  - exists s'. split; [done|]. by eapply forget_closure.
Qed.

Lemma move_construct_run p q b n e s :
  bufs s !! q = Some b → move_construct p q n e s = (Ret tt, moved p q b n e s).
Proof. intros Hb. unfold move_construct. by rewrite (bnd_ret _ _ _ _ _ (read_buf_run _ _ _ Hb)). Qed.

Lemma byte_size_u64 b : u64 (m_size b * elem b) = byte_size b.
Proof. done. Qed.

(** The size of a converted buffer fits into the bytes of the old one. *)
Lemma convert_size_fits b e : 0 < e → u64 (convert_size b e * e) ≤ byte_size b.
Proof.
  intros He. unfold convert_size. pose proof (u64_range (m_size b * elem b)) as Hr.
  change (u64 (m_size b * elem b)) with (byte_size b) in Hr.
  pose proof (Z.mul_div_le (byte_size b) e He). pose proof (Z.div_pos (byte_size b) e (proj1 Hr) He).
  rewrite u64_small; nia.
Qed.

(** [operator=] of [detail::message_buffer], before the size is written: the old
    memory is released, the new one moved. *)
Lemma assign_core_run x p q b c s :
  fe_inv x s → p ≠ q → bufs s !! p = Some b → bufs s !! q = Some c →
  assign_core p q s = (Ret tt, moved p q c (m_size b) (elem b) (emptied p b s)).
Proof.
  intros HI Hne Hp Hq. unfold assign_core. rewrite (bnd_ret _ _ _ _ _ (read_buf_run _ _ _ Hp)).
  rewrite (bnd_ret _ _ _ _ _ (release_buf_run _ _ _ _ HI Hp)).
  erewrite bnd_ret by by apply read_buf_run. unfold write_buf at 1. erewrite bnd_ret by done.
  erewrite bnd_ret by (apply read_buf_run; cbn; rewrite lookup_insert_ne by done; exact Hp).
  unfold write_buf at 1. erewrite bnd_ret by done. unfold pimpl_assign.
  erewrite bnd_ret by (apply read_buf_run; cbn; rewrite lookup_insert_ne, lookup_insert_eq by done; done).
  unfold write_buf at 1. erewrite bnd_ret by done.
  erewrite bnd_ret by (apply read_buf_run; cbn; rewrite lookup_insert_ne, lookup_insert_eq by done; done).
  unfold write_buf. erewrite bnd_ret by done. cbn [m_ptr m_heap_ptr m_size elem].
  rewrite delete_impl_run by (cbn; intros k Hk; exact (impl_live _ _ _ _ _ HI Hp Hk)).
  unfold moved, emptied, set_bufs, set_impls, set_allocs, empty_buf. cbn. do 2 f_equal.
  apply map_eq. intros r. rewrite !lookup_insert. repeat case_decide; congruence.
Qed.

Lemma write_size_run p b n s :
  bufs s !! p = Some b →
  write_size p n s = (Ret tt, set_bufs (<[p := Mbuf (m_ptr b) (m_heap_ptr b) n (elem b)]> (bufs s)) s).
Proof. intros Hb. unfold write_size. by rewrite (bnd_ret _ _ _ _ _ (read_buf_run _ _ _ Hb)). Qed.

Lemma moved_write_size p q b n n' e s :
  p ≠ q → write_size p n' (moved p q b n e s) = (Ret tt, moved p q b n' e s).
Proof.
  intros Hne. erewrite write_size_run by (rewrite moved_lookup, decide_True by done; done).
  unfold moved, set_bufs. cbn. by rewrite insert_insert_eq.
Qed.

Lemma assign_inv x p q b c n s :
  fe_inv x s → p ≠ q → bufs s !! p = Some b → bufs s !! q = Some c → unpinned p s → unpinned q s →
  u64 (n * elem b) ≤ byte_size c → fe_inv x (moved p q c n (elem b) (emptied p b s)).
Proof.
  intros HI Hne Hp Hq Hup Huq Hn. apply moved_inv; try done.
  - by apply emptied_inv.
  - apply emptied_vacant.
  - cbn. by rewrite lookup_insert_ne.
  - apply (fi_buf _ _ HI _ _ Hp).
  - intros i ->. right. cbn. rewrite lookup_insert_eq. by eexists.
Qed.

Lemma assign_move_run x p q b c s :
  fe_inv x s → p ≠ q → bufs s !! p = Some b → bufs s !! q = Some c →
  assign_move p q s = (Ret tt, moved p q c (m_size c) (elem b) (emptied p b s)).
Proof.
  intros HI Hne Hp Hq. unfold assign_move. rewrite (bnd_ret _ _ _ _ _ (assign_core_run _ _ _ _ _ _ HI Hne Hp Hq)).
  erewrite bnd_ret by (apply read_buf_run; rewrite moved_lookup, decide_False, decide_True by done; done).
  by rewrite moved_write_size.
Qed.

Lemma assign_convert_run x p q b c s :
  fe_inv x s → p ≠ q → bufs s !! p = Some b → bufs s !! q = Some c →
  assign_convert p q s = (Ret tt, moved p q c (convert_size c (elem b)) (elem b) (emptied p b s)).
Proof.
  intros HI Hne Hp Hq. unfold assign_convert.
  rewrite (bnd_ret _ _ _ _ _ (assign_core_run _ _ _ _ _ _ HI Hne Hp Hq)).
  erewrite bnd_ret by (apply read_buf_run; rewrite moved_lookup, decide_True by done; done).
  erewrite bnd_ret by (apply read_buf_run; rewrite moved_lookup, decide_False, decide_True by done; done).
  by rewrite moved_write_size.
Qed.

Lemma clear_run x p b s :
  fe_inv x s → bufs s !! p = Some b →
  clear p s = (Ret tt, cleared p b (fresh (dom (impls s))) s).
Proof.
  intros HI Hb. unfold clear. rewrite (bnd_ret _ _ _ _ _ (read_buf_run _ _ _ Hb)).
  unfold write_buf at 1. erewrite bnd_ret by done. erewrite bnd_ret by done.
  unfold write_buf. erewrite bnd_ret by done.
  erewrite bnd_ret; [|apply delete_impl_run; cbn; intros k Hk].
  - unfold modify, cleared, set_bufs, set_impls, set_detached. cbn. by rewrite insert_insert_eq.
  - rewrite lookup_insert. case_decide; [by eexists|]. exact (impl_live _ _ _ _ _ HI Hb Hk).
Qed.
End runs.

(** ** Every operation keeps the invariant *)

(** Operations do not reach undefined behaviour; a failed assertion is the only way
    to stop. *)
Definition benign (r : outcome unit) : Prop := ∀ h, r = Halt h → h = assert_failed.
Definition steps_ok (m : M fes unit) (s : fes) : Prop :=
  ∃ r s', m s = (r, s') ∧ benign r ∧ fe_inv None s'.

Lemma steps_ret (m : M fes unit) s s' : m s = (Ret tt, s') → fe_inv None s' → steps_ok m s.
Proof. intros E HI. by exists (Ret tt), s'. Qed.

Lemma benign_throw e : benign (Throw e).
Proof. by intros h. Qed.

Section ops.
Implicit Types (s : fes) (p q : place).

Lemma construct_ptr_inv v a y n e s :
  fe_inv None s → bufs s !! inl v = None → allocs s !! a = None → 0 < e → u64 (n * e) ≤ a_bytes y →
  ∃ s', construct_ptr (inl v) a n e (set_allocs (<[a := y]> (allocs s)) s) = (Ret tt, s') ∧ fe_inv None s'.
Proof.
  intros HI Hv Ha He Hn. eexists. split; [done|].
  exact (made_inv None v a (fresh (dom (impls s))) y n e s HI Hv Ha
           (proj1 (not_elem_of_dom _ _) (is_fresh _)) He Hn).
Qed.

Lemma make_buffer_ok (hw : gmap positive alloc → Z → option positive) v e n udev dev s :
  (∀ A z a, hw A z = Some a → A !! a = None) →
  fe_inv None s → bufs s !! inl v = None → 0 < e →
  steps_ok (let! a := heap_allocate hw (u64 (n * e)) udev dev in construct_ptr (inl v) a n e) s.
Proof.
  intros Hhw HI Hv He. unfold steps_ok, bnd, heap_allocate.
  destruct (hw (allocs s) (u64 (n * e))) as [a|] eqn:E.
  - destruct (construct_ptr_inv v a (Alloc (u64 (n * e)) false udev dev (λ _, 0) (λ _, 0)) n e s) as (s' & E' & HI');
      [done|done|by eapply Hhw|done|cbn; lia|]. by exists (Ret tt), s'.
  - exists (Throw bad_alloc), s. split_and!; [done|apply benign_throw|done].
Qed.

Lemma make_user_ok v ptr e n udev dev s :
  fe_inv None s → bufs s !! inl v = None → 0 < e → allocs s !! ptr = None →
  steps_ok (let! a := register_user ptr (u64 (n * e)) udev dev in construct_ptr (inl v) a n e) s.
Proof.
  intros HI Hv He Ha.
  destruct (construct_ptr_inv v ptr (Alloc (u64 (n * e)) true udev dev (λ _, 0) (λ _, 0)) n e s) as (s' & E' & HI');
    [done|done|done|done|cbn; lia|]. eapply steps_ret; [exact E'|done].
Qed.

Lemma not_inr_var (v : nat) s i : @inl nat nat v = inr i → None = Some i ∨ is_Some (bufs s !! inl v).
Proof. done. Qed.

Lemma move_buf_ok x p q b n e s :
  fe_inv x s → p ≠ q → vacant p s → bufs s !! q = Some b → unpinned q s → 0 < e → u64 (n * e) ≤ byte_size b →
  (∀ i, p = inr i → x = Some i ∨ is_Some (bufs s !! p)) →
  move_construct p q n e s = (Ret tt, moved p q b n e s) ∧ fe_inv x (moved p q b n e s).
Proof. intros. split; [by apply move_construct_run|by apply moved_inv]. Qed.

Lemma new_vacant p s : bufs s !! p = None → vacant p s.
Proof. intros Hp b Hb. congruence. Qed.

Lemma buf_elem_pos x p b s : fe_inv x s → bufs s !! p = Some b → 0 < elem b.
Proof. intros HI Hb. apply (fi_buf _ _ HI _ _ Hb). Qed.

(** Handing an operation to the backend *)
Lemma submit_ok x k b a peer tag cb accept s :
  fe_inv x s → bufs s !! owner (next_op s) cb = Some b → m_ptr b = Some a → x = loose_of (next_op s) cb →
  steps_ok (submit k (m_heap_ptr b) (byte_size b) peer tag cb accept) s.
Proof.
  intros HI Hb Ha Hx. destruct (fi_buf _ _ HI _ _ Hb) as [_ Hok]. rewrite Ha in Hok.
  destruct Hok as (h & y & E1 & E2 & _). unfold steps_ok, submit, bnd at 1, gets. rewrite E1.
  unfold on_exception, bnd at 1, impl_m. rewrite E2. destruct accept.
  - eexists (Ret tt), _. split_and!; [done..|]. eapply submitted_inv; try done.
    destruct cb; subst x; auto.
  - cbn. destruct cb as [v|u|u v|u v]; subst x; cbn in *.
    1,3,4: exists (Throw (runtime_error "backend")), s; by split_and!.
    destruct (drop_closure _ _ _ HI Hb) as (s' & E & HI').
    exists (Throw (runtime_error "backend")), s'. unfold bnd. by rewrite E.
Qed.

(** A failed assertion leaves the state as it is. *)
Lemma assert_ok (b : bool) (k : M fes unit) s :
  fe_inv None s → (b = true → steps_ok k s) → steps_ok (cassert b ;;; k) s.
Proof.
  intros HI Hk. destruct b; [by apply Hk|]. exists (Halt assert_failed), s. split_and!; [done| |done].
  by intros h [= <-].
Qed.

Lemma is_set_inv b : is_set b = true → ∃ a, m_ptr b = Some a.
Proof. intros [a Ha]%bool_decide_eq_true. by exists a. Qed.

Lemma post_ref_ok k v cb peer tag accept s :
  fe_inv None s → is_Some (bufs s !! inl v) → owner (next_op s) cb = inl v →
  steps_ok (let! msg := read_buf (inl v) in cassert (is_set msg) ;;;
            submit k (m_heap_ptr msg) (byte_size msg) peer tag cb accept) s.
Proof.
  intros HI [b Hb] Ho. unfold steps_ok. erewrite bnd_ret by by apply read_buf_run.
  apply assert_ok; [done|]. intros [a Ha]%is_set_inv.
  apply (submit_ok None k b a); [done|by rewrite Ho|done|]. by destruct cb.
Qed.

(** The place of the next closure is free. *)
Lemma next_closure_new s : fe_inv None s → bufs s !! inr (next_op s) = None.
Proof.
  intros HI. destruct (bufs s !! inr (next_op s)) as [b|] eqn:E; [|done].
  destruct (fi_closure _ _ HI _ _ E) as [?|(o & Ho & _)]; [done|]. destruct (fi_op _ _ HI _ _ Ho). lia.
Qed.

Lemma loose_next s : fe_inv None s → fe_inv (Some (next_op s)) s.
Proof.
  intros HI. pose proof (fi_op _ _ HI) as H7. destruct HI as [H1 H2 H3 H4 H5 H6 _ H8 H9]. split; try done.
  - intros i b Hb. destruct (H8 _ _ Hb); [done|by right].
  - intros i [= <-]. split; [done|]. destruct (ops s !! next_op s) as [o|] eqn:E; [|done].
    destruct (H7 _ _ E). lia.
Qed.

Lemma post_rref_ok k v cb peer tag accept s :
  fe_inv None s → is_Some (bufs s !! inl v) → unpinned (inl v) s →
  steps_ok (post_rref (submit k) v peer tag cb accept) s.
Proof.
  intros HI [b Hb] Hu. unfold steps_ok, post_rref. erewrite bnd_ret by by apply read_buf_run.
  apply assert_ok; [done|]. intros [a Ha]%is_set_inv. unfold steps_ok. cbn zeta.
  erewrite bnd_ret by done. unfold construct_move.
  destruct (move_buf_ok (Some (next_op s)) (inr (next_op s)) (inl v) b (m_size b) (elem b) s) as [E HI'];
    [by apply loose_next|done|by apply new_vacant, next_closure_new|done|done|by eapply buf_elem_pos|done| |].
  { intros i [= <-]. by left. }
  erewrite bnd_ret by (erewrite bnd_ret by (by apply read_buf_run); exact E).
  rewrite byte_size_u64. eapply (submit_ok _ k (Mbuf (m_ptr b) (m_heap_ptr b) (m_size b) (elem b)) a) in HI'; try done.
  cbn. by rewrite lookup_insert_eq.
Qed.

(** *** Completion *)

Lemma loose_unpinned i s : fe_inv (Some i) s → unpinned (inr i) s.
Proof. intros HI j o Ho <-%owner_inr. destruct (fi_loose _ _ HI j eq_refl). congruence. Qed.

Lemma log_call_inv x c s : fe_inv x s → fe_inv x (set_calls (calls s ++ [c]) s).
Proof. by intros [H1 H2 H3 H4 H5 H6 H7 H8 H9]. Qed.

Lemma keep_or_drop_ok i b keep s :
  fe_inv (Some i) s → bufs s !! inr i = Some b → (∀ v, keep = Some v → bufs s !! inl v = None) →
  ∃ s', keep_or_drop i keep s = (Ret tt, s') ∧ fe_inv None s' ∧ calls s' = calls s ∧
        match keep with
        | Some v => bufs s' !! inl v = Some b ∧ allocs s' = allocs s
        | None => allocs s' = delete_opt (m_ptr b) (allocs s)
        end.
Proof.
  intros HI Hb Hk. unfold keep_or_drop. destruct keep as [v|].
  - destruct (move_buf_ok (Some i) (inl v) (inr i) b (m_size b) (elem b) s) as [E HI'];
      [done|done|by apply new_vacant, Hk|done|by apply loose_unpinned|by eapply buf_elem_pos|done|done|].
    unfold construct_move. erewrite bnd_ret by (erewrite bnd_ret by (by apply read_buf_run); exact E).
    assert (bufs (moved (inl v) (inr i) b (m_size b) (elem b) s) !! inr i = Some (empty_buf (m_size b) (elem b))) as Hi
      by by rewrite moved_lookup, decide_False, decide_True.
    destruct (drop_closure _ _ _ HI' Hi) as (s' & E' & HI''). rewrite E'.
    rewrite (destroy_buf_run _ _ _ _ HI' Hi) in E'. injection E' as <-.
    eexists. split_and!; [done..| |done]. cbn. rewrite lookup_delete_ne, lookup_insert_ne by done.
    rewrite lookup_insert_eq. by destruct b.
  - destruct (drop_closure _ _ _ HI Hb) as (s' & E & HI'). unfold bnd at 1, ret. rewrite E.
    rewrite (destroy_buf_run _ _ _ _ HI Hb) in E. injection E as <-. eexists. by split_and!.
Qed.

Lemma take_op_run i o s : ops s !! i = Some o → take_op i s = (Ret o, set_ops (delete i (ops s)) s).
Proof. unfold take_op. by intros ->. Qed.

(** What a completion calls: the callback of the operation, with the buffer that has
    the operation's memory. *)
Definition call_of (cb : fcb) (b : mbuf) (r t : Z) : list call :=
  match cb with
  | Cb_none _ => []
  | Cb_rref u | Cb_lref u _ | Cb_lref_const u _ => [Call u b r t]
  end.

Lemma complete_ok i o r t keep s :
  fe_inv None s → ops s !! i = Some o → (∀ v, keep = Some v → bufs s !! inl v = None) →
  ∃ s' b, complete i r t keep s = (Ret tt, s') ∧ fe_inv None s' ∧
    m_ptr b = Some (o_alloc o) ∧ byte_size b = o_bytes o ∧ bufs s !! owner i (o_cb o) = Some b ∧
    calls s' = calls s ++ call_of (o_cb o) b r t ∧
    match o_cb o, keep with
    | Cb_rref _, Some v => bufs s' !! inl v = Some b ∧ allocs s' = allocs s
    | Cb_rref _, None => allocs s' = delete (o_alloc o) (allocs s)
    | _, _ => allocs s' = allocs s ∧ bufs s' = bufs s
    end.
Proof.
  intros HI Ho Hk. destruct (fi_op _ _ HI _ _ Ho) as (_ & b & Hb & Ha & Hn).
  pose proof (taken_inv i o s HI Ho) as HI'. unfold complete. erewrite bnd_ret by by apply take_op_run.
  unfold invoke. destruct (o_cb o) as [v|u|u v|u v]; cbn [owner loose_of call_of] in *.
  1: { eexists _, b. split_and!; try done. cbn. by rewrite app_nil_r. }
  2,3: erewrite bnd_ret by (by apply read_buf_run); eexists _, b; split_and!; [done|by apply log_call_inv|done..].
  erewrite bnd_ret by (by apply read_buf_run). unfold log_call. erewrite bnd_ret by done.
  destruct (keep_or_drop_ok i b keep _ (log_call_inv _ (Call u b r t) _ HI') Hb Hk) as (s' & E & HI'' & Hc & Hv).
  exists s', b. split_and!; try done. destruct keep; [done|]. by rewrite Ha in Hv.
Qed.

Lemma cancel_ok i o s :
  fe_inv None s → ops s !! i = Some o →
  ∃ s', cancel i s = (Ret tt, s') ∧ fe_inv None s' ∧ calls s' = calls s ∧
    allocs s' = match o_cb o with Cb_rref _ => delete (o_alloc o) (allocs s) | _ => allocs s end.
Proof.
  intros HI Ho. destruct (fi_op _ _ HI _ _ Ho) as (_ & b & Hb & Ha & Hn).
  pose proof (taken_inv i o s HI Ho) as HI'. unfold cancel. erewrite bnd_ret by by apply take_op_run.
  destruct (o_cb o) as [v|u|u v|u v]; cbn [owner loose_of] in *; [by eexists| |by eexists|by eexists].
  destruct (drop_closure i b _ HI' Hb) as (s' & E & HI''). rewrite E.
  rewrite (destroy_buf_run _ _ _ _ HI' Hb) in E. injection E as <-. eexists. split_and!; [done..|]. cbn. by rewrite Ha.
Qed.

(** *** Copies between host and device *)

Lemma buf_alloc_run x p b a s :
  fe_inv x s → bufs s !! p = Some b → m_ptr b = Some a →
  ∃ y, allocs s !! a = Some y ∧ buf_alloc p s = (Ret (a, y), s) ∧ host_alloc b s = (Ret (a, y), s) ∧
       byte_size b ≤ a_bytes y.
Proof.
  intros HI Hb Ha. destruct (fi_buf _ _ HI _ _ Hb) as [_ Hok]. rewrite Ha in Hok.
  destruct Hok as (h & y & E1 & E2 & E3 & E4). exists y. split_and!; [done| | |done].
  - unfold buf_alloc. erewrite bnd_ret by by apply read_buf_run. unfold bnd, impl_m. rewrite E1, E2. cbn. by rewrite E3.
  - unfold host_alloc. rewrite Ha. cbn. by rewrite E3.
Qed.

Lemma device_buffer_inv v s :
  device_buffer v s →
  ∃ b a y d, bufs s !! inl v = Some b ∧ m_ptr b = Some a ∧ allocs s !! a = Some y ∧ a_device y = Some d.
Proof.
  intros [d Hd]. apply bind_Some in Hd as (y & Hy & Hd). apply bind_Some in Hy as (a & Ha & Hy).
  apply bind_Some in Ha as (b & Hb & Ha). by exists b, a, y, d.
Qed.

Lemma device_id_run x v b a y d s :
  fe_inv x s → bufs s !! inl v = Some b → m_ptr b = Some a → allocs s !! a = Some y → a_device y = Some d →
  device_id (inl v) s = (Ret d, s).
Proof.
  intros HI Hb Ha Hy Hd. destruct (buf_alloc_run x (inl v) b a s HI Hb Ha) as (y' & Hy' & E & _).
  unfold device_id. erewrite bnd_ret by exact E. assert (y' = y) as -> by congruence. cbn. by rewrite Hd.
Qed.

Definition with_dev (f : Z → Z) (y : alloc) : alloc :=
  Alloc (a_bytes y) (a_user_host y) (a_user_device y) (a_device y) (a_host y) f.
Definition with_host (f : Z → Z) (y : alloc) : alloc :=
  Alloc (a_bytes y) (a_user_host y) (a_user_device y) (a_device y) f (a_dev y).

Lemma clone_runs v b a y d s :
  fe_inv None s → bufs s !! inl v = Some b → m_ptr b = Some a → allocs s !! a = Some y → a_device y = Some d →
  clone_to_device (inl v) s =
    (Ret tt, set_allocs (<[a := with_dev (overwrite (byte_size b) (a_host y) (a_dev y)) y]> (allocs s)) s) ∧
  clone_to_host (inl v) s =
    (Ret tt, set_allocs (<[a := with_host (overwrite (byte_size b) (a_dev y) (a_host y)) y]> (allocs s)) s).
Proof.
  intros HI Hb Ha Hy Hd. destruct (buf_alloc_run _ (inl v) b a s HI Hb Ha) as (y' & Hy' & E & E' & _).
  assert (y' = y) as -> by congruence. pose proof (device_id_run _ v b a y d s HI Hb Ha Hy Hd) as Ed.
  unfold clone_to_device, clone_to_host. split; do 4 erewrite bnd_ret by first [by apply read_buf_run|done]; done.
Qed.
End ops.

(** The constructors from another buffer *)
Lemma construct_ok (n e : mbuf → Z) v o b s :
  fe_inv None s → bufs s !! inl v = None → bufs s !! inl o = Some b → unpinned (inl o) s →
  0 < e b → u64 (n b * e b) ≤ byte_size b →
  steps_ok (let! b := read_buf (inl o) in move_construct (inl v) (inl o) (n b) (e b)) s.
Proof.
  intros HI Hv Hb Hu He Hn.
  destruct (move_buf_ok None (inl v) (inl o) b (n b) (e b) s) as [E HI']; try done; [congruence|by apply new_vacant|].
  eapply steps_ret; [|exact HI']. by erewrite bnd_ret by by apply read_buf_run.
Qed.

(** *** Runs *)

Section run.
Variable hw : gmap positive alloc → Z → option positive.
(** hwmalloc hands out memory that is not in use. *)
Hypothesis hw_fresh : ∀ A z a, hw A z = Some a → A !! a = None.

Lemma run_op_ok o s : fe_inv None s → admissible o s = true → steps_ok (run_op hw o) s.
Proof.
  intros HI Ha. destruct o; cbn in Ha; try apply bool_decide_eq_true in Ha; cbn [run_op].
  - destruct Ha as [Hv He]. eapply steps_ret; [done|]. apply put_empty_inv; [done|by apply new_vacant|done|done].
  - destruct Ha. by apply make_buffer_ok.
  - destruct Ha. by apply make_buffer_ok.
  - destruct Ha. by apply make_buffer_ok.
  - destruct Ha as (? & ? & ?). by apply make_user_ok.
  - destruct Ha as (? & ? & ?). by apply make_user_ok.
  - destruct Ha as (Hv & [b Hb] & Hu). apply (construct_ok m_size elem v o b); try done. by eapply buf_elem_pos.
  - destruct Ha as (Hv & [b Hb] & Hu & He). apply (construct_ok (λ b, convert_size b size) (λ _, size) v o b); try done. by apply convert_size_fits.
  - destruct Ha as (Hne & [b Hb] & [c Hc] & Hu & Hu' & He). rewrite Hb, Hc in He. injection He as He.
    eapply steps_ret; [eapply assign_move_run|apply assign_inv]; try done; try congruence. by rewrite He.
  - destruct Ha as (Hne & [b Hb] & [c Hc] & Hu & Hu').
    eapply steps_ret; [eapply assign_convert_run|apply assign_inv]; try done; try congruence.
    apply convert_size_fits. by eapply buf_elem_pos.
  - destruct Ha as [[b Hb] Hu]. destruct (destroy_buf_inv _ _ _ _ HI Hb Hu) as (s' & E & _ & HI'). by eapply steps_ret.
  - destruct Ha as [[b Hb] Hu]. eapply steps_ret; [by eapply clear_run|]. apply cleared_inv; try done.
    apply not_elem_of_dom, is_fresh.
  - apply device_buffer_inv in Ha as (b & a & y & d & Hb & Hp & Hy & Hd).
    eapply steps_ret; [by eapply clone_runs|]. by eapply contents_inv.
  - apply device_buffer_inv in Ha as (b & a & y & d & Hb & Hp & Hy & Hd).
    eapply steps_ret; [by eapply clone_runs|]. by eapply contents_inv.
  - destruct k; by apply post_ref_ok.
  - destruct Ha. destruct k; by apply post_rref_ok.
  - destruct k; by apply post_ref_ok.
  - by apply post_ref_ok.
  - assert (is_Some (ops s !! i) ∧ ∀ v, keep = Some v → bufs s !! inl v = None) as [[o Ho] Hk].
    { destruct keep; apply bool_decide_eq_true in Ha; naive_solver. }
    destruct (complete_ok i o r t keep s HI Ho Hk) as (s' & b & E & HI' & _). by eapply steps_ret.
  - destruct Ha as [o Ho]. destruct (cancel_ok i o s HI Ho) as (s' & E & HI' & _). by eapply steps_ret.
Qed.

Lemma run_ops_ok l s r s' :
  fe_inv None s → run_ops hw l s = Some (r, s') → benign r ∧ fe_inv None s'.
Proof.
  revert s. induction l as [|o l IH]; cbn; intros s HI; [by intros [= <- <-]|].
  destruct (admissible o s) eqn:Ha; [|done].
  destruct (run_op_ok o s HI Ha) as (r1 & s1 & E & Hr & HI1). rewrite E. destruct r1; [by apply IH..|].
  by intros [= <- <-].
Qed.
End run.

(** ** Properties *)

(** A state a program reaches from the beginning. *)
Definition reaches (hw : gmap positive alloc → Z → option positive) (l : list pop) (r : outcome unit) (s : fes) : Prop :=
  run_ops hw l init_fes = Some (r, s).
Definition hw_ok (hw : gmap positive alloc → Z → option positive) : Prop :=
  ∀ A z a, hw A z = Some a → A !! a = None.

Lemma reaches_inv hw l r s : hw_ok hw → reaches hw l r s → benign r ∧ fe_inv None s.
Proof. intros Hhw. eapply run_ops_ok; [exact Hhw|apply fe_init_inv]. Qed.

(** C32: A program that keeps the contract does not reach undefined behaviour, whatever
    the backend completes, cancels or rejects and when: no memory is released twice
    and no dangling pointer is used.  The memory of every operation in flight is
    live, at least as large as the message, and that of the buffer in the closure or
    in the variable of the operation. *)
Theorem memory_in_flight_live hw l r s :
  hw_ok hw → reaches hw l r s →
  r ≠ Halt undefined_behaviour ∧
  ∀ i o, ops s !! i = Some o →
    ∃ y b, allocs s !! o_alloc o = Some y ∧ o_bytes o ≤ a_bytes y ∧
           bufs s !! owner i (o_cb o) = Some b ∧ m_ptr b = Some (o_alloc o) ∧ byte_size b = o_bytes o.
Proof.
  intros Hhw Hr. destruct (reaches_inv _ _ _ _ Hhw Hr) as [Hb HI]. split.
  - intros ->. by specialize (Hb _ eq_refl).
  - intros i o Ho. destruct (fi_op _ _ HI _ _ Ho) as (_ & b & Hbuf & Ha & Hn).
    destruct (fi_buf _ _ HI _ _ Hbuf) as [_ Hok]. rewrite Ha in Hok.
    destruct Hok as (h & y & _ & _ & Hy & Hle). exists y, b. split_and!; try done. lia.
Qed.

(** C33: Every piece of memory has exactly one owner, a buffer of the program or of a
    closure, unless [clear] let go of it; every buffer that is set owns live memory.
    When no buffer is left, nothing else is: no memory and no [heap_ptr_impl]
    leaks. *)
Theorem memory_owned_once hw l r s :
  hw_ok hw → reaches hw l r s →
  (∀ a, is_Some (allocs s !! a) ↔ a ∈ detached s ∨ ∃ p b, bufs s !! p = Some b ∧ m_ptr b = Some a) ∧
  (∀ p q b c a, bufs s !! p = Some b → bufs s !! q = Some c → m_ptr b = Some a → m_ptr c = Some a →
     p = q ∧ a ∉ detached s) ∧
  (bufs s = ∅ → impls s = ∅ ∧ dom (allocs s) = detached s).
Proof.
  intros Hhw Hr. destruct (reaches_inv _ _ _ _ Hhw Hr) as [_ HI].
  assert (∀ a, is_Some (allocs s !! a) ↔ a ∈ detached s ∨ ∃ p b, bufs s !! p = Some b ∧ m_ptr b = Some a) as H1.
  { intros a. split; [apply (fi_alloc_owned _ _ HI)|]. intros [Ha|(p & b & Hb & Ha)]; [by apply (fi_detached _ _ HI)|].
    destruct (allocs s !! a) eqn:E; [by eexists|]. destruct (buf_not_fresh _ _ _ _ HI Hb) as [Hn _]. by destruct (Hn a E). }
  split; [done|]. split.
  - intros p q b c a Hb Hc Ea Ec. split; [by eapply fi_ptr_unique|]. intros [_ Hn]%(fi_detached _ _ HI). by apply (Hn p b).
  - intros He. split.
    + apply map_empty. intros h. apply eq_None_not_Some. intros (p & b & Hb & _)%(fi_impl_owned _ _ HI).
      by rewrite He, lookup_empty in Hb.
    + apply set_eq. intros a. rewrite elem_of_dom, H1, He. split; [|by left].
      intros [?|(p & b & Hb & _)]; [done|]. by rewrite lookup_empty in Hb.
Qed.

(** C3: The completion of an operation calls its callback once, with the rank and tag of
    the message and the buffer whose memory the operation used, with its full size.
    A callback that is given the buffer itself can keep it; if it does not, its
    memory is released with the closure.  After a cancellation there is no call, and
    a buffer in the closure is released. *)
Theorem callback_gets_buffer hw l r0 s i o r t keep :
  hw_ok hw → reaches hw l r0 s → ops s !! i = Some o → (∀ v, keep = Some v → bufs s !! inl v = None) →
  (∃ s' b, complete i r t keep s = (Ret tt, s') ∧ calls s' = calls s ++ call_of (o_cb o) b r t ∧
     m_ptr b = Some (o_alloc o) ∧ byte_size b = o_bytes o ∧ bufs s !! owner i (o_cb o) = Some b ∧
     match o_cb o, keep with
     | Cb_rref _, Some v => bufs s' !! inl v = Some b ∧ allocs s' = allocs s
     | Cb_rref _, None => allocs s' = delete (o_alloc o) (allocs s)
     | _, _ => allocs s' = allocs s ∧ bufs s' = bufs s
     end) ∧
  (∃ s', cancel i s = (Ret tt, s') ∧ calls s' = calls s ∧
     allocs s' = match o_cb o with Cb_rref _ => delete (o_alloc o) (allocs s) | _ => allocs s end).
Proof.
  intros Hhw Hr Ho Hk. destruct (reaches_inv _ _ _ _ Hhw Hr) as [_ HI]. split.
  - destruct (complete_ok i o r t keep s HI Ho Hk) as (s' & b & E & _ & Ha & Hn & Hb & Hc & Hm). by exists s', b.
  - destruct (cancel_ok i o s HI Ho) as (s' & E & _ & Hc & Ha). by exists s'.
Qed.

(** An element of a buffer that is set lies inside its memory, after any moves and
    conversions between element types, if the size of the buffer in bytes does not
    overflow. *)
Theorem element_in_bounds hw l r s p b a i :
  hw_ok hw → reaches hw l r s → bufs s !! p = Some b → m_ptr b = Some a →
  0 ≤ i < m_size b → m_size b * elem b < 2 ^ 64 →
  ∃ y off, at_index b i = Some (a, off) ∧ allocs s !! a = Some y ∧ 0 ≤ off ∧ off + elem b ≤ a_bytes y.
Proof.
  intros Hhw Hr Hb Ha Hi Hov. destruct (reaches_inv _ _ _ _ Hhw Hr) as [_ HI].
  destruct (fi_buf _ _ HI _ _ Hb) as [He Hok]. rewrite Ha in Hok. destruct Hok as (h & y & _ & _ & Hy & Hle).
  exists y, (i * elem b). unfold at_index. rewrite Ha. split_and!; [done|done|nia|].
  unfold byte_size in Hle. rewrite u64_small in Hle; nia.
Qed.

(** A device buffer that is copied to the device and, after its host side has been
    overwritten, back to the host has its old contents; bytes behind its size are not
    touched. *)
Theorem clone_roundtrip hw l r s v b a y d g :
  hw_ok hw → reaches hw l r s →
  bufs s !! inl v = Some b → m_ptr b = Some a → allocs s !! a = Some y → a_device y = Some d →
  ∃ s1 s2 y', clone_to_device (inl v) s = (Ret tt, s1) ∧
    (put_alloc a (with_host g (with_dev (overwrite (byte_size b) (a_host y) (a_dev y)) y)) ;;;
     clone_to_host (inl v)) s1 = (Ret tt, s2) ∧
    allocs s2 !! a = Some y' ∧
    (∀ k, k < byte_size b → a_host y' k = a_host y k) ∧ (∀ k, byte_size b ≤ k → a_host y' k = g k).
Proof.
  intros Hhw Hr Hb Ha Hy Hd. destruct (reaches_inv _ _ _ _ Hhw Hr) as [_ HI].
  destruct (clone_runs v b a y d s HI Hb Ha Hy Hd) as [E _].
  set (y1 := with_dev (overwrite (byte_size b) (a_host y) (a_dev y)) y) in *.
  set (s1 := set_allocs (<[a := with_host g y1]> (allocs s)) s).
  assert (fe_inv None s1) as HI1 by by eapply contents_inv.
  assert (allocs s1 !! a = Some (with_host g y1)) as Hy1 by apply lookup_insert_eq.
  destruct (clone_runs v b a (with_host g y1) d s1 HI1 Hb Ha Hy1 Hd) as [_ E2].
  eexists _, _, _. split; [exact E|]. erewrite bnd_ret by done.
  assert (set_allocs (<[a := with_host g y1]> (allocs (set_allocs (<[a := y1]> (allocs s)) s)))
            (set_allocs (<[a := y1]> (allocs s)) s) = s1) as ->.
  { unfold s1, set_allocs. cbn. by rewrite insert_insert_eq. }
  split; [exact E2|]. split; [apply lookup_insert_eq|]. cbn. unfold overwrite.
  split; intros k Hk; repeat case_decide; try done; lia.
Qed.

(** ** Examples *)

Definition any_free : gmap positive alloc → Z → option positive := λ A _, Some (fresh (dom A)).

Lemma any_free_ok : hw_ok any_free.
Proof. intros A z a [= <-]. apply not_elem_of_dom, is_fresh. Qed.

Definition state_of (l : list pop) : fes :=
  match run_ops any_free l init_fes with Some (_, s) => s | None => init_fes end.

(** A buffer of ten doubles is sent and handed to the closure, a second one is
    received into and kept by reference, a third one is converted to bytes. *)
Definition program : list pop :=
  [ P_make 0 8 10; P_make 1 4 6; P_make_device 2 8 3 0;
    P_rref Op_send 0 1 7 100 true; P_lref Op_recv 1 1 8 101 true; P_convert 3 2 1; P_destroy 2;
    P_plain Op_send 3 2 9 true ].

Lemma program_reaches : reaches any_free program (Ret tt) (state_of program).
Proof. vm_compute. exact eq_refl. Qed.

Lemma memory_in_flight_live_witness :
  ∃ y b, allocs (state_of program) !! 1%positive = Some y ∧ 80 ≤ a_bytes y ∧
         bufs (state_of program) !! inr 0%nat = Some b ∧ m_ptr b = Some 1%positive ∧ byte_size b = 80.
Proof.
  destruct (memory_in_flight_live any_free program (Ret tt) (state_of program) any_free_ok program_reaches)
    as [_ H].
  exact (H 0%nat (Op Op_send 1 80 1 7 (Cb_rref 100)) eq_refl).
Defined.

(** After the completions, with the first buffer dropped by its callback, and the
    destruction of the variables. *)
Definition program_end : list pop :=
  program ++ [ P_complete 0 1 7 None; P_complete 2 2 9 None; P_complete 1 1 8 None;
               P_destroy 0; P_destroy 1; P_clear 3; P_destroy 3 ].

Lemma program_end_reaches : reaches any_free program_end (Ret tt) (state_of program_end).
Proof. vm_compute. exact eq_refl. Qed.

Lemma memory_owned_once_witness :
  impls (state_of program_end) = ∅ ∧ dom (allocs (state_of program_end)) = detached (state_of program_end).
Proof.
  destruct (memory_owned_once any_free program_end (Ret tt) (state_of program_end) any_free_ok program_end_reaches)
    as (_ & _ & H).
  apply H. vm_compute. exact eq_refl.
Defined.

(** The callback of the first send keeps the buffer in a new variable. *)
Lemma callback_gets_buffer_witness :
  ∃ s' b, complete 0 1 7 (Some 5%nat) (state_of program) = (Ret tt, s') ∧
    calls s' = calls (state_of program) ++ [Call 100 b 1 7] ∧ bufs s' !! inl 5%nat = Some b.
Proof.
  assert (ops (state_of program) !! 0%nat = Some (Op Op_send 1 80 1 7 (Cb_rref 100))) as Ho
    by (vm_compute; exact eq_refl).
  assert (∀ v, Some 5%nat = Some v → bufs (state_of program) !! inl v = None) as Hk
    by (intros v [= <-]; vm_compute; exact eq_refl).
  destruct (callback_gets_buffer any_free program (Ret tt) (state_of program) 0 _ 1 7 (Some 5%nat)
              any_free_ok program_reaches Ho Hk) as [(s' & b & E & Hc & _ & _ & _ & Hb & _) _].
  exists s', b. split; [exact E|]. split; [exact Hc|exact Hb].
Defined.

(** The last byte of the buffer that was made as three doubles on a device. *)
Lemma element_in_bounds_witness :
  ∃ y off, at_index (Mbuf (Some 3%positive) (Some 3%positive) 24 1) 23 = Some (3%positive, off) ∧
    allocs (state_of program) !! 3%positive = Some y ∧ 0 ≤ off ∧ off + 1 ≤ a_bytes y.
Proof.
  apply (element_in_bounds any_free program (Ret tt) (state_of program) (inl 3%nat)
           (Mbuf (Some 3%positive) (Some 3%positive) 24 1) 3 23 any_free_ok program_reaches).
  - vm_compute. exact eq_refl.
  - exact eq_refl.
  - cbn. lia.
  - cbn. lia.
Defined.

(** Without the contract: a buffer that is assigned to itself releases its memory and
    keeps the pointer to it; its destructor releases the memory a second time. *)
Theorem self_assignment_releases_twice :
  match run_op any_free (P_make 0 8 10) init_fes with
  | (Ret _, s) =>
      match assign_move (inl 0%nat) (inl 0%nat) s with
      | (Ret _, s') =>
          m_ptr <$> bufs s' !! inl 0%nat = Some (Some 1%positive) ∧ allocs s' !! 1%positive = None ∧
          fst (destroy_buf (inl 0%nat) s') = Halt undefined_behaviour
      | _ => False
      end
  | _ => False
  end.
Proof. vm_compute. repeat split. Qed.

(** The product of the size and the element size can overflow: a buffer of 2^61 + 1
    doubles is made of eight bytes. *)
Theorem make_buffer_overflows :
  let s := state_of [P_make 0 8 (2 ^ 61 + 1)] in
  m_size <$> bufs s !! inl 0%nat = Some (2 ^ 61 + 1) ∧ a_bytes <$> allocs s !! 1%positive = Some 8.
Proof. vm_compute. by split. Qed.

(** A buffer that has been moved from keeps its size, though it has no memory. *)
Theorem moved_from_keeps_size :
  let s := state_of [P_make 0 8 10; P_move 1 0] in
  bufs s !! inl 0%nat = Some (Mbuf None None 10 8).
Proof. vm_compute. exact eq_refl. Qed.
