(* ===== verification/MsgFrame.v ===== *)
(** * What operations do to the table of operations

    Frame lemmas for the front end of MsgBuffer.v: which operations leave the table of
    operations in flight alone, which add exactly one, which remove one. *)
From S2P Require Import Prelude MsgBuffer MsgBufferInv MsgBufferApi.

(** ** What operations do to the table of operations *)

(** [m] relates the states before and after, whatever its outcome. *)
Definition respects {A} (R : fes → fes → Prop) (m : M fes A) : Prop := ∀ s, R s (snd (m s)).

Record same_ops (s s' : fes) : Prop := {
  so_ops : ops s' = ops s;
  so_next : next_op s' = next_op s
}.

#[export] Instance same_ops_preorder : PreOrder same_ops.
Proof. split; [done|]. intros s1 s2 s3 [] []. split; congruence. Qed.

Create HintDb frame discriminated.

Section frame.
Context (R : fes → fes → Prop) `{!PreOrder R}.

Lemma respects_ret {A} (a : A) : respects R (ret a).
Proof. by intros s. Qed.
Lemma respects_gets {A} (f : fes → A) : respects R (gets f).
Proof. by intros s. Qed.
Lemma respects_throw {A} e : respects R (@throw fes A e).
Proof. by intros s. Qed.
Lemma respects_stop {A} h : respects R (@stop fes A h).
Proof. by intros s. Qed.
Lemma respects_cassert b : respects R (cassert b).
Proof. by destruct b; intros s. Qed.
Lemma respects_modify f : (∀ s, R s (f s)) → respects R (modify f).
Proof. by intros Hf s. Qed.

Lemma respects_bnd {A B} (m : M fes A) (k : A → M fes B) :
  respects R m → (∀ a, respects R (k a)) → respects R (bnd m k).
Proof.
  intros Hm Hk s. unfold bnd. specialize (Hm s). destruct (m s) as [[a|e|h] s']; cbn in *; try done.
  trans s'; [done|apply Hk].
Qed.

Lemma respects_on_exception {A} (m : M fes A) h :
  respects R m → respects R h → respects R (on_exception m h).
Proof.
  intros Hm Hh s. unfold on_exception. specialize (Hm s). destruct (m s) as [[a|e|k] s']; cbn in *; try done.
  trans s'; [done|]. apply (respects_bnd h (λ _, throw e)); [done|intros; apply respects_throw].
Qed.
End frame.

#[export] Hint Resolve respects_ret respects_gets respects_throw respects_stop respects_cassert
  respects_bnd respects_on_exception : frame.
#[export] Hint Extern 5 (respects _ (modify _)) => apply respects_modify : frame.

(** The table of operations is not touched. *)
Abbreviation quiet m := (respects same_ops m).

(** One case of a match that reads the state. *)
Ltac frame_cases := intros ?; repeat case_match; simplify_eq/=; by split.
Ltac frame :=
  repeat (match goal with |- respects _ (bnd _ _) => apply respects_bnd; [apply _| |intros ?] end);
  eauto with frame typeclass_instances.

Lemma quiet_read_buf p : quiet (read_buf p).
Proof. unfold read_buf. frame_cases. Qed.
Lemma quiet_write_buf p b : quiet (write_buf p b).
Proof. by apply respects_modify. Qed.
Lemma quiet_new_impl a : quiet (new_impl a).
Proof. by intros s. Qed.
Lemma quiet_impl_m h : quiet (impl_m h).
Proof. unfold impl_m. frame_cases. Qed.
Lemma quiet_delete_impl h : quiet (delete_impl h).
Proof. unfold delete_impl. frame_cases. Qed.
Lemma quiet_host_alloc b : quiet (host_alloc b).
Proof. unfold host_alloc. frame_cases. Qed.
Lemma quiet_put_alloc a x : quiet (put_alloc a x).
Proof. by apply respects_modify. Qed.
Lemma quiet_register_user a n u d : quiet (register_user a n u d).
Proof. by intros s. Qed.
Lemma quiet_heap_allocate hw n u d : quiet (heap_allocate hw n u d).
Proof. unfold heap_allocate. frame_cases. Qed.
#[export] Hint Resolve quiet_read_buf quiet_write_buf quiet_new_impl quiet_impl_m quiet_delete_impl
  quiet_host_alloc quiet_put_alloc quiet_register_user quiet_heap_allocate : frame.

Lemma quiet_release_buf b : quiet (release_buf b).
Proof.
  unfold release_buf. destruct (is_set b); [|frame]. unfold release_impl.
  apply respects_bnd; [apply _|frame|]. intros o. frame_cases.
Qed.
Lemma quiet_buf_alloc p : quiet (buf_alloc p).
Proof. unfold buf_alloc. frame. frame_cases. Qed.
#[export] Hint Resolve quiet_release_buf quiet_buf_alloc : frame.

Lemma quiet_destroy_buf p : quiet (destroy_buf p).
Proof. unfold destroy_buf. frame. by apply respects_modify. Qed.
Lemma quiet_move_construct p q n e : quiet (move_construct p q n e).
Proof. unfold move_construct. frame. Qed.
Lemma quiet_device_id p : quiet (device_id p).
Proof. unfold device_id. frame. case_match; frame. Qed.
Lemma quiet_pimpl_assign p q : quiet (pimpl_assign p q).
Proof. unfold pimpl_assign. frame. Qed.
#[export] Hint Resolve quiet_destroy_buf quiet_move_construct quiet_device_id quiet_pimpl_assign : frame.

Lemma quiet_assign_core p q : quiet (assign_core p q).
Proof. unfold assign_core. frame. Qed.
Lemma quiet_write_size p n : quiet (write_size p n).
Proof. unfold write_size. frame. Qed.
Lemma quiet_construct_ptr p a n e : quiet (construct_ptr p a n e).
Proof. unfold construct_ptr. frame. Qed.
Lemma quiet_construct_move p q : quiet (construct_move p q).
Proof. unfold construct_move. frame. Qed.
#[export] Hint Resolve quiet_assign_core quiet_write_size quiet_construct_ptr quiet_construct_move : frame.

(** ** Posting *)

(** The state after a posting operation: if it returns there is one operation more, under
    the next number, and [P] holds of it; otherwise the table is as it was. *)
Definition posts_one (P : op → Prop) {A} (m : M fes A) (s : fes) : Prop :=
  match m s with
  | (Ret _, s') => ∃ o, ops s' = <[next_op s := o]> (ops s) ∧ next_op s' = S (next_op s) ∧ P o
  | (_, s') => same_ops s s'
  end.

Lemma posts_one_mono (P Q : op → Prop) {A} (m : M fes A) s :
  (∀ o, P o → Q o) → posts_one P m s → posts_one Q m s.
Proof. intros HPQ. unfold posts_one. destruct (m s) as [[] ?]; naive_solver. Qed.

Lemma submit_one k h n r t cb accept s :
  posts_one (λ o, o_cb o = cb) (submit k h n r t cb accept) s.
Proof.
  unfold posts_one, submit, bnd at 1, gets, on_exception, bnd at 1.
  pose proof (quiet_impl_m h s) as Hq.
  assert (∀ s1 e, same_ops s s1 → match (match cb with Cb_rref _ => destroy_buf (inr (next_op s)) | _ => ret tt end ;;;
      @throw fes unit e) s1 with (Ret _, s') => False | (_, s') => same_ops s s' end) as Hclean.
  { intros s1 e H1. assert (quiet (match cb with Cb_rref _ => destroy_buf (inr (next_op s)) | _ => ret tt end)) as Hd
      by (destruct cb; [apply respects_ret, _|apply quiet_destroy_buf|apply respects_ret, _..]).
    specialize (Hd s1). unfold bnd. destruct (_ s1) as [[] s2]; cbn in *; by trans s1. }
  destruct (impl_m h s) as [[[a|]|e|x] s1] eqn:E; cbn in Hq; [|done| |done].
  - destruct accept; cbn.
    + eexists. by rewrite (so_ops _ _ Hq).
    + specialize (Hclean s1 (runtime_error "backend") Hq).
      by destruct (bnd _ _ s1) as [[] ?].
  - specialize (Hclean s1 e Hq). by destruct (bnd _ _ s1) as [[] ?].
Qed.

(** After a quiet beginning. *)
Lemma bnd_one {A B} (P : op → Prop) (m : M fes A) (k : A → M fes B) s :
  quiet m → (∀ a s', posts_one P (k a) s') → posts_one P (bnd m k) s.
Proof.
  intros Hm Hk. specialize (Hm s). unfold posts_one, bnd. destruct (m s) as [[a|e|h] s']; cbn in *; [|done..].
  specialize (Hk a s'). unfold posts_one in Hk. destruct (k a s') as [[] s'']; [|by trans s'..].
  by rewrite (so_ops _ _ Hm), (so_next _ _ Hm) in Hk.
Qed.

(** ** Completion and cancellation *)

Lemma taken_ops i o s (k : op → M fes unit) :
  ops s !! i = Some o → quiet (k o) →
  let s' := snd (bnd (take_op i) k s) in ops s' = delete i (ops s) ∧ next_op s' = next_op s.
Proof.
  intros Ho Hk. cbn. erewrite bnd_ret by by apply take_op_run.
  destruct (Hk (set_ops (delete i (ops s)) s)) as [E1 E2]. by rewrite E1, E2.
Qed.

Lemma complete_ops i o r t keep s :
  ops s !! i = Some o →
  let s' := snd (complete i r t keep s) in ops s' = delete i (ops s) ∧ next_op s' = next_op s.
Proof.
  intros Ho. apply (taken_ops i o s); [done|]. unfold invoke, log_call, keep_or_drop.
  destruct (o_cb o); [frame|..]; frame; try by apply respects_modify. destruct keep; frame.
Qed.

Lemma cancel_ops i o s :
  ops s !! i = Some o →
  let s' := snd (cancel i s) in ops s' = delete i (ops s) ∧ next_op s' = next_op s.
Proof. intros Ho. apply (taken_ops i o s); [done|]. destruct (o_cb o); frame. Qed.

