(* ===== verification/Fortran.v ===== *)
(** * The Fortran bindings

    Model of the C interface in src/bindings/fortran: communicator_bind.cpp,
    message_bind.cpp, request_bind.cpp, context_bind.cpp and object_wrapper.cpp, on top of
    the message buffers of MsgBuffer.v and of the sends to many neighbours of SendMulti.v.

    A [message_type] on the C++ heap, or in the frame of a callback, is a variable
    [inl v] of MsgBuffer.v; pointers to it are numbers, and [None] is the null pointer.
    Fortran variables that hold pointers and the structures [oomph_request] live on the
    Fortran side and are passed by address.  What the backend does is a step of its own:
    it completes an operation, which calls the callback of the operation, and the
    callback returns, which destroys its parameter. *)
From S2P Require Import SendMulti.
From S2P Require Import Prelude MsgBuffer MsgBufferInv MsgBufferApi MsgFrame.

(** ** State *)

(** [callback], [callback_ref], [callback_multi] and [callback_multi_ref]: the Fortran
    function, null if there is none, and the user data. *)
Record fclosure : Type := FClosure {
  f_cb : option nat;
  user_data : option Z
}.

(** A call of a Fortran function: [mesg] is the address of a [message_type]. *)
Record fcall : Type := FCall {
  fc_cb : nat;
  fc_mesg : nat;
  fc_rank : Z;
  fc_tag : Z;
  fc_user_data : option Z
}.

(** The bytes of [frequest_type::data]: what they were when the structure was declared,
    zeros ([oomph_request_init]), or an object that was constructed in them. *)
Inductive fdata : Type :=
| Fd_raw
| Fd_zero
| Fd_send (i : nat)
| Fd_recv (i : nat)
| Fd_multi (m : positive).

Record frequest : Type := FRequest {
  data : fdata;
  recv_request : bool
}.

(** [running]: the operations whose callback is being executed, with the parameter of the
    callback; [rstates]: the request states, each with the communicator in whose pool it
    lives and with its [m_ready] (the state of operation [i] has the number [i]);
    [mrs_msg]: the object that holds the [m_msg] of a [multi_request_state]. *)
Record fort : Type := Fort {
  fe : fes;
  mu : SendMulti.state;
  next_obj : nat;
  closures : list fclosure;
  fcalls : list fcall;
  running : gmap nat (option nat);
  rstates : gmap nat (positive * bool);
  mrs_msg : gmap positive nat;
  wrappers : gset positive;
  comm_vars : gmap nat (option positive);
  mesg_vars : gmap nat (option nat);
  freqs : gmap nat frequest;
  oomph_context : option positive;
  contexts : gset positive;
  oomph_barrier_obj : option positive;
  barriers : gset positive;
  nthreads : Z
}.

Section setters.
Implicit Types F : fort.
Definition set_fe x F := Fort x (mu F) (next_obj F) (closures F) (fcalls F) (running F) (rstates F) (mrs_msg F) (wrappers F)
  (comm_vars F) (mesg_vars F) (freqs F) (oomph_context F) (contexts F) (oomph_barrier_obj F) (barriers F) (nthreads F).
Definition set_mu x F := Fort (fe F) x (next_obj F) (closures F) (fcalls F) (running F) (rstates F) (mrs_msg F) (wrappers F)
  (comm_vars F) (mesg_vars F) (freqs F) (oomph_context F) (contexts F) (oomph_barrier_obj F) (barriers F) (nthreads F).
Definition set_next_obj x F := Fort (fe F) (mu F) x (closures F) (fcalls F) (running F) (rstates F) (mrs_msg F) (wrappers F)
  (comm_vars F) (mesg_vars F) (freqs F) (oomph_context F) (contexts F) (oomph_barrier_obj F) (barriers F) (nthreads F).
Definition set_closures x F := Fort (fe F) (mu F) (next_obj F) x (fcalls F) (running F) (rstates F) (mrs_msg F) (wrappers F)
  (comm_vars F) (mesg_vars F) (freqs F) (oomph_context F) (contexts F) (oomph_barrier_obj F) (barriers F) (nthreads F).
Definition set_fcalls x F := Fort (fe F) (mu F) (next_obj F) (closures F) x (running F) (rstates F) (mrs_msg F) (wrappers F)
  (comm_vars F) (mesg_vars F) (freqs F) (oomph_context F) (contexts F) (oomph_barrier_obj F) (barriers F) (nthreads F).
Definition set_running x F := Fort (fe F) (mu F) (next_obj F) (closures F) (fcalls F) x (rstates F) (mrs_msg F) (wrappers F)
  (comm_vars F) (mesg_vars F) (freqs F) (oomph_context F) (contexts F) (oomph_barrier_obj F) (barriers F) (nthreads F).
Definition set_mrs_msg x F := Fort (fe F) (mu F) (next_obj F) (closures F) (fcalls F) (running F) (rstates F) x (wrappers F)
  (comm_vars F) (mesg_vars F) (freqs F) (oomph_context F) (contexts F) (oomph_barrier_obj F) (barriers F) (nthreads F).
Definition set_wrappers x F := Fort (fe F) (mu F) (next_obj F) (closures F) (fcalls F) (running F) (rstates F) (mrs_msg F) x
  (comm_vars F) (mesg_vars F) (freqs F) (oomph_context F) (contexts F) (oomph_barrier_obj F) (barriers F) (nthreads F).
Definition set_comm_vars x F := Fort (fe F) (mu F) (next_obj F) (closures F) (fcalls F) (running F) (rstates F) (mrs_msg F) (wrappers F)
  x (mesg_vars F) (freqs F) (oomph_context F) (contexts F) (oomph_barrier_obj F) (barriers F) (nthreads F).
Definition set_mesg_vars x F := Fort (fe F) (mu F) (next_obj F) (closures F) (fcalls F) (running F) (rstates F) (mrs_msg F) (wrappers F)
  (comm_vars F) x (freqs F) (oomph_context F) (contexts F) (oomph_barrier_obj F) (barriers F) (nthreads F).
Definition set_freqs x F := Fort (fe F) (mu F) (next_obj F) (closures F) (fcalls F) (running F) (rstates F) (mrs_msg F) (wrappers F)
  (comm_vars F) (mesg_vars F) x (oomph_context F) (contexts F) (oomph_barrier_obj F) (barriers F) (nthreads F).
Definition set_global c cs b bs n F := Fort (fe F) (mu F) (next_obj F) (closures F) (fcalls F) (running F) (rstates F) (mrs_msg F)
  (wrappers F) (comm_vars F) (mesg_vars F) (freqs F) c cs b bs n.
Definition set_rstates x F := Fort (fe F) (mu F) (next_obj F) (closures F) (fcalls F) (running F) x (mrs_msg F) (wrappers F)
  (comm_vars F) (mesg_vars F) (freqs F) (oomph_context F) (contexts F) (oomph_barrier_obj F) (barriers F) (nthreads F).
End setters.

(** A computation on the message buffers or on the sends to many neighbours. *)
Definition on_fe {A} (m : M fes A) : M fort A := λ F, let '(r, s) := m (fe F) in (r, set_fe s F).
Definition on_mu {A} (m : M SendMulti.state A) : M fort A := λ F, let '(r, s) := m (mu F) in (r, set_mu s F).

(** The value a pointer points to: a null or dangling pointer is an error. *)
Definition deref {A} (o : option A) : M fort A :=
  match o with Some a => ret a | None => stop undefined_behaviour end.
Definition terminate {A} : M fort A := stop terminated.
Definition null {A} (p : option A) : bool := bool_decide (p = None).

Definition new_obj : M fort nat :=
  let! v := gets next_obj in modify (set_next_obj (S v)) ;;; ret v.
Definition new_closure (c : fclosure) : M fort nat :=
  let! l := gets closures in modify (set_closures (l ++ [c])) ;;; ret (length l).

(** ** object_wrapper *)

(** [get_object_ptr_unsafe<communicator_type>(src)] *)
Definition get_object_ptr_unsafe (src : option positive) : M fort positive :=
  let! w := deref src in
  let! ws := gets wrappers in
  if decide (w ∈ ws) then ret w else stop undefined_behaviour.

(** [delete wrapper] of a communicator: its pool goes, and with it the request states. *)
Definition delete_communicator (w : positive) (F : fort) : fort :=
  set_rstates (filter (λ p, p.2.1 ≠ w) (rstates F)) (set_wrappers (wrappers F ∖ {[w]}) F).

Definition oomph_obj_free (wrapper_ref : option nat) : M fort unit :=
  let! x := deref wrapper_ref in
  let! vars := gets comm_vars in
  let! wrapper := deref (vars !! x) in
  modify (set_comm_vars (<[x := None]> vars)) ;;;
  match wrapper with
  | None => ret tt
  | Some w =>
      let! ws := gets wrappers in
      if decide (w ∈ ws) then modify (delete_communicator w) else stop undefined_behaviour
  end.

(** ** context_bind *)

Definition get_context : M fort positive :=
  let! p := gets oomph_context in
  let! c := deref p in
  let! cs := gets contexts in
  if decide (c ∈ cs) then ret c else stop undefined_behaviour.

Definition oomph_init (n : Z) : M fort unit := λ F,
  let c := fresh (contexts F) in
  let b := fresh (barriers F) in
  (Ret tt, set_global (Some c) ({[c]} ∪ contexts F) (Some b) ({[b]} ∪ barriers F) n F).

(** [delete p] *)
Definition delete_in (p : option positive) (live : gset positive) : option (gset positive) :=
  match p with
  | None => Some live
  | Some c => if decide (c ∈ live) then Some (live ∖ {[c]}) else None
  end.

(** What goes with the context: the heap, with the memory of every message, and the
    communicators, with their pools.  Pointers to them dangle from then on. *)
Definition drop_heap (s : fes) : fes := set_allocs ∅ (set_detached ∅ s).
Definition drop_context (F : fort) : fort :=
  set_fe (drop_heap (fe F)) (set_wrappers ∅ (set_rstates ∅ F)).

Definition oomph_finalize : M fort unit := λ F,
  match delete_in (oomph_context F) (contexts F) with
  | None => (Halt undefined_behaviour, F)
  | Some cs =>
      let F1 := set_global (oomph_context F) cs (oomph_barrier_obj F) (barriers F) (nthreads F)
                  (match oomph_context F with Some _ => drop_context F | None => F end) in
      match delete_in (oomph_barrier_obj F) (barriers F) with
      | None => (Halt undefined_behaviour, F1)
      | Some bs => (Ret tt, set_global (oomph_context F) cs (oomph_barrier_obj F) bs (nthreads F) F1)
      end
  end.

Definition oomph_get_communicator : M fort (option positive) :=
  let! _ := get_context in
  λ F, let w := fresh (wrappers F) in (Ret (Some w), set_wrappers ({[w]} ∪ wrappers F) F).

(** ** message_bind *)

Definition OomphAllocatorHost : Z := 1.
Definition OomphAllocatorDevice : Z := 2.

Section memory.
(** hwmalloc, whether it supports devices, and the device of the thread *)
Context (hw_allocate : gmap positive alloc → Z → option positive).
Context (HWMALLOC_ENABLE_DEVICE : bool) (device : Z).

(** [new message_type(std::move(buffer))]: the temporary is moved from and destroyed. *)
Definition new_message (make : place → M fes unit) : M fort (option nat) :=
  let! t := new_obj in
  on_fe (make (inl t)) ;;;
  let! v := new_obj in
  on_fe (construct_move (inl v) (inl t)) ;;;
  on_fe (destroy_buf (inl t)) ;;;
  ret (Some v).

Definition oomph_message_new (size allocator_type : Z) : M fort (option nat) :=
  let! _ := get_context in
  if decide (allocator_type = OomphAllocatorHost) then new_message (λ p, make_buffer hw_allocate p 1 size)
  else if HWMALLOC_ENABLE_DEVICE && bool_decide (allocator_type = OomphAllocatorDevice)
  then new_message (λ p, make_device_buffer hw_allocate p 1 size device)
  else terminate.
End memory.

Definition oomph_message_free (message_ref : option nat) : M fort unit :=
  match message_ref with
  | None => ret tt
  | Some x =>
      let! vars := gets mesg_vars in
      let! p := deref (vars !! x) in
      match p with Some v => on_fe (destroy_buf (inl v)) | None => ret tt end ;;;
      modify (λ F, set_mesg_vars (<[x := None]> (mesg_vars F)) F)
  end.

(** [std::memset(data, 0, size)] *)
Definition zero_buf (v : nat) : M fes unit :=
  let! b := read_buf (inl v) in
  let! h := host_alloc b in
  let a := snd h in
  put_alloc (fst h) (Alloc (a_bytes a) (a_user_host a) (a_user_device a) (a_device a)
    (overwrite (m_size b) (λ _, 0%Z) (a_host a)) (a_dev a)).

Definition oomph_message_zero (message : option nat) : M fort unit :=
  match message with None => ret tt | Some v => on_fe (zero_buf v) end.

(** The data pointer and the size, which is also what is stored in [*size]. *)
Definition oomph_message_data_wrapped (message : option nat) : M fort (option positive * Z) :=
  match message with
  | None => ret (None, 0%Z)
  | Some v => let! b := on_fe (read_buf (inl v)) in ret (m_ptr b, m_size b)
  end.

(** ** communicator_bind: callbacks *)

Definition log_fcall (c : fcall) : M fort unit := modify (λ F, set_fcalls (fcalls F ++ [c]) F).

(** [if(cb) cb(&message, rank, tag, user_data);] *)
Definition call_f (c : fclosure) (message : nat) (rank tag : Z) : M fort unit :=
  match f_cb c with
  | Some f => log_fcall (FCall f message rank tag (user_data c))
  | None => ret tt
  end.

Definition callback_call := call_f.
Definition callback_ref_call := call_f.
Definition callback_multi_call (c : fclosure) (message : nat) : M fort unit := call_f c message (-1) (-1).
Definition callback_multi_ref_call (c : fclosure) (message : nat) : M fort unit := call_f c message (-1) (-1).

(** ** communicator_bind: requests *)

(** [new(freq->data) decltype(req)(std::move(req)); freq->recv_request = b;] *)
Definition store_request (freq : option nat) (d : fdata) (b : bool) : M fort unit :=
  let! x := deref freq in
  let! fs := gets freqs in
  let! _ := deref (fs !! x) in
  modify (set_freqs (<[x := FRequest d b]> fs)).

(** [if(!freq) return;] before it *)
Definition store_request_if (freq : option nat) (d : fdata) (b : bool) : M fort unit :=
  match freq with None => ret tt | Some _ => store_request freq d b end.

(** [*message_ref] *)
Definition message_at (message_ref : option nat) : M fort (option nat) :=
  let! x := deref message_ref in
  let! vars := gets mesg_vars in
  deref (vars !! x).

Section posting.
(** Whether the backend accepts the operation *)
Variable accept : bool.

(** The request of the operation that is posted next: its state is made in the pool of
    the communicator. *)
Definition with_request (c : positive) (m : M fes unit) : M fort nat :=
  let! i := gets (λ F, next_op (fe F)) in
  on_fe m ;;;
  modify (λ F, set_rstates (<[i := (c, false)]> (rstates F)) F) ;;;
  ret i.

Definition oomph_comm_post_send (wcomm : option positive) (message : option nat) (rank tag : Z)
    (freq : option nat) : M fort unit :=
  if null message || null wcomm then terminate else
  let! c := get_object_ptr_unsafe wcomm in
  let! v := deref message in
  let! req := with_request c (send v rank tag accept) in
  store_request freq (Fd_send req) false.

Definition oomph_comm_post_send_cb_wrapped (wcomm : option positive) (message : option nat) (rank tag : Z)
    (cb : option nat) (freq : option nat) (ud : option Z) : M fort unit :=
  if null message || null wcomm then terminate else
  let! c := get_object_ptr_unsafe wcomm in
  let! v := deref message in
  let! u := new_closure (FClosure cb ud) in
  let! req := with_request c (send_lref v rank tag u accept) in
  store_request_if freq (Fd_send req) false.

Definition oomph_comm_send_cb_wrapped (wcomm : option positive) (message_ref : option nat) (rank tag : Z)
    (cb : option nat) (freq : option nat) (ud : option Z) : M fort unit :=
  if null message_ref || null wcomm then terminate else
  let! message := message_at message_ref in
  if null message then terminate else
  let! c := get_object_ptr_unsafe wcomm in
  let! v := deref message in
  let! u := new_closure (FClosure cb ud) in
  let! req := with_request c (send_rref v rank tag u accept) in
  let! x := deref message_ref in
  modify (λ F, set_mesg_vars (<[x := None]> (mesg_vars F)) F) ;;;
  store_request_if freq (Fd_send req) false.

Definition oomph_comm_post_recv (wcomm : option positive) (message : option nat) (rank tag : Z)
    (freq : option nat) : M fort unit :=
  if null message || null wcomm then terminate else
  let! c := get_object_ptr_unsafe wcomm in
  let! v := deref message in
  let! req := with_request c (recv v rank tag accept) in
  store_request freq (Fd_recv req) true.

Definition oomph_comm_post_recv_cb_wrapped (wcomm : option positive) (message : option nat) (rank tag : Z)
    (cb : option nat) (freq : option nat) (ud : option Z) : M fort unit :=
  if null message || null wcomm then terminate else
  let! c := get_object_ptr_unsafe wcomm in
  let! v := deref message in
  let! u := new_closure (FClosure cb ud) in
  let! req := with_request c (recv_lref v rank tag u accept) in
  store_request_if freq (Fd_recv req) true.

Definition oomph_comm_recv_cb_wrapped (wcomm : option positive) (message_ref : option nat) (rank tag : Z)
    (cb : option nat) (freq : option nat) (ud : option Z) : M fort unit :=
  if null message_ref || null wcomm then terminate else
  let! message := message_at message_ref in
  if null message then terminate else
  let! c := get_object_ptr_unsafe wcomm in
  let! v := deref message in
  let! u := new_closure (FClosure cb ud) in
  let! req := with_request c (recv_rref v rank tag u accept) in
  let! x := deref message_ref in
  modify (λ F, set_mesg_vars (<[x := None]> (mesg_vars F)) F) ;;;
  store_request_if freq (Fd_recv req) true.

Definition oomph_comm_resubmit_recv_wrapped (wcomm : option positive) (message : option nat) (rank tag : Z)
    (cb : option nat) (freq : option nat) (ud : option Z) : M fort unit :=
  if null message || null wcomm then terminate else
  let! c := get_object_ptr_unsafe wcomm in
  let! v := deref message in
  let! u := new_closure (FClosure cb ud) in
  let! req := with_request c (recv_rref v rank tag u accept) in
  store_request_if freq (Fd_recv req) true.
End posting.

(** ** Sends to many neighbours *)

(** [std::vector<int> a(n); a.assign(p, p+n);]: the array that [p] points to has the
    elements [arr]. *)
Definition read_array (arr : list Z) (n : Z) : M fort (list Z) :=
  if decide (n < 0)%Z then throw (logic_error "vector")
  else if decide (n ≤ Z.of_nat (length arr))%Z then ret (take (Z.to_nat n) arr)
  else stop undefined_behaviour.

(** The buffer as SendMulti.v sees it *)
Definition address (v : nat) : positive := Pos.of_succ_nat v.
Definition multi_view (v : nat) (b : mbuf) : SendMulti.message_buffer :=
  SendMulti.MessageBuffer (address v) (if is_set b then m_heap_ptr b else None) (m_size b) (elem b).
Definition view_of (v : nat) : M fort SendMulti.message_buffer :=
  let! b := on_fe (read_buf (inl v)) in ret (multi_view v b).

(** A call that a lambda of [send_multi] makes reaches the Fortran function: with the
    message out of the request state, or with the message of the caller. *)
Definition deliver (c : user_call) : M fort unit :=
  let! cs := gets closures in
  let! cl := deref (cs !! uc_callback c) in
  match uc_msg c with
  | Owned _ _ => let! ms := gets mrs_msg in let! v := deref (ms !! uc_mrs c) in callback_multi_call cl v
  | Reference a => let! p := deref a in callback_multi_ref_call cl (pred (Pos.to_nat p))
  end.

(** Something happens to the sends, and the calls it makes are delivered. *)
Definition with_calls {A} (m : M SendMulti.state A) : M fort A :=
  let! n := gets (λ F, length (user_calls (mu F))) in
  let! a := on_mu m in
  let! l := gets (λ F, drop n (user_calls (mu F))) in
  mfor l deliver ;;;
  ret a.

Definition oomph_comm_post_send_multi_wrapped (wcomm : option positive) (message : option nat) (ranks : list Z)
    (nranks : Z) (tags : list Z) (freq : option nat) : M fort unit :=
  if null message || null wcomm then terminate else
  let! _ := get_object_ptr_unsafe wcomm in
  let! ranks_array := read_array ranks nranks in
  let! tags_array := read_array tags nranks in
  let! v := deref message in
  let! msg := view_of v in
  let! req := with_calls (send_multi msg ranks_array (inr tags_array)) in
  store_request freq (Fd_multi req) false.

Definition oomph_comm_post_send_multi_cb_wrapped (wcomm : option positive) (message : option nat) (ranks : list Z)
    (nranks : Z) (tags : list Z) (cb : option nat) (freq : option nat) (ud : option Z) : M fort unit :=
  if null message || null wcomm then terminate else
  let! _ := get_object_ptr_unsafe wcomm in
  let! ranks_array := read_array ranks nranks in
  let! tags_array := read_array tags nranks in
  let! v := deref message in
  let! msg := view_of v in
  let! u := new_closure (FClosure cb ud) in
  let! req := with_calls (send_multi_tags_cb Lref msg ranks_array tags_array u) in
  store_request_if freq (Fd_multi req) false.

(** The message moves into the request state that is made next. *)
Definition oomph_comm_send_multi_cb_wrapped (wcomm : option positive) (message_ref : option nat) (ranks : list Z)
    (nranks : Z) (tags : list Z) (cb : option nat) (freq : option nat) (ud : option Z) : M fort unit :=
  if null message_ref || null wcomm then terminate else
  let! message := message_at message_ref in
  if null message then terminate else
  let! _ := get_object_ptr_unsafe wcomm in
  let! ranks_array := read_array ranks nranks in
  let! tags_array := read_array tags nranks in
  let! v := deref message in
  let! msg := view_of v in
  let! u := new_closure (FClosure cb ud) in
  cassert (bool_decide (is_Some (mb_heap_ptr msg))) ;;;
  let! m := gets (λ F, SendMulti.fresh (mu F)) in
  let! k := new_obj in
  on_fe (construct_move (inl k) (inl v)) ;;;
  modify (λ F, set_mrs_msg (<[m := k]> (mrs_msg F)) F) ;;;
  let! req := with_calls (send_multi_tags_cb Rref msg ranks_array tags_array u) in
  let! x := deref message_ref in
  modify (λ F, set_mesg_vars (<[x := None]> (mesg_vars F)) F) ;;;
  store_request_if freq (Fd_multi req) false.

(** ** request_bind *)

(** [is_ready()] of a request state; the state must exist. *)
Definition state_is_ready (i : nat) : M fort bool :=
  let! ss := gets rstates in
  let! st := deref (ss !! i) in
  ret (snd st).
(** [traits::store(m_ready, true)] in [invoke_cb] and in [set_canceled] *)
Definition set_ready (i : nat) : M fort unit :=
  let! ss := gets rstates in
  let! st := deref (ss !! i) in
  modify (set_rstates (<[i := (fst st, true)]> ss)).

(** [reinterpret_cast<send_request*>(freq->data)] and the same for [recv_request]: the
    operation, or none for a null pointer.  Bytes that are not such a request must not be
    used as one. *)
Definition as_send (q : frequest) : M fort (option nat) :=
  match data q with Fd_send i => ret (Some i) | Fd_zero => ret None | _ => stop undefined_behaviour end.
Definition as_recv (q : frequest) : M fort (option nat) :=
  match data q with Fd_recv i => ret (Some i) | Fd_zero => ret None | _ => stop undefined_behaviour end.

Definition read_freq (freq : option nat) : M fort frequest :=
  let! x := deref freq in let! fs := gets freqs in deref (fs !! x).

(** [is_ready()], [test()], [wait()] of send_request and of recv_request, which are the
    same code *)
Definition req_ready (m : option nat) : M fort bool :=
  match m with None => ret true | Some i => state_is_ready i end.

Section progress.
(** [m->progress()] *)
Variable prog : M fort unit.

Definition req_test (m : option nat) : M fort bool :=
  match m with
  | None => ret true
  | Some i =>
      let! r := state_is_ready i in
      if r : bool then ret true else prog ;;; state_is_ready i
  end.

Fixpoint req_wait (fuel : nat) (m : option nat) : M fort unit :=
  match m with
  | None => ret tt
  | Some i =>
      let! r := state_is_ready i in
      if r : bool then ret tt
      else match fuel with O => stop out_of_fuel | S fuel => prog ;;; req_wait fuel m end
  end.

(** [m->cancel()]: the backend cancels the operation, and calls [set_canceled], or not. *)
Definition req_cancel (backend : bool) (m : option nat) : M fort bool :=
  match m with
  | None => ret false
  | Some i =>
      let! r := state_is_ready i in
      if r : bool then ret false
      else if backend then on_fe (cancel i) ;;; set_ready i ;;; ret true else ret false
  end.

Definition oomph_request_test (freq : option nat) : M fort bool :=
  let! q := read_freq freq in
  if recv_request q then let! m := as_recv q in req_test m else let! m := as_send q in req_test m.

Definition oomph_request_ready (freq : option nat) : M fort bool :=
  let! q := read_freq freq in
  if recv_request q then let! m := as_recv q in req_ready m else let! m := as_send q in req_ready m.

Definition oomph_request_wait (fuel : nat) (freq : option nat) : M fort unit :=
  let! q := read_freq freq in
  if recv_request q then let! m := as_recv q in req_wait fuel m else let! m := as_send q in req_wait fuel m.

Definition oomph_request_cancel (backend : bool) (freq : option nat) : M fort bool :=
  let! q := read_freq freq in
  if recv_request q then let! m := as_recv q in req_cancel backend m else ret false.
End progress.

(** ** The backend *)

(** Operation [i] completes: [invoke_cb] of its request state calls the callback, with a
    parameter that takes the message over, or with a reference to the message; the state
    becomes ready when the callback has returned. *)
Definition fort_complete (i : nat) (r t : Z) : M fort unit :=
  let! _ := state_is_ready i in
  let! o := gets (λ F, ops (fe F) !! i) in
  let! o := deref o in
  let! cs := gets closures in
  match o_cb o with
  | Cb_none _ => on_fe (complete i r t None) ;;; set_ready i
  | Cb_rref u =>
      let! c := deref (cs !! u) in
      let! v := new_obj in
      on_fe (complete i r t (Some v)) ;;;
      modify (λ F, set_running (<[i := Some v]> (running F)) F) ;;;
      callback_call c v r t
  | Cb_lref u v | Cb_lref_const u v =>
      let! c := deref (cs !! u) in
      on_fe (complete i r t None) ;;;
      modify (λ F, set_running (<[i := None]> (running F)) F) ;;;
      callback_ref_call c v r t
  end.

(** The callback of operation [i] returns. *)
Definition fort_return (i : nat) : M fort unit :=
  let! rs := gets running in
  let! p := deref (rs !! i) in
  match p with Some v => on_fe (destroy_buf (inl v)) | None => ret tt end ;;;
  modify (λ F, set_running (delete i (running F)) F) ;;;
  set_ready i.
