(* ===== verification/FortranInv.v ===== *)
(** * Fortran programs

    What a program does with the bindings, the contract it keeps, and the invariant of
    the objects behind its pointers: message objects, callbacks that run, and the
    requests in the structures of the program. *)
From S2P Require Import SendMulti.
From S2P Require Import Prelude MsgBuffer MsgBufferInv MsgBufferApi MsgFrame Fortran.

(** ** Which variables exist *)

(** Outside of [X] the same objects exist. *)
Definition vars_within (X : gset nat) (s s' : fes) : Prop :=
  ∀ k, k ∉ X → is_Some (bufs s' !! inl k) ↔ is_Some (bufs s !! inl k).
(** No object disappears. *)
Definition vars_grow (s s' : fes) : Prop := ∀ k, is_Some (bufs s !! inl k) → is_Some (bufs s' !! inl k).

#[export] Instance vars_within_preorder X : PreOrder (vars_within X).
Proof. split; [done|]. intros s1 s2 s3 H1 H2 k Hk. by rewrite (H2 k Hk), (H1 k Hk). Qed.
#[export] Instance vars_grow_preorder : PreOrder vars_grow.
Proof. split; [by intros s k|]. intros s1 s2 s3 H1 H2 k Hk. auto. Qed.

(** What does not concern the table of buffers is in both relations. *)
Definition same_bufs (s s' : fes) : Prop := bufs s' = bufs s.

Lemma same_bufs_within X s s' : same_bufs s s' → vars_within X s s'.
Proof. intros E k _. by rewrite E. Qed.
Lemma same_bufs_grow s s' : same_bufs s s' → vars_grow s s'.
Proof. intros E k. by rewrite E. Qed.

Lemma respects_mono {A} (R R' : fes → fes → Prop) (m : M fes A) :
  (∀ s s', R s s' → R' s s') → respects R m → respects R' m.
Proof. intros HR Hm s. apply HR, Hm. Qed.

Section basic.
Ltac same := intros ?; repeat case_match; simplify_eq/=; done.

Lemma same_read_buf p : respects same_bufs (read_buf p).
Proof. unfold read_buf. same. Qed.
Lemma same_impl_m h : respects same_bufs (impl_m h).
Proof. unfold impl_m. same. Qed.
Lemma same_delete_impl h : respects same_bufs (delete_impl h).
Proof. unfold delete_impl. same. Qed.
Lemma same_new_impl a : respects same_bufs (new_impl a).
Proof. by intros s. Qed.
Lemma same_heap_allocate hw n u d : respects same_bufs (heap_allocate hw n u d).
Proof. unfold heap_allocate. same. Qed.
Lemma same_host_alloc b : respects same_bufs (host_alloc b).
Proof. unfold host_alloc. same. Qed.
Lemma same_put_alloc a x : respects same_bufs (put_alloc a x).
Proof. by intros s. Qed.
Lemma same_take_op i : respects same_bufs (take_op i).
Proof. unfold take_op. same. Qed.
Lemma same_log_call c : respects same_bufs (log_call c).
Proof. by intros s. Qed.
Lemma same_release_buf b : respects same_bufs (release_buf b).
Proof.
  unfold release_buf, release_impl. destruct (is_set b); [|by intros s]. intros s. unfold bnd.
  pose proof (same_impl_m (m_heap_ptr b) s) as H. destruct (impl_m _ s) as [[[a|]| |] s']; cbn in *; try done.
  destruct (allocs s' !! a); done.
Qed.
End basic.
#[export] Hint Resolve same_read_buf same_impl_m same_delete_impl same_new_impl same_heap_allocate
  same_host_alloc same_put_alloc same_take_op same_log_call same_release_buf : frame.

(** A relation that contains [same_bufs], and writes to the places in [ok]. *)
Section vars.
Context (R : fes → fes → Prop) `{!PreOrder R} (ok : place → Prop).
Hypothesis Hsame : ∀ s s', same_bufs s s' → R s s'.
Hypothesis Hwrite : ∀ p b, ok p → respects R (write_buf p b).

Lemma lift_same {A} (m : M fes A) : respects same_bufs m → respects R m.
Proof. by apply respects_mono. Qed.

Ltac vars := repeat (match goal with |- respects _ (bnd _ _) => apply respects_bnd; [apply _| |intros ?] end);
  try (apply lift_same; solve [eauto with frame | by intros ?]); try by apply Hwrite.

Lemma vars_construct_move p q : ok p → ok q → respects R (construct_move p q).
Proof. intros. unfold construct_move, move_construct. vars. Qed.

Lemma vars_construct_ptr p a n e : ok p → respects R (construct_ptr p a n e).
Proof. intros. unfold construct_ptr. vars. Qed.

Lemma vars_make hw p n u d e k : ok p → respects R (let! a := heap_allocate hw n u d in construct_ptr p a k e).
Proof. intros. vars. by apply vars_construct_ptr. Qed.

Lemma vars_destroy p : (∀ s, R s (set_bufs (delete p (bufs s)) s)) → respects R (destroy_buf p).
Proof. intros Hd. unfold destroy_buf. vars. by apply respects_modify. Qed.

Lemma vars_submit k h n r t cb accept :
  (∀ i s, R s (set_bufs (delete (inr i) (bufs s)) s)) → respects R (submit k h n r t cb accept).
Proof.
  intros Hd. unfold submit. apply respects_bnd; [apply _|by apply lift_same; intros ?|]. intros i.
  apply respects_on_exception; [apply _|vars|destruct cb; [by apply lift_same; intros ?|by apply vars_destroy|by apply lift_same; intros ?..]].
  destruct a; [destruct accept|]; by apply lift_same; intros ?.
Qed.

Lemma vars_post_ref k v cb r t accept :
  (∀ i s, R s (set_bufs (delete (inr i) (bufs s)) s)) →
  respects R (let! msg := read_buf (inl v) in cassert (is_set msg) ;;;
              submit k (m_heap_ptr msg) (byte_size msg) r t cb accept).
Proof. intros Hd. vars; [by destruct (is_set a); apply lift_same; intros ?|by apply vars_submit]. Qed.

Lemma vars_post_rref k v cb r t accept :
  (∀ i s, R s (set_bufs (delete (inr i) (bufs s)) s)) → ok (inl v) → (∀ i, ok (inr i)) →
  respects R (post_rref (submit k) v r t cb accept).
Proof.
  intros Hd Hv Hi. unfold post_rref. vars.
  - by destruct (is_set a); apply lift_same; intros ?.
  - by apply vars_construct_move.
  - by apply vars_submit.
Qed.

Lemma vars_complete i r t keep :
  (∀ i s, R s (set_bufs (delete (inr i) (bufs s)) s)) → (∀ v, keep = Some v → ok (inl v)) → (∀ i, ok (inr i)) →
  respects R (complete i r t keep).
Proof.
  intros Hd Hv Hi. unfold complete, invoke, keep_or_drop. vars. destruct (o_cb a); vars.
  - destruct keep; [|by apply lift_same; intros ?]. apply vars_construct_move; auto.
  - by apply vars_destroy.
Qed.
End vars.

Lemma within_delete_closure X i s : vars_within X s (set_bufs (delete (inr i) (bufs s)) s).
Proof. intros k _. cbn. by rewrite lookup_delete_ne. Qed.
Lemma grow_delete_closure i s : vars_grow s (set_bufs (delete (inr i) (bufs s)) s).
Proof. intros k. cbn. by rewrite lookup_delete_ne. Qed.
Lemma within_write X p b : (∀ k, p = inl k → k ∈ X) → respects (vars_within X) (write_buf p b).
Proof. intros Hp s k Hk. cbn. rewrite lookup_insert_ne; [done|]. intros ->. by apply Hk, Hp. Qed.
Lemma grow_write p b : respects vars_grow (write_buf p b).
Proof. intros s k Hk. cbn. apply lookup_insert_is_Some. destruct (decide (p = inl k)); auto. Qed.

(** The places a computation may write to, for [vars_within X] *)
Definition inside (X : gset nat) (p : place) : Prop := ∀ k, p = inl k → k ∈ X.
Lemma inside_closure X i : inside X (inr i).
Proof. by intros k. Qed.
Lemma inside_var X v : v ∈ X → inside X (inl v).
Proof. by intros Hv k [= <-]. Qed.

(** ** Programs *)

Inductive fop : Type :=
| F_init (n : Z)
| F_finalize
| F_get_communicator (c : nat)
| F_obj_free (c : nat)
| F_message_new (x : nat) (size allocator_type : Z)
| F_message_free (x : nat)
| F_message_zero (message : option nat)
| F_post_send (wcomm : option positive) (message : option nat) (rank tag : Z) (freq : nat) (accept : bool)
| F_post_send_cb (wcomm : option positive) (message : option nat) (rank tag : Z) (cb : option nat)
    (freq : option nat) (ud : option Z) (accept : bool)
| F_send_cb (wcomm : option positive) (x : nat) (rank tag : Z) (cb : option nat)
    (freq : option nat) (ud : option Z) (accept : bool)
| F_post_recv (wcomm : option positive) (message : option nat) (rank tag : Z) (freq : nat) (accept : bool)
| F_post_recv_cb (wcomm : option positive) (message : option nat) (rank tag : Z) (cb : option nat)
    (freq : option nat) (ud : option Z) (accept : bool)
| F_recv_cb (wcomm : option positive) (x : nat) (rank tag : Z) (cb : option nat)
    (freq : option nat) (ud : option Z) (accept : bool)
| F_resubmit_recv (wcomm : option positive) (message : option nat) (rank tag : Z) (cb : option nat)
    (freq : option nat) (ud : option Z) (accept : bool)
| F_ready (freq : nat)
| F_cancel (freq : nat) (backend : bool)
| F_complete (i : nat) (r t : Z)
| F_return (i : nat).

Section programs.
Context (hw : gmap positive alloc → Z → option positive) (dev_enabled : bool) (device : Z).

Definition run_fop (o : fop) : M fort unit :=
  match o with
  | F_init n => oomph_init n
  | F_finalize => oomph_finalize
  | F_get_communicator c =>
      let! w := oomph_get_communicator in modify (λ F, set_comm_vars (<[c := w]> (comm_vars F)) F)
  | F_obj_free c => oomph_obj_free (Some c)
  | F_message_new x size a =>
      let! p := oomph_message_new hw dev_enabled device size a in
      modify (λ F, set_mesg_vars (<[x := p]> (mesg_vars F)) F)
  | F_message_free x => oomph_message_free (Some x)
  | F_message_zero m => oomph_message_zero m
  | F_post_send w m r t f a => oomph_comm_post_send a w m r t (Some f)
  | F_post_send_cb w m r t cb f ud a => oomph_comm_post_send_cb_wrapped a w m r t cb f ud
  | F_send_cb w x r t cb f ud a => oomph_comm_send_cb_wrapped a w (Some x) r t cb f ud
  | F_post_recv w m r t f a => oomph_comm_post_recv a w m r t (Some f)
  | F_post_recv_cb w m r t cb f ud a => oomph_comm_post_recv_cb_wrapped a w m r t cb f ud
  | F_recv_cb w x r t cb f ud a => oomph_comm_recv_cb_wrapped a w (Some x) r t cb f ud
  | F_resubmit_recv w m r t cb f ud a => oomph_comm_resubmit_recv_wrapped a w m r t cb f ud
  | F_ready f => oomph_request_ready (Some f) ;;; ret tt
  | F_cancel f b => oomph_request_cancel b (Some f) ;;; ret tt
  | F_complete i r t => fort_complete i r t
  | F_return i => fort_return i
  end.

(** A message object that nothing in flight refers to, and that no callback has as its
    parameter. *)
Definition free_object (v : nat) (F : fort) : Prop :=
  is_Some (bufs (fe F) !! inl v) ∧ unpinned (inl v) (fe F).
Definition is_parameter (v : nat) (F : fort) : Prop := Some v ∈ (map_to_list (running F)).*2.

Definition valid_ptr (m : option nat) (F : fort) : Prop :=
  match m with Some v => is_Some (bufs (fe F) !! inl v) | None => True end.
Definition valid_comm (w : option positive) (F : fort) : Prop :=
  match w with Some w => w ∈ wrappers F | None => True end.
Definition valid_freq (f : option nat) (F : fort) : Prop :=
  match f with Some x => is_Some (freqs F !! x) | None => True end.
Definition valid_global (p : option positive) (live : gset positive) : Prop :=
  match p with Some c => c ∈ live | None => False end.

(** The object a variable of the program points to may be given away. *)
Definition movable (m : option nat) (F : fort) : Prop :=
  match m with Some v => free_object v F | None => True end.
Definition deletable (m : option nat) (F : fort) : Prop :=
  match m with Some v => free_object v F ∧ ¬ is_parameter v F | None => True end.
Definition var_is (P : option nat → fort → Prop) (x : nat) (F : fort) : Prop :=
  match mesg_vars F !! x with Some m => P m F | None => False end.

(** Bytes that are not a request yet *)
Definition is_raw (q : frequest) : bool := match data q with Fd_raw => true | _ => false end.

(** The state of the request in the structure [f] exists: its communicator has not been
    freed. *)
Definition request_of (q : frequest) : option nat :=
  match data q with Fd_send i | Fd_recv i => Some i | _ => None end.
Definition usable (f : nat) (F : fort) : Prop :=
  match freqs F !! f with
  | Some q => is_raw q = false ∧ match request_of q with Some i => is_Some (rstates F !! i) | None => True end
  | None => False
  end.
(** Every operation of the communicator [w] is over. *)
Definition no_requests (w : positive) (F : fort) : Prop := map_Forall (λ _ st, st.1 = w → st.2 = true) (rstates F).
(** No message has memory. *)
Definition no_memory (F : fort) : Prop := map_Forall (λ _ b, m_ptr b = None ∧ m_heap_ptr b = None) (bufs (fe F)).

(** The contract: pointers are null or point to objects that exist; there is one context at
    a time, it exists where it is needed, and it is finalized after its communicators have
    been freed and its messages freed or given away; a communicator is freed when its
    operations are over; a message that is given away or freed is not in use; a message
    that is zeroed is set; a request structure is used after it has been posted to or
    initialised, and before the communicator is freed; the backend cancels what is in
    flight. *)
Definition fallowed (o : fop) (F : fort) : Prop :=
  match o with
  | F_init _ => contexts F = ∅
  | F_finalize => valid_global (oomph_context F) (contexts F) ∧ valid_global (oomph_barrier_obj F) (barriers F) ∧
      wrappers F = ∅ ∧ no_memory F
  | F_get_communicator _ | F_message_new _ _ _ => valid_global (oomph_context F) (contexts F)
  | F_obj_free c =>
      match comm_vars F !! c with
      | Some w => valid_comm w F ∧ match w with Some w => no_requests w F | None => True end
      | None => False
      end
  | F_message_free x => var_is deletable x F
  | F_message_zero m =>
      match m with Some v => is_Some (bufs (fe F) !! inl v ≫= m_ptr) | None => True end
  | F_post_send w m _ _ f _ | F_post_recv w m _ _ f _ =>
      valid_comm w F ∧ valid_ptr m F ∧ is_Some (freqs F !! f)
  | F_post_send_cb w m _ _ _ f _ _ | F_post_recv_cb w m _ _ _ f _ _ =>
      valid_comm w F ∧ valid_ptr m F ∧ valid_freq f F
  | F_send_cb w x _ _ _ f _ _ | F_recv_cb w x _ _ _ f _ _ =>
      valid_comm w F ∧ var_is movable x F ∧ valid_freq f F
  | F_resubmit_recv w m _ _ _ f _ _ => valid_comm w F ∧ movable m F ∧ valid_freq f F
  | F_ready f => usable f F
  | F_cancel f b =>
      usable f F ∧
      match freqs F !! f with
      | Some (FRequest (Fd_recv i) _) => b = true → running F !! i = None
      | _ => True
      end
  | F_complete i _ _ => is_Some (ops (fe F) !! i)
  | F_return i =>
      match running F !! i with
      | Some (Some v) => unpinned (inl v) (fe F)
      | Some None => True
      | None => False
      end
  end.

#[export] Instance is_parameter_dec v F : Decision (is_parameter v F).
Proof. unfold is_parameter. apply _. Defined.
#[export] Instance free_object_dec v F : Decision (free_object v F).
Proof. unfold free_object. apply _. Defined.
#[export] Instance valid_ptr_dec m F : Decision (valid_ptr m F).
Proof. unfold valid_ptr. destruct m; apply _. Defined.
#[export] Instance valid_comm_dec w F : Decision (valid_comm w F).
Proof. unfold valid_comm. destruct w; apply _. Defined.
#[export] Instance valid_freq_dec f F : Decision (valid_freq f F).
Proof. unfold valid_freq. destruct f; apply _. Defined.
#[export] Instance valid_global_dec p s : Decision (valid_global p s).
Proof. unfold valid_global. destruct p; apply _. Defined.
#[export] Instance movable_dec m F : Decision (movable m F).
Proof. unfold movable. destruct m; apply _. Defined.
#[export] Instance deletable_dec m F : Decision (deletable m F).
Proof. unfold deletable. destruct m; apply _. Defined.
#[export] Instance var_is_dec P x F : (∀ m F, Decision (P m F)) → Decision (var_is P x F).
Proof. unfold var_is. destruct (mesg_vars F !! x); apply _. Defined.
#[export] Instance usable_dec f F : Decision (usable f F).
Proof. unfold usable. destruct (freqs F !! f) as [q|]; [destruct (request_of q)|]; apply _. Defined.
#[export] Instance no_requests_dec w F : Decision (no_requests w F).
Proof. unfold no_requests. apply _. Defined.
#[export] Instance no_memory_dec F : Decision (no_memory F).
Proof. unfold no_memory. apply _. Defined.
#[export] Instance fallowed_dec o F : Decision (fallowed o F).
Proof. destruct o; cbn; repeat case_match; apply _. Defined.

(** A program that keeps the contract goes on after an exception. *)
Fixpoint run_fops (l : list fop) (F : fort) : option (outcome unit * fort) :=
  match l with
  | [] => Some (Ret tt, F)
  | o :: l =>
      if decide (fallowed o F) then
        match run_fop o F with (Halt h, F') => Some (Halt h, F') | (_, F') => run_fops l F' end
      else None
  end.
End programs.

(** Nothing has happened; the program has declared its request structures. *)
Definition init_fort (fs : gmap nat frequest) (inline : list bool) : fort :=
  Fort init_fes (SendMulti.State ∅ 1 [] [] [] inline) 0 [] [] ∅ ∅ ∅ ∅ ∅ ∅ fs None ∅ None ∅ 1.
Definition undeclared (fs : gmap nat frequest) : Prop :=
  map_Forall (λ _ q, data q = Fd_raw ∨ data q = Fd_zero) fs.

(** ** Invariant *)

(** The flag says which of the two request types the bytes hold. *)
Definition typed (q : frequest) : Prop :=
  match data q with
  | Fd_raw | Fd_zero => True
  | Fd_send _ => recv_request q = false
  | Fd_recv _ => recv_request q = true
  | Fd_multi _ => False
  end.

Definition closure_ok (n : nat) (cb : fcb) : Prop :=
  match cb with Cb_none _ => True | Cb_rref u | Cb_lref u _ | Cb_lref_const u _ => u < n end.

(** An operation is over when it is neither in flight nor in its callback. *)
Definition op_over (F : fort) (i : nat) : bool :=
  bool_decide (ops (fe F) !! i = None ∧ running F !! i = None).

(** The objects of the front end and the callbacks *)
Record fort_core (F : fort) : Prop := {
  fo_fe : fe_inv None (fe F);
  fo_obj v : is_Some (bufs (fe F) !! inl v) → v < next_obj F;
  fo_closure i o : ops (fe F) !! i = Some o → closure_ok (length (closures F)) (o_cb o);
  fo_running i p : running F !! i = Some p → i < next_op (fe F) ∧ ops (fe F) !! i = None;
  fo_param i v : running F !! i = Some (Some v) → is_Some (bufs (fe F) !! inl v);
  fo_param_inj i j v : running F !! i = Some (Some v) → running F !! j = Some (Some v) → i = j;
  fo_freq x q : freqs F !! x = Some q → typed q
}.

(** The request states: they live as long as their communicator, [m_ready] is right, and
    an operation that is not over has one. *)
Record states_ok (F : fort) : Prop := {
  so_state i c b : rstates F !! i = Some (c, b) → c ∈ wrappers F ∧ b = op_over F i;
  so_flight i : op_over F i = false → is_Some (rstates F !! i)
}.

Record fort_inv (F : fort) : Prop := {
  fo_core : fort_core F;
  fo_states : states_ok F
}.

Coercion fo_core : fort_inv >-> fort_core.

Lemma init_fort_inv fs inline : undeclared fs → fort_inv (init_fort fs inline).
Proof.
  intros Hf. split; split; cbn; try done; [apply fe_init_inv|..].
  - by intros v [x Hx].
  - intros x q Hq. unfold typed. by destruct (Hf x q Hq) as [-> | ->].
Qed.

(** ** Keeping the invariant *)

(** The program stops only by a failed assertion or by [std::terminate], and what it
    leaves behind is in order. *)
Definition fsafe {A} (m : M fort A) (Q : A → fort → Prop) (F : fort) : Prop :=
  match m F with
  | (Ret a, F') => Q a F'
  | (Throw _, F') => fort_inv F'
  | (Halt h, _) => h = assert_failed ∨ h = terminated
  end.

Section fsafe.
Implicit Types F : fort.

Lemma fsafe_bnd {A B} (m : M fort A) (k : A → M fort B) Q F :
  fsafe m (λ a, fsafe (k a) Q) F → fsafe (bnd m k) Q F.
Proof. unfold fsafe at 1 3, bnd. by destruct (m F) as [[a|e|h] F']. Qed.

Lemma fsafe_mono {A} (m : M fort A) (P Q : A → fort → Prop) F :
  fsafe m P F → (∀ a F', P a F' → Q a F') → fsafe m Q F.
Proof. unfold fsafe. destruct (m F) as [[a|e|h] F']; auto. Qed.

Lemma fsafe_ret {A} (a : A) (Q : A → fort → Prop) F : Q a F → fsafe (ret a) Q F.
Proof. done. Qed.
Lemma fsafe_gets {A} (f : fort → A) (Q : A → fort → Prop) F : Q (f F) F → fsafe (gets f) Q F.
Proof. done. Qed.
Lemma fsafe_modify f (Q : unit → fort → Prop) F : Q tt (f F) → fsafe (modify f) Q F.
Proof. done. Qed.
Lemma fsafe_deref {A} (o : option A) a (Q : A → fort → Prop) F : o = Some a → Q a F → fsafe (deref o) Q F.
Proof. by intros ->. Qed.

(** Operations are posted with callbacks that exist, or are over. *)
Record ops_move F (s : fes) : Prop := {
  om_next : next_op (fe F) ≤ next_op s;
  om_new i o : ops s !! i = Some o → ops (fe F) !! i = Some o ∨ closure_ok (length (closures F)) (o_cb o);
  om_over i : i < next_op (fe F) → ops (fe F) !! i = None → ops s !! i = None
}.

Lemma new_op_moves F s o :
  ops s = <[next_op (fe F) := o]> (ops (fe F)) → next_op s = S (next_op (fe F)) →
  closure_ok (length (closures F)) (o_cb o) → ops_move F s.
Proof.
  intros E En Ho. split; rewrite ?En, ?E; [lia|..].
  - intros i o' [[_ <-]|[_ Hi]]%lookup_insert_Some; [by right|by left].
  - intros i Hi Hn. rewrite lookup_insert_ne by lia. done.
Qed.

Lemma same_ops_moves F s : same_ops (fe F) s → ops_move F s.
Proof. intros [E En]. split; rewrite ?En, ?E; auto. Qed.

Lemma delete_moves F s i : ops s = delete i (ops (fe F)) → next_op s = next_op (fe F) → ops_move F s.
Proof.
  intros E En. split; rewrite ?E, ?En; [done|..].
  - intros j o [_ Hj]%lookup_delete_Some. by left.
  - intros j _ Hj. apply lookup_delete_None. by right.
Qed.

(** The state of the front end changes; the rest stays. *)
Lemma fe_changes F s X :
  fort_core F → fe_inv None s → vars_within X (fe F) s → (∀ v, v ∈ X → v < next_obj F) →
  (∀ v, v ∈ X → is_Some (bufs s !! inl v) ∨ ¬ is_parameter v F) → ops_move F s →
  fort_core (set_fe s F).
Proof.
  intros [H1 H2 H3 H4 H5 H6 H7] HI Hw HX Hp [On Oc Oo]. split; cbn; try done.
  - intros v Hv. destruct (decide (v ∈ X)) as [Hx|Hx]; [by apply HX|]. apply H2. by apply (Hw v Hx).
  - intros i o [Hi|Hi]%Oc; [by eapply H3|done].
  - intros i p Hi. destruct (H4 _ _ Hi) as [Hlt Hn]. split; [lia|by apply Oo].
  - intros i v Hi. destruct (decide (v ∈ X)) as [Hx|Hx]; [|apply (Hw v Hx); by eapply H5].
    destruct (Hp v Hx) as [?|Hn]; [done|]. destruct Hn. unfold is_parameter. apply list_elem_of_fmap.
    exists (i, Some v). split; [done|]. by apply elem_of_map_to_list.
Qed.

(** Changes that leave everything the invariant speaks of. *)
Lemma same_core F F' :
  fort_core F → fe F' = fe F → next_obj F' = next_obj F → closures F' = closures F → running F' = running F →
  freqs F' = freqs F → fort_core F'.
Proof. intros [H1 H2 H3 H4 H5 H6 H7] E1 E2 E3 E4 E5. split; rewrite ?E1, ?E2, ?E3, ?E4, ?E5; done. Qed.

(** The operations that are not over, and the states, stay the same. *)
Lemma same_states F F' :
  states_ok F → ops (fe F') = ops (fe F) → running F' = running F → rstates F' = rstates F →
  wrappers F ⊆ wrappers F' → states_ok F'.
Proof.
  intros [H1 H2] E1 E2 E3 Hw. assert (∀ i, op_over F' i = op_over F i) as Eo.
  { intros i. unfold op_over. by rewrite E1, E2. }
  split; rewrite ?E3; intros i *; rewrite Eo; [|by apply H2].
  intros [Hc Hb]%H1. split; [set_solver|done].
Qed.

Lemma same_inv F F' :
  fort_inv F → fe F' = fe F → next_obj F' = next_obj F → closures F' = closures F → running F' = running F →
  freqs F' = freqs F → rstates F' = rstates F → wrappers F ⊆ wrappers F' → fort_inv F'.
Proof.
  intros [Hc Hs] E1 E2 E3 E4 E5 E6 Hw. split; [by eapply same_core|].
  eapply same_states; [exact Hs|by rewrite E1|done..].
Qed.

Lemma new_obj_inv F : fort_inv F → fort_inv (set_next_obj (S (next_obj F)) F).
Proof.
  intros [[H1 H2 H3 H4 H5 H6 H7] Hs]. split; [|by eapply same_states].
  split; cbn; try done. intros v ?%H2. lia.
Qed.

Lemma fort_new_closure_inv F c : fort_inv F → fort_inv (set_closures (closures F ++ [c]) F).
Proof.
  intros [[H1 H2 H3 H4 H5 H6 H7] Hs]. split; [|by eapply same_states]. split; cbn; try done.
  intros i o Ho. specialize (H3 i o Ho).
  rewrite length_app. cbn. unfold closure_ok in *. destruct (o_cb o); lia.
Qed.

Lemma freq_inv F x q : fort_inv F → typed q → fort_inv (set_freqs (<[x := q]> (freqs F)) F).
Proof.
  intros [[H1 H2 H3 H4 H5 H6 H7] Hs] Hq. split; [|by eapply same_states]. split; cbn; try done. intros y p Hy.
  apply lookup_insert_Some in Hy as [[_ <-]|[_ Hy]]; [done|by eapply H7].
Qed.

(** *** Computations of the front end as steps of the whole *)

(** One that keeps its invariant; it may change the operations only if it returns. *)
Lemma fsafe_on_fe X (m : M fes unit) (Q : unit → fort → Prop) F :
  fort_inv F → steps_ok m (fe F) → respects (vars_within X) m → (∀ v, v ∈ X → v < next_obj F) →
  (∀ v, v ∈ X → is_Some (bufs (snd (m (fe F))) !! inl v) ∨ ¬ is_parameter v F) →
  (∀ s e, m (fe F) = (Throw e, s) → same_ops (fe F) s) →
  (∀ s, m (fe F) = (Ret tt, s) → ops_move F s ∧ (fort_core (set_fe s F) → Q tt (set_fe s F))) →
  fsafe (on_fe m) Q F.
Proof.
  intros HF (r & s & E & Hb & HI) Hw HX Hp Ht HQ. unfold fsafe, on_fe. specialize (Hw (fe F)).
  rewrite E in *. cbn in *. destruct r as [[]|e|h]; [|..|left; by apply Hb].
  - destruct (HQ s eq_refl) as [Ho HQ']. apply HQ'. eapply fe_changes; [apply HF|done..].
  - specialize (Ht s e eq_refl). split; [|eapply same_states; [apply HF|apply Ht|done..]].
    eapply fe_changes; [apply HF|done..|by apply same_ops_moves].
Qed.

(** One that does not touch the operations. *)
Lemma fsafe_quiet X (m : M fes unit) (Q : unit → fort → Prop) F :
  fort_inv F → steps_ok m (fe F) → respects (vars_within X) m → (∀ v, v ∈ X → v < next_obj F) →
  (∀ v, v ∈ X → is_Some (bufs (snd (m (fe F))) !! inl v) ∨ ¬ is_parameter v F) →
  quiet m → (∀ s, m (fe F) = (Ret tt, s) → fort_inv (set_fe s F) → Q tt (set_fe s F)) →
  fsafe (on_fe m) Q F.
Proof.
  intros HF Hm Hw HX Hp Hq HQ. specialize (Hq (fe F)).
  apply (fsafe_on_fe X); try done; intros s *; [by intros E; rewrite E in Hq|].
  intros E. rewrite E in Hq. split; [by apply same_ops_moves|]. intros Hc. apply HQ; [done|].
  split; [done|]. eapply same_states; [apply HF|apply Hq|done..].
Qed.

(** One that posts an operation; its request state is made next. *)
Lemma fsafe_post X P c (m : M fes unit) (Q : nat → fort → Prop) F :
  fort_inv F → c ∈ wrappers F → steps_ok m (fe F) → respects (vars_within X) m → (∀ v, v ∈ X → v < next_obj F) →
  (∀ v, v ∈ X → is_Some (bufs (snd (m (fe F))) !! inl v) ∨ ¬ is_parameter v F) →
  posts_one P m (fe F) → (∀ o, P o → closure_ok (length (closures F)) (o_cb o)) →
  (∀ i s, let F' := set_rstates (<[i := (c, false)]> (rstates F)) (set_fe s F) in fort_inv F' → Q i F') →
  fsafe (with_request c m) Q F.
Proof.
  intros HF Hc Hm Hw HX Hp Ho HP HQ. unfold with_request. apply fsafe_bnd, fsafe_gets, fsafe_bnd. unfold posts_one in Ho.
  apply (fsafe_on_fe X); try done; intros s *; [by intros E; rewrite E in Ho|].
  intros E. rewrite E in Ho. destruct Ho as (o & Eo & En & Po). split; [by eapply new_op_moves; eauto|].
  intros Hcore. apply fsafe_bnd, fsafe_modify, fsafe_ret, HQ. split; [by eapply same_core|].
  destruct (fo_states _ HF) as [S1 S2]. set (i := next_op (fe F)) in *. split; cbn.
  - intros j c' b [[<- [= <- <-]]|[Hn Hj]]%lookup_insert_Some.
    + split; [done|]. unfold op_over. cbn. symmetry. apply bool_decide_eq_false. rewrite Eo, lookup_insert_eq. by intros [].
    + destruct (S1 _ _ _ Hj) as [Hw' ->]. split; [done|]. unfold op_over. cbn. by rewrite Eo, lookup_insert_ne.
  - intros j Hj. apply lookup_insert_is_Some'. destruct (decide (i = j)) as [->|Hn]; [by left|right].
    apply S2. rewrite <- Hj. unfold op_over. cbn. by rewrite Eo, lookup_insert_ne.
Qed.

(** An operation is over: its state becomes ready. *)
Lemma set_ready_safe i F0 F (Q : unit → fort → Prop) :
  fort_inv F0 → op_over F0 i = false → rstates F = rstates F0 → wrappers F = wrappers F0 →
  (∀ j, op_over F j = if decide (j = i) then true else op_over F0 j) → fort_core F →
  (∀ ss, let F' := set_rstates ss F in fort_inv F' → Q tt F') → fsafe (set_ready i) Q F.
Proof.
  intros HF0 Hi Es Ew Ho Hc HQ. destruct (fo_states _ HF0) as [S1 S2]. destruct (S2 i Hi) as [[c b] Hst].
  unfold set_ready. apply fsafe_bnd, fsafe_gets, fsafe_bnd. rewrite Es, Hst. apply fsafe_ret, fsafe_modify, HQ.
  split; [by eapply same_core|]. assert (∀ j ss, op_over (set_rstates ss F) j = op_over F j) as Eo by done.
  split; intros j *; rewrite Eo, Ho; cbn; rewrite ?Ew.
  - intros [[<- [= <- <-]]|[Hn Hj]]%lookup_insert_Some.
    + rewrite decide_True by done. split; [by eapply S1|done].
    + rewrite decide_False by done. by apply S1.
  - case_decide; [done|]. intros Hj. apply lookup_insert_is_Some'. right. by apply S2.
Qed.
End fsafe.
