(* ===== verification/FortranApi.v ===== *)
(** * What the Fortran bindings promise

    Programs that keep the contract do not reach undefined behaviour, and the requests
    they hold say what has become of their operations; null pointers end the program
    before anything has happened.  What the bindings do not do: the object of a message
    that is given away is never deleted, and the request of a send to many neighbours
    cannot be used. *)
From S2P Require Import SendMulti.
From S2P Require Import Prelude MsgBuffer MsgBufferInv MsgBufferApi MsgFrame Fortran FortranInv.

Section safe.
Implicit Types F : fort.

(** ** Parts *)

Lemma comm_safe w (Q : positive → fort → Prop) F :
  valid_comm w F → w ≠ None → (∀ c, c ∈ wrappers F → Q c F) → fsafe (get_object_ptr_unsafe w) Q F.
Proof.
  intros Hw Hn HQ. destruct w as [c|]; [|done]. cbn in Hw. unfold fsafe, get_object_ptr_unsafe. cbn.
  unfold bnd, gets. rewrite decide_True by done. by apply HQ.
Qed.

Lemma store_safe f d b F :
  fort_inv F → is_Some (freqs F !! f) → typed (FRequest d b) →
  fsafe (store_request (Some f) d b) (λ _ F', fort_inv F') F.
Proof.
  intros HF [q Hq] Ht. unfold store_request. cbn. apply fsafe_bnd, fsafe_ret, fsafe_bnd, fsafe_gets, fsafe_bnd.
  eapply fsafe_deref; [done|]. apply fsafe_modify. by apply freq_inv.
Qed.

Lemma store_if_safe f d b F :
  fort_inv F → valid_freq f F → typed (FRequest d b) →
  fsafe (store_request_if f d b) (λ _ F', fort_inv F') F.
Proof. destruct f; cbn; [apply store_safe|done]. Qed.

(** What is left of the state after a post *)
Definition after_post (c : positive) F (i : nat) (F' : fort) : Prop :=
  fort_inv F' ∧ freqs F' = freqs F ∧ mesg_vars F' = mesg_vars F.

(** Posting a message that stays where it is *)
Lemma post_ref_safe c k cb v r t accept (Q : nat → fort → Prop) F :
  fort_inv F → c ∈ wrappers F → is_Some (bufs (fe F) !! inl v) → owner (next_op (fe F)) cb = inl v →
  closure_ok (length (closures F)) cb → (∀ i F', after_post c F i F' → Q i F') →
  fsafe (with_request c (let! msg := read_buf (inl v) in cassert (is_set msg) ;;;
           submit k (m_heap_ptr msg) (byte_size msg) r t cb accept)) Q F.
Proof.
  intros HF Hw Hv Ho Hc HQ.
  apply (fsafe_post ∅ (λ o, o_cb o = cb)); [done|done|apply post_ref_ok; [apply HF|done..]| |set_solver|set_solver| | |].
  - apply (vars_post_ref (vars_within ∅)); [apply same_bufs_within|apply within_delete_closure].
  - do 2 (apply bnd_one; [eauto with frame typeclass_instances|intros ? ?]). apply submit_one.
  - by intros o ->.
  - intros i s F' HF'. by apply HQ.
Qed.

(** Posting a message that is given away *)
Lemma post_rref_safe c k u v r t accept (Q : nat → fort → Prop) F :
  fort_inv F → c ∈ wrappers F → free_object v F → u < length (closures F) →
  (∀ i F', after_post c F i F' → Q i F') →
  fsafe (with_request c (post_rref (submit k) v r t u accept)) Q F.
Proof.
  intros HF Hw [Hv Hu] Hc HQ.
  apply (fsafe_post {[v]} (λ o, o_cb o = Cb_rref u)); [done|done|apply post_rref_ok; [apply HF|done..]| | | | | |].
  - apply (vars_post_rref (vars_within {[v]}) (inside {[v]})); [apply same_bufs_within|apply within_write|
      apply within_delete_closure|by apply inside_var, elem_of_singleton|apply inside_closure].
  - intros k' ->%elem_of_singleton. by apply (fo_obj _ HF).
  - intros k' ->%elem_of_singleton. left.
    apply (vars_post_rref vars_grow (λ _, True)); [apply same_bufs_grow|intros; apply grow_write|
      apply grow_delete_closure|done..].
  - unfold post_rref. do 4 (apply bnd_one; [eauto with frame typeclass_instances|intros ? ?]). apply submit_one.
  - by intros o ->.
  - intros i s F' HF'. by apply HQ.
Qed.

Lemma new_closure_safe c (Q : nat → fort → Prop) F :
  (Q (length (closures F)) (set_closures (closures F ++ [c]) F)) → fsafe (new_closure c) Q F.
Proof. done. Qed.

(** ** The posting functions *)

(** Null pointers *)
Ltac nulls m w :=
  destruct m as [?v|]; [|by right]; destruct w as [?w|]; [|by right]; cbn [null bool_decide orb].

Lemma post_send_safe a w m r t f F :
  fort_inv F → valid_comm w F → valid_ptr m F → is_Some (freqs F !! f) →
  fsafe (oomph_comm_post_send a w m r t (Some f)) (λ _, fort_inv) F.
Proof.
  intros HF Hw Hm Hf. unfold oomph_comm_post_send. nulls m w.
  apply fsafe_bnd, comm_safe; [done..|]. intros c Hcw. apply fsafe_bnd, fsafe_ret, fsafe_bnd.
  apply (post_ref_safe c Op_send (Cb_none v)); [done..|]. intros i F' (HF' & Ef & _). apply store_safe; [done|by rewrite Ef|done].
Qed.

Lemma post_recv_safe a w m r t f F :
  fort_inv F → valid_comm w F → valid_ptr m F → is_Some (freqs F !! f) →
  fsafe (oomph_comm_post_recv a w m r t (Some f)) (λ _, fort_inv) F.
Proof.
  intros HF Hw Hm Hf. unfold oomph_comm_post_recv. nulls m w.
  apply fsafe_bnd, comm_safe; [done..|]. intros c Hcw. apply fsafe_bnd, fsafe_ret, fsafe_bnd.
  apply (post_ref_safe c Op_recv (Cb_none v)); [done..|]. intros i F' (HF' & Ef & _). apply store_safe; [done|by rewrite Ef|done].
Qed.

(** With a callback that gets a reference *)
Lemma post_lref_safe w k v r t c a f d b F :
  fort_inv F → w ∈ wrappers F → is_Some (bufs (fe F) !! inl v) → valid_freq f F → (∀ i, typed (FRequest (d i) b)) →
  fsafe (let! u := new_closure c in let! req := with_request w (post_lref (submit k) v r t u a) in
         store_request_if f (d req) b) (λ _, fort_inv) F.
Proof.
  intros HF Hw Hv Hf Ht. apply fsafe_bnd, new_closure_safe, fsafe_bnd.
  apply (post_ref_safe w k (Cb_lref (length (closures F)) v)); [by apply fort_new_closure_inv|done..| |].
  - cbn. rewrite length_app. cbn. lia.
  - intros i F' (HF' & Ef & _). apply store_if_safe; [done| |done]. unfold valid_freq. by rewrite Ef.
Qed.

(** With a callback that gets the message; [after] clears the variable, or nothing. *)
Lemma post_move_safe w k v r t c a f d b F (after : M fort unit) :
  fort_inv F → w ∈ wrappers F → free_object v F → valid_freq f F → (∀ i, typed (FRequest (d i) b)) →
  (∀ F', fort_inv F' → freqs F' = freqs F →
     ∃ F'', after F' = (Ret tt, F'') ∧ fort_inv F'' ∧ freqs F'' = freqs F) →
  fsafe (let! u := new_closure c in let! req := with_request w (post_rref (submit k) v r t u a) in
         after ;;; store_request_if f (d req) b) (λ _, fort_inv) F.
Proof.
  intros HF Hw Hv Hf Ht Ha. apply fsafe_bnd, new_closure_safe, fsafe_bnd.
  apply (post_rref_safe w k (length (closures F)) v); [by apply fort_new_closure_inv|done|done| |].
  - cbn. rewrite length_app. cbn. lia.
  - intros i F' (HF' & Ef' & _). destruct (Ha F') as (F'' & E & HF'' & Ef); [done..|]. apply fsafe_bnd. unfold fsafe at 1. rewrite E.
    apply store_if_safe; [done| |done]. unfold valid_freq. by rewrite Ef.
Qed.

Definition clear_var (x : nat) : M fort unit := modify (λ F, set_mesg_vars (<[x := None]> (mesg_vars F)) F).

Lemma clear_var_after x F F' : fort_inv F' → freqs F' = freqs F →
  ∃ F'', clear_var x F' = (Ret tt, F'') ∧ fort_inv F'' ∧ freqs F'' = freqs F.
Proof. intros HF E. eexists. split; [done|]. split; [by eapply same_inv|done]. Qed.

Lemma post_send_cb_safe a w m r t cb f ud F :
  fort_inv F → valid_comm w F → valid_ptr m F → valid_freq f F →
  fsafe (oomph_comm_post_send_cb_wrapped a w m r t cb f ud) (λ _, fort_inv) F.
Proof.
  intros HF Hw Hm Hf. unfold oomph_comm_post_send_cb_wrapped. nulls m w.
  apply fsafe_bnd, comm_safe; [done..|]. intros c Hcw. apply fsafe_bnd, fsafe_ret.
  by apply (post_lref_safe c Op_send v r t _ a f Fd_send false).
Qed.

Lemma post_recv_cb_safe a w m r t cb f ud F :
  fort_inv F → valid_comm w F → valid_ptr m F → valid_freq f F →
  fsafe (oomph_comm_post_recv_cb_wrapped a w m r t cb f ud) (λ _, fort_inv) F.
Proof.
  intros HF Hw Hm Hf. unfold oomph_comm_post_recv_cb_wrapped. nulls m w.
  apply fsafe_bnd, comm_safe; [done..|]. intros c Hcw. apply fsafe_bnd, fsafe_ret.
  by apply (post_lref_safe c Op_recv v r t _ a f Fd_recv true).
Qed.

Lemma resubmit_recv_safe a w m r t cb f ud F :
  fort_inv F → valid_comm w F → movable m F → valid_freq f F →
  fsafe (oomph_comm_resubmit_recv_wrapped a w m r t cb f ud) (λ _, fort_inv) F.
Proof.
  intros HF Hw Hm Hf. unfold oomph_comm_resubmit_recv_wrapped. nulls m w.
  apply fsafe_bnd, comm_safe; [done..|]. intros c Hcw. apply fsafe_bnd, fsafe_ret.
  apply (post_move_safe c Op_recv v r t _ a f Fd_recv true F (ret tt)); try done. by intros F' ? ?; exists F'.
Qed.

(** The variable that is given by address *)
Lemma message_at_safe x (Q : option nat → fort → Prop) P F :
  var_is P x F → (∀ m, mesg_vars F !! x = Some m → P m F → Q m F) → fsafe (message_at (Some x)) Q F.
Proof.
  intros Hx HQ. unfold var_is in Hx. destruct (mesg_vars F !! x) as [m|] eqn:E; [|done].
  unfold message_at. apply fsafe_bnd, fsafe_ret, fsafe_bnd, fsafe_gets. rewrite E. by apply HQ.
Qed.

Lemma send_cb_safe a w x r t cb f ud F :
  fort_inv F → valid_comm w F → var_is movable x F → valid_freq f F →
  fsafe (oomph_comm_send_cb_wrapped a w (Some x) r t cb f ud) (λ _, fort_inv) F.
Proof.
  intros HF Hw Hx Hf. unfold oomph_comm_send_cb_wrapped. destruct w as [w|]; [|by right]. cbn [null bool_decide orb].
  apply fsafe_bnd. eapply message_at_safe; [done|]. intros m Em Hm. destruct m as [v|]; [|by right]. cbn [null bool_decide].
  apply fsafe_bnd, comm_safe; [done..|]. intros c Hcw. apply fsafe_bnd, fsafe_ret.
  apply (post_move_safe c Op_send v r t _ a f Fd_send false F (clear_var x)); try done. intros F'. apply clear_var_after.
Qed.

Lemma recv_cb_safe a w x r t cb f ud F :
  fort_inv F → valid_comm w F → var_is movable x F → valid_freq f F →
  fsafe (oomph_comm_recv_cb_wrapped a w (Some x) r t cb f ud) (λ _, fort_inv) F.
Proof.
  intros HF Hw Hx Hf. unfold oomph_comm_recv_cb_wrapped. destruct w as [w|]; [|by right]. cbn [null bool_decide orb].
  apply fsafe_bnd. eapply message_at_safe; [done|]. intros m Em Hm. destruct m as [v|]; [|by right]. cbn [null bool_decide].
  apply fsafe_bnd, comm_safe; [done..|]. intros c Hcw. apply fsafe_bnd, fsafe_ret.
  apply (post_move_safe c Op_recv v r t _ a f Fd_recv true F (clear_var x)); try done. intros F'. apply clear_var_after.
Qed.

(** ** Messages *)

Lemma is_parameter_running v F : is_parameter v F → ∃ i, running F !! i = Some (Some v).
Proof.
  intros ([i p] & E & Hi)%list_elem_of_fmap. cbn in E. subst p. exists i. by apply elem_of_map_to_list.
Qed.

(** A new object is not the parameter of a callback. *)
Lemma new_not_parameter F : fort_inv F → ¬ is_parameter (next_obj F) F.
Proof. intros HF [i Hi]%is_parameter_running. pose proof (fo_obj _ HF _ (fo_param _ HF _ _ Hi)). lia. Qed.

(** Making an object at the next address *)
Lemma make_safe (m : place → M fes unit) (Q : unit → fort → Prop) F :
  fort_inv F → (∀ s, fe_inv None s → bufs s !! inl (next_obj F) = None → steps_ok (m (inl (next_obj F))) s) →
  respects (vars_within {[next_obj F]}) (m (inl (next_obj F))) → quiet (m (inl (next_obj F))) →
  (∀ s, m (inl (next_obj F)) (fe F) = (Ret tt, s) → let F' := set_fe s (set_next_obj (S (next_obj F)) F) in
     fort_inv F' → Q tt F') →
  fsafe (on_fe (m (inl (next_obj F)))) Q (set_next_obj (S (next_obj F)) F).
Proof.
  intros HF Hm Hw Hq HQ. apply (fsafe_quiet {[next_obj F]}); cbn; [by apply new_obj_inv| |done| | |done|done].
  - apply Hm; [apply HF|]. destruct (bufs (fe F) !! inl (next_obj F)) eqn:E; [|done].
    pose proof (fo_obj _ HF (next_obj F) ltac:(by eexists)). lia.
  - intros v ->%elem_of_singleton. lia.
  - intros v ->%elem_of_singleton. right. intros Hp. by apply (new_not_parameter F).
Qed.

Lemma not_pinned_new F v : fort_inv F → bufs (fe F) !! inl v = None → unpinned (inl v) (fe F).
Proof.
  intros HF Hv i o Ho Hi. destruct (fi_op _ _ (fo_fe _ HF) _ _ Ho) as (_ & b & Hb & _). rewrite Hi in Hb.
  pose proof (eq_trans (eq_sym Hb) Hv). done.
Qed.

Lemma new_object_none F : fort_inv F → bufs (fe F) !! inl (next_obj F) = None.
Proof.
  intros HF. destruct (bufs (fe F) !! inl (next_obj F)) eqn:E; [|done].
  pose proof (fo_obj _ HF (next_obj F) ltac:(by eexists)). lia.
Qed.

(** [~message_type()] *)
Lemma destroy_safe v (Q : unit → fort → Prop) F :
  fort_inv F → free_object v F → ¬ is_parameter v F →
  (∀ s, fort_inv (set_fe s F) → Q tt (set_fe s F)) → fsafe (on_fe (destroy_buf (inl v))) Q F.
Proof.
  intros HF [[b Hb] Hu] Hp HQ. apply (fsafe_quiet {[v]}); [done| | | | |apply quiet_destroy_buf|].
  - destruct (destroy_buf_inv _ _ _ _ (fo_fe _ HF) Hb Hu) as (s' & E & _ & HI'). by eapply steps_ret.
  - apply (vars_destroy (vars_within {[v]})); [apply same_bufs_within|].
    intros s k Hk. cbn. rewrite lookup_delete_ne; [done|]. intros [= ->]. set_solver.
  - intros k ->%elem_of_singleton. apply (fo_obj _ HF). by eexists.
  - intros k ->%elem_of_singleton. by right.
  - intros s _. apply HQ.
Qed.

Lemma unpinned_quiet {A} p (m : M fes A) s r s' : quiet m → unpinned p s → m s = (r, s') → unpinned p s'.
Proof. intros Hq Hu E. specialize (Hq s). rewrite E in Hq. cbn in Hq. unfold unpinned. by rewrite (so_ops _ _ Hq). Qed.

Lemma on_fe_eq {A} (m : M fes A) F r s : m (fe F) = (r, s) → on_fe m F = (r, set_fe s F).
Proof. unfold on_fe. by intros ->. Qed.

(** A temporary is moved into a new object and destroyed. *)
Lemma move_new_safe t F :
  fort_inv F → free_object t F → ¬ is_parameter t F →
  fsafe (let! v := new_obj in on_fe (construct_move (inl v) (inl t)) ;;; on_fe (destroy_buf (inl t)) ;;; ret (Some v))
    (λ _, fort_inv) F.
Proof.
  intros HF [[b Hb] Hu] Hp. set (v := next_obj F). apply fsafe_bnd, fsafe_bnd, fsafe_gets, fsafe_bnd, fsafe_modify, fsafe_ret.
  assert (t ≠ v) as Hne by (pose proof (fo_obj _ HF t ltac:(by eexists)); lia).
  apply fsafe_bnd. fold v. apply (fsafe_quiet {[v; t]}); cbn; [by apply new_obj_inv|..].
  - apply (construct_ok m_size elem v t b); [apply HF|by apply new_object_none|done|done|
      by eapply buf_elem_pos; [apply HF|]|done].
  - apply (vars_construct_move (vars_within {[v; t]}) (inside {[v; t]})); [apply same_bufs_within|apply within_write|
      apply inside_var; set_solver..].
  - intros k. rewrite elem_of_union, !elem_of_singleton. intros [->| ->]; [lia|].
    pose proof (fo_obj _ HF t ltac:(by eexists)). lia.
  - intros k. rewrite elem_of_union, !elem_of_singleton. intros [->| ->]; right; [|done].
    exact (new_not_parameter F HF).
  - apply quiet_construct_move.
  - intros s E Hs. apply fsafe_bnd, destroy_safe; [done| |done|].
    + split; [|by eapply unpinned_quiet; [apply quiet_construct_move|..]]. cbn.
      pose proof (vars_construct_move vars_grow (λ _, True) same_bufs_grow (λ p b _, grow_write p b) (inl v) (inl t) I I (fe F)) as Hg.
      rewrite E in Hg. apply Hg. by eexists.
    + intros s' Hs'. by apply fsafe_ret.
Qed.

(** [new message_type(std::move(buffer))] *)
Lemma new_message_safe (m : place → M fes unit) F :
  fort_inv F → (∀ v s, fe_inv None s → bufs s !! inl v = None → steps_ok (m (inl v)) s) →
  (∀ v, respects (vars_within {[v]}) (m (inl v))) → (∀ v, quiet (m (inl v))) →
  (∀ v s s', m (inl v) s = (Ret tt, s') → is_Some (bufs s' !! inl v)) →
  fsafe (new_message m) (λ _, fort_inv) F.
Proof.
  intros HF Hm Hw Hq Hsome. unfold new_message.
  apply fsafe_bnd, fsafe_bnd, fsafe_gets, fsafe_bnd, fsafe_modify, fsafe_ret, fsafe_bnd.
  apply make_safe; [done|auto..]. intros s E. cbn zeta. intros HF1. apply move_new_safe; [done| |].
  - split; [by eapply Hsome|]. eapply unpinned_quiet; [apply Hq| |exact E].
    by apply not_pinned_new, new_object_none.
  - exact (new_not_parameter F HF).
Qed.

Lemma make_sets hw v n u d e k s s' :
  (let! a := heap_allocate hw n u d in construct_ptr (inl v) a k e) s = (Ret tt, s') → is_Some (bufs s' !! inl v).
Proof.
  unfold bnd at 1, heap_allocate. destruct (hw (allocs s) n); [|done]. intros [= <-]. cbn. rewrite lookup_insert_eq. by eexists.
Qed.

Lemma heap_make_safe hw n u d k F :
  hw_ok hw → fort_inv F → n = u64 (k * 1) →
  fsafe (new_message (λ p, let! a := heap_allocate hw n u d in construct_ptr p a k 1)) (λ _, fort_inv) F.
Proof.
  intros Hhw HF ->. apply new_message_safe; [done|..].
  - intros v s HI Hv. by apply make_buffer_ok.
  - intros v. apply (vars_make (vars_within {[v]}) (inside {[v]})); [apply same_bufs_within|apply within_write|].
    by apply inside_var, elem_of_singleton.
  - intros v. frame.
  - intros v s s'. apply make_sets.
Qed.

Lemma get_context_safe (Q : positive → fort → Prop) F :
  valid_global (oomph_context F) (contexts F) → (∀ c, Q c F) → fsafe get_context Q F.
Proof.
  intros Hc HQ. unfold get_context. apply fsafe_bnd, fsafe_gets. destruct (oomph_context F) as [c|]; [|done].
  apply fsafe_bnd, fsafe_ret, fsafe_bnd, fsafe_gets. rewrite decide_True by done. apply HQ.
Qed.

Lemma message_new_safe hw dev_enabled device size a F :
  hw_ok hw → fort_inv F → valid_global (oomph_context F) (contexts F) →
  fsafe (oomph_message_new hw dev_enabled device size a) (λ _, fort_inv) F.
Proof.
  intros Hhw HF Hc. unfold oomph_message_new. apply fsafe_bnd, get_context_safe; [done|]. intros _.
  case_decide; [by apply heap_make_safe|]. destruct (dev_enabled && _); [by apply heap_make_safe|by right].
Qed.

Lemma message_free_safe x F :
  fort_inv F → var_is deletable x F → fsafe (oomph_message_free (Some x)) (λ _, fort_inv) F.
Proof.
  intros HF Hx. unfold var_is in Hx. unfold oomph_message_free. apply fsafe_bnd, fsafe_gets, fsafe_bnd.
  destruct (mesg_vars F !! x) as [m|]; [|done]. apply fsafe_ret, fsafe_bnd. destruct m as [v|].
  - apply destroy_safe; [done|apply Hx..|]. intros s Hs. apply fsafe_modify. by eapply same_inv.
  - apply fsafe_ret, fsafe_modify. by eapply same_inv.
Qed.

Lemma message_zero_safe m F :
  fort_inv F → match m with Some v => is_Some (bufs (fe F) !! inl v ≫= m_ptr) | None => True end →
  fsafe (oomph_message_zero m) (λ _, fort_inv) F.
Proof.
  intros HF Hm. destruct m as [v|]; [|done]. cbn. destruct Hm as [a Ha]. apply bind_Some in Ha as (b & Hb & Ha).
  destruct (buf_alloc_run _ (inl v) b a (fe F) (fo_fe _ HF) Hb Ha) as (y & Hy & _ & Eh & _).
  apply (fsafe_quiet ∅); [done| | |set_solver|set_solver| |done].
  - apply (steps_ret _ _ (set_allocs (<[a := with_host (overwrite (m_size b) (λ _, 0%Z) (a_host y)) y]> (allocs (fe F))) (fe F))).
    + unfold zero_buf. erewrite bnd_ret by by apply read_buf_run. erewrite bnd_ret by exact Eh. done.
    + by eapply contents_inv; [apply HF|exact Hy|..].
  - unfold zero_buf. repeat (apply respects_bnd; [apply _| |intros ?]);
      (eapply respects_mono; [apply same_bufs_within|eauto with frame]).
  - unfold zero_buf. apply (respects_bnd same_ops); [frame|]. intros b'. frame.
Qed.

(** ** Requests *)

Lemma read_freq_safe f (Q : frequest → fort → Prop) F :
  usable f F →
  (∀ q, freqs F !! f = Some q → is_raw q = false →
     match request_of q with Some i => is_Some (rstates F !! i) | None => True end → Q q F) →
  fsafe (read_freq (Some f)) Q F.
Proof.
  unfold usable. intros Hf HQ. unfold read_freq. apply fsafe_bnd, fsafe_ret, fsafe_bnd, fsafe_gets.
  destruct (freqs F !! f) as [q|]; [|done]. destruct Hf. apply fsafe_ret. by apply HQ.
Qed.

(** The state of a request, which says whether the operation is over. *)
Lemma state_is_ready_run i F : fort_inv F → is_Some (rstates F !! i) → state_is_ready i F = (Ret (op_over F i), F).
Proof.
  intros HF [[c b] Hi]. destruct (so_state _ (fo_states _ HF) _ _ _ Hi) as [_ ->].
  unfold state_is_ready, bnd, gets. cbn. by rewrite Hi.
Qed.

(** Bytes that hold a request are used as a request of the right type. *)
Lemma as_request_run q F :
  typed q → is_raw q = false →
  (if recv_request q then as_recv q F else as_send q F) = (Ret (request_of q), F).
Proof.
  intros Ht Hr. destruct q as [d b]. unfold typed, is_raw, as_recv, as_send, request_of in *. cbn in *.
  destruct d as [| |i|i|m]; try done; try (by rewrite Ht). by destruct b.
Qed.

Lemma request_ready_run f q F :
  fort_inv F → freqs F !! f = Some q → usable f F →
  oomph_request_ready (Some f) F = (Ret (from_option (op_over F) true (request_of q)), F).
Proof.
  intros HF Hq Hu. unfold usable in Hu. rewrite Hq in Hu. destruct Hu as [Hr Hs].
  pose proof (as_request_run q F (fo_freq _ HF _ _ Hq) Hr) as E.
  unfold oomph_request_ready, read_freq, bnd, gets. cbn. rewrite Hq. cbn.
  destruct (recv_request q); rewrite E; (destruct (request_of q) as [i|]; [by apply state_is_ready_run|done]).
Qed.

Lemma request_ready_safe f F :
  fort_inv F → usable f F → fsafe (oomph_request_ready (Some f)) (λ _, fort_inv) F.
Proof.
  intros HF Hf. destruct (freqs F !! f) as [q|] eqn:Hq; [|unfold usable in Hf; by rewrite Hq in Hf].
  unfold fsafe. by rewrite (request_ready_run f q F).
Qed.

(** What [complete] and [cancel] do to the operations that are over *)
Lemma op_over_deleted F s i :
  ops s = delete i (ops (fe F)) → running F !! i = None →
  ∀ j, op_over (set_fe s F) j = if decide (j = i) then true else op_over F j.
Proof.
  intros E Hr j. unfold op_over. cbn. rewrite E. case_decide as Hj; [subst; by rewrite lookup_delete_eq, Hr|].
  by rewrite lookup_delete_ne.
Qed.

Lemma cancel_safe i (Q : bool → fort → Prop) F :
  fort_inv F → is_Some (ops (fe F) !! i) → (∀ F', fort_inv F' → Q true F') →
  fsafe (on_fe (cancel i) ;;; set_ready i ;;; ret true) Q F.
Proof.
  intros HF [o Ho] HQ. destruct (cancel_ops i o (fe F) Ho) as [E1 E2]. apply fsafe_bnd.
  destruct (cancel_ok i o (fe F) (fo_fe _ HF) Ho) as (s' & E & HI & _). rewrite E in E1, E2. cbn in E1, E2.
  apply (fsafe_on_fe ∅); [done|by eapply steps_ret| |set_solver|set_solver|by rewrite E|].
  - unfold cancel. apply respects_bnd; [apply _|eapply respects_mono; [apply same_bufs_within|apply same_take_op]|].
    intros o'. destruct (o_cb o'); try apply respects_ret, _.
    apply (vars_destroy (vars_within ∅)); [apply same_bufs_within|apply within_delete_closure].
  - intros s [= ->]%(eq_trans (eq_sym E)). split; [by eapply delete_moves|]. intros Hc. apply fsafe_bnd.
    assert (running F !! i = None) as Hr.
    { destruct (running F !! i) eqn:Er; [|done]. destruct (fo_running _ HF _ _ Er). congruence. }
    eapply (set_ready_safe i F); [done| |done|done|by apply op_over_deleted|done|].
    + unfold op_over. apply bool_decide_eq_false. rewrite Ho. by intros [].
    + intros ss F' HF'. by apply fsafe_ret, HQ.
Qed.

Lemma request_cancel_safe f b F :
  fort_inv F → fallowed (F_cancel f b) F → fsafe (oomph_request_cancel b (Some f)) (λ _, fort_inv) F.
Proof.
  intros HF [Hf Hi]. unfold oomph_request_cancel. apply fsafe_bnd, read_freq_safe; [done|]. intros [d r] Hq Hr Hs.
  rewrite Hq in Hi. pose proof (fo_freq _ HF _ _ Hq) as Ht. unfold typed, is_raw, as_recv, request_of in *. cbn in *.
  destruct d as [| |i|i|m]; try done; try rewrite Ht; try done; [by destruct r|]. apply fsafe_bnd, fsafe_ret. unfold req_cancel.
  apply fsafe_bnd. unfold fsafe at 1. rewrite state_is_ready_run by done.
  unfold op_over. case_bool_decide as Ho; [done|]. destruct b; [|done].
  assert (is_Some (ops (fe F) !! i)) as Hop by (destruct (ops (fe F) !! i); [by eexists|destruct Ho; auto]).
  by apply cancel_safe.
Qed.

(** ** Completion *)

(** The callback of an operation begins. *)
Lemma running_core F i p :
  fort_core F → i < next_op (fe F) → ops (fe F) !! i = None →
  (∀ v, p = Some v → is_Some (bufs (fe F) !! inl v) ∧ ¬ is_parameter v F) →
  fort_core (set_running (<[i := p]> (running F)) F).
Proof.
  intros [H1 H2 H3 H4 H5 H6 H7] Hi Ho Hp.
  assert (∀ j v, running F !! j = Some (Some v) → p ≠ Some v) as Hnew.
  { intros j v Hj ->. destruct (Hp v eq_refl) as [_ Hn]. apply Hn, list_elem_of_fmap.
    exists (j, Some v). split; [done|]. by apply elem_of_map_to_list. }
  split; cbn; try done.
  - intros j q [[<- _]|[_ Hj]]%lookup_insert_Some; [done|by eapply H4].
  - intros j v [[_ ->]|[_ Hj]]%lookup_insert_Some; [by apply Hp|by eapply H5].
  - intros j k v [[<- ->]|[_ Hj]]%lookup_insert_Some [[<- Hk]|[_ Hk]]%lookup_insert_Some; try done.
    + by destruct (Hnew _ _ Hk).
    + by destruct (Hnew _ _ Hj).
    + by eapply H6.
Qed.

(** It goes from the backend to its callback, and is not over. *)
Lemma running_states F F' i p :
  states_ok F → op_over F i = false → ops (fe F') = delete i (ops (fe F)) → running F' = <[i := p]> (running F) →
  rstates F' = rstates F → wrappers F' = wrappers F → states_ok F'.
Proof.
  intros [S1 S2] Hi Eo Er Es Ew. assert (∀ j, op_over F' j = op_over F j) as E.
  { intros j. destruct (decide (j = i)) as [->|Hn]; [rewrite Hi|]; unfold op_over; rewrite Eo, Er.
    - apply bool_decide_eq_false. rewrite lookup_insert_eq. by intros [].
    - by rewrite lookup_delete_ne, lookup_insert_ne. }
  split; intros j *; rewrite E, Es, ?Ew; [apply S1|apply S2].
Qed.

Lemma running_inv F s n i p :
  fort_inv F → is_Some (ops (fe F) !! i) → fort_core (set_fe s (set_next_obj n F)) → ops s = delete i (ops (fe F)) →
  next_op s = next_op (fe F) → (∀ v, p = Some v → is_Some (bufs s !! inl v) ∧ ¬ is_parameter v F) →
  fort_inv (set_running (<[i := p]> (running F)) (set_fe s (set_next_obj n F))).
Proof.
  intros HF [o Ho] Hc Eo En Hp. split.
  - apply (running_core (set_fe s (set_next_obj n F))); cbn; [done|rewrite En; by apply (fi_op _ _ (fo_fe _ HF) _ _ Ho)|
      rewrite Eo; apply lookup_delete_eq|done].
  - apply (running_states F _ i p); [apply HF|apply bool_decide_eq_false; rewrite Ho; by intros []|done..].
Qed.

Lemma call_f_safe c v r t F : fort_inv F → fsafe (call_f c v r t) (λ _, fort_inv) F.
Proof. intros HF. unfold call_f. destruct (f_cb c); [|done]. by eapply same_inv. Qed.

Lemma complete_within X i r t keep : (∀ v, keep = Some v → v ∈ X) → respects (vars_within X) (complete i r t keep).
Proof.
  intros Hk. apply (vars_complete (vars_within X) (inside X)); [apply same_bufs_within|apply within_write|
    apply within_delete_closure|intros v Hv; by apply inside_var, Hk|apply inside_closure].
Qed.

(** The completion of an operation whose message stays with the program *)
Lemma complete_ref_safe i o r t (Q : unit → fort → Prop) F :
  fort_inv F → ops (fe F) !! i = Some o →
  (∀ s, fort_core (set_fe s F) → next_op s = next_op (fe F) → ops s = delete i (ops (fe F)) → Q tt (set_fe s F)) →
  fsafe (on_fe (complete i r t None)) Q F.
Proof.
  intros HF Ho HQ. destruct (complete_ops i o r t None (fe F) Ho) as [E1 E2].
  destruct (complete_ok i o r t None (fe F) (fo_fe _ HF) Ho) as (s' & b & E & HI & _); [done|].
  rewrite E in E1, E2. cbn in E1, E2.
  apply (fsafe_on_fe ∅); [done|by eapply steps_ret|by apply complete_within|set_solver|set_solver|by rewrite E|].
  intros s Es. rewrite E in Es. injection Es as <-. split; [by eapply delete_moves|]. intros Hs. by apply HQ.
Qed.

(** The completion of one whose message goes to a new parameter *)
Lemma complete_rref_safe i o u r t c F :
  fort_inv F → ops (fe F) !! i = Some o → o_cb o = Cb_rref u →
  fsafe (let! v := new_obj in on_fe (complete i r t (Some v)) ;;;
         modify (λ F, set_running (<[i := Some v]> (running F)) F) ;;; callback_call c v r t) (λ _, fort_inv) F.
Proof.
  intros HF Ho Hcb. set (v := next_obj F). destruct (complete_ops i o r t (Some v) (fe F) Ho) as [E1 E2].
  pose proof (new_object_none F HF) as Hnew. pose proof (new_not_parameter F HF) as Hnp. fold v in Hnew, Hnp.
  destruct (complete_ok i o r t (Some v) (fe F) (fo_fe _ HF) Ho) as (s' & b & E & HI & _ & _ & _ & _ & Hv); [by intros k [= <-]|].
  rewrite Hcb in Hv. destruct Hv as [Hv _]. rewrite E in E1, E2. cbn in E1, E2.
  apply fsafe_bnd, fsafe_bnd, fsafe_gets, fsafe_bnd, fsafe_modify, fsafe_ret, fsafe_bnd.
  apply (fsafe_on_fe {[v]}); cbn; fold v; rewrite ?E; [by apply new_obj_inv|by eapply steps_ret| | | |done|].
  - apply complete_within. intros k [= <-]. by apply elem_of_singleton.
  - intros k ->%elem_of_singleton. lia.
  - intros k ->%elem_of_singleton. right. exact Hnp.
  - intros s [= <-]. split; [by eapply delete_moves|]. intros Hc. apply fsafe_bnd, fsafe_modify, call_f_safe.
    apply (running_inv F s' (S v)); [done|by eexists|done..|]. intros k [= <-]. split; [by eexists|exact Hnp].
Qed.

Lemma set_next_obj_id F : set_next_obj (next_obj F) F = F.
Proof. by destruct F. Qed.

(** The callback that gets a reference, and the end of an operation without callback *)
Lemma complete_lref_safe i o r t c v F :
  fort_inv F → ops (fe F) !! i = Some o →
  fsafe (on_fe (complete i r t None) ;;;
         modify (λ F, set_running (<[i := None]> (running F)) F) ;;; callback_ref_call c v r t) (λ _, fort_inv) F.
Proof.
  intros HF Ho. apply fsafe_bnd. eapply complete_ref_safe; [done..|]. intros s Hs En Eo.
  apply fsafe_bnd, fsafe_modify, call_f_safe. cbn.
  pose proof (running_inv F s (next_obj F) i None HF) as H. rewrite set_next_obj_id in H. apply H; [by eexists|done..].
Qed.

Lemma complete_none_safe i o r t F :
  fort_inv F → ops (fe F) !! i = Some o →
  fsafe (on_fe (complete i r t None) ;;; set_ready i) (λ _, fort_inv) F.
Proof.
  intros HF Ho. apply fsafe_bnd. eapply complete_ref_safe; [done..|]. intros s Hs En Eo.
  assert (running F !! i = None) as Hr.
  { destruct (running F !! i) eqn:Er; [|done]. destruct (fo_running _ HF _ _ Er). congruence. }
  eapply (set_ready_safe i F); [done| |done|done|by apply op_over_deleted|done|done].
  unfold op_over. apply bool_decide_eq_false. rewrite Ho. by intros [].
Qed.

Lemma fort_complete_safe i r t F :
  fort_inv F → is_Some (ops (fe F) !! i) → fsafe (fort_complete i r t) (λ _, fort_inv) F.
Proof.
  intros HF [o Ho]. unfold fort_complete. apply fsafe_bnd. unfold fsafe at 1. rewrite state_is_ready_run; [|done|].
  2:{ apply (fo_states _ HF). apply bool_decide_eq_false. rewrite Ho. by intros []. }
  apply fsafe_bnd, fsafe_gets. rewrite Ho.
  apply fsafe_bnd, fsafe_ret, fsafe_bnd, fsafe_gets. pose proof (fo_closure _ HF _ _ Ho) as Hc.
  assert (∀ u, u < length (closures F) → ∃ c, closures F !! u = Some c) as Hl by (intros u ?%lookup_lt_is_Some; done).
  destruct (o_cb o) as [v|u|u v|u v] eqn:Ecb; cbn in Hc; [by eapply complete_none_safe|..];
    destruct (Hl _ Hc) as [c Ec]; rewrite Ec; apply fsafe_bnd, fsafe_ret; [by eapply complete_rref_safe|by eapply complete_lref_safe..].
Qed.

Lemma stop_running_core F i : fort_core F → fort_core (set_running (delete i (running F)) F).
Proof.
  intros [H1 H2 H3 H4 H5 H6 H7]. split; cbn; try done.
  - intros j p [_ Hj]%lookup_delete_Some. by eapply H4.
  - intros j v [_ Hj]%lookup_delete_Some. by eapply H5.
  - intros j k v [_ Hj]%lookup_delete_Some [_ Hk]%lookup_delete_Some. by eapply H6.
Qed.

(** The end of the callback, once its parameter is gone *)
Lemma stop_running_safe F s i :
  fort_inv F → is_Some (running F !! i) → same_ops (fe F) s → fort_core (set_running (delete i (running F)) (set_fe s F)) →
  fsafe (modify (λ F, set_running (delete i (running F)) F) ;;; set_ready i) (λ _, fort_inv) (set_fe s F).
Proof.
  intros HF [p Hr] [Eo _] Hc. apply fsafe_bnd, fsafe_modify.
  apply (set_ready_safe i F); [done|apply bool_decide_eq_false; rewrite Hr; by intros []|done..| |done|done].
  intros j. unfold op_over. cbn. rewrite Eo. case_decide as Hj; [subst|by rewrite lookup_delete_ne].
  rewrite lookup_delete_eq. by destruct (fo_running _ HF _ _ Hr) as [_ ->].
Qed.

(** The callback returns: its parameter goes. *)
Lemma fort_return_safe i F :
  fort_inv F → fallowed (F_return i) F → fsafe (fort_return i) (λ _, fort_inv) F.
Proof.
  intros HF Hi. cbn in Hi. unfold fort_return. apply fsafe_bnd, fsafe_gets, fsafe_bnd.
  destruct (running F !! i) as [[v|]|] eqn:Er; [| |done]; apply fsafe_ret, fsafe_bnd.
  - destruct (fo_param _ HF _ _ Er) as [b Hb].
    destruct (destroy_buf_inv _ _ _ _ (fo_fe _ HF) Hb Hi) as (s & E & _ & HI).
    unfold fsafe at 1, on_fe. rewrite E. pose proof (quiet_destroy_buf (inl v) (fe F)) as Hq. rewrite E in Hq.
    apply (stop_running_safe F s i); [done|by eexists|done|].
    change (fort_core (set_fe s (set_running (delete i (running F)) F))).
    apply (fe_changes _ _ {[v]}); cbn; [by apply stop_running_core, HF|done|..].
    + pose proof (vars_destroy (vars_within {[v]}) (same_bufs_within _) (inl v)) as Hw.
      specialize (Hw ltac:(intros s0 k Hk; cbn; rewrite lookup_delete_ne; [done|]; intros [= ->]; set_solver) (fe F)).
      by rewrite E in Hw.
    + intros k ->%elem_of_singleton. apply (fo_obj _ HF). by eexists.
    + intros k ->%elem_of_singleton. right. intros [j Hr]%is_parameter_running. cbn in Hr.
      apply lookup_delete_Some in Hr as [Hj Hr]. by destruct Hj; eapply (fo_param_inj _ HF).
    + by apply same_ops_moves.
  - apply fsafe_ret. pose proof (stop_running_safe F (fe F) i HF) as H.
    assert (set_fe (fe F) F = F) as Ef by by destruct F. rewrite Ef in H.
    apply H; [by eexists|done|by apply stop_running_core, HF].
Qed.

(** ** Every operation *)

Lemma obj_free_safe c F :
  fort_inv F → fallowed (F_obj_free c) F → fsafe (oomph_obj_free (Some c)) (λ _, fort_inv) F.
Proof.
  intros HF Hc. cbn in Hc. unfold oomph_obj_free. apply fsafe_bnd, fsafe_ret, fsafe_bnd, fsafe_gets, fsafe_bnd.
  destruct (comm_vars F !! c) as [w|]; [|done]. destruct Hc as [Hw Hno]. apply fsafe_ret, fsafe_bnd, fsafe_modify.
  destruct w as [w|]; [|by eapply same_inv]. apply fsafe_bnd, fsafe_gets. cbn in *. rewrite decide_True by done.
  apply fsafe_modify. split; [eapply same_core; [apply HF|done..]|]. destruct (fo_states _ HF) as [S1 S2].
  split; cbn; intros i *.
  - intros [Hi Hn]%map_lookup_filter_Some. cbn in Hn. destruct (S1 _ _ _ Hi). split; [set_solver|done].
  - intros Hi. destruct (S2 i Hi) as [[c' b] Hst]. exists (c', b). apply map_lookup_filter_Some. split; [done|].
    cbn. intros ->. pose proof (Hno _ _ Hst eq_refl) as Hb. cbn in Hb. destruct (S1 _ _ _ Hst) as [_ E].
    rewrite Hb in E. unfold op_over in Hi, E. cbn in Hi. congruence.
Qed.

(** Without messages that have memory, the heap is empty. *)
Lemma drop_heap_inv s :
  fe_inv None s → map_Forall (λ _ b, m_ptr b = None ∧ m_heap_ptr b = None) (bufs s) → ops s = ∅ →
  fe_inv None (drop_heap s).
Proof.
  intros HI Hm Ho. destruct HI as [H1 H2 H3 H4 H5 H6 H7 H8 H9].
  split; unfold drop_heap; cbn; try done; try (intros *; by rewrite ?Ho, ?lookup_empty).
  - intros p b Hb. specialize (H1 p b Hb). destruct (Hm p b Hb) as [Ep Eh]. unfold buf_ok in *. by rewrite Ep, Eh in *.
Qed.

Lemma finalize_safe F : fort_inv F → fallowed F_finalize F → fsafe oomph_finalize (λ _, fort_inv) F.
Proof.
  intros HF (Hc & Hb & Hw & Hm). unfold fsafe, oomph_finalize, delete_in. cbn in *.
  destruct (oomph_context F) as [c|], (oomph_barrier_obj F) as [b|]; try done. rewrite !decide_True by done.
  destruct (fo_states _ HF) as [S1 S2].
  assert (∀ i, op_over F i = true) as Hover.
  { intros i. destruct (op_over F i) eqn:E; [done|]. destruct (S2 i E) as [[c' b'] Hst].
    destruct (S1 _ _ _ Hst) as [Hin _]. rewrite Hw in Hin. set_solver. }
  assert (∀ i, ops (fe F) !! i = None) as Hops by (intros i; by apply (bool_decide_unpack _ (Is_true_true_2 _ (Hover i)))).
  split; [|split; cbn; [done|]].
  - eapply (same_core (set_fe (drop_heap (fe F)) F)); [|done..].
    eapply (fe_changes F (drop_heap (fe F)) ∅); [apply HF| |done|set_solver|set_solver|by apply same_ops_moves].
    apply drop_heap_inv; [apply HF|done|by apply map_eq; intros i; rewrite Hops].
  - intros i Hi. specialize (Hover i). unfold op_over in *. cbn in Hi. congruence.
Qed.

Lemma get_communicator_safe (Q : option positive → fort → Prop) F :
  fort_inv F → valid_global (oomph_context F) (contexts F) → (∀ w F', fort_inv F' → Q w F') →
  fsafe oomph_get_communicator Q F.
Proof.
  intros HF Hc HQ. unfold oomph_get_communicator. apply fsafe_bnd, get_context_safe; [done|]. intros _.
  apply HQ. eapply same_inv; try done. cbn. set_solver.
Qed.
End safe.

Lemma run_fop_safe hw dev_enabled device o F :
  hw_ok hw → fort_inv F → fallowed o F → fsafe (run_fop hw dev_enabled device o) (λ _, fort_inv) F.
Proof.
  intros Hhw HF Ho. destruct o; cbn [run_fop].
  - by eapply same_inv.
  - by apply finalize_safe.
  - apply fsafe_bnd, get_communicator_safe; [done|done|]. intros w F' HF'. apply fsafe_modify. by eapply same_inv.
  - by apply obj_free_safe.
  - apply fsafe_bnd. eapply fsafe_mono; [by apply message_new_safe|]. intros p F' HF'. apply fsafe_modify. by eapply same_inv.
  - by apply message_free_safe.
  - by apply message_zero_safe.
  - destruct Ho as (? & ? & ?). by apply post_send_safe.
  - destruct Ho as (? & ? & ?). by apply post_send_cb_safe.
  - destruct Ho as (? & ? & ?). by apply send_cb_safe.
  - destruct Ho as (? & ? & ?). by apply post_recv_safe.
  - destruct Ho as (? & ? & ?). by apply post_recv_cb_safe.
  - destruct Ho as (? & ? & ?). by apply recv_cb_safe.
  - destruct Ho as (? & ? & ?). by apply resubmit_recv_safe.
  - apply fsafe_bnd. eapply fsafe_mono; [by apply request_ready_safe|]. intros b F' HF'. by apply fsafe_ret.
  - apply fsafe_bnd. eapply fsafe_mono; [by apply request_cancel_safe|]. intros b' F' HF'. by apply fsafe_ret.
  - by apply fort_complete_safe.
  - by apply fort_return_safe.
Qed.

Lemma run_fops_safe hw dev_enabled device l F r F' :
  hw_ok hw → fort_inv F → run_fops hw dev_enabled device l F = Some (r, F') →
  match r with Halt h => h = assert_failed ∨ h = terminated | _ => fort_inv F' end.
Proof.
  intros Hhw. revert F. induction l as [|o l IH]; cbn; intros F HF; [by intros [= <- <-]|].
  case_decide as Ho; [|done]. pose proof (run_fop_safe hw dev_enabled device o F Hhw HF Ho) as Hs. unfold fsafe in Hs.
  destruct (run_fop hw dev_enabled device o F) as [[[]|e|h] F1]; [by apply IH..|]. by intros [= <- <-].
Qed.

(** ** Properties *)

Definition freaches hw dev_enabled device fs (l : list fop) (r : outcome unit) (F : fort) : Prop :=
  undeclared fs ∧ run_fops hw dev_enabled device l (init_fort fs []) = Some (r, F).

Lemma freaches_inv hw dev_enabled device fs l r F :
  hw_ok hw → freaches hw dev_enabled device fs l r F →
  match r with Halt h => h = assert_failed ∨ h = terminated | _ => fort_inv F end.
Proof. intros Hhw [Hf Hr]. eapply run_fops_safe; [done|by apply init_fort_inv|exact Hr]. Qed.

(** C36: A Fortran program that keeps the contract does not reach undefined behaviour,
    whatever the backend completes, cancels or rejects and when, and whatever the
    callbacks do with the bindings; the memory of every operation in flight is live and
    large enough, and so is the communicator it was posted on; and every request
    structure that has been posted to or initialised, and whose communicator has not been
    freed, can be asked: it says whether its operation is over. *)
Theorem fort_program_safe hw dev_enabled device fs l r F :
  hw_ok hw → freaches hw dev_enabled device fs l r F →
  r ≠ Halt undefined_behaviour ∧
  ((∀ h, r ≠ Halt h) →
   (∀ i o, ops (fe F) !! i = Some o →
      (∃ y, allocs (fe F) !! o_alloc o = Some y ∧ (o_bytes o ≤ a_bytes y)%Z) ∧
      (∃ c, rstates F !! i = Some (c, false) ∧ c ∈ wrappers F)) ∧
   (∀ x q, freqs F !! x = Some q → usable x F →
      oomph_request_ready (Some x) F = (Ret (from_option (op_over F) true (request_of q)), F))).
Proof.
  intros Hhw Hr%freaches_inv; [|done]. split; [by intros ->; destruct Hr|]. intros Hn.
  assert (fort_inv F) as HF by (destruct r; [done|done|by destruct (Hn h)]). split.
  - intros i o Ho. split.
    + destruct (fi_op _ _ (fo_fe _ HF) _ _ Ho) as (_ & b & Hb & Ha & Hsz).
      destruct (fi_buf _ _ (fo_fe _ HF) _ _ Hb) as [_ Hok]. rewrite Ha in Hok.
      destruct Hok as (h & y & _ & _ & Hy & Hle). exists y. split; [done|lia].
    + destruct (fo_states _ HF) as [S1 S2].
      assert (op_over F i = false) as Hi by (apply bool_decide_eq_false; rewrite Ho; by intros []).
      destruct (S2 i Hi) as [[c b] Hst]. destruct (S1 _ _ _ Hst) as [Hc Hb]. exists c. by rewrite Hst, Hb, Hi.
  - intros x q Hq Hu. by apply request_ready_run.
Qed.

(** Null pointers: each function that posts ends the program with [std::terminate] when
    the message or the communicator is null, before it has done anything; the others
    accept null messages. *)
Theorem fort_null_terminates F a rank tag cb freq ud ranks n tags :
  (∀ w m, w = None ∨ m = None →
     oomph_comm_post_send a w m rank tag freq F = (Halt terminated, F) ∧
     oomph_comm_post_send_cb_wrapped a w m rank tag cb freq ud F = (Halt terminated, F) ∧
     oomph_comm_post_recv a w m rank tag freq F = (Halt terminated, F) ∧
     oomph_comm_post_recv_cb_wrapped a w m rank tag cb freq ud F = (Halt terminated, F) ∧
     oomph_comm_resubmit_recv_wrapped a w m rank tag cb freq ud F = (Halt terminated, F) ∧
     oomph_comm_post_send_multi_wrapped w m ranks n tags freq F = (Halt terminated, F) ∧
     oomph_comm_post_send_multi_cb_wrapped w m ranks n tags cb freq ud F = (Halt terminated, F)) ∧
  (∀ w x, w = None ∨ x = None ∨ (∃ y, x = Some y ∧ mesg_vars F !! y = Some None) →
     oomph_comm_send_cb_wrapped a w x rank tag cb freq ud F = (Halt terminated, F) ∧
     oomph_comm_recv_cb_wrapped a w x rank tag cb freq ud F = (Halt terminated, F) ∧
     oomph_comm_send_multi_cb_wrapped w x ranks n tags cb freq ud F = (Halt terminated, F)) ∧
  oomph_message_free None F = (Ret tt, F) ∧ oomph_message_zero None F = (Ret tt, F) ∧
  oomph_message_data_wrapped None F = (Ret (None, 0%Z), F).
Proof.
  split; [|split; [|done]].
  - intros w m Hwm. assert (null m || null w = true) as E.
    { unfold null. destruct Hwm as [-> | ->]; [apply orb_true_r|done]. }
    unfold oomph_comm_post_send, oomph_comm_post_send_cb_wrapped, oomph_comm_post_recv, oomph_comm_post_recv_cb_wrapped,
      oomph_comm_resubmit_recv_wrapped, oomph_comm_post_send_multi_wrapped, oomph_comm_post_send_multi_cb_wrapped.
    by rewrite E.
  - intros w x Hwx. unfold oomph_comm_send_cb_wrapped, oomph_comm_recv_cb_wrapped, oomph_comm_send_multi_cb_wrapped.
    destruct (null x || null w) eqn:E; [done|]. destruct w as [w|]; [|by rewrite orb_true_r in E].
    destruct x as [x|]; [|done]. destruct Hwx as [?|[?|(y & [= <-] & Hy)]]; [done..|].
    unfold message_at, bnd, gets. cbn. by rewrite Hy.
Qed.

Lemma store_request_returns f d b F F' :
  store_request (Some f) d b F = (Ret tt, F') → freqs F' !! f = Some (FRequest d b).
Proof.
  unfold store_request, bnd, gets. cbn. destruct (freqs F !! f); cbn; [|done]. intros [= <-]. cbn. apply lookup_insert_eq.
Qed.

Lemma multi_bytes_undefined f m b prog fuel F :
  freqs F !! f = Some (FRequest (Fd_multi m) b) →
  oomph_request_ready (Some f) F = (Halt undefined_behaviour, F) ∧
  oomph_request_test prog (Some f) F = (Halt undefined_behaviour, F) ∧
  oomph_request_wait prog fuel (Some f) F = (Halt undefined_behaviour, F).
Proof.
  intros Hf. unfold oomph_request_ready, oomph_request_test, oomph_request_wait, read_freq, bnd, gets. cbn.
  rewrite Hf. cbn. by destruct b.
Qed.

(** The request of a send to many neighbours cannot be used: the structure holds a
    [send_multi_request], but the functions on requests take it for a [send_request],
    whose state is of another type. *)
Theorem fort_multi_request_unusable w m ranks n tags f prog fuel F F' :
  oomph_comm_post_send_multi_wrapped w m ranks n tags (Some f) F = (Ret tt, F') →
  oomph_request_ready (Some f) F' = (Halt undefined_behaviour, F') ∧
  oomph_request_test prog (Some f) F' = (Halt undefined_behaviour, F') ∧
  oomph_request_wait prog fuel (Some f) F' = (Halt undefined_behaviour, F').
Proof.
  unfold oomph_comm_post_send_multi_wrapped. destruct (null m || null w); [done|].
  intros (c & F1 & _ & (a1 & F2 & _ & (a2 & F3 & _ & (v & F4 & _ &
    (msg & F5 & _ & (req & F6 & _ & E)%bnd_inv)%bnd_inv)%bnd_inv)%bnd_inv)%bnd_inv)%bnd_inv.
  apply store_request_returns in E. by apply (multi_bytes_undefined f req false).
Qed.

(** *** Messages that are given away *)

Lemma post_rref_returns k v b u r t accept s s' :
  fe_inv None s → bufs s !! inl v = Some b →
  post_rref (submit k) v r t u accept s = (Ret tt, s') →
  bufs s' !! inl v = Some (empty_buf (m_size b) (elem b)).
Proof.
  intros HI Hb. unfold post_rref. erewrite bnd_ret by by apply read_buf_run. destruct (is_set b); [|done].
  erewrite bnd_ret by done. erewrite bnd_ret by done. cbn zeta. unfold construct_move.
  erewrite bnd_ret by (erewrite bnd_ret by (by apply read_buf_run); by apply move_construct_run).
  unfold submit, bnd at 1, gets, on_exception, bnd at 1.
  destruct (impl_m _ _) as [[[a|]|e|h] s1] eqn:E; [|done|unfold bnd; by destruct (destroy_buf _ s1) as [[] ?]|done].
  destruct accept; cbn; [|unfold bnd; by destruct (destroy_buf _ s1) as [[] ?]].
  intros [= <-]. cbn. pose proof (same_impl_m (m_heap_ptr b) (moved (inr (next_op s)) (inl v) b (m_size b) (elem b) s)) as Hs.
  rewrite E in Hs. cbn in Hs. rewrite Hs, moved_lookup, decide_False, decide_True by done. done.
Qed.

Lemma store_if_fe f d b F F' :
  store_request_if f d b F = (Ret tt, F') → fe F' = fe F ∧ mesg_vars F' = mesg_vars F.
Proof.
  destruct f as [f|]; cbn; [|by intros [= <-]]. unfold store_request, bnd, gets. cbn.
  destruct (freqs F !! f); cbn; [|done]. by intros [= <-].
Qed.

(** A message that is given away with its callback: the variable of the program is null
    afterwards, and the object it pointed to has nothing left, but it still exists, and
    no function of the bindings can delete it any more through that variable. *)
Theorem fort_given_object_stays hw dev_enabled device fs l r0 F a w x v rank tag cb freq ud F' :
  hw_ok hw → freaches hw dev_enabled device fs l r0 F → (∀ h, r0 ≠ Halt h) →
  mesg_vars F !! x = Some (Some v) → is_Some (bufs (fe F) !! inl v) →
  oomph_comm_send_cb_wrapped a w (Some x) rank tag cb freq ud F = (Ret tt, F') →
  mesg_vars F' !! x = Some None ∧
  (∃ b, bufs (fe F') !! inl v = Some b ∧ m_ptr b = None ∧ m_heap_ptr b = None) ∧
  oomph_message_free (Some x) F' = (Ret tt, set_mesg_vars (<[x := None]> (mesg_vars F')) F').
Proof.
  intros Hhw Hr%freaches_inv Hn Hx [b Hb] E; [|done].
  assert (fort_inv F) as HF by (destruct r0; [done|done|by destruct (Hn h)]).
  unfold oomph_comm_send_cb_wrapped in E. destruct (null (Some x) || null w); [done|].
  apply bnd_inv in E as (m & F1 & Em & E). unfold message_at, bnd, gets in Em. cbn in Em. rewrite Hx in Em.
  injection Em as <- <-. cbn [null bool_decide] in E. apply bnd_inv in E as (c & F2 & Ec & E).
  assert (F2 = F) as ->.
  { unfold get_object_ptr_unsafe, bnd, gets in Ec. destruct w as [w|]; cbn in Ec; [|done].
    unfold ret, stop in Ec. case_decide; by simplify_eq/=. }
  apply bnd_inv in E as (v' & F3 & [= <- <-] & E). apply bnd_inv in E as (u & F4 & [= <- <-] & E).
  apply bnd_inv in E as (req & F5 & Er & E). apply bnd_inv in Er as (i & F6 & [= <- <-] & Er).
  apply bnd_inv in Er as ([] & F7 & Er & [= _ <-]). unfold on_fe in Er. cbn [fe set_closures] in Er.
  destruct (send_rref _ _ _ _ _ (fe F)) as [[[]|e|h] s'] eqn:Ep; try done. injection Er as <-.
  apply (post_rref_returns _ _ b) in Ep; [|apply HF|done].
  apply bnd_inv in E as (y & F8 & [= <- <-] & E). apply bnd_inv in E as ([] & F9 & [= <-] & E).
  apply store_if_fe in E as [E1 E2]. rewrite E1, E2. cbn. rewrite lookup_insert_eq. split; [done|]. split.
  - eexists. split; [exact Ep|done].
  - unfold oomph_message_free, bnd, gets. cbn. rewrite E2. cbn. rewrite lookup_insert_eq. cbn. unfold modify. by rewrite E2.
Qed.

(** ** Examples *)

(** Two messages; the first is sent and given away, the second is received into and
    resubmitted by its callback. *)
Definition fort_structs : gmap nat frequest := <[0 := FRequest Fd_raw false]> (<[1 := FRequest Fd_zero false]> ∅).
Definition fort_setup : list fop :=
  [ F_init 1; F_get_communicator 0; F_message_new 0 64 OomphAllocatorHost; F_message_new 1 32 OomphAllocatorHost ].
Definition fort_program : list fop :=
  fort_setup ++
  [ F_recv_cb (Some 1%positive) 1 5 7 (Some 20) (Some 0) None true;
    F_post_send_cb (Some 1%positive) (Some 1) 5 7 None (Some 1) None true;
    F_complete 0 5 7; F_resubmit_recv (Some 1%positive) (Some 4) 5 7 (Some 20) (Some 0) None true; F_return 0 ].
(** ... and ends in order: everything completes, and is given back. *)
Definition fort_ending : list fop :=
  fort_program ++ [ F_complete 1 5 7; F_return 1; F_complete 2 5 7; F_return 2; F_ready 0; F_message_free 0; F_obj_free 0; F_finalize ].
Definition fort_state (l : list fop) : fort :=
  match run_fops any_free false 0 l (init_fort fort_structs []) with Some (_, F) => F | None => init_fort ∅ [] end.

Lemma fort_structs_ok : undeclared fort_structs.
Proof. unfold fort_structs. intros x q [[_ <-]|[_ [[_ <-]|[_ ?]]%lookup_insert_Some]]%lookup_insert_Some; [by left|by right|done]. Qed.

Lemma fort_program_reaches : freaches any_free false 0 fort_structs fort_program (Ret tt) (fort_state fort_program).
Proof. split; [apply fort_structs_ok|]. vm_compute. exact eq_refl. Qed.
Lemma fort_setup_reaches : freaches any_free false 0 fort_structs fort_setup (Ret tt) (fort_state fort_setup).
Proof. split; [apply fort_structs_ok|]. vm_compute. exact eq_refl. Qed.

Example fort_ends :
  (∃ F, run_fops any_free false 0 fort_ending (init_fort fort_structs []) = Some (Ret tt, F) ∧
     contexts F = ∅ ∧ wrappers F = ∅ ∧ allocs (fe F) = ∅) ∧
  run_fops any_free false 0 (fort_program ++ [F_obj_free 0]) (init_fort fort_structs []) = None ∧
  run_fops any_free false 0 (fort_ending ++ [F_ready 0]) (init_fort fort_structs []) = None.
Proof. split_and!; [eexists; split; [vm_compute; exact eq_refl|by vm_compute]|by vm_compute..]. Qed.

(** The receive that the callback resubmitted, into the same memory, is in flight. *)
Lemma fort_program_safe_witness :
  oomph_request_ready (Some 0) (fort_state fort_program) = (Ret false, fort_state fort_program) ∧
  fcalls (fort_state fort_program) = [FCall 20 4 5 7 None].
Proof.
  split; [|vm_compute; reflexivity].
  destruct (fort_program_safe any_free false 0 fort_structs fort_program (Ret tt) (fort_state fort_program)
              any_free_ok fort_program_reaches) as [_ H].
  destruct (H ltac:(discriminate)) as [_ Hr].
  refine (Hr 0 (FRequest (Fd_recv 2) true) _ _); [vm_compute; exact eq_refl|].
  apply (bool_decide_unpack _). vm_compute. exact I.
Defined.

Lemma fort_null_terminates_witness :
  oomph_comm_post_send true None (Some 1) 5 7 (Some 0) (fort_state fort_setup) = (Halt terminated, fort_state fort_setup).
Proof.
  apply (fort_null_terminates (fort_state fort_setup) true 5 7 None (Some 0) None [] 0 []). by left.
Defined.

Definition fort_sent : fort :=
  (oomph_comm_send_cb_wrapped true (Some 1%positive) (Some 0) 5 7 None None None (fort_state fort_setup)).2.

Lemma fort_given_object_stays_witness :
  mesg_vars fort_sent !! 0 = Some None ∧
  ∃ b, bufs (fe fort_sent) !! inl 1 = Some b ∧ m_ptr b = None ∧ m_heap_ptr b = None.
Proof.
  destruct (fort_given_object_stays any_free false 0 fort_structs fort_setup (Ret tt) (fort_state fort_setup)
    true (Some 1%positive) 0 1 5 7 None None None fort_sent any_free_ok fort_setup_reaches ltac:(discriminate)
    ltac:(vm_compute; exact eq_refl) ltac:(vm_compute; by eexists) ltac:(vm_compute; exact eq_refl)) as (H1 & H2 & _).
  split; [exact H1|exact H2].
Defined.

Definition fort_multi : fort :=
  (oomph_comm_post_send_multi_wrapped (Some 1%positive) (Some 1) [3%Z; 4%Z] 2 [8%Z; 9%Z] (Some 0) (fort_state fort_setup)).2.

Lemma fort_multi_request_unusable_witness :
  oomph_request_ready (Some 0) fort_multi = (Halt undefined_behaviour, fort_multi) ∧
  length (sent (mu fort_multi)) = 2.
Proof.
  split; [|vm_compute; reflexivity].
  apply (fort_multi_request_unusable (Some 1%positive) (Some 1) [3%Z; 4%Z] 2 [8%Z; 9%Z] 0 (ret tt) 0 (fort_state fort_setup)).
  vm_compute. exact eq_refl.
Defined.
