(* ===== verification/AddressDb.v ===== *)
(** * The exchange of UCX worker addresses

    Model of src/ucx/address.hpp and src/ucx/address_db_mpi.hpp: every rank tells
    all others the address of its receive worker, which [worker_t::connect] looks up
    later.  [init] is run by all ranks together; a rank is a program that stops at
    each [MPI_Bcast] with the contents of its buffer and goes on with the buffer the
    broadcast leaves.  MPI matches the broadcasts of the ranks in their order.
    Broadcasts whose roots or counts differ, or whose count is negative or larger
    than the buffer, are errors.  MPI itself does not fail: its default error
    handler ends the program. *)
From S2P Require Import Prelude.
Local Open Scope Z_scope.

(** ** Data *)

(** [address_t]: [std::vector<unsigned char>] *)
Abbreviation address_t := (list Z).

Record address_db_mpi : Type := AddressDb {
  m_rank : Z;
  m_size : Z;
  m_value : address_t;
  m_address_map : gmap Z address_t
}.

Definition new_db (rank size : Z) : address_db_mpi := AddressDb rank size [] ∅.

Definition find_error : exn :=
  runtime_error "Cound not find peer address in the MPI address xdatabase.".

Definition find (k : Z) (db : address_db_mpi) : outcome address_t :=
  match m_address_map db !! k with Some a => Ret a | None => Throw find_error end.

Definition put_address (k : Z) (a : address_t) (db : address_db_mpi) : address_db_mpi :=
  AddressDb (m_rank db) (m_size db) (m_value db) (<[k := a]> (m_address_map db)).

(** The bytes of a [std::size_t] in memory, and back *)
Fixpoint to_bytes (n : nat) (z : Z) : list Z :=
  match n with O => [] | S n => z mod 256 :: to_bytes n (z / 256) end.
Fixpoint of_bytes (l : list Z) : Z :=
  match l with [] => 0 | b :: l => b + 256 * of_bytes l end.

(** The conversion of a size to the [int] count of a broadcast *)
Definition int_of (z : Z) : Z := (z + 2 ^ 31) mod 2 ^ 32 - 2 ^ 31.

(** ** Programs of ranks *)

Inductive prog : Type :=
| Done (db : address_db_mpi)
| Bcast (root count : Z) (buf : list Z) (k : list Z → prog).

(** The loop over the ranks; memory that is not initialized holds [junk]. *)
Fixpoint init_loop (junk : Z) (n : nat) (r : Z) (db : address_db_mpi) : prog :=
  match n with
  | O => Done db
  | S n =>
      if r =? m_rank db then
        Bcast r 8 (to_bytes 8 (Z.of_nat (length (m_value db)))) (λ _,
        Bcast r (int_of (Z.of_nat (length (m_value db)))) (m_value db) (λ _,
        init_loop junk n (r + 1) db))
      else
        Bcast r 8 (to_bytes 8 junk) (λ b,
        let size := of_bytes b in
        Bcast r (int_of size) (replicate (Z.to_nat size) 0) (λ addr,
        init_loop junk n (r + 1) (put_address r addr db)))
  end.

Definition init (junk : Z) (addr : address_t) (db : address_db_mpi) : prog :=
  init_loop junk (Z.to_nat (m_size db)) 0
    (put_address (m_rank db) addr (AddressDb (m_rank db) (m_size db) addr (m_address_map db))).

(** ** All ranks together *)

(** What rank [p] gets from a broadcast of [data]: the start of its buffer is
    replaced. *)
Definition resume (root count : Z) (data : list Z) (p : prog) : option prog :=
  match p with
  | Bcast r c buf k =>
      if bool_decide (r = root ∧ c = count ∧ 0 ≤ c ≤ Z.of_nat (length buf))
      then Some (k (data ++ drop (Z.to_nat c) buf)) else None
  | Done _ => None
  end.

(** The next broadcast, of the root that the first rank names *)
Definition bcast (ps : list prog) : option (list prog) :=
  match ps with
  | Bcast root count _ _ :: _ =>
      match ps !! Z.to_nat root with
      | Some (Bcast _ _ buf _) =>
          if 0 <=? root then mapM (resume root count (take (Z.to_nat count) buf)) ps else None
      | _ => None
      end
  | _ => None
  end.

Fixpoint run_ranks (n : nat) (ps : list prog) : option (list prog) :=
  match n with O => Some ps | S n => bcast ps ≫= run_ranks n end.

(** The ranks of a communicator, each with the address of its worker *)
Definition start (junk : Z) (addrs : list address_t) : list prog :=
  imap (λ i a, init junk a (new_db (Z.of_nat i) (Z.of_nat (length addrs)))) addrs.

(** ** Proofs *)

Lemma to_bytes_length n z : length (to_bytes n z) = n.
Proof. revert z. induction n; cbn; auto. Qed.

Lemma of_to_bytes n z : 0 ≤ z < 256 ^ Z.of_nat n → of_bytes (to_bytes n z) = z.
Proof.
  revert z. induction n as [|n IH]; intros z Hz; [cbn in *; lia|].
  rewrite Nat2Z.inj_succ, Z.pow_succ_r in Hz by lia. cbn [to_bytes of_bytes].
  rewrite IH; [pose proof (Z.div_mod z 256); lia|].
  split; [apply Z.div_pos; lia|]. apply Z.div_lt_upper_bound; lia.
Qed.

Lemma int_of_small z : 0 ≤ z < 2 ^ 31 → int_of z = z.
Proof. intros Hz. unfold int_of. rewrite Z.mod_small; lia. Qed.

(** A function that succeeds on every element *)
Lemma mapM_each {A B} (f : A → option B) (Q : nat → B → Prop) l :
  (∀ i x, l !! i = Some x → ∃ y, f x = Some y ∧ Q i y) →
  ∃ l', mapM f l = Some l' ∧ length l' = length l ∧ ∀ i y, l' !! i = Some y → Q i y.
Proof.
  revert Q. induction l as [|x l IH]; intros Q Hf; [by exists []|].
  destruct (Hf 0%nat x eq_refl) as (y & Hy & HQ).
  destruct (IH (λ i, Q (S i)) (λ i, Hf (S i))) as (l' & El & Hlen & Hl).
  exists (y :: l'). cbn. rewrite Hy. cbn. rewrite El. cbn. split_and!; [done|lia|].
  intros [|j] z; cbn; [by intros [= <-]|apply Hl].
Qed.

(** All ranks at a broadcast of [count] bytes from rank [r], whose buffer is [data] *)
Lemma bcast_ok (ps : list prog) (r : nat) (data : list Z) (Q : nat → prog → Prop) :
  (r < length ps)%nat → Z.of_nat (length data) < 2 ^ 31 →
  (∀ i p, ps !! i = Some p → ∃ buf k, p = Bcast (Z.of_nat r) (Z.of_nat (length data)) buf k ∧
     length buf = length data ∧ (i = r → buf = data) ∧ Q i (k data)) →
  ∃ ps', bcast ps = Some ps' ∧ length ps' = length ps ∧ ∀ i p, ps' !! i = Some p → Q i p.
Proof.
  intros Hr Hd Hps. destruct ps as [|p0 ps0] eqn:Ep; [cbn in Hr; lia|]. rewrite <- Ep in *.
  destruct (lookup_lt_is_Some_2 ps r Hr) as [pr Hpr].
  destruct (Hps r pr Hpr) as (br & kr & -> & _ & Hbr & _). specialize (Hbr eq_refl) as ->.
  assert (ps !! 0%nat = Some p0) as H0 by by rewrite Ep.
  destruct (Hps 0%nat p0 H0) as (b0 & k0 & E0 & _).
  unfold bcast. rewrite Ep, E0, <- E0, <- Ep, Nat2Z.id, Hpr.
  replace (0 <=? Z.of_nat r) with true by (symmetry; apply Z.leb_le; lia).
  apply mapM_each. intros i p Hi. destruct (Hps i p Hi) as (buf & k & -> & Hlen & _ & HQ).
  exists (k data). split; [|done]. unfold resume. rewrite bool_decide_eq_true_2 by (split_and!; lia).
  by rewrite Nat2Z.id, firstn_all, <- Hlen, drop_all, app_nil_r.
Qed.

Section exchange.
Context (junk : Z) (addrs : list address_t).
Hypothesis Haddrs : ∀ i a, addrs !! i = Some a → Z.of_nat (length a) < 2 ^ 31.

(** The database of rank [i] after the rounds of the first [r] ranks *)
Record db_ok (r i : nat) (a : address_t) (db : address_db_mpi) : Prop := {
  do_rank : m_rank db = Z.of_nat i;
  do_value : m_value db = a;
  do_map j : m_address_map db !! Z.of_nat j = if decide (j = i ∨ (j < r)%nat) then addrs !! j else None
}.

(** All ranks before round [r] *)
Definition at_round (r : nat) (i : nat) (p : prog) : Prop :=
  ∃ a db, addrs !! i = Some a ∧ p = init_loop junk (length addrs - r) (Z.of_nat r) db ∧ db_ok r i a db.

Lemma db_ok_put r i a ar db :
  db_ok r i a db → addrs !! r = Some ar → db_ok (S r) i a (put_address (Z.of_nat r) ar db).
Proof.
  intros [H1 H2 H3] Har. split; try done. intros j. cbn. rewrite lookup_insert. case_decide as E.
  - assert (j = r) as -> by lia. by rewrite decide_True by lia.
  - rewrite H3. repeat case_decide; try done; lia.
Qed.

Lemma db_ok_own r a db : db_ok r r a db → db_ok (S r) r a db.
Proof. intros [H1 H2 H3]. split; try done. intros j. rewrite H3. repeat case_decide; try done; lia. Qed.

(** All ranks between the two broadcasts of round [r] *)
Definition in_round (r : nat) (ar : address_t) (i : nat) (p : prog) : Prop :=
  ∃ buf k, p = Bcast (Z.of_nat r) (Z.of_nat (length ar)) buf k ∧
    length buf = length ar ∧ (i = r → buf = ar) ∧ at_round (S r) i (k ar).

Lemma init_loop_sizes r i ar p :
  addrs !! r = Some ar → at_round r i p →
  ∃ buf k, p = Bcast (Z.of_nat r) 8 buf k ∧ length buf = 8%nat ∧
    (i = r → buf = to_bytes 8 (Z.of_nat (length ar))) ∧
    in_round r ar i (k (to_bytes 8 (Z.of_nat (length ar)))).
Proof.
  intros Har (a & db & Ha & -> & Hdb). pose proof (Haddrs r ar Har) as Hlt.
  pose proof (lookup_lt_Some _ _ _ Har) as Hr.
  replace (length addrs - r)%nat with (S (length addrs - S r)) by lia. cbn [init_loop].
  rewrite (do_rank _ _ _ _ Hdb), (do_value _ _ _ _ Hdb). replace (Z.of_nat r + 1) with (Z.of_nat (S r)) by lia.
  destruct (Z.eqb_spec (Z.of_nat r) (Z.of_nat i)) as [E|E].
  - assert (i = r) as -> by lia. rewrite Ha in Har. injection Har as ->. eexists _, _. split; [done|].
    split; [apply to_bytes_length|]. split; [done|]. eexists _, _. rewrite int_of_small by lia.
    split; [done|]. split_and!; [done..|]. exists ar, db. split_and!; [done..|by apply db_ok_own].
  - eexists _, _. split; [done|]. split; [apply to_bytes_length|]. split; [lia|]. cbn beta.
    rewrite of_to_bytes by (cbn; lia). eexists _, _. rewrite int_of_small by lia. split; [done|].
    rewrite length_replicate, Nat2Z.id. split_and!; [done|lia|].
    exists a, (put_address (Z.of_nat r) ar db). split_and!; [done..|by apply db_ok_put].
Qed.

(** A round hands the address of rank [r] to every rank. *)
Lemma round_ok r ps :
  (r < length addrs)%nat → length ps = length addrs → (∀ i p, ps !! i = Some p → at_round r i p) →
  ∃ ps', run_ranks 2 ps = Some ps' ∧ length ps' = length addrs ∧ ∀ i p, ps' !! i = Some p → at_round (S r) i p.
Proof.
  intros Hr Hlen Hps. destruct (lookup_lt_is_Some_2 addrs r Hr) as [ar Har].
  destruct (bcast_ok ps r (to_bytes 8 (Z.of_nat (length ar))) (in_round r ar)) as (ps1 & E1 & Hlen1 & H1);
    [lia|rewrite to_bytes_length; lia| |].
  { intros i p Hp. destruct (init_loop_sizes r i ar p Har (Hps i p Hp)) as (buf & k & -> & Hb & Hr' & Hk).
    exists buf, k. by rewrite to_bytes_length. }
  destruct (bcast_ok ps1 r ar (at_round (S r))) as (ps2 & E2 & Hlen2 & H2); [lia|by eapply Haddrs|exact H1|].
  exists ps2. cbn. rewrite E1. cbn. rewrite E2. split_and!; [done|lia|done].
Qed.

Lemma run_ranks_add n m ps : run_ranks (n + m) ps = run_ranks n ps ≫= run_ranks m.
Proof. revert ps. induction n as [|n IH]; intros ps; [done|]. cbn. destruct (bcast ps); [apply IH|done]. Qed.

Lemma rounds_ok r ps :
  (r ≤ length addrs)%nat → length ps = length addrs → (∀ i p, ps !! i = Some p → at_round 0 i p) →
  ∃ ps', run_ranks (2 * r) ps = Some ps' ∧ length ps' = length addrs ∧ ∀ i p, ps' !! i = Some p → at_round r i p.
Proof.
  intros Hr Hlen Hps. induction r as [|r IH]; [by exists ps|].
  destruct IH as (ps1 & E1 & Hlen1 & H1); [lia|].
  destruct (round_ok r ps1) as (ps2 & E2 & Hlen2 & H2); [lia|done..|].
  exists ps2. replace (2 * S r)%nat with (2 * r + 2)%nat by lia. by rewrite run_ranks_add, E1.
Qed.
End exchange.

Lemma start_round junk addrs i p : start junk addrs !! i = Some p → at_round junk addrs 0 i p.
Proof.
  unfold start. rewrite list_lookup_imap. destruct (addrs !! i) as [a|] eqn:Ha; [|done]. intros [= <-].
  unfold init. cbn. rewrite Nat2Z.id. eexists a, _. split; [done|]. rewrite Nat.sub_0_r. split; [done|].
  split; try done. intros j. cbn. rewrite lookup_insert. case_decide as E.
  - assert (j = i) as -> by lia. by rewrite decide_True by lia.
  - rewrite decide_False by lia. apply lookup_empty.
Qed.

(** C34: The exchange of addresses does not get stuck and no two broadcasts mismatch:
    after two broadcasts per rank every rank is done, and every rank finds for every
    rank the address of that rank's worker, byte for byte; the look-up of any other
    rank throws. *)
Theorem address_exchange_complete junk addrs :
  (∀ i a, addrs !! i = Some a → Z.of_nat (length a) < 2 ^ 31) →
  ∃ ps, run_ranks (2 * length addrs) (start junk addrs) = Some ps ∧ length ps = length addrs ∧
    ∀ i p, ps !! i = Some p → ∃ db, p = Done db ∧ m_rank db = Z.of_nat i ∧
      ∀ r, find (Z.of_nat r) db = match addrs !! r with Some a => Ret a | None => Throw find_error end.
Proof.
  intros Ha. destruct (rounds_ok junk addrs Ha (length addrs) (start junk addrs)) as (ps & E & Hlen & Hps);
    [done|apply length_imap|apply start_round|].
  exists ps. split_and!; [done..|]. intros i p Hp. destruct (Hps i p Hp) as (a & db & Hi & -> & Hdb).
  rewrite Nat.sub_diag. exists db. split; [done|]. split; [apply Hdb|]. intros r.
  unfold find. rewrite (do_map _ _ _ _ _ Hdb). pose proof (lookup_lt_Some _ _ _ Hi).
  case_decide as E'; [done|]. by rewrite lookup_ge_None_2 by lia.
Qed.

Lemma address_exchange_complete_witness :
  ∃ ps, run_ranks 6 (start 170 [[1; 2; 3]; []; [255; 0]]) = Some ps ∧ length ps = 3%nat ∧
    ∀ i p, ps !! i = Some p → ∃ db, p = Done db ∧ m_rank db = Z.of_nat i ∧
      ∀ r, find (Z.of_nat r) db =
           match ([[1; 2; 3]; []; [255; 0]] : list address_t) !! r with Some a => Ret a | None => Throw find_error end.
Proof.
  apply (address_exchange_complete 170 [[1; 2; 3]; []; [255; 0]]).
  intros [|[|[|i]]] a; [intros [= <-]; cbn; lia..|done].
Defined.
