(* ===== verification/Pmi.v ===== *)
(** * The exchange of UCX worker addresses through PMIx

    Model of src/ucx/pmi.hpp and src/ucx/address_db_pmi.hpp: every rank stores the address
    of its receive worker under a key of its database and looks the addresses of the
    others up.  The database uses ranks of an MPI communicator; PMIx has ranks of its own,
    so the constructor collects the PMIx rank of every MPI rank.

    PMIx is a parameter ([Pmix]); [PmixLaws] states what its documentation promises:
    a value that is put and committed can be got by all ranks after a fence that collects
    the data.  The ranks run their operations one after the other in any order;
    [PMIx_Fence] and [MPI_Alltoall] are collective. *)
From S2P Require Import Prelude.
From stdpp Require Import pretty.
Local Open Scope Z_scope.

(** ** PMIx *)

(** The values of the library: the program stores byte objects. *)
Inductive pmix_value : Type :=
| Byte_object (bytes : list Z)
| Other_value.

Definition PMIX_SUCCESS : Z := 0.

Class Pmix : Type := {
  pmix_st : Type;
  PMIx_Init : Z → pmix_st → Z * pmix_st;
  PMIx_Job_size : pmix_st → Z + Z;
  PMIx_Put : Z → string → pmix_value → pmix_st → Z * pmix_st;
  PMIx_Commit : Z → pmix_st → Z * pmix_st;
  PMIx_Fence : pmix_st → Z * pmix_st;
  PMIx_Get : Z → string → pmix_st → Z + pmix_value;
  PMIx_Finalize : Z → pmix_st → Z * pmix_st
}.

(** What was put by a rank, what it has committed, and what all can get. *)
Class PmixLaws `{Pmix} : Type := {
  put_by : pmix_st → gmap (Z * string) pmix_value;
  committed : pmix_st → gmap (Z * string) pmix_value;
  visible : pmix_st → gmap (Z * string) pmix_value;
  law_put r k v u u' : PMIx_Put r k v u = (PMIX_SUCCESS, u') →
    put_by u' = <[(r, k) := v]> (put_by u) ∧ committed u' = committed u ∧ visible u' = visible u;
  law_commit r u u' : PMIx_Commit r u = (PMIX_SUCCESS, u') →
    put_by u' = put_by u ∧ visible u' = visible u ∧
    ∀ q k, committed u' !! (q, k) = if decide (q = r) then put_by u !! (q, k) else committed u !! (q, k);
  law_fence u u' : PMIx_Fence u = (PMIX_SUCCESS, u') → visible u' = committed u;
  law_get r k u : match visible u !! (r, k) with
    | Some v => PMIx_Get r k u = inr v
    | None => ∃ rc, PMIx_Get r k u = inl rc ∧ rc ≠ PMIX_SUCCESS
    end
}.

Section pmi.
Context `{Pmix}.

(** ** class pmi *)

Record pmi : Type := Pmi {
  moved : bool;
  nspace : string;
  my_rank : Z;
  nprocs : Z
}.

Definition to_str (z : Z) : string := pretty z.

(** [int32_t] *)
Definition int32 (z : Z) : Z := (z + 2 ^ 31) mod 2 ^ 32 - 2 ^ 31.

(** The start of the messages *)
Definition client (ns : string) (r : Z) : string := "Client ns " +:+ ns +:+ " rank " +:+ to_str r.

(** The constructor; the name space and the rank of the process are what [PMIx_Init]
    stores in [myproc]. *)
Definition new_pmi (ns : string) (r : Z) : M pmix_st pmi := λ u,
  let '(rc, u) := PMIx_Init r u in
  if decide (rc = PMIX_SUCCESS) then
    match PMIx_Job_size u with
    | inr n => (Ret (Pmi false ns r (int32 n)), u)
    | inl rc => (Throw (runtime_error (client ns r +:+ ": PMIx_Get job size failed: " +:+ to_str rc)), u)
    end
  else (Throw (runtime_error ("PMIx_Init failed with code " +:+ to_str rc)), u).

(** [~pmi()]: a failure is only logged. *)
Definition destroy_pmi (p : pmi) : M pmix_st unit := λ u,
  if moved p then (Ret tt, u) else (Ret tt, (PMIx_Finalize (my_rank p) u).2).

(** The move constructor: the bit of the source is set. *)
Definition move_pmi (p : pmi) : pmi * pmi :=
  (p, Pmi true (nspace p) (my_rank p) (nprocs p)).

Definition pmi_rank (p : pmi) : Z := my_rank p.
Definition pmi_size (p : pmi) : Z := nprocs p.

Definition set (p : pmi) (key : string) (data : list Z) : M pmix_st unit := λ u,
  let '(rc, u) := PMIx_Put (my_rank p) key (Byte_object data) u in
  if decide (rc = PMIX_SUCCESS) then
    let '(rc, u) := PMIx_Commit (my_rank p) u in
    if decide (rc = PMIX_SUCCESS) then (Ret tt, u)
    else (Throw (runtime_error (client (nspace p) (my_rank p) +:+ ": PMIx_Commit failed: " +:+ key +:+ " " +:+ to_str rc)), u)
  else (Throw (runtime_error (client (nspace p) (my_rank p) +:+ ": PMIx_Put failed: " +:+ key +:+ " " +:+ to_str rc)), u).

Definition get_error (p : pmi) (key : string) (rc : Z) : string :=
  client (nspace p) (my_rank p) +:+ ": PMIx_Get " +:+ key +:+ ": " +:+ to_str rc.

Definition get (p : pmi) (peer_rank : Z) (key : string) : M pmix_st (list Z) := λ u,
  match PMIx_Get peer_rank key u with
  | inl rc => (Throw (runtime_error (get_error p key rc)), u)
  | inr Other_value => (Throw (runtime_error (get_error p key PMIX_SUCCESS)), u)
  | inr (Byte_object data) => (Ret data, u)
  end.

(** The collective call of all ranks *)
Definition exchange (p : pmi) : M pmix_st unit := λ u,
  let '(rc, u) := PMIx_Fence u in
  if decide (rc = PMIX_SUCCESS) then (Ret tt, u)
  else (Throw (runtime_error (client (nspace p) (my_rank p) +:+ ": PMIx_Fence failed: " +:+ to_str rc)), u).

(** ** class address_db_pmi *)

Record address_db_pmi : Type := AddressDbPmi {
  pmi_impl : pmi;
  m_rank_map : list Z;
  m_rank : Z;
  m_size : Z;
  m_key : string
}.

(** [make_instance()]: the value of the static counter, which is one more afterwards *)
Definition make_instance (_instance : Z) : Z * Z := (_instance, _instance + 1).

Definition make_key (instance : Z) : string := "ghex-rank-address" +:+ ("_" +:+ to_str instance).

(** [MPI_Alltoall(MPI_IN_PLACE, ...)] with one element for each rank: element [j] of rank
    [i] is element [i] of rank [j]. *)
Definition alltoall (bufs : list (list Z)) : option (list (list Z)) :=
  mapM (λ i, mapM (λ buf : list Z, buf !! i) bufs) (seq 0 (length bufs)).

(** The constructor, up to the collective call: the buffer that is exchanged *)
Definition rank_map_buffer (p : pmi) (mpi_size : Z) : outcome (list Z) :=
  if decide (pmi_size p = mpi_size) then Ret (replicate (Z.to_nat mpi_size) (pmi_rank p))
  else Throw (runtime_error "PMIx and MPI sizes are different. Bailing out.").

(** and after it *)
Definition make_db (p : pmi) (mpi_rank instance : Z) (rank_map : list Z) : address_db_pmi :=
  AddressDbPmi p rank_map mpi_rank (pmi_size p) (make_key instance).

(** [uint32_t] *)
Definition uint32 (z : Z) : Z := z mod 2 ^ 32.

Definition find_prefix : string := "PMIx could not find peer address: ".

Definition find (db : address_db_pmi) (k : Z) : M pmix_st (list Z) := λ u,
  match (if decide (0 ≤ k) then m_rank_map db !! Z.to_nat k else None) with
  | None => (Halt undefined_behaviour, u)
  | Some k =>
      match get (pmi_impl db) (uint32 k) (m_key db) u with
      | (Throw (runtime_error e), u) => (Throw (runtime_error (find_prefix +:+ e)), u)
      | r => r
      end
  end.

(** [init]: what a rank does before the fence *)
Definition init_set (db : address_db_pmi) (addr : list Z) : M pmix_st unit :=
  set (pmi_impl db) (m_key db) addr.

(** ** All ranks *)

(** The constructors of all ranks; the lists are in the order of MPI ranks. *)
Definition make_dbs (ps : list pmi) (instances : list Z) : option (list address_db_pmi) :=
  let bufs := (λ p, rank_map_buffer p (Z.of_nat (length ps))) <$> ps in
  maps ← mapM (λ r, match r with Ret b => Some b | _ => None end) bufs ≫= alltoall;
  Some (imap (λ i pm, make_db pm.1.1 (Z.of_nat i) pm.1.2 pm.2) (zip (zip ps instances) maps)).

(** [init] of all ranks: each stores its address, then they meet in the fence. *)
Fixpoint set_all (l : list (address_db_pmi * list Z)) : M pmix_st unit :=
  match l with [] => ret tt | (db, a) :: l => init_set db a ;;; set_all l end.

Definition init_all (l : list (address_db_pmi * list Z)) : M pmix_st unit :=
  set_all l ;;; match l with (db, _) :: _ => exchange (pmi_impl db) | [] => ret tt end.
End pmi.

(** ** Proofs *)

Lemma alltoall_const (xs : list Z) :
  alltoall ((λ x, replicate (length xs) x) <$> xs) = Some (replicate (length xs) xs).
Proof.
  unfold alltoall. rewrite length_fmap. apply mapM_Some. apply Forall2_same_length_lookup_2.
  { by rewrite length_seq, length_replicate. }
  intros i k l Hi Hl. apply lookup_replicate in Hl as [-> Hlt]. apply lookup_seq in Hi as [-> _]. cbn.
  apply mapM_Some, Forall2_fmap_l, Forall_Forall2_diag, Forall_forall. intros x _. by apply lookup_replicate_2.
Qed.

Section exchange.
Context `{PmixLaws}.

Lemma make_dbs_ok (ps : list pmi) n :
  (∀ p, p ∈ ps → pmi_size p = Z.of_nat (length ps)) →
  ∃ dbs, make_dbs ps (replicate (length ps) n) = Some dbs ∧ length dbs = length ps ∧
    ∀ i p, ps !! i = Some p →
      dbs !! i = Some (AddressDbPmi p (my_rank <$> ps) (Z.of_nat i) (Z.of_nat (length ps)) (make_key n)).
Proof.
  intros Hs. unfold make_dbs.
  assert (mapM (λ r : outcome (list Z), match r with Ret b => Some b | _ => None end)
            ((λ p, rank_map_buffer p (Z.of_nat (length ps))) <$> ps) =
          Some ((λ x, replicate (length (my_rank <$> ps)) x) <$> (my_rank <$> ps))) as ->.
  { apply mapM_Some, Forall2_fmap_l. rewrite <- list_fmap_compose. apply Forall2_fmap_r, Forall_Forall2_diag, Forall_forall.
    intros p Hp. unfold rank_map_buffer. unfold compose. cbv beta. rewrite decide_True by by apply Hs.
    by rewrite Nat2Z.id, length_fmap. }
  cbn. rewrite alltoall_const. cbn. eexists. split; [done|]. rewrite length_fmap. split.
  - rewrite length_imap, !length_zip_with, !length_replicate. lia.
  - intros i p Hi. pose proof (lookup_lt_Some _ _ _ Hi) as Hlt. rewrite list_lookup_imap, lookup_zip_with.
    rewrite lookup_zip_with, Hi, lookup_replicate_2 by done. cbn. rewrite lookup_replicate_2 by done. cbn.
    unfold make_db. by rewrite (Hs p) by by eapply list_elem_of_lookup_2.
Qed.

Lemma set_ok p key data u u' :
  set p key data u = (Ret tt, u') →
  committed u' !! (my_rank p, key) = Some (Byte_object data) ∧
  ∀ q k, q ≠ my_rank p → committed u' !! (q, k) = committed u !! (q, k).
Proof.
  unfold set. destruct (PMIx_Put _ _ _ u) as [rc u1] eqn:Ep. case_decide as Hrc; [|done]. subst rc.
  destruct (PMIx_Commit _ u1) as [rc u2] eqn:Ec. case_decide as Hrc; [|done]. subst rc. intros [= <-].
  destruct (law_put _ _ _ _ _ Ep) as (P1 & P2 & _). destruct (law_commit _ _ _ Ec) as (_ & _ & C). split.
  - by rewrite C, decide_True, P1, lookup_insert_eq.
  - intros q k Hq. by rewrite C, decide_False, P2.
Qed.

Lemma set_all_keeps l u u' q k :
  set_all l u = (Ret tt, u') → q ∉ (λ x, my_rank (pmi_impl x.1)) <$> l →
  committed u' !! (q, k) = committed u !! (q, k).
Proof.
  revert u. induction l as [|[db a] l IH]; intros u; cbn; [by intros [= <-]|].
  intros ([] & u1 & E1 & E2)%bnd_inv Hq. apply set_ok in E1 as [_ Hk].
  rewrite (IH u1 E2) by set_solver. apply Hk. set_solver.
Qed.

Lemma set_all_commits l u u' db a :
  set_all l u = (Ret tt, u') → NoDup ((λ x, my_rank (pmi_impl x.1)) <$> l) → (db, a) ∈ l →
  committed u' !! (my_rank (pmi_impl db), m_key db) = Some (Byte_object a).
Proof.
  revert u. induction l as [|[db' a'] l IH]; intros u; [by intros _ _ ?%elem_of_nil|].
  cbn [set_all fmap list_fmap]. intros ([] & u1 & E1 & E2)%bnd_inv [Hn Hd]%NoDup_cons [[= -> ->]|Hin]%elem_of_cons.
  - rewrite (set_all_keeps l u1 u') by done. by apply set_ok in E1 as [? _].
  - by eapply IH.
Qed.

Lemma get_visible p r k u data : visible u !! (r, k) = Some (Byte_object data) → get p r k u = (Ret data, u).
Proof. intros Hv. unfold get. pose proof (law_get r k u) as Hg. rewrite Hv in Hg. by rewrite Hg. Qed.

(** C37: The exchange works, whatever the order of the PMIx ranks is in the communicator: when
    the sizes agree, the constructors of all ranks make databases with the same map from
    MPI to PMIx ranks, and after [init] has returned on all ranks every rank finds the
    address that every rank has announced. *)
Theorem pmi_exchange_finds ps n addrs :
  (∀ p, p ∈ ps → pmi_size p = Z.of_nat (length ps) ∧ 0 ≤ my_rank p < 2 ^ 32) →
  NoDup (my_rank <$> ps) → length addrs = length ps →
  ∃ dbs, make_dbs ps (replicate (length ps) n) = Some dbs ∧ length dbs = length ps ∧
    ∀ u u', init_all (zip dbs addrs) u = (Ret tt, u') →
      ∀ i j db a, dbs !! i = Some db → addrs !! j = Some a → find db (Z.of_nat j) u' = (Ret a, u').
Proof.
  intros Hp Hd Ha. destruct (make_dbs_ok ps n) as (dbs & E & Hlen & Hl); [naive_solver|].
  exists dbs. split; [done|]. split; [done|]. intros u u' Ei i j db a Hi Hj.
  assert (∀ k x, dbs !! k = Some x → ∃ p, ps !! k = Some p ∧
    x = AddressDbPmi p (my_rank <$> ps) (Z.of_nat k) (Z.of_nat (length ps)) (make_key n)) as Hdb.
  { intros k x Hk. destruct (lookup_lt_is_Some_2 ps k) as [p Hk']; [apply lookup_lt_Some in Hk; lia|].
    exists p. split; [done|]. rewrite (Hl k p Hk') in Hk. by injection Hk. }
  assert ((λ x, my_rank (pmi_impl x.1)) <$> zip dbs addrs = my_rank <$> ps) as Hr.
  { apply list_eq. intros k. rewrite !list_lookup_fmap. destruct (ps !! k) as [p|] eqn:Hk.
    - destruct (lookup_lt_is_Some_2 addrs k) as [b Hb]; [apply lookup_lt_Some in Hk; lia|].
      by rewrite lookup_zip_with, (Hl k p Hk), Hb.
    - rewrite lookup_zip_with. apply lookup_ge_None in Hk. by rewrite (lookup_ge_None_2 dbs k) by lia. }
  destruct (lookup_lt_is_Some_2 dbs j) as [dbj Hdbj]; [apply lookup_lt_Some in Hj; lia|].
  assert (zip dbs addrs !! j = Some (dbj, a)) as Hz by by rewrite lookup_zip_with, Hdbj, Hj.
  destruct (Hdb _ _ Hi) as (pi & _ & ->). destruct (Hdb _ _ Hdbj) as (pj & Hpj & ->).
  apply bnd_inv in Ei as ([] & u1 & Es & Ef). assert (visible u' = committed u1) as Hv.
  { destruct (zip dbs addrs) as [|[db0 a0] l] eqn:Ez.
    - done.
    - unfold exchange in Ef. destruct (PMIx_Fence u1) as [rc u2] eqn:Efe. case_decide as Hrc; [|done]. subst rc.
      injection Ef as <-. by apply law_fence. }
  eapply set_all_commits in Es; [|by rewrite Hr|by eapply list_elem_of_lookup_2].
  cbn in Es. unfold find. cbn. rewrite decide_True by lia. rewrite Nat2Z.id, list_lookup_fmap, Hpj. cbn.
  unfold uint32. rewrite Z.mod_small by by apply Hp, (list_elem_of_lookup_2 _ j). erewrite get_visible; [done|]. by rewrite Hv.
Qed.

(** Errors: ranks that do not exist are not checked; an address that nobody has announced
    is reported, with the message of [pmi::get] in it; an exchange that does not succeed
    throws; and a constructor throws when the sizes differ. *)
Theorem pmi_errors db k u p n :
  (k < 0 ∨ Z.of_nat (length (m_rank_map db)) ≤ k → find db k u = (Halt undefined_behaviour, u)) ∧
  (∀ r, 0 ≤ k → m_rank_map db !! Z.to_nat k = Some r → visible u !! (uint32 r, m_key db) = None →
     ∃ rc, find db k u = (Throw (runtime_error (find_prefix +:+ get_error (pmi_impl db) (m_key db) rc)), u) ∧
           rc ≠ PMIX_SUCCESS) ∧
  (∀ rc u', PMIx_Fence u = (rc, u') → rc ≠ PMIX_SUCCESS → ∃ msg, exchange p u = (Throw (runtime_error msg), u')) ∧
  (pmi_size p ≠ n → ∃ msg, rank_map_buffer p n = Throw (runtime_error msg)).
Proof.
  unfold find, exchange, rank_map_buffer. split_and!.
  - intros Hk. case_decide; [|done]. by rewrite lookup_ge_None_2 by lia.
  - intros r Hk Hr Hv. rewrite decide_True, Hr by done. pose proof (law_get (uint32 r) (m_key db) u) as Hg.
    rewrite Hv in Hg. destruct Hg as (rc & Hg & Hrc). exists rc. split; [|done]. unfold get. by rewrite Hg.
  - intros rc u' E Hrc. rewrite E, decide_False by done. by eexists.
  - intros Hs. rewrite decide_False by done. by eexists.
Qed.
End exchange.

(** ** A small PMIx *)

Record toy_pmix : Type := ToyPmix {
  t_put : gmap (Z * string) pmix_value;
  t_com : gmap (Z * string) pmix_value;
  t_vis : gmap (Z * string) pmix_value
}.

#[export] Instance toy_pmix_ops : Pmix := {|
  pmix_st := toy_pmix;
  PMIx_Init _ u := (0, u);
  PMIx_Job_size u := inr 2;
  PMIx_Put r k v u := (0, ToyPmix (<[(r, k) := v]> (t_put u)) (t_com u) (t_vis u));
  PMIx_Commit r u := (0, ToyPmix (t_put u)
    (filter (λ x, x.1.1 = r) (t_put u) ∪ filter (λ x, x.1.1 ≠ r) (t_com u)) (t_vis u));
  PMIx_Fence u := (0, ToyPmix (t_put u) (t_com u) (t_com u));
  PMIx_Get r k u := match t_vis u !! (r, k) with Some v => inr v | None => inl (-1) end;
  PMIx_Finalize _ u := (0, u)
|}.

#[export] Program Instance toy_pmix_laws : PmixLaws := {| put_by := t_put; committed := t_com; visible := t_vis |}.
Next Obligation. by intros r k v u u' [= <-]. Qed.
Next Obligation.
  intros r u u' [= <-]. cbn. split_and!; [done..|]. intros q k. apply option_eq. intros v.
  rewrite lookup_union_Some_raw, !map_lookup_filter_Some, map_lookup_filter_None. cbn.
  destruct (decide (q = r)) as [->|Hq]; [naive_solver|]. split; [naive_solver|]. intros Hv. right. split; [|done].
  right. by intros x _.
Qed.
Next Obligation. by intros u u' [= <-]. Qed.
Next Obligation. intros r k u. cbn. destruct (t_vis u !! (r, k)); [done|]. by exists (-1). Qed.

(** Two ranks whose PMIx ranks are in the other order *)
Definition pmi_of (r : Z) : pmi := Pmi false "job" r 2.
Definition toy_dbs : list address_db_pmi :=
  [ AddressDbPmi (pmi_of 1) [1; 0] 0 2 "ghex-rank-address_0"; AddressDbPmi (pmi_of 0) [1; 0] 1 2 "ghex-rank-address_0" ].
Definition toy_start : toy_pmix := ToyPmix ∅ ∅ ∅.
Definition toy_exchanged : toy_pmix :=
  (init_all (zip toy_dbs [[10; 11]; [20]]) (ToyPmix ∅ ∅ ∅)).2.

Lemma pmi_exchange_finds_witness :
  make_dbs [pmi_of 1; pmi_of 0] [0; 0] = Some toy_dbs ∧
  find (AddressDbPmi (pmi_of 0) [1; 0] 1 2 "ghex-rank-address_0") 0 toy_exchanged = (Ret [10; 11], toy_exchanged).
Proof.
  assert (make_dbs [pmi_of 1; pmi_of 0] [0; 0] = Some toy_dbs) as E by (vm_compute; reflexivity).
  split; [exact E|].
  destruct (pmi_exchange_finds [pmi_of 1; pmi_of 0] 0 [[10; 11]; [20]]) as (dbs & E' & _ & Hf).
  - intros p Hp. rewrite !elem_of_cons in Hp. destruct Hp as [->|[->|Hp]]; [cbn; lia..|by apply elem_of_nil in Hp].
  - apply (bool_decide_unpack _). vm_compute. reflexivity.
  - reflexivity.
  - cbn [replicate length] in E'. rewrite E in E'. injection E' as <-.
    apply (Hf (ToyPmix ∅ ∅ ∅) toy_exchanged ltac:(apply surjective_pairing) 1%nat 0%nat); reflexivity.
Defined.

Lemma pmi_errors_witness :
  ∃ rc, find (H := toy_pmix_ops) (AddressDbPmi (pmi_of 0) [1; 0] 1 2 "ghex-rank-address_0") 1 (toy_start) =
    (Throw (runtime_error (find_prefix +:+ get_error (pmi_of 0) "ghex-rank-address_0" rc)), toy_start) ∧ rc ≠ PMIX_SUCCESS.
Proof.
  destruct (pmi_errors (H := toy_pmix_ops) (AddressDbPmi (pmi_of 0) [1; 0] 1 2 "ghex-rank-address_0") 1 (toy_start) (pmi_of 0) 3)
    as (_ & H & _).
  apply (H 0); [lia|reflexivity|apply lookup_empty].
Defined.
