(* ===== verification/UcxLifecycle.v ===== *)
(** * Workers, endpoints and the context of the UCX backend

    Model of src/ucx/endpoint.hpp, src/ucx/worker.hpp, the constructor of
    [context_impl] (src/ucx/context.hpp), its destructor and [get_communicator]
    (src/ucx/context.cpp) and the destructor of [communicator_impl]
    (src/ucx/communicator.hpp): how UCX workers, endpoints and close requests are
    created and given back.

    UCX is a parameter: the answers of its calls, as functions of the number of calls
    that came before.  The checks of its results are those of a debug build
    (error.hpp).  Handles are [None] until UCX has filled them in.  Destroying or
    using a UCX object that is not live, cleaning up a context that was not
    initialized and reading a [worker_t] that has been deleted are undefined
    behaviour.  [lost] records UCX workers that the code forgets. *)
From S2P Require Import Prelude AddressDb.
Local Open Scope Z_scope.

(** ** UCX *)

(** [ucp_ep_close_nb]: closed at once, refused, or a request to wait for *)
Inductive close_result : Type := Close_ok | Close_err | Close_pending.

Record ucx : Type := Ucx {
  u_config : bool;
  u_init : bool;
  u_multi : bool;
  u_worker : nat → bool;
  u_address : nat → bool;
  u_ep : nat → bool;
  u_close : nat → close_result;
  u_completed : nat → positive → bool
}.

(** ** State *)

(** [endpoint_t] in the cache of a worker; its [m_moved] is false there. *)
Record endpoint_t : Type := Endpoint { e_ep : positive; e_worker : positive }.

Record close_handle : Type := CloseHandle {
  m_done : bool;
  m_ucp_worker : positive;
  m_status : positive
}.

Record worker_t : Type := Worker {
  w_worker : option positive;
  w_moved : bool;
  m_endpoint_handles : list close_handle;
  m_endpoint_cache : gmap Z endpoint_t
}.

(** [comms]: the communicators, by the number of their send worker *)
Record lc : Type := Lc {
  tick : nat;
  config_live : bool;
  ucx_context : bool;
  ucx_workers : gset positive;
  ucx_eps : gset positive;
  ucx_reqs : gset positive;
  lost : gset positive;
  objs : gmap nat worker_t;
  m_worker : option nat;
  m_workers : list nat;
  comms : gset nat;
  m_db : address_db_mpi
}.

Definition set_tick x s := Lc x (config_live s) (ucx_context s) (ucx_workers s) (ucx_eps s) (ucx_reqs s) (lost s) (objs s) (m_worker s) (m_workers s) (comms s) (m_db s).
Definition set_config x s := Lc (tick s) x (ucx_context s) (ucx_workers s) (ucx_eps s) (ucx_reqs s) (lost s) (objs s) (m_worker s) (m_workers s) (comms s) (m_db s).
Definition set_context x s := Lc (tick s) (config_live s) x (ucx_workers s) (ucx_eps s) (ucx_reqs s) (lost s) (objs s) (m_worker s) (m_workers s) (comms s) (m_db s).
Definition set_uworkers x s := Lc (tick s) (config_live s) (ucx_context s) x (ucx_eps s) (ucx_reqs s) (lost s) (objs s) (m_worker s) (m_workers s) (comms s) (m_db s).
Definition set_eps x s := Lc (tick s) (config_live s) (ucx_context s) (ucx_workers s) x (ucx_reqs s) (lost s) (objs s) (m_worker s) (m_workers s) (comms s) (m_db s).
Definition set_reqs x s := Lc (tick s) (config_live s) (ucx_context s) (ucx_workers s) (ucx_eps s) x (lost s) (objs s) (m_worker s) (m_workers s) (comms s) (m_db s).
Definition set_lost x s := Lc (tick s) (config_live s) (ucx_context s) (ucx_workers s) (ucx_eps s) (ucx_reqs s) x (objs s) (m_worker s) (m_workers s) (comms s) (m_db s).
Definition set_objs x s := Lc (tick s) (config_live s) (ucx_context s) (ucx_workers s) (ucx_eps s) (ucx_reqs s) (lost s) x (m_worker s) (m_workers s) (comms s) (m_db s).
Definition set_recv x s := Lc (tick s) (config_live s) (ucx_context s) (ucx_workers s) (ucx_eps s) (ucx_reqs s) (lost s) (objs s) x (m_workers s) (comms s) (m_db s).
Definition set_send x s := Lc (tick s) (config_live s) (ucx_context s) (ucx_workers s) (ucx_eps s) (ucx_reqs s) (lost s) (objs s) (m_worker s) x (comms s) (m_db s).
Definition set_comms x s := Lc (tick s) (config_live s) (ucx_context s) (ucx_workers s) (ucx_eps s) (ucx_reqs s) (lost s) (objs s) (m_worker s) (m_workers s) x (m_db s).
Definition set_db x s := Lc (tick s) (config_live s) (ucx_context s) (ucx_workers s) (ucx_eps s) (ucx_reqs s) (lost s) (objs s) (m_worker s) (m_workers s) (comms s) x.

(** Before the construction, with the empty database *)
Definition init_lc (rank size : Z) : lc :=
  Lc 0 false false ∅ ∅ ∅ ∅ ∅ None [] ∅ (new_db rank size).

Section ucx.
Context (u : ucx).

Definition call {A} (f : nat → A) : M lc A := λ s, (Ret (f (tick s)), set_tick (S (tick s)) s).

(** [OOMPH_CHECK_UCX_RESULT] *)
Definition ucx_error : exn := runtime_error "OOMPH Error: UCX Call failed ".
Definition check (ok : bool) : M lc unit := if ok then ret tt else throw ucx_error.

Definition require (b : lc → bool) : M lc unit := λ s,
  if b s then (Ret tt, s) else (Halt undefined_behaviour, s).

Definition get_obj (w : nat) : M lc worker_t := λ s,
  match objs s !! w with Some o => (Ret o, s) | None => (Halt undefined_behaviour, s) end.
Definition put_obj (w : nat) (o : worker_t) : M lc unit := modify (λ s, set_objs (<[w := o]> (objs s)) s).

(** [ucp_worker_progress]: UCX gets on with its work. *)
Definition worker_progress (h : positive) : M lc unit :=
  require (λ s, bool_decide (h ∈ ucx_workers s)) ;;; call (λ _, tt).

(** ** endpoint.hpp *)

(** [endpoint_t(rank, worker, address)] *)
Definition new_endpoint (h : positive) : M lc endpoint_t :=
  require (λ s, bool_decide (h ∈ ucx_workers s)) ;;;
  let! ok := call (u_ep u) in
  check ok ;;;
  let! s := get in
  let e := fresh (ucx_eps s) in
  modify (set_eps ({[e]} ∪ ucx_eps s)) ;;;
  ret (Endpoint e h).

(** [ucp_request_free] *)
Definition request_free (r : positive) : M lc unit :=
  require (λ s, bool_decide (r ∈ ucx_reqs s)) ;;;
  modify (λ s, set_reqs (ucx_reqs s ∖ {[r]}) s).

(** [close_handle::progress()] *)
Definition handle_progress (c : close_handle) : M lc close_handle :=
  if m_done c then ret c
  else
    worker_progress (m_ucp_worker c) ;;;
    require (λ s, bool_decide (m_status c ∈ ucx_reqs s)) ;;;
    let! ok := call (λ t, u_completed u t (m_status c)) in
    if ok then ret c
    else
      request_free (m_status c) ;;;
      ret (CloseHandle true (m_ucp_worker c) (m_status c)).

(** [close_handle()] *)
Definition no_handle : close_handle := CloseHandle true 1 1.

(** [endpoint_t::close()] *)
Definition close (e : endpoint_t) : M lc close_handle :=
  require (λ s, bool_decide (e_ep e ∈ ucx_eps s)) ;;;
  let! r := call (u_close u) in
  match r with
  | Close_err => ret no_handle
  | Close_ok =>
      modify (λ s, set_eps (ucx_eps s ∖ {[e_ep e]}) s) ;;; ret no_handle
  | Close_pending =>
      let! s := get in
      let q := fresh (ucx_reqs s) in
      modify (λ s, set_reqs ({[q]} ∪ ucx_reqs s) (set_eps (ucx_eps s ∖ {[e_ep e]}) s)) ;;;
      ret (CloseHandle false (e_worker e) q)
  end.

(** ** worker.hpp *)

(** [~ucp_worker_handle()] and the other members of a [worker_t] *)
Definition delete_worker (w : nat) : M lc unit :=
  let! o := get_obj w in
  (if w_moved o then ret tt
   else match w_worker o with
        | Some h =>
            require (λ s, bool_decide (h ∈ ucx_workers s)) ;;;
            modify (λ s, set_uworkers (ucx_workers s ∖ {[h]}) s)
        | None => stop undefined_behaviour
        end) ;;;
  modify (λ s, set_objs (delete w (objs s)) s).

(** [worker_t(...)]: a new object, which is handed to a [unique_ptr].  [m_moved] is
    cleared at the end only. *)
Definition new_worker : M lc nat :=
  let! ok := call (u_worker u) in
  check ok ;;;
  let! s := get in
  let h := fresh (ucx_workers s) in
  modify (set_uworkers ({[h]} ∪ ucx_workers s)) ;;;
  let! ok := call (u_address u) in
  on_exception (check ok) (modify (λ s, set_lost ({[h]} ∪ lost s) s)) ;;;
  let! s := get in
  let w := fresh (dom (objs s)) in
  put_obj w (Worker (Some h) false [] ∅) ;;;
  ret w.

(** [connect(rank)] *)
Definition connect (w : nat) (rank : Z) : M lc endpoint_t :=
  let! o := get_obj w in
  match m_endpoint_cache o !! rank with
  | Some e => ret e
  | None =>
      let! db := gets m_db in
      let! addr := (λ s, (find rank db, s)) in
      match w_worker o with
      | Some h =>
          let! e := new_endpoint h in
          put_obj w (Worker (w_worker o) (w_moved o) (m_endpoint_handles o) (<[rank := e]> (m_endpoint_cache o))) ;;;
          ret e
      | None => stop undefined_behaviour
      end
  end.

(** ** context.hpp, context.cpp *)

(** [~ucp_context_h_holder()] *)
Definition cleanup : M lc unit :=
  require ucx_context ;;; modify (set_context false).

Definition opt_delete (w : option nat) : M lc unit :=
  match w with Some w => delete_worker w | None => ret tt end.

(** The members that exist are destroyed when the body of the constructor throws. *)
Definition unwind : M lc unit :=
  let! w := gets m_worker in opt_delete w ;;; cleanup.

Definition thread_error : exn := runtime_error "ucx cannot be used with multi-threaded context".

(** [context_impl(comm, thread_safe, ...)]; [db] is the database after its exchange
    of addresses (AddressDb.v). *)
Definition new_context (thread_safe : bool) (db : address_db_mpi) : M lc unit :=
  on_exception
    (check (u_config u) ;;;
     modify (set_config true) ;;;
     check (u_init u) ;;;
     modify (set_context true) ;;;
     modify (set_config false) ;;;
     (if thread_safe && negb (u_multi u) then throw thread_error else ret tt) ;;;
     let! w := new_worker in
     modify (set_recv (Some w)) ;;;
     modify (set_db db))
    unwind.

(** [get_communicator()]: the send worker of the new communicator *)
Definition get_communicator : M lc nat :=
  let! w := new_worker in
  modify (λ s, set_send (m_workers s ++ [w]) s) ;;;
  modify (λ s, set_comms ({[w]} ∪ comms s) s) ;;;
  ret w.

(** [~communicator_impl()]: the endpoints are closed, in the order of the cache. *)
Definition close_endpoint (w : nat) (kv : Z * endpoint_t) : M lc unit :=
  let! c := close (snd kv) in
  let! c := handle_progress c in
  let! o := get_obj w in
  put_obj w (Worker (w_worker o) (w_moved o) (m_endpoint_handles o ++ [c]) (m_endpoint_cache o)).

Definition destroy_communicator (w : nat) : M lc unit :=
  let! o := get_obj w in
  mfor (map_to_list (m_endpoint_cache o)) (close_endpoint w) ;;;
  modify (λ s, set_comms (comms s ∖ {[w]}) s).

(** The handles are moved out of the workers. *)
Definition taken (c : close_handle) : close_handle := CloseHandle true (m_ucp_worker c) (m_status c).
Definition take_handles (w : nat) : M lc (list close_handle) :=
  let! o := get_obj w in
  put_obj w (Worker (w_worker o) (w_moved o) (taken <$> m_endpoint_handles o) (m_endpoint_cache o)) ;;;
  ret (m_endpoint_handles o).
Fixpoint all_handles (ws : list nat) : M lc (list close_handle) :=
  match ws with
  | [] => ret []
  | w :: ws => let! l := take_handles w in let! l' := all_handles ws in ret (l ++ l')
  end.

Definition recv_handle : M lc positive :=
  let! w := gets m_worker in
  match w with
  | Some w => let! o := get_obj w in
              match w_worker o with Some h => ret h | None => stop undefined_behaviour end
  | None => stop undefined_behaviour
  end.

(** One pass over the handles: those that are not ready are kept. *)
Fixpoint close_round (l : list close_handle) : M lc (list close_handle) :=
  match l with
  | [] => ret []
  | c :: l =>
      let! h := recv_handle in
      worker_progress h ;;;
      let! c := handle_progress c in
      let! l := close_round l in
      ret (if m_done c then l else c :: l)
  end.

(** [while (handles.size() != 0u && elapsed < t_timeout)]; [clock k] is the time that
    has passed before pass [k], in milliseconds. *)
Definition t_timeout : Z := 1000.
Fixpoint close_loop (clock : nat → Z) (fuel k : nat) (l : list close_handle) : M lc (list close_handle) :=
  match fuel with
  | O => stop out_of_fuel
  | S fuel =>
      if bool_decide (l ≠ []) && (clock k <? t_timeout)
      then let! l := close_round l in close_loop clock fuel (S k) l
      else ret l
  end.

(** The non-blocking barrier ends after [polls] tests. *)
Fixpoint barrier_loop (polls : nat) : M lc unit :=
  match polls with
  | O => ret tt
  | S polls => let! h := recv_handle in worker_progress h ;;; barrier_loop polls
  end.

(** [~context_impl()], its members from the last to the first and those of
    [context_base], where the communicators that are left are destroyed. *)
Definition destroy_context (clock : nat → Z) (fuel polls : nat) : M lc unit :=
  let! ws := gets m_workers in
  let! handles := all_handles ws in
  let! handles := close_loop clock fuel 0 handles in
  mfor handles (λ c, request_free (m_status c)) ;;;
  barrier_loop polls ;;;
  let! w := gets m_worker in
  let! o := (match w with Some w => get_obj w | None => stop undefined_behaviour end) in
  cassert (bool_decide (m_endpoint_cache o = ∅)) ;;;
  mfor ws delete_worker ;;;
  modify (set_send []) ;;;
  opt_delete w ;;;
  modify (set_recv None) ;;;
  cleanup ;;;
  let! s := get in
  mfor (elements (comms s)) destroy_communicator.
End ucx.
