(* ===== verification/UcxLifecycleInv.v ===== *)
(** * Every UCX object is given back

    The invariant of UcxLifecycle.v: UCX workers, endpoints and close requests have
    one owner each; it is kept by the creation and the destruction of communicators
    and by connections.  The destructor of the context returns and gives everything
    back. *)
From S2P Require Import Prelude AddressDb UcxLifecycle.
Local Open Scope Z_scope.

(** ** Invariant *)

(** The requests of handles that are not done *)
Definition pend (l : list close_handle) : list positive := m_status <$> filter (λ c, m_done c = false) l.
Definition pending (s : lc) : list positive := all_queued ((λ o, pend (m_endpoint_handles o)) <$> objs s).

(** [C]: communicators that have not begun to close their endpoints; [loose], [eps]:
    handles and open endpoints in variables of a running member function. *)
Record lc_inv (C : gset nat) (loose : list close_handle) (eps : list endpoint_t) (s : lc) : Prop := {
  li_obj w o : objs s !! w = Some o → ∃ h, w_worker o = Some h ∧ w_moved o = false ∧ h ∈ ucx_workers s;
  li_unique w w' o o' :
    objs s !! w = Some o → objs s !! w' = Some o' → w_worker o = w_worker o' → w = w';
  li_worker h : h ∈ ucx_workers s → h ∈ lost s ∨ ∃ w o, objs s !! w = Some o ∧ w_worker o = Some h;
  li_lost h : h ∈ lost s → h ∈ ucx_workers s ∧ ∀ w o, objs s !! w = Some o → w_worker o ≠ Some h;
  li_nodup : NoDup (option_list (m_worker s) ++ m_workers s);
  li_owned w : is_Some (objs s !! w) ↔ w ∈ option_list (m_worker s) ++ m_workers s;
  li_comms w : w ∈ C → w ∈ m_workers s;
  li_recv w o : m_worker s = Some w → objs s !! w = Some o →
    m_endpoint_cache o = ∅ ∧ m_endpoint_handles o = [];
  li_cache w o r e : w ∈ C → objs s !! w = Some o → m_endpoint_cache o !! r = Some e →
    e_ep e ∈ ucx_eps s ∧ w_worker o = Some (e_worker e) ∧ e_ep e ∉ e_ep <$> eps;
  li_cache_unique w w' o o' r r' e e' :
    w ∈ C → w' ∈ C → objs s !! w = Some o → objs s !! w' = Some o' →
    m_endpoint_cache o !! r = Some e → m_endpoint_cache o' !! r' = Some e' → e_ep e = e_ep e' → w = w' ∧ r = r';
  li_eps : NoDup (e_ep <$> eps);
  li_eps_open e : e ∈ eps → e_ep e ∈ ucx_eps s ∧ e_worker e ∈ ucx_workers s;
  li_reqs : NoDup (pend loose ++ pending s);
  li_reqs_live r : r ∈ pend loose ++ pending s ↔ r ∈ ucx_reqs s;
  li_handle w o c : objs s !! w = Some o → c ∈ m_endpoint_handles o → m_done c = false →
    m_ucp_worker c ∈ ucx_workers s;
  li_loose c : c ∈ loose → m_done c = false → m_ucp_worker c ∈ ucx_workers s
}.

Lemma pend_app l k : pend (l ++ k) = pend l ++ pend k.
Proof. unfold pend. by rewrite filter_app, fmap_app. Qed.
Lemma pend_cons c l : pend (c :: l) = (if m_done c then [] else [m_status c]) ++ pend l.
Proof. unfold pend. rewrite filter_cons. destruct (m_done c) eqn:E; by case_decide; try congruence. Qed.
Lemma pend_taken l : pend (taken <$> l) = [].
Proof. induction l as [|c l IH]; [done|]. rewrite fmap_cons, pend_cons, IH. done. Qed.

Definition with_handles (l : list close_handle) (o : worker_t) : worker_t :=
  Worker (w_worker o) (w_moved o) l (m_endpoint_cache o).

Lemma pending_split w o s :
  objs s !! w = Some o → pending s ≡ₚ pend (m_endpoint_handles o) ++ pending (set_objs (delete w (objs s)) s).
Proof. intros Hw. unfold pending. cbn. by rewrite (all_queued_split _ w), lookup_fmap, Hw, fmap_delete. Qed.
Lemma pending_insert w o s :
  pending (set_objs (<[w := o]> (objs s)) s) ≡ₚ
  pend (m_endpoint_handles o) ++ pending (set_objs (delete w (objs s)) s).
Proof. unfold pending. cbn. by rewrite fmap_insert, all_queued_insert, fmap_delete. Qed.

(** The requests in the hands of the program only matter up to their order. *)
Lemma reqs_perm loose loose' s s' :
  pend loose ++ pending s ≡ₚ pend loose' ++ pending s' → ucx_reqs s' = ucx_reqs s →
  NoDup (pend loose ++ pending s) → (∀ r, r ∈ pend loose ++ pending s ↔ r ∈ ucx_reqs s) →
  NoDup (pend loose' ++ pending s') ∧ (∀ r, r ∈ pend loose' ++ pending s' ↔ r ∈ ucx_reqs s').
Proof. intros HP Hr Hn Ha. split; [by rewrite <- HP|]. intros r. rewrite <- HP, Hr. apply Ha. Qed.

Section steps.
Context (C : gset nat) (eps : list endpoint_t).
Implicit Types (s : lc) (loose : list close_handle).

Lemma inv_tick loose n s : lc_inv C loose eps s → lc_inv C loose eps (set_tick n s).
Proof. by intros []. Qed.

(** The handles of a worker are replaced; what has gone or come is loose. *)
Lemma handles_inv loose loose' w o l s :
  lc_inv C loose eps s → w ∈ m_workers s → objs s !! w = Some o →
  pend loose ++ pend (m_endpoint_handles o) ≡ₚ pend loose' ++ pend l →
  (∀ c, c ∈ l ++ loose' → m_done c = false → c ∈ m_endpoint_handles o ++ loose) →
  lc_inv C loose' eps (set_objs (<[w := with_handles l o]> (objs s)) s).
Proof.
  intros HI Hsend Hw HP Hc.
  assert (∀ c, c ∈ l ++ loose' → m_done c = false → m_ucp_worker c ∈ ucx_workers s) as Hlive.
  { intros c Hin Hd. destruct (proj1 (elem_of_app _ _ _) (Hc c Hin Hd)); [by eapply li_handle|by eapply li_loose]. }
  assert (∀ w' o', <[w := with_handles l o]> (objs s) !! w' = Some o' →
    ∃ o1, objs s !! w' = Some o1 ∧ w_worker o' = w_worker o1 ∧ w_moved o' = w_moved o1 ∧
          m_endpoint_cache o' = m_endpoint_cache o1) as Hl.
  { intros w' o'. rewrite lookup_insert. case_decide; [intros [= <-]; subst; by exists o|by exists o']. }
  assert (∀ w', is_Some (<[w := with_handles l o]> (objs s) !! w') ↔ is_Some (objs s !! w')) as Hd.
  { intros w'. rewrite lookup_insert. case_decide; [subst; rewrite Hw; split; intros; by eexists|done]. }
  destruct HI as [H1 H2 H3 H4 H5 H6 H7 H8 H9 H10 H11 H12 H13 H14 H15 H16].
  destruct (reqs_perm loose loose' s (set_objs (<[w := with_handles l o]> (objs s)) s)) as [Hn Hr]; [|done..|].
  { rewrite pending_insert, (pending_split w o) by done. cbn [m_endpoint_handles with_handles].
    by rewrite !(assoc (++)), HP. }
  split; try done; cbn [objs ucx_workers ucx_eps ucx_reqs lost m_worker m_workers set_objs].
  - intros w' o' (o1 & Ho & -> & -> & _)%Hl. by eapply H1.
  - intros w1 w2 o1 o2 (o3 & E3 & -> & _)%Hl (o4 & E4 & -> & _)%Hl. by eapply H2.
  - intros h [?|(w' & o' & Ho & E)]%H3; [by left|]. right. exists w'. rewrite lookup_insert. case_decide; [|by exists o'].
    subst. eexists. split; [done|]. cbn. congruence.
  - intros h [Hh Hn']%H4. split; [done|]. intros w' o' (o1 & Ho & -> & _)%Hl. by eapply Hn'.
  - intros w'. by rewrite Hd.
  - intros w' o' Hm. rewrite lookup_insert. case_decide; [|by apply H8]. subst. rewrite Hm in H5.
    by apply NoDup_cons in H5 as [? _].
  - intros w' o' r e HC (o1 & Ho & -> & _ & ->)%Hl. by eapply H9.
  - intros w1 w2 o1 o2 r r' e e' C1 C2 (o3 & E3 & _ & _ & ->)%Hl (o4 & E4 & _ & _ & ->)%Hl. by eapply H10.
  - intros w' o' c. rewrite lookup_insert. case_decide; [|apply H15]. intros [= <-]. cbn. intros Hin. apply Hlive. set_solver.
  - intros c Hin. apply Hlive. set_solver.
Qed.

(** The order of the loose handles does not matter. *)
Lemma inv_perm loose loose' s : lc_inv C loose eps s → loose ≡ₚ loose' → lc_inv C loose' eps s.
Proof.
  intros [H1 H2 H3 H4 H5 H6 H7 H8 H9 H10 H11 H12 H13 H14 H15 H16] HP.
  assert (pend loose ≡ₚ pend loose') as Hp by (unfold pend; by rewrite HP).
  split; try done.
  - by rewrite <- Hp.
  - intros r. by rewrite <- Hp.
  - intros c. rewrite <- HP. apply H16.
Qed.

(** *** Close requests *)

(** A request is freed with the loose handle that has it. *)
Lemma free_inv loose c s :
  lc_inv C (c :: loose) eps s → m_done c = false →
  m_status c ∈ ucx_reqs s ∧ lc_inv C loose eps (set_reqs (ucx_reqs s ∖ {[m_status c]}) s).
Proof.
  intros [H1 H2 H3 H4 H5 H6 H7 H8 H9 H10 H11 H12 H13 H14 H15 H16] Hd.
  rewrite pend_cons, Hd in H13. cbn in H13. apply NoDup_cons in H13 as [Hn H13].
  assert (∀ r, r ∈ m_status c :: pend loose ++ pending s ↔ r ∈ ucx_reqs s) as H14'.
  { intros r. rewrite <- H14, pend_cons, Hd. done. }
  split; [apply H14'; set_solver|]. split; try done.
  - intros r. change (pending _) with (pending s). cbn [ucx_reqs set_reqs]. specialize (H14' r). set_solver.
  - intros c' Hc'. apply H16. set_solver.
Qed.

Lemma drop_done loose c s : lc_inv C (c :: loose) eps s → m_done c = true → lc_inv C loose eps s.
Proof.
  intros [H1 H2 H3 H4 H5 H6 H7 H8 H9 H10 H11 H12 H13 H14 H15 H16] Hd. rewrite pend_cons, Hd in H13.
  split; try done.
  - intros r. rewrite <- H14, pend_cons, Hd. done.
  - intros c' Hc'. apply H16. set_solver.
Qed.

Lemma add_done loose c s : lc_inv C loose eps s → m_done c = true → lc_inv C (c :: loose) eps s.
Proof.
  intros [H1 H2 H3 H4 H5 H6 H7 H8 H9 H10 H11 H12 H13 H14 H15 H16] Hd.
  split; try done; try (rewrite pend_cons, Hd; done).
  intros c' [->|Hc']%elem_of_cons; [congruence|by apply H16].
Qed.
End steps.

Section endpoints.
Context (C : gset nat).
Implicit Types (s : lc) (loose : list close_handle) (eps : list endpoint_t).

(** An endpoint is closed; UCX may go on to know it when it refuses. *)
Lemma closed_inv loose eps e E s :
  lc_inv C loose (e :: eps) s → (∀ x, x ∈ ucx_eps s → x ≠ e_ep e → x ∈ E) →
  lc_inv C loose eps (set_eps E s).
Proof.
  intros [H1 H2 H3 H4 H5 H6 H7 H8 H9 H10 H11 H12 H13 H14 H15 H16] HE.
  rewrite fmap_cons in H11. apply NoDup_cons in H11 as [Hn H11]. split; try done; cbn.
  - intros w o r e' HC Hw Hr. destruct (H9 w o r e' HC Hw Hr) as (Ho & Hh & Hnin). cbn in Hnin.
    rewrite not_elem_of_cons in Hnin. split_and!; [|done|tauto]. apply HE; [done|tauto].
  - intros e' Hin. destruct (H12 e') as [Ho Hh]; [set_solver|]. split; [|done]. apply HE; [done|].
    intros Eq. apply Hn. rewrite <- Eq. apply list_elem_of_fmap. by exists e'.
Qed.

(** A close request comes with its handle. *)
Lemma new_req_inv loose eps h q s :
  lc_inv C loose eps s → q ∉ ucx_reqs s → h ∈ ucx_workers s →
  lc_inv C (CloseHandle false h q :: loose) eps (set_reqs ({[q]} ∪ ucx_reqs s) s).
Proof.
  intros [H1 H2 H3 H4 H5 H6 H7 H8 H9 H10 H11 H12 H13 H14 H15 H16] Hq Hh. split; try done; cbn [ucx_reqs set_reqs].
  - rewrite pend_cons. cbn. constructor; [|done]. change (pending _) with (pending s). by rewrite H14.
  - intros r. rewrite pend_cons. cbn. change (pending _) with (pending s). rewrite elem_of_cons, H14. set_solver.
  - intros c [->|Hc]%elem_of_cons; [done|by apply H16].
Qed.

(** A communicator starts to close the endpoints of its cache. *)
Lemma start_closing loose w o s :
  lc_inv C loose [] s → w ∈ C → objs s !! w = Some o →
  lc_inv (C ∖ {[w]}) loose (snd <$> map_to_list (m_endpoint_cache o)) s.
Proof.
  intros HI HC Hw. destruct (li_obj _ _ _ _ HI _ _ Hw) as (h & Eh & _ & Hh).
  destruct HI as [H1 H2 H3 H4 H5 H6 H7 H8 H9 H10 H11 H12 H13 H14 H15 H16].
  assert (∀ e, e ∈ snd <$> map_to_list (m_endpoint_cache o) → ∃ r, m_endpoint_cache o !! r = Some e) as Hin.
  { intros e ([r e'] & -> & Hr%elem_of_map_to_list)%list_elem_of_fmap. by exists r. }
  split; try done.
  - intros w' Hw'. apply H7. set_solver.
  - intros w' o' r e Hw' Ho' Hr. destruct (H9 w' o' r e) as (Ho & E & _); [set_solver|done..|]. split_and!; [done..|].
    intros (e' & Ee & [r' Hr']%Hin)%list_elem_of_fmap.
    destruct (H10 w' w o' o r r' e e') as [-> _]; try done; [set_solver|]. set_solver.
  - intros w1 w2 o1 o2 r r' e e' C1 C2. apply H10; set_solver.
  - rewrite <- list_fmap_compose. apply NoDup_fmap_2_strong; [|apply NoDup_map_to_list].
    intros [r e] [r' e'] Hr%elem_of_map_to_list Hr'%elem_of_map_to_list Ee. cbn in Ee.
    destruct (H10 w w o o r r' e e') as [_ ->]; try done. congruence.
  - intros e [r Hr]%Hin. destruct (H9 w o r e HC Hw Hr) as (Ho & E & _). split; [done|]. congruence.
Qed.

(** A new endpoint in the cache of a communicator *)
Lemma connected_inv w o h x r s :
  lc_inv C [] [] s → w ∈ m_workers s → objs s !! w = Some o → w_worker o = Some h → x ∉ ucx_eps s →
  m_endpoint_cache o !! r = None →
  lc_inv C [] [] (set_objs (<[w := Worker (w_worker o) (w_moved o) (m_endpoint_handles o)
                                     (<[r := Endpoint x h]> (m_endpoint_cache o))]> (objs s))
                    (set_eps ({[x]} ∪ ucx_eps s) s)).
Proof.
  set (o' := Worker _ _ _ _). intros HI HC Hw Eh Hx Hr.
  assert (∀ w1 o1, <[w := o']> (objs s) !! w1 = Some o1 →
    ∃ o2, objs s !! w1 = Some o2 ∧ w_worker o1 = w_worker o2 ∧ w_moved o1 = w_moved o2 ∧
          m_endpoint_handles o1 = m_endpoint_handles o2 ∧
          ∀ r1 e, m_endpoint_cache o1 !! r1 = Some e →
            m_endpoint_cache o2 !! r1 = Some e ∨ w1 = w ∧ r1 = r ∧ e = Endpoint x h) as Hl.
  { intros w1 o1. rewrite lookup_insert. case_decide; [|exists o1; split_and!; auto]. intros [= <-]. subst. exists o. split_and!; try done.
    intros r1 e. cbn. rewrite lookup_insert. case_decide; [|by left]. intros [= <-]. by right. }
  destruct HI as [H1 H2 H3 H4 H5 H6 H7 H8 H9 H10 H11 H12 H13 H14 H15 H16].
  destruct (reqs_perm [] [] s (set_objs (<[w := o']> (objs s)) (set_eps ({[x]} ∪ ucx_eps s) s))) as [Hn Hrq]; [|done..|].
  { cbn [app pend]. rewrite (pending_split w o s Hw).
    symmetry. exact (pending_insert w o' (set_eps ({[x]} ∪ ucx_eps s) s)). }
  split; try done; cbn [objs ucx_workers ucx_eps ucx_reqs lost m_worker m_workers set_objs set_eps].
  - intros w1 o1 (o2 & Ho & -> & -> & _)%Hl. by eapply H1.
  - intros w1 w2 o1 o2 (o3 & E3 & -> & _)%Hl (o4 & E4 & -> & _)%Hl. by eapply H2.
  - intros k [?|(w1 & o1 & Ho & E)]%H3; [by left|]. right. exists w1. rewrite lookup_insert. case_decide; [|by exists o1].
    subst. eexists. split; [done|]. cbn. congruence.
  - intros k [Hk Hn']%H4. split; [done|]. intros w1 o1 (o2 & Ho & -> & _)%Hl. by eapply Hn'.
  - intros w1. rewrite <- H6, lookup_insert. case_decide; [subst; rewrite Hw; split; intros; by eexists|done].
  - intros w1 o1 Hm. rewrite lookup_insert. case_decide; [|by apply H8]. subst. rewrite Hm in H5. cbn in H5.
    by apply NoDup_cons in H5 as [? _].
  - intros w1 o1 r1 e HC1 (o2 & Ho & -> & _ & _ & Hc)%Hl [He|(-> & -> & ->)]%Hc.
    + destruct (H9 w1 o2 r1 e HC1 Ho He) as (E1 & E2 & E3). set_solver.
    + split_and!; [set_solver| |set_solver]. rewrite Hw in Ho. injection Ho as <-. exact Eh.
  - intros w1 w2 o1 o2 r1 r2 e1 e2 C1 C2 (o3 & E3 & _ & _ & _ & K3)%Hl (o4 & E4 & _ & _ & _ & K4)%Hl
      [He1|(-> & -> & ->)]%K3 [He2|(-> & -> & ->)]%K4 Ee; try done.
    + by eapply H10.
    + destruct (H9 w1 o3 r1 e1 C1 E3 He1) as [Hin _]. cbn in Ee. congruence.
    + destruct (H9 w2 o4 r2 e2 C2 E4 He2) as [Hin _]. cbn in Ee. congruence.
  - by intros e ?%elem_of_nil.
  - intros w1 o1 c (o2 & Ho & _ & _ & -> & _)%Hl. by eapply H15.
Qed.
End endpoints.

Section workers.
Implicit Types (s : lc).

(** *** New workers *)

Definition fresh_worker (h : positive) : worker_t := Worker (Some h) false [] ∅.

Lemma worker_ucx loose eps C s w o h : lc_inv C loose eps s → objs s !! w = Some o → h ∉ ucx_workers s → w_worker o ≠ Some h.
Proof. intros HI Ho Hh E. destruct (li_obj _ _ _ _ HI _ _ Ho) as (h' & E' & _ & Hin). congruence. Qed.

(** A new worker, which the context owns as its receive worker ([R']) or as a send
    worker ([W']) *)
Lemma added_inv C s w h R' W' :
  lc_inv C [] [] s → objs s !! w = None → h ∉ ucx_workers s →
  option_list R' ++ W' ≡ₚ w :: option_list (m_worker s) ++ m_workers s →
  (∀ x, x ∈ m_workers s → x ∈ W') → (R' = m_worker s ∨ R' = Some w) →
  lc_inv C [] [] (set_send W' (set_recv R'
    (set_objs (<[w := fresh_worker h]> (objs s)) (set_uworkers ({[h]} ∪ ucx_workers s) s)))).
Proof.
  intros HI Hw Hh HP HW HR.
  assert (∀ w1 o1, <[w := fresh_worker h]> (objs s) !! w1 = Some o1 →
    w1 = w ∧ o1 = fresh_worker h ∨ w1 ≠ w ∧ objs s !! w1 = Some o1 ∧ w_worker o1 ≠ Some h) as Hl.
  { intros w1 o1. rewrite lookup_insert. case_decide; [naive_solver|]. intros Ho. right. split_and!; [done..|].
    by eapply worker_ucx. }
  assert (pending (set_objs (<[w := fresh_worker h]> (objs s)) s) ≡ₚ pending s) as Hpend.
  { rewrite pending_insert. cbn. unfold pending. cbn. by rewrite delete_id. }
  destruct HI as [H1 H2 H3 H4 H5 H6 H7 H8 H9 H10 H11 H12 H13 H14 H15 H16].
  assert (w ∉ option_list (m_worker s) ++ m_workers s) as Hnew by (rewrite <- H6, Hw; by intros [? ?]).
  split; cbn [objs ucx_workers ucx_eps ucx_reqs lost m_worker m_workers set_objs set_uworkers set_recv set_send].
  - intros w1 o1 [[-> ->]|(_ & Ho & _)]%Hl; [exists h; set_solver|]. destruct (H1 _ _ Ho) as (k & ? & ? & ?). exists k. set_solver.
  - intros w1 w2 o1 o2 [[-> ->]|(_ & E1 & N1)]%Hl [[-> ->]|(_ & E2 & N2)]%Hl; cbn; try congruence. by eapply H2.
  - intros k [->%elem_of_singleton|Hk]%elem_of_union.
    + right. exists w, (fresh_worker h). by rewrite lookup_insert_eq.
    + destruct (H3 k Hk) as [?|(w1 & o1 & Ho & E)]; [by left|]. right. exists w1, o1.
      rewrite lookup_insert_ne; [done|congruence].
  - intros k Hk. destruct (H4 k Hk) as [Hin Hn]. split; [set_solver|].
    intros w1 o1 [[-> ->]|(_ & Ho & _)]%Hl; [|by eapply Hn]. cbn. intros [= ->]. done.
  - rewrite HP. by constructor.
  - intros x. rewrite HP, elem_of_cons, <- H6, lookup_insert. case_decide; [subst; split; [by left|by eexists]|]. naive_solver.
  - intros x Hx. by apply HW, H7.
  - intros x o Hm [[-> ->]|(_ & Ho & _)]%Hl; [done|]. destruct HR as [->| ->]; [by eapply H8|].
    injection Hm as <-. congruence.
  - intros x o r e HC [[-> ->]|(_ & Ho & _)]%Hl; [done|]. by eapply H9.
  - intros w1 w2 o1 o2 r1 r2 e1 e2 C1 C2 [[-> ->]|(_ & E1 & _)]%Hl [[-> ->]|(_ & E2 & _)]%Hl; try done. by eapply H10.
  - done.
  - by intros e ?%elem_of_nil.
  - change (NoDup (pend [] ++ pending (set_objs (<[w := fresh_worker h]> (objs s)) s))). by rewrite Hpend.
  - intros r. change (r ∈ pend [] ++ pending (set_objs (<[w := fresh_worker h]> (objs s)) s) ↔ r ∈ ucx_reqs s).
    by rewrite Hpend.
  - intros x o c [[-> ->]|(_ & Ho & _)]%Hl Hc Hd; [by apply elem_of_nil in Hc|].
    apply elem_of_union. right. by eapply H15.
  - by intros c ?%elem_of_nil.
Qed.

(** A worker whose constructor throws stays behind in UCX. *)
Lemma lost_inv C s h :
  lc_inv C [] [] s → h ∉ ucx_workers s →
  lc_inv C [] [] (set_lost ({[h]} ∪ lost s) (set_uworkers ({[h]} ∪ ucx_workers s) s)).
Proof.
  intros HI Hh. pose proof (λ w o, worker_ucx [] [] C s w o h HI) as Hn.
  destruct HI as [H1 H2 H3 H4 H5 H6 H7 H8 H9 H10 H11 H12 H13 H14 H15 H16].
  split; try done; cbn [objs ucx_workers ucx_eps ucx_reqs lost m_worker m_workers set_lost set_uworkers].
  - intros w o Ho. destruct (H1 _ _ Ho) as (k & ? & ? & ?). exists k. set_solver.
  - intros k [->%elem_of_singleton|[?|?]%H3]%elem_of_union; set_solver.
  - intros k [->%elem_of_singleton|[Hk Hn']%H4]%elem_of_union; [|set_solver]. split; [set_solver|]. intros w o Ho. by eapply Hn.
  - by intros e ?%elem_of_nil.
  - intros w o c Ho Hc Hd. apply elem_of_union. right. by eapply H15.
  - by intros c ?%elem_of_nil.
Qed.

(** *** Deleting workers *)

(** The objects that are left to delete *)
Record del_inv (rem : list nat) (s : lc) : Prop := {
  di_obj w o : objs s !! w = Some o → ∃ h, w_worker o = Some h ∧ w_moved o = false ∧ h ∈ ucx_workers s;
  di_unique w w' o o' :
    objs s !! w = Some o → objs s !! w' = Some o' → w_worker o = w_worker o' → w = w';
  di_worker h : h ∈ ucx_workers s → h ∈ lost s ∨ ∃ w o, objs s !! w = Some o ∧ w_worker o = Some h;
  di_lost h : h ∈ lost s → h ∈ ucx_workers s ∧ ∀ w o, objs s !! w = Some o → w_worker o ≠ Some h;
  di_rem w : is_Some (objs s !! w) ↔ w ∈ rem
}.

Lemma delete_worker_ok w rem s :
  del_inv (w :: rem) s → w ∉ rem →
  ∃ o h, objs s !! w = Some o ∧ w_worker o = Some h ∧
    delete_worker w s = (Ret tt, set_objs (delete w (objs s)) (set_uworkers (ucx_workers s ∖ {[h]}) s)) ∧
    del_inv rem (set_objs (delete w (objs s)) (set_uworkers (ucx_workers s ∖ {[h]}) s)).
Proof.
  intros [H1 H2 H3 H4 H5] Hn. destruct (proj2 (H5 w)) as [o Ho]; [set_solver|].
  destruct (H1 w o Ho) as (h & Eh & Em & Hh). exists o, h. split_and!; [done..| |].
  - unfold delete_worker, bnd, get_obj. rewrite Ho, Em, Eh. unfold require. by rewrite bool_decide_eq_true_2.
  - assert (∀ w1 o1, delete w (objs s) !! w1 = Some o1 → objs s !! w1 = Some o1 ∧ w_worker o1 ≠ Some h) as Hl.
    { intros w1 o1 [Hne Ho1]%lookup_delete_Some. split; [done|]. intros E. apply Hne. eapply H2; [done..|congruence]. }
    split; cbn [objs ucx_workers lost set_objs set_uworkers].
    + intros w1 o1 [Ho1 E1]%Hl. destruct (H1 _ _ Ho1) as (k & Ek & ? & ?). exists k. split_and!; [done..|].
      apply elem_of_difference. split; [done|]. rewrite elem_of_singleton. congruence.
    + intros w1 w2 o1 o2 [Ho1 _]%Hl [Ho2 _]%Hl. by eapply H2.
    + intros k [[?|(w1 & o1 & Ho1 & E)]%H3 Hk]%elem_of_difference; [by left|]. right. exists w1, o1.
      rewrite lookup_delete_ne; [done|]. intros ->. rewrite elem_of_singleton in Hk. congruence.
    + intros k [Hk Hn']%H4. split; [|intros w1 o1 [Ho1 _]%Hl; by eapply Hn'].
      apply elem_of_difference. split; [done|]. intros ->%elem_of_singleton. by apply (Hn' w o).
    + intros w1. rewrite lookup_delete_is_Some, H5. set_solver.
Qed.

Lemma delete_workers_ok ws rem s :
  del_inv (ws ++ rem) s → NoDup (ws ++ rem) →
  ∃ s', mfor ws delete_worker s = (Ret tt, s') ∧ del_inv rem s' ∧
    ucx_reqs s' = ucx_reqs s ∧ ucx_context s' = ucx_context s ∧ comms s' = comms s ∧ lost s' = lost s ∧ m_worker s' = m_worker s.
Proof.
  revert s. induction ws as [|w ws IH]; intros s HD Hn; [by exists s|].
  apply NoDup_cons in Hn as [Hw Hn]. destruct (delete_worker_ok w (ws ++ rem) s HD Hw) as (o & h & _ & _ & E & HD').
  destruct (IH _ HD' Hn) as (s' & E' & HD'' & R). exists s'. cbn. by rewrite (bnd_ret _ _ _ _ _ E).
Qed.

Lemma inv_del C loose eps s : lc_inv C loose eps s → del_inv (m_workers s ++ option_list (m_worker s)) s.
Proof.
  intros [H1 H2 H3 H4 H5 H6 H7 H8 H9 H10 H11 H12 H13 H14 H15 H16]. split; try done.
  intros w. rewrite H6. set_solver.
Qed.

Lemma del_inv_nil s : del_inv [] s → objs s = ∅ ∧ ucx_workers s = lost s.
Proof.
  intros [H1 H2 H3 H4 H5]. assert (objs s = ∅) as Eo.
  { apply map_empty. intros w. apply eq_None_not_Some. rewrite H5. apply not_elem_of_nil. }
  split; [done|]. apply set_eq. intros h. split; [|apply H4]. intros [?|(w & o & Ho & _)]%H3; [done|].
  by rewrite Eo, lookup_empty in Ho.
Qed.
End workers.
