(* ===== verification/UcxLifecycleApi.v ===== *)
(** * The life of a UCX context

    Runs of the member functions of UcxLifecycle.v and the properties of programs
    that create communicators, connect them and destroy them. *)
From S2P Require Import Prelude AddressDb UcxLifecycle UcxLifecycleInv.
Local Open Scope Z_scope.

(** ** Runs *)

(** What closing endpoints leaves alone *)
Record kept (s s' : lc) : Prop := {
  k_context : ucx_context s' = ucx_context s;
  k_workers : ucx_workers s' = ucx_workers s;
  k_lost : lost s' = lost s;
  k_recv : m_worker s' = m_worker s;
  k_send : m_workers s' = m_workers s;
  k_comms : comms s' = comms s;
  k_db : m_db s' = m_db s;
  k_dom w : is_Some (objs s' !! w) ↔ is_Some (objs s !! w)
}.

#[export] Instance kept_preorder : PreOrder kept.
Proof.
  split; [by intros s; split|]. intros s1 s2 s3 [] []. split; try congruence. intros w. by rewrite k_dom1, k_dom0.
Qed.

Lemma kept_objs s s' :
  kept s s' → objs s' = objs s → ∀ w o, objs s !! w = Some o → objs s' !! w = Some o.
Proof. by intros _ ->. Qed.

Section runs.
Context (u : ucx).
Implicit Types (s : lc) (C : gset nat) (loose : list close_handle) (eps : list endpoint_t).

Lemma require_run b s : b s = true → require b s = (Ret tt, s).
Proof. unfold require. by intros ->. Qed.
Lemma get_obj_run w o s : objs s !! w = Some o → get_obj w s = (Ret o, s).
Proof. unfold get_obj. by intros ->. Qed.

Lemma worker_progress_run h s : h ∈ ucx_workers s → worker_progress h s = (Ret tt, set_tick (S (tick s)) s).
Proof.
  intros Hh. unfold worker_progress. erewrite bnd_ret; [done|]. apply require_run. by rewrite bool_decide_eq_true_2.
Qed.

(** [progress] of a handle: it becomes done and its request is freed, or nothing
    changes. *)
Lemma handle_progress_ok C loose eps c s :
  lc_inv C (c :: loose) eps s →
  ∃ c' s', handle_progress u c s = (Ret c', s') ∧ lc_inv C (c' :: loose) eps s' ∧ kept s s' ∧ objs s' = objs s ∧
    (m_done c' = false → c' = c).
Proof.
  intros HI. unfold handle_progress. destruct (m_done c) eqn:Ed; [by exists c, s|].
  rewrite (bnd_ret _ _ _ _ _ (worker_progress_run _ _ (li_loose _ _ _ _ HI c ltac:(set_solver) Ed))).
  apply (inv_tick C eps _ (S (tick s))) in HI as HI1.
  destruct (free_inv C eps loose c _ HI1 Ed) as [Hin _].
  erewrite bnd_ret by (apply require_run; by rewrite bool_decide_eq_true_2).
  unfold call at 1. unfold bnd at 1. destruct (u_completed u _ (m_status c)).
  - exists c. eexists. split; [done|]. split; [by apply inv_tick|done].
  - set (s1 := set_tick _ (set_tick _ s)). assert (lc_inv C (c :: loose) eps s1) as HI2 by by apply inv_tick.
    destruct (free_inv C eps loose c s1 HI2 Ed) as [_ HI3]. unfold request_free.
    erewrite bnd_ret by (erewrite bnd_ret; [done|apply require_run; by rewrite bool_decide_eq_true_2]).
    eexists _, _. split; [done|]. split; [by apply add_done|done].
Qed.

(** [close] of an endpoint *)
Lemma close_ok C loose eps e s :
  lc_inv C loose (e :: eps) s →
  ∃ c s', close u e s = (Ret c, s') ∧ lc_inv C (c :: loose) eps s' ∧ kept s s' ∧ objs s' = objs s.
Proof.
  intros HI. destruct (li_eps_open _ _ _ _ HI e) as [He Hw]; [set_solver|].
  unfold close. erewrite bnd_ret by (apply require_run; by rewrite bool_decide_eq_true_2).
  unfold call, bnd at 1. apply (inv_tick C (e :: eps) _ (S (tick s))) in HI as HI1.
  destruct (u_close u (tick s)).
  - eexists _, _. split; [done|]. split; [apply add_done; [|done]|done].
    eapply closed_inv; [exact HI1|]. cbn. set_solver.
  - eexists _, _. split; [done|]. split; [apply add_done; [|done]|done].
    apply (closed_inv _ _ _ e (ucx_eps s)) in HI1; [exact HI1|]. cbn. set_solver.
  - eexists _, _. split; [done|]. split; [|done].
    apply (closed_inv _ _ _ e (ucx_eps s ∖ {[e_ep e]})) in HI1; [|cbn; set_solver].
    refine (new_req_inv _ _ _ _ _ _ HI1 _ Hw). apply is_fresh.
Qed.

Lemma close_endpoint_ok C eps w r e s :
  lc_inv C [] (e :: eps) s → w ∈ m_workers s → is_Some (objs s !! w) →
  ∃ s', close_endpoint u w (r, e) s = (Ret tt, s') ∧ lc_inv C [] eps s' ∧ kept s s'.
Proof.
  intros HI Hsend [o Hw]. unfold close_endpoint. cbn [snd].
  destruct (close_ok _ _ _ _ _ HI) as (c & s1 & E1 & HI1 & K1 & O1). rewrite (bnd_ret _ _ _ _ _ E1).
  destruct (handle_progress_ok _ _ _ _ _ HI1) as (c' & s2 & E2 & HI2 & K2 & O2 & _). rewrite (bnd_ret _ _ _ _ _ E2).
  assert (objs s2 !! w = Some o) as Hw2 by congruence.
  rewrite (bnd_ret _ _ _ _ _ (get_obj_run _ _ _ Hw2)). eexists. split; [done|].
  split.
  - eapply (handles_inv _ _ [c'] [] w o); [done|by rewrite (k_send _ _ K2), (k_send _ _ K1)|done| |].
    + rewrite pend_app. change (pend []) with (@nil positive). by rewrite app_nil_l, (comm (++)).
    + intros c1. set_solver.
  - etrans; [exact K1|]. etrans; [exact K2|]. split; try done. intros w'. cbn.
    rewrite lookup_insert. case_decide; [subst; rewrite Hw2; split; intros; by eexists|done].
Qed.

Lemma close_all_ok C w l s :
  lc_inv C [] (snd <$> l) s → w ∈ m_workers s → is_Some (objs s !! w) →
  ∃ s', mfor l (close_endpoint u w) s = (Ret tt, s') ∧ lc_inv C [] [] s' ∧ kept s s'.
Proof.
  revert s. induction l as [|[r e] l IH]; intros s HI Hsend Hw; [by exists s|].
  destruct (close_endpoint_ok _ _ w r e s HI Hsend Hw) as (s1 & E1 & HI1 & K1).
  destruct (IH s1 HI1) as (s2 & E2 & HI2 & K2); [by rewrite (k_send _ _ K1)|by apply K1|].
  exists s2. cbn. rewrite (bnd_ret _ _ _ _ _ E1), E2. split_and!; [done..|]. by etrans.
Qed.

(** [~communicator_impl()] *)
Lemma destroy_communicator_ok w s :
  lc_inv (comms s) [] [] s → w ∈ comms s →
  ∃ s', destroy_communicator u w s = (Ret tt, s') ∧ lc_inv (comms s') [] [] s' ∧ comms s' = comms s ∖ {[w]} ∧
    lost s' = lost s.
Proof.
  intros HI Hc. destruct (proj2 (li_owned _ _ _ _ HI w)) as [o Hw].
  { apply elem_of_app. right. by eapply li_comms. }
  unfold destroy_communicator. rewrite (bnd_ret _ _ _ _ _ (get_obj_run _ _ _ Hw)).
  pose proof (start_closing _ _ _ _ _ HI Hc Hw) as HI1.
  destruct (close_all_ok _ w _ _ HI1) as (s1 & E1 & HI2 & K1); [exact (li_comms _ _ _ _ HI w Hc)|by eexists|]. rewrite (bnd_ret _ _ _ _ _ E1).
  eexists. split; [done|]. cbn. rewrite (k_comms _ _ K1). split_and!; [|done|apply K1].
  by destruct HI2.
Qed.

(** A new worker for the context, or an exception *)
Lemma new_worker_ok C s :
  lc_inv C [] [] s →
  (∃ w h n, new_worker u s = (Ret w, set_objs (<[w := fresh_worker h]> (objs s))
              (set_uworkers ({[h]} ∪ ucx_workers s) (set_tick n s))) ∧ objs s !! w = None ∧ h ∉ ucx_workers s) ∨
  (∃ s', new_worker u s = (Throw ucx_error, s') ∧ lc_inv C [] [] s' ∧ m_worker s' = m_worker s ∧
     comms s' = comms s ∧ ucx_context s' = ucx_context s ∧ m_db s' = m_db s ∧
     ((∀ t, u_address u t = true) → lost s' = lost s)).
Proof.
  intros HI. unfold new_worker, bnd, call, on_exception, check, get, put_obj. cbn.
  assert (fresh (ucx_workers s) ∉ ucx_workers s) as Hf by apply is_fresh.
  destruct (u_worker u (tick s)) eqn:E1; cbn.
  2: { right. eexists. split; [done|]. split; [by apply inv_tick|done]. }
  destruct (u_address u (S (tick s))) eqn:E2; cbn.
  - left. exists (fresh (dom (objs s))), (fresh (ucx_workers s)), (S (S (tick s))).
    split; [done|]. split; [|exact Hf]. apply not_elem_of_dom, is_fresh.
  - right. eexists. split; [done|]. split; [|repeat split].
    + apply (lost_inv C (set_tick (S (S (tick s))) s)); [by apply inv_tick|done].
    + intros Ha. by rewrite Ha in E2.
Qed.

Lemma get_communicator_ok s :
  lc_inv (comms s) [] [] s →
  ∃ r s', get_communicator u s = (r, s') ∧ (∀ h, r ≠ Halt h) ∧ lc_inv (comms s') [] [] s' ∧
    ((∀ t, u_address u t = true) → lost s' = lost s).
Proof.
  intros HI. unfold get_communicator.
  destruct (new_worker_ok _ _ HI) as [(w & h & n & E & Hw & Hh)|(s' & E & HI' & _ & Hc & _ & _ & Hl)].
  - rewrite (bnd_ret _ _ _ _ _ E). eexists _, _. split; [done|]. split; [done|]. cbn. split; [|done].
    assert (lc_inv (comms s) [] [] (set_send (m_workers s ++ [w]) (set_recv (m_worker s)
      (set_objs (<[w := fresh_worker h]> (objs s)) (set_uworkers ({[h]} ∪ ucx_workers s) (set_tick n s)))))) as HI1.
    { apply (added_inv _ (set_tick n s) w h (m_worker s) (m_workers s ++ [w])); [by apply inv_tick|done|done| | |by left].
      - cbn. rewrite (assoc (++)), Permutation_app_comm. done.
      - cbn. set_solver. }
    revert HI1. cbn. intros [H1 H2 H3 H4 H5 H6 H7 H8 H9 H10 H11 H12 H13 H14 H15 H16]. cbn in *.
    assert (∀ o, <[w := fresh_worker h]> (objs s) !! w = Some o → m_endpoint_cache o = ∅) as Hnew.
    { intros o. rewrite lookup_insert_eq. by intros [= <-]. }
    split; try done; cbn.
    + intros x [->%elem_of_singleton|Hx]%elem_of_union; [set_solver|by apply H7].
    + intros x o r e [->%elem_of_singleton|Hx]%elem_of_union Ho Hr; [|by eapply H9].
      by rewrite (Hnew o Ho), lookup_empty in Hr.
    + intros w1 w2 o1 o2 r1 r2 e1 e2 [->%elem_of_singleton|C1]%elem_of_union [->%elem_of_singleton|C2]%elem_of_union
        Ho1 Ho2 Hr1 Hr2; try (by rewrite (Hnew _ Ho1), lookup_empty in Hr1);
        try (by rewrite (Hnew _ Ho2), lookup_empty in Hr2). by eapply H10.
  - unfold bnd. rewrite E. eexists _, _. split; [done|]. rewrite Hc. by split_and!.
Qed.

Lemma new_endpoint_run h s :
  h ∈ ucx_workers s →
  new_endpoint u h s =
    if u_ep u (tick s)
    then (Ret (Endpoint (fresh (ucx_eps s)) h), set_eps ({[fresh (ucx_eps s)]} ∪ ucx_eps s) (set_tick (S (tick s)) s))
    else (Throw ucx_error, set_tick (S (tick s)) s).
Proof.
  intros Hh. unfold new_endpoint. erewrite bnd_ret by (apply require_run; by rewrite bool_decide_eq_true_2).
  unfold bnd, call. by destruct (u_ep u (tick s)).
Qed.

(** [connect] to a rank that is not in the cache *)
Lemma connect_run w o h rank s :
  objs s !! w = Some o → w_worker o = Some h → h ∈ ucx_workers s → m_endpoint_cache o !! rank = None →
  connect u w rank s =
    match m_address_map (m_db s) !! rank with
    | None => (Throw find_error, s)
    | Some _ =>
        if u_ep u (tick s)
        then (Ret (Endpoint (fresh (ucx_eps s)) h),
              set_objs (<[w := Worker (w_worker o) (w_moved o) (m_endpoint_handles o)
                          (<[rank := Endpoint (fresh (ucx_eps s)) h]> (m_endpoint_cache o))]> (objs s))
                (set_eps ({[fresh (ucx_eps s)]} ∪ ucx_eps s) (set_tick (S (tick s)) s)))
        else (Throw ucx_error, set_tick (S (tick s)) s)
    end.
Proof.
  intros Hw Eh Hh Er. unfold connect. rewrite (bnd_ret _ _ _ _ _ (get_obj_run _ _ _ Hw)), Er.
  unfold bnd at 1, gets. unfold bnd at 1, find. destruct (m_address_map (m_db s) !! rank); [|done].
  rewrite Eh. unfold bnd at 1. rewrite new_endpoint_run by done. by destruct (u_ep u (tick s)).
Qed.

(** [connect]: the endpoint of the cache, a new one, or an exception that changes
    nothing but the number of calls. *)
Lemma connect_ok w rank s :
  lc_inv (comms s) [] [] s → w ∈ comms s →
  (∃ e s' o, connect u w rank s = (Ret e, s') ∧ lc_inv (comms s') [] [] s' ∧ lost s' = lost s ∧ comms s' = comms s ∧
     objs s' !! w = Some o ∧ m_endpoint_cache o !! rank = Some e) ∨
  (∃ x n, connect u w rank s = (Throw x, set_tick n s) ∧
     (x = find_error ∧ m_address_map (m_db s) !! rank = None ∨ x = ucx_error ∧ u_ep u (tick s) = false)).
Proof.
  intros HI Hc. pose proof (li_comms _ _ _ _ HI w Hc) as Hs.
  destruct (proj2 (li_owned _ _ _ _ HI w)) as [o Hw]; [apply elem_of_app; by right|].
  destruct (li_obj _ _ _ _ HI _ _ Hw) as (h & Eh & Em & Hh).
  destruct (m_endpoint_cache o !! rank) as [e|] eqn:Er.
  { left. exists e, s, o. split_and!; try done. unfold connect. rewrite (bnd_ret _ _ _ _ _ (get_obj_run _ _ _ Hw)).
    by rewrite Er. }
  rewrite (connect_run w o h rank s) by done. destruct (m_address_map (m_db s) !! rank) eqn:Ea.
  2: { right. exists find_error, (tick s). split; [by destruct s|by left]. }
  destruct (u_ep u (tick s)) eqn:Ee; [|right; eexists _, _; split; [done|by right]]. left.
  set (x := fresh (ucx_eps s)). eexists (Endpoint x h), _, _. cbn. split; [done|].
  split; [|split_and!; [done|done|apply lookup_insert_eq|cbn; apply lookup_insert_eq]].
  apply (inv_tick _ _ _ (S (tick s))) in HI.
  exact (connected_inv _ w o h x rank _ HI Hs Hw Eh (is_fresh _) Er).
Qed.

(** *** The destructor of the context *)

Lemma taken_done c : m_done (taken c) = true.
Proof. done. Qed.

Lemma all_handles_ok C loose ws s :
  lc_inv C loose [] s → (∀ w, w ∈ ws → w ∈ m_workers s) →
  ∃ l s', all_handles ws s = (Ret l, s') ∧ lc_inv C (loose ++ l) [] s' ∧ kept s s' ∧
    (∀ w o, objs s' !! w = Some o → ∃ o1, objs s !! w = Some o1 ∧ m_endpoint_cache o = m_endpoint_cache o1).
Proof.
  revert loose s. induction ws as [|w ws IH]; intros loose s HI Hws.
  { exists [], s. rewrite app_nil_r. split_and!; try done. intros w o Ho. by exists o. }
  destruct (proj2 (li_owned _ _ _ _ HI w)) as [o Hw]; [specialize (Hws w); set_solver|].
  assert (lc_inv C (loose ++ m_endpoint_handles o) []
    (set_objs (<[w := with_handles (taken <$> m_endpoint_handles o) o]> (objs s)) s)) as HI1.
  { eapply handles_inv; [done|apply Hws; set_solver|done| |].
    - rewrite pend_app, pend_taken. by rewrite app_nil_r.
    - intros c Hc Hd. apply elem_of_app in Hc as [(c' & -> & _)%list_elem_of_fmap|Hc]; [done|]. set_solver. }
  destruct (IH _ _ HI1) as (l & s2 & E2 & HI2 & K2 & O2).
  { intros w' Hw'. cbn. apply Hws. set_solver. }
  exists (m_endpoint_handles o ++ l), s2. cbn [all_handles]. unfold take_handles.
  erewrite bnd_ret by (rewrite (bnd_ret _ _ _ _ _ (get_obj_run _ _ _ Hw)); done). rewrite (bnd_ret _ _ _ _ _ E2).
  split; [done|]. split; [by rewrite (assoc (++))|]. split.
  - etrans; [|exact K2]. split; try done. intros w'. cbn. rewrite lookup_insert.
    case_decide; [subst; rewrite Hw; split; intros; by eexists|done].
  - intros w' o' (o1 & Ho1 & ->)%O2. revert Ho1. cbn. rewrite lookup_insert. case_decide; [|by exists o1].
    intros [= <-]. subst. by exists o.
Qed.

Lemma recv_handle_ok C loose eps w s :
  lc_inv C loose eps s → m_worker s = Some w →
  ∃ h, recv_handle s = (Ret h, s) ∧ h ∈ ucx_workers s.
Proof.
  intros HI Hw. destruct (proj2 (li_owned _ _ _ _ HI w)) as [o Ho]; [rewrite Hw; set_solver|].
  destruct (li_obj _ _ _ _ HI _ _ Ho) as (h & Eh & _ & Hh). exists h. split; [|done].
  unfold recv_handle, bnd, gets. rewrite Hw. cbn. unfold get_obj. by rewrite Ho, Eh.
Qed.

Lemma close_round_ok C w loose l s :
  lc_inv C (l ++ loose) [] s → m_worker s = Some w →
  ∃ l' s', close_round u l s = (Ret l', s') ∧ lc_inv C (l' ++ loose) [] s' ∧ kept s s' ∧ objs s' = objs s ∧
    (∀ c, c ∈ l' → m_done c = false).
Proof.
  revert loose s. induction l as [|c l IH]; intros loose s HI Hw; cbn [close_round].
  { exists [], s. split_and!; try done. by intros c ?%elem_of_nil. }
  destruct (recv_handle_ok _ _ _ _ _ HI Hw) as (h & Eh & Hh). rewrite (bnd_ret _ _ _ _ _ Eh).
  rewrite (bnd_ret _ _ _ _ _ (worker_progress_run _ _ Hh)).
  apply (inv_tick C [] _ (S (tick s))) in HI.
  destruct (handle_progress_ok _ _ _ _ _ HI) as (c' & s2 & E2 & HI2 & K2 & O2 & _). rewrite (bnd_ret _ _ _ _ _ E2).
  destruct (IH (c' :: loose) s2) as (l' & s3 & E3 & HI3 & K3 & O3 & D3).
  - eapply (inv_perm C [] (c' :: l ++ loose)); [exact HI2|]. solve_Permutation.
  - by rewrite (k_recv _ _ K2).
  - rewrite (bnd_ret _ _ _ _ _ E3). eexists _, s3. split; [done|].
    assert (kept s s3) as K by (etrans; [|exact K3]; by destruct K2).
    destruct (m_done c') eqn:Ed.
    + split; [|by rewrite O3, O2]. eapply (drop_done C [] _ c'); [|done]. eapply inv_perm; [exact HI3|]. solve_Permutation.
    + split; [eapply inv_perm; [exact HI3|]; solve_Permutation|]. split_and!; [done|by rewrite O3, O2|].
      intros c1 [->|?]%elem_of_cons; [done|by apply D3].
Qed.

(** The loop ends at the time-out at the latest. *)
Lemma close_loop_ok C w clock K fuel k l s :
  lc_inv C l [] s → m_worker s = Some w → t_timeout ≤ clock K → (k ≤ K)%nat → (K < fuel + k)%nat →
  (k = 0%nat ∨ ∀ c, c ∈ l → m_done c = false) → 0 ≤ clock 0%nat < t_timeout →
  ∃ l' s', close_loop u clock fuel k l s = (Ret l', s') ∧ lc_inv C l' [] s' ∧ kept s s' ∧ objs s' = objs s ∧
    (∀ c, c ∈ l' → m_done c = false).
Proof.
  revert k l s. induction fuel as [|fuel IH]; intros k l s HI Hw HK Hk Hf Hd H0; [lia|]. cbn [close_loop].
  destruct (decide (l = [])) as [->|Hl].
  { rewrite bool_decide_eq_false_2 by auto. exists [], s. split_and!; try done. by intros c ?%elem_of_nil. }
  rewrite bool_decide_eq_true_2 by done. cbn [andb]. destruct (Z.ltb_spec (clock k) t_timeout) as [Hc|Hc].
  - destruct (close_round_ok C w [] l s) as (l1 & s1 & E1 & HI1 & K1 & O1 & D1); [by rewrite app_nil_r|done|].
    rewrite app_nil_r in HI1. rewrite (bnd_ret _ _ _ _ _ E1).
    assert (k ≠ K) as Hne by (intros ->; lia).
    destruct (IH (S k) l1 s1) as (l2 & s2 & E2 & HI2 & K2 & O2 & D2);
      [done|by rewrite (k_recv _ _ K1)|done|lia|lia|by right|done|].
    exists l2, s2. split_and!; try done; [by etrans|congruence].
  - exists l, s. split_and!; try done. destruct Hd as [->|Hd]; [lia|done].
Qed.

Lemma free_all_ok C l s :
  lc_inv C l [] s → (∀ c, c ∈ l → m_done c = false) →
  ∃ s', mfor l (λ c, request_free (m_status c)) s = (Ret tt, s') ∧ lc_inv C [] [] s' ∧ kept s s' ∧ objs s' = objs s.
Proof.
  revert s. induction l as [|c l IH]; intros s HI Hd; [by exists s|].
  destruct (free_inv C [] l c s HI) as [Hin HI1]; [apply Hd; set_solver|].
  destruct (IH _ HI1) as (s' & E & HI' & K & O); [intros c' ?; apply Hd; set_solver|].
  exists s'. cbn. unfold request_free at 1.
  erewrite bnd_ret by (erewrite bnd_ret; [done|apply require_run; by rewrite bool_decide_eq_true_2]).
  rewrite E. split_and!; try done. etrans; [|exact K]. done.
Qed.

Lemma barrier_loop_ok C loose eps w polls s :
  lc_inv C loose eps s → m_worker s = Some w →
  ∃ n, barrier_loop polls s = (Ret tt, set_tick n s).
Proof.
  revert s. induction polls as [|polls IH]; intros s HI Hw; [exists (tick s); by destruct s|].
  destruct (recv_handle_ok _ _ _ _ _ HI Hw) as (h & Eh & Hh). cbn.
  rewrite (bnd_ret _ _ _ _ _ Eh), (bnd_ret _ _ _ _ _ (worker_progress_run _ _ Hh)).
  destruct (IH (set_tick (S (tick s)) s)) as [n E]; [by apply inv_tick|done|]. by exists n.
Qed.

(** Requests are all gone when no handle waits for one. *)
Definition no_pending (s : lc) : Prop := ∀ w o, objs s !! w = Some o → pend (m_endpoint_handles o) = [].

Lemma no_pending_nil s : no_pending s → pending s = [].
Proof.
  intros H. unfold pending, all_queued. apply Permutation_nil. symmetry. apply Permutation_nil_r.
  destruct (map_to_list _ ≫= snd) as [|r l] eqn:E; [done|]. exfalso.
  assert (r ∈ map_to_list ((λ o, pend (m_endpoint_handles o)) <$> objs s) ≫= snd) as Hin by (rewrite E; set_solver).
  apply list_elem_of_bind in Hin as ([w q] & Hq & Hin). apply elem_of_map_to_list in Hin.
  apply lookup_fmap_Some in Hin as (o & <- & Ho). cbn in Hq. rewrite (H w o Ho) in Hq. by apply elem_of_nil in Hq.
Qed.

Lemma all_handles_taken ws l s s' :
  all_handles ws s = (Ret l, s') → ∀ w o, objs s' !! w = Some o →
  pend (m_endpoint_handles o) = [] ∨ (w ∉ ws) ∧ objs s !! w = Some o.
Proof.
  revert l s. induction ws as [|w ws IH]; intros l s E; [injection E as <- <-; intros w o; right; split; [set_solver|done]|].
  apply bnd_inv in E as (l1 & s1 & E1 & E). apply bnd_inv in E as (l2 & s2 & E2 & E). injection E as <- <-.
  unfold take_handles, bnd, get_obj in E1. destruct (objs s !! w) as [o1|] eqn:Ho1; [|done]. injection E1 as <- <-.
  intros w' o Ho. destruct (IH _ _ E2 w' o Ho) as [?|[Hn Hs]]; [by left|]. revert Hs. cbn.
  rewrite lookup_insert. case_decide; [|right; split; [set_solver|done]]. intros [= <-]. left. apply pend_taken.
Qed.

(** The part of the destructor that closes endpoints *)
Lemma close_phase_ok w clock K fuel s :
  lc_inv ∅ [] [] s → m_worker s = Some w → t_timeout ≤ clock K → (K < fuel)%nat → 0 ≤ clock 0%nat < t_timeout →
  ∃ s', (let! handles := all_handles (m_workers s) in
         let! handles := close_loop u clock fuel 0 handles in
         mfor handles (λ c, request_free (m_status c))) s = (Ret tt, s') ∧
    lc_inv ∅ [] [] s' ∧ kept s s' ∧ ucx_reqs s' = ∅.
Proof.
  intros HI Hw HK Hf H0.
  destruct (all_handles_ok ∅ [] (m_workers s) s HI) as (l & s1 & E1 & HI1 & K1 & O1); [done|].
  rewrite (bnd_ret _ _ _ _ _ E1).
  destruct (close_loop_ok ∅ w clock K fuel 0 l s1) as (l2 & s2 & E2 & HI2 & K2 & O2 & D2);
    [done|by rewrite (k_recv _ _ K1)|done|lia|lia|by left|done|]. rewrite (bnd_ret _ _ _ _ _ E2).
  destruct (free_all_ok ∅ l2 s2 HI2 D2) as (s3 & E3 & HI3 & K3 & O3). rewrite E3. exists s3.
  split_and!; [done..|etrans; [exact K1|]; by etrans|].
  assert (no_pending s3) as Hnp.
  { intros w' o Ho. rewrite O3, O2 in Ho. destruct (all_handles_taken _ _ _ _ E1 w' o Ho) as [?|[Hn Hs]]; [done|].
    assert (w' ∈ option_list (m_worker s) ++ m_workers s) as Hi by (apply (li_owned _ _ _ _ HI); by eexists).
    rewrite Hw in Hi. assert (w' = w) as -> by set_solver. by rewrite (proj2 (li_recv _ _ _ _ HI w o Hw Hs)). }
  apply set_eq. intros r. rewrite <- (li_reqs_live _ _ _ _ HI3), (no_pending_nil _ Hnp). set_solver.
Qed.

Lemma destroy_context_ok w clock K fuel polls s :
  lc_inv (comms s) [] [] s → comms s = ∅ → m_worker s = Some w → ucx_context s = true →
  t_timeout ≤ clock K → (K < fuel)%nat → 0 ≤ clock 0%nat < t_timeout →
  ∃ s', destroy_context u clock fuel polls s = (Ret tt, s') ∧
    objs s' = ∅ ∧ ucx_workers s' = lost s ∧ ucx_reqs s' = ∅ ∧ ucx_context s' = false.
Proof.
  intros HI Hc Hw Hx HK Hf H0. rewrite Hc in HI.
  destruct (close_phase_ok w clock K fuel s HI Hw HK Hf H0) as (s1 & E1 & HI1 & K1 & Hr).
  unfold destroy_context. erewrite bnd_ret by done.
  apply bnd_inv in E1 as (l & sa & Ea & E). apply bnd_inv in E as (l2 & sb & Eb & E).
  rewrite (bnd_ret _ _ _ _ _ Ea), (bnd_ret _ _ _ _ _ Eb), (bnd_ret _ _ _ _ _ E).
  assert (m_worker s1 = Some w) as Hw1 by by rewrite (k_recv _ _ K1).
  destruct (barrier_loop_ok _ _ _ _ polls _ HI1 Hw1) as [n En]. rewrite (bnd_ret _ _ _ _ _ En).
  apply (inv_tick _ _ _ n) in HI1 as HI2. set (s2 := set_tick n s1) in *.
  erewrite bnd_ret by done. change (m_worker s2) with (m_worker s1). rewrite Hw1.
  destruct (proj2 (li_owned _ _ _ _ HI2 w)) as [o Ho]; [change (m_worker s2) with (m_worker s1); rewrite Hw1; set_solver|].
  rewrite (bnd_ret _ _ _ _ _ (get_obj_run _ _ _ Ho)).
  rewrite bool_decide_eq_true_2 by by eapply li_recv. erewrite bnd_ret by done.
  pose proof (inv_del _ _ _ _ HI2) as HD. change (m_worker s2) with (m_worker s1) in HD. rewrite Hw1 in HD.
  change (m_workers s2) with (m_workers s1) in HD. rewrite (k_send _ _ K1) in HD.
  destruct (delete_workers_ok _ _ _ HD) as (s3 & E3 & HD3 & R1 & R2 & R3 & R4 & R5).
  { pose proof (li_nodup _ _ _ _ HI2) as Hn. change (m_worker s2) with (m_worker s1) in Hn.
    change (m_workers s2) with (m_workers s1) in Hn. rewrite Hw1, (k_send _ _ K1) in Hn. by rewrite (comm (++)). }
  rewrite (bnd_ret _ _ _ _ _ E3). erewrite bnd_ret by done.
  destruct (delete_worker_ok w [] (set_send [] s3)) as (o4 & h4 & _ & _ & E4 & HD4); [by destruct HD3|set_solver|].
  rewrite (bnd_ret _ _ _ _ _ E4). erewrite bnd_ret by done. unfold cleanup.
  destruct (del_inv_nil _ HD4) as [Eo Ew].
  erewrite bnd_ret by (erewrite bnd_ret; [done|apply require_run; cbn; rewrite R2; cbn; by rewrite (k_context _ _ K1)]).
  erewrite bnd_ret by done. cbn in *. rewrite R3. cbn. rewrite (k_comms _ _ K1), Hc, elements_empty.
  eexists. split; [done|]. cbn. split_and!; [done| |by rewrite R1|done]. rewrite Ew, R4. cbn. apply K1.
Qed.

(** *** The constructor of the context *)

Lemma lc_init_inv r n : lc_inv ∅ [] [] (init_lc r n).
Proof.
  split; cbn; try (intros *; rewrite ?lookup_empty; done); try set_solver.
  - constructor.
  - intros w. rewrite lookup_empty. split; [by intros [? ?]|]. by intros ?%elem_of_nil.
  - constructor.
  - constructor.
Qed.

Lemma new_context_ok ts db r n s :
  new_context u ts db (init_lc r n) = (Ret tt, s) →
  lc_inv (comms s) [] [] s ∧ comms s = ∅ ∧ (∃ w, m_worker s = Some w) ∧ ucx_context s = true ∧ lost s = ∅ ∧
  config_live s = false ∧ m_db s = db.
Proof.
  unfold new_context, on_exception. intros E.
  set (body := bnd (check (u_config u)) _) in E. destruct (body (init_lc r n)) as [[[]|x|h] s1] eqn:Eb;
    [|by unfold bnd in E; destruct (unwind s1) as [[] ?]|done]. injection E as <-. unfold body in Eb.
  destruct (u_config u); [|done]. unfold bnd at 1 in Eb. cbn [check ret] in Eb. unfold bnd at 1, modify at 1 in Eb.
  destruct (u_init u); [|done]. unfold bnd at 1 in Eb. cbn [check ret] in Eb. unfold bnd at 1, modify at 1 in Eb.
  unfold bnd at 1, modify at 1 in Eb. destruct (ts && negb (u_multi u)); [done|]. unfold bnd at 1 in Eb. cbn [ret] in Eb.
  set (s0 := set_config _ _) in Eb. assert (lc_inv ∅ [] [] s0) as HI by by destruct (lc_init_inv r n).
  destruct (new_worker_ok _ _ HI) as [(w & h & k & E & Hw & Hh)|(s' & E & _)]; [|unfold bnd in Eb; by rewrite E in Eb].
  rewrite (bnd_ret _ _ _ _ _ E) in Eb. injection Eb as <-. cbn. split; [|by split_and!; eauto].
  assert (lc_inv ∅ [] [] (set_tick k s0)) as HI1 by by apply inv_tick.
  destruct (added_inv ∅ _ w h (Some w) [] HI1 Hw Hh) as [H1 H2 H3 H4 H5 H6 H7 H8 H9 H10 H11 H12 H13 H14 H15 H16];
    [done|done|by right|]. split; done.
Qed.
End runs.

(** ** Programs *)

Inductive lop : Type :=
| L_get_communicator
| L_connect (w : nat) (rank : Z)
| L_destroy_communicator (w : nat).

Definition run_lop (u : ucx) (o : lop) : M lc unit :=
  match o with
  | L_get_communicator => let! _ := get_communicator u in ret tt
  | L_connect w rank => let! _ := connect u w rank in ret tt
  | L_destroy_communicator w => destroy_communicator u w
  end.

(** Communicators are used while they exist. *)
Definition admissible (o : lop) (s : lc) : bool :=
  match o with
  | L_get_communicator => true
  | L_connect w _ | L_destroy_communicator w => bool_decide (w ∈ comms s)
  end.

(** A program goes on after an exception. *)
Fixpoint run_lops (u : ucx) (l : list lop) (s : lc) : option (outcome unit * lc) :=
  match l with
  | [] => Some (Ret tt, s)
  | o :: l =>
      if admissible o s then
        match run_lop u o s with (Halt h, s') => Some (Halt h, s') | (_, s') => run_lops u l s' end
      else None
  end.

Section programs.
Context (u : ucx).

(** What a program keeps from the construction of the context on *)
Record live_ctx (db : address_db_mpi) (w : nat) (s : lc) : Prop := {
  lv_inv : lc_inv (comms s) [] [] s;
  lv_recv : m_worker s = Some w;
  lv_context : ucx_context s = true;
  lv_db : m_db s = db;
  lv_lost : (∀ t, u_address u t = true) → lost s = ∅
}.

Lemma destroy_communicator_frame w s s' :
  lc_inv (comms s) [] [] s → w ∈ comms s → destroy_communicator u w s = (Ret tt, s') →
  m_worker s' = m_worker s ∧ ucx_context s' = ucx_context s ∧ m_db s' = m_db s.
Proof.
  intros HI Hc. destruct (proj2 (li_owned _ _ _ _ HI w)) as [o Hw].
  { apply elem_of_app. right. by eapply li_comms. }
  unfold destroy_communicator. rewrite (bnd_ret _ _ _ _ _ (get_obj_run _ _ _ Hw)).
  pose proof (start_closing _ _ _ _ _ HI Hc Hw) as HI1.
  destruct (close_all_ok u _ w _ _ HI1) as (s1 & E1 & HI2 & K1); [exact (li_comms _ _ _ _ HI w Hc)|by eexists|].
  rewrite (bnd_ret _ _ _ _ _ E1). intros [= <-]. split_and!; apply K1.
Qed.

Lemma get_communicator_frame s :
  lc_inv (comms s) [] [] s →
  m_worker (get_communicator u s).2 = m_worker s ∧ ucx_context (get_communicator u s).2 = ucx_context s ∧
  m_db (get_communicator u s).2 = m_db s.
Proof.
  intros HI. unfold get_communicator, bnd.
  destruct (new_worker_ok u _ _ HI) as [(w & h & n & E & _ & _)|(s' & E & _ & Hw & _ & Hx & Hd & _)]; by rewrite E.
Qed.

Lemma connect_frame w rank s :
  lc_inv (comms s) [] [] s → w ∈ comms s →
  m_worker (connect u w rank s).2 = m_worker s ∧ ucx_context (connect u w rank s).2 = ucx_context s ∧
  m_db (connect u w rank s).2 = m_db s.
Proof.
  intros HI Hc. destruct (proj2 (li_owned _ _ _ _ HI w)) as [o Hw].
  { apply elem_of_app. right. by eapply li_comms. }
  destruct (li_obj _ _ _ _ HI _ _ Hw) as (h & Eh & Em & Hh).
  destruct (m_endpoint_cache o !! rank) as [e|] eqn:Er.
  - unfold connect. rewrite (bnd_ret _ _ _ _ _ (get_obj_run _ _ _ Hw)). by rewrite Er.
  - rewrite (connect_run u w o h rank s) by done. destruct (m_address_map (m_db s) !! rank); [|done].
    by destruct (u_ep u (tick s)).
Qed.

Lemma run_lop_ok db w o s :
  live_ctx db w s → admissible o s = true →
  ∃ r s', run_lop u o s = (r, s') ∧ (∀ h, r ≠ Halt h) ∧ live_ctx db w s'.
Proof.
  intros [HI Hw Hx Hdb Hl] Ha. destruct o as [|v rank|v]; cbn in Ha; try apply bool_decide_eq_true in Ha; cbn [run_lop].
  - destruct (get_communicator_ok u s HI) as (r & s' & E & Hr & HI' & Hl').
    destruct (get_communicator_frame s HI) as (F1 & F2 & F3). rewrite E in F1, F2, F3. cbn in F1, F2, F3.
    exists (match r with Ret _ => Ret tt | Throw e => Throw e | Halt h => Halt h end), s'. unfold bnd. rewrite E.
    split; [by destruct r|]. split; [intros h; destruct r; try done; by specialize (Hr h0)|].
    split; [done|congruence..|]. intros Ht. rewrite Hl' by done. by apply Hl.
  - destruct (connect_frame v rank s HI Ha) as (F1 & F2 & F3). unfold bnd.
    destruct (connect_ok u v rank s HI Ha) as [(e & s' & o & E & HI' & El & Ec & _)|(x & n & E & _)];
      rewrite E in *; cbn in F1, F2, F3.
    + exists (Ret tt), s'. split_and!; [done..|]. split; [done|congruence..|]. intros Ht. rewrite El. by apply Hl.
    + eexists _, _. split; [done|]. split; [done|]. split; [by apply inv_tick|done..].
  - destruct (destroy_communicator_ok u v s HI Ha) as (s' & E & HI' & Ec & El).
    destruct (destroy_communicator_frame v s s' HI Ha E) as (F1 & F2 & F3).
    exists (Ret tt), s'. split_and!; [done..|]. split; [done|congruence..|]. intros Ht. rewrite El. by apply Hl.
Qed.

Lemma run_lops_ok db w l s r s' :
  live_ctx db w s → run_lops u l s = Some (r, s') → (∀ h, r ≠ Halt h) ∧ live_ctx db w s'.
Proof.
  revert s. induction l as [|o l IH]; cbn; intros s HI; [by intros [= <- <-]|].
  destruct (admissible o s) eqn:Ha; [|done].
  destruct (run_lop_ok db w o s HI Ha) as (r1 & s1 & E & Hr & HI1). rewrite E. destruct r1; [by apply IH..|].
  by destruct (Hr h).
Qed.

Lemma new_context_live ts db r n s :
  new_context u ts db (init_lc r n) = (Ret tt, s) → ∃ w, live_ctx db w s.
Proof.
  intros E. destruct (new_context_ok u ts db r n s E) as (HI & _ & [w Hw] & Hx & Hl & _ & Hd).
  exists w. by split.
Qed.
End programs.

(** ** Properties *)

(** C35: A context whose constructor has returned, and any communicators, connections and
    exceptions later: no operation reaches undefined behaviour, and when all
    communicators have been destroyed the destructor of the context returns, at the
    latest when its time-out has passed.  Then every UCX worker has been destroyed,
    except those whose constructor threw after UCX had created them, every close
    request has been freed, once, and the UCX context is cleaned up. *)
Theorem ucx_context_gives_back u ts db rank size s0 l r s1 clock K fuel polls :
  new_context u ts db (init_lc rank size) = (Ret tt, s0) → run_lops u l s0 = Some (r, s1) →
  (∀ h, r ≠ Halt h) ∧
  (comms s1 = ∅ → 0 ≤ clock 0%nat < t_timeout → t_timeout ≤ clock K → (K < fuel)%nat →
   ∃ s2, destroy_context u clock fuel polls s1 = (Ret tt, s2) ∧
     objs s2 = ∅ ∧ ucx_workers s2 = lost s1 ∧ ucx_reqs s2 = ∅ ∧ ucx_context s2 = false ∧
     ((∀ t, u_address u t = true) → ucx_workers s2 = ∅)).
Proof.
  intros E0 El. destruct (new_context_live u ts db rank size s0 E0) as [w HL].
  destruct (run_lops_ok u db w l s0 r s1 HL El) as [Hr [HI Hw Hx Hdb Hl]]. split; [done|]. intros Hc H0 HK Hf.
  destruct (destroy_context_ok u w clock K fuel polls s1 HI Hc Hw Hx HK Hf H0) as (s2 & E2 & Ho & Hu & Hq & Hc2).
  exists s2. split_and!; try done. intros Ha. by rewrite Hu, Hl.
Qed.

(** A communicator connects to every rank whose address the exchange of addresses
    has left in the database, if UCX can create the endpoint; other ranks throw and
    leave everything as it was.  A rank is connected once: later connections return the
    same open endpoint and change nothing. *)
Theorem ucx_connect_once u ts db rank size s0 l r s1 w k :
  new_context u ts db (init_lc rank size) = (Ret tt, s0) → run_lops u l s0 = Some (r, s1) → w ∈ comms s1 →
  match connect u w k s1 with
  | (Ret e, s2) => connect u w k s2 = (Ret e, s2) ∧ e_ep e ∈ ucx_eps s2
  | (Throw x, s2) => (∃ n, s2 = set_tick n s1) ∧
      (x = find_error ∧ find k db = Throw find_error ∨ x = ucx_error ∧ u_ep u (tick s1) = false)
  | (Halt _, _) => False
  end.
Proof.
  intros E0 El Hc. destruct (new_context_live u ts db rank size s0 E0) as [v HL].
  destruct (run_lops_ok u db v l s0 r s1 HL El) as [Hr [HI Hw Hx Hdb Hl]].
  destruct (connect_ok u w k s1 HI Hc) as [(e & s2 & o & E & HI2 & _ & Ec & Ho & Hk)|(x & n & E & Hcase)]; rewrite E.
  - split.
    + unfold connect. rewrite (bnd_ret _ _ _ _ _ (get_obj_run _ _ _ Ho)). by rewrite Hk.
    + eapply li_cache; [exact HI2|by rewrite Ec|done|done].
  - split; [by exists n|]. rewrite Hdb in Hcase. unfold find. destruct Hcase as [[? ->]|?]; auto.
Qed.

(** ** Examples *)

(** UCX without errors, where closing takes a while *)
Definition good_ucx : ucx :=
  Ucx true true true (λ _, true) (λ _, true) (λ _, true) (λ _, Close_pending) (λ t _, Nat.even t).
Definition db2 : address_db_mpi := put_address 1 [7; 8] (put_address 0 [5; 6] (new_db 0 2)).

Definition ctx0 : lc := (new_context good_ucx true db2 (init_lc 0 2)).2.
Definition lprog : list lop :=
  [L_get_communicator; L_get_communicator; L_connect 1 1; L_connect 1 1; L_connect 2 0; L_connect 2 1].
Definition lend : list lop := lprog ++ [L_destroy_communicator 1; L_destroy_communicator 2].
Definition state_of (l : list lop) : lc :=
  match run_lops good_ucx l ctx0 with Some (_, s) => s | None => ctx0 end.

Lemma ucx_context_gives_back_witness :
  ∃ s2, destroy_context good_ucx (λ k, 400 * Z.of_nat k) 4 2 (state_of lend) = (Ret tt, s2) ∧
    ucx_reqs s2 = ∅ ∧ ucx_workers s2 = ∅.
Proof.
  destruct (ucx_context_gives_back good_ucx true db2 0 2 ctx0 lend (Ret tt) (state_of lend)
              (λ k, 400 * Z.of_nat k) 3 4 2) as [_ H].
  - vm_compute. exact eq_refl.
  - vm_compute. exact eq_refl.
  - destruct H as (s2 & E & _ & _ & Hq & _ & Hw); [vm_compute; exact eq_refl|unfold t_timeout; lia|unfold t_timeout; lia|lia|].
    exists s2. split; [exact E|]. split; [exact Hq|]. exact (Hw (λ _, eq_refl)).
Defined.

Lemma ucx_connect_once_witness :
  match connect good_ucx 2 5 (state_of lprog) with
  | (Ret e, s2) => connect good_ucx 2 5 s2 = (Ret e, s2) ∧ e_ep e ∈ ucx_eps s2
  | (Throw x, s2) => (∃ n, s2 = set_tick n (state_of lprog)) ∧
      (x = find_error ∧ find 5 db2 = Throw find_error ∨ x = ucx_error ∧ u_ep good_ucx (tick (state_of lprog)) = false)
  | (Halt _, _) => False
  end.
Proof.
  apply (ucx_connect_once good_ucx true db2 0 2 ctx0 lprog (Ret tt) (state_of lprog) 2 5).
  - vm_compute. exact eq_refl.
  - vm_compute. exact eq_refl.
  - apply (proj1 (bool_decide_eq_true _)). vm_compute. exact eq_refl.
Defined.

(** *** What goes wrong *)

(** If UCX cannot be configured or initialized, the exception of the constructor
    destroys the holder of a context that was never initialized. *)
Theorem ucx_failed_init_undefined u ts db rank size :
  u_config u = false ∨ u_init u = false →
  (new_context u ts db (init_lc rank size)).1 = Halt undefined_behaviour.
Proof.
  intros H. unfold new_context, on_exception, bnd, check, modify.
  destruct (u_config u); [|done]. by destruct H as [?| ->].
Qed.

(** A close request that has completed is not recognized: [progress] leaves the handle
    waiting, whatever UCX says later, and the destructor repeats it until its
    time-out.  A request that is still in progress counts as done. *)
Theorem ucx_completed_close_waits u c s :
  m_done c = false → m_ucp_worker c ∈ ucx_workers s → m_status c ∈ ucx_reqs s →
  match handle_progress u c s with
  | (Ret c', s') =>
      m_done c' = negb (u_completed u (S (tick s)) (m_status c)) ∧
      (m_status c ∈ ucx_reqs s' ↔ u_completed u (S (tick s)) (m_status c) = true)
  | _ => False
  end.
Proof.
  intros Hd Hw Hr. unfold handle_progress. rewrite Hd.
  rewrite (bnd_ret _ _ _ _ _ (worker_progress_run _ _ Hw)).
  erewrite bnd_ret by (apply require_run; by rewrite bool_decide_eq_true_2).
  unfold call, bnd at 1. cbn [tick set_tick]. destruct (u_completed u (S (tick s)) (m_status c)).
  - cbn. by rewrite Hd.
  - unfold request_free. erewrite bnd_ret by (erewrite bnd_ret; [done|apply require_run; by rewrite bool_decide_eq_true_2]).
    cbn. set_solver.
Qed.

(** A communicator that outlives its context: the base class destroys it when its send
    worker is gone. *)
Theorem ucx_outliving_communicator_undefined :
  (destroy_context good_ucx (λ k, 400 * Z.of_nat k) 4 2 (state_of lprog)).1 = Halt undefined_behaviour.
Proof. vm_compute. exact eq_refl. Qed.

(** A worker whose address cannot be obtained stays behind in UCX. *)
Theorem ucx_worker_lost :
  lost (new_context (Ucx true true true (λ _, true) (λ _, false) (λ _, true) (λ _, Close_ok) (λ _ _, true))
          false db2 (init_lc 0 2)).2 = {[1%positive]}.
Proof. vm_compute. exact eq_refl. Qed.
