(* ===== verification/NcclModel.v ===== *)
(** * The NCCL backend

    Model of src/src/nccl: communicator.hpp, request_queue.hpp, request.hpp,
    cuda_event.hpp, cached_cuda_event.hpp, group_cuda_event.hpp,
    cuda_event_pool.hpp, cuda_error.hpp, nccl_error.hpp and context.hpp, for one
    context with any number of communicators [c], driven by one thread (the
    context refuses to be thread safe; the lock-free queue is a plain queue).

    NCCL and the CUDA runtime are a parameter, the class [Nccl].  Move-only
    wrappers are values: moving an event hands the value on, and the moved-from
    object (whose [moved_bit] is set) is destroyed without effect.  The static
    pool of events is [None] before its first use.  The [std::shared_ptr] of a
    group event is an entry of [groups] with its use count. *)
From S2P Require Import Prelude Request.

(** ** CUDA and NCCL *)

Inductive query : Type := cudaSuccess | cudaErrorNotReady | cudaErrorOther.
#[export] Instance query_eq_dec : EqDecision query.
Proof. solve_decision. Defined.

(** The boolean results say whether the call succeeded (for NCCL also: is in
    progress). *)
Class Nccl : Type := {
  dev_st : Type;
  ncclGroupStart : dev_st → bool * dev_st;
  ncclGroupEnd : dev_st → bool * dev_st;
  ncclSend : Z → Z → Z → Z → dev_st → bool * dev_st;
  ncclRecv : Z → Z → Z → Z → dev_st → bool * dev_st;
  cudaEventCreate : dev_st → option positive * dev_st;
  cudaEventRecord : positive → Z → dev_st → bool * dev_st;
  cudaEventQuery : positive → dev_st → query * dev_st;
  cudaEventDestroy : positive → dev_st → bool * dev_st
}.

(** ** State *)

Record cuda_event : Type := CudaEvent { m_event : positive; m_recorded : bool }.

(** [nccl_request::m_event], a variant. *)
Inductive nccl_request : Type :=
| Cached_event (e : cuda_event)
| Group_event (g : positive).

(** [m_send_reqs] and [m_recv_reqs] of each communicator, [m_req_queue] of the
    context. *)
Inductive qid : Type := SendQ (c : nat) | RecvQ (c : nat) | SharedQ.
#[export] Instance nccl_qid_eq_dec : EqDecision qid.
Proof. solve_decision. Defined.
#[export] Instance nccl_qid_countable : Countable qid.
Proof.
  refine (inj_countable' (λ q, match q with
    | SendQ c => inl (inl c) | RecvQ c => inl (inr c) | SharedQ => inr () end)
    (λ x, match x with
    | inl (inl c) => SendQ c | inl (inr c) => RecvQ c | inr _ => SharedQ end) _).
  by intros [].
Defined.

(** [queues], [ready_queues] and [in_progress] are the members of the request
    queues, for [SharedQ] the thread-local [in_progress]; [group_info] is
    [m_group_info] of each communicator: the event and [m_last_stream]. *)
Record nccl_backend `{Nccl} : Type := NcclBackend {
  device : dev_st;
  queues : gmap qid (list positive);
  ready_queues : gmap qid (list positive);
  in_progress : gset qid;
  m_size : Z;
  m_local_queue : list positive;
  groups : gmap positive (cuda_event * nat);
  group_info : gmap nat (positive * option Z);
  pool : option (list cuda_event)
}.

Section nccl.
Context `{Nccl} {CB : Type}.
Abbreviation W := (world CB nccl_request nccl_backend).
Implicit Types w : W.
Implicit Types b : nccl_backend.

(** *** Field updates *)

Definition upd_backend (f : nccl_backend → nccl_backend) : M W unit :=
  modify (λ w, set_backend (f (backend w)) w).
Definition set_device (u : dev_st) b : nccl_backend :=
  NcclBackend _ u (queues b) (ready_queues b) (in_progress b) (m_size b) (m_local_queue b)
    (groups b) (group_info b) (pool b).
Definition get_q (q : qid) b : list positive := default [] (queues b !! q).
Definition set_q (q : qid) (l : list positive) b : nccl_backend :=
  NcclBackend _ (device b) (<[q := l]> (queues b)) (ready_queues b) (in_progress b) (m_size b)
    (m_local_queue b) (groups b) (group_info b) (pool b).
Definition get_ready (q : qid) b : list positive := default [] (ready_queues b !! q).
Definition set_ready_q (q : qid) (l : list positive) b : nccl_backend :=
  NcclBackend _ (device b) (queues b) (<[q := l]> (ready_queues b)) (in_progress b) (m_size b)
    (m_local_queue b) (groups b) (group_info b) (pool b).
Definition set_in_progress (s : gset qid) b : nccl_backend :=
  NcclBackend _ (device b) (queues b) (ready_queues b) s (m_size b) (m_local_queue b)
    (groups b) (group_info b) (pool b).
Definition set_size (n : Z) b : nccl_backend :=
  NcclBackend _ (device b) (queues b) (ready_queues b) (in_progress b) n (m_local_queue b)
    (groups b) (group_info b) (pool b).
Definition set_local (l : list positive) b : nccl_backend :=
  NcclBackend _ (device b) (queues b) (ready_queues b) (in_progress b) (m_size b) l
    (groups b) (group_info b) (pool b).
Definition set_groups (gs : gmap positive (cuda_event * nat)) b : nccl_backend :=
  NcclBackend _ (device b) (queues b) (ready_queues b) (in_progress b) (m_size b)
    (m_local_queue b) gs (group_info b) (pool b).
Definition set_group_info (gi : gmap nat (positive * option Z)) b : nccl_backend :=
  NcclBackend _ (device b) (queues b) (ready_queues b) (in_progress b) (m_size b)
    (m_local_queue b) (groups b) gi (pool b).
Definition set_pool (p : option (list cuda_event)) b : nccl_backend :=
  NcclBackend _ (device b) (queues b) (ready_queues b) (in_progress b) (m_size b)
    (m_local_queue b) (groups b) (group_info b) p.

(** *** Calls of the runtime *)

Definition dev_call {A} (f : dev_st → A * dev_st) : M W A := λ w,
  let '(a, u) := f (device (backend w)) in
  (Ret a, set_backend (set_device u (backend w)) w).

(** [OOMPH_CHECK_NCCL_RESULT(x)] *)
Definition check_nccl (f : dev_st → bool * dev_st) : M W unit :=
  let! ok := dev_call f in
  if ok : bool then ret tt else throw (runtime_error "OOMPH Error: NCCL Call failed ").

(** [OOMPH_CHECK_CUDA_RESULT(x)]: the macro evaluates its argument again for the
    message. *)
Definition check_cuda (f : dev_st → bool * dev_st) : M W unit :=
  let! ok := dev_call f in
  if ok : bool then ret tt
  else dev_call f ;;; throw (runtime_error "OOMPH Error: CUDA Call failed ").

(** *** [cuda_event] *)

Definition make_cuda_event : M W cuda_event :=
  let! o := dev_call cudaEventCreate in
  match o with
  | Some h => ret (CudaEvent h false)
  | None => dev_call cudaEventCreate ;;; throw (runtime_error "OOMPH Error: CUDA Call failed ")
  end.

(** The destructor of an event that has not been moved from; the exception of
    the check is caught and ends the program. *)
Definition destroy_cuda_event (e : cuda_event) : M W unit :=
  let! ok := dev_call (cudaEventDestroy (m_event e)) in
  if ok : bool then ret tt else stop terminated.

Definition record (e : cuda_event) (stream : Z) : M W cuda_event :=
  check_cuda (cudaEventRecord (m_event e) stream) ;;;
  ret (CudaEvent (m_event e) true).

Definition event_is_ready (e : cuda_event) : M W bool :=
  if negb (m_recorded e) then ret false
  else
    let! r := dev_call (cudaEventQuery (m_event e)) in
    match r with
    | cudaSuccess => ret true
    | cudaErrorNotReady => ret false
    | cudaErrorOther => throw (runtime_error "OOMPH Error: CUDA Call failed ")
    end.

(** *** The pool of events *)

(** [m_events(expected_pool_size)]: if a constructor throws, the elements that
    exist are destroyed. *)
Fixpoint make_events (n : nat) (l : list cuda_event) : M W (list cuda_event) :=
  match n with
  | O => ret l
  | S n =>
      let! e := on_exception make_cuda_event (mfor l destroy_cuda_event) in
      make_events n (l ++ [e])
  end.

Definition expected_pool_size : nat := 128.

(** The static object is created at its first use. *)
Definition get_cuda_event_pool : M W (list cuda_event) :=
  let! b := gets backend in
  match pool b with
  | Some l => ret l
  | None =>
      let! l := make_events expected_pool_size [] in
      upd_backend (set_pool (Some l)) ;;; ret l
  end.

(** [m_events.back()] is moved out; the constructor of [cached_cuda_event]. *)
Definition pop_event : M W cuda_event :=
  let! l := get_cuda_event_pool in
  match last l with
  | None => make_cuda_event
  | Some e => upd_backend (set_pool (Some (removelast l))) ;;; ret e
  end.

(** The destructor of [cached_cuda_event] moves the event back. *)
Definition push_event (e : cuda_event) : M W unit :=
  let! l := get_cuda_event_pool in
  upd_backend (set_pool (Some (l ++ [e]))).

(** [clear()]: the events in the pool are destroyed. *)
Definition clear_events : M W unit :=
  let! l := get_cuda_event_pool in
  mfor l destroy_cuda_event ;;;
  upd_backend (set_pool (Some [])).

(** *** [group_cuda_event]: a [std::shared_ptr<cached_cuda_event>] *)

Definition get_group (g : positive) : M W (cuda_event * nat) :=
  let! b := gets backend in
  match groups b !! g with Some x => ret x | None => stop undefined_behaviour end.
Definition put_group (g : positive) (x : cuda_event * nat) : M W unit :=
  upd_backend (λ b, set_groups (<[g := x]> (groups b)) b).

Definition make_group_event : M W positive :=
  let! e := pop_event in
  let! b := gets backend in
  let g := fresh (dom (groups b)) in
  put_group g (e, 1) ;;; ret g.

Definition copy_group_event (g : positive) : M W unit :=
  let! x := get_group g in put_group g (x.1, S x.2).

(** The last owner destroys the cached event. *)
Definition drop_group_event (g : positive) : M W unit :=
  let! x := get_group g in
  match x.2 with
  | O => stop undefined_behaviour
  | S O => upd_backend (λ b, set_groups (delete g (groups b)) b) ;;; push_event x.1
  | S n => put_group g (x.1, n)
  end.

Definition record_group (g : positive) (stream : Z) : M W unit :=
  let! x := get_group g in
  let! e := record x.1 stream in
  put_group g (e, x.2).

(** *** [nccl_request] *)

Definition request_is_ready (r : nccl_request) : M W bool :=
  match r with
  | Cached_event e => event_is_ready e
  | Group_event g => let! x := get_group g in event_is_ready x.1
  end.

Definition destroy_request (r : nccl_request) : M W unit :=
  match r with
  | Cached_event e => push_event e
  | Group_event g => drop_group_event g
  end.

(** [req->m_req.is_ready()] *)
Definition req_is_ready (s : positive) : M W bool :=
  let! st := get_req s in request_is_ready (m_ext st).

(** A pointer to a request goes out of scope; the last one destroys the request
    with its event. *)
Definition drop_handle (s : positive) : M W unit :=
  let! st := get_req s in
  drop_ref s ;;;
  if decide (m_refs st = 1) then destroy_request (m_ext st) else ret tt.

(** ** The request queues *)

Variable call : CB → Z → Z → M W unit.

(** [auto ptr = req->release_self_ref(); req->invoke_cb();] *)
Definition complete_req (s : positive) : M W unit :=
  release_self_ref s ;;; scoped (invoke_cb call s) (drop_handle s).

(** [m_queue.push_back(e)]; the queue of the context counts its elements. *)
Definition enqueue (q : qid) (s : positive) : M W unit :=
  upd_backend (λ b, set_q q (get_q q b ++ [s]) b).
Definition shared_enqueue (s : positive) : M W unit :=
  enqueue SharedQ s ;;; upd_backend (λ b, set_size (u64 (m_size b + 1)) b).

(** The loop of [request_queue::progress] over the positions [i], ...: [n] is
    [num_not_ready], [k] the number of positions that are left. *)
Fixpoint scan (q : qid) (k i n : nat) : M W nat :=
  match k with
  | O => ret n
  | S k =>
      let! b := gets backend in
      match get_q q b !! i with
      | None => stop undefined_behaviour
      | Some s =>
          let! r := req_is_ready s in
          if r : bool then
            upd_backend (λ b, set_ready_q q (get_ready q b ++ [s]) b) ;;; scan q k (S i) n
          else
            (if decide (n = i) then ret tt
             else upd_backend (λ b, set_q q (<[n := s]> (get_q q b)) b)) ;;;
            scan q k (S i) (S n)
      end
  end.

Definition enter (q : qid) : M W unit :=
  upd_backend (λ b, set_in_progress ({[q]} ∪ in_progress b) b).
Definition leave (q : qid) : M W unit :=
  upd_backend (λ b, set_in_progress (in_progress b ∖ {[q]}) b).

(** The loop with what is around it: the vector [m_queue] is shortened. *)
Definition scan_queue (q : qid) (qs : nat) : M W unit :=
  upd_backend (set_ready_q q []) ;;;
  let! n := scan q qs 0 0 in
  upd_backend (λ b, set_q q (take n (get_q q b)) b).

Definition queue_progress (q : qid) : M W Z :=
  let! b := gets backend in
  if decide (q ∈ in_progress b) then ret 0%Z
  else
    enter q ;;;
    let qs := length (get_q q b) in
    if decide (qs = 0) then leave q ;;; ret 0%Z
    else
      scan_queue q qs ;;;
      let! b := gets backend in
      let completed := Z.of_nat (length (get_ready q b)) in
      mfor (get_ready q b) complete_req ;;;
      leave q ;;;
      ret completed.

(** [while (m_queue.pop(e)) ...]; [k] bounds the number of elements. *)
Fixpoint pop_ready (k : nat) : M W (option positive) :=
  let! b := gets backend in
  match get_q SharedQ b, k with
  | [], _ => ret None
  | _, O => stop out_of_fuel
  | e :: rest, S k =>
      upd_backend (set_q SharedQ rest) ;;;
      let! r := req_is_ready e in
      if r : bool then ret (Some e)
      else upd_backend (λ b, set_local (m_local_queue b ++ [e]) b) ;;; pop_ready k
  end.

(** What [shared_request_queue::progress] does before it calls back. *)
Definition take_ready (size : nat) : M W (option positive) :=
  enter SharedQ ;;;
  let! o := pop_ready size in
  upd_backend (λ b, set_q SharedQ (get_q SharedQ b ++ m_local_queue b) b) ;;;
  upd_backend (set_local []) ;;;
  match o with Some _ => upd_backend (λ b, set_size (u64 (m_size b - 1)) b) | None => ret tt end ;;;
  leave SharedQ ;;;
  ret o.

(** [shared_request_queue::progress], also [context_impl::progress] *)
Definition shared_progress : M W Z :=
  let! b := gets backend in
  if decide (SharedQ ∈ in_progress b) then ret 0%Z
  else
    let! o := take_ready (length (get_q SharedQ b)) in
    match o with
    | Some e => complete_req e ;;; ret 1%Z
    | None => ret 0%Z
    end.

(** Neither queue cancels. *)
Definition cancel_recv (s : positive) : M W bool := ret false.

(** ** The communicator *)

(** [m_context->rank()] *)
Variable rank : Z.

Definition is_group_active (c : nat) b : bool := bool_decide (is_Some (group_info b !! c)).

Definition start_group (c : nat) : M W unit :=
  let! b := gets backend in
  if is_group_active c b then
    throw (logic_error "OOMPH Error: start_group called while a group is already active")
  else
    check_nccl ncclGroupStart ;;;
    let! g := make_group_event in
    upd_backend (λ b, set_group_info (<[c := (g, None)]> (group_info b)) b).

Definition end_group (c : nat) : M W unit :=
  let! b := gets backend in
  match group_info b !! c with
  | None => throw (logic_error "OOMPH Error: end_group called without an active group")
  | Some (g, last_stream) =>
      check_nccl ncclGroupEnd ;;;
      match last_stream with Some s => record_group g s | None => ret tt end ;;;
      upd_backend (λ b, set_group_info (delete c (group_info b)) b) ;;;
      drop_group_event g
  end.

(** The bodies of [send] and [recv] without callback, which differ in the NCCL
    call. *)
Definition nccl_op (op : dev_st → bool * dev_st) (c : nat) (peer stream : Z) : M W nccl_request :=
  let! b := gets backend in
  if bool_decide (peer = rank) && negb (is_group_active c b) then
    throw (runtime_error "oomph NCCL backend: self-send/recv requires an active NCCL group. Use start_group()/end_group() around self-send/recv operations.")
  else
    check_nccl op ;;;
    match group_info b !! c with
    | Some (g, _) =>
        upd_backend (λ b, set_group_info (<[c := (g, Some stream)]> (group_info b)) b) ;;;
        copy_group_event g ;;;
        ret (Group_event g)
    | None =>
        let! e := pop_event in
        let! e := on_exception (record e stream) (push_event e) in
        ret (Cached_event e)
    end.

Definition raw_send (c : nat) (ptr size dst stream : Z) : M W nccl_request :=
  nccl_op (ncclSend ptr size dst stream) c dst stream.
Definition raw_recv (c : nat) (ptr size src stream : Z) : M W nccl_request :=
  nccl_op (ncclRecv ptr size src stream) c src stream.

Definition send (c : nat) (ptr size dst tag : Z) (cb : CB) (stream : Z) : M W positive :=
  let! r := raw_send c ptr size dst stream in
  let! s := post scheduled_sends dst tag cb r in
  enqueue (SendQ c) s ;;; ret s.

Definition recv (c : nat) (ptr size src tag : Z) (cb : CB) (stream : Z) : M W positive :=
  let! r := raw_recv c ptr size src stream in
  let! s := post scheduled_recvs src tag cb r in
  enqueue (RecvQ c) s ;;; ret s.

Definition shared_recv (c : nat) (ptr size src tag : Z) (cb : CB) (stream : Z) : M W positive :=
  let! r := raw_recv c ptr size src stream in
  let! s := post scheduled_shared_recvs src tag cb r in
  shared_enqueue s ;;; ret s.

Definition progress (c : nat) : M W unit :=
  let! b := gets backend in
  if is_group_active c b then
    throw (logic_error "OOMPH Error: Calling progress while a NCCL group is active is not allowed")
  else
    queue_progress (SendQ c) ;;;
    queue_progress (RecvQ c) ;;;
    shared_progress ;;;
    ret tt.

(** ** The context *)

Definition check_not_thread_safe (thread_safe : bool) : M W bool :=
  if thread_safe then throw (runtime_error "NCCL not supported with thread_safe = true")
  else ret thread_safe.

Definition get_transport_option (opt : string) : string :=
  if decide (opt = "name") then "nccl" else "unspecified".

End nccl.
