(* ===== verification/NcclInv.v ===== *)
(** * The invariant of the NCCL backend

    [NcclLaws] states what the CUDA runtime and NCCL do to the events, whether a
    call succeeds or not; [NcclFaultless] restricts the runs to those in which no call
    fails.  Every CUDA event that has been created is owned exactly once: by the
    pool, by the request of an operation outside a group, or by a group, whose
    use count is the number of requests and communicators that hold it.  Every
    request that waits for completion is in exactly one queue. *)
From S2P Require Import Prelude Request NcclModel.

(** [alive]: the events that have been created and not destroyed.  A new event
    differs from those; nothing else changes them. *)
Class NcclLaws `{Nccl} : Type := {
  alive : dev_st → gset positive;
  group_start_alive u : alive (ncclGroupStart u).2 = alive u;
  group_end_alive u : alive (ncclGroupEnd u).2 = alive u;
  send_alive p n d s u : alive (ncclSend p n d s u).2 = alive u;
  recv_alive p n d s u : alive (ncclRecv p n d s u).2 = alive u;
  create_alive u o u' : cudaEventCreate u = (o, u') →
    match o with
    | Some h => (h ∉ alive u) ∧ alive u' = {[h]} ∪ alive u
    | None => alive u' = alive u
    end;
  record_alive h s u : alive (cudaEventRecord h s u).2 = alive u;
  query_alive h u : alive (cudaEventQuery h u).2 = alive u
}.

(** Runs in which CUDA and NCCL report no error.  This is a condition on the run and not
    a promise of the libraries; what the code does with an error is in the section on its
    limits (NcclApi.v). *)
Class NcclFaultless `{Nccl, !NcclLaws} : Prop := {
  group_start_true u : (ncclGroupStart u).1 = true;
  group_end_true u : (ncclGroupEnd u).1 = true;
  send_true p n d s u : (ncclSend p n d s u).1 = true;
  recv_true p n d s u : (ncclRecv p n d s u).1 = true;
  create_some u : is_Some (cudaEventCreate u).1;
  record_true h s u : h ∈ alive u → (cudaEventRecord h s u).1 = true;
  query_no_error h u : h ∈ alive u → (cudaEventQuery h u).1 ≠ cudaErrorOther
}.

Section faultless.
Context `{Nccl, !NcclLaws} {Hfault : NcclFaultless}.

Lemma group_start_ok u ok u' : ncclGroupStart u = (ok, u') → ok = true ∧ alive u' = alive u.
Proof. intros E. pose proof (group_start_alive u). pose proof (group_start_true u). by rewrite E in *. Qed.
Lemma group_end_ok u ok u' : ncclGroupEnd u = (ok, u') → ok = true ∧ alive u' = alive u.
Proof. intros E. pose proof (group_end_alive u). pose proof (group_end_true u). by rewrite E in *. Qed.
Lemma nccl_send_ok p n d s u ok u' : ncclSend p n d s u = (ok, u') → ok = true ∧ alive u' = alive u.
Proof. intros E. pose proof (send_alive p n d s u). pose proof (send_true p n d s u). by rewrite E in *. Qed.
Lemma recv_ok p n d s u ok u' : ncclRecv p n d s u = (ok, u') → ok = true ∧ alive u' = alive u.
Proof. intros E. pose proof (recv_alive p n d s u). pose proof (recv_true p n d s u). by rewrite E in *. Qed.
Lemma create_ok u o u' : cudaEventCreate u = (o, u') →
  ∃ h, o = Some h ∧ (h ∉ alive u) ∧ alive u' = {[h]} ∪ alive u.
Proof.
  intros E. destruct (create_some u) as [h Eh]. rewrite E in Eh. cbn in Eh. subst o.
  exists h. split; [done|]. by apply (create_alive _ _ _ E).
Qed.
Lemma record_ok h s u ok u' : h ∈ alive u → cudaEventRecord h s u = (ok, u') → ok = true ∧ alive u' = alive u.
Proof. intros Hh E. pose proof (record_alive h s u). pose proof (record_true h s u Hh). by rewrite E in *. Qed.
Lemma query_ok h u r u' : h ∈ alive u → cudaEventQuery h u = (r, u') → r ≠ cudaErrorOther ∧ alive u' = alive u.
Proof. intros Hh E. pose proof (query_alive h u). pose proof (query_no_error h u Hh). by rewrite E in *. Qed.
End faultless.

Section events.
Context `{Nccl, !NcclLaws} {Hfault : NcclFaultless} {CB : Type}.
Abbreviation W := (world CB nccl_request nccl_backend).
Implicit Types w : W.
Implicit Types b : nccl_backend.
Implicit Types xs : list nccl_request.

(** ** Ownership of events *)

Definition handles_of (x : nccl_request) : list positive :=
  match x with Cached_event e => [m_event e] | Group_event _ => [] end.
Definition is_group (g : positive) (x : nccl_request) : bool :=
  match x with Group_event g' => bool_decide (g' = g) | Cached_event _ => false end.
Definition pool_handles b : list positive := m_event <$> default [] (pool b).
Definition group_handles (gs : gmap positive (cuda_event * nat)) : list positive :=
  (λ kv, m_event kv.2.1) <$> map_to_list gs.
Definition active_groups (g : positive) b : nat := map_count (λ gi, gi.1 = g) (group_info b).

(** [loose]: events in local variables; [xs]: the requests that exist. *)
Record ev_inv (loose : list positive) xs b : Prop := {
  ei_handles :
    loose ++ pool_handles b ++ (xs ≫= handles_of) ++ group_handles (groups b) ≡ₚ
    elements (alive (device b));
  ei_groups g :
    match groups b !! g with
    | Some (_, n) => 0 < n ∧ n = list_count (is_group g) xs + active_groups g b
    | None => list_count (is_group g) xs + active_groups g b = 0
    end;
  ei_recorded e : Cached_event e ∈ xs → m_recorded e = true
}.

Lemma list_count_perm {A} (P : A → bool) l l' : l ≡ₚ l' → list_count P l = list_count P l'.
Proof. induction 1; cbn; lia. Qed.

#[export] Instance ev_inv_proper : Proper (Permutation ==> Permutation ==> eq ==> iff) ev_inv.
Proof.
  assert (∀ l l' xs xs' b, l ≡ₚ l' → xs ≡ₚ xs' → ev_inv l xs b → ev_inv l' xs' b) as Hm.
  { intros l l' xs xs' b Hl Hx []. split.
    - rewrite <- Hl, <- Hx. done.
    - intros g. rewrite <- (list_count_perm _ _ _ Hx). apply ei_groups0.
    - intros e. rewrite <- Hx. auto. }
  intros l l' Hl xs xs' Hx b ? <-. by split; apply Hm.
Qed.

(** The requests in the store. *)
Definition exts (m : gmap positive (request_state CB nccl_request)) : list nccl_request :=
  (λ kv, m_ext kv.2) <$> map_to_list m.

Lemma exts_delete m l st : m !! l = Some st → exts m ≡ₚ m_ext st :: exts (delete l m).
Proof. intros Hl. unfold exts. by rewrite <- (map_to_list_delete m l st Hl). Qed.

Lemma exts_insert m l st : exts (<[l := st]> m) ≡ₚ m_ext st :: exts (delete l m).
Proof.
  unfold exts. rewrite <- insert_delete_eq.
  by rewrite map_to_list_insert by apply lookup_delete_eq.
Qed.

Lemma exts_update m l st st' :
  m !! l = Some st → m_ext st' = m_ext st → exts (<[l := st']> m) ≡ₚ exts m.
Proof. intros Hl E. by rewrite exts_insert, (exts_delete m l st Hl), E. Qed.

Lemma group_handles_insert gs g e n :
  group_handles (<[g := (e, n)]> gs) ≡ₚ m_event e :: group_handles (delete g gs).
Proof.
  unfold group_handles. rewrite <- insert_delete_eq.
  by rewrite map_to_list_insert by apply lookup_delete_eq.
Qed.

Lemma group_handles_split gs g e n :
  gs !! g = Some (e, n) → group_handles gs ≡ₚ m_event e :: group_handles (delete g gs).
Proof. intros Hg. unfold group_handles. by rewrite <- (map_to_list_delete gs g (e, n) Hg). Qed.

(** What an event operation may change: the device, the pool and the groups. *)
Record same_frame w w' : Prop := {
  sf_reqs : reqs w' = reqs w;
  sf_next : next w' = next w;
  sf_counters : counters w' = counters w;
  sf_invoked : invoked w' = invoked w;
  sf_canceled : canceled w' = canceled w;
  sf_calls : calls w' = calls w;
  sf_queues : queues (backend w') = queues (backend w);
  sf_ready : ready_queues (backend w') = ready_queues (backend w);
  sf_flags : in_progress (backend w') = in_progress (backend w);
  sf_size : m_size (backend w') = m_size (backend w);
  sf_local : m_local_queue (backend w') = m_local_queue (backend w)
}.

#[export] Instance same_frame_preorder : PreOrder same_frame.
Proof.
  split; [by intros w; split|]. intros w1 w2 w3 [] []. split; congruence.
Qed.

Definition same_groups w w' : Prop :=
  group_info (backend w') = group_info (backend w) ∧ groups (backend w') = groups (backend w).

Lemma same_groups_trans w1 w2 w3 : same_groups w1 w2 → same_groups w2 w3 → same_groups w1 w3.
Proof. intros [] []. split; congruence. Qed.

(** An operation on events, seen from [w]: it ends with the events [loose] in
    local variables and the requests [xs]. *)
Definition ev_step (loose : list positive) xs w w' : Prop :=
  ev_inv loose xs (backend w') ∧ same_frame w w'.

Lemma ev_step_trans loose xs loose' xs' w1 w2 w3 :
  ev_step loose xs w1 w2 → ev_step loose' xs' w2 w3 → ev_step loose' xs' w1 w3.
Proof. intros [_ H1] [H2 H3]. split; [done|by etrans]. Qed.

Variable E : halt → Prop.

Lemma wp_dev_call {A} (f : dev_st → A * dev_st) (Q : A → W → Prop) w :
  (∀ a u, f (device (backend w)) = (a, u) → Q a (set_backend (set_device u (backend w)) w)) →
  wp E (dev_call f) Q w.
Proof. unfold wp, dev_call. intros HQ. destruct (f _) as [a u]. by apply HQ. Qed.

(** The device changes and keeps its events. *)
Lemma ev_step_device loose xs w u :
  ev_inv loose xs (backend w) → alive u = alive (device (backend w)) →
  ev_step loose xs w (set_backend (set_device u (backend w)) w).
Proof. intros [] Hu. split; [|by split]. split; cbn; rewrite ?Hu; done. Qed.

Lemma check_nccl_wp loose xs f w :
  (∀ u ok u', f u = (ok, u') → ok = true ∧ alive u' = alive u) →
  ev_inv loose xs (backend w) →
  wp E (check_nccl f) (λ _ w', ev_step loose xs w w' ∧ same_groups w w') w.
Proof.
  intros Hf HI. apply wp_bnd, wp_dev_call. intros ok u [-> Hu]%Hf. apply wp_ret.
  split; [by apply ev_step_device|done].
Qed.

Lemma make_cuda_event_wp loose xs w :
  ev_inv loose xs (backend w) →
  wp E make_cuda_event (λ e w', ev_step (m_event e :: loose) xs w w' ∧ m_recorded e = false ∧
      pool (backend w') = pool (backend w) ∧ same_groups w w') w.
Proof.
  intros []. apply wp_bnd, wp_dev_call. intros o u (h & -> & Hh & Hu)%create_ok. apply wp_ret.
  split; [split; [|by split]|done]. split; cbn; [|done..].
  rewrite ei_handles0, Hu. by rewrite elements_union_singleton.
Qed.

(** *** The pool *)

Lemma make_events_wp loose xs n l w :
  ev_inv ((m_event <$> l) ++ loose) xs (backend w) →
  wp E (make_events n l) (λ l' w', ev_step ((m_event <$> l') ++ loose) xs w w' ∧
      pool (backend w') = pool (backend w) ∧ same_groups w w') w.
Proof.
  revert l w. induction n as [|n IH]; intros l w HI; cbn [make_events].
  { apply wp_ret. by split. }
  apply wp_bnd, wp_on_exception. eapply wp_mono; [by apply make_cuda_event_wp|].
  intros e w1 [[H1 F1] (_ & P1 & G1)]. eapply wp_mono; [apply IH|].
  { rewrite fmap_app. cbn. rewrite <- app_assoc. cbn. by rewrite <- Permutation_middle. }
  intros l' w2 [[H2 F2] (P2 & G2)]. split; [split; [done|by etrans]|].
  split; [congruence|by eapply same_groups_trans].
Qed.

Lemma get_pool_wp loose xs w :
  ev_inv loose xs (backend w) →
  wp E get_cuda_event_pool (λ l w', ev_step loose xs w w' ∧ pool (backend w') = Some l ∧
      same_groups w w') w.
Proof.
  intros HI. apply wp_bnd, wp_gets. destruct (pool (backend w)) as [l|] eqn:Ep.
  { apply wp_ret. by split. }
  apply wp_bnd. eapply wp_mono; [by apply (make_events_wp loose xs _ [])|].
  intros l w1 [[H1 F1] (P1 & G1)]. apply wp_bnd, wp_modify, wp_ret.
  split; [|done]. split; [|etrans; [exact F1|by split]].
  destruct H1. split; cbn; [|done..]. rewrite <- ei_handles0. unfold pool_handles. cbn.
  rewrite P1, Ep. cbn. by rewrite !app_assoc, (Permutation_app_comm loose).
Qed.

Lemma pool_set loose loose' xs l w :
  ev_inv loose xs (backend w) →
  loose' ++ (m_event <$> l) ≡ₚ loose ++ pool_handles (backend w) →
  ev_step loose' xs w (set_backend (set_pool (Some l) (backend w)) w).
Proof.
  intros [] Hp. split; [|by split]. split; cbn; [|done..].
  rewrite <- ei_handles0. unfold pool_handles at 1. cbn. by rewrite !app_assoc, Hp.
Qed.

Lemma last_split {A} (l : list A) e : last l = Some e → l = removelast l ++ [e].
Proof. intros (l' & ->)%last_Some. by rewrite removelast_last. Qed.

Lemma pop_event_wp loose xs w :
  ev_inv loose xs (backend w) →
  wp E pop_event (λ e w', ev_step (m_event e :: loose) xs w w' ∧
      same_groups w w') w.
Proof.
  intros HI. apply wp_bnd. eapply wp_mono; [by apply get_pool_wp|]. intros l w1 [[H1 F1] (P1 & G1)].
  destruct (last l) as [e|] eqn:El.
  - apply wp_bnd, wp_modify, wp_ret. split; [|done].
    eapply ev_step_trans; [by split|]. eapply pool_set; [exact H1|].
    unfold pool_handles. rewrite P1. cbn. rewrite (last_split l e El) at 2.
    rewrite fmap_app. cbn. rewrite app_assoc, (Permutation_app_comm _ [m_event e]). done.
  - eapply wp_mono; [by apply make_cuda_event_wp|]. intros e w2 [S2 (_ & _ & G2)].
    split; [by eapply ev_step_trans|by eapply same_groups_trans].
Qed.

Lemma push_event_wp loose xs e w :
  ev_inv (m_event e :: loose) xs (backend w) →
  wp E (push_event e) (λ _ w', ev_step loose xs w w' ∧
      same_groups w w') w.
Proof.
  intros HI. apply wp_bnd. eapply wp_mono; [by apply get_pool_wp|]. intros l w1 [[H1 F1] (P1 & G1)].
  apply wp_modify. split; [|done]. eapply ev_step_trans; [by split|]. eapply pool_set; [exact H1|].
  unfold pool_handles. rewrite P1. cbn. rewrite fmap_app. cbn.
  by rewrite app_assoc, (Permutation_app_comm _ [m_event e]).
Qed.

(** *** Recording *)

Lemma ev_alive loose xs b h :
  ev_inv loose xs b →
  h ∈ loose ++ pool_handles b ++ (xs ≫= handles_of) ++ group_handles (groups b) →
  h ∈ alive (device b).
Proof. intros [] Hh. rewrite ei_handles0 in Hh. by apply elem_of_elements. Qed.

Lemma record_wp loose xs e s w :
  ev_inv loose xs (backend w) → m_event e ∈ alive (device (backend w)) →
  wp E (record e s) (λ e' w', e' = CudaEvent (m_event e) true ∧ ev_step loose xs w w' ∧
      same_groups w w') w.
Proof.
  intros HI Hh. apply wp_bnd, wp_bnd, wp_dev_call. intros ok u [-> Hu]%record_ok; [|done].
  apply wp_ret, wp_ret. split_and!; [done| |done..]. by apply ev_step_device.
Qed.

(** *** Groups *)

Lemma make_group_wp xs w :
  ev_inv [] xs (backend w) →
  wp E make_group_event (λ g w',
      (∀ c, group_info (backend w) !! c = None →
       ev_step [] xs w (set_backend (set_group_info (<[c := (g, None)]> (group_info (backend w')))
                                     (backend w')) w')) ∧
      group_info (backend w') = group_info (backend w) ∧ groups (backend w) !! g = None ∧
      ∃ e, groups (backend w') = <[g := (e, 1)]> (groups (backend w))) w.
Proof.
  intros HI. apply wp_bnd. eapply wp_mono; [by apply pop_event_wp|]. intros e w1 [[H1 F1] [G1 G1']].
  apply wp_bnd, wp_gets. set (g := fresh _). apply wp_bnd, wp_modify, wp_ret.
  assert (groups (backend w1) !! g = None) as Hg by apply not_elem_of_dom, is_fresh.
  split; [|split_and!; [done|congruence|exists e; cbn; congruence]].
  intros c Hc. split; [|destruct F1; by split]. destruct H1. cbn in *.
  assert (∀ g', active_groups g' (set_group_info (<[c := (g, None)]> (group_info (backend w1))) (backend w1)) =
    active_groups g' (backend w1) + if decide (g = g') then 1 else 0) as Ha.
  { intros g'. unfold active_groups. cbn. rewrite map_count_insert_fresh by congruence. done. }
  split; cbn; [|intros g'; rewrite lookup_insert|done].
  - rewrite <- ei_handles0. rewrite group_handles_insert, delete_id by done.
    unfold pool_handles. cbn. by rewrite <- !Permutation_middle.
  - specialize (ei_groups0 g'). change (active_groups g' _) with
      (active_groups g' (set_group_info (<[c := (g, None)]> (group_info (backend w1))) (backend w1))).
    rewrite Ha. case_decide; subst.
    + rewrite Hg in ei_groups0. lia.
    + destruct (groups (backend w1) !! g') as [[]|]; lia.
Qed.

(** A member of a group is copied, [group_info] may change its stream. *)
Lemma active_groups_update g g' c o s b :
  group_info b !! c = Some (g, o) →
  map_count (λ gi, gi.1 = g') (<[c := (g, s)]> (group_info b)) = active_groups g' b.
Proof.
  intros Hc. pose proof (map_count_update (λ gi : positive * option Z, gi.1 = g') _ c (g, s) _ Hc) as HU.
  unfold indicator in HU. cbn in HU. unfold active_groups. repeat case_decide; lia.
Qed.

Lemma group_alive xs b c g o :
  ev_inv [] xs b → group_info b !! c = Some (g, o) → is_Some (groups b !! g).
Proof.
  intros [] Hc. specialize (ei_groups0 g). destruct (groups b !! g) as [x|]; [by eexists|].
  pose proof (map_count_pos (λ gi : positive * option Z, gi.1 = g) _ _ _ Hc eq_refl) as Hp.
  unfold active_groups in ei_groups0. lia.
Qed.

Lemma request_group_alive xs b g loose :
  ev_inv loose xs b → Group_event g ∈ xs → is_Some (groups b !! g).
Proof.
  intros [] (i & Hi)%list_elem_of_lookup. specialize (ei_groups0 g).
  destruct (groups b !! g) as [x|]; [by eexists|].
  pose proof (list_count_pos (is_group g) xs i _ Hi) as Hp. cbn in Hp.
  rewrite bool_decide_eq_true_2 in Hp by done. specialize (Hp eq_refl). lia.
Qed.

Lemma get_group_ok g x w : groups (backend w) !! g = Some x → get_group g w = (Ret x, w).
Proof. intros Hg. unfold get_group, bnd, gets. by rewrite Hg. Qed.

(** [return {m_group_info->m_event};] *)
Lemma copy_group_wp xs g c o w :
  ev_inv [] xs (backend w) → group_info (backend w) !! c = Some (g, o) →
  wp E (copy_group_event g) (λ _ w', ev_step [] (Group_event g :: xs) w w' ∧
      group_info (backend w') = group_info (backend w) ∧
      ∃ e n, groups (backend w) !! g = Some (e, n) ∧
             groups (backend w') = <[g := (e, S n)]> (groups (backend w))) w.
Proof.
  intros HI Hc. destruct (group_alive _ _ _ _ _ HI Hc) as [[e n] Hg].
  apply wp_bnd, (wp_from _ _ _ _ _ _ (get_group_ok _ _ _ Hg)). apply wp_modify.
  split; [|split; [done|by exists e, n]]. split; [|by split]. destruct HI. split; cbn.
  - rewrite group_handles_insert, <- (group_handles_split _ _ _ _ Hg). done.
  - intros g'. pose proof (ei_groups0 g') as Hn. unfold active_groups in *. cbn.
    rewrite lookup_insert. case_decide; subst.
    + rewrite Hg in Hn. rewrite bool_decide_eq_true_2 by done. cbn. lia.
    + rewrite bool_decide_eq_false_2 by done. cbn. done.
  - intros e' [?|?]%elem_of_cons; [done|auto].
Qed.

Definition dropped (g : positive) (gs : gmap positive (cuda_event * nat)) :
    gmap positive (cuda_event * nat) :=
  match gs !! g with
  | Some (e, S (S n)) => <[g := (e, S n)]> gs
  | Some (_, _) => delete g gs
  | None => gs
  end.

Lemma drop_group_wp loose xs g w :
  ev_inv loose (Group_event g :: xs) (backend w) →
  wp E (drop_group_event g) (λ _ w', ev_step loose xs w w' ∧
      group_info (backend w') = group_info (backend w) ∧
      groups (backend w') = dropped g (groups (backend w))) w.
Proof.
  intros HI. destruct (request_group_alive _ _ g _ HI) as [[e n] Hg]; [set_solver|].
  apply wp_bnd, (wp_from _ _ _ _ _ _ (get_group_ok _ _ _ Hg)). cbn [fst snd].
  destruct HI as [H1 H2 H3].
  assert (∀ g', list_count (is_group g') (Group_event g :: xs) =
            (if decide (g = g') then 1 else 0) + list_count (is_group g') xs) as Hc.
  { intros g'. cbn. by destruct (decide (g = g')); [rewrite bool_decide_eq_true_2|rewrite bool_decide_eq_false_2]. }
  pose proof (H2 g) as Hn. rewrite Hg, Hc, decide_True in Hn by done. destruct n as [|[|n]]; [lia| |].
  - apply wp_bnd, wp_modify. eapply wp_mono; [apply (push_event_wp loose xs)|].
    + split; cbn; [|intros g'; rewrite lookup_delete|intros e' Hin; apply H3; set_solver].
      * rewrite <- H1. cbn. rewrite (group_handles_split _ _ _ _ Hg). unfold pool_handles. cbn.
        by rewrite <- !Permutation_middle.
      * specialize (H2 g'). rewrite Hc in H2. unfold active_groups in *. cbn.
        repeat case_decide; subst; [lia|done].
    + intros [] w' [[H4 H5] [H6 H7]]. split; [|split; [done|rewrite H7; cbn; unfold dropped; by rewrite Hg]].
      split; [done|]. etrans; [|exact H5]. by split.
  - apply wp_modify. split; [|split; [done|cbn; unfold dropped; by rewrite Hg]]. split; [|by split]. split; cbn; [|intros g'; rewrite lookup_insert|].
    + rewrite group_handles_insert, <- (group_handles_split _ _ _ _ Hg). done.
    + specialize (H2 g'). rewrite Hc in H2. unfold active_groups in *. cbn.
      case_decide as Eg; subst; [lia|done].
    + intros e' Hin. apply H3. set_solver.
Qed.

(** The destructor of a request. *)
Lemma destroy_request_wp x xs w :
  ev_inv [] (x :: xs) (backend w) →
  wp E (destroy_request x) (λ _ w', ev_step [] xs w w' ∧
      group_info (backend w') = group_info (backend w) ∧
      groups (backend w') = match x with Cached_event _ => groups (backend w)
                            | Group_event g => dropped g (groups (backend w)) end) w.
Proof.
  intros HI. destruct x as [e|g]; [|by apply drop_group_wp].
  apply push_event_wp. destruct HI as [H1 H2 H3]. split; [|exact H2|].
  - rewrite <- H1. cbn. unfold pool_handles. by rewrite <- !Permutation_middle.
  - intros e' Hin. apply H3. set_solver.
Qed.

(** *** Posting *)

Variable rank : Z.

Lemma nccl_op_wp xs op c peer stream w :
  (∀ u ok u', op u = (ok, u') → ok = true ∧ alive u' = alive u) →
  ev_inv [] xs (backend w) → peer ≠ rank ∨ is_group_active c (backend w) = true →
  wp E (nccl_op rank op c peer stream) (λ x w', ev_step [] (x :: xs) w w' ∧
      match group_info (backend w) !! c with
      | None => same_groups w w' ∧ ∃ e, x = Cached_event e
      | Some (g, _) =>
          x = Group_event g ∧ group_info (backend w') = <[c := (g, Some stream)]> (group_info (backend w)) ∧
          ∃ e n, groups (backend w) !! g = Some (e, n) ∧
                 groups (backend w') = <[g := (e, S n)]> (groups (backend w))
      end) w.
Proof.
  intros Hop HI Hg. unfold nccl_op. apply wp_bnd, wp_gets.
  replace (bool_decide (peer = rank) && _) with false.
  2:{ destruct Hg as [Hp|Ha]; [by rewrite bool_decide_eq_false_2|]. rewrite Ha. by rewrite andb_false_r. }
  apply wp_bnd. eapply wp_mono; [by apply (check_nccl_wp [] xs)|]. intros _ w1 [[H1 F1] [G1 G1']].
  destruct (group_info (backend w) !! c) as [[g o]|] eqn:Ec.
  - apply wp_bnd, wp_modify. set (w2 := set_backend _ w1).
    assert (ev_inv [] xs (backend w2)) as H2.
    { destruct H1. split; cbn; [done| |done]. intros g'. specialize (ei_groups0 g').
      unfold active_groups. cbn. rewrite (active_groups_update g g' c o) by congruence. done. }
    apply wp_bnd. eapply wp_mono; [apply (copy_group_wp xs g c (Some stream)); [done|]|].
    { cbn. apply lookup_insert_eq. }
    intros _ w3 [[H3 F3] (G3 & e & n & Hge & Hg')]. apply wp_ret. cbn in G3, Hge, Hg'.
    split; [|split_and!; [done|congruence|exists e, n; split; congruence]]. split; [done|].
    etrans; [exact F1|]. etrans; [|exact F3]. by split.
  - apply wp_bnd. eapply wp_mono; [by apply pop_event_wp|]. intros e w2 [[H2 F2] G2].
    apply wp_bnd, wp_on_exception. eapply wp_mono; [apply (record_wp [m_event e] xs); [done|]|].
    { eapply ev_alive; [exact H2|]. set_solver. }
    intros e' w3 (-> & [H3 F3] & G3). apply wp_ret.
    split; [|split; [eapply same_groups_trans, same_groups_trans; done|by eexists]].
    split; [|by etrans; [|etrans]].
    destruct H3 as [A1 A2 A3]. split; [|exact A2|].
    + rewrite <- A1. cbn. unfold pool_handles. by rewrite <- !Permutation_middle.
    + intros e' [[= ->]|?]%elem_of_cons; [done|auto].
Qed.

Lemma start_group_wp c xs w :
  ev_inv [] xs (backend w) → is_group_active c (backend w) = false →
  wp E (start_group c) (λ _ w', ev_step [] xs w w' ∧ ∃ g e,
      groups (backend w) !! g = None ∧ groups (backend w') = <[g := (e, 1)]> (groups (backend w)) ∧
      group_info (backend w') = <[c := (g, None)]> (group_info (backend w))) w.
Proof.
  intros HI Ha. unfold start_group. apply wp_bnd, wp_gets. rewrite Ha.
  apply bool_decide_eq_false, eq_None_not_Some in Ha.
  apply wp_bnd. eapply wp_mono; [apply (check_nccl_wp [] xs); [apply group_start_ok|done]|].
  intros _ w1 [[H1 F1] [G1 G1']]. apply wp_bnd. eapply wp_mono; [by apply (make_group_wp xs)|].
  intros g w2 (S2 & G2 & Hg & e & Hg'). apply wp_modify. split.
  - eapply ev_step_trans; [by split|]. apply S2. congruence.
  - exists g, e. cbn. split_and!; congruence.
Qed.

Lemma record_group_wp xs c g o s w :
  ev_inv [] xs (backend w) → group_info (backend w) !! c = Some (g, o) →
  wp E (record_group g s) (λ _ w', ev_step [] xs w w' ∧
      group_info (backend w') = group_info (backend w) ∧
      ∃ e n, groups (backend w) !! g = Some (e, n) ∧
             groups (backend w') = <[g := (CudaEvent (m_event e) true, n)]> (groups (backend w))) w.
Proof.
  intros HI Hc. destruct (group_alive _ _ _ _ _ HI Hc) as [[e n] Hg].
  apply wp_bnd, (wp_from _ _ _ _ _ _ (get_group_ok _ _ _ Hg)). apply wp_bnd. cbn [fst snd].
  eapply wp_mono; [apply (record_wp [] xs); [done|]|].
  { eapply ev_alive; [exact HI|]. rewrite (group_handles_split _ _ _ _ Hg). set_solver. }
  intros e' w1 (-> & [H1 F1] & G1 & G2). apply wp_modify.
  split; [|split; [done|exists e, n; cbn; split; congruence]].
  split; [|etrans; [exact F1|by split]]. rewrite <- G2 in Hg. destruct H1. split; cbn; [| |done].
  - rewrite group_handles_insert. cbn. by rewrite <- (group_handles_split _ _ _ _ Hg).
  - intros g'. specialize (ei_groups0 g'). rewrite lookup_insert. case_decide; subst; [|done].
    rewrite Hg in ei_groups0. done.
Qed.

(** The communicator gives up its group, whose event is dropped next. *)
Lemma ev_inv_leave xs b c g o :
  ev_inv [] xs b → group_info b !! c = Some (g, o) →
  ev_inv [] (Group_event g :: xs) (set_group_info (delete c (group_info b)) b).
Proof.
  intros [] Hc. split; cbn; [done| |]; [|intros e [?|?]%elem_of_cons; [done|auto]].
  intros g'. specialize (ei_groups0 g'). unfold active_groups in *. cbn.
  pose proof (map_count_delete (λ gi : positive * option Z, gi.1 = g') _ c _ Hc) as Hd.
  unfold indicator in Hd. cbn in Hd.
  destruct (decide (g = g')) as [->|Hn];
    [rewrite bool_decide_eq_true_2 by done|rewrite bool_decide_eq_false_2 by done]; cbn;
    destruct (groups b !! g') as [[]|]; lia.
Qed.

Lemma end_group_wp c xs w :
  ev_inv [] xs (backend w) → is_group_active c (backend w) = true →
  wp E (end_group c) (λ _ w', ev_step [] xs w w' ∧ ∃ g o e n,
      group_info (backend w) !! c = Some (g, o) ∧ groups (backend w) !! g = Some (e, n) ∧
      group_info (backend w') = delete c (group_info (backend w)) ∧
      groups (backend w') = dropped g (match o with
        | Some _ => <[g := (CudaEvent (m_event e) true, n)]> (groups (backend w))
        | None => groups (backend w) end)) w.
Proof.
  intros HI Ha. unfold end_group. apply wp_bnd, wp_gets. apply bool_decide_eq_true in Ha as [[g o] Hc].
  rewrite Hc. apply wp_bnd.
  eapply wp_mono; [apply (check_nccl_wp [] xs); [apply group_end_ok|done]|].
  intros _ w1 [S1 [G1 G1']]. apply wp_bnd. destruct (group_alive _ _ _ _ _ HI Hc) as [[e n] Hg].
  set (gs := match o with Some _ => <[g := (CudaEvent (m_event e) true, n)]> (groups (backend w))
             | None => groups (backend w) end).
  apply wp_mono with (Q := λ _ w', ev_step [] xs w w' ∧ group_info (backend w') = group_info (backend w) ∧
                                   groups (backend w') = gs).
  { destruct o as [s|]; [|by apply wp_ret]. eapply wp_mono; [apply (record_group_wp xs c g (Some s))|].
    - apply S1.
    - congruence.
    - intros _ w2 (S2 & G2 & e2 & n2 & Hg2 & Hgs). split; [by eapply ev_step_trans|].
      split; [congruence|]. unfold gs. rewrite Hgs, G1'. congruence. }
  intros _ w2 ([H2 F2] & G2 & Hgs). apply wp_bnd, wp_modify. set (w3 := set_backend _ w2).
  assert (ev_inv [] (Group_event g :: xs) (backend w3)) as H3 by (apply (ev_inv_leave xs _ c g o); [done|congruence]).
  eapply wp_mono; [by apply drop_group_wp|]. intros _ w4 ([H4 F4] & G4 & G4'). split.
  - split; [done|]. etrans; [exact F2|]. etrans; [|exact F4]. by split.
  - exists g, o, e, n. cbn in G4, G4'. split_and!; [done..|congruence|by rewrite G4', Hgs].
Qed.

(** *** Groups that have ended are recorded *)

(** Communicators do not share groups; a group without operations has no
    requests; the event of a group that has ended is recorded. *)
Record grp_inv xs b : Prop := {
  gi_unique c c' g o o' :
    group_info b !! c = Some (g, o) → group_info b !! c' = Some (g, o') → c = c';
  gi_idle c g : group_info b !! c = Some (g, None) → list_count (is_group g) xs = 0;
  gi_closed g e n :
    groups b !! g = Some (e, n) → (∀ c o, group_info b !! c ≠ Some (g, o)) → m_recorded e = true
}.

#[export] Instance grp_inv_proper : Proper (Permutation ==> eq ==> iff) grp_inv.
Proof.
  assert (∀ xs xs' b, xs ≡ₚ xs' → grp_inv xs b → grp_inv xs' b) as Hm.
  { intros xs xs' b Hx []. split; [done| |done]. intros c g. rewrite <- (list_count_perm _ _ _ Hx). apply gi_idle0. }
  intros xs xs' Hx b ? <-. by split; apply Hm.
Qed.

Lemma grp_inv_same xs b b' :
  grp_inv xs b → groups b' = groups b → group_info b' = group_info b → grp_inv xs b'.
Proof. intros [] Eg Ei. by split; rewrite ?Eg, ?Ei. Qed.

Lemma group_not_active xs b c g o :
  ev_inv [] xs b → groups b !! g = None → group_info b !! c = Some (g, o) → False.
Proof. intros HE Hg Hc. destruct (group_alive _ _ _ _ _ HE Hc). congruence. Qed.

Lemma grp_start xs b b' c g e :
  ev_inv [] xs b → grp_inv xs b → group_info b !! c = None → groups b !! g = None →
  groups b' = <[g := (e, 1)]> (groups b) → group_info b' = <[c := (g, None)]> (group_info b) →
  grp_inv xs b'.
Proof.
  intros HE [HU HI HC] Hc0 Hg Eg Ei. split; rewrite ?Ei, ?Eg.
  - intros c1 c2 g' o o'. rewrite !lookup_insert. repeat case_decide; subst; try done.
    + intros [= <- <-] Hc. exfalso. by eapply group_not_active.
    + intros Hc [= <- <-]. exfalso. by eapply group_not_active.
    + apply HU.
  - intros c' g'. rewrite lookup_insert. case_decide; subst; [|apply HI].
    intros [= <-]. pose proof (ei_groups _ _ _ HE g) as Hn. rewrite Hg in Hn. lia.
  - intros g' e' n. rewrite lookup_insert. case_decide; subst.
    + intros _ Hc. exfalso. apply (Hc c None). apply lookup_insert_eq.
    + intros Hg' Hc. apply (HC g' e' n Hg'). intros c' o Hc'. apply (Hc c' o).
      rewrite lookup_insert_ne; [done|]. intros ->. congruence.
Qed.

Lemma grp_post_cached xs b e : grp_inv xs b → grp_inv (Cached_event e :: xs) b.
Proof. intros []. by split. Qed.

Lemma grp_post_group xs b b' c g o s e n :
  grp_inv xs b → group_info b !! c = Some (g, o) → groups b !! g = Some (e, n) →
  groups b' = <[g := (e, S n)]> (groups b) → group_info b' = <[c := (g, Some s)]> (group_info b) →
  grp_inv (Group_event g :: xs) b'.
Proof.
  intros [HU HI HC] Hc Hg Eg Ei. split; rewrite ?Ei, ?Eg.
  - intros c1 c2 g' o1 o2. rewrite !lookup_insert. repeat case_decide; subst; try done.
    + intros [= <- <-] Hc2. by eapply HU.
    + intros Hc1 [= <- <-]. by eapply HU.
    + apply HU.
  - intros c' g'. rewrite lookup_insert. case_decide as Ec; [done|]. intros Hc'. cbn.
    rewrite bool_decide_eq_false_2; [by eapply HI|]. intros ->. apply Ec. by eapply HU.
  - intros g' e' n'. rewrite lookup_insert. case_decide as Eg'; [subst g'|].
    + intros _ Ha. exfalso. apply (Ha c (Some s)), lookup_insert_eq.
    + intros Hg' Ha. apply (HC g' e' n' Hg'). intros c' o' Hc'. apply (Ha c' o').
      rewrite lookup_insert_ne; [done|]. intros ->. congruence.
Qed.

Lemma dropped_lookup g gs g' e n :
  dropped g gs !! g' = Some (e, n) → ∃ n', gs !! g' = Some (e, n') ∧ (g' = g → n' = S n ∧ 0 < n).
Proof.
  unfold dropped. destruct (gs !! g) as [[e0 [|[|m]]]|] eqn:Eg;
    rewrite ?lookup_delete, ?lookup_insert; try case_decide; subst; try done; intros Hl; simplify_eq;
    (eexists; split; [eassumption|]; intros Hgg; simplify_eq; lia).
Qed.

Lemma grp_drop x xs b b' :
  grp_inv (x :: xs) b → group_info b' = group_info b →
  groups b' = match x with Cached_event _ => groups b | Group_event g => dropped g (groups b) end →
  grp_inv xs b'.
Proof.
  intros [HU HI HC] Ei Eg. split; rewrite ?Ei; [done| |].
  - intros c g Hc. apply HI in Hc. cbn in Hc. lia.
  - intros g e n. rewrite Eg. destruct x as [e0|g0]; [apply HC|].
    intros (n' & Hg & _)%dropped_lookup. by eapply HC.
Qed.

Lemma grp_end xs b b' c g o e n :
  ev_inv [] xs b → grp_inv xs b → group_info b !! c = Some (g, o) → groups b !! g = Some (e, n) →
  group_info b' = delete c (group_info b) →
  groups b' = dropped g (match o with Some _ => <[g := (CudaEvent (m_event e) true, n)]> (groups b)
                         | None => groups b end) →
  grp_inv xs b'.
Proof.
  intros HE [HU HI HC] Hc Hg Ei Eg. split; rewrite ?Ei, ?Eg.
  - intros c1 c2 g' o1 o2 [_ H1]%lookup_delete_Some [_ H2]%lookup_delete_Some. by eapply HU.
  - intros c' g' [_ Hc']%lookup_delete_Some. by eapply HI.
  - intros g' e' n' (m & Hl & Hm)%dropped_lookup Ha. destruct (decide (g' = g)) as [->|Hne].
    + destruct (Hm eq_refl) as [-> Hn']. destruct o as [s|].
      { rewrite lookup_insert_eq in Hl. by injection Hl as <- _. }
      rewrite Hg in Hl. injection Hl as <- ->. exfalso.
      pose proof (ei_groups _ _ _ HE g) as Hn. rewrite Hg, (HI _ _ Hc) in Hn.
      assert (active_groups g b ≤ length [c]) as Hle; [|cbn in Hle; lia].
      apply map_count_le_list. intros c' [g1 o1] Hc' E1. cbn in E1. subst g1. apply list_elem_of_singleton. by eapply HU.
    + assert (groups b !! g' = Some (e', m)) as Hg'.
      { destruct o; [|done]. by rewrite lookup_insert_ne in Hl. }
      apply (HC g' e' m Hg'). intros c' o' Hc'. apply (Ha c' o'). rewrite lookup_delete_ne; [done|].
      intros ->. congruence.
Qed.

(** *** Readiness *)

(** The event that stands for a request. *)
Definition event_of (gs : gmap positive (cuda_event * nat)) (x : nccl_request) : option cuda_event :=
  match x with
  | Cached_event e => Some e
  | Group_event g => fst <$> gs !! g
  end.

(** What the device says about an event. *)
Definition verdict (o : option cuda_event) (u : dev_st) : bool * dev_st :=
  match o with
  | Some e =>
      if m_recorded e then
        let '(r, u') := cudaEventQuery (m_event e) u in (bool_decide (r = cudaSuccess), u')
      else (false, u)
  | None => (false, u)
  end.

Lemma event_of_alive loose xs b x e :
  ev_inv loose xs b → x ∈ xs → event_of (groups b) x = Some e → m_event e ∈ alive (device b).
Proof.
  intros HI Hx He. eapply ev_alive; [exact HI|]. destruct x as [e0|g]; cbn in He.
  - injection He as <-. apply elem_of_app. right. apply elem_of_app. right.
    apply elem_of_app. left. apply list_elem_of_bind. exists (Cached_event e0). set_solver.
  - destruct (groups b !! g) as [[e1 n]|] eqn:Eg; [|done]. injection He as <-. cbn.
    rewrite (group_handles_split _ _ _ _ Eg). set_solver.
Qed.

Lemma verdict_alive loose xs b x u :
  ev_inv loose xs b → x ∈ xs → alive u = alive (device b) →
  alive (verdict (event_of (groups b) x) u).2 = alive u.
Proof.
  intros HI Hx Hu. unfold verdict. destruct (event_of _ _) as [e|] eqn:Ee; [|done].
  destruct (m_recorded e); [|done].
  destruct (cudaEventQuery (m_event e) u) as [r u'] eqn:Eq. cbn.
  apply query_ok in Eq; [apply Eq|]. rewrite Hu. by eapply event_of_alive.
Qed.

Lemma request_is_ready_run loose xs x w :
  ev_inv loose xs (backend w) → x ∈ xs →
  request_is_ready x w =
  (Ret (verdict (event_of (groups (backend w)) x) (device (backend w))).1,
   set_backend (set_device (verdict (event_of (groups (backend w)) x) (device (backend w))).2 (backend w)) w).
Proof.
  intros HI Hx.
  assert (∀ e, event_of (groups (backend w)) x = Some e → event_is_ready e w =
     (Ret (verdict (Some e) (device (backend w))).1,
      set_backend (set_device (verdict (Some e) (device (backend w))).2 (backend w)) w)) as Hr.
  { intros e He. unfold event_is_ready, verdict. destruct (m_recorded e) eqn:Em; cbn.
    - unfold bnd, dev_call. destruct (cudaEventQuery _ _) as [r u] eqn:Eq.
      apply query_ok in Eq as [Hr _]; [|by eapply event_of_alive]. by destruct r.
    - unfold ret. f_equal. destruct w as [? ? ? ? ? ? []]. done. }
  destruct x as [e|g]; cbn [request_is_ready event_of] in *; [by apply Hr|].
  destruct (request_group_alive _ _ _ _ HI Hx) as [[e n] Hg].
  rewrite (bnd_ret _ _ _ _ _ (get_group_ok _ _ _ Hg)), Hg in *. cbn in *. by apply Hr.
Qed.
End events.
