(* ===== verification/NcclOps.v ===== *)
(** * Operations of the NCCL backend keep its invariant

    The in-place loop of [request_queue::progress] is related to a partition of
    the queue; posting, progress, groups and handles keep the invariant, however
    the callbacks use the backend. *)
From S2P Require Import Prelude Request NcclModel NcclInv.

Section ops.
Context `{Nccl, !NcclLaws} {Hfault : NcclFaultless} {CB : Type}.
Abbreviation W := (world CB nccl_request nccl_backend).
Implicit Types w : W.
Implicit Types b : nccl_backend.

(** ** The invariant *)

Definition owned w (l : positive) : Prop := ∃ st, reqs w !! l = Some st ∧ m_self_ptr st = true.
Definition places b : list positive := all_queued (queues b).

(** [exec]: requests whose callback is running; [pend]: requests that have left
    a queue and are not completed yet. *)
Record inv (exec pend : list positive) w : Prop := {
  inv_base : base_inv exec w;
  inv_nodup : NoDup (pend ++ places (backend w));
  inv_own l : owned w l ↔ l ∈ pend ++ places (backend w);
  inv_ev : ev_inv [] (exts (reqs w)) (backend w);
  inv_grp : grp_inv (exts (reqs w)) (backend w);
  inv_size : m_size (backend w) = u64 (Z.of_nat (length (get_q SharedQ (backend w))));
  inv_local : m_local_queue (backend w) = []
}.

(** What an operation leaves as it was, or only extends; the ready queue is not
    touched while it is worked through. *)
Record stable w w' : Prop := {
  st_flags : in_progress (backend w') = in_progress (backend w);
  st_ready q : q ∈ in_progress (backend w) → get_ready q (backend w') = get_ready q (backend w);
  st_next : (next w ≤ next w')%positive;
  st_invoked : invoked w `prefix_of` invoked w';
  st_canceled : canceled w' = canceled w;
  st_calls : calls w `prefix_of` calls w'
}.

#[export] Instance nccl_stable_preorder : PreOrder stable.
Proof.
  split; [intros w; by split|]. intros w1 w2 w3 [] [].
  split; [congruence| |lia|by etrans|congruence|by etrans].
  intros q Hq. rewrite st_ready1, st_ready0; [done..|congruence].
Qed.

Definition keeps exec pend w w' : Prop := inv exec pend w' ∧ stable w w'.

Lemma nccl_keeps_refl exec pend w : inv exec pend w → keeps exec pend w w.
Proof. by split. Qed.
Lemma nccl_keeps_trans exec pend exec' pend' w1 w2 w3 :
  keeps exec pend w1 w2 → keeps exec' pend' w2 w3 → keeps exec' pend' w1 w3.
Proof. intros [_ H1] [H2 H3]. split; [done|by etrans]. Qed.

(** The halts of the user's callbacks; no operation adds one. *)
Context (E : halt → Prop).

(** ** Changes of the backend only *)

Lemma frame_base exec w w' : same_frame w w' → base_inv exec w → base_inv exec w'.
Proof.
  intros []. apply base_inv_same. split; try done. intros l. by rewrite sf_reqs.
Qed.

Lemma nccl_same_base exec w b : base_inv exec w → base_inv exec (set_backend b w).
Proof. by rewrite same_requests_backend. Qed.

Lemma frame_stable w w' : same_frame w w' → stable w w'.
Proof.
  intros []. split; rewrite ?sf_next, ?sf_invoked, ?sf_calls; try done; try congruence.
  intros q _. unfold get_ready. by rewrite sf_ready.
Qed.

Lemma ev_step_keeps exec pend w w' :
  inv exec pend w → ev_step [] (exts (reqs w)) w w' → grp_inv (exts (reqs w)) (backend w') →
  keeps exec pend w w'.
Proof.
  intros HI [HE HF] HG. split; [|by apply frame_stable]. pose proof HF as [].
  unfold get_q, places in *.
  split; unfold owned, get_q, places; rewrite ?sf_reqs, ?sf_queues, ?sf_size, ?sf_local; try apply HI.
  - by eapply frame_base; [|apply HI].
  - done.
  - done.
Qed.

(** ** Queues *)

Lemma nccl_get_set_q q q' l b : get_q q (set_q q' l b) = if decide (q = q') then l else get_q q b.
Proof. unfold get_q, set_q. cbn. rewrite lookup_insert. by repeat case_decide; subst. Qed.

Lemma nccl_places_set q l b : places (set_q q l b) ≡ₚ l ++ all_queued (delete q (queues b)).
Proof. apply all_queued_insert. Qed.
Lemma nccl_places_get q b : places b ≡ₚ get_q q b ++ all_queued (delete q (queues b)).
Proof. apply all_queued_split. Qed.

(** A request in the store has its event. *)
Lemma in_exts w l st : reqs w !! l = Some st → m_ext st ∈ exts (reqs w).
Proof. intros Hl. rewrite (exts_delete _ _ _ Hl). set_solver. Qed.

(** ** Posting *)

(** The new request waits in the queue [q]. *)
Definition enqueued (q : qid) (s : positive) b : nccl_backend :=
  match q with
  | SharedQ => set_size (u64 (m_size b + 1)) (set_q q (get_q q b ++ [s]) b)
  | _ => set_q q (get_q q b ++ [s]) b
  end.

Lemma enqueued_places q s b : places (enqueued q s b) ≡ₚ s :: places b.
Proof.
  transitivity (places (set_q q (get_q q b ++ [s]) b)); [by destruct q|].
  rewrite nccl_places_set, (nccl_places_get q b), <- app_assoc. cbn. by rewrite <- Permutation_middle.
Qed.

Lemma enqueued_size q s b :
  m_size b = u64 (Z.of_nat (length (get_q SharedQ b))) →
  m_size (enqueued q s b) = u64 (Z.of_nat (length (get_q SharedQ (enqueued q s b)))).
Proof.
  intros Hs. assert (get_q SharedQ (enqueued q s b) =
    if decide (q = SharedQ) then get_q q b ++ [s] else get_q SharedQ b) as ->.
  { transitivity (get_q SharedQ (set_q q (get_q q b ++ [s]) b)); [by destruct q|].
    rewrite nccl_get_set_q. by repeat case_decide; subst. }
  destruct q; [done..|]. rewrite decide_True, length_app by done. cbn [enqueued set_size m_size length].
  rewrite Hs, u64_add_l. f_equal. lia.
Qed.

(** [factory.make(...)], [create_self_ref], [enqueue]. *)
Lemma post_enqueue_wp exec pend w w1 x sched r t cb q :
  inv exec pend w → ev_step [] (x :: exts (reqs w)) w w1 → grp_inv (x :: exts (reqs w)) (backend w1) →
  sched ∈ cells →
  wp E (let! s := post sched r t cb x in
        upd_backend (enqueued q s) ;;; ret s)
    (λ s w', s = next w ∧ keeps exec pend w w' ∧ s ∈ get_q q (backend w') ∧
             owned w' s ∧ calls w' = calls w ∧ invoked w' = invoked w) w1.
Proof.
  intros HI [HE HF] HG Hcell. pose proof HF as [].
  destruct (post_ok exec w1 sched r t cb x) as (w2 & E2 & HB & Eb & Ei & Ec & Hn & En & Ecl & Er); [|done|].
  { by eapply frame_base; [|apply HI]. }
  apply wp_bnd, (wp_from _ _ _ _ _ _ E2). apply wp_bnd, wp_modify, wp_ret.
  assert (s_fresh : owned w (next w1) → False).
  { intros (st & Hs & _). rewrite sf_reqs in Hn. congruence. }
  split_and!.
  - done.
  - split.
    + split; cbn [set_backend backend reqs].
      * by apply nccl_same_base.
      * rewrite Eb, enqueued_places. unfold places. rewrite sf_queues.
        rewrite <- Permutation_middle. constructor; [|apply HI].
        intros Hin. apply s_fresh, HI. done.
      * intros l. rewrite Eb, enqueued_places. unfold places. rewrite sf_queues.
        rewrite <- Permutation_middle, elem_of_cons. fold (places (backend w)).
        rewrite <- (inv_own _ _ _ HI). unfold owned. cbn. rewrite Er, lookup_insert.
        case_decide; subst; [naive_solver|]. rewrite sf_reqs. naive_solver.
      * rewrite Er, exts_insert, delete_id, sf_reqs by done. cbn. rewrite Eb.
        destruct HE as [A1 A2 A3]. by destruct q; split.
      * rewrite Er, exts_insert, delete_id, sf_reqs by done. cbn. rewrite Eb.
        eapply grp_inv_same; [exact HG|by destruct q..].
      * apply enqueued_size. rewrite Eb. unfold get_q. rewrite sf_size, sf_queues. apply HI.
      * rewrite Eb. transitivity (m_local_queue (backend w1)); [by destruct q|].
        rewrite sf_local. apply HI.
    + transitivity w1; [by apply frame_stable|]. split; cbn; rewrite ?Eb, ?Ei, ?Ec, ?Ecl, ?En; try done; [by destruct q| |lia].
      intros q' _. by destruct q.
  - cbn. rewrite Eb. assert (next w1 ∈ get_q q (set_q q (get_q q (backend w1) ++ [next w1]) (backend w1))); [|by destruct q].
    rewrite nccl_get_set_q, decide_True by done. set_solver.
  - eexists. cbn. rewrite Er, lookup_insert_eq. done.
  - cbn. congruence.
  - cbn. congruence.
Qed.

(** ** Handles *)

Lemma drop_exts w w' l st :
  reqs w !! l = Some st → (∀ l', l' ≠ l → reqs w' !! l' = reqs w !! l') →
  reqs w' !! l = (if decide (m_refs st = 1) then None
                  else Some (set_self (m_self_ptr st) (pred (m_refs st)) st)) →
  exts (reqs w) ≡ₚ (if decide (m_refs st = 1) then [m_ext st] else []) ++ exts (reqs w').
Proof.
  intros Hl Ho Hl'. assert (delete l (reqs w') = delete l (reqs w)) as Hd.
  { apply map_eq. intros l'. rewrite !lookup_delete. destruct (decide (l = l')); [done|]. apply Ho. congruence. }
  rewrite (exts_delete _ _ _ Hl), <- Hd. case_decide.
  - rewrite delete_id by done. done.
  - by rewrite (exts_delete _ _ _ Hl').
Qed.

(** A handle goes out of scope; the event of a destroyed request goes back to
    the pool or loses an owner. *)
Lemma drop_handle_wp exec pend w l st :
  inv exec pend w → reqs w !! l = Some st →
  (if m_self_ptr st then 1 else 0) + (if decide (l ∈ exec) then 1 else 0) < m_refs st →
  wp E (drop_handle l) (λ _ w', keeps exec pend w w' ∧ invoked w' = invoked w ∧ calls w' = calls w) w.
Proof.
  intros HI Hl Hlt.
  destruct (drop_ref_ok exec w l st) as (w1 & E1 & HB & Eb & Ei & Ec & En & Ecl & Ho & Hl1); [apply HI|done..|].
  pose proof (drop_exts w w1 l st Hl Ho Hl1) as Hx.
  apply wp_bnd, (wp_from _ _ _ _ _ _ (get_req_ok _ _ _ Hl)), wp_bnd, (wp_from _ _ _ _ _ _ E1).
  assert (∀ l', owned w1 l' ↔ owned w l') as Hown.
  { intros l'. unfold owned. destruct (decide (l' = l)) as [->|Hn]; [|by rewrite Ho].
    rewrite Hl, Hl1. case_decide as E2; [rewrite E2 in Hlt|naive_solver].
    split; [naive_solver|]. intros (st' & [= <-] & Hs). rewrite Hs in Hlt. lia. }
  assert (stable w w1) as HS1 by (split; rewrite ?Eb, ?Ei, ?Ec, ?En, ?Ecl; done).
  apply wp_mono with (Q := λ _ w', ev_step [] (exts (reqs w1)) w1 w' ∧ grp_inv (exts (reqs w1)) (backend w')).
  - pose proof (inv_ev _ _ _ HI) as HE. pose proof (inv_grp _ _ _ HI) as HG.
    rewrite Hx, <- Eb in HE. rewrite Hx, <- Eb in HG. case_decide; [|by apply wp_ret].
    eapply wp_mono; [by apply destroy_request_wp|]. intros _ w2 (S2 & Ei2 & Eg2).
    split; [done|]. by eapply grp_drop.
  - intros [] w2 [S2 HG2]. destruct (S2) as [_ F2]. rewrite (sf_invoked _ _ F2), (sf_calls _ _ F2).
    split; [|done]. split; [|etrans; [exact HS1|by apply frame_stable]].
    destruct S2 as [HE2 [E3 E4 E5 E6 E7 E8 E9 E10 E11 E12 E13]].
    split; unfold owned, places, get_q; rewrite ?E3, ?E9, ?E12, ?E13, ?Eb; try apply HI; [|intros l'|done|done].
    + by eapply frame_base.
    + fold (owned w1 l'). rewrite Hown. apply HI.
Qed.

(** ** Completing a request *)

Context (call : CB → Z → Z → M W unit).

(** What is required of a user's function object. *)
Definition well_behaved (cb : CB) : Prop := ∀ r t exec pend w,
  inv exec pend w → wp E (call cb r t) (λ _ w', keeps exec pend w w') w.

Hypothesis Hcall : ∀ cb, well_behaved cb.

Lemma start_callback_inv exec pend w l st :
  inv exec (l :: pend) w → reqs w !! l = Some st → m_self_ptr st = true →
  inv (l :: exec) pend (start_callback l st w).
Proof.
  intros HI Hl Hs. pose proof (inv_nodup _ _ _ HI) as [Hn Hnd]%NoDup_cons.
  split; [apply start_callback_ok; [apply HI|done..]|done| | | |apply HI|apply HI].
  - intros l'. pose proof (inv_own _ _ _ HI l') as Ho. unfold owned in *. cbn in *. rewrite lookup_insert.
    case_decide as El; [subst l'|].
    + split; [naive_solver|]. set_solver.
    + rewrite Ho. set_solver.
  - cbn. rewrite (exts_update _ l st) by done. apply HI.
  - cbn. rewrite (exts_update _ l st) by done. apply HI.
Qed.

Lemma end_callback_inv exec pend w l st :
  inv (l :: exec) pend w → reqs w !! l = Some st → m_self_ptr st = false →
  inv exec pend (end_callback l st w).
Proof.
  intros HI Hl Hs. split; [by apply end_callback_ok; [apply HI|]|apply HI| | | |apply HI|apply HI].
  - intros l'. rewrite <- (inv_own _ _ _ HI). unfold owned. cbn. rewrite lookup_insert.
    case_decide; subst; [|done]. rewrite Hl. naive_solver.
  - cbn. rewrite (exts_update _ l st) by done. apply HI.
  - cbn. rewrite (exts_update _ l st) by done. apply HI.
Qed.

Lemma complete_req_wp exec l pend w :
  inv exec (l :: pend) w →
  wp E (complete_req call l) (λ _ w', keeps exec pend w w' ∧ l ∈ invoked w') w.
Proof.
  intros HI. destruct (proj2 (inv_own _ _ _ HI l)) as (st & Hl & Hs); [set_solver|].
  pose proof (start_callback_inv _ _ _ _ _ HI Hl Hs) as HI1.
  pose proof (Hcall (m_cb st) (m_rank st) (m_tag st) _ _ _ HI1) as Hw. unfold wp in Hw.
  apply wp_bnd, (wp_from _ _ _ _ _ _ (release_self_ref_run _ _ _ Hl Hs)), wp_scoped.
  destruct (call _ _ _ _) as [[[]| |h] w2] eqn:Ecall; [|done|].
  - destruct Hw as [HI2 HS2].
    destruct (invoke_cb_ok call _ _ _ _ _ Hl Ecall (inv_base _ _ _ HI2)) as (st2 & Hl2 & Hs2 & Hp2 & Hinv & HB3).
    apply (wp_from _ _ _ _ _ _ Hinv).
    pose proof (end_callback_inv _ _ _ _ _ HI2 Hl2 Hs2) as HI3.
    assert (l ∉ exec) as Hne.
    { pose proof (bi_exec_nodup _ _ (inv_base _ _ _ HI2)) as [? _]%NoDup_cons. done. }
    eapply wp_mono; [apply (drop_handle_wp _ _ _ l (set_ready true st2) HI3)|].
    + cbn. apply lookup_insert_eq.
    + cbn. rewrite Hs2, decide_False by done. lia.
    + intros _ w4 [[HI4 HS4] [Ei _]]. split.
      * split; [done|]. transitivity (start_callback l st w); [|transitivity w2; [done|]].
        -- split; try done; by eexists.
        -- transitivity (end_callback l st2 w2); [|done]. by split.
      * rewrite Ei. cbn. eapply elem_of_prefix, (st_invoked _ _ HS2). cbn. set_solver.
  - unfold wp, invoke_cb. erewrite bnd_ret; [|apply get_req_ok, lookup_insert_eq].
    unfold bnd at 1. cbn. unfold call_cb, bnd at 1. cbn. unfold bnd.
    fold (start_callback l st w). by rewrite Ecall.
Qed.

Lemma complete_all_wp exec pend l w :
  inv exec (l ++ pend) w →
  wp E (mfor l (complete_req call)) (λ _ w', keeps exec pend w w' ∧ ∀ s, s ∈ l → s ∈ invoked w') w.
Proof.
  revert w. induction l as [|s l IH]; intros w HI; cbn [mfor app] in *.
  { apply wp_ret. split; [by apply nccl_keeps_refl|set_solver]. }
  apply wp_bnd. eapply wp_mono; [by apply complete_req_wp|]. intros _ w1 [K1 Hs].
  eapply wp_mono; [by apply IH, K1|]. intros _ w2 [K2 Hl]. split; [by eapply nccl_keeps_trans|].
  intros s' [->|Hin]%elem_of_cons; [|by apply Hl]. eapply elem_of_prefix; [exact Hs|apply K2].
Qed.
End ops.
