(* ===== verification/NcclProgress.v ===== *)
(** * Progress of the NCCL backend

    The loops of [request_queue::progress] and [shared_request_queue::progress]
    against reference functions on lists, and what progress does to the requests
    that wait. *)
From S2P Require Import Prelude Request NcclModel NcclInv NcclOps.

(** ** Reference functions *)

Section reference.
Context {U : Type} (judge : positive → U → bool * U).

(** The requests that are ready, those that are not, in order; the device is
    asked about one after the other. *)
Fixpoint split_ready (l : list positive) (u : U) : list positive * list positive * U :=
  match l with
  | [] => ([], [], u)
  | s :: l =>
      let '(r, u1) := judge s u in
      let '(rd, wt, u2) := split_ready l u1 in
      if r then (s :: rd, wt, u2) else (rd, s :: wt, u2)
  end.

(** The first request that is ready, those before it and those after it. *)
Fixpoint find_ready (l : list positive) (u : U) :
    option positive * list positive * list positive * U :=
  match l with
  | [] => (None, [], [], u)
  | s :: l =>
      let '(r, u1) := judge s u in
      if r then (Some s, [], l, u1)
      else let '(o, before, after, u2) := find_ready l u1 in (o, s :: before, after, u2)
  end.

Lemma split_ready_perm l u rd wt u' : split_ready l u = (rd, wt, u') → l ≡ₚ rd ++ wt.
Proof.
  revert u rd wt. induction l as [|s l IH]; intros u rd wt; cbn; [by intros [= <- <- _]|].
  destruct (judge s u) as [r u1], (split_ready l u1) as [[rd1 wt1] u2] eqn:El.
  destruct r; intros [= <- <- <-]; rewrite (IH _ _ _ El); [done|]. by rewrite Permutation_middle.
Qed.

Lemma find_ready_split l u o before after u' :
  find_ready l u = (o, before, after, u') → l = before ++ option_list o ++ after.
Proof.
  revert u o before. induction l as [|s l IH]; intros u o before; cbn; [by intros [= <- <- <- _]|].
  destruct (judge s u) as [[] u1]; [by intros [= <- <- <- _]|].
  destruct (find_ready l u1) as [[[o1 b1] a1] u2] eqn:El. intros [= <- <- <- <-].
  cbn. f_equal. by eapply IH.
Qed.

(** When the device says yes to everything, everything is ready. *)
Lemma split_ready_all (D : U → Prop) l u :
  (∀ s u, s ∈ l → D u → (judge s u).1 = true ∧ D (judge s u).2) → D u → (split_ready l u).1 = (l, []).
Proof.
  revert u. induction l as [|s l IH]; intros u Hj Hu; cbn; [done|].
  destruct (Hj s u ltac:(set_solver) Hu) as [Hs Hd]. destruct (judge s u) as [r u1]. cbn in Hs, Hd. subst r.
  specialize (IH u1 ltac:(set_solver) Hd). destruct (split_ready l u1) as [[rd wt] u2]. cbn in *. by simplify_eq.
Qed.
End reference.

Section progress.
Context `{Nccl, !NcclLaws} {Hfault : NcclFaultless} {CB : Type}.
Abbreviation W := (world CB nccl_request nccl_backend).
Implicit Types w : W.
Implicit Types b : nccl_backend.

(** The answer for a request, in the state [w]. *)
Definition judge w (s : positive) : dev_st → bool * dev_st :=
  verdict (reqs w !! s ≫= λ st, event_of (groups (backend w)) (m_ext st)).

Definition live w (l : list positive) : Prop := ∀ s, s ∈ l → is_Some (reqs w !! s).

(** The members that the loops write. *)
Definition at_scan (q : qid) (l rd : list positive) (u : dev_st) b : nccl_backend :=
  set_device u (set_ready_q q rd (set_q q l b)).
Definition at_pop (l loc : list positive) (u : dev_st) b : nccl_backend :=
  set_device u (set_local loc (set_q SharedQ l b)).

Lemma at_scan_again q l l' rd rd' u u' b : at_scan q l' rd' u' (at_scan q l rd u b) = at_scan q l' rd' u' b.
Proof. unfold at_scan, set_q, set_ready_q, set_device. cbn. by rewrite !insert_insert_eq. Qed.
Lemma at_pop_again l l' loc loc' u u' b : at_pop l' loc' u' (at_pop l loc u b) = at_pop l' loc' u' b.
Proof. unfold at_pop, set_q, set_local, set_device. cbn. by rewrite insert_insert_eq. Qed.

Lemma set_backend_again b b' w : set_backend b (set_backend b' w) = set_backend b w.
Proof. done. Qed.

Lemma get_q_scan q l rd u b : get_q q (at_scan q l rd u b) = l.
Proof. unfold get_q, at_scan. cbn. by rewrite lookup_insert_eq. Qed.
Lemma get_ready_scan q l rd u b : get_ready q (at_scan q l rd u b) = rd.
Proof. unfold get_ready, at_scan. cbn. by rewrite lookup_insert_eq. Qed.
Lemma get_q_pop l loc u b : get_q SharedQ (at_pop l loc u b) = l.
Proof. unfold get_q, at_pop. cbn. by rewrite lookup_insert_eq. Qed.

(** The state during a loop: [w] with other members [b']. *)
Lemma req_is_ready_run w s u (f : dev_st → nccl_backend) :
  ev_inv [] (exts (reqs w)) (backend w) → is_Some (reqs w !! s) → alive u = alive (device (backend w)) →
  (∀ u, groups (f u) = groups (backend w) ∧ pool (f u) = pool (backend w) ∧
        group_info (f u) = group_info (backend w) ∧ device (f u) = u ∧ ∀ u', set_device u' (f u) = f u') →
  req_is_ready s (set_backend (f u) w) = (Ret (judge w s u).1, set_backend (f (judge w s u).2) w) ∧
  alive (judge w s u).2 = alive u.
Proof.
  intros HE [st Hs] Hu Hf. destruct (Hf u) as (Eg & Ep & Ei & Ed & Es).
  assert (ev_inv [] (exts (reqs w)) (f u)) as HE'.
  { destruct HE. split; unfold pool_handles, active_groups in *; rewrite ?Eg, ?Ep, ?Ei, ?Ed, ?Hu; done. }
  unfold judge. rewrite Hs. cbn [mbind option_bind]. split.
  - unfold req_is_ready. erewrite bnd_ret; [|by apply get_req_ok].
    rewrite (request_is_ready_run [] (exts (reqs w))); [|done|by eapply in_exts].
    cbn [backend set_backend]. rewrite Eg, Ed, Es. done.
  - pose proof (verdict_alive [] _ _ (m_ext st) u HE (in_exts _ _ _ Hs) Hu) as Hv. done.
Qed.

(** A request that is not ready moves to the position [num_not_ready]. *)
Lemma store_run q w s l wt0 gap rd u :
  ∃ gap1, length gap1 = length gap ∧
    (if decide (length wt0 = length wt0 + length gap) then ret tt
     else upd_backend (λ b, set_q q (<[length wt0 := s]> (get_q q b)) b))
      (set_backend (at_scan q (wt0 ++ gap ++ s :: l) rd u (backend w)) w) =
    (Ret tt, set_backend (at_scan q ((wt0 ++ [s]) ++ gap1 ++ l) rd u (backend w)) w).
Proof.
  destruct gap as [|g gap].
  - exists []. split; [done|]. rewrite decide_True by (cbn; lia). cbn. by rewrite <- app_assoc.
  - exists (gap ++ [s]). split; [rewrite length_app; cbn; lia|]. rewrite decide_False by (cbn; lia).
    unfold upd_backend, modify. cbn [backend set_backend]. rewrite get_q_scan.
    replace (length wt0) with (length wt0 + 0) by lia. rewrite insert_app_r. cbn.
    rewrite <- !app_assoc. unfold at_scan, set_q, set_ready_q, set_device. cbn. by rewrite insert_insert_eq.
Qed.

(** The loop of [request_queue::progress]: the positions before [i] hold the
    requests [wt0] that are not ready and leftovers. *)
Lemma scan_run q w l wt0 gap rd0 u rd wt u' :
  ev_inv [] (exts (reqs w)) (backend w) → live w l → alive u = alive (device (backend w)) →
  split_ready (judge w) l u = (rd, wt, u') →
  ∃ gap', scan q (length l) (length wt0 + length gap) (length wt0)
            (set_backend (at_scan q (wt0 ++ gap ++ l) rd0 u (backend w)) w) =
          (Ret (length wt0 + length wt),
           set_backend (at_scan q (wt0 ++ wt ++ gap') (rd0 ++ rd) u' (backend w)) w) ∧
          alive u' = alive (device (backend w)).
Proof.
  intros HE. revert wt0 gap rd0 u rd wt. induction l as [|s l IH]; intros wt0 gap rd0 u rd wt Hl Hu; cbn [split_ready].
  { intros [= <- <- <-]. exists gap. cbn. rewrite !app_nil_r, Nat.add_0_r. done. }
  destruct (judge w s u) as [r u1] eqn:Ej, (split_ready (judge w) l u1) as [[rd1 wt1] u2] eqn:Er.
  destruct (req_is_ready_run w s u (λ u, at_scan q (wt0 ++ gap ++ s :: l) rd0 u (backend w)) HE) as [Erdy Hal];
    [apply Hl; set_solver|done|done|].
  rewrite Ej in Erdy, Hal. cbn [fst snd] in Erdy, Hal.
  assert (live w l) as Hl' by (intros s' Hin; apply Hl; set_solver).
  cbn [length scan]. unfold bnd at 1, gets at 1. cbn [backend set_backend]. rewrite get_q_scan.
  rewrite lookup_app_r, lookup_app_r by lia.
  replace (length wt0 + length gap - length wt0 - length gap) with 0 by lia. cbn [lookup list_lookup].
  erewrite bnd_ret by exact Erdy. destruct r; intros [= <- <- <-].
  - unfold bnd, upd_backend, modify. cbn [backend set_backend]. rewrite get_ready_scan.
    rewrite set_backend_again.
    replace (set_ready_q q (rd0 ++ [s]) (at_scan q (wt0 ++ gap ++ s :: l) rd0 u1 (backend w)))
      with (at_scan q (wt0 ++ (gap ++ [s]) ++ l) (rd0 ++ [s]) u1 (backend w)).
    2:{ unfold at_scan, set_ready_q, set_q, set_device. cbn. rewrite insert_insert_eq, <- app_assoc. done. }
    destruct (IH wt0 (gap ++ [s]) (rd0 ++ [s]) u1 rd1 wt1 Hl' ltac:(congruence) Er) as (gap' & E2 & Hal2).
    exists gap'. rewrite length_app in E2. cbn [length] in E2.
    replace (S (length wt0 + length gap)) with (length wt0 + (length gap + 1)) by lia.
    rewrite E2, <- app_assoc. done.
  - destruct (store_run q w s l wt0 gap rd0 u1) as (gap1 & Hg1 & E1).
    rewrite (bnd_ret _ _ _ _ _ E1).
    destruct (IH (wt0 ++ [s]) gap1 rd0 u1 rd1 wt1 Hl' ltac:(congruence) Er) as (gap' & E2 & Hal2).
    exists gap'. rewrite length_app, Hg1 in E2. cbn [length] in E2.
    replace (S (length wt0 + length gap)) with (length wt0 + 1 + length gap) by lia.
    replace (S (length wt0)) with (length wt0 + 1) by lia. rewrite E2, <- app_assoc. cbn.
    split; [|done]. do 2 f_equal. lia.
Qed.

(** ** [request_queue::progress] *)

(** The state after the loop. *)
Definition scanned (q : qid) (wt rd : list positive) (u : dev_st) b : nccl_backend :=
  at_scan q wt rd u (set_in_progress ({[q]} ∪ in_progress b) b).

Lemma inv_live exec pend w q : inv exec pend w → live w (get_q q (backend w)).
Proof.
  intros HI s Hs. destruct (proj2 (inv_own _ _ _ HI s)) as (st & Hl & _); [|by eexists].
  apply elem_of_app. right. rewrite (nccl_places_get q). set_solver.
Qed.

Lemma scan_all_run q w rd wt u :
  ev_inv [] (exts (reqs w)) (backend w) → live w (get_q q (backend w)) → get_q q (backend w) ≠ [] →
  split_ready (judge w) (get_q q (backend w)) (device (backend w)) = (rd, wt, u) →
  (enter q ;;; scan_queue q (length (get_q q (backend w)))) w =
    (Ret tt, set_backend (scanned q wt rd u (backend w)) w) ∧
  alive u = alive (device (backend w)).
Proof.
  intros HE Hl Hne Hs. set (l := get_q q (backend w)) in *.
  set (w1 := set_backend (set_in_progress ({[q]} ∪ in_progress (backend w)) (backend w)) w).
  assert (ev_inv [] (exts (reqs w1)) (backend w1)) as HE1 by (destruct HE; by split).
  destruct (scan_run q w1 l [] [] [] (device (backend w)) rd wt u HE1 Hl eq_refl Hs) as (gap & Er & Ha).
  split; [|done]. unfold bnd at 1, enter, upd_backend at 1, modify. fold w1.
  unfold scan_queue, bnd at 1, upd_backend at 1, modify.
  replace (set_backend (set_ready_q q [] (backend w1)) w1)
    with (set_backend (at_scan q l [] (device (backend w)) (backend w1)) w1).
  2:{ f_equal. unfold at_scan, set_q, set_ready_q, set_device. cbn. f_equal. apply insert_id.
      unfold l, get_q in *. by destruct (queues (backend w) !! q). }
  cbn [app length Nat.add] in Er. erewrite bnd_ret by exact Er.
  unfold upd_backend, modify. cbn [backend set_backend]. rewrite get_q_scan, take_app_length.
  unfold scanned, w1. rewrite !set_backend_again. cbn [backend set_backend].
  unfold at_scan, set_q, set_ready_q, set_device. cbn. by rewrite insert_insert_eq.
Qed.

Lemma scanned_inv exec pend q w rd wt u :
  q ≠ SharedQ → inv exec pend w → alive u = alive (device (backend w)) →
  get_q q (backend w) ≡ₚ rd ++ wt →
  inv exec (rd ++ pend) (set_backend (scanned q wt rd u (backend w)) w).
Proof.
  intros Hq HI Ha HP.
  assert ((rd ++ pend) ++ places (scanned q wt rd u (backend w)) ≡ₚ pend ++ places (backend w)) as HPl.
  { rewrite (nccl_places_get q (backend w)), HP.
    change (places (scanned q wt rd u (backend w))) with (places (set_q q wt (backend w))).
    rewrite nccl_places_set. rewrite !app_assoc. by rewrite (Permutation_app_comm pend). }
  split; cbn [backend set_backend].
  - apply nccl_same_base, HI.
  - rewrite HPl. apply HI.
  - intros l. rewrite HPl. apply HI.
  - destruct (inv_ev _ _ _ HI). split; cbn; rewrite ?Ha; done.
  - by eapply grp_inv_same; [apply HI|..].
  - transitivity (m_size (backend w)); [done|]. rewrite (inv_size _ _ _ HI). do 3 f_equal.
    unfold get_q. cbn. by rewrite lookup_insert_ne.
  - apply HI.
Qed.

(** The outcome of the callbacks, seen from before the queue was entered. *)
Lemma left_keeps exec pend q w wt rd u w' :
  q ∉ in_progress (backend w) → keeps exec pend (set_backend (scanned q wt rd u (backend w)) w) w' →
  keeps exec pend w (set_backend (set_in_progress (in_progress (backend w') ∖ {[q]}) (backend w')) w').
Proof.
  intros Hq [HI HS]. split.
  - destruct HI as [H1 H2 H3 H4 H5 H6 H7]. split; try done; [by apply nccl_same_base|by destruct H4|].
    by eapply grp_inv_same.
  - destruct HS as [S1 S2 S3 S4 S5 S6]. split; try done; cbn in *.
    + rewrite S1. apply leibniz_equiv. set_solver.
    + intros q' Hq'. transitivity (get_ready q' (backend w')); [done|]. rewrite S2 by set_solver.
      unfold get_ready. cbn. rewrite lookup_insert_ne; [done|]. by intros ->.
Qed.

Context (E : halt → Prop) (call : CB → Z → Z → M W unit).
Hypothesis Hcall : ∀ cb, well_behaved E call cb.

Lemma queue_progress_wp exec pend q w :
  q ≠ SharedQ → inv exec pend w →
  wp E (queue_progress call q) (λ n w', keeps exec pend w w' ∧ (q ∉ in_progress (backend w) →
     let rd := (split_ready (judge w) (get_q q (backend w)) (device (backend w))).1.1 in
     n = Z.of_nat (length rd) ∧ ∀ s, s ∈ rd → s ∈ invoked w')) w.
Proof.
  intros Hq HI. unfold queue_progress. apply wp_bnd, wp_gets. case_decide as Hp.
  { apply wp_ret. split; [by apply nccl_keeps_refl|done]. }
  destruct (decide (get_q q (backend w) = [])) as [El|El].
  - apply wp_bnd, wp_modify. rewrite El. rewrite decide_True by done. apply wp_bnd, wp_modify, wp_ret.
    cbn [backend set_backend set_in_progress in_progress].
    replace (set_in_progress _ _) with (backend w).
    + rewrite set_backend_again. destruct w as [? ? ? ? ? ? b]. split; [by apply nccl_keeps_refl|]. cbn. set_solver.
    + destruct w as [? ? ? ? ? ? []]. cbn in *. unfold set_in_progress. cbn. f_equal.
      apply leibniz_equiv. set_solver.
  - destruct (split_ready (judge w) (get_q q (backend w)) (device (backend w))) as [[rd wt] u] eqn:Es.
    destruct (scan_all_run q w rd wt u (inv_ev _ _ _ HI) (inv_live _ _ _ _ HI) El Es) as [Er Ha].
    pose proof (scanned_inv exec pend q w rd wt u Hq HI Ha (split_ready_perm _ _ _ _ _ _ Es)) as HI2.
    unfold wp. destruct (decide (length (get_q q (backend w)) = 0)) as [El'|_]; [by apply nil_length_inv in El'|].
    rewrite <- bnd_assoc, (bnd_ret _ _ _ _ _ Er). unfold bnd at 1, gets at 1. cbn [backend set_backend].
    unfold scanned at 1 2. rewrite get_ready_scan. fold (scanned q wt rd u (backend w)).
    apply wp_bnd. eapply wp_mono; [by apply (complete_all_wp E call Hcall exec pend rd)|].
    intros [] w3 [K3 Hin]. apply wp_bnd, wp_modify, wp_ret. split; [by eapply left_keeps|]. done.
Qed.

(** ** [shared_request_queue::progress] *)

Lemma pop_ready_run w l loc u o before after u' k :
  ev_inv [] (exts (reqs w)) (backend w) → live w l → alive u = alive (device (backend w)) →
  find_ready (judge w) l u = (o, before, after, u') → length l ≤ k →
  pop_ready k (set_backend (at_pop l loc u (backend w)) w) =
    (Ret o, set_backend (at_pop after (loc ++ before) u' (backend w)) w) ∧
  alive u' = alive (device (backend w)).
Proof.
  intros HE. revert k loc u before. induction l as [|s l IH]; intros k loc u before Hl Hu; cbn [find_ready].
  { intros [= <- <- <- <-] _. split; [|done]. rewrite app_nil_r.
    destruct k; cbn [pop_ready]; unfold bnd, gets; cbn [backend set_backend]; by rewrite get_q_pop. }
  intros Hf Hk. destruct k as [|k]; [cbn in Hk; lia|]. cbn [length] in Hk.
  cbn [pop_ready]. unfold bnd at 1, gets. cbn [backend set_backend]. rewrite get_q_pop.
  unfold bnd at 1, upd_backend at 1, modify. cbn [backend set_backend]. rewrite set_backend_again.
  replace (set_q SharedQ l (at_pop (s :: l) loc u (backend w))) with (at_pop l loc u (backend w))
    by (unfold at_pop, set_q, set_local, set_device; cbn; by rewrite insert_insert_eq).
  destruct (req_is_ready_run w s u (λ u, at_pop l loc u (backend w)) HE) as [Erdy Hal];
    [apply Hl; set_solver|done|done|].
  destruct (judge w s u) as [r u1] eqn:Ej. cbn [fst snd] in Erdy, Hal. erewrite bnd_ret by exact Erdy.
  destruct r.
  - injection Hf as <- <- <- <-. rewrite app_nil_r. split; [done|congruence].
  - destruct (find_ready (judge w) l u1) as [[[o1 b1] a1] u2] eqn:El. injection Hf as <- <- <- <-.
    unfold bnd, upd_backend, modify. cbn [backend set_backend]. rewrite set_backend_again.
    change (set_local _ _) with (at_pop l (loc ++ [s]) u1 (backend w)).
    destruct (IH k (loc ++ [s]) u1 b1) as [E1 H1]; [intros s' ?; apply Hl; set_solver|congruence|done|lia|].
    rewrite <- app_assoc in E1. split; [exact E1|done].
Qed.

(** The state in which the callback of [shared_request_queue::progress] runs:
    the skipped requests are at the end of the queue. *)
Definition popped (o : option positive) (l : list positive) (u : dev_st) b : nccl_backend :=
  let b := set_device u (set_q SharedQ l b) in
  match o with Some _ => set_size (u64 (m_size b - 1)) b | None => b end.

Lemma popped_inv exec pend w o before after u :
  inv exec pend w → alive u = alive (device (backend w)) →
  get_q SharedQ (backend w) = before ++ option_list o ++ after →
  keeps exec (option_list o ++ pend) w (set_backend (popped o (after ++ before) u (backend w)) w).
Proof.
  intros HI Ha Hq.
  assert ((option_list o ++ pend) ++ places (popped o (after ++ before) u (backend w)) ≡ₚ
          pend ++ places (backend w)) as HPl.
  { rewrite (nccl_places_get SharedQ (backend w)), Hq.
    transitivity ((option_list o ++ pend) ++ places (set_q SharedQ (after ++ before) (backend w))); [by destruct o|].
    rewrite nccl_places_set. solve_Permutation. }
  split.
  - split; cbn [backend set_backend].
    + apply nccl_same_base, HI.
    + rewrite HPl. apply HI.
    + intros l. rewrite HPl. apply HI.
    + destruct (inv_ev _ _ _ HI). by destruct o; split; cbn; rewrite ?Ha.
    + by eapply grp_inv_same; [apply HI|destruct o..].
    + assert (get_q SharedQ (popped o (after ++ before) u (backend w)) = after ++ before) as ->.
      { unfold get_q. destruct o; cbn; by rewrite lookup_insert_eq. }
      destruct o; cbn [popped set_size set_device set_q m_size]; rewrite (inv_size _ _ _ HI), Hq.
      * unfold Z.sub. rewrite u64_add_l, !length_app. cbn [option_list option_rect length]. f_equal. lia.
      * cbn [option_list option_rect app]. by rewrite !length_app, Nat.add_comm.
    + transitivity (m_local_queue (backend w)); [by destruct o|]. apply HI.
  - destruct o; by split.
Qed.

(** Evaluate the field updates of a world given by its constructors. *)
Ltac simpl_fields :=
  cbv beta iota delta [at_pop popped backend set_backend set_in_progress set_q set_local set_size
    set_device queues in_progress m_local_queue device ready_queues m_size groups group_info pool
    reqs next counters invoked canceled calls app].

(** Everything before the callback. *)
Lemma pop_all_run exec pend w o before after u :
  inv exec pend w → SharedQ ∉ in_progress (backend w) →
  find_ready (judge w) (get_q SharedQ (backend w)) (device (backend w)) = (o, before, after, u) →
  take_ready (length (get_q SharedQ (backend w))) w =
    (Ret o, set_backend (popped o (after ++ before) u (backend w)) w) ∧
  alive u = alive (device (backend w)).
Proof.
  intros HI Hp Ef.
  set (w1 := set_backend (set_in_progress ({[SharedQ]} ∪ in_progress (backend w)) (backend w)) w).
  assert (ev_inv [] (exts (reqs w1)) (backend w1)) as HE1 by (destruct (inv_ev _ _ _ HI); by split).
  destruct (pop_ready_run w1 (get_q SharedQ (backend w)) [] (device (backend w)) o before after u
    (length (get_q SharedQ (backend w))) HE1 (inv_live _ _ _ SharedQ HI) eq_refl Ef (le_n _)) as [Er Ha].
  split; [|done]. pose proof (inv_local _ _ _ HI) as Hloc.
  assert (({[SharedQ]} ∪ in_progress (backend w)) ∖ {[SharedQ]} = in_progress (backend w)) as Hflag.
  { apply leibniz_equiv. set_solver. }
  unfold take_ready, bnd at 1, enter, upd_backend at 1, modify. fold w1.
  destruct (get_q SharedQ (backend w)) as [|x l] eqn:El.
  - injection Ef as <- <- <- <-. unfold bnd, leave, upd_backend, modify, ret, w1, get_q in *.
    cbn [pop_ready length]. unfold bnd, gets, ret, get_q.
    cbn [backend set_backend set_in_progress set_q set_local queues in_progress m_local_queue
         device ready_queues m_size groups group_info pool]. rewrite El. cbv beta iota.
    cbn [backend set_backend set_in_progress set_q set_local queues in_progress m_local_queue
         device ready_queues m_size groups group_info pool]. rewrite El, Hflag, Hloc. cbn [app].
    unfold popped. rewrite !set_backend_again. do 2 f_equal. unfold set_q, set_device, set_local, set_in_progress.
    cbn [queues in_progress m_local_queue device ready_queues m_size groups group_info pool].
    by rewrite ?Hflag, Hloc.
  - replace (set_backend (at_pop (x :: l) [] (device (backend w)) (backend w1)) w1) with w1 in Er.
    2:{ unfold w1. rewrite set_backend_again. f_equal. cbn. unfold at_pop, set_q, set_local, set_device. cbn.
        unfold set_in_progress. f_equal; [|done]. symmetry. apply insert_id. unfold get_q in El.
        destruct (queues (backend w) !! SharedQ); cbn in *; congruence. }
    erewrite bnd_ret by exact Er. unfold w1. rewrite set_backend_again. cbn [backend set_backend].
    unfold bnd, leave, upd_backend, modify, ret. cbn [backend set_backend]. rewrite get_q_pop.
    clear -Hloc Hflag. destruct w as [? ? ? ? ? ? []]. cbn in Hloc, Hflag. subst.
    destruct o; simpl_fields; by rewrite insert_insert_eq, Hflag.
Qed.

Lemma shared_progress_wp exec pend w :
  inv exec pend w →
  wp E (shared_progress call) (λ n w', keeps exec pend w w' ∧ (SharedQ ∉ in_progress (backend w) →
     match (find_ready (judge w) (get_q SharedQ (backend w)) (device (backend w))).1.1.1 with
     | Some s => n = 1%Z ∧ s ∈ invoked w'
     | None => n = 0%Z
     end)) w.
Proof.
  intros HI. unfold shared_progress. apply wp_bnd, wp_gets. case_decide as Hp.
  { apply wp_ret. split; [by apply nccl_keeps_refl|done]. }
  destruct (find_ready (judge w) (get_q SharedQ (backend w)) (device (backend w))) as [[[o before] after] u] eqn:Ef.
  destruct (pop_all_run exec pend w o before after u HI Hp Ef) as [Er Ha].
  pose proof (popped_inv exec pend w o before after u HI Ha (find_ready_split _ _ _ _ _ _ _ Ef)) as K.
  unfold wp. rewrite (bnd_ret _ _ _ _ _ Er). cbn [fst]. destruct o as [s|].
  - apply wp_bnd. eapply wp_mono; [by apply (complete_req_wp E call Hcall exec s pend), K|].
    intros [] w3 [K3 Hin]. apply wp_ret. split; [by eapply nccl_keeps_trans|done].
  - apply wp_ret. done.
Qed.
End progress.
