(* ===== verification/NcclApi.v ===== *)
(** * What a program sees of the NCCL backend

    The operations of the library as steps between states of the program, the
    invariant in every reachable state, and what follows from it. *)
From S2P Require Import Prelude Request NcclModel NcclInv NcclOps NcclProgress.

Section api.
Context `{Nccl, !NcclLaws} {Hfault : NcclFaultless} {CB : Type}.
Abbreviation W := (world CB nccl_request nccl_backend).
Implicit Types w : W.
Variables (E : halt → Prop) (rank : Z).

(** ** Each operation *)

(** What posting does to the groups. *)
Lemma posted_wp exec pend op c peer stream sched r t cb q w :
  (∀ u ok u', op u = (ok, u') → ok = true ∧ alive u' = alive u) →
  inv exec pend w → peer ≠ rank ∨ is_group_active c (backend w) = true → sched ∈ cells →
  wp E (let! x := nccl_op rank op c peer stream in
        let! s := post sched r t cb x in
        upd_backend (enqueued q s) ;;; ret s)
    (λ s w', s = next w ∧ keeps exec pend w w' ∧ s ∈ get_q q (backend w') ∧
             owned w' s ∧ calls w' = calls w ∧ invoked w' = invoked w) w.
Proof.
  intros Hop HI Hg Hcell. apply wp_bnd.
  eapply wp_mono; [by apply (nccl_op_wp E rank (exts (reqs w))); [|apply HI|]|].
  intros x w1 [S1 Hx]. apply post_enqueue_wp; [done..| |done].
  pose proof (inv_grp _ _ _ HI) as HG. destruct (group_info (backend w) !! c) as [[g o]|] eqn:Ec.
  - destruct Hx as (-> & Ei & e & n & Hg1 & Eg). by eapply grp_post_group.
  - destruct Hx as ([Ei Eg] & e & ->). apply grp_post_cached. by eapply grp_inv_same.
Qed.

Definition post_result exec pend q w (s : positive) w' : Prop :=
  s = next w ∧ keeps exec pend w w' ∧ s ∈ get_q q (backend w') ∧ owned w' s ∧
  calls w' = calls w ∧ invoked w' = invoked w.

Lemma nccl_send_wp exec pend c ptr size dst tag cb stream w :
  inv exec pend w → dst ≠ rank ∨ is_group_active c (backend w) = true →
  wp E (send rank c ptr size dst tag cb stream) (post_result exec pend (SendQ c) w) w.
Proof. intros HI Hg. apply (posted_wp exec pend _ c dst stream scheduled_sends _ _ _ (SendQ c)); [apply nccl_send_ok|done..|set_solver]. Qed.
Lemma nccl_recv_wp exec pend c ptr size src tag cb stream w :
  inv exec pend w → src ≠ rank ∨ is_group_active c (backend w) = true →
  wp E (recv rank c ptr size src tag cb stream) (post_result exec pend (RecvQ c) w) w.
Proof. intros HI Hg. apply (posted_wp exec pend _ c src stream scheduled_recvs _ _ _ (RecvQ c)); [apply recv_ok|done..|set_solver]. Qed.
Lemma nccl_shared_recv_wp exec pend c ptr size src tag cb stream w :
  inv exec pend w → src ≠ rank ∨ is_group_active c (backend w) = true →
  wp E (shared_recv rank c ptr size src tag cb stream) (post_result exec pend SharedQ w) w.
Proof.
  intros HI Hg.
  pose proof (posted_wp exec pend (ncclRecv ptr size src stream) c src stream scheduled_shared_recvs src tag cb
    SharedQ w) as Hp. apply Hp; [apply recv_ok|done..|set_solver].
Qed.

Lemma nccl_start_group_wp exec pend c w :
  inv exec pend w → is_group_active c (backend w) = false →
  wp E (start_group c) (λ _ w', keeps exec pend w w') w.
Proof.
  intros HI Ha. eapply wp_mono; [apply (start_group_wp E c (exts (reqs w))); [apply HI|done]|].
  intros _ w' (S1 & g & e & Hg & Eg & Ei). apply ev_step_keeps; [done..|].
  eapply grp_start; [apply HI|apply HI| |done..]. by apply bool_decide_eq_false, eq_None_not_Some in Ha.
Qed.

Lemma nccl_end_group_wp exec pend c w :
  inv exec pend w → is_group_active c (backend w) = true →
  wp E (end_group c) (λ _ w', keeps exec pend w w' ∧ is_group_active c (backend w') = false) w.
Proof.
  intros HI Ha. eapply wp_mono; [apply (end_group_wp E c (exts (reqs w))); [apply HI|done]|].
  intros _ w' (S1 & g & o & e & n & Hc & Hg & Ei & Eg). split.
  - apply ev_step_keeps; [done..|]. eapply grp_end; [apply HI|apply HI|done..].
  - unfold is_group_active. rewrite Ei, lookup_delete_eq. by apply bool_decide_eq_false; intros [].
Qed.

(** ** Programs *)

Variable call : CB → Z → Z → M W unit.

(** The state after the construction of the context. *)
Definition init (u : dev_st) : W := World ∅ 1 ∅ [] [] [] (NcclBackend _ u ∅ ∅ ∅ 0 [] ∅ ∅ None).

(** What a program may do next, with any communicator [c].  A handle is dropped
    if it is one of the references; [step_device] is the work of the device. *)
Inductive api_step : W → W → Prop :=
| step_send w c ptr size dst tag cb stream s w' :
    send rank c ptr size dst tag cb stream w = (Ret s, w') → api_step w w'
| step_recv w c ptr size src tag cb stream s w' :
    recv rank c ptr size src tag cb stream w = (Ret s, w') → api_step w w'
| step_shared_recv w c ptr size src tag cb stream s w' :
    shared_recv rank c ptr size src tag cb stream w = (Ret s, w') → api_step w w'
| step_start_group w c w' : start_group c w = (Ret tt, w') → api_step w w'
| step_end_group w c w' : end_group c w = (Ret tt, w') → api_step w w'
| step_progress w c w' : progress call c w = (Ret tt, w') → api_step w w'
| step_ctx_progress w n w' : shared_progress call w = (Ret n, w') → api_step w w'
| step_cancel w s b w' : cancel_recv s w = (Ret b, w') → api_step w w'
| step_drop w l st w' :
    reqs w !! l = Some st → (if m_self_ptr st then 1 else 0) < m_refs st →
    drop_handle l w = (Ret tt, w') → api_step w w'
| step_device w u :
    alive u = alive (device (backend w)) →
    api_step w (set_backend (set_device u (backend w)) w).

Definition reachable (u : dev_st) w : Prop := alive u = ∅ ∧ rtc api_step (init u) w.

(** Between operations. *)
Definition good w : Prop := inv [] [] w ∧ in_progress (backend w) = ∅.

Lemma nccl_good_keeps w w' : good w → keeps [] [] w w' → good w'.
Proof. intros [_ Hf] [HI HS]. split; [done|]. by rewrite (st_flags _ _ HS). Qed.

Lemma nccl_init_good u : alive u = ∅ → good (init u).
Proof.
  intros Hu. split; [|done]. split; cbn; try done.
  - split; cbn; try (intros *; by rewrite lookup_empty); try set_solver; try apply NoDup_nil_2.
    intros l Hl. lia.
  - apply NoDup_nil_2.
  - intros l. unfold owned. cbn. setoid_rewrite lookup_empty. set_solver.
  - split; cbn; [by rewrite Hu|intros g; by rewrite lookup_empty|set_solver].
Qed.

Hypothesis Hcall : ∀ cb, well_behaved E call cb.

Lemma nccl_progress_wp exec pend c w :
  inv exec pend w → is_group_active c (backend w) = false →
  wp E (progress call c) (λ _ w', keeps exec pend w w' ∧ (SendQ c ∉ in_progress (backend w) →
     ∀ s, s ∈ (split_ready (judge w) (get_q (SendQ c) (backend w)) (device (backend w))).1.1 → s ∈ invoked w')) w.
Proof.
  intros HI Ha. unfold progress. apply wp_bnd, wp_gets. rewrite Ha.
  apply wp_bnd. eapply wp_mono; [by apply queue_progress_wp|]. intros n1 w1 [K1 H1].
  apply wp_bnd. eapply wp_mono; [by apply queue_progress_wp; [done..|apply K1]|]. intros n2 w2 [K2 _].
  apply wp_bnd. eapply wp_mono; [by apply shared_progress_wp; [done..|apply K2]|]. intros n3 w3 [K3 _].
  apply wp_ret. split; [by eapply nccl_keeps_trans, nccl_keeps_trans|].
  intros Hp s Hs. destruct (H1 Hp) as [_ H1']. specialize (H1' s Hs).
  eapply elem_of_prefix; [|apply K3]. eapply elem_of_prefix; [exact H1'|apply K2].
Qed.

Lemma not_self_or_group {A} op c peer stream (k : nccl_request → M W A) w a w' :
  bnd (nccl_op rank op c peer stream) k w = (Ret a, w') →
  peer ≠ rank ∨ is_group_active c (backend w) = true.
Proof.
  unfold nccl_op, bnd, gets. destruct (decide (peer = rank)); [|intros _; by left].
  rewrite bool_decide_eq_true_2 by done. destruct (is_group_active c (backend w)); [intros _; by right|done].
Qed.

Lemma nccl_step_keeps w w' : good w → api_step w w' → keeps [] [] w w'.
Proof.
  intros [HI Hf] Hstep.
  destruct Hstep as [w c p n d t cb st s w' Es|w c p n d t cb st s w' Es|w c p n d t cb st s w' Es|w c w' Es|
    w c w' Es|w c w' Es|w n w' Es|w s b w' Es|w l st w' Hl Hr Es|w u Hu].
  - pose proof (not_self_or_group _ _ _ _ _ _ _ _ Es). by apply (wp_inv _ _ _ _ _ _ (nccl_send_wp _ _ _ _ _ _ _ _ _ _ HI ltac:(eassumption)) Es).
  - pose proof (not_self_or_group _ _ _ _ _ _ _ _ Es). by apply (wp_inv _ _ _ _ _ _ (nccl_recv_wp _ _ _ _ _ _ _ _ _ _ HI ltac:(eassumption)) Es).
  - pose proof (not_self_or_group _ _ _ _ _ _ _ _ Es). by apply (wp_inv _ _ _ _ _ _ (nccl_shared_recv_wp _ _ _ _ _ _ _ _ _ _ HI ltac:(eassumption)) Es).
  - destruct (is_group_active c (backend w)) eqn:Ea; [|by apply (wp_inv _ _ _ _ _ _ (nccl_start_group_wp _ _ _ _ HI Ea) Es)].
    unfold start_group, bnd at 1, gets in Es. by rewrite Ea in Es.
  - destruct (is_group_active c (backend w)) eqn:Ea; [by apply (wp_inv _ _ _ _ _ _ (nccl_end_group_wp _ _ _ _ HI Ea) Es)|].
    apply bool_decide_eq_false, eq_None_not_Some in Ea. unfold end_group, bnd at 1, gets in Es. by rewrite Ea in Es.
  - destruct (is_group_active c (backend w)) eqn:Ea; [|by apply (wp_inv _ _ _ _ _ _ (nccl_progress_wp _ _ _ _ HI Ea) Es)].
    unfold progress, bnd at 1, gets in Es. by rewrite Ea in Es.
  - by apply (wp_inv _ _ _ _ _ _ (shared_progress_wp E call Hcall _ _ _ HI) Es).
  - injection Es as _ <-. by apply nccl_keeps_refl.
  - refine (proj1 (wp_inv _ _ _ _ _ _ (drop_handle_wp E _ _ _ _ _ HI Hl _) Es)).
    rewrite decide_False by set_solver. lia.
  - apply ev_step_keeps; [done|by apply ev_step_device; [apply HI|]|]. by eapply grp_inv_same; [apply HI|..].
Qed.

Lemma nccl_reachable_good u w : reachable u w → good w.
Proof.
  intros [Hu Hr]. pose proof (nccl_init_good u Hu) as Hg.
  induction Hr as [|w1 w2 w3 Hs _ IH]; [done|]. apply IH. eapply nccl_good_keeps; [done|]. by apply nccl_step_keeps.
Qed.

(** ** Promises *)

(** C26: In every state a program reaches without an error of CUDA or NCCL
    ([NcclFaultless]), the requests ever posted are partitioned: a request waits in
    one queue of one communicator or of the context, at one place, or its callback has been called, once; none is
    canceled.  The counter of the shared queue is its length. *)
Theorem nccl_callback_exactly_once u w :
  reachable u w →
  NoDup (places (backend w)) ∧ NoDup (invoked w) ∧ canceled w = [] ∧
  (∀ l, l ∈ places (backend w) → l ∉ invoked w) ∧
  (∀ l, (l < next w)%positive ↔ l ∈ places (backend w) ∨ l ∈ invoked w) ∧
  m_size (backend w) = u64 (Z.of_nat (length (get_q SharedQ (backend w)))).
Proof.
  intros Hr. pose proof (nccl_reachable_good _ _ Hr) as [HI _]. pose proof (inv_base _ _ _ HI) as HB.
  assert (canceled w = []) as Hc.
  { destruct Hr as [Hu Hr]. pose proof (nccl_init_good u Hu) as Hg. assert (canceled (init u) = []) as Hc0 by done.
    revert Hg Hc0. induction Hr as [|w1 w2 w3 Hs _ IH]; [done|]. intros Hg Hc0.
    pose proof (nccl_step_keeps _ _ Hg Hs) as K. apply IH; [done..|by eapply nccl_good_keeps|].
    by rewrite (st_canceled _ _ (proj2 K)). }
  pose proof (inv_own _ _ _ HI) as Ho. pose proof (bi_once _ _ HB) as Hn. cbn in Ho.
  pose proof (bi_waiting _ _ HB) as Hwt. pose proof (bi_total _ _ HB) as Ht. pose proof (bi_past _ _ HB) as Hp.
  rewrite Hc, app_nil_r in *. split_and!; [apply HI|done|done| | |apply HI].
  - intros l (st & Hl & Hs)%Ho. by eapply Hwt.
  - intros l. rewrite <- Ho. split; [apply Ht|].
    intros [(st & Hl & Hs)|Hin]; [|by apply Hp]. apply (bi_next _ _ HB). by eexists.
Qed.

(** C28: Every CUDA event that was created has one owner in every state a program reaches
    without an error of CUDA or NCCL:
    the pool, a request, or a group, which is held by the communicator that
    opened it and by its requests.  When no request is left and no group is
    open, all events are back in the pool. *)
Theorem nccl_events_owned_once u w :
  reachable u w →
  pool_handles (backend w) ++ (exts (reqs w) ≫= handles_of) ++ group_handles (groups (backend w)) ≡ₚ
    elements (alive (device (backend w))) ∧
  (∀ g e n, groups (backend w) !! g = Some (e, n) →
     n = list_count (is_group g) (exts (reqs w)) + active_groups g (backend w) ∧ 0 < n) ∧
  (reqs w = ∅ → group_info (backend w) = ∅ →
     pool_handles (backend w) ≡ₚ elements (alive (device (backend w)))).
Proof.
  intros [HI _]%nccl_reachable_good. destruct (inv_ev _ _ _ HI) as [H1 H2 H3]. cbn [app] in H1.
  split; [exact H1|]. split.
  - intros g e n Hg. specialize (H2 g). rewrite Hg in H2. naive_solver.
  - intros Hr Hi. rewrite <- H1, Hr. unfold exts. rewrite map_to_list_empty. cbn.
    assert (groups (backend w) = ∅) as ->; [|unfold group_handles; by rewrite map_to_list_empty, app_nil_r].
    apply map_eq. intros g. rewrite lookup_empty. specialize (H2 g).
    destruct (groups (backend w) !! g) as [[e n]|]; [|done]. exfalso.
    unfold active_groups, exts in H2. rewrite Hr, Hi, map_to_list_empty in H2. cbn in H2.
    rewrite map_count_zero in H2; [lia|]. intros c v. by rewrite lookup_empty.
Qed.

(** The in-place loop of [request_queue::progress] splits the queue: the ready
    requests, in order, into the ready queue; the others, in order, stay in the
    queue. *)
Theorem nccl_scan_partitions u w q rd wt v :
  reachable u w → get_q q (backend w) ≠ [] →
  split_ready (judge w) (get_q q (backend w)) (device (backend w)) = (rd, wt, v) →
  ∃ w', (enter q ;;; scan_queue q (length (get_q q (backend w)))) w = (Ret tt, w') ∧
        get_ready q (backend w') = rd ∧ get_q q (backend w') = wt ∧
        get_q q (backend w) ≡ₚ rd ++ wt ∧ device (backend w') = v ∧
        (∀ q', q' ≠ q → get_q q' (backend w') = get_q q' (backend w)) ∧ reqs w' = reqs w.
Proof.
  intros [HI _]%nccl_reachable_good Hne Es.
  destruct (scan_all_run q w rd wt v (inv_ev _ _ _ HI) (inv_live _ _ _ q HI) Hne Es) as [Er _].
  eexists. split; [exact Er|]. cbn [backend set_backend]. unfold scanned.
  rewrite get_ready_scan, get_q_scan. split_and!; [done..|by eapply split_ready_perm|done| |done].
  intros q' Hq. unfold get_q. cbn. by rewrite lookup_insert_ne.
Qed.
End api.

Section returns.
Context `{Nccl, !NcclLaws} {Hfault : NcclFaultless} {CB : Type}.
Abbreviation W := (world CB nccl_request nccl_backend).
Implicit Types w : W.
Variables (call : CB → Z → Z → M W unit) (rank : Z).
Abbreviation nothing := (λ _ : halt, False).

(** C27: From every state a program reaches without an error of CUDA or NCCL, every
    operation that is not misused returns, as long as these report no error: no assertion
    fails, no request or event that is gone is used, every loop ends; whatever the
    callbacks do with the backend, as long as they return. *)
Theorem nccl_operations_return u w :
  (∀ cb, well_behaved nothing call cb) → reachable rank call u w →
  let returns A (m : M W A) := ∃ a w', m w = (Ret a, w') ∧ good w' in
  (∀ c ptr size dst tag cb stream, dst ≠ rank ∨ is_group_active c (backend w) = true →
     returns _ (send rank c ptr size dst tag cb stream) ∧
     returns _ (recv rank c ptr size dst tag cb stream) ∧
     returns _ (shared_recv rank c ptr size dst tag cb stream)) ∧
  (∀ c, is_group_active c (backend w) = false → returns _ (start_group c) ∧ returns _ (progress call c)) ∧
  (∀ c, is_group_active c (backend w) = true → returns _ (end_group c)) ∧
  returns _ (shared_progress call) ∧
  (∀ l st, reqs w !! l = Some st → (if m_self_ptr st then 1 else 0) < m_refs st → returns _ (drop_handle l)).
Proof.
  intros Hcall Hr returns. pose proof (nccl_reachable_good nothing rank call Hcall u w Hr) as [HI Hf].
  assert (∀ A (m : M W A) (Q : A → W → Prop), wp nothing m Q w →
            (∀ a w', Q a w' → keeps [] [] w w') → returns A m) as Hret.
  { intros A m Q Hm HQ. destruct (wp_returns _ _ _ _ (λ h (f : False), f) Hm) as (a & w' & Em & Hq).
    exists a, w'. split; [done|]. eapply nccl_good_keeps; [by split|by eapply HQ]. }
  split_and!.
  - intros c ptr size dst tag cb stream Hg. split_and!.
    + eapply Hret; [by apply nccl_send_wp|]. by intros ? ? (_ & ? & _).
    + eapply Hret; [by apply nccl_recv_wp|]. by intros ? ? (_ & ? & _).
    + eapply Hret; [by apply nccl_shared_recv_wp|]. by intros ? ? (_ & ? & _).
  - intros c Ha. split; [eapply Hret; [by apply nccl_start_group_wp|by intros]|].
    eapply Hret; [by apply nccl_progress_wp|]. by intros ? ? [? _].
  - intros c Ha. eapply Hret; [by apply nccl_end_group_wp|]. by intros ? ? [? _].
  - eapply Hret; [by apply shared_progress_wp|]. by intros ? ? [? _].
  - intros l st Hl Hlt. eapply Hret; [apply (drop_handle_wp nothing [] [] w l st HI Hl)|by intros ? ? [? _]].
    rewrite decide_False by set_solver. lia.
Qed.

(** On a device that has finished, every request of every queue is found ready. *)
Lemma finished_ready (finished : dev_st → Prop) w :
  inv [] [] w → group_info (backend w) = ∅ →
  (∀ h v, finished v → (cudaEventQuery h v).1 = cudaSuccess ∧ finished (cudaEventQuery h v).2) →
  ∀ q s v, s ∈ get_q q (backend w) → finished v → (judge w s v).1 = true ∧ finished (judge w s v).2.
Proof.
  intros HI Hi Hd q s v' Hs Hv. destruct (inv_live _ _ _ q HI s Hs) as [st Hl].
  assert (∃ e, event_of (groups (backend w)) (m_ext st) = Some e ∧ m_recorded e = true) as (e & He & Hrec).
  { pose proof (in_exts _ _ _ Hl) as Hx. destruct (m_ext st) as [e|g]; cbn.
    - exists e. split; [done|]. by apply (ei_recorded _ _ _ (inv_ev _ _ _ HI)).
    - destruct (request_group_alive _ _ _ _ (inv_ev _ _ _ HI) Hx) as [[e n] Hg]. exists e. rewrite Hg.
      split; [done|]. eapply (gi_closed _ _ (inv_grp _ _ _ HI)); [exact Hg|]. intros c' o. by rewrite Hi, lookup_empty. }
  unfold judge. rewrite Hl. cbn [mbind option_bind]. rewrite He. unfold verdict. rewrite Hrec.
  specialize (Hd (m_event e) v' Hv). destruct (cudaEventQuery _ _) as [r u']. cbn in Hd |- *.
  destruct Hd as [-> Hd]. done.
Qed.

(** C29: When no CUDA or NCCL call fails, the device has finished all work ([finished]
    holds of its state and queries answer accordingly) and no group is open: progress of
    the send queue or of the receive queue of a communicator calls the callbacks of all
    its requests; progress of the shared queue calls that of the first one, and only
    completes one; progress of the communicator calls those of all its sends. *)
Theorem nccl_progress_completes (finished : dev_st → Prop) u w c :
  (∀ cb, well_behaved nothing call cb) → reachable rank call u w →
  group_info (backend w) = ∅ → finished (device (backend w)) →
  (∀ h v, finished v → (cudaEventQuery h v).1 = cudaSuccess ∧ finished (cudaEventQuery h v).2) →
  (∀ q, q ≠ SharedQ → ∃ w', queue_progress call q w = (Ret (Z.of_nat (length (get_q q (backend w)))), w') ∧
          ∀ s, s ∈ get_q q (backend w) → s ∈ invoked w') ∧
  (∀ s Q, get_q SharedQ (backend w) = s :: Q →
     ∃ w', shared_progress call w = (Ret 1%Z, w') ∧ s ∈ invoked w') ∧
  (∃ w', progress call c w = (Ret tt, w') ∧ ∀ s, s ∈ get_q (SendQ c) (backend w) → s ∈ invoked w').
Proof.
  intros Hcall Hr Hi Hfin Hd. pose proof (nccl_reachable_good nothing rank call Hcall u w Hr) as [HI Hf].
  pose proof (finished_ready finished w HI Hi Hd) as Hready.
  assert (∀ q, (split_ready (judge w) (get_q q (backend w)) (device (backend w))).1 =
               (get_q q (backend w), [])) as Hall.
  { intros q. apply (split_ready_all _ finished); [|done]. intros s v. apply Hready. }
  split_and!.
  - intros q Hq. destruct (wp_returns _ _ _ _ (λ h (f : False), f)
      (queue_progress_wp nothing call Hcall [] [] q w Hq HI)) as (n & w' & Eq & _ & Hn).
    destruct Hn as [-> Hin]; [rewrite Hf; set_solver|]. specialize (Hall q).
    rewrite Hall in *. by exists w'.
  - intros s Q EQ. destruct (wp_returns _ _ _ _ (λ h (f : False), f)
      (shared_progress_wp nothing call Hcall [] [] w HI)) as (n & w' & Eq & _ & Hn).
    specialize (Hn ltac:(rewrite Hf; set_solver)). rewrite EQ in Hn. cbn in Hn.
    destruct (Hready SharedQ s (device (backend w))) as [Hj _]; [rewrite EQ; set_solver|done|].
    destruct (judge w s _) as [j v1]. cbn in Hj. subst j. cbn in Hn. destruct Hn as [-> Hin]. by exists w'.
  - assert (is_group_active c (backend w) = false) as Ha.
    { apply bool_decide_eq_false. rewrite Hi, lookup_empty. by intros []. }
    destruct (wp_returns _ _ _ _ (λ h (f : False), f)
      (nccl_progress_wp nothing call Hcall [] [] c w HI Ha)) as ([] & w' & Eq & _ & Hn).
    exists w'. split; [done|]. intros s Hs. apply Hn; [rewrite Hf; set_solver|].
    by rewrite Hall.
Qed.

(** Misuse is refused and changes nothing: groups that are opened twice or
    closed without being open, progress inside a group, messages to the own
    rank outside a group, a thread-safe context. *)
Theorem nccl_misuse_throws w c :
  (is_group_active c (backend w) = true →
     (∃ msg, start_group c w = (Throw (logic_error msg), w)) ∧
     (∃ msg, progress call c w = (Throw (logic_error msg), w))) ∧
  (is_group_active c (backend w) = false →
     (∃ msg, end_group c w = (Throw (logic_error msg), w)) ∧
     (∀ ptr size tag cb stream, ∃ msg,
        send rank c ptr size rank tag cb stream w = (Throw (runtime_error msg), w) ∧
        recv rank c ptr size rank tag cb stream w = (Throw (runtime_error msg), w) ∧
        shared_recv rank c ptr size rank tag cb stream w = (Throw (runtime_error msg), w))) ∧
  (∃ msg, check_not_thread_safe true w = (Throw (runtime_error msg), w)).
Proof.
  split_and!; [intros Ha; split|intros Ha; split|by eexists].
  - unfold start_group, bnd at 1, gets. rewrite Ha. by eexists.
  - unfold progress, bnd at 1, gets. rewrite Ha. by eexists.
  - apply bool_decide_eq_false, eq_None_not_Some in Ha. unfold end_group, bnd at 1, gets. rewrite Ha. by eexists.
  - intros ptr size tag cb stream. unfold send, recv, shared_recv, raw_send, raw_recv, nccl_op, bnd, gets.
    rewrite bool_decide_eq_true_2, Ha by done. cbn. by eexists.
Qed.
End returns.
