(* ===== verification/NcclExamples.v ===== *)
(** * The NCCL backend on a concrete device

    A small device that satisfies [NcclLaws]: events are numbered, and finished
    when [t_done] is set.  The callbacks post.  The theorems about the backend
    are applied to states that a program reaches with it. *)
From S2P Require Import Prelude Request NcclModel NcclInv NcclOps NcclProgress NcclApi.

Record nccl_toy : Type := NcclToy { t_alive : gset positive; t_done : bool }.

#[export] Instance nccl_toy_device : Nccl := {|
  dev_st := nccl_toy;
  ncclGroupStart u := (true, u);
  ncclGroupEnd u := (true, u);
  ncclSend _ _ _ _ u := (true, u);
  ncclRecv _ _ _ _ u := (true, u);
  cudaEventCreate u :=
    let h := fresh (t_alive u) in (Some h, NcclToy ({[h]} ∪ t_alive u) (t_done u));
  cudaEventRecord _ _ u := (true, u);
  cudaEventQuery _ u := (if t_done u then cudaSuccess else cudaErrorNotReady, u);
  cudaEventDestroy h u := (true, NcclToy (t_alive u ∖ {[h]}) (t_done u))
|}.

#[export] Program Instance nccl_toy_laws : NcclLaws := {| alive := t_alive |}.
Next Obligation. done. Qed.
Next Obligation. done. Qed.
Next Obligation. done. Qed.
Next Obligation. done. Qed.
Next Obligation. intros u o u' [= <- <-]. split; [apply is_fresh|done]. Qed.
Next Obligation. done. Qed.
Next Obligation. done. Qed.

#[export] Instance nccl_toy_faultless : NcclFaultless.
Proof. split; try done. intros h u _. cbn. by destruct (t_done u). Qed.

Abbreviation NW := (world nat nccl_request nccl_backend).
Abbreviation nothing := (λ _ : halt, False).

(** The callback [n] posts a receive from rank 1 with the callback [n - 1]; the
    rank of the process is 0. *)
Definition nccl_chain (n : nat) (r t : Z) : M NW unit :=
  match n with
  | O => ret tt
  | S n => recv 0 0 0 64 1 t n 7 ;;; ret tt
  end.

Lemma nccl_chain_well_behaved n : well_behaved nothing nccl_chain n.
Proof.
  intros r t exec pend w HI. destruct n as [|n]; cbn [nccl_chain]; [by apply wp_ret, nccl_keeps_refl|].
  apply wp_bnd. eapply wp_mono; [by apply (nccl_recv_wp nothing 0 exec pend); [|left]|].
  intros s w' (_ & K & _). by apply wp_ret.
Qed.

Definition nrun {A} (m : M NW A) (w : NW) : NW := (m w).2.
Lemma nccl_ran {A} (m : M NW A) (w : NW) a : (m w).1 = Ret a → m w = (Ret a, nrun m w).
Proof. intros <-. apply surjective_pairing. Qed.

(** The device finishes its work. *)
Definition finish_work (w : NW) : NW :=
  set_backend (set_device (NcclToy (t_alive (device (backend w))) true) (backend w)) w.
Lemma finish_work_step w : api_step 0 nccl_chain w (finish_work w).
Proof. by apply step_device. Qed.

Abbreviation nreachable := (reachable 0 nccl_chain (NcclToy ∅ false)).

(** A send outside of a group; in a group, a message from the process to
    itself; the group is closed; the device finishes; progress. *)
Definition na : NW := nrun (send 0 0 0 64 1 5 1 7) (init (NcclToy ∅ false)).
Definition nb : NW := nrun (start_group 0) na.
Definition nc : NW := nrun (send 0 0 0 64 0 6 0 7) nb.
Definition nd : NW := nrun (recv 0 0 0 64 0 6 0 7) nc.
Definition ne : NW := nrun (end_group 0) nd.
Definition nf : NW := finish_work ne.
Definition ng : NW := nrun (progress nccl_chain 0) nf.

Lemma reach_na : nreachable na.
Proof.
  split; [done|]. apply rtc_once, (step_send _ _ _ 0 0 64 1 5 1 7 1).
  apply (nccl_ran (send 0 0 0 64 1 5 1 7)). vm_compute. reflexivity.
Qed.
Lemma reach_nb : nreachable nb.
Proof.
  split; [done|]. eapply rtc_r; [apply reach_na|]. apply (step_start_group _ _ na 0).
  apply (nccl_ran (start_group 0)). vm_compute. reflexivity.
Qed.
Lemma reach_nc : nreachable nc.
Proof.
  split; [done|]. eapply rtc_r; [apply reach_nb|]. apply (step_send _ _ nb 0 0 64 0 6 0 7 2).
  apply (nccl_ran (send 0 0 0 64 0 6 0 7)). vm_compute. reflexivity.
Qed.
Lemma reach_nd : nreachable nd.
Proof.
  split; [done|]. eapply rtc_r; [apply reach_nc|]. apply (step_recv _ _ nc 0 0 64 0 6 0 7 3).
  apply (nccl_ran (recv 0 0 0 64 0 6 0 7)). vm_compute. reflexivity.
Qed.
Lemma reach_ne : nreachable ne.
Proof.
  split; [done|]. eapply rtc_r; [apply reach_nd|]. apply (step_end_group _ _ nd 0).
  apply (nccl_ran (end_group 0)). vm_compute. reflexivity.
Qed.
Lemma reach_nf : nreachable nf.
Proof.
  split; [done|]. eapply rtc_r; [apply reach_ne|].
  exact (finish_work_step ne).
Qed.
Lemma reach_ng : nreachable ng.
Proof.
  split; [done|]. eapply rtc_r; [apply reach_nf|]. apply (step_progress _ _ nf 0).
  apply (nccl_ran (progress nccl_chain 0)). vm_compute. reflexivity.
Qed.

(** ** The theorems at these states *)

Lemma nccl_callback_exactly_once_witness :
  places (backend ng) = [] ∧ invoked ng = [1%positive; 2%positive; 3%positive; 4%positive] ∧
  ∀ l, (l < next ng)%positive ↔ l ∈ places (backend ng) ∨ l ∈ invoked ng.
Proof.
  split; [vm_compute; reflexivity|]. split; [vm_compute; reflexivity|].
  destruct (nccl_callback_exactly_once nothing 0 nccl_chain nccl_chain_well_behaved _ ng reach_ng)
    as (_ & _ & _ & _ & Hp & _). exact Hp.
Defined.

Lemma nccl_events_owned_once_witness :
  length (pool_handles (backend ne)) = 126 ∧
  pool_handles (backend ne) ++ (exts (reqs ne) ≫= handles_of) ++ group_handles (groups (backend ne)) ≡ₚ
    elements (alive (device (backend ne))).
Proof.
  split; [vm_compute; reflexivity|].
  apply (nccl_events_owned_once nothing 0 nccl_chain nccl_chain_well_behaved _ ne reach_ne).
Defined.

Lemma nccl_scan_partitions_witness :
  get_q (SendQ 0) (backend nf) = [1%positive; 2%positive] ∧
  ∃ w', (enter (SendQ 0) ;;; scan_queue (SendQ 0) 2) nf = (Ret tt, w') ∧
        get_ready (SendQ 0) (backend w') = [1%positive; 2%positive].
Proof.
  split; [vm_compute; reflexivity|].
  destruct (nccl_scan_partitions nothing 0 nccl_chain nccl_chain_well_behaved (NcclToy ∅ false) nf (SendQ 0)
    [1%positive; 2%positive] [] (device (backend nf)) reach_nf) as (w' & E1 & E2 & _).
  - vm_compute. discriminate.
  - vm_compute. reflexivity.
  - exists w'. split; [exact E1|exact E2].
Defined.

Lemma nccl_operations_return_witness :
  ∃ w', progress nccl_chain 0 nf = (Ret tt, w') ∧ good w'.
Proof.
  destruct (nccl_operations_return nccl_chain 0 _ nf nccl_chain_well_behaved reach_nf) as (_ & Hp & _).
  destruct (Hp 0) as [_ ([] & w' & E1 & Hg)]; [vm_compute; reflexivity|]. exists w'. split; [exact E1|exact Hg].
Defined.

Lemma nccl_progress_completes_witness :
  ∃ w', progress nccl_chain 0 nf = (Ret tt, w') ∧ 1%positive ∈ invoked w' ∧ 2%positive ∈ invoked w'.
Proof.
  assert (get_q (SendQ 0) (backend nf) = [1%positive; 2%positive]) as Eq by (vm_compute; reflexivity).
  destruct (nccl_progress_completes nccl_chain 0 (λ v, t_done v = true) _ nf 0 nccl_chain_well_behaved reach_nf)
    as (_ & _ & (w' & E1 & Hs)).
  - vm_compute. reflexivity.
  - reflexivity.
  - intros h v Hv. cbn in Hv |- *. rewrite Hv. split; reflexivity.
  - rewrite Eq in Hs. exists w'. split; [exact E1|]. split; apply Hs; [constructor|do 2 constructor].
Defined.

Lemma nccl_misuse_throws_witness :
  (∃ msg, progress nccl_chain 0 nd = (Throw (logic_error msg), nd)) ∧
  (∃ msg, end_group 0 na = (Throw (logic_error msg), na)).
Proof.
  destruct (nccl_misuse_throws nccl_chain 0 nd 0) as [Hg _].
  destruct Hg as [_ Hp]; [vm_compute; reflexivity|].
  destruct (nccl_misuse_throws nccl_chain 0 na 0) as (_ & Hn & _).
  destruct Hn as [He _]; [vm_compute; reflexivity|]. split; [exact Hp|exact He].
Defined.

(** ** Recycled events *)

(** A shared receive completes and its handle is dropped: its event returns to
    the pool, still marked as recorded.  The next group takes this event. *)
Abbreviation ureachable := (reachable 0 nccl_chain (NcclToy ∅ true)).
Definition ua : NW := nrun (shared_recv 0 0 0 64 1 5 0 7) (init (NcclToy ∅ true)).
Definition ub : NW := nrun (shared_progress nccl_chain) ua.
Definition uc : NW := nrun (drop_handle 1) ub.
Definition ud : NW := nrun (start_group 0) uc.
Definition ue : NW := nrun (shared_recv 0 0 0 64 1 5 0 7) ud.
Definition uf : NW := nrun (shared_progress nccl_chain) ue.

Definition finished_request (x : nccl_request) (n : nat) : request_state nat nccl_request :=
  RequestState scheduled_shared_recvs 1 5 0 true false false n x.

Lemma nccl_reach_ub : ureachable ub.
Proof.
  split; [done|]. eapply rtc_l.
  - apply (step_shared_recv _ _ _ 0 0 64 1 5 0 7 1).
    apply (nccl_ran (shared_recv 0 0 0 64 1 5 0 7)). vm_compute. reflexivity.
  - apply rtc_once, (step_ctx_progress _ _ _ 1), (nccl_ran (shared_progress nccl_chain)). vm_compute. reflexivity.
Qed.

Lemma reach_ue : ureachable ue.
Proof.
  split; [done|]. eapply rtc_r; [eapply rtc_r; [eapply rtc_r; [apply nccl_reach_ub|]|]|].
  - apply (step_drop _ _ ub 1 (finished_request (Cached_event (CudaEvent 128 true)) 1)).
    + vm_compute. reflexivity.
    + cbn. lia.
    + apply (nccl_ran (drop_handle 1)). vm_compute. reflexivity.
  - apply (step_start_group _ _ uc 0), (nccl_ran (start_group 0)). vm_compute. reflexivity.
  - apply (step_shared_recv _ _ ud 0 0 64 1 5 0 7 2).
    apply (nccl_ran (shared_recv 0 0 0 64 1 5 0 7)). vm_compute. reflexivity.
Qed.

(** A shared receive that is posted in a group can complete before the group has
    ended, that is before NCCL has started it: a program reaches a state in which
    its callback has been called and the group is still open. *)
Theorem nccl_group_receive_early :
  ∃ w l g o, ureachable w ∧ l ∈ invoked w ∧ group_info (backend w) !! 0 = Some (g, o) ∧
    reqs w !! l = Some (finished_request (Group_event g) 1).
Proof.
  exists uf, 2%positive, 1%positive, (Some 7%Z).
  split; [|split; [|split; [vm_compute; reflexivity|vm_compute; reflexivity]]].
  - split; [done|]. eapply rtc_r; [apply reach_ue|].
    apply (step_ctx_progress _ _ ue 1), (nccl_ran (shared_progress nccl_chain)). vm_compute. reflexivity.
  - assert (invoked uf = [1%positive; 2%positive]) as -> by (vm_compute; reflexivity). do 2 constructor.
Qed.
